(* ===== verification/_CoqProject ===== *)
-Q . S2P
Prelude.v
Hash.v
Record.v
Kbytes.v
Index.v
Segment.v
Strconv.v
Log.v
Recovery.v
Durable.v
Protocol.v
Typed.v
Replication.v
Cluster.v
Fsm.v
Rpc.v
Liveness.v
Wal.v
WalSync.v
ObjectIndex.v
Objects.v
Uploads.v
Minio.v
Backend.v
Fetcher.v
Coordinator.v
Offsets.v
Config.v
Broker.v
Creation.v
Handlers.v
Server.v
ReplicaFetch.v
Listener.v
Metrics.v
Mqbroker.v
Shutdown.v
Committed.v
Failover.v
ObjectNode.v
Lifetime.v
