(* ===== verification/Prelude.v ===== *)
(** * Verification of mq, a Kafka-wire-compatible message queue

    mq is a broker that speaks the Kafka protocol.  Clients and other brokers send
    length-prefixed request frames; a broker decodes them, runs them against its
    partition logs, its consumer groups and the replicated metadata of the cluster,
    and answers.  This development translates that path, from the bytes of a
    request to the bytes on disk, and proves what a user relies on: records are
    read back as they were written, what is acknowledged as committed is on every
    in-sync replica, restarts recover what was stored, groups and offsets are
    consistent, and no bytes from the network crash the decoders.

    ** The parts of the program and the files that model them

    Every definition keeps the name of the Go function or type it translates (with
    a prefix where a name is used twice); state is passed explicitly, a failing
    call answers an [option error] or a sum.

    - [Prelude]: outcomes of Go code ([go]: return, panic, endless loop), machine
      integers with their wrap-around, big-endian bytes, slices, sort.Search, and
      the tactics and lemmas all files share.
    - [Hash], [Strconv]: CRC-32C and FNV-1a, decimal numbers and string helpers of
      the Go standard library, as far as the source uses them.
    - [Kbytes] (internal/kbytes): the reader with its sticky error and the writer;
      the classes [Emits], [Parses] and [Codec] are the interface of the message
      codecs.  [Protocol] (internal/protocol): every request decoder and response
      encoder at every version; [Typed]: every request decoder against the layout of
      its request.
    - [Record] (internal/record/batch.go): the header of a record batch, offset
      and checksum patching, iteration over a record set.
    - [Index], [Segment], [Log], [Recovery] (internal/storage): the sparse index,
      one segment file pair, the partition log over segments, opening and crash
      recovery.  The abstract state of a log is the list of its batches
      ([log_rep]); operations take the outcome of each file call.  [Durable] adds
      how much of each file is on the disk, and power failures.
    - [Wal], [ObjectIndex], [Objects], [Uploads], [Minio] (internal/storage/object):
      the node's write-ahead log, the index of uploaded slices (an interface with two
      implementations, both proved to keep its laws), the storage with its pending
      buffer and uploads, the partition handle, the theorems that relate all of it
      to the batches a partition holds ([part_rep]), and the S3 client's store.
      [WalSync] adds how much of the write-ahead log is on the disk.
    - [Backend] (internal/storage/backend.go): the interface both partition logs
      implement, its laws, the two instances, and a consumer proved against it.
      [Fetcher] (internal/replication): the follower's sessions and its loop over
      them, on any backend, against what a leader answers a replica;
      [ReplicaFetch]: that the server writes exactly that.
    - [Cluster] (internal/cluster): membership and placement.
    - [Fsm] (internal/controller/fsm.go, command.go, indexstore.go, liveness.go):
      the metadata state machine, its index store, liveness and failover.
    - [Rpc] (internal/controller/rpc.go, controller.go): the frames of the
      forwarding calls, the server side, forwarding and retrying a proposal until
      its deadline.
      [Liveness]: the liveness loop over time.
    - [Coordinator], [Offsets] (internal/group): consumer groups and committed
      offsets.
    - [Replication] (internal/replication): the follower's requests, response
      reader and the step on its log.
    - [Broker] (internal/broker): catalog, local logs, leadership, high watermark,
      in-sync set, reconciliation with the metadata.  [Creation]: creating and
      growing topics through the controller's loop and the wait for the local state
      machine.  [ObjectNode]: the same broker with the object backend installed.
    - [Handlers], [Server] (internal/server): every request handler with its
      waits, the dispatcher, and the connection loop.  [Listener]: accepting,
      tracking and closing connections, as a state machine over every
      interleaving.
    - [Committed]: the composition of broker, logs and replication of one
      partition over several nodes, as a step relation.  [Failover]: what it means
      when the leader is lost.
    - [Config] (internal/config): defaults, environment and flags.
    - [Mqbroker] (cmd/mqbroker, internal/controller/controller.go): the health
      probe, the controller's configuration, starting and closing the controller.
      [Metrics] (internal/metrics and refreshGauges of main.go): labels and the
      gauges of a scrape.  [Shutdown]: the end of main, Broker.Close, and the
      close of the object storage.  [Lifetime]: start-up, the flush and retention
      loops, and the life of a node over power failures and restarts.

    ** What the theorems show

    - Replication and commitment: [Committed.committed_means_replicated] (an
      invariant over all interleavings and faults of one leader's tenure),
      [Failover.committed_survives_failover] (the next leader answers what was
      committed, if no lagging replica joined the ISR meanwhile),
      [Server.replication_end_to_end] (a follower's fetch through every layer),
      [Handlers.acks_wait], [Handlers.consumer_fetch_committed],
      [Broker.RecordReplicaFetch_correct], [Broker.ISR_maintenance_correct];
      a fetcher follows the history of the leaders it hears and catches up once a
      session holds ([Fetcher.fetcher_follows_history],
      [Fetcher.replica_catches_up]), and the frames it is given are the server's
      ([ReplicaFetch.leader_answers_replica]).
    - Storage: the log refines a list of batches ([Log.Read_correct],
      [Log.log_append_only], [Log.Append_atomic], ...), recovery
      ([Recovery.Open_recovers]), flushed records and clean shutdowns survive power
      failures ([Durable.flush_survives_power_loss],
      [WalSync.sync_survives_power_loss], [Shutdown.shutdown_durable]), and so does a
      whole node from its first start on ([Lifetime.node_survives_power_loss]); the object backend refines the same list through
      appends, uploads, retention and restarts (the theorems of [Uploads], and
      [Wal.wal_correct]), a killed node comes back with its partitions
      ([ObjectNode.object_node_restarts]), the S3 store keeps the contract the rest
      relies on ([Minio.minio_store_correct]); one consumer reads either back in full
      ([Backend]).
    - Metadata: epochs fence leaders, failover elects the right replica, creation
      places what was asked ([Creation.creation_correct]), brokers agree on placement
      ([Fsm], [Broker], [Cluster]), a forwarded proposal ends by its deadline and one
      call, and is applied once or not at all when no reply is lost
      ([Rpc.proposal_applied]), heartbeats protect their senders ([Rpc]), and no
      partition moves without a reason ([Liveness.failover_justified]).
    - Groups and offsets: reachable coordinators are well formed, rebalances fence
      old generations, a waiting SyncGroup is answered by its 30 s deadline, offsets
      survive restarts of the process ([Coordinator], [Offsets], and their handlers).
    - Wire: decoders are safe on all bytes and invert the Kafka layouts of their
      requests ([Typed.requests_decode]), and a connection serves
      its frames in order ([Protocol], [Server]); Close drains
      the connections ([Listener]), and the health probe tells a serving broker
      from a broken one ([Mqbroker]).
    - Configuration and reports: every field is its flag, variable or default
      ([Config]), the controllers of a cluster find each other ([Mqbroker]), a
      scrape reports the state ([Metrics]).
    - Where the code does not keep what it means to, a closed theorem runs the
      model on the offending input ([Uploads.restart_overwrites_objects],
      [Broker.lagging_replica_joins_ISR], [Handlers.failed_append_acknowledged],
      and others named in the files).

    ** What a failure may do

    A process that ends leaves the files as written.  A power failure
    ([Durable.power_image], [WalSync.wal_image]) keeps what was synced: bytes behind
    the last sync may be gone or torn, a file that was never synced may be missing
    altogether, since the code syncs no directory, and an index file may hold
    anything.  Taken as durable are the removal of old segments, the names of files
    that were synced, and the directories of partitions; the files of committed
    offsets may be anything after a power failure.  A restart after the process
    alone has ended is a step of [Durable.kstep] and of the object backend's
    restart, and is excluded, and said to be, where a theorem needs it: the code
    then forgets to sync ([Durable.restart_forgets_to_sync],
    [WalSync.sync_skips_earlier_segments]).

    ** Bounds and fuel

    Loops whose recursion is not structural take fuel and answer [Spin] when it
    runs out.  The fuel is the length of the data they consume, plus one (each
    round consumes at least one byte, entry or element), and each loop has a lemma
    or theorem that it never answers [Spin] on the states the program reaches, or
    on any input.  Waiting requests take the list of what each wake-up observes;
    there the theorems say which observation ends the wait.  Timers that the code sets
    itself ([syncWaitTimeout], [applyTimeout] with the waits of a call) are part of
    the model: those loops end without a hypothesis on what happens, at most 201
    attempts in the case of a proposal.  Integers are kept at
    their width; hypotheses such as [room], [log_room] and [can_upload] say where
    the code itself has no overflow checks.

    ** What is not modelled

    Goroutines, timers and sockets as such (a connection is a byte
    stream, an operation under a lock is one step, waits are split where the lock
    is released; [Listener] and [Committed] interleave such steps); the raft,
    bolt, minio and Prometheus libraries (what raft does to a proposal is an argument of
    [Rpc], the controller's loop a parameter of [Broker] that [Creation] fills, the minio client a class with the S3 contract, a collector a gauge that
    is set);
    JSON (a parameter of [Rpc] with its round trip); request counters, histograms
    and log lines; the signals and the metrics server of cmd/mqbroker; and the test
    harness.  Failures of
    listing a directory or creating a file are modelled only where the code
    handles them in a way a caller can observe.  The request handlers are modelled on
    the file backend; the object backend is verified against the same interface. *)

From Stdlib Require Export ZArith Lia.
From Stdlib Require Import Strings.Byte.
From stdpp Require Export base tactics numbers list strings gmap.

#[export] Set Default Goal Selector "!".
Global Open Scope Z_scope.

(** ** Outcomes of Go code

    A Go call either returns, panics (slice bounds, index out of range), or
    loops for ever.  [Spin] is what a fuel-indexed loop of the model answers
    when its fuel runs out; every loop below comes with a theorem that the fuel
    it is given suffices wherever the source loop terminates. *)
Inductive go (A : Type) : Type :=
  | Ret (a : A)
  | Panic
  | Spin.
Arguments Ret {A} a.
Arguments Panic {A}.
Arguments Spin {A}.

#[export] Instance go_ret : MRet go := @Ret.
#[export] Instance go_bind : MBind go := fun A B f m =>
  match m with Ret a => f a | Panic => Panic | Spin => Spin end.

(** The error values the packages return. *)
Inductive error : Set :=
  | ErrShort              (* kbytes *)
  | ErrTooShort           (* record *)
  | ErrBadMagic           (* record *)
  | ErrOffsetOutOfRange   (* storage *)
  | ErrReplicaGap         (* storage, object *)
  | ErrIO                 (* any failing file-system or object-store call *)
  | ErrEOF                (* io.ReadFull on an exhausted stream *)
  | ErrClampStop          (* server *)
  | ErrWAL                (* object: undecodable WAL payload *)
  | ErrBadSpec            (* cluster *)
  | ErrTopicExists        (* controller, broker *)
  | ErrUnknownTopic       (* controller, broker *)
  | ErrNoPartition        (* controller *)
  | ErrNilSegment         (* controller *)
  | ErrBadCommand         (* controller *)
  | ErrNotLeader          (* broker *)
  | ErrUnknownPartition   (* broker *)
  | ErrBadCount           (* broker *)
  | ErrCtrlNotLeader      (* controller: errNotLeader *)
  | ErrUnavailable        (* controller: errForwardUnavailable *)
  | ErrNoAddr             (* controller: no forwarding address *)
  | ErrFrame.             (* controller: bad rpc frame size *)

#[export] Instance error_eq_dec : EqDecision error.
Proof. solve_decision. Defined.

(** ** Machine integers

    A Go integer of [w] bits is a [Z]; [swrap w] and [uwrap w] are the
    conversions to the signed and the unsigned type. *)
Definition uwrap (w z : Z) : Z := z mod 2 ^ w.
Definition swrap (w z : Z) : Z := (z + 2 ^ (w - 1)) mod 2 ^ w - 2 ^ (w - 1).

Abbreviation int8 := (swrap 8).
Abbreviation int16 := (swrap 16).
Abbreviation int32 := (swrap 32).
Abbreviation int64 := (swrap 64).
Abbreviation uint16 := (uwrap 16).
Abbreviation uint32 := (uwrap 32).
Abbreviation uint64 := (uwrap 64).

Definition in_int (w z : Z) : Prop := - 2 ^ (w - 1) <= z < 2 ^ (w - 1).

Lemma swrap_id w z : 0 < w -> in_int w z -> swrap w z = z.
Proof.
  intros Hw [Hlo Hhi]. unfold swrap.
  assert (2 ^ w = 2 * 2 ^ (w - 1)) as Hp.
  { rewrite <- Z.pow_succ_r by lia. f_equal. lia. }
  rewrite Z.mod_small by lia. lia.
Qed.

Lemma swrap_range w z : 0 < w -> in_int w (swrap w z).
Proof.
  intros Hw. unfold swrap, in_int.
  assert (2 ^ w = 2 * 2 ^ (w - 1)) as Hp.
  { rewrite <- Z.pow_succ_r by lia. f_equal. lia. }
  assert (0 < 2 ^ w) by (apply Z.pow_pos_nonneg; lia).
  pose proof (Z.mod_pos_bound (z + 2 ^ (w - 1)) (2 ^ w)). lia.
Qed.

Lemma swrap_mod w z : 0 < w -> swrap w (z mod 2 ^ w) = swrap w z.
Proof. intros Hw. unfold swrap. by rewrite Zplus_mod_idemp_l. Qed.

Lemma swrap_uwrap w z : 0 < w -> swrap w (uwrap w z) = swrap w z.
Proof. apply swrap_mod. Qed.

(** [solve_int] proves the range facts and the arithmetic that follows from
    them, with the powers of two of the machine widths evaluated. *)
Ltac eval_pow :=
  change (2 ^ 7) with 128 in *; change (2 ^ 8) with 256 in *;
  change (2 ^ (8 - 1)) with 128 in *; change (2 ^ (16 - 1)) with 32768 in *;
  change (2 ^ (32 - 1)) with 2147483648 in *;
  change (2 ^ (64 - 1)) with 9223372036854775808 in *;
  change (2 ^ 15) with 32768 in *; change (2 ^ 16) with 65536 in *;
  change (2 ^ 31) with 2147483648 in *; change (2 ^ 32) with 4294967296 in *;
  change (2 ^ 63) with 9223372036854775808 in *;
  change (2 ^ 64) with 18446744073709551616 in *.
Ltac solve_int := unfold in_int in *; eval_pow; lia.

Lemma int8_id z : -128 <= z < 128 -> int8 z = z.
Proof. intros. apply swrap_id; solve_int. Qed.
Lemma int16_id z : -32768 <= z < 32768 -> int16 z = z.
Proof. intros. apply swrap_id; solve_int. Qed.
Lemma int32_id z : -2147483648 <= z < 2147483648 -> int32 z = z.
Proof. intros. apply swrap_id; solve_int. Qed.
Lemma int64_id z : -9223372036854775808 <= z < 9223372036854775808 -> int64 z = z.
Proof. intros. apply swrap_id; solve_int. Qed.
Lemma int16_range z : -32768 <= int16 z < 32768.
Proof. pose proof (swrap_range 16 z ltac:(lia)). solve_int. Qed.
Lemma int32_range z : -2147483648 <= int32 z < 2147483648.
Proof. pose proof (swrap_range 32 z ltac:(lia)). solve_int. Qed.
Lemma int64_range z : -9223372036854775808 <= int64 z < 9223372036854775808.
Proof. pose proof (swrap_range 64 z ltac:(lia)). solve_int. Qed.

(** ** Bytes *)

Abbreviation byte := Corelib.Init.Byte.byte.

Definition u8 (b : byte) : Z := Z.of_N (Byte.to_N b).
Definition byte_of_Z (z : Z) : byte :=
  match Byte.of_N (Z.to_N (z mod 256)) with Some b => b | None => x00 end.

Lemma u8_range b : 0 <= u8 b < 256.
Proof. unfold u8. pose proof (Byte.to_N_bounded b). lia. Qed.

Lemma u8_byte_of_Z z : u8 (byte_of_Z z) = z mod 256.
Proof.
  unfold u8, byte_of_Z. pose proof (Z.mod_pos_bound z 256 ltac:(lia)) as Hz.
  destruct (Byte.of_N _) as [b|] eqn:E.
  - apply Byte.to_of_N in E. rewrite E. lia.
  - apply Byte.of_N_None_iff in E. lia.
Qed.

Lemma u8_inj a b : u8 a = u8 b -> a = b.
Proof.
  unfold u8. intros H%N2Z.inj.
  pose proof (Byte.of_to_N a) as Ha. pose proof (Byte.of_to_N b) as Hb.
  rewrite H in Ha. congruence.
Qed.

Lemma byte_of_u8 b : byte_of_Z (u8 b) = b.
Proof.
  apply u8_inj. rewrite u8_byte_of_Z. apply Z.mod_small, u8_range.
Qed.

#[export] Instance byte_eq_dec : EqDecision byte := Byte.byte_eq_dec.

(** Lengths as Go's [len], an [int]. *)
Definition zlen {A} (l : list A) : Z := Z.of_nat (length l).

(** ** Big-endian integers (encoding/binary.BigEndian) *)

Fixpoint be_put (n : nat) (z : Z) : list byte :=
  match n with
  | O => []
  | S n => be_put n (Z.shiftr z 8) ++ [byte_of_Z z]
  end.

Definition be_get (l : list byte) : Z :=
  foldl (fun acc b => acc * 256 + u8 b) 0 l.

Lemma be_get_snoc l b : be_get (l ++ [b]) = be_get l * 256 + u8 b.
Proof. unfold be_get. by rewrite foldl_app. Qed.

Lemma length_be_put n z : length (be_put n z) = n.
Proof. revert z. induction n as [|n IH]; intros z; simpl; [done|]. rewrite length_app, IH. simpl. lia. Qed.

Lemma zlen_be_put n z : zlen (be_put n z) = Z.of_nat n.
Proof. unfold zlen. by rewrite length_be_put. Qed.

Lemma be_get_put n z : be_get (be_put n z) = z mod 256 ^ Z.of_nat n.
Proof.
  revert z. induction n as [|n IH]; intros z.
  - simpl. by rewrite Z.mod_1_r.
  - cbn [be_put]. rewrite be_get_snoc, IH, u8_byte_of_Z, Z.shiftr_div_pow2 by lia.
    change (2 ^ 8) with 256. rewrite Nat2Z.inj_succ, Z.pow_succ_r by lia.
    rewrite Z.rem_mul_r by (try apply Z.pow_nonzero; lia). lia.
Qed.

Lemma be_get_range l : 0 <= be_get l < 256 ^ zlen l.
Proof.
  unfold zlen. induction l as [|b l IH] using rev_ind.
  - unfold be_get. simpl. lia.
  - rewrite be_get_snoc, length_app, Nat2Z.inj_add. simpl (Z.of_nat (length [b])).
    rewrite Z.add_1_r, Z.pow_succ_r by lia. pose proof (u8_range b). nia.
Qed.

Lemma be_put_get l : be_put (length l) (be_get l) = l.
Proof.
  induction l as [|b l IH] using rev_ind; [done|].
  rewrite length_app, be_get_snoc. simpl (length [b]). rewrite Nat.add_1_r. cbn [be_put].
  rewrite Z.shiftr_div_pow2 by lia. change (2 ^ 8) with 256.
  pose proof (u8_range b).
  rewrite Z.div_add_l by lia. rewrite Z.div_small, Z.add_0_r, IH by lia.
  do 2 f_equal. apply u8_inj. rewrite u8_byte_of_Z.
  rewrite Z.add_comm, Z.mod_add, Z.mod_small; lia.
Qed.

Lemma be_put_mod n z z' : z mod 256 ^ Z.of_nat n = z' mod 256 ^ Z.of_nat n -> be_put n z = be_put n z'.
Proof.
  intros H. rewrite <- (be_put_get (be_put n z)), <- (be_put_get (be_put n z')).
  by rewrite !length_be_put, !be_get_put, H.
Qed.

(** The typed reads and writes of encoding/binary: writing an integer converts
    it to the unsigned type, reading it back converts to the signed one. *)
Lemma int8_be z : int8 (be_get (be_put 1 z)) = int8 z.
Proof. rewrite be_get_put. apply (swrap_mod 8). lia. Qed.
Lemma int16_be z : int16 (be_get (be_put 2 z)) = int16 z.
Proof. rewrite be_get_put. apply (swrap_mod 16). lia. Qed.
Lemma int32_be z : int32 (be_get (be_put 4 z)) = int32 z.
Proof. rewrite be_get_put. apply (swrap_mod 32). lia. Qed.
Lemma int64_be z : int64 (be_get (be_put 8 z)) = int64 z.
Proof. rewrite be_get_put. apply (swrap_mod 64). lia. Qed.

(** ** Slices *)

(** [b[lo:hi]] *)
Definition slice {A} (b : list A) (lo hi : Z) : go (list A) :=
  if (0 <=? lo) && (lo <=? hi) && (hi <=? zlen b)
  then Ret (take (Z.to_nat (hi - lo)) (drop (Z.to_nat lo) b)) else Panic.

(** [b[off:off+n]] for a range known to be inside the slice. *)
Definition sub (b : list byte) (off n : nat) : list byte := take n (drop off b).

(** [binary.BigEndian.PutUintN(b[off:], v)]: panics when the [n] bytes do not
    fit behind [off]. *)
Definition put_at (b : list byte) (off : nat) (d : list byte) : go (list byte) :=
  if (off + length d <=? length b)%nat
  then Ret (take off b ++ d ++ drop (off + length d) b) else Panic.

Definition patch (b : list byte) (off : nat) (d : list byte) : list byte :=
  take off b ++ d ++ drop (off + length d) b.

Lemma put_at_fits b off d :
  (off + length d <= length b)%nat -> put_at b off d = Ret (patch b off d).
Proof. intros H. unfold put_at. by rewrite (proj2 (Nat.leb_le _ _) H). Qed.

Lemma put_at_panics b off d :
  (length b < off + length d)%nat -> put_at b off d = Panic.
Proof. intros H. unfold put_at. by rewrite (proj2 (Nat.leb_gt _ _) H). Qed.

Lemma length_patch b off d :
  (off + length d <= length b)%nat -> length (patch b off d) = length b.
Proof. intros H. unfold patch. rewrite !length_app, length_take, length_drop. lia. Qed.

Lemma sub_patch_same b off d :
  (off + length d <= length b)%nat -> sub (patch b off d) off (length d) = d.
Proof.
  intros H. unfold sub, patch. rewrite drop_app_length' by (rewrite length_take; lia).
  by rewrite take_app_length.
Qed.

Lemma sub_patch_before b off d o n :
  (off + length d <= length b)%nat -> (o + n <= off)%nat -> sub (patch b off d) o n = sub b o n.
Proof.
  intros H Ho. unfold sub, patch.
  rewrite drop_app_le by (rewrite length_take; lia).
  rewrite take_app_le by (rewrite length_drop, length_take; lia).
  rewrite <- (take_drop off b) at 2.
  rewrite drop_app_le by (rewrite length_take; lia).
  by rewrite take_app_le by (rewrite length_drop, length_take; lia).
Qed.

Lemma drop_patch_after b off d o :
  (off + length d <= length b)%nat -> (off + length d <= o)%nat -> drop o (patch b off d) = drop o b.
Proof.
  intros H Ho. unfold patch. rewrite app_assoc.
  rewrite drop_app_ge by (rewrite length_app, length_take; lia).
  rewrite length_app, length_take, drop_drop. f_equal. lia.
Qed.

Lemma sub_patch_after b off d o n :
  (off + length d <= length b)%nat -> (off + length d <= o)%nat -> sub (patch b off d) o n = sub b o n.
Proof. intros H Ho. unfold sub. by rewrite drop_patch_after. Qed.

Lemma slice_ok {A} (b : list A) lo hi :
  0 <= lo <= hi -> hi <= zlen b ->
  slice b lo hi = Ret (take (Z.to_nat (hi - lo)) (drop (Z.to_nat lo) b)).
Proof.
  intros [H1 H2] H3. unfold slice.
  by rewrite (proj2 (Z.leb_le _ _) H1), (proj2 (Z.leb_le _ _) H2), (proj2 (Z.leb_le _ _) H3).
Qed.

Lemma zlen_app {A} (a b : list A) : zlen (a ++ b) = zlen a + zlen b.
Proof. unfold zlen. rewrite length_app. lia. Qed.

Lemma zlen_cons {A} (x : A) l : zlen (x :: l) = 1 + zlen l.
Proof. unfold zlen. simpl length. lia. Qed.

Lemma zlen_map {A B} (f : A -> B) l : zlen (map f l) = zlen l.
Proof. unfold zlen. by rewrite length_map. Qed.

Lemma zlen_nonneg {A} (l : list A) : 0 <= zlen l.
Proof. unfold zlen. lia. Qed.

Lemma zlen_nil {A} : zlen (@nil A) = 0.
Proof. done. Qed.

Lemma zlen_pos {A} (l : list A) : l <> [] -> 0 < zlen l.
Proof. destruct l; [done|]. intros _. unfold zlen. simpl length. lia. Qed.

Lemma elem_of_list_concat {A} (x : A) ls : x ∈ concat ls <-> exists l, x ∈ l /\ l ∈ ls.
Proof.
  induction ls as [|l ls IH]; cbn [concat].
  - rewrite elem_of_nil. split; [done|]. intros (l & _ & []%elem_of_nil).
  - rewrite elem_of_app, IH. setoid_rewrite elem_of_cons. naive_solver.
Qed.

Lemma drop_zlen {A} (a b : list A) : drop (Z.to_nat (zlen a)) (a ++ b) = b.
Proof. unfold zlen. by rewrite Nat2Z.id, drop_app_length. Qed.

Lemma take_zlen {A} (a b : list A) : take (Z.to_nat (zlen a)) (a ++ b) = a.
Proof. unfold zlen. by rewrite Nat2Z.id, take_app_length. Qed.

Lemma slice_mid {A} (a b c : list A) :
  slice (a ++ b ++ c) (zlen a) (zlen a + zlen b) = Ret b.
Proof.
  pose proof (zlen_nonneg a). pose proof (zlen_nonneg b). pose proof (zlen_nonneg c).
  rewrite slice_ok by (rewrite ?zlen_app; lia).
  replace (zlen a + zlen b - zlen a) with (zlen b) by lia.
  by rewrite drop_zlen, take_zlen.
Qed.

(** Comparisons the code branches on, decided from the arithmetic context. *)
Ltac ltb_true := rewrite (proj2 (Z.ltb_lt _ _)) by lia.
Ltac ltb_false := rewrite (proj2 (Z.ltb_ge _ _)) by lia.
Ltac leb_true := rewrite (proj2 (Z.leb_le _ _)) by lia.
Ltac leb_false := rewrite (proj2 (Z.leb_gt _ _)) by lia.

#[global] Arguments be_put : simpl never.
#[global] Arguments be_get : simpl never.
#[global] Arguments swrap : simpl never.
#[global] Arguments uwrap : simpl never.
#[global] Arguments zlen : simpl never.

(** ** sort.Search *)

Fixpoint search_loop (fuel : nat) (f : nat -> bool) (i j : nat) : nat :=
  match fuel with
  | O => i
  | S fuel =>
    if (i <? j)%nat then
      let h := ((i + j) / 2)%nat in
      if f h then search_loop fuel f i h else search_loop fuel f (S h) j
    else i
  end.

(** [sort.Search(n, f)]: the interval halves each round, [n] rounds are enough. *)
Definition sort_Search (n : nat) (f : nat -> bool) : nat := search_loop n f 0 n.

Section Search.
Context (n : nat) (f : nat -> bool).
Hypothesis f_mono : forall a b, (a <= b < n)%nat -> f a = true -> f b = true.

Lemma search_loop_spec fuel i j :
  (i <= j <= n)%nat -> (j - i <= fuel)%nat ->
  (forall k, (k < i)%nat -> f k = false) -> (forall k, (j <= k < n)%nat -> f k = true) ->
  let r := search_loop fuel f i j in
  (r <= n)%nat /\ (forall k, (k < r)%nat -> f k = false) /\ (forall k, (r <= k < n)%nat -> f k = true).
Proof.
  revert i j. induction fuel as [|fuel IH]; intros i j Hij Hf Hlo Hhi; cbn [search_loop].
  - assert (i = j) as -> by lia. split_and!; [lia|done|done].
  - destruct (Nat.ltb_spec i j) as [Hlt|Hge]; [|assert (i = j) as -> by lia; split_and!; [lia|done|done]].
    set (h := ((i + j) / 2)%nat).
    assert (i <= h < j)%nat as Hh.
    { unfold h. split; [apply Nat.div_le_lower_bound|apply Nat.Div0.div_lt_upper_bound]; lia. }
    destruct (f h) eqn:Efh; apply IH; try lia; try done.
    + intros k Hk. destruct (decide (j <= k)%nat); [apply Hhi; lia|].
      apply (f_mono h); [lia|done].
    + intros k Hk. destruct (f k) eqn:Efk; [|done].
      rewrite (f_mono k h) in Efh; [done|lia|done].
Qed.

(** The least index where [f] holds, or [n]. *)
Lemma sort_Search_spec :
  let r := sort_Search n f in
  (r <= n)%nat /\ (forall k, (k < r)%nat -> f k = false) /\ (forall k, (r <= k < n)%nat -> f k = true).
Proof. apply search_loop_spec; intros; lia. Qed.
End Search.

(** ** Loops that fill a map *)

Section Filling.
Context `{FinMap K M} {A V : Type} (key : A -> K) (val : A -> option V).

(** Each element may set the entry of its key. *)
Definition fill (m : M V) (a : A) : M V := match val a with Some v => <[key a := v]> m | None => m end.

Lemma fill_other l m k : k ∉ key <$> l -> foldl fill m l !! k = m !! k.
Proof.
  revert m. induction l as [|a l IH]; intros m Hk; [done|]. cbn in Hk. apply not_elem_of_cons in Hk as [Hne Hk].
  cbn [foldl]. rewrite IH by done. unfold fill. destruct (val a); [by rewrite lookup_insert_ne|done].
Qed.

Lemma fill_lookup l m x : NoDup (key <$> l) -> x ∈ l ->
  foldl fill m l !! key x = match val x with Some v => Some v | None => m !! key x end.
Proof.
  revert m. induction l as [|a l IH]; intros m Hnd Hx; [by apply elem_of_nil in Hx|].
  cbn in Hnd. apply NoDup_cons in Hnd as [Ha Hnd]. cbn [foldl]. apply elem_of_cons in Hx as [->|Hx].
  - rewrite fill_other by done. unfold fill. destruct (val a); [by rewrite lookup_insert_eq|done].
  - rewrite IH by done. destruct (val x); [done|]. unfold fill. destruct (val a); [|done].
    apply lookup_insert_ne. intros Heq. apply Ha. rewrite Heq. by apply list_elem_of_fmap_2.
Qed.
End Filling.

(** A loop over a state and its effect on one component. *)
Lemma foldl_proj {S T A} (proj : S -> T) (f : S -> A -> S) (g : T -> A -> T) l s :
  (forall s a, proj (f s a) = g (proj s) a) -> proj (foldl f s l) = foldl g (proj s) l.
Proof. intros Hfg. revert s. induction l as [|a l IH]; intros s; [done|]. cbn. by rewrite IH, Hfg. Qed.
