(* ===== verification/Hash.v ===== *)
(** * Checksums and hashes of the Go standard library the source calls

    [hash/crc32] with the Castagnoli table (internal/record/batch.go,
    internal/storage/object/wal.go) and [hash/fnv] FNV-1a (internal/cluster). *)

From S2P Require Import Prelude.

Module Crc32.

(** The Castagnoli polynomial, reversed. *)
Definition castagnoli : Z := 0x82F63B78.

(** One bit of the reflected division. *)
Definition crc_bit (c : Z) : Z :=
  if Z.testbit c 0 then Z.lxor (Z.shiftr c 1) castagnoli else Z.shiftr c 1.

(** One byte: what the source's 256-entry table looks up. *)
Definition crc_byte (c : Z) (b : byte) : Z := Nat.iter 8 crc_bit (Z.lxor c (u8 b)).

(** [crc32.Checksum(data, castagnoli)] *)
Definition Checksum (data : list byte) : Z :=
  Z.lxor (foldl crc_byte 0xFFFFFFFF data) 0xFFFFFFFF.

(** The check value of the CRC catalogue for the input "123456789". *)
Example checksum_check : Checksum (String.list_byte_of_string "123456789") = 0xE3069283.
Proof. vm_compute. reflexivity. Qed.

Lemma lxor_range32 a b : 0 <= a < 2 ^ 32 -> 0 <= b < 2 ^ 32 -> 0 <= Z.lxor a b < 2 ^ 32.
Proof.
  intros Ha Hb.
  assert (0 <= Z.lxor a b) as H0 by (apply Z.lxor_nonneg; lia).
  split; [done|]. destruct (decide (Z.lxor a b = 0)) as [->|Hn]; [lia|].
  apply Z.log2_lt_pow2; [lia|].
  eapply Z.le_lt_trans; [apply Z.log2_lxor; lia|].
  assert (forall x, 0 <= x < 2 ^ 32 -> Z.log2 x < 32) as Hlog.
  { intros x Hx. destruct (decide (x = 0)) as [->|]; [by vm_compute|]. apply Z.log2_lt_pow2; lia. }
  apply Z.max_lub_lt; auto.
Qed.

Lemma crc_bit_range c : 0 <= c < 2 ^ 32 -> 0 <= crc_bit c < 2 ^ 32.
Proof.
  intros Hc. unfold crc_bit.
  assert (0 <= Z.shiftr c 1 < 2 ^ 32) as Hs.
  { rewrite Z.shiftr_div_pow2 by lia. change (2 ^ 1) with 2. eval_pow.
    pose proof (Z.div_pos c 2). pose proof (Z.div_le_upper_bound c 2 c). lia. }
  destruct (Z.testbit c 0); [|done]. apply lxor_range32; [done|by vm_compute].
Qed.

Lemma crc_bits_range n c : 0 <= c < 2 ^ 32 -> 0 <= Nat.iter n crc_bit c < 2 ^ 32.
Proof. intros Hc. induction n as [|n IH]; [done|]. cbn [Nat.iter nat_rect]. by apply crc_bit_range. Qed.

Lemma checksum_range data : 0 <= Checksum data < 2 ^ 32.
Proof.
  unfold Checksum. apply lxor_range32; [|by vm_compute].
  induction data as [|b data IH] using rev_ind; [by vm_compute|].
  rewrite foldl_app. cbn [foldl]. unfold crc_byte. apply crc_bits_range, lxor_range32; [done|].
  pose proof (u8_range b). eval_pow. lia.
Qed.

End Crc32.

Module Fnv.

Definition offset32 : Z := 2166136261.
Definition prime32 : Z := 16777619.

(** [fnv.New32a] followed by [Write] and [Sum32]. *)
Definition sum32a (data : list byte) : Z :=
  foldl (fun h b => uint32 (Z.lxor h (u8 b) * prime32)) offset32 data.

Example sum32a_empty : sum32a [] = 0x811c9dc5.
Proof. reflexivity. Qed.
Example sum32a_foobar : sum32a (String.list_byte_of_string "foobar") = 0xbf9cf968.
Proof. vm_compute. reflexivity. Qed.

Lemma sum32a_range data : 0 <= sum32a data < 2 ^ 32.
Proof.
  unfold sum32a. destruct data as [|b data] using rev_ind; [vm_compute; intuition congruence|].
  rewrite foldl_app. cbn [foldl]. unfold uwrap. apply Z.mod_pos_bound. lia.
Qed.

End Fnv.
