(* ===== verification/Record.v ===== *)
(** * internal/record: the header of a Kafka record batch (message format v2)

    [ParseHeader], [SetBaseOffset], [RecomputeCRC] and [Iterate] of
    internal/record/batch.go, with the facts the storage layer relies on:
    patching the base offset changes no other field, the checksum is valid after
    [RecomputeCRC], and [Iterate] visits exactly the batches of a well-formed
    record set. *)

From S2P Require Import Prelude Hash.

(** ** Layout *)
Definition HeaderSize : nat := 61.

Definition offBaseOffset : nat := 0.
Definition offBatchLength : nat := 8.
Definition offMagic : nat := 16.
Definition offCRC : nat := 17.
Definition offAttributes : nat := 21.
Definition offLastOffsetDelta : nat := 23.
Definition offFirstTimestamp : nat := 27.
Definition offMaxTimestamp : nat := 35.
Definition offRecordCount : nat := 57.

Record BatchHeader := mkHeader {
  BaseOffset : Z;
  BatchLength : Z;
  LastOffsetDelta : Z;
  FirstTimestamp : Z;
  MaxTimestamp : Z;
  RecordCount : Z;
  Magic : Z }.

Definition zeroHeader : BatchHeader := mkHeader 0 0 0 0 0 0 0.

Definition TotalSize (h : BatchHeader) : Z := 12 + BatchLength h.
Definition LastOffset (h : BatchHeader) : Z := int64 (BaseOffset h + LastOffsetDelta h).

(** ** Operations *)

Definition headerOf (b : list byte) : BatchHeader := {|
  BaseOffset := int64 (be_get (sub b offBaseOffset 8));
  BatchLength := int32 (be_get (sub b offBatchLength 4));
  Magic := int8 (be_get (sub b offMagic 1));
  LastOffsetDelta := int32 (be_get (sub b offLastOffsetDelta 4));
  FirstTimestamp := int64 (be_get (sub b offFirstTimestamp 8));
  MaxTimestamp := int64 (be_get (sub b offMaxTimestamp 8));
  RecordCount := int32 (be_get (sub b offRecordCount 4)) |}.

(** The Go function returns the header beside the error. *)
Definition ParseHeader (b : list byte) : BatchHeader * option error :=
  if (length b <? HeaderSize)%nat then (zeroHeader, Some ErrTooShort)
  else let h := headerOf b in
       if Magic h =? 2 then (h, None) else (h, Some ErrBadMagic).

Definition SetBaseOffset (b : list byte) (off : Z) : go (list byte) :=
  put_at b offBaseOffset (be_put 8 (uint64 off)).

Definition RecomputeCRC (b : list byte) : go (list byte) :=
  data ← slice b (Z.of_nat offAttributes) (zlen b);
  put_at b offCRC (be_put 4 (Crc32.Checksum data)).

(** [Iterate]: the callback threads a state (the Go closure mutates captured
    variables).  The second component of the answer is [consumed]. *)
Fixpoint iterate_loop {S} (fuel : nat) (set : list byte)
    (fn : S -> list byte -> go (S * option error)) (consumed : Z) (st : S)
    : go (S * Z * option error) :=
  match fuel with
  | O => Spin
  | S fuel =>
    if consumed <? zlen set then
      match ParseHeader (drop (Z.to_nat consumed) set) with
      | (_, Some perr) => Ret (st, consumed, Some perr)
      | (h, None) =>
        let size := TotalSize h in
        if zlen set <? consumed + size then Ret (st, consumed, Some ErrTooShort)
        else
          batch ← slice set consumed (consumed + size);
          r ← fn st batch;
          match r with
          | (st', Some err) => Ret (st', consumed, Some err)
          | (st', None) => iterate_loop fuel set fn (consumed + size) st'
          end
      end
    else Ret (st, consumed, None)
  end.

(** Each pass over an accepted batch consumes at least one byte unless the
    declared size is zero, so [len(set)+1] rounds are enough for every record
    set whose batches have a positive size. *)
Definition Iterate {S} (set : list byte) (fn : S -> list byte -> go (S * option error))
    (st : S) : go (S * Z * option error) :=
  iterate_loop (Datatypes.S (length set)) set fn 0 st.

(** ** Well-formed batches *)

(** A batch as a conforming producer sends it: a v2 header whose length field
    covers the whole slice. *)
Record batch_wf (b : list byte) : Prop := {
  bw_header : (HeaderSize <= length b)%nat;
  bw_magic : Magic (headerOf b) = 2;
  bw_size : TotalSize (headerOf b) = zlen b }.

(** The positions of the layout, for arithmetic. *)
Ltac layout :=
  unfold HeaderSize, offBaseOffset, offBatchLength, offMagic, offCRC, offAttributes,
    offLastOffsetDelta, offFirstTimestamp, offMaxTimestamp, offRecordCount in *.

Lemma sub_app_le b rest off n : (off + n <= length b)%nat -> sub (b ++ rest) off n = sub b off n.
Proof.
  intros H. unfold sub. rewrite drop_app_le by lia. apply take_app_le. rewrite length_drop. lia.
Qed.

Lemma headerOf_app b rest : (HeaderSize <= length b)%nat -> headerOf (b ++ rest) = headerOf b.
Proof. intros H. unfold headerOf. f_equal; do 2 f_equal; apply sub_app_le; layout; lia. Qed.

Lemma parse_long b : (HeaderSize <= length b)%nat -> Magic (headerOf b) = 2 ->
  ParseHeader b = (headerOf b, None).
Proof.
  intros Hl Hm. unfold ParseHeader. rewrite (proj2 (Nat.ltb_ge _ _) Hl). by rewrite Hm.
Qed.

Lemma parse_wf b rest : batch_wf b -> ParseHeader (b ++ rest) = (headerOf b, None).
Proof.
  intros [Hl Hm _]. rewrite <- (headerOf_app b rest Hl). apply parse_long.
  - rewrite length_app. lia.
  - by rewrite headerOf_app.
Qed.

Lemma batch_wf_header b : batch_wf b -> ParseHeader b = (headerOf b, None).
Proof. intros H. rewrite <- (app_nil_r b) at 1. by apply parse_wf. Qed.

Lemma batch_wf_pos b : batch_wf b -> 61 <= zlen b.
Proof. intros [H _ _]. unfold zlen, HeaderSize in *. lia. Qed.

(** ** Patching *)

(** The two calls [Append] of both logs makes on the caller's slice. *)
Definition patchBatch (b : list byte) (off : Z) : go (list byte) :=
  b1 ← SetBaseOffset b off; RecomputeCRC b1.

(** The checksum field of a batch covers the bytes from the attributes on. *)
Definition crc_valid (b : list byte) : Prop :=
  be_get (sub b offCRC 4) = Crc32.Checksum (drop offAttributes b).

Definition with_base (h : BatchHeader) (off : Z) : BatchHeader :=
  mkHeader off (BatchLength h) (LastOffsetDelta h) (FirstTimestamp h) (MaxTimestamp h)
    (RecordCount h) (Magic h).

Lemma be_get_uint64 z : be_get (be_put 8 (uint64 z)) = uint64 z.
Proof. rewrite be_get_put. unfold uwrap. by rewrite Z.mod_mod. Qed.

Lemma patchBatch_eq b off : (offAttributes <= length b)%nat ->
  let b1 := patch b offBaseOffset (be_put 8 (uint64 off)) in
  patchBatch b off = Ret (patch b1 offCRC (be_put 4 (Crc32.Checksum (drop offAttributes b)))).
Proof.
  intros Hl b1. unfold patchBatch, SetBaseOffset.
  rewrite put_at_fits by (rewrite length_be_put; layout; lia). cbn [mbind go_bind].
  fold b1. unfold RecomputeCRC.
  assert (length b1 = length b) as Hlen.
  { apply length_patch. rewrite length_be_put. layout. lia. }
  rewrite slice_ok by (unfold zlen; rewrite ?Hlen; layout; lia). cbn [mbind go_bind].
  rewrite put_at_fits by (rewrite length_be_put, Hlen; layout; lia).
  do 3 f_equal. f_equal. rewrite take_ge by (rewrite length_drop; unfold zlen; lia).
  rewrite Nat2Z.id. apply drop_patch_after; rewrite length_be_put; layout; lia.
Qed.

Lemma patchBatch_short b off : (length b < offAttributes)%nat -> patchBatch b off = Panic.
Proof.
  intros Hl. unfold patchBatch, SetBaseOffset.
  destruct (decide (8 <= length b)%nat) as [H8|H8].
  - rewrite put_at_fits by (rewrite length_be_put; layout; lia). cbn [mbind go_bind].
    unfold RecomputeCRC, slice, zlen. rewrite length_patch by (rewrite length_be_put; layout; lia).
    rewrite (proj2 (Z.leb_gt _ (Z.of_nat (length b)))) by lia. by rewrite andb_false_r.
  - by rewrite put_at_panics by (rewrite length_be_put; layout; lia).
Qed.

Ltac sub_patched :=
  repeat first
    [ rewrite sub_patch_before by
        (rewrite ?length_be_put, ?length_patch by (rewrite ?length_be_put; layout; lia); layout; lia)
    | rewrite sub_patch_after by
        (rewrite ?length_be_put, ?length_patch by (rewrite ?length_be_put; layout; lia); layout; lia) ].

(** What a successful patch guarantees. *)
Record patched (b : list byte) (off : Z) (b' : list byte) : Prop := {
  pt_length : length b' = length b;
  pt_body : drop offAttributes b' = drop offAttributes b;
  pt_header : (HeaderSize <= length b)%nat -> headerOf b' = with_base (headerOf b) (int64 off);
  pt_crc : crc_valid b' }.

Lemma patchBatch_patched b off : (offAttributes <= length b)%nat ->
  exists b', patchBatch b off = Ret b' /\ patched b off b'.
Proof.
  intros Hl. eexists. split; [by apply patchBatch_eq|].
  set (b1 := patch b offBaseOffset (be_put 8 (uint64 off))).
  set (crc := Crc32.Checksum (drop offAttributes b)).
  assert (length b1 = length b) as H1.
  { apply length_patch. rewrite length_be_put. layout. lia. }
  assert (drop offAttributes b1 = drop offAttributes b) as Hd1.
  { apply drop_patch_after; rewrite length_be_put; layout; lia. }
  assert (offCRC + length (be_put 4 crc) <= length b1)%nat as Hfit.
  { rewrite length_be_put, H1. layout. lia. }
  assert (drop offAttributes (patch b1 offCRC (be_put 4 crc)) = drop offAttributes b) as Hd2.
  { rewrite drop_patch_after, Hd1; [done|done|]. rewrite length_be_put. layout. lia. }
  split.
  - by rewrite length_patch.
  - done.
  - intros HS. unfold headerOf, with_base. cbn [BatchLength LastOffsetDelta FirstTimestamp
      MaxTimestamp RecordCount Magic]. subst b1.
    f_equal; sub_patched; [|done..].
    rewrite <- (length_be_put 8 (uint64 off)) at 2.
    rewrite sub_patch_same by (rewrite length_be_put; layout; lia).
    rewrite be_get_uint64. by apply swrap_uwrap.
  - unfold crc_valid. rewrite Hd2. fold crc.
    rewrite <- (length_be_put 4 crc) at 2. rewrite sub_patch_same by done.
    rewrite be_get_put. apply Z.mod_small. apply Crc32.checksum_range.
Qed.

Lemma patched_wf b off b' : batch_wf b -> patched b off b' -> batch_wf b'.
Proof.
  intros [Hl Hm Hs] [Pl _ Ph _]. specialize (Ph Hl).
  split; [lia| |]; rewrite Ph; unfold TotalSize in *; cbn in *; [done|].
  unfold zlen in *. by rewrite Pl.
Qed.

(** ** Iterate over a record set *)

Section Iterate.
Context {S : Type} (fn : S -> list byte -> go (S * option error)).

(** The reference: run the callback over a list of batches. *)
Fixpoint visit (st : S) (consumed : Z) (bs : list (list byte)) (final : option error)
    : go (S * Z * option error) :=
  match bs with
  | [] => Ret (st, consumed, final)
  | b :: bs =>
    r ← fn st b;
    match r with
    | (st', Some err) => Ret (st', consumed, Some err)
    | (st', None) => visit st' (consumed + zlen b) bs final
    end
  end.

(** A tail that [Iterate] reports as truncated: a proper prefix of a batch. *)
Definition torn (t : list byte) : Prop :=
  t <> [] /\ exists b rest, batch_wf b /\ b = t ++ rest /\ rest <> [].

Lemma torn_parse t : torn t ->
  ParseHeader t = (zeroHeader, Some ErrTooShort) \/
  exists h, ParseHeader t = (h, None) /\ zlen t < TotalSize h.
Proof.
  intros (Hne & b & rest & [Hl Hm Hs] & -> & Hr).
  destruct (decide (HeaderSize <= length t)%nat) as [Ht|Ht].
  - right. rewrite headerOf_app in Hm, Hs by done. exists (headerOf t).
    split; [by apply parse_long|]. rewrite Hs. unfold zlen. rewrite length_app.
    destruct rest; [done|]. simpl. lia.
  - left. unfold ParseHeader. by rewrite (proj2 (Nat.ltb_lt _ _)) by lia.
Qed.

Lemma iterate_loop_visits bs tail fuel pre st :
  Forall batch_wf bs -> (tail = [] \/ torn tail) ->
  (length (concat bs ++ tail) < fuel)%nat ->
  iterate_loop fuel (pre ++ concat bs ++ tail) fn (zlen pre) st =
  visit st (zlen pre) bs (if tail is [] then None else Some ErrTooShort).
Proof.
  intros Hbs Ht. revert fuel pre st.
  induction Hbs as [|b bs Hb Hbs IH]; intros fuel pre st Hfuel; (destruct fuel as [|fuel]; [lia|]);
    cbn [iterate_loop concat visit].
  - destruct Ht as [->|Htorn]; cbn [app].
    + rewrite app_nil_r. by ltb_false.
    + assert (tail <> []) as Hne by apply Htorn. pose proof (zlen_pos tail Hne).
      rewrite zlen_app. ltb_true. rewrite drop_zlen.
      destruct tail as [|x tail]; [done|].
      destruct (torn_parse _ Htorn) as [->|(h & -> & Hh)]; [done|]. by ltb_true.
  - pose proof (batch_wf_pos b Hb) as Hpos. pose proof (zlen_nonneg (concat bs ++ tail)).
    rewrite <- (app_assoc b). rewrite !zlen_app, <- zlen_app. ltb_true.
    rewrite drop_zlen, parse_wf, (bw_size _ Hb) by done. ltb_false.
    rewrite slice_mid. cbn [mbind go_bind].
    destruct (fn st b) as [[st' [e|]]| |]; cbn [mbind go_bind]; try done.
    rewrite (app_assoc pre), <- zlen_app.
    apply IH. rewrite concat_cons, !length_app in Hfuel. unfold zlen in Hpos.
    rewrite !length_app. lia.
Qed.

Lemma iterate_loop_total fuel set consumed st :
  (forall st b, fn st b <> Spin) ->
  (forall st st', fn st [] <> Ret (st', None)) ->
  0 <= consumed <= zlen set -> zlen set - consumed < Z.of_nat fuel ->
  iterate_loop fuel set fn consumed st <> Spin.
Proof.
  intros Hspin Hnil. revert consumed st.
  induction fuel as [|fuel IH]; intros consumed st Hc Hf;
    cbn [iterate_loop].
  { lia. }
  destruct (Z.ltb_spec consumed (zlen set)) as [Hlt|]; [|done].
  destruct (ParseHeader _) as [h [e|]]; [done|].
  destruct (Z.ltb_spec (zlen set) (consumed + TotalSize h)); [done|].
  destruct (slice set consumed (consumed + TotalSize h)) as [batch| |] eqn:Es; cbn [mbind go_bind];
    [|done|by unfold slice in Es; case_match].
  assert (0 <= TotalSize h) as Hsz.
  { unfold slice in Es. case_match eqn:Hif; [|done]. apply andb_prop in Hif as [[_ ?%Z.leb_le]%andb_prop _]. lia. }
  destruct (fn st batch) as [[st' [e|]]| |] eqn:Ef; cbn [mbind go_bind]; try done.
  2: { by destruct (Hspin _ _ Ef). }
  destruct (decide (TotalSize h = 0)) as [Hz|Hz].
  - rewrite Hz, Z.add_0_r in Es. rewrite slice_ok in Es by lia.
    rewrite Z.sub_diag in Es. cbn in Es. injection Es as <-. by destruct (Hnil st st').
  - apply IH; lia.
Qed.

End Iterate.

(** ** Concrete batches *)

(** A batch with the given base offset, last-offset delta, record count and
    maximum timestamp and an opaque body, as a producer would frame it. *)
Definition mkBatch (base delta count ts : Z) (body : list byte) : list byte :=
  be_put 8 base ++ be_put 4 (49 + zlen body) ++ be_put 4 0 ++ be_put 1 2 ++ be_put 4 0 ++
  be_put 2 0 ++ be_put 4 delta ++ be_put 8 ts ++ be_put 8 ts ++ be_put 8 0 ++ be_put 2 0 ++
  be_put 4 0 ++ be_put 4 count ++ body.

(** [batch_wf] as a test. *)
Definition batch_wfb (b : list byte) : bool :=
  (HeaderSize <=? length b)%nat && (Magic (headerOf b) =? 2) && (TotalSize (headerOf b) =? zlen b).

Lemma batch_wfb_ok b : batch_wfb b = true -> batch_wf b.
Proof.
  unfold batch_wfb. rewrite !andb_true_iff, Nat.leb_le, !Z.eqb_eq. intros [[? ?] ?]. by split.
Qed.

(** ** Properties *)

(** on every slice of at least 21 bytes the two patching calls of [Append]
    succeed; the checksum then covers the bytes from the attributes field on, no
    byte behind it changes, and when the slice holds a header only the base
    offset of the parsed header changes (to [off], as an int64).  On a shorter
    slice the calls panic. *)
Theorem patchBatch_correct b off :
  ((offAttributes <= length b)%nat -> exists b', patchBatch b off = Ret b' /\ patched b off b') /\
  ((length b < offAttributes)%nat -> patchBatch b off = Panic).
Proof. split; [apply patchBatch_patched|apply patchBatch_short]. Qed.

Lemma patchBatch_correct_witness :
  exists b', patchBatch (mkBatch 0 4 5 7 []) 1000 = Ret b' /\ BaseOffset (headerOf b') = 1000.
Proof.
  destruct (proj1 (patchBatch_correct (mkBatch 0 4 5 7 []) 1000)) as (b' & Hb & Hp).
  { by vm_compute; repeat constructor. }
  exists b'. split; [done|]. rewrite (pt_header _ _ _ Hp) by (vm_compute; repeat constructor). reflexivity.
Defined.

(** [Iterate] over the concatenation of well-formed batches, with possibly a
    torn batch at the end, runs the callback on exactly those batches in order;
    it reports the bytes of the batches the callback accepted, stops at the
    first callback error, and answers ErrTooShort for the torn tail. *)
Theorem Iterate_visits {S} (fn : S -> list byte -> go (S * option error)) bs tail st :
  Forall batch_wf bs -> tail = [] \/ torn tail ->
  Iterate (concat bs ++ tail) fn st =
  visit fn st 0 bs (if tail is [] then None else Some ErrTooShort).
Proof.
  intros Hbs Ht. unfold Iterate.
  apply (iterate_loop_visits fn bs tail _ [] st Hbs Ht). lia.
Qed.

Lemma Iterate_visits_witness :
  let fn := fun (n : Z) (b : list byte) => Ret (n + RecordCount (headerOf b), @None error) in
  let b1 := mkBatch 0 0 1 7 [] in let b2 := mkBatch 1 2 3 7 [] in
  Iterate (concat [b1; b2] ++ []) fn 0 = Ret (4, 122, None).
Proof.
  intros fn b1 b2.
  rewrite (Iterate_visits fn [b1; b2] [] 0); [reflexivity| |by left].
  repeat constructor; apply batch_wfb_ok; reflexivity.
Defined.

(** on arbitrary bytes [Iterate] terminates whenever the callback does and
    never accepts an empty batch, which is what the callbacks of the broker
    (Append, AppendReplica, the watermark clamp) satisfy. *)
Theorem Iterate_terminates {S} (fn : S -> list byte -> go (S * option error)) set st :
  (forall st b, fn st b <> Spin) -> (forall st st', fn st [] <> Ret (st', None)) ->
  Iterate set fn st <> Spin.
Proof.
  intros H1 H2. apply iterate_loop_total; [done|done| |]; unfold zlen; lia.
Qed.

Lemma Iterate_terminates_witness :
  Iterate (mkBatch 0 0 1 7 [] ++ replicate 70 Byte.x02)
    (fun (n : Z) b => Ret (n + 1, snd (ParseHeader b))) 0 <> Spin.
Proof. apply Iterate_terminates; [done|]. intros st st'. by vm_compute. Defined.
