(* ===== verification/Kbytes.v ===== *)
(** * internal/kbytes: the wire primitives

    [Reader] (reader.go) is a buffer, a position and a sticky error; each read is
    a state transformer, so a decoder of internal/protocol is the same sequence
    of reads in the [rd] monad.  [Writer] (writer.go) appends to a buffer; an
    encoder is a function on buffers.

    The classes [Emits], [Parses] and [Codec] are the interface the message
    codecs are proved against: what bytes an encoder appends, and that a decoder
    placed in front of those bytes reads the value back and stops right behind
    them, whatever surrounds them in the frame. *)

From S2P Require Import Prelude.

(** Go strings are byte sequences. *)
Definition bytes_of_string : string -> list byte := String.list_byte_of_string.
Definition string_of_bytes : list byte -> string := String.string_of_list_byte.

Lemma string_of_bytes_of_string s : string_of_bytes (bytes_of_string s) = s.
Proof. apply String.string_of_list_byte_of_string. Qed.

(** ** Reader *)

Record Reader := mkReader { buf : list byte; pos : Z; err : option error }.

Definition NewReader (b : list byte) : Reader := mkReader b 0 None.
Definition Err (r : Reader) : option error := err r.

Definition fail (r : Reader) : Reader :=
  match err r with None => mkReader (buf r) (pos r) (Some ErrShort) | Some _ => r end.

Definition rd (A : Type) : Type := Reader -> A * Reader.
#[export] Instance rd_ret : MRet rd := fun A a r => (a, r).
#[export] Instance rd_bind : MBind rd := fun A B f m r => let '(a, r') := m r in f a r'.

(** [take]: [None] is the nil slice. *)
Definition takeN (n : Z) : rd (option (list byte)) := fun r =>
  match err r with
  | Some _ => (None, r)
  | None =>
    if (n <? 0) || (zlen (buf r) <? pos r + n) then (None, fail r)
    else (Some (sub (buf r) (Z.to_nat (pos r)) (Z.to_nat n)), mkReader (buf r) (pos r + n) None)
  end.

Definition fixedInt (conv : Z -> Z) (n : Z) : rd Z :=
  b ← takeN n;
  mret (match b with None => 0 | Some b => conv (be_get b) end).

Definition Int8 : rd Z := fixedInt int8 1.
Definition Int16 : rd Z := fixedInt int16 2.
Definition Int32 : rd Z := fixedInt int32 4.
Definition Int64 : rd Z := fixedInt int64 8.

(** [binary.Uvarint]: the value and the number of bytes read, 0 when the buffer
    ends, negative on overflow. *)
Fixpoint uvarint_loop (b : list byte) (i x s : Z) : Z * Z :=
  match b with
  | [] => (0, 0)
  | c :: b =>
    if i =? 10 then (0, - (i + 1))
    else if u8 c <? 0x80 then
      if (i =? 9) && (1 <? u8 c) then (0, - (i + 1))
      else (uint64 (Z.lor x (Z.shiftl (u8 c) s)), i + 1)
    else uvarint_loop b (i + 1) (uint64 (Z.lor x (Z.shiftl (Z.land (u8 c) 0x7f) s))) (s + 7)
  end.
Definition Uvarint (b : list byte) : Z * Z := uvarint_loop b 0 0 0.

Definition Varint : rd Z := fun r =>
  match err r with
  | Some _ => (0, r)
  | None =>
    let '(u, n) := Uvarint (drop (Z.to_nat (pos r)) (buf r)) in
    if n <=? 0 then (0, fail r)
    else (Z.lxor (int64 (Z.shiftr u 1)) (int64 (- Z.land u 1)), mkReader (buf r) (pos r + n) None)
  end.

Definition String_ : rd string :=
  n ← Int16;
  if n <? 0 then mret ""%string
  else b ← takeN n; mret (string_of_bytes (default [] b)).

Definition NullableString : rd (option string) :=
  n ← Int16;
  if n <? 0 then mret None
  else b ← takeN n; mret (Some (string_of_bytes (default [] b))).

Definition Bytes : rd (option (list byte)) :=
  n ← Int32;
  if n <? 0 then mret None else takeN n.

(** The length guard of [ArrayLen]: more elements than bytes left is malformed. *)
Definition guardLen (n : Z) : rd Z := fun r =>
  if zlen (buf r) - pos r <? n then (0, fail r) else (n, r).

Definition ArrayLen : rd Z :=
  n ← Int32;
  if n <? 0 then mret 0 else guardLen n.

Definition Raw (n : Z) : rd (option (list byte)) := takeN n.

Definition Remaining (r : Reader) : list byte :=
  match err r with Some _ => [] | None => drop (Z.to_nat (pos r)) (buf r) end.

Definition Pos (r : Reader) : Z := pos r.

(** [for i := 0; i < n; i++ { xs[i] = d() }] *)
Fixpoint rd_repeat {A} (n : nat) (d : rd A) : rd (list A) :=
  match n with
  | O => mret []
  | S n => x ← d; xs ← rd_repeat n d; mret (x :: xs)
  end.

Definition rd_array {A} (d : rd A) : rd (list A) :=
  n ← ArrayLen; rd_repeat (Z.to_nat n) d.

(** A field present only in some versions; the struct field keeps its zero. *)
Definition rd_when {A} (c : bool) (zero : A) (d : rd A) : rd A :=
  if c then d else mret zero.

(** ** Writer *)

Definition wr : Type := list byte -> list byte.

Definition wseq (f g : wr) : wr := fun w => g (f w).
Declare Scope wr_scope.
Delimit Scope wr_scope with wr.
Notation "f ;> g" := (wseq f g) (at level 60, right associativity) : wr_scope.
Definition wnop : wr := fun w => w.
Definition wwhen (c : bool) (f : wr) : wr := if c then f else wnop.
(** [for _, x := range xs { f(x) }] *)
Fixpoint wfor {A} (xs : list A) (f : A -> wr) : wr :=
  match xs with [] => wnop | x :: xs => wseq (f x) (wfor xs f) end.

Definition wInt8 (v : Z) : wr := fun w => w ++ be_put 1 v.
Definition wInt16 (v : Z) : wr := fun w => w ++ be_put 2 v.
Definition wInt32 (v : Z) : wr := fun w => w ++ be_put 4 v.
Definition wInt64 (v : Z) : wr := fun w => w ++ be_put 8 v.
Definition wBool (v : bool) : wr := if v then wInt8 1 else wInt8 0.
Definition wRaw (b : list byte) : wr := fun w => w ++ b.
Definition wString (s : string) : wr :=
  wseq (wInt16 (int16 (zlen (bytes_of_string s)))) (wRaw (bytes_of_string s)).
Definition wNullableString (s : option string) : wr :=
  match s with None => wInt16 (-1) | Some s => wString s end.
Definition wBytes (b : option (list byte)) : wr :=
  match b with None => wInt32 (-1) | Some b => wseq (wInt32 (int32 (zlen b))) (wRaw b) end.
Definition wArrayLen (n : Z) : wr := wInt32 (int32 n).
Definition wArray {A} (xs : list A) (f : A -> wr) : wr := wseq (wArrayLen (zlen xs)) (wfor xs f).
Definition Finish (w : wr) : list byte := w [].

(** [PatchInt32]: [PutUint32(w.buf[off:off+4], v)] *)
Definition PatchInt32 (w : list byte) (off v : Z) : go (list byte) :=
  _ ← slice w off (off + 4);
  put_at w (Z.to_nat off) (be_put 4 v).

(** ** What an encoder emits *)

Class Emits (f : wr) (bs : list byte) : Prop := emits : forall w, f w = w ++ bs.
#[export] Hint Mode Emits ! - : typeclass_instances.
#[export] Typeclasses Opaque wseq wnop wwhen wfor wInt8 wInt16 wInt32 wInt64 wBool wRaw wString
  wNullableString wBytes wArrayLen wArray.

#[export] Instance emits_seq f g a b : Emits f a -> Emits g b -> Emits (wseq f g) (a ++ b).
Proof. intros Hf Hg w. unfold wseq. by rewrite Hf, Hg, app_assoc. Qed.
#[export] Instance emits_nop : Emits wnop [].
Proof. intros w. by rewrite app_nil_r. Qed.
#[export] Instance emits_int8 v : Emits (wInt8 v) (be_put 1 v).
Proof. by intros w. Qed.
#[export] Instance emits_int16 v : Emits (wInt16 v) (be_put 2 v).
Proof. by intros w. Qed.
#[export] Instance emits_int32 v : Emits (wInt32 v) (be_put 4 v).
Proof. by intros w. Qed.
#[export] Instance emits_int64 v : Emits (wInt64 v) (be_put 8 v).
Proof. by intros w. Qed.
#[export] Instance emits_raw b : Emits (wRaw b) b.
Proof. by intros w. Qed.
#[export] Instance emits_bool v : Emits (wBool v) (be_put 1 (if v then 1 else 0)).
Proof. destruct v; by intros w. Qed.
#[export] Instance emits_when c f a : Emits f a -> Emits (wwhen c f) (if c then a else []).
Proof. intros H. destruct c; cbn [wwhen]; apply _. Qed.

Definition string_bytes (s : string) : list byte :=
  be_put 2 (int16 (zlen (bytes_of_string s))) ++ bytes_of_string s.
Definition nullable_bytes (s : option string) : list byte :=
  match s with None => be_put 2 (-1) | Some s => string_bytes s end.
Definition blob_bytes (b : option (list byte)) : list byte :=
  match b with None => be_put 4 (-1) | Some b => be_put 4 (int32 (zlen b)) ++ b end.

#[export] Instance emits_string s : Emits (wString s) (string_bytes s).
Proof. unfold wString, string_bytes. apply _. Qed.
#[export] Instance emits_nullable s : Emits (wNullableString s) (nullable_bytes s).
Proof. destruct s; cbn [wNullableString nullable_bytes]; apply _. Qed.
#[export] Instance emits_blob b : Emits (wBytes b) (blob_bytes b).
Proof. destruct b; cbn [wBytes blob_bytes]; apply _. Qed.
#[export] Instance emits_arraylen n : Emits (wArrayLen n) (be_put 4 (int32 n)).
Proof. unfold wArrayLen. apply _. Qed.

#[export] Instance emits_for {A} (xs : list A) f g :
  (forall x, Emits (f x) (g x)) -> Emits (wfor xs f) (concat (g <$> xs)).
Proof. intros H. induction xs as [|x xs IH]; cbn [wfor fmap list_fmap concat]; apply _. Qed.
#[export] Instance emits_array {A} (xs : list A) f g :
  (forall x, Emits (f x) (g x)) ->
  Emits (wArray xs f) (be_put 4 (int32 (zlen xs)) ++ concat (g <$> xs)).
Proof. intros H. unfold wArray. apply _. Qed.

Lemma finish_emits f bs : Emits f bs -> Finish f = bs.
Proof. intros H. unfold Finish. by rewrite H. Qed.

(** ** What a decoder reads *)

Class Parses {A} (d : rd A) (bs : list byte) (v : A) : Prop :=
  parses : forall pre rest,
    d (mkReader (pre ++ bs ++ rest) (zlen pre) None) =
    (v, mkReader (pre ++ bs ++ rest) (zlen (pre ++ bs)) None).

Lemma parses_ret {A} (v : A) : Parses (mret v) [] v.
Proof. intros pre rest. by rewrite app_nil_r. Qed.

Lemma parses_bind {A B} (d : rd A) (f : A -> rd B) b1 b2 v1 v2 :
  Parses d b1 v1 -> Parses (f v1) b2 v2 -> Parses (d ≫= f) (b1 ++ b2) v2.
Proof.
  intros H1 H2 pre rest. unfold mbind, rd_bind.
  specialize (H1 pre (b2 ++ rest)). specialize (H2 (pre ++ b1) rest).
  rewrite <- !app_assoc in *. rewrite H1. exact H2.
Qed.

Lemma parses_last {A B} (d : rd A) (f : A -> rd B) b1 v1 v2 :
  Parses d b1 v1 -> Parses (f v1) [] v2 -> Parses (d ≫= f) b1 v2.
Proof. intros H1 H2. rewrite <- (app_nil_r b1). by eapply parses_bind. Qed.

Lemma parses_new {A} (d : rd A) bs v : Parses d bs v ->
  d (NewReader bs) = (v, mkReader bs (zlen bs) None).
Proof. intros H. specialize (H [] []). rewrite !app_nil_r in H. exact H. Qed.

Lemma parses_take b : Parses (takeN (zlen b)) b (Some b).
Proof.
  intros pre rest. unfold takeN. cbn [err buf pos].
  pose proof (zlen_nonneg b). pose proof (zlen_nonneg rest).
  rewrite !zlen_app. ltb_false. ltb_false. cbn [orb]. unfold sub.
  by rewrite drop_zlen, take_zlen.
Qed.

Lemma parses_take_n b n : n = zlen b -> Parses (takeN n) b (Some b).
Proof. intros ->. apply parses_take. Qed.

Lemma parses_fixed conv n z : Parses (fixedInt conv (Z.of_nat n)) (be_put n z) (conv (be_get (be_put n z))).
Proof.
  eapply parses_last; [apply parses_take_n; by rewrite zlen_be_put|]. apply parses_ret.
Qed.

Lemma parses_int8 v : in_int 8 v -> Parses Int8 (be_put 1 v) v.
Proof. intros H. pose proof (parses_fixed int8 1 v) as Hp. by rewrite int8_be, swrap_id in Hp. Qed.
Lemma parses_int16 v : in_int 16 v -> Parses Int16 (be_put 2 v) v.
Proof. intros H. pose proof (parses_fixed int16 2 v) as Hp. by rewrite int16_be, swrap_id in Hp. Qed.
Lemma parses_int32 v : in_int 32 v -> Parses Int32 (be_put 4 v) v.
Proof. intros H. pose proof (parses_fixed int32 4 v) as Hp. by rewrite int32_be, swrap_id in Hp. Qed.
Lemma parses_int64 v : in_int 64 v -> Parses Int64 (be_put 8 v) v.
Proof. intros H. pose proof (parses_fixed int64 8 v) as Hp. by rewrite int64_be, swrap_id in Hp. Qed.

(** Strings the INT16 length prefix can carry, and blobs the INT32 one can. *)
Definition str_fits (s : string) : Prop := zlen (bytes_of_string s) < 2 ^ 15.
Definition nstr_fits (s : option string) : Prop := from_option str_fits True s.
Definition blob_fits (b : option (list byte)) : Prop := from_option (fun b => zlen b < 2 ^ 31) True b.
Definition arr_fits {A} (l : list A) : Prop := zlen l < 2 ^ 31.

Lemma parses_string s : str_fits s -> Parses String_ (string_bytes s) s.
Proof.
  unfold str_fits, string_bytes, String_. intros H. pose proof (zlen_nonneg (bytes_of_string s)).
  rewrite int16_id by solve_int.
  eapply parses_bind; [apply parses_int16; solve_int|]. cbn beta. ltb_false.
  eapply parses_last; [apply parses_take|]. cbn. rewrite <- (string_of_bytes_of_string s) at 2.
  apply parses_ret.
Qed.

Lemma parses_nullable s : nstr_fits s -> Parses NullableString (nullable_bytes s) s.
Proof.
  destruct s as [s|]; cbn; intros H; unfold NullableString.
  - unfold str_fits, string_bytes in *. pose proof (zlen_nonneg (bytes_of_string s)).
    rewrite int16_id by solve_int.
    eapply parses_bind; [apply parses_int16; solve_int|]. cbn beta. ltb_false.
    eapply parses_last; [apply parses_take|]. cbn. rewrite <- (string_of_bytes_of_string s) at 2.
    apply parses_ret.
  - eapply parses_last; [apply parses_int16; solve_int|]. apply parses_ret.
Qed.

Lemma parses_blob b : blob_fits b -> Parses Bytes (blob_bytes b) b.
Proof.
  destruct b as [b|]; cbn; intros H; unfold Bytes.
  - pose proof (zlen_nonneg b). rewrite int32_id by solve_int.
    eapply parses_bind; [apply parses_int32; solve_int|]. cbn beta. ltb_false. apply parses_take.
  - eapply parses_last; [apply parses_int32; solve_int|]. apply parses_ret.
Qed.

Lemma parses_repeat {A} (d : rd A) (g : A -> list byte) xs :
  Forall (fun x => Parses d (g x) x) xs -> Parses (rd_repeat (length xs) d) (concat (g <$> xs)) xs.
Proof.
  induction 1 as [|x xs Hx Hxs IH]; cbn [rd_repeat length fmap list_fmap concat].
  - apply parses_ret.
  - eapply parses_bind; [exact Hx|]. eapply parses_last; [exact IH|]. apply parses_ret.
Qed.

(** [ArrayLen] looks at the bytes behind it: it accepts [n] elements when at
    least [n] bytes follow in the buffer. *)
Lemma parses_arraylen_then {A} (f : Z -> rd A) n body v :
  0 <= n <= zlen body -> n < 2 ^ 31 -> Parses (f n) body v ->
  Parses (ArrayLen ≫= f) (be_put 4 (int32 n) ++ body) v.
Proof.
  intros Hn Hm Hf. rewrite int32_id by solve_int.
  intros pre rest. pose proof (parses_int32 n ltac:(solve_int) pre (body ++ rest)) as Hi.
  specialize (Hf (pre ++ be_put 4 n) rest). pose proof (zlen_nonneg rest).
  rewrite <- !app_assoc in *. unfold mbind, rd_bind, ArrayLen, mbind, rd_bind. rewrite Hi. ltb_false.
  unfold guardLen. cbn [buf pos]. rewrite !zlen_app. ltb_false. rewrite <- !zlen_app. exact Hf.
Qed.

Lemma concat_long {A B} (g : A -> list B) xs :
  Forall (fun x => g x <> []) xs -> zlen xs <= zlen (concat (g <$> xs)).
Proof.
  induction 1 as [|x xs Hx _ IH]; cbn [fmap list_fmap concat]; [done|].
  rewrite zlen_cons, zlen_app. pose proof (zlen_pos (g x) Hx). lia.
Qed.

Lemma parses_array {A} (d : rd A) (g : A -> list byte) xs :
  arr_fits xs -> Forall (fun x => Parses d (g x) x) xs -> Forall (fun x => g x <> []) xs ->
  Parses (rd_array d) (be_put 4 (int32 (zlen xs)) ++ concat (g <$> xs)) xs.
Proof.
  intros Hf Hp Hne. apply parses_arraylen_then.
  - pose proof (zlen_nonneg xs). pose proof (concat_long g xs Hne). lia.
  - exact Hf.
  - unfold zlen. rewrite Nat2Z.id. by apply parses_repeat.
Qed.

(** ** Codecs: the contract between an encoder and a decoder *)

Class Codec {A} (enc : A -> wr) (dec : rd A) (ok : A -> Prop) : Prop := {
  codec_bytes : A -> list byte -> Prop := fun a bs => Emits (enc a) bs /\ Parses dec bs a /\ bs <> [];
  codec_ok a : ok a -> exists bs, codec_bytes a bs }.

Lemma be_put_ne n z : be_put (S n) z <> [].
Proof. intros H%(f_equal length). by rewrite length_be_put in H. Qed.

Lemma app_ne_l {A} (a b : list A) : a <> [] -> a ++ b <> [].
Proof. by destruct a. Qed.

#[export] Instance codec_int16 : Codec wInt16 Int16 (in_int 16).
Proof. split. intros v H. eexists; split_and!; [apply _|by apply parses_int16|apply be_put_ne]. Qed.
#[export] Instance codec_int32 : Codec wInt32 Int32 (in_int 32).
Proof. split. intros v H. eexists; split_and!; [apply _|by apply parses_int32|apply be_put_ne]. Qed.
#[export] Instance codec_int64 : Codec wInt64 Int64 (in_int 64).
Proof. split. intros v H. eexists; split_and!; [apply _|by apply parses_int64|apply be_put_ne]. Qed.
#[export] Instance codec_string : Codec wString String_ str_fits.
Proof.
  split. intros v H. eexists; split_and!; [apply _|by apply parses_string|]. apply app_ne_l, be_put_ne.
Qed.
#[export] Instance codec_nullable : Codec wNullableString NullableString nstr_fits.
Proof.
  split. intros v H. eexists; split_and!; [apply _|by apply parses_nullable|].
  destruct v; cbn; [apply app_ne_l|]; apply be_put_ne.
Qed.
#[export] Instance codec_blob : Codec wBytes Bytes blob_fits.
Proof.
  split. intros v H. eexists; split_and!; [apply _|by apply parses_blob|].
  destruct v; cbn; [apply app_ne_l|]; apply be_put_ne.
Qed.

(** The elements of an array, without its length. *)
Lemma codec_elements {A} (enc : A -> wr) dec ok `{!Codec enc dec ok} xs : Forall ok xs ->
  exists bs, Emits (wfor xs enc) bs /\ Parses (rd_repeat (length xs) dec) bs xs /\ zlen xs <= zlen bs.
Proof.
  induction 1 as [|x xs Hx _ (bs & He & Hp & Hl)]; cbn [wfor rd_repeat length].
  - exists []. split_and!; [apply _|apply parses_ret|done].
  - destruct (codec_ok x Hx) as (b & Hb1 & Hb2 & Hb3). exists (b ++ bs). split_and!.
    + apply _.
    + eapply parses_bind; [exact Hb2|]. eapply parses_last; [exact Hp|]. apply parses_ret.
    + rewrite zlen_cons, zlen_app. pose proof (zlen_pos b Hb3). lia.
Qed.

#[export] Instance codec_array {A} (enc : A -> wr) dec ok `{!Codec enc dec ok} :
  Codec (fun xs => wArray xs enc) (rd_array dec) (fun xs => arr_fits xs /\ Forall ok xs).
Proof.
  split. intros xs [Hf Hok]. destruct (codec_elements enc dec ok xs Hok) as (bs & He & Hp & Hl).
  exists (be_put 4 (int32 (zlen xs)) ++ bs). split_and!.
  - unfold wArray. apply _.
  - apply parses_arraylen_then; [pose proof (zlen_nonneg xs); lia|done|].
    unfold zlen. by rewrite Nat2Z.id.
  - apply app_ne_l, be_put_ne.
Qed.

(** ** Messages: round trips field by field

    [RT w d v]: what the writer [w] appends, the decoder [d] reads back as [v];
    [RTn]: and it is not empty, as the elements of an array must be for the
    length guard of [ArrayLen].  The lemmas follow the shape of the encoders and
    decoders, one per statement form, and are collected in the hint database
    [wire], so that the round trip of a message is proved by [wire]. *)
Definition RT {A} (w : wr) (d : rd A) (v : A) : Prop := exists bs, Emits w bs /\ Parses d bs v.
Definition RTn {A} (w : wr) (d : rd A) (v : A) : Prop := exists bs, Emits w bs /\ Parses d bs v /\ bs <> [].

Lemma RTn_RT {A} w (d : rd A) v : RTn w d v -> RT w d v.
Proof. intros (bs & ? & ? & _). by exists bs. Qed.

Lemma RT_ret {A} (v : A) : RT wnop (mret v) v.
Proof. exists []. split; [apply _|apply parses_ret]. Qed.

Lemma RT_seq {A B} w1 w2 (d : rd A) (f : A -> rd B) v1 v2 :
  RT w1 d v1 -> RT w2 (f v1) v2 -> RT (wseq w1 w2) (d ≫= f) v2.
Proof.
  intros (b1 & ? & ?) (b2 & ? & ?). exists (b1 ++ b2). split; [apply _|by eapply parses_bind].
Qed.

Lemma RTn_seq {A B} w1 w2 (d : rd A) (f : A -> rd B) v1 v2 :
  RTn w1 d v1 -> RT w2 (f v1) v2 -> RTn (wseq w1 w2) (d ≫= f) v2.
Proof.
  intros (b1 & ? & ? & ?) (b2 & ? & ?). exists (b1 ++ b2).
  split_and!; [apply _|by eapply parses_bind|by apply app_ne_l].
Qed.

Lemma RT_last {A B} w (d : rd A) (f : A -> rd B) v1 v2 :
  RT w d v1 -> RT wnop (f v1) v2 -> RT w (d ≫= f) v2.
Proof.
  intros (b1 & ? & ?) (b2 & He & Hp). specialize (He []). cbn in He. subst b2.
  exists b1. split; [done|by eapply parses_last].
Qed.

Lemma RTn_last {A B} w (d : rd A) (f : A -> rd B) v1 v2 :
  RTn w d v1 -> RT wnop (f v1) v2 -> RTn w (d ≫= f) v2.
Proof.
  intros (b1 & ? & ? & ?) (b2 & He & Hp). specialize (He []). cbn in He. subst b2.
  exists b1. split_and!; [done|by eapply parses_last|done].
Qed.

(** A field of some versions only: in the others it has its zero value. *)
Lemma RT_when {A} (c : bool) w (d : rd A) zero v :
  (c = true -> RT w d v) -> (c = false -> v = zero) -> RT (wwhen c w) (rd_when c zero d) v.
Proof. destruct c; [auto|]. intros _ H. rewrite H by done. apply RT_ret. Qed.

(** A field the decoder reads and drops. *)
Lemma RT_skip {A B} (c : bool) w (d : rd A) zero v w2 (k : rd B) v2 :
  (c = true -> RT w d v) -> RT w2 k v2 -> RT (wseq (wwhen c w) w2) (rd_when c zero d ≫= fun _ => k) v2.
Proof.
  intros H Hk. destruct c; [by eapply RT_seq; [apply H|]|].
  apply (RT_seq wnop w2 (mret zero) _ zero); [apply RT_ret|done].
Qed.

Lemma RTn_codec {A} (enc : A -> wr) dec ok `{!Codec enc dec ok} v : ok v -> RTn (enc v) dec v.
Proof. intros H. destruct (codec_ok v H) as (bs & H1 & H2 & H3). by exists bs. Qed.

Lemma codec_RTn {A} (enc : A -> wr) dec ok : (forall v, ok v -> RTn (enc v) dec v) -> Codec enc dec ok.
Proof. intros H. split. intros v Hv. destruct (H v Hv) as (bs & ? & ? & ?). by exists bs. Qed.

Lemma RTn_int8 v : in_int 8 v -> RTn (wInt8 v) Int8 v.
Proof. intros H. eexists. split_and!; [apply _|by apply parses_int8|apply be_put_ne]. Qed.
Lemma RTn_int16 v : in_int 16 v -> RTn (wInt16 v) Int16 v.
Proof. apply RTn_codec, _. Qed.
Lemma RTn_int32 v : in_int 32 v -> RTn (wInt32 v) Int32 v.
Proof. apply RTn_codec, _. Qed.
Lemma RTn_int64 v : in_int 64 v -> RTn (wInt64 v) Int64 v.
Proof. apply RTn_codec, _. Qed.
Lemma RTn_string v : str_fits v -> RTn (wString v) String_ v.
Proof. apply RTn_codec, _. Qed.
Lemma RTn_nullable v : nstr_fits v -> RTn (wNullableString v) NullableString v.
Proof. apply RTn_codec, _. Qed.
Lemma RTn_blob v : blob_fits v -> RTn (wBytes v) Bytes v.
Proof. apply RTn_codec, _. Qed.

Lemma RTn_array {A} (enc : A -> wr) dec xs :
  arr_fits xs -> Forall (fun x => RTn (enc x) dec x) xs -> RTn (wArray xs enc) (rd_array dec) xs.
Proof.
  intros Hf Hx. assert (Codec enc dec (fun x => RTn (enc x) dec x)) as Hc by (by apply codec_RTn).
  by apply (RTn_codec (fun xs => wArray xs enc) (rd_array dec) _ xs).
Qed.

Lemma RTn_array_codec {A} (enc : A -> wr) dec ok `{!Codec enc dec ok} xs :
  arr_fits xs -> Forall ok xs -> RTn (wArray xs enc) (rd_array dec) xs.
Proof. intros Hf Hx. apply RTn_array; [done|]. eapply Forall_impl; [exact Hx|]. intros x. by apply RTn_codec. Qed.

(** An array whose decoder keeps only part [g] of each element. *)
Lemma RTn_array_map {A B} (enc : A -> wr) (dec : rd B) (g : A -> B) xs :
  arr_fits xs -> Forall (fun x => RTn (enc x) dec (g x)) xs -> RTn (wArray xs enc) (rd_array dec) (map g xs).
Proof.
  intros Hf Hx.
  assert (exists bs, Emits (wfor xs enc) bs /\ Parses (rd_repeat (length xs) dec) bs (map g xs) /\ zlen xs <= zlen bs)
    as (bs & He & Hp & Hl).
  { clear Hf. induction Hx as [|x xs (b & Hb1 & Hb2 & Hb3) _ (bs & He & Hp & Hl)]; cbn [wfor rd_repeat length map].
    - exists []. split_and!; [apply _|apply parses_ret|done].
    - exists (b ++ bs). split_and!.
      + apply _.
      + eapply parses_bind; [exact Hb2|]. eapply parses_last; [exact Hp|]. apply parses_ret.
      + rewrite zlen_cons, zlen_app. pose proof (zlen_pos b Hb3). lia. }
  exists (be_put 4 (int32 (zlen xs)) ++ bs). split_and!.
  - unfold wArray. apply _.
  - apply parses_arraylen_then; [pose proof (zlen_nonneg xs); lia|done|].
    unfold zlen. by rewrite Nat2Z.id.
  - apply app_ne_l, be_put_ne.
Qed.

Create HintDb wire.
#[export] Hint Resolve RTn_int8 RTn_int16 RTn_int32 RTn_int64 RTn_string RTn_nullable RTn_blob : wire.
#[export] Hint Resolve RT_ret : wire.
#[export] Hint Extern 1 (RTn (wArray _ _) _ _) =>
  eapply RTn_array_codec; [apply _|eassumption|eassumption] : wire.
#[export] Hint Extern 0 (in_int _ _) => eassumption : typeclass_instances.

(** One statement of an encoder against one of a decoder at a time. *)
Ltac wire_step :=
  lazymatch goal with
  | |- RT (wseq (wwhen _ _) _) (_ ≫= _) _ => eapply RT_seq; [apply RT_when; intros|]
  | |- RT (wseq _ _) (_ ≫= _) _ => eapply RT_seq
  | |- RTn (wseq _ _) (_ ≫= _) _ => eapply RTn_seq
  | |- RT wnop _ _ => apply RT_ret
  | |- RT (wwhen _ _) (rd_when _ _ _ ≫= _) _ => eapply RT_last; [apply RT_when; intros|]
  | |- RT _ (_ ≫= _) _ => eapply RT_last
  | |- RTn _ (_ ≫= _) _ => eapply RTn_last
  | |- RT _ _ _ => apply RTn_RT
  end.
Ltac wire := repeat (wire_step; cbn beta); try (solve [eauto 4 with wire]).

(** ** Safety on arbitrary input *)

Definition reader_wf (r : Reader) : Prop := 0 <= pos r <= zlen (buf r).

(** A decoder is safe: it stays inside the buffer, only moves forward, keeps the
    first error, and once the error is set it changes nothing. *)
Class Safe {A} (d : rd A) : Prop := safe : forall r, reader_wf r ->
  reader_wf (snd (d r)) /\ buf (snd (d r)) = buf r /\ pos r <= pos (snd (d r)) /\
  (err r <> None -> snd (d r) = r).

#[export] Instance safe_ret {A} (a : A) : Safe (mret a).
Proof. intros r Hr. cbn. split_and!; auto; lia. Qed.
#[export] Instance safe_bind {A B} (d : rd A) (f : A -> rd B) :
  Safe d -> (forall a, Safe (f a)) -> Safe (d ≫= f).
Proof.
  intros Hd Hf r Hr. unfold mbind, rd_bind. destruct (Hd r Hr) as (H1 & H2 & H3 & H4).
  destruct (d r) as [a r1]; cbn in *. destruct (Hf a r1 H1) as (G1 & G2 & G3 & G4).
  split_and!; [done|congruence|lia|]. intros He. rewrite H4 in * by done. auto.
Qed.
Lemma safe_fail r : reader_wf r ->
  reader_wf (fail r) /\ buf (fail r) = buf r /\ pos r <= pos (fail r) /\ (err r <> None -> fail r = r).
Proof. intros Hr. unfold fail. destruct (err r); cbn; split_and!; auto; done || lia. Qed.
#[export] Instance safe_take n : Safe (takeN n).
Proof.
  intros r Hr. destruct (safe_fail r Hr) as (F1 & F2 & F3 & F4).
  unfold takeN. destruct (err r) eqn:He; cbn [snd]; [split_and!; auto; lia|].
  destruct (_ || _) eqn:Hc; cbn [snd]; [by split_and!|]. unfold reader_wf in *. cbn.
  apply orb_false_iff in Hc as [?%Z.ltb_ge ?%Z.ltb_ge]. split_and!; auto; done || lia.
Qed.
#[export] Instance safe_fixed c n : Safe (fixedInt c n).
Proof. unfold fixedInt. apply _. Qed.
#[export] Instance safe_guard n : Safe (guardLen n).
Proof.
  intros r Hr. unfold guardLen. case_match; cbn [snd]; [by apply safe_fail|split_and!; auto; lia].
Qed.
#[export] Instance safe_if {A} (c : bool) (d e : rd A) : Safe d -> Safe e -> Safe (if c then d else e).
Proof. by destruct c. Qed.
#[export] Instance safe_int8 : Safe Int8 := safe_fixed _ _.
#[export] Instance safe_int16 : Safe Int16 := safe_fixed _ _.
#[export] Instance safe_int32 : Safe Int32 := safe_fixed _ _.
#[export] Instance safe_int64 : Safe Int64 := safe_fixed _ _.
#[export] Instance safe_string : Safe String_.
Proof. unfold String_. apply _. Qed.
#[export] Instance safe_nullable : Safe NullableString.
Proof. unfold NullableString. apply _. Qed.
#[export] Instance safe_blob : Safe Bytes.
Proof. unfold Bytes. apply _. Qed.
#[export] Instance safe_arraylen : Safe ArrayLen.
Proof. unfold ArrayLen. apply _. Qed.
#[export] Instance safe_when {A} c (z : A) d : Safe d -> Safe (rd_when c z d).
Proof. intros H. unfold rd_when. apply _. Qed.
#[export] Instance safe_repeat {A} n (d : rd A) : Safe d -> Safe (rd_repeat n d).
Proof. intros H. induction n; cbn [rd_repeat]; apply _. Qed.
#[export] Instance safe_array {A} (d : rd A) : Safe d -> Safe (rd_array d).
Proof. intros H. unfold rd_array. apply _. Qed.

(** ** Varints *)

(** The reference encoder of the Kafka specification: zig-zag, then groups of
    seven bits, least significant first. *)
Definition zigzag (v : Z) : Z := if 0 <=? v then 2 * v else - 2 * v - 1.
Fixpoint put_uvarint (fuel : nat) (u : Z) : list byte :=
  match fuel with
  | O => []
  | S fuel =>
    if u <? 128 then [byte_of_Z u]
    else byte_of_Z (u mod 128 + 128) :: put_uvarint fuel (u / 128)
  end.

Lemma lor_shiftl_add x c s : 0 <= s -> 0 <= x < 2 ^ s -> Z.lor x (Z.shiftl c s) = x + c * 2 ^ s.
Proof.
  intros Hs Hx. rewrite Z.shiftl_mul_pow2 by done. rewrite Z.add_nocarry_lor; [done|].
  apply Z.bits_inj'. intros n Hn. rewrite Z.land_spec, Z.bits_0, Z.mul_pow2_bits by done.
  destruct (decide (n < s)) as [Hlt|Hge].
  - by rewrite (Z.testbit_neg_r _ (n - s)), andb_false_r by lia.
  - destruct (decide (x = 0)) as [->|Hx0]; [by rewrite Z.bits_0|].
    assert (Z.log2 x < s) by (apply Z.log2_lt_pow2; lia).
    by rewrite (Z.bits_above_log2 x n) by lia.
Qed.

Lemma uvarint_step n i x u rest :
  128 <= u -> 0 <= i < 9 -> 0 <= x < 2 ^ (7 * i) -> x + u * 2 ^ (7 * i) < 2 ^ 64 ->
  uvarint_loop (put_uvarint (S n) u ++ rest) i x (7 * i) =
  uvarint_loop (put_uvarint n (u / 128) ++ rest) (i + 1) (x + (u mod 128) * 2 ^ (7 * i)) (7 * (i + 1)).
Proof.
  intros Hu Hi Hx Hb. cbn [put_uvarint]. ltb_false. cbn [app uvarint_loop].
  rewrite (proj2 (Z.eqb_neq i 10)) by lia.
  pose proof (Z.mod_pos_bound u 128 ltac:(lia)) as Hm.
  rewrite u8_byte_of_Z, (Z.mod_small (u mod 128 + 128)) by lia. ltb_false.
  change 0x7f with (Z.ones 7). rewrite Z.land_ones by lia. change (2 ^ 7) with 128.
  assert ((u mod 128 + 128) mod 128 = u mod 128) as ->.
  { replace (u mod 128 + 128) with (u mod 128 + 1 * 128) by lia.
    rewrite Z.mod_add by lia. apply Z.mod_mod. lia. }
  rewrite lor_shiftl_add by lia. unfold uwrap.
  rewrite Z.mod_small; [f_equal; lia|].
  pose proof (Z.mod_le u 128). nia.
Qed.

Lemma uvarint_put n i x u rest :
  (0 < n)%nat -> 0 <= u < 128 ^ Z.of_nat n -> 0 <= i -> i + Z.of_nat n <= 10 ->
  0 <= x < 2 ^ (7 * i) -> x + u * 2 ^ (7 * i) < 2 ^ 64 ->
  uvarint_loop (put_uvarint n u ++ rest) i x (7 * i) =
  (x + u * 2 ^ (7 * i), i + zlen (put_uvarint n u)).
Proof.
  revert i x u. induction n as [|n IH]; intros i x u Hn Hu Hi Hin Hx Hb; [lia|].
  assert (2 ^ (7 * (i + 1)) = 128 * 2 ^ (7 * i)) as Hp.
  { replace (7 * (i + 1)) with (7 + 7 * i) by lia. by rewrite Z.pow_add_r by lia. }
  destruct (Z.ltb_spec u 128) as [Hs|Hs].
  - cbn [put_uvarint]. ltb_true. cbn [app uvarint_loop].
    rewrite (proj2 (Z.eqb_neq i 10)) by lia.
    rewrite u8_byte_of_Z, Z.mod_small by lia. ltb_true.
    replace ((i =? 9) && (1 <? u)) with false.
    2: { destruct (Z.eqb_spec i 9) as [->|]; [|done]. cbn [andb]. symmetry. apply Z.ltb_ge.
         change (2 ^ (7 * 9)) with (2 ^ 63) in Hb. eval_pow. lia. }
    rewrite lor_shiftl_add by lia. unfold uwrap. rewrite Z.mod_small by nia. done.
  - assert (i < 9) as Hi9.
    { destruct (decide (i < 9)); [done|]. exfalso.
      assert (2 ^ 63 <= 2 ^ (7 * i)) by (apply Z.pow_le_mono_r; lia). eval_pow. nia. }
    rewrite uvarint_step by lia. pose proof (Z.mod_pos_bound u 128 ltac:(lia)).
    pose proof (Z.div_mod u 128 ltac:(lia)) as Hdm.
    rewrite Nat2Z.inj_succ, Z.pow_succ_r in Hu by lia.
    assert (0 < n)%nat as Hn0 by (destruct n; [cbn in Hu|]; lia).
    rewrite IH; [|done|split; [apply Z.div_pos; lia|apply Z.div_lt_upper_bound; lia]|lia|lia|nia|nia].
    cbn [put_uvarint]. ltb_false. rewrite zlen_cons. f_equal; [nia|lia].
Qed.

Lemma zigzag_range v : in_int 64 v -> 0 <= zigzag v < 2 ^ 64.
Proof. intros H. unfold zigzag. destruct (Z.leb_spec 0 v); solve_int. Qed.

Lemma unzigzag v : in_int 64 v ->
  Z.lxor (int64 (Z.shiftr (zigzag v) 1)) (int64 (- Z.land (zigzag v) 1)) = v.
Proof.
  intros H. rewrite Z.shiftr_div_pow2 by lia. change (2 ^ 1) with 2.
  pose proof (Z.land_ones (zigzag v) 1 ltac:(lia)) as Hl.
  change (Z.ones 1) with 1 in Hl. change (2 ^ 1) with 2 in Hl. rewrite Hl. clear Hl.
  unfold zigzag. destruct (Z.leb_spec 0 v).
  - rewrite Z.mul_comm, Z.div_mul, Z.mod_mul by lia.
    rewrite (int64_id v) by solve_int. by rewrite Z.lxor_0_r.
  - replace (-2 * v - 1) with (1 + (- v - 1) * 2) by lia.
    rewrite Z.div_add, Z.mod_add by lia. change (1 / 2) with 0. change (1 mod 2) with 1.
    rewrite Z.add_0_l, (int64_id (- v - 1)) by solve_int. change (int64 (- (1))) with (-1).
    rewrite Z.lxor_m1_r. unfold Z.lnot. lia.
Qed.

(** ** Properties *)

(** [Varint] reads back every int64 from the zig-zag varint encoding of the
    Kafka specification, and stops right behind it, wherever it stands in the
    frame. *)
Theorem Varint_roundtrip v : in_int 64 v -> Parses Varint (put_uvarint 10 (zigzag v)) v.
Proof.
  intros Hv pre rest. unfold Varint. cbn [err buf pos]. rewrite drop_zlen. unfold Uvarint.
  pose proof (zigzag_range v Hv) as Hz.
  assert (2 ^ 64 <= 128 ^ Z.of_nat 10) by (by vm_compute).
  change (uvarint_loop ?b 0 0 0) with (uvarint_loop b 0 0 (7 * 0)).
  rewrite (uvarint_put 10 0 0 (zigzag v) rest); [|lia|lia|lia|lia|vm_compute; intuition congruence|].
  2: { change (2 ^ (7 * 0)) with 1. lia. }
  change (2 ^ (7 * 0)) with 1. rewrite Z.mul_1_r, !Z.add_0_l.
  assert (0 < zlen (put_uvarint 10 (zigzag v))).
  { apply zlen_pos. cbn [put_uvarint]. by case_match. }
  leb_false. rewrite unzigzag by done. by rewrite zlen_app.
Qed.

Lemma Varint_roundtrip_witness : Parses Varint (put_uvarint 10 (zigzag (-300))) (-300).
Proof. apply Varint_roundtrip. solve_int. Defined.

(** the array reader of the message decoders inverts the array writer of
    the message encoders, for any element codec that round-trips, whatever
    surrounds the array in the frame; in particular the length guard of
    [ArrayLen] never rejects an array the writer produced. *)
Theorem array_roundtrip {A} (enc : A -> wr) (dec : rd A) ok `{!Codec enc dec ok} xs :
  arr_fits xs -> Forall ok xs ->
  exists bs, Emits (wArray xs enc) bs /\ Parses (rd_array dec) bs xs.
Proof.
  intros Hf Hok. destruct (codec_ok (enc := fun xs => wArray xs enc) xs (conj Hf Hok)) as (bs & H1 & H2 & _).
  by exists bs.
Qed.

Lemma array_roundtrip_witness :
  exists bs, Emits (wArray [Some "a"%string; None] wNullableString) bs /\
             Parses (rd_array NullableString) bs [Some "a"%string; None].
Proof.
  apply (array_roundtrip wNullableString NullableString nstr_fits); [by vm_compute|].
  repeat constructor; by vm_compute.
Defined.

(** the sticky-error contract on arbitrary bytes: after a failing read the
    reader never moves again, every later fixed-size, string, blob or array read
    answers its zero value, and [Err] keeps the first error. *)
Theorem sticky_error r e :
  err r = Some e ->
  Int8 r = (0, r) /\ Int16 r = (0, r) /\ Int32 r = (0, r) /\ Int64 r = (0, r) /\
  String_ r = (""%string, r) /\ NullableString r = (Some ""%string, r) /\ Bytes r = (None, r) /\
  Varint r = (0, r) /\ (reader_wf r -> ArrayLen r = (0, r)).
Proof.
  intros He.
  assert (forall n, takeN n r = (None, r)) as Ht by (intros n; unfold takeN; by rewrite He).
  assert (forall c n, fixedInt c n r = (0, r)) as Hf.
  { intros c n. unfold fixedInt, mbind, rd_bind. by rewrite Ht. }
  unfold Int8, Int16, Int32, Int64, String_, NullableString, Bytes, Varint, ArrayLen, mbind, rd_bind.
  unfold Int16, Int32. rewrite !Hf. cbn [Z.ltb Z.compare]. rewrite !Ht, He.
  split_and!; try done. intros Hr. unfold guardLen, reader_wf in *. by ltb_false.
Qed.

Lemma sticky_error_witness :
  let r := snd (Int32 (NewReader (be_put 2 1))) in err r = Some ErrShort /\ Int64 r = (0, r).
Proof.
  intros r. split; [reflexivity|]. destruct (sticky_error r ErrShort) as (_ & _ & _ & H & _); [reflexivity|].
  exact H.
Defined.
