(* ===== verification/Index.v ===== *)
(** * internal/storage/index.go: the sparse offset index of a segment

    Entries, their eight-byte on-disk form, and the binary search
    [floorPosition], which is proved equal to a linear scan. *)

From S2P Require Import Prelude.

Definition indexEntrySize : nat := 8.

Record indexEntry := mkEntry { relOffset : Z; position : Z }.

#[export] Instance indexEntry_eq_dec : EqDecision indexEntry.
Proof. solve_decision. Defined.

Definition encodeIndexEntry (e : indexEntry) : list byte :=
  be_put 4 (relOffset e) ++ be_put 4 (position e).

Fixpoint decode_loop (n : nat) (b : list byte) : list indexEntry :=
  match n with
  | O => []
  | S n => mkEntry (int32 (be_get (sub b 0 4))) (int32 (be_get (sub b 4 4)))
           :: decode_loop n (drop indexEntrySize b)
  end.

Definition decodeIndexEntries (b : list byte) : list indexEntry :=
  decode_loop (length b / indexEntrySize) b.

Fixpoint floor_loop (fuel : nat) (index : list indexEntry) (targetRel lo hi pos : Z) : go Z :=
  match fuel with
  | O => Spin
  | S fuel =>
    if lo <=? hi then
      let mid := (lo + hi) / 2 in
      match index !! Z.to_nat mid with
      | None => Panic
      | Some e =>
        if relOffset e <=? targetRel
        then floor_loop fuel index targetRel (mid + 1) hi (position e)
        else floor_loop fuel index targetRel lo (mid - 1) pos
      end
    else Ret pos
  end.

(** Every round shrinks [hi - lo], so one round more than there are entries is
    enough. *)
Definition floorPosition (index : list indexEntry) (targetRel : Z) : go Z :=
  floor_loop (S (length index)) index targetRel 0 (zlen index - 1) 0.

(** ** The reference: a linear scan *)

Definition floor_step (targetRel acc : Z) (e : indexEntry) : Z :=
  if relOffset e <=? targetRel then position e else acc.
Definition floor_scan (index : list indexEntry) (targetRel : Z) : Z :=
  foldl (floor_step targetRel) 0 index.

(** Sorted by construction: offsets only grow. *)
Definition index_sorted (index : list indexEntry) : Prop :=
  forall i j a b, (i < j)%nat -> index !! i = Some a -> index !! j = Some b -> relOffset a <= relOffset b.

Lemma floor_scan_snoc index e t : floor_scan (index ++ [e]) t = floor_step t (floor_scan index t) e.
Proof. unfold floor_scan. by rewrite foldl_app. Qed.

Lemma floor_scan_above index t tail :
  Forall (fun e => t < relOffset e) tail -> floor_scan (index ++ tail) t = floor_scan index t.
Proof.
  induction tail as [|e tail IH] using rev_ind; [by rewrite app_nil_r|].
  intros [Ht He]%Forall_app. rewrite app_assoc, floor_scan_snoc, IH by done.
  unfold floor_step. inversion He; subst. by leb_false.
Qed.

Lemma floor_scan_at index t m e :
  index !! m = Some e -> relOffset e <= t -> floor_scan (take (S m) index) t = position e.
Proof.
  intros He Hle. erewrite take_S_r by done. rewrite floor_scan_snoc. unfold floor_step. by leb_true.
Qed.

Lemma floor_loop_scan fuel index t lo hi pos :
  index_sorted index ->
  0 <= lo <= hi + 1 -> hi < zlen index -> hi + 1 - lo < Z.of_nat fuel ->
  pos = floor_scan (take (Z.to_nat lo) index) t ->
  Forall (fun e => t < relOffset e) (drop (Z.to_nat (hi + 1)) index) ->
  floor_loop fuel index t lo hi pos = Ret (floor_scan index t).
Proof.
  intros Hsort. revert lo hi pos.
  induction fuel as [|fuel IH]; intros lo hi pos Hlo Hhi Hf Hpos Hab; cbn [floor_loop]; [lia|].
  destruct (Z.leb_spec lo hi) as [Hle|Hgt].
  - set (mid := (lo + hi) / 2).
    assert (lo <= mid <= hi) as Hmid
      by (unfold mid; split; [apply Z.div_le_lower_bound|apply Z.div_le_upper_bound]; lia).
    destruct (lookup_lt_is_Some_2 index (Z.to_nat mid)) as [e He]; [unfold zlen in *; lia|].
    rewrite He. destruct (Z.leb_spec (relOffset e) t) as [Hr|Hr].
    + apply IH; [lia|lia|lia| |done].
      replace (Z.to_nat (mid + 1)) with (S (Z.to_nat mid)) by lia. by erewrite floor_scan_at.
    + apply IH; [lia|lia|lia|done|].
      apply Forall_lookup. intros i x Hx. rewrite lookup_drop in Hx.
      destruct (decide (i = 0)%nat) as [->|Hi].
      * replace (Z.to_nat (mid - 1 + 1) + 0)%nat with (Z.to_nat mid) in Hx by lia. by simplify_eq.
      * enough (relOffset e <= relOffset x) by lia.
        eapply (Hsort (Z.to_nat mid)); [|done|done]. lia.
  - subst pos. f_equal. rewrite <- (take_drop (Z.to_nat lo) index) at 2.
    rewrite floor_scan_above; [done|]. by replace lo with (hi + 1) by lia.
Qed.

(** Without the order, the search still answers 0 or the position of an entry
    at or below the target. *)
Lemma floor_loop_sound fuel index t lo hi pos p :
  floor_loop fuel index t lo hi pos = Ret p ->
  p = pos \/ exists e, e ∈ index /\ relOffset e <= t /\ p = position e.
Proof.
  revert lo hi pos. induction fuel as [|fuel IH]; intros lo hi pos; cbn [floor_loop]; [done|].
  destruct (lo <=? hi); [|intros [= ->]; by left].
  destruct (index !! _) as [e|] eqn:He; [|done].
  destruct (Z.leb_spec (relOffset e) t) as [Hr|Hr]; intros H.
  - destruct (IH _ _ _ H) as [->|]; [|by right]. right. exists e.
    split_and!; [|done|done]. by eapply list_elem_of_lookup_2.
  - by apply (IH _ _ _ H).
Qed.

Lemma floor_loop_returns fuel index t lo hi pos :
  0 <= lo <= hi + 1 -> hi < zlen index -> hi + 1 - lo < Z.of_nat fuel ->
  exists p, floor_loop fuel index t lo hi pos = Ret p.
Proof.
  revert lo hi pos. induction fuel as [|fuel IH]; intros lo hi pos Hlo Hhi Hf; cbn [floor_loop]; [lia|].
  destruct (Z.leb_spec lo hi) as [Hle|Hgt]; [|eauto].
  set (mid := (lo + hi) / 2).
  assert (lo <= mid <= hi) as Hmid
    by (unfold mid; split; [apply Z.div_le_lower_bound|apply Z.div_le_upper_bound]; lia).
  destruct (lookup_lt_is_Some_2 index (Z.to_nat mid)) as [e He]; [unfold zlen in *; lia|].
  rewrite He. case_match; apply IH; lia.
Qed.

(** The search never panics and never runs for ever, on any index. *)
Lemma floorPosition_returns index t :
  exists p, floorPosition index t = Ret p /\
            (p = 0 \/ exists e, e ∈ index /\ relOffset e <= t /\ p = position e).
Proof.
  destruct (floor_loop_returns (S (length index)) index t 0 (zlen index - 1) 0) as [p Hp];
    [pose proof (zlen_nonneg index); lia|lia|unfold zlen; lia|].
  exists p. split; [done|]. by eapply floor_loop_sound.
Qed.

(** ** On-disk form *)

Definition entry_fits (e : indexEntry) : Prop := in_int 32 (relOffset e) /\ in_int 32 (position e).

Lemma length_encodeIndexEntry e : length (encodeIndexEntry e) = indexEntrySize.
Proof. unfold encodeIndexEntry. by rewrite length_app, !length_be_put. Qed.

Lemma decode_loop_encode es rest : Forall entry_fits es ->
  decode_loop (length es) (concat (encodeIndexEntry <$> es) ++ rest) = es.
Proof.
  induction 1 as [|e es [Hr Hp] _ IH]; [done|].
  cbn [decode_loop length fmap list_fmap concat]. rewrite <- app_assoc.
  rewrite drop_app_length' by (by rewrite length_encodeIndexEntry). rewrite IH.
  f_equal. unfold sub, encodeIndexEntry. rewrite <- !app_assoc, drop_0.
  rewrite take_app_length' by (by rewrite length_be_put).
  rewrite drop_app_length' by (by rewrite length_be_put).
  rewrite take_app_length' by (by rewrite length_be_put).
  rewrite !int32_be, !swrap_id by (done || lia). by destruct e.
Qed.

Lemma length_encoded es : length (concat (encodeIndexEntry <$> es)) = (length es * indexEntrySize)%nat.
Proof.
  induction es as [|e es IH]; [done|]. cbn [fmap list_fmap concat length].
  rewrite length_app, length_encodeIndexEntry, IH. lia.
Qed.

Lemma index_decodes es torn_tail :
  Forall entry_fits es -> (length torn_tail < indexEntrySize)%nat ->
  decodeIndexEntries (concat (encodeIndexEntry <$> es) ++ torn_tail) = es.
Proof.
  intros Hes Ht. unfold decodeIndexEntries. rewrite length_app, length_encoded.
  rewrite Nat.add_comm, Nat.div_add by done. rewrite (Nat.div_small _ _ Ht). cbn [Nat.add].
  by apply decode_loop_encode.
Qed.

(** ** Properties *)

(** on a sorted index the binary search of [floorPosition] returns, without
    panicking or looping, exactly what the linear scan returns: the position of
    the last entry at or below the target, or 0. *)
Theorem floorPosition_linear index t :
  index_sorted index -> floorPosition index t = Ret (floor_scan index t).
Proof.
  intros Hs. apply floor_loop_scan; [done|pose proof (zlen_nonneg index); lia|lia|unfold zlen; lia|done|].
  rewrite drop_ge; [done|]. unfold zlen. lia.
Qed.

Lemma floorPosition_linear_witness :
  floorPosition [mkEntry 0 0; mkEntry 5 4200; mkEntry 9 8400] 7 = Ret 4200.
Proof.
  rewrite floorPosition_linear; [reflexivity|].
  intros [|[|[|i]]] [|[|[|j]]] a b Hij Ha Hb; cbn in *; simplify_eq; cbn; lia.
Defined.

(** decoding the concatenated on-disk entries gives the entries back, for
    all entries of int32 fields; a torn trailing entry is ignored. *)
Theorem index_roundtrip es torn_tail :
  Forall entry_fits es -> (length torn_tail < indexEntrySize)%nat ->
  decodeIndexEntries (concat (encodeIndexEntry <$> es) ++ torn_tail) = es.
Proof. apply index_decodes. Qed.

Lemma index_roundtrip_witness :
  decodeIndexEntries (concat (encodeIndexEntry <$> [mkEntry 0 0; mkEntry 7 4096]) ++ be_put 3 9)
  = [mkEntry 0 0; mkEntry 7 4096].
Proof. apply index_roundtrip; [repeat constructor; cbn; solve_int|rewrite length_be_put; unfold indexEntrySize; lia]. Defined.
