(* ===== verification/Segment.v ===== *)
(** * internal/storage/segment.go: one .log/.index file pair

    A segment is the Go struct with its two files: the bytes of the .log file
    (written with WriteAt at [logSize]), the bytes of the .index file and the
    offset of its descriptor (written with Write).  A write may fail after any
    prefix of its data ([WErr n]); reads past the end of a file fail as ReadAt
    does. *)

From S2P Require Import Prelude Record Index.

(** ** Files *)

(** What a write call answers: everything written, or an error after [n] bytes. *)
Inductive wres := WOk | WErr (n : nat).

(** [WriteAt]: bytes past the end of the file leave a hole of zeros. *)
Definition WriteAt (f : list byte) (off : Z) (data : list byte) : list byte :=
  take (Z.to_nat off) (f ++ replicate (Z.to_nat off - length f) Byte.x00) ++ data ++
  drop (Z.to_nat off + length data) f.

(** [ReadAt] into a buffer of [n] bytes: fails unless all of them are there. *)
Definition ReadAt (f : list byte) (n off : Z) : option (list byte) :=
  if (0 <=? off) && (off + n <=? zlen f) then Some (sub f (Z.to_nat off) (Z.to_nat n)) else None.

(** ** The segment *)

Record segment := mkSegment {
  baseOffset : Z;
  logFile : list byte;
  idxFile : list byte;
  idxPos : Z;
  logSize : Z;
  index : list indexEntry;
  bytesSinceIdx : Z;
  indexInterval : Z }.

(** [createSegment]: both files are created empty (O_TRUNC). *)
Definition createSegment (base interval : Z) : segment :=
  mkSegment base [] [] 0 0 [] 0 interval.

(** [openSegment]: the sizes and the index come from the files; the index
    descriptor starts at offset 0. *)
Definition openSegment (base interval : Z) (log idx : list byte) : segment :=
  mkSegment base log idx 0 (int32 (zlen log)) (decodeIndexEntries idx) 0 interval.

(** [append]: [wi] and [wl] are the outcomes of the index and the log write. *)
Definition writeIndex (wi : wres) (e : indexEntry) (s : segment) : segment * option error :=
  let enc := encodeIndexEntry e in
  match wi with
  | WErr n =>
    (mkSegment (baseOffset s) (logFile s) (WriteAt (idxFile s) (idxPos s) (take n enc))
       (idxPos s + zlen (take n enc)) (logSize s) (index s) (bytesSinceIdx s) (indexInterval s),
     Some ErrIO)
  | WOk =>
    (mkSegment (baseOffset s) (logFile s) (WriteAt (idxFile s) (idxPos s) enc)
       (idxPos s + zlen enc) (logSize s) (index s ++ [e]) 0 (indexInterval s), None)
  end.

Definition writeLog (wl : wres) (batch : list byte) (s : segment) : segment * option error :=
  let pos := logSize s in
  match wl with
  | WErr n =>
    (mkSegment (baseOffset s) (WriteAt (logFile s) pos (take n batch)) (idxFile s) (idxPos s)
       (logSize s) (index s) (bytesSinceIdx s) (indexInterval s), Some ErrIO)
  | WOk =>
    (mkSegment (baseOffset s) (WriteAt (logFile s) pos batch) (idxFile s) (idxPos s)
       (int32 (logSize s + int32 (zlen batch))) (index s)
       (int32 (bytesSinceIdx s + int32 (zlen batch))) (indexInterval s), None)
  end.

Definition indexDue (s : segment) : bool :=
  match index s with [] => true | _ => indexInterval s <=? bytesSinceIdx s end.

Definition append (wi wl : wres) (batch : list byte) (base : Z) (s : segment)
    : segment * option error :=
  let pos := logSize s in
  let '(s1, e1) :=
    if indexDue s then writeIndex wi (mkEntry (int32 (base - baseOffset s)) pos) s else (s, None) in
  match e1 with
  | Some e => (s1, Some e)
  | None => writeLog wl batch s1
  end.

(** [readBatchesFrom]: the loop over batch headers.  The empty list stands for
    the nil slice the Go code returns when it collected nothing. *)
Fixpoint read_loop (fuel : nat) (s : segment) (wantOffset maxBytes pos : Z) (out : list byte)
    : go (list byte * option error) :=
  match fuel with
  | O => Spin
  | S fuel =>
    if pos <? logSize s then
      match ReadAt (logFile s) (Z.of_nat HeaderSize) pos with
      | None => Ret (out, Some ErrIO)
      | Some hdr =>
        match ParseHeader hdr with
        | (_, Some e) => Ret (out, Some e)
        | (h, None) =>
          let total := int32 (TotalSize h) in
          if LastOffset h <? wantOffset then
            read_loop fuel s wantOffset maxBytes (int32 (pos + total)) out
          else if (0 <? zlen out) && (maxBytes <? int32 (int32 (zlen out) + total)) then Ret (out, None)
          else if total <? 0 then Panic
          else
            match ReadAt (logFile s) total pos with
            | None => Ret (out, Some ErrIO)
            | Some full =>
              let out := out ++ full in
              if maxBytes <=? int32 (zlen out) then Ret (out, None)
              else read_loop fuel s wantOffset maxBytes (int32 (pos + total)) out
            end
        end
      end
    else Ret (out, None)
  end.

Definition readBatchesFrom (s : segment) (wantOffset maxBytes : Z) : go (list byte * option error) :=
  pos ← floorPosition (index s) (int32 (wantOffset - baseOffset s));
  read_loop (S (Z.to_nat (logSize s))) s wantOffset maxBytes pos [].

(** ** What a segment holds *)

(** The offset behind a batch. *)
Definition next_of (b : list byte) : Z := LastOffset (headerOf b) + 1.

(** A stored batch: well-formed, at a known offset, with a non-empty range of
    offsets that stays inside int64. *)
Record batch_at (o : Z) (b : list byte) : Prop := {
  ba_wf : batch_wf b;
  ba_base : BaseOffset (headerOf b) = o;
  ba_span : o < next_of b < 2 ^ 63 }.

(** [chained o bs n]: the batches cover the offsets from [o] up to [n] without a
    gap or an overlap. *)
Fixpoint chained (o : Z) (bs : list (list byte)) (n : Z) : Prop :=
  match bs with
  | [] => o = n
  | b :: bs => batch_at o b /\ chained (next_of b) bs n
  end.

(** An index entry points at a batch boundary and names its offset. *)
Definition entry_at (base : Z) (bs : list (list byte)) (e : indexEntry) : Prop :=
  exists b1 b2 m, bs = b1 ++ b2 /\ chained base b1 m /\
    position e = zlen (concat b1) /\ relOffset e = m - base.

(** [seg_rep s bs n]: segment [s] holds the batches [bs] up to offset [n]. The
    log file may hold the bytes of a failed write behind [logSize]. *)
Record seg_rep (s : segment) (bs : list (list byte)) (n : Z) : Prop := {
  sr_data : exists junk, logFile s = concat bs ++ junk;
  sr_size : logSize s = zlen (concat bs);
  sr_small : logSize s < 2 ^ 31;
  sr_chain : chained (baseOffset s) bs n;
  sr_base : 0 <= baseOffset s;
  sr_span : n - baseOffset s < 2 ^ 31;
  sr_bound : n < 2 ^ 63;
  sr_index : Forall (entry_at (baseOffset s) bs) (index s);
  sr_sorted : index_sorted (index s) }.

(** ** Chains of batches *)

Lemma chained_app o b1 b2 n : chained o (b1 ++ b2) n <-> exists m, chained o b1 m /\ chained m b2 n.
Proof.
  revert o. induction b1 as [|b b1 IH]; intros o; cbn [chained app].
  - split; [eauto|]. by intros (m & -> & ?).
  - rewrite IH. naive_solver.
Qed.

Lemma chained_le o bs n : chained o bs n -> o <= n.
Proof.
  revert o. induction bs as [|b bs IH]; intros o; cbn [chained]; [lia|].
  intros [[_ _ Hs] Hc]. specialize (IH _ Hc). lia.
Qed.

Lemma chained_wf o bs n : chained o bs n -> Forall batch_wf bs.
Proof.
  revert o. induction bs as [|b bs IH]; intros o; cbn [chained]; [constructor|].
  intros [[Hw _ _] Hc]. constructor; eauto.
Qed.

Lemma chained_below o bs n : chained o bs n -> Forall (fun b => next_of b <= n) bs.
Proof.
  revert o. induction bs as [|b bs IH]; intros o; cbn [chained]; [constructor|].
  intros [_ Hc]. constructor; [by apply (chained_le _ _ _ Hc)|eauto].
Qed.

Lemma chained_above o bs n : chained o bs n -> Forall (fun b => o < next_of b) bs.
Proof.
  revert o. induction bs as [|b bs IH]; intros o; cbn [chained]; [constructor|].
  intros [[_ _ Hs] Hc]. constructor; [lia|].
  eapply Forall_impl; [by apply (IH _ Hc)|]. cbn. lia.
Qed.

Lemma chained_snoc o bs b n :
  chained o bs n -> batch_at n b -> chained o (bs ++ [b]) (next_of b).
Proof. intros Hc Hb. apply chained_app. exists n. split; [done|]. by split. Qed.

Lemma chained_det o bs n n' : chained o bs n -> chained o bs n' -> n = n'.
Proof. revert o. induction bs as [|b bs IH]; intros o; cbn [chained]; naive_solver. Qed.

Lemma chained_length o bs n : chained o bs n -> (length bs <= length (concat bs))%nat.
Proof.
  intros Hw%chained_wf. induction Hw as [|b bs Hb _ IH]; [done|].
  rewrite concat_cons, length_app. pose proof (batch_wf_pos b Hb). unfold zlen in *. simpl length. lia.
Qed.

(** ** Reading files *)

Lemma ReadAt_mid pre b rest : ReadAt (pre ++ b ++ rest) (zlen b) (zlen pre) = Some b.
Proof.
  pose proof (zlen_nonneg pre). pose proof (zlen_nonneg rest).
  unfold ReadAt. leb_true. rewrite !zlen_app. leb_true. cbn [andb]. unfold sub.
  by rewrite drop_zlen, take_zlen.
Qed.

Lemma ReadAt_header pre b rest : batch_wf b ->
  exists hdr, ReadAt (pre ++ b ++ rest) (Z.of_nat HeaderSize) (zlen pre) = Some hdr /\
              ParseHeader hdr = (headerOf b, None).
Proof.
  intros Hb. exists (take HeaderSize b). pose proof (bw_header b Hb) as Hl.
  assert (length (take HeaderSize b) = HeaderSize) as Ht by (rewrite length_take; lia).
  split.
  - rewrite <- (take_drop HeaderSize b) at 1. rewrite <- (app_assoc (take _ _)).
    replace (Z.of_nat HeaderSize) with (zlen (take HeaderSize b)) by (unfold zlen; by rewrite Ht).
    apply ReadAt_mid.
  - rewrite <- (take_drop HeaderSize b) at 2. rewrite headerOf_app by lia.
    apply parse_long; [lia|].
    rewrite <- (headerOf_app (take HeaderSize b) (drop HeaderSize b)) by lia.
    rewrite take_drop. apply Hb.
Qed.

Lemma WriteAt_end a junk d : exists junk', WriteAt (a ++ junk) (zlen a) d = a ++ d ++ junk'.
Proof.
  unfold WriteAt, zlen. rewrite Nat2Z.id.
  assert (length a - length (a ++ junk) = 0)%nat as -> by (rewrite length_app; lia).
  cbn [replicate]. rewrite app_nil_r, take_app_length. eauto.
Qed.

Lemma WriteAt_exact a d : WriteAt a (zlen a) d = a ++ d.
Proof.
  unfold WriteAt, zlen. rewrite Nat2Z.id, Nat.sub_diag. cbn [replicate].
  rewrite app_nil_r, take_ge by lia. rewrite drop_ge by lia. by rewrite app_nil_r.
Qed.

(** ** The specification of a read *)

(** Skip the batches that end before the wanted offset. *)
Fixpoint drop_before (want : Z) (bs : list (list byte)) : list (list byte) :=
  match bs with
  | [] => []
  | b :: bs' => if next_of b <=? want then drop_before want bs' else bs
  end.

(** Collect whole batches: always the first one, then while they fit. *)
Fixpoint gather (maxBytes acc : Z) (bs : list (list byte)) : list (list byte) :=
  match bs with
  | [] => []
  | b :: bs =>
    if (0 <? acc) && (maxBytes <? acc + zlen b) then []
    else if maxBytes <=? acc + zlen b then [b]
    else b :: gather maxBytes (acc + zlen b) bs
  end.

Definition read_spec (want maxBytes : Z) (bs : list (list byte)) : list (list byte) :=
  gather maxBytes 0 (drop_before want bs).

Lemma drop_before_skip want b1 b2 :
  Forall (fun b => next_of b <= want) b1 -> drop_before want (b1 ++ b2) = drop_before want b2.
Proof. induction 1 as [|b b1 Hb _ IH]; [done|]. cbn [app drop_before]. by leb_true. Qed.

Lemma drop_before_none o want bs n : chained o bs n -> want <= o -> drop_before want bs = bs.
Proof.
  destruct bs as [|b bs]; [done|]. cbn [chained drop_before]. intros [[_ _ Hs] _] Hw. by leb_false.
Qed.

Lemma drop_before_suffix want bs : exists b1, bs = b1 ++ drop_before want bs /\
  Forall (fun b => next_of b <= want) b1.
Proof.
  induction bs as [|b bs (b1 & IH & Hf)]; [by exists []|]. cbn [drop_before].
  destruct (Z.leb_spec (next_of b) want); [|by exists []].
  exists (b :: b1). split; [by rewrite IH at 1|by constructor].
Qed.

Lemma gather_prefix max acc bs : exists tl, bs = gather max acc bs ++ tl.
Proof.
  revert acc. induction bs as [|b bs IH]; intros acc; cbn [gather]; [by exists []|].
  destruct (_ && _); [by eexists|]. destruct (_ <=? _); [by eexists|].
  destruct (IH (acc + zlen b)) as [tl Htl]. exists tl. cbn. by rewrite <- Htl.
Qed.

Lemma gather_bound max acc bs :
  0 < acc <= max -> acc + zlen (concat (gather max acc bs)) <= max.
Proof.
  revert acc. induction bs as [|b bs IH]; intros acc Ha; cbn [gather]; [cbn [concat]; rewrite zlen_nil; lia|].
  pose proof (zlen_nonneg b). ltb_true. cbn [andb].
  destruct (Z.ltb_spec max (acc + zlen b)); [cbn [concat]; rewrite zlen_nil; lia|].
  destruct (Z.leb_spec max (acc + zlen b)); rewrite concat_cons, zlen_app.
  - cbn [concat]. rewrite zlen_nil. lia.
  - specialize (IH (acc + zlen b)). lia.
Qed.

(** A read answers at least one batch when there is one, and never more than
    [maxBytes] unless it is that single first batch. *)
Lemma gather_first max bs :
  bs <> [] -> Forall batch_wf bs ->
  exists b l, gather max 0 bs = b :: l /\ head bs = Some b /\ (l = [] \/ zlen (concat (b :: l)) <= max).
Proof.
  intros Hne Hw. destruct bs as [|b bs]; [done|]. inversion Hw; subst.
  pose proof (batch_wf_pos b H1). cbn [gather]. rewrite Z.ltb_irrefl. cbn [andb].
  destruct (Z.leb_spec max (0 + zlen b)); [by exists b, []; auto|].
  exists b, (gather max (0 + zlen b) bs). split_and!; [done|done|]. right.
  rewrite concat_cons, zlen_app. pose proof (gather_bound max (0 + zlen b) bs). lia.
Qed.

(** ** The read loop implements the specification *)

Section Reading.
Context (s : segment) (bs : list (list byte)) (n : Z) (Hrep : seg_rep s bs n).

Lemma read_loop_spec want max fuel b1 b2 m out :
  bs = b1 ++ b2 -> chained m b2 n -> in_int 32 max ->
  zlen out <= zlen (concat b1) -> (length b2 < fuel)%nat ->
  read_loop fuel s want max (zlen (concat b1)) out =
  Ret (out ++ concat (gather max (zlen out) (drop_before want b2)), None).
Proof.
  intros Hbs Hc Hmax. revert b1 m out fuel Hbs Hc.
  induction b2 as [|b b2 IH]; intros b1 m out fuel Hbs Hc Hout Hfuel;
    (destruct fuel as [|fuel]; [lia|]); cbn [read_loop drop_before gather concat].
  - rewrite app_nil_r in Hbs. subst b1. rewrite (sr_size _ _ _ Hrep). ltb_false. by rewrite app_nil_r.
  - destruct Hc as [[Hw Hb Hs] Hc]. destruct (sr_data _ _ _ Hrep) as [junk Hjunk].
    pose proof (batch_wf_pos b Hw) as Hpos. pose proof (zlen_nonneg out) as Ho.
    pose proof (sr_size _ _ _ Hrep) as Hsize. pose proof (sr_small _ _ _ Hrep) as Hsm.
    pose proof (zlen_nonneg (concat b1)). pose proof (zlen_nonneg (concat b2)).
    rewrite Hbs, concat_app, concat_cons, !zlen_app in Hsize. ltb_true.
    rewrite Hbs, concat_app, concat_cons, <- !app_assoc in Hjunk. rewrite Hjunk.
    destruct (ReadAt_header (concat b1) b (concat b2 ++ junk) Hw) as (hdr & -> & ->).
    rewrite (bw_size _ Hw), (int32_id (zlen b)), (int32_id (_ + zlen b)), (int32_id (zlen out)) by solve_int.
    assert (zlen (concat b1) + zlen b = zlen (concat (b1 ++ [b]))) as Hnext
      by (rewrite concat_app, zlen_app; cbn [concat]; by rewrite app_nil_r).
    assert (bs = (b1 ++ [b]) ++ b2) as Hbs' by (by rewrite <- app_assoc).
    unfold next_of in *. destruct (Z.ltb_spec (LastOffset (headerOf b)) want) as [Hlt|Hge].
    + leb_true. rewrite Hnext. eapply IH; [done|exact Hc|lia|simpl in Hfuel; lia].
    + leb_false. cbn [gather]. rewrite (int32_id (zlen out + zlen b)) by solve_int.
      destruct (_ && _) eqn:Hfull; [by rewrite app_nil_r|]. ltb_false.
      rewrite ReadAt_mid, zlen_app, (int32_id (zlen out + zlen b)) by solve_int.
      destruct (max <=? zlen out + zlen b); [cbn [concat]; by rewrite app_nil_r|].
      rewrite Hnext, <- zlen_app. rewrite concat_cons, app_assoc.
      assert (drop_before want b2 = b2) as Hnone by (eapply drop_before_none; [exact Hc|lia]).
      erewrite IH; [by rewrite Hnone|done|exact Hc| |simpl in Hfuel; lia].
      rewrite zlen_app. lia.
Qed.
End Reading.

Lemma readBatchesFrom_spec s bs n want max :
  seg_rep s bs n -> in_int 32 max -> baseOffset s <= want < n ->
  readBatchesFrom s want max = Ret (concat (read_spec want max bs), None).
Proof.
  intros Hrep Hmax Hw. unfold readBatchesFrom, read_spec.
  pose proof (sr_span _ _ _ Hrep) as Hspan. pose proof (sr_chain _ _ _ Hrep) as Hchain.
  rewrite (int32_id (want - baseOffset s)) by solve_int.
  assert (forall b1 b2 m, bs = b1 ++ b2 -> chained (baseOffset s) b1 m -> m <= want ->
    read_loop (S (Z.to_nat (logSize s))) s want max (zlen (concat b1)) [] =
    Ret (concat (gather max 0 (drop_before want bs)), None)) as Hrun.
  { intros b1 b2 m Hbs Hc1 Hm.
    rewrite Hbs in Hchain. apply chained_app in Hchain as (m' & Hc1' & Hc2).
    pose proof (chained_det _ _ _ _ Hc1 Hc1') as ->.
    erewrite read_loop_spec; [| done | exact Hbs | exact Hc2 | done | apply zlen_nonneg |].
    - do 3 f_equal. rewrite Hbs. rewrite drop_before_skip; [done|].
      eapply Forall_impl; [by eapply chained_below|]. cbn. lia.
    - rewrite (sr_size _ _ _ Hrep), Hbs, concat_app, zlen_app. unfold zlen.
      pose proof (chained_length _ _ _ Hc2). lia. }
  destruct (floorPosition_returns (index s) (want - baseOffset s)) as (p & -> & Hp). cbn [mbind go_bind].
  destruct Hp as [->|(e & He & Hle & ->)].
  - apply (Hrun [] bs (baseOffset s)); [done|done|lia].
  - pose proof (sr_index _ _ _ Hrep) as Hix. rewrite Forall_forall in Hix.
    destruct (Hix e He) as (b1 & b2 & m & Hbs & Hc1 & -> & Hr).
    eapply Hrun; [exact Hbs|exact Hc1|lia].
Qed.

(** ** Appending *)

Lemma entry_at_snoc base bs bs' e : entry_at base bs e -> entry_at base (bs ++ bs') e.
Proof. intros (b1 & b2 & m & -> & H). exists b1, (b2 ++ bs'), m. by rewrite app_assoc. Qed.

Lemma entry_at_rel base bs n e : chained base bs n -> entry_at base bs e -> 0 <= relOffset e <= n - base.
Proof.
  intros Hc (b1 & b2 & m & -> & H1 & _ & ->).
  apply chained_app in Hc as (m' & H1' & H2). pose proof (chained_det _ _ _ _ H1 H1') as ->.
  pose proof (chained_le _ _ _ H2). pose proof (chained_le _ _ _ H1). lia.
Qed.

Lemma entry_at_end base bs n : chained base bs n ->
  entry_at base bs (mkEntry (n - base) (zlen (concat bs))).
Proof. intros H. exists bs, [], n. by rewrite app_nil_r. Qed.

Lemma index_sorted_snoc ix e :
  index_sorted ix -> Forall (fun x => relOffset x <= relOffset e) ix -> index_sorted (ix ++ [e]).
Proof.
  intros Hs Hf i j a b Hij Ha Hb.
  apply lookup_snoc_Some in Hb as [[Hj Hb]|[-> ->]].
  - rewrite lookup_app_l in Ha by lia. eapply (Hs i j); eauto.
  - rewrite lookup_app_l in Ha by done. by eapply Forall_lookup_1 in Hf.
Qed.

(** The on-disk index agrees with the one in memory. *)
Definition idx_synced (s : segment) : Prop :=
  idxFile s = concat (encodeIndexEntry <$> index s) /\ idxPos s = zlen (idxFile s).

Lemma createSegment_rep base interval :
  0 <= base < 2 ^ 63 -> seg_rep (createSegment base interval) [] base /\
  idx_synced (createSegment base interval).
Proof.
  intros H. split; [|done]. split; cbn; try lia; try done.
  - by exists [].
Qed.

Section Appending.
Context (s : segment) (bs : list (list byte)) (n : Z) (Hrep : seg_rep s bs n).

Lemma writeIndex_rep wi s' r :
  writeIndex wi (mkEntry (int32 (n - baseOffset s)) (logSize s)) s = (s', r) ->
  seg_rep s' bs n /\ logSize s' = logSize s /\ baseOffset s' = baseOffset s /\
  logFile s' = logFile s /\ indexInterval s' = indexInterval s.
Proof.
  pose proof Hrep as [Hd Hz Hsm Hc Hb Hsp Hbd Hi Hso].
  pose proof (chained_le _ _ _ Hc).
  rewrite int32_id by solve_int.
  destruct wi; intros [= <- <-]; split_and!; try done; split; cbn; try done.
  - apply Forall_app. split; [done|]. constructor; [|done]. rewrite Hz. by apply entry_at_end.
  - apply index_sorted_snoc; [done|]. eapply Forall_impl; [exact Hi|].
    intros e He%(entry_at_rel _ _ _ _ Hc). cbn. lia.
Qed.

(** Whatever fails, a failed append leaves the stored batches as they were. *)
Lemma append_failed wi wl b s' e :
  append wi wl b n s = (s', Some e) ->
  seg_rep s' bs n /\ baseOffset s' = baseOffset s /\ indexInterval s' = indexInterval s.
Proof.
  unfold append.
  assert (exists s1 e1, (if indexDue s then writeIndex wi (mkEntry (int32 (n - baseOffset s)) (logSize s)) s
    else (s, None)) = (s1, e1) /\ seg_rep s1 bs n /\ baseOffset s1 = baseOffset s /\
    indexInterval s1 = indexInterval s) as (s1 & e1 & -> & Hr1 & Hb1 & Hi1).
  { destruct (indexDue s); [|by exists s, None].
    destruct (writeIndex _ _ _) as [s1 e1] eqn:Hw. destruct (writeIndex_rep _ _ _ Hw) as (?&?&?&?&?).
    by exists s1, e1. }
  destruct e1 as [e1|]; [by intros [= <- <-]|].
  unfold writeLog. destruct wl as [|k]; [done|]. intros [= <- <-].
  pose proof Hr1 as [[junk Hd] Hz Hsm Hc Hb Hsp Hbd Hi Hso]. split_and!; try done. split; cbn; try done.
  rewrite Hd, Hz. destruct (WriteAt_end (concat bs) junk (take k b)) as [j ->]. eauto.
Qed.

(** A successful append stores the batch behind the others. *)
Lemma append_ok b :
  batch_at n b -> logSize s + zlen b < 2 ^ 31 -> next_of b - baseOffset s < 2 ^ 31 ->
  exists s', append WOk WOk b n s = (s', None) /\ seg_rep s' (bs ++ [b]) (next_of b) /\
    baseOffset s' = baseOffset s /\ logSize s' = logSize s + zlen b /\
    indexInterval s' = indexInterval s /\ (idx_synced s -> idx_synced s').
Proof.
  intros Hb Hfit Hspan. unfold append.
  assert (exists s1, (if indexDue s then writeIndex WOk (mkEntry (int32 (n - baseOffset s)) (logSize s)) s
    else (s, None)) = (s1, None) /\ seg_rep s1 bs n /\ logSize s1 = logSize s /\
    baseOffset s1 = baseOffset s /\ indexInterval s1 = indexInterval s /\
    (idx_synced s -> idx_synced s1)) as (s1 & -> & Hr1 & Hl1 & Hb1 & Hi1 & Hs1).
  { destruct (indexDue s); [|by exists s].
    eexists. split; [reflexivity|].
    destruct (writeIndex_rep WOk _ _ eq_refl) as (?&?&?&?&?). split_and!; try done.
    intros [Hf Hp]. unfold idx_synced. cbn. rewrite Hp. rewrite WriteAt_exact, Hf.
    rewrite fmap_app, concat_app. cbn. rewrite app_nil_r, !zlen_app. split; [done|lia]. }
  pose proof Hr1 as [[junk Hd] Hz Hsm Hc Hbs Hsp Hbd Hi Hso].
  pose proof (ba_wf _ _ Hb) as Hw. pose proof (batch_wf_pos b Hw). pose proof (ba_span _ _ Hb).
  pose proof (zlen_nonneg (concat bs)).
  eexists. split; [reflexivity|]. cbn [writeLog].
  rewrite (int32_id (zlen b)), (int32_id (logSize s1 + zlen b)) by solve_int.
  split_and!; cbn; try done; [|lia].
  split; cbn; try done.
  - rewrite Hd, Hz. destruct (WriteAt_end (concat bs) junk b) as [j ->]. exists j.
    rewrite concat_app. cbn. by rewrite app_nil_r, app_assoc.
  - rewrite Hz, concat_app, zlen_app. cbn. by rewrite app_nil_r.
  - lia.
  - by apply (chained_snoc _ _ _ n).
  - rewrite Hb1. lia.
  - lia.
  - eapply Forall_impl; [exact Hi|]. intros e. apply entry_at_snoc.
Qed.

End Appending.
