(* ===== verification/Strconv.v ===== *)
(** * Decimal numbers in names: strconv and fmt

    Segment files, committed-offset files, object keys and the cluster
    specification carry decimal integers.  This file models the verbs and
    functions the source uses of [strconv] and [fmt] (Itoa and %d, the %020d of
    segment names, ParseInt with its Atoi case) and of [strings]. *)

From Stdlib Require Import Ascii.
From S2P Require Import Prelude.

Definition digit_char (d : Z) : ascii := Ascii.ascii_of_N (Z.to_N (48 + d)).
Definition char_code (c : ascii) : Z := Z.of_N (Ascii.N_of_ascii c).
Definition is_digit (c : ascii) : bool := (48 <=? char_code c) && (char_code c <=? 57).

(** Exactly [w] digits. *)
Fixpoint put_digits (w : nat) (z : Z) : string :=
  match w with
  | O => ""
  | S w => (put_digits w (z / 10) +:+ String (digit_char (z mod 10)) "")%string
  end.

Fixpoint ndigits (fuel : nat) (z : Z) : nat :=
  match fuel with
  | O => 1
  | S fuel => if z <? 10 then 1 else S (ndigits fuel (z / 10))
  end.

(** [strconv.Itoa], [%d]: at most 19 digits in an int64. *)
Definition Itoa (z : Z) : string :=
  if z <? 0 then String "-" (put_digits (ndigits 18 (- z)) (- z)) else put_digits (ndigits 18 z) z.

(** [fmt.Sprintf("%020d", z)]: the sign counts for the width. *)
Definition pad20 (z : Z) : string :=
  if z <? 0 then String "-" (put_digits 19 (- z)) else put_digits 20 z.

Fixpoint parse_digits (acc : Z) (s : string) : option Z :=
  match s with
  | EmptyString => Some acc
  | String c s => if is_digit c then parse_digits (acc * 10 + (char_code c - 48)) s else None
  end.

(** [strconv.ParseInt(s, 10, bits)]; [None]: a syntax or a range error. *)
Definition ParseInt (bits : Z) (s : string) : option Z :=
  let unsigned s := match s with EmptyString => None | _ => parse_digits 0 s end in
  let ranged v := if (- 2 ^ (bits - 1) <=? v) && (v <? 2 ^ (bits - 1)) then Some v else None in
  match s with
  | String "+" s => v ← unsigned s; ranged v
  | String "-" s => v ← unsigned s; ranged (- v)
  | _ => v ← unsigned s; ranged v
  end.

(** [strconv.Atoi] on a 64-bit platform. *)
Definition Atoi (s : string) : option Z := ParseInt 64 s.

(** [strings.HasSuffix], [strings.TrimSuffix] *)
Fixpoint string_drop (n : nat) (s : string) : string :=
  match n, s with
  | O, _ => s
  | _, EmptyString => EmptyString
  | S n, String _ s => string_drop n s
  end.

Fixpoint string_take (n : nat) (s : string) : string :=
  match n, s with
  | O, _ => EmptyString
  | _, EmptyString => EmptyString
  | S n, String c s => String c (string_take n s)
  end.

Definition HasSuffix (s suffix : string) : bool :=
  (String.length suffix <=? String.length s)%nat &&
  bool_decide (string_drop (String.length s - String.length suffix) s = suffix).

Definition TrimSuffix (s suffix : string) : string :=
  if HasSuffix s suffix then string_take (String.length s - String.length suffix) s else s.

(** ** Lemmas *)

Lemma char_code_digit d : 0 <= d < 10 -> char_code (digit_char d) = 48 + d.
Proof. intros Hd. unfold char_code, digit_char. rewrite N_ascii_embedding by lia. lia. Qed.

Lemma is_digit_char d : 0 <= d < 10 -> is_digit (digit_char d) = true.
Proof. intros Hd. unfold is_digit. rewrite char_code_digit by done. leb_true. by leb_true. Qed.

Lemma parse_digits_app acc a b :
  parse_digits acc (a +:+ b) = v ← parse_digits acc a; parse_digits v b.
Proof.
  revert acc. induction a as [|c a IH]; intros acc; [done|]. cbn [parse_digits].
  change ((String c a +:+ b)%string) with (String c (a +:+ b)). cbn [parse_digits].
  destruct (is_digit c); [apply IH|done].
Qed.

Lemma parse_put_digits w z acc :
  0 <= z < 10 ^ Z.of_nat w -> parse_digits acc (put_digits w z) = Some (acc * 10 ^ Z.of_nat w + z).
Proof.
  revert z acc. induction w as [|w IH]; intros z acc Hz.
  - change (10 ^ Z.of_nat 0) with 1 in *. cbn [put_digits parse_digits]. f_equal. lia.
  - rewrite Nat2Z.inj_succ, Z.pow_succ_r in * by lia. cbn [put_digits].
    rewrite parse_digits_app, IH.
    + cbn [mbind option_bind parse_digits]. pose proof (Z.mod_pos_bound z 10 ltac:(lia)).
      rewrite is_digit_char, char_code_digit by lia. f_equal.
      pose proof (Z.div_mod z 10). lia.
    + split; [apply Z.div_pos; lia|apply Z.div_lt_upper_bound; lia].
Qed.

Lemma append_length (a b : string) : String.length (a +:+ b) = (String.length a + String.length b)%nat.
Proof. induction a as [|c a IH]; [done|]. change (S (String.length (a +:+ b)) = S (String.length a + String.length b)). by rewrite IH. Qed.

Lemma put_digits_length w z : String.length (put_digits w z) = w.
Proof. revert z. induction w as [|w IH]; intros z; [done|]. cbn [put_digits]. rewrite append_length, IH. cbn. lia. Qed.

Lemma pad20_length z : String.length (pad20 z) = 20%nat.
Proof. unfold pad20. destruct (z <? 0); [change (S (String.length (put_digits 19 (- z))) = 20%nat)|]; by rewrite put_digits_length. Qed.

Lemma put_digits_ne w z : exists c s, put_digits (S w) z = String c s /\ is_digit c = true.
Proof.
  revert z. induction w as [|w IH]; intros z.
  - eexists _, _. split; [reflexivity|]. apply is_digit_char. apply Z.mod_pos_bound. lia.
  - destruct (IH (z / 10)) as (c & s & Hs & Hc). remember (S w) as w'. cbn [put_digits]. rewrite Hs.
    eexists c, _. split; [reflexivity|done].
Qed.

Lemma ndigits_pos fuel z : exists k, ndigits fuel z = S k.
Proof. destruct fuel; cbn; [by eexists|]. destruct (z <? 10); by eexists. Qed.

Lemma ndigits_bound fuel z : 0 <= z < 10 ^ Z.of_nat (S fuel) -> z < 10 ^ Z.of_nat (ndigits fuel z).
Proof.
  revert z. induction fuel as [|fuel IH]; intros z Hz; cbn [ndigits]; [by destruct Hz|].
  destruct (Z.ltb_spec z 10); [done|].
  rewrite (Nat2Z.inj_succ (S fuel)), Z.pow_succ_r in Hz by lia.
  specialize (IH (z / 10)). rewrite Nat2Z.inj_succ, Z.pow_succ_r by lia.
  assert (0 <= z / 10 < 10 ^ Z.of_nat (S fuel)) as Hd.
  { split; [apply Z.div_pos; lia|apply Z.div_lt_upper_bound; lia]. }
  specialize (IH Hd). pose proof (Z.div_mod z 10). pose proof (Z.mod_pos_bound z 10). lia.
Qed.

Lemma ParseInt_unsigned bits c s :
  is_digit c = true ->
  ParseInt bits (String c s) =
  v ← parse_digits 0 (String c s); if (- 2 ^ (bits - 1) <=? v) && (v <? 2 ^ (bits - 1)) then Some v else None.
Proof. by intros Hc; destruct c as [[] [] [] [] [] [] [] []]. Qed.

Lemma ParseInt_put bits w z :
  0 < bits -> 0 <= z < 10 ^ Z.of_nat (S w) -> in_int bits z ->
  ParseInt bits (put_digits (S w) z) = Some z.
Proof.
  intros Hb Hz Hr. destruct (put_digits_ne w z) as (c & s & Hs & Hc).
  pose proof (parse_put_digits (S w) z 0 Hz) as Hp. rewrite Z.mul_0_l, Z.add_0_l in Hp.
  rewrite Hs, ParseInt_unsigned, <- Hs, Hp by done. cbn [mbind option_bind].
  destruct Hr. leb_true. by ltb_true.
Qed.

Lemma ParseInt_neg bits w z :
  0 < bits -> 0 <= z < 10 ^ Z.of_nat (S w) -> in_int bits (- z) ->
  ParseInt bits (String "-" (put_digits (S w) z)) = Some (- z).
Proof.
  intros Hb Hz Hn. destruct (put_digits_ne w z) as (c & s & Hs & Hc).
  pose proof (parse_put_digits (S w) z 0 Hz) as Hp. rewrite Z.mul_0_l, Z.add_0_l in Hp.
  rewrite Hs in *. cbn [ParseInt]. rewrite Hp. cbn [mbind option_bind].
  destruct Hn. leb_true. by ltb_true.
Qed.

Lemma ParseInt_Itoa z : in_int 64 z -> ParseInt 64 (Itoa z) = Some z.
Proof.
  intros Hz. unfold Itoa. destruct (Z.ltb_spec z 0).
  - destruct (ndigits_pos 18 (- z)) as [k Hk]. pose proof (ndigits_bound 18 (- z)) as Hb. rewrite Hk in *.
    rewrite ParseInt_neg; [f_equal; lia|lia| |by rewrite Z.opp_involutive].
    split; [lia|]. apply Hb. change (10 ^ Z.of_nat 19) with 10000000000000000000. solve_int.
  - destruct (ndigits_pos 18 z) as [k Hk]. pose proof (ndigits_bound 18 z) as Hb. rewrite Hk in *.
    apply ParseInt_put; [lia| |done].
    split; [lia|]. apply Hb. change (10 ^ Z.of_nat 19) with 10000000000000000000. solve_int.
Qed.

Lemma ParseInt_pad20 z : in_int 64 z -> ParseInt 64 (pad20 z) = Some z.
Proof.
  intros Hz. unfold pad20. destruct (Z.ltb_spec z 0).
  - rewrite ParseInt_neg; [f_equal; lia|lia| |by rewrite Z.opp_involutive].
    change (10 ^ Z.of_nat 19) with 10000000000000000000. solve_int.
  - apply ParseInt_put; [lia| |done].
    change (10 ^ Z.of_nat 20) with 100000000000000000000. solve_int.
Qed.

Lemma string_drop_app a b : string_drop (String.length a) (a +:+ b) = b.
Proof. by induction a. Qed.

Lemma string_take_app a b : string_take (String.length a) (a +:+ b) = a.
Proof. induction a as [|c a IH]; [by destruct b|]. cbn. by rewrite <- IH at 2. Qed.

Lemma string_length_app a b : String.length (a +:+ b) = (String.length a + String.length b)%nat.
Proof. induction a as [|c a IH]; [done|]. cbn. by rewrite <- IH. Qed.

Lemma HasSuffix_app a b : HasSuffix (a +:+ b) b = true.
Proof.
  unfold HasSuffix. rewrite string_length_app, (proj2 (Nat.leb_le _ _)) by lia. cbn [andb].
  apply bool_decide_eq_true. replace (_ - _)%nat with (String.length a) by lia. apply string_drop_app.
Qed.

Lemma TrimSuffix_app a b : TrimSuffix (a +:+ b) b = a.
Proof.
  unfold TrimSuffix. rewrite HasSuffix_app, string_length_app.
  replace (_ - _)%nat with (String.length a) by lia. apply string_take_app.
Qed.
