(* ===== verification/Log.v ===== *)
(** * internal/storage/log.go: the append-only commit log of one partition

    The [Log] of the model is the Go struct: the segments in order (the Go field
    [active] always points at the last one, [active] below), the log end offset
    [nextOffset], the committed offset [highWatermark], and the two flags.  The
    operations that touch the disk take an [io], the outcome of each file call
    they make, so that every theorem covers the failing calls too.

    The abstract content of a log is the list of its batches in offset order;
    [log_rep] relates the two, every operation preserves it, and [Read] is
    specified on the abstract content alone. *)

From S2P Require Import Prelude Record Index Segment.

Record Config := mkConfig { SegmentBytes : Z; IndexIntervalBytes : Z }.

Definition DefaultConfig : Config := mkConfig (Z.shiftl 64 20) 4096.

Record Log := mkLog {
  cfg : Config;
  segments : list segment;
  nextOffset : Z;
  highWatermark : Z;
  holdHWM : bool;
  dirty : bool }.

(** The outcome of the file calls of one operation: the two fsyncs of a roll,
    the creation of the new files, the index write and the log write. *)
Record io := mkIO { io_flush : bool; io_create : bool; io_idx : wres; io_log : wres }.
Definition io_ok : io := mkIO true true WOk WOk.

Definition noSegment : segment := createSegment 0 0.
Definition active (l : Log) : segment := default noSegment (last (segments l)).
Definition firstSegment (l : Log) : segment := default noSegment (head (segments l)).

Definition setActive (l : Log) (s : segment) : Log :=
  mkLog (cfg l) (removelast (segments l) ++ [s]) (nextOffset l) (highWatermark l) (holdHWM l) (dirty l).

(** ** Operations *)

(** A [createSegment] that fails changes nothing in memory; the empty .log file it
    may leave behind is in [Recovery.rollLeft]. *)
Definition roll (e : io) (base : Z) (l : Log) : Log * option error :=
  if negb (io_flush e) then (l, Some ErrIO)
  else if negb (io_create e) then (l, Some ErrIO)
  else (mkLog (cfg l) (segments l ++ [createSegment base (IndexIntervalBytes (cfg l))])
          (nextOffset l) (highWatermark l) (holdHWM l) (dirty l), None).

(** [l.active.logSize > 0 && l.active.logSize+int32(len(batch)) > l.cfg.SegmentBytes] *)
Definition rollDue (l : Log) (batch : list byte) : bool :=
  (0 <? logSize (active l)) &&
  (SegmentBytes (cfg l) <? int32 (logSize (active l) + int32 (zlen batch))).

Definition Append (e : io) (batch0 : list byte) (l : Log) : go (Log * (Z * option error)) :=
  let base := nextOffset l in
  batch ← patchBatch batch0 base;
  let '(l1, rerr) := if rollDue l batch then roll e base l else (l, None) in
  match rerr with
  | Some er => Ret (l1, (0, Some er))
  | None =>
    match ParseHeader batch with
    | (_, Some er) => Ret (l1, (0, Some er))
    | (h, None) =>
      let '(s', aerr) := append (io_idx e) (io_log e) batch base (active l1) in
      let l2 := setActive l1 s' in
      match aerr with
      | Some er => Ret (l2, (0, Some er))
      | None =>
        let next := int64 (base + RecordCount h) in
        Ret (mkLog (cfg l2) (segments l2) next
               (if holdHWM l2 then highWatermark l2 else next) (holdHWM l2) true, (base, None))
      end
    end
  end.

Definition AppendReplica (e : io) (batch : list byte) (l : Log) : Log * (Z * option error) :=
  match ParseHeader batch with
  | (_, Some er) => (l, (0, Some er))
  | (h, None) =>
    if BaseOffset h <? nextOffset l then (l, (nextOffset l, None))
    else if nextOffset l <? BaseOffset h then (l, (nextOffset l, Some ErrReplicaGap))
    else
      let '(l1, rerr) := if rollDue l batch then roll e (BaseOffset h) l else (l, None) in
      match rerr with
      | Some er => (l1, (0, Some er))
      | None =>
        let '(s', aerr) := append (io_idx e) (io_log e) batch (BaseOffset h) (active l1) in
        let l2 := setActive l1 s' in
        match aerr with
        | Some er => (l2, (0, Some er))
        | None =>
          let next := int64 (LastOffset h + 1) in
          (mkLog (cfg l2) (segments l2) next (highWatermark l2) (holdHWM l2) true, (next, None))
        end
      end
  end.

Definition HighWatermark (l : Log) : Z := highWatermark l.

Definition SetHighWatermark (hwm : Z) (l : Log) : Log :=
  let hwm := if nextOffset l <? hwm then nextOffset l else hwm in
  if highWatermark l <? hwm
  then mkLog (cfg l) (segments l) (nextOffset l) hwm (holdHWM l) (dirty l) else l.

Definition HoldHighWatermark (l : Log) : Log :=
  mkLog (cfg l) (segments l) (nextOffset l) (highWatermark l) true (dirty l).

Definition segmentFor (l : Log) (offset : Z) : segment :=
  let i := sort_Search (length (segments l))
             (fun i => offset <? baseOffset (default noSegment (segments l !! i))) in
  match i with
  | O => firstSegment l
  | S i => default noSegment (segments l !! i)
  end.

Definition Read (offset maxBytes : Z) (l : Log) : go (list byte * option error) :=
  if offset =? nextOffset l then Ret ([], None)
  else if (nextOffset l <? offset) || (offset <? baseOffset (firstSegment l))
  then Ret ([], Some ErrOffsetOutOfRange)
  else readBatchesFrom (segmentFor l offset) offset maxBytes.

(** [OffsetForTimestamp]: the inner loop over one segment answers [Some] when the
    search is over. *)
Fixpoint ts_loop (fuel : nat) (ts : Z) (s : segment) (pos : Z) : go (option (Z * bool)) :=
  match fuel with
  | O => Spin
  | S fuel =>
    if pos <? logSize s then
      match ReadAt (logFile s) (Z.of_nat HeaderSize) pos with
      | None => Ret (Some (0, false))
      | Some hdr =>
        match ParseHeader hdr with
        | (_, Some _) => Ret (Some (0, false))
        | (h, None) =>
          if ts <=? MaxTimestamp h then Ret (Some (BaseOffset h, true))
          else ts_loop fuel ts s (int32 (pos + int32 (TotalSize h)))
        end
      end
    else Ret None
  end.

Fixpoint ts_segments (ts : Z) (segs : list segment) : go (Z * bool) :=
  match segs with
  | [] => Ret (0, false)
  | s :: segs =>
    r ← ts_loop (S (Z.to_nat (logSize s))) ts s 0;
    match r with Some answer => Ret answer | None => ts_segments ts segs end
  end.

Definition OffsetForTimestamp (ts : Z) (l : Log) : go (Z * bool) := ts_segments ts (segments l).

Definition EarliestOffset (l : Log) : Z := baseOffset (firstSegment l).
Definition LatestOffset (l : Log) : Z := nextOffset l.

Definition sizes (segs : list segment) : Z :=
  foldl (fun total s => int64 (total + logSize s)) 0 segs.
Definition Size (l : Log) : Z := sizes (segments l).

Definition Flush (synced : bool) (l : Log) : Log * option error :=
  if negb (dirty l) then (l, None)
  else if negb synced then (l, Some ErrIO)
  else (mkLog (cfg l) (segments l) (nextOffset l) (highWatermark l) (holdHWM l) false, None).

(** [EnforceRetention]: [modTime base] is what Stat answers for the .log file of
    the segment at [base] ([None]: an error); times in nanoseconds.  The age is an
    int64 of nanoseconds, and the product wraps.  The loop answers how many segments
    were deleted. *)
Definition retentionCutoff (now maxAgeMs : Z) : Z := now + int64 (int64 (- maxAgeMs) * 1000000).

Fixpoint retain_loop (now : Z) (modTime : Z -> option Z) (maxAgeMs maxBytes : Z)
    (segs : list segment) (totalSize : Z) : nat :=
  match segs with
  | [] | [_] => 0%nat
  | s :: segs =>
    let expired := (0 <? maxAgeMs) &&
      match modTime (baseOffset s) with Some t => t <? retentionCutoff now maxAgeMs | None => false end in
    let overSize := (0 <? maxBytes) && (maxBytes <? totalSize) in
    if negb expired && negb overSize then 0%nat
    else S (retain_loop now modTime maxAgeMs maxBytes segs (int64 (totalSize - logSize s)))
  end.

Definition EnforceRetention (now : Z) (modTime : Z -> option Z) (maxAgeMs maxBytes : Z) (l : Log) : Log :=
  if (length (segments l) <=? 1)%nat then l
  else
    let deleted := retain_loop now modTime maxAgeMs maxBytes (segments l) (sizes (segments l)) in
    mkLog (cfg l) (drop deleted (segments l)) (nextOffset l) (highWatermark l) (holdHWM l) (dirty l).

(** ** The abstract content of a log *)

(** Sealed segments: none is empty (a roll only leaves a segment that has data)
    and each starts where the one before it ends. *)
Fixpoint sealed (o : Z) (segs : list segment) (bss : list (list (list byte))) (m : Z) : Prop :=
  match segs, bss with
  | [], [] => o = m
  | s :: segs, bs :: bss =>
    baseOffset s = o /\ bs <> [] /\ exists x, seg_rep s bs x /\ sealed x segs bss m
  | _, _ => False
  end.

(** [log_rep l bss bs]: the sealed segments hold [bss], the active one [bs]. *)
Record log_rep (l : Log) (bss : list (list (list byte))) (bs : list (list byte)) : Prop := {
  lr_segments : exists cs a, segments l = cs ++ [a] /\
    sealed (EarliestOffset l) cs bss (baseOffset a) /\ seg_rep a bs (nextOffset l);
  lr_hwm : highWatermark l <= nextOffset l }.

(** The batches of the log, in offset order. *)
Definition contents (bss : list (list (list byte))) (bs : list (list byte)) : list (list byte) :=
  concat bss ++ bs.

Lemma sealed_le o segs bss m : sealed o segs bss m -> o <= m.
Proof.
  revert o bss. induction segs as [|s segs IH]; intros o [|bs bss]; cbn [sealed]; try done; [lia|].
  intros (<- & _ & x & Hr & Hs). pose proof (chained_le _ _ _ (sr_chain _ _ _ Hr)).
  specialize (IH _ _ Hs). lia.
Qed.

Lemma sealed_snoc o segs bss m s bs x :
  sealed o segs bss m -> baseOffset s = m -> bs <> [] -> seg_rep s bs x ->
  sealed o (segs ++ [s]) (bss ++ [bs]) x.
Proof.
  revert o bss. induction segs as [|s0 segs IH]; intros o [|bs0 bss]; cbn [sealed app]; try done.
  - intros -> -> Hne Hr. split_and!; [done|done|]. by exists x.
  - intros (<- & Hne0 & y & Hr0 & Hs) Hb Hne Hr. split_and!; [done|done|]. exists y.
    split; [done|]. by apply IH.
Qed.

Lemma sealed_contents o segs bss m : sealed o segs bss m -> chained o (concat bss) m.
Proof.
  revert o bss. induction segs as [|s segs IH]; intros o [|bs bss]; cbn [sealed concat]; try done.
  intros (<- & _ & x & Hr & Hs). apply chained_app. exists x. split; [by apply Hr|by apply IH].
Qed.

Lemma sealed_drop k o segs bss m : sealed o segs bss m -> (k <= length segs)%nat ->
  exists o', sealed o' (drop k segs) (drop k bss) m /\ o <= o' /\
    chained o (concat (take k bss)) o'.
Proof.
  revert k o bss. induction segs as [|s segs IH]; intros k o [|bs bss]; cbn [sealed length]; try done.
  - intros -> Hk. assert (k = 0)%nat as -> by lia. by exists m.
  - intros (<- & Hne & x & Hr & Hs) Hk. destruct k as [|k].
    + exists (baseOffset s). cbn. split_and!; try done. by exists x.
    + destruct (IH k x bss Hs ltac:(lia)) as (o' & H1 & H2 & H3). exists o'.
      pose proof (chained_le _ _ _ (sr_chain _ _ _ Hr)).
      cbn [drop take concat]. split_and!; [done|lia|].
      apply chained_app. exists x. split; [apply Hr|done].
Qed.

Lemma head_snoc_base o cs bss a m :
  sealed o cs bss m -> baseOffset a = m -> baseOffset (default noSegment (head (cs ++ [a]))) = o.
Proof. destruct cs as [|s cs], bss as [|bs bss]; cbn; naive_solver. Qed.

Lemma last_snoc_default {A} (d : A) l x : default d (last (l ++ [x])) = x.
Proof. by rewrite last_snoc. Qed.

Lemma log_contents l bss bs : log_rep l bss bs ->
  chained (EarliestOffset l) (contents bss bs) (nextOffset l).
Proof.
  intros [(cs & a & Hs & Hc & Ha) _]. unfold contents. apply chained_app.
  exists (baseOffset a). split; [by eapply sealed_contents|apply Ha].
Qed.

(** ** segmentFor finds the segment that holds an offset *)

Lemma sealed_lookup o cs bss m i s :
  sealed o cs bss m -> cs !! i = Some s ->
  exists bs x, bss !! i = Some bs /\ seg_rep s bs x /\ bs <> [] /\
    o <= baseOffset s /\ baseOffset s < x <= m /\
    (forall t, cs !! S i = Some t -> baseOffset t = x) /\ (S i = length cs -> x = m).
Proof.
  revert o bss i. induction cs as [|c cs IH]; intros o [|bs bss] i; cbn [sealed]; try done.
  intros (<- & Hne & x & Hr & Hs). destruct i as [|i]; cbn [lookup list_lookup].
  - intros [= ->]. exists bs, x. pose proof (sealed_le _ _ _ _ Hs).
    assert (baseOffset s < x).
    { pose proof (sr_chain _ _ _ Hr) as Hc. destruct bs as [|b bs]; [done|].
      cbn [chained] in Hc. destruct Hc as [[_ _ ?] ?%chained_le]. lia. }
    split_and!; try done; try lia.
    + intros t Ht. destruct cs as [|c cs]; [done|]. cbn in Ht. simplify_eq.
      destruct bss; cbn [sealed] in Hs; [done|]. by destruct Hs as [-> _].
    + intros Hl. destruct cs; [|done]. destruct bss; cbn [sealed] in Hs; [done|done].
  - intros Hi. destruct (IH _ _ _ Hs Hi) as (bs' & x' & H1 & H2 & H3 & H4 & H5 & H6 & H7).
    exists bs', x'. pose proof (chained_le _ _ _ (sr_chain _ _ _ Hr)).
    split_and!; try done; try lia. intros Hl. apply H7. simpl in Hl. lia.
Qed.

Section Reading.
Context (l : Log) (bss : list (list (list byte))) (bs : list (list byte)) (Hrep : log_rep l bss bs).

Lemma segments_lookup i s :
  segments l !! i = Some s ->
  exists sbs x, (bss ++ [bs]) !! i = Some sbs /\ seg_rep s sbs x /\ baseOffset s <= x <= nextOffset l /\
    (forall t, segments l !! S i = Some t -> baseOffset t = x) /\
    (S i = length (segments l) -> x = nextOffset l).
Proof.
  destruct (lr_segments _ _ _ Hrep) as (cs & a & -> & Hc & Ha). intros Hi.
  assert (length bss = length cs) as Hlen.
  { clear -Hc. revert Hc. generalize (EarliestOffset l). revert bss.
    induction cs as [|c cs IH]; intros [|b bss] o; cbn [sealed]; try done.
    intros (_ & _ & x & _ & H). cbn. f_equal. by eapply IH. }
  pose proof (chained_le _ _ _ (sr_chain _ _ _ Ha)).
  apply lookup_snoc_Some in Hi as [[Hi Hs]|[-> ->]].
  - destruct (sealed_lookup _ _ _ _ _ _ Hc Hs) as (sbs & x & H1 & H2 & H3 & H4 & H5 & H6 & H7).
    exists sbs, x. split_and!; try done; try lia.
    + rewrite lookup_app_l by (rewrite Hlen; lia). done.
    + intros t [[Ht Hx]|[Ht ->]]%lookup_snoc_Some; [by apply H6|]. symmetry. by apply H7.
    + rewrite length_app. simpl. lia.
  - exists bs, (nextOffset l). split_and!; try done; try lia.
    + rewrite lookup_app_r by lia. by rewrite Hlen, Nat.sub_diag.
    + intros t Ht%lookup_lt_Some. rewrite length_app in Ht. simpl in Ht. lia.
Qed.

Lemma segments_mono i j s t :
  (i <= j)%nat -> segments l !! i = Some s -> segments l !! j = Some t -> baseOffset s <= baseOffset t.
Proof.
  intros Hij Hs. revert t. induction Hij as [|j Hij IH]; intros t Ht; [by simplify_eq|].
  destruct (lookup_lt_is_Some_2 (segments l) j) as [u Hu]; [apply lookup_lt_Some in Ht; lia|].
  destruct (segments_lookup j u Hu) as (_ & x & _ & _ & Hx & Hn & _).
  rewrite (Hn t Ht). specialize (IH u Hu). lia.
Qed.

Lemma segmentFor_spec off :
  EarliestOffset l <= off < nextOffset l ->
  exists i sbs x, segments l !! i = Some (segmentFor l off) /\ (bss ++ [bs]) !! i = Some sbs /\
    seg_rep (segmentFor l off) sbs x /\ baseOffset (segmentFor l off) <= off < x.
Proof.
  intros Hoff. unfold segmentFor.
  set (n := length (segments l)).
  set (f := fun i => off <? baseOffset (default noSegment (segments l !! i))).
  assert (forall i, (i < n)%nat -> exists s, segments l !! i = Some s) as Hex.
  { intros i Hi. apply lookup_lt_is_Some_2. done. }
  assert (forall a b, (a <= b < n)%nat -> f a = true -> f b = true) as Hmono.
  { intros a b Hab. unfold f. destruct (Hex a ltac:(lia)) as [s Hs]. destruct (Hex b ltac:(lia)) as [t Ht].
    rewrite Hs, Ht. cbn. rewrite !Z.ltb_lt. pose proof (segments_mono a b s t ltac:(lia) Hs Ht). lia. }
  destruct (sort_Search_spec n f Hmono) as (Hr & Hlo & Hhi).
  assert (0 < n)%nat as Hn.
  { unfold n. destruct (lr_segments _ _ _ Hrep) as (cs & a & -> & _). rewrite length_app. simpl. lia. }
  destruct (sort_Search n f) as [|i] eqn:Er.
  - specialize (Hhi 0%nat ltac:(lia)). unfold f in Hhi. apply Z.ltb_lt in Hhi.
    unfold EarliestOffset, firstSegment in Hoff. rewrite head_lookup in Hoff. lia.
  - destruct (Hex i ltac:(lia)) as [s Hs]. rewrite Hs. cbn [default from_option].
    destruct (segments_lookup i s Hs) as (sbs & x & H1 & H2 & H3 & H4 & H5).
    exists i, sbs, x. split_and!; try done.
    + specialize (Hlo i ltac:(lia)). unfold f in Hlo. rewrite Hs in Hlo. by apply Z.ltb_ge in Hlo.
    + destruct (decide (S i = n)) as [Hin|Hin]; [rewrite H5; [lia|done]|].
      destruct (Hex (S i) ltac:(lia)) as [t Ht]. rewrite <- (H4 t Ht).
      specialize (Hhi (S i) ltac:(lia)). unfold f in Hhi. rewrite Ht in Hhi. by apply Z.ltb_lt in Hhi.
Qed.

Lemma drop_before_app want o sbs x rest :
  chained o sbs x -> o <= want < x -> drop_before want (sbs ++ rest) = drop_before want sbs ++ rest /\
  exists b tl, drop_before want sbs = b :: tl /\ BaseOffset (headerOf b) <= want < next_of b.
Proof.
  revert o. induction sbs as [|b sbs IH]; intros o; cbn [chained app drop_before]; [lia|].
  intros [[_ Hb _] Hc] Hw. destruct (Z.leb_spec (next_of b) want).
  - eapply IH; [exact Hc|lia].
  - split; [done|]. exists b, sbs. split; [done|lia].
Qed.

Lemma contents_split i sbs : (bss ++ [bs]) !! i = Some sbs ->
  exists pre post, contents bss bs = pre ++ sbs ++ post /\ pre = concat (take i (bss ++ [bs])).
Proof.
  intros Hi. exists (concat (take i (bss ++ [bs]))), (concat (drop (S i) (bss ++ [bs]))).
  split; [|done]. unfold contents.
  transitivity (concat (bss ++ [bs])); [rewrite concat_app; cbn; by rewrite app_nil_r|].
  rewrite <- (take_drop_middle _ _ _ Hi) at 1. by rewrite concat_app.
Qed.

(** What [Read] answers, in terms of the content of the log. *)
Lemma Read_spec off max :
  in_int 32 max -> EarliestOffset l <= off < nextOffset l ->
  exists rs tl b rs', Read off max l = Ret (concat rs, None) /\
    drop_before off (contents bss bs) = rs ++ tl /\ rs = b :: rs' /\
    BaseOffset (headerOf b) <= off < next_of b /\ (rs' = [] \/ zlen (concat rs) <= max).
Proof.
  intros Hmax Hoff. destruct (segmentFor_spec off Hoff) as (i & sbs & x & Hi & Hsbs & Hr & Hx).
  pose proof (sr_chain _ _ _ Hr) as Hchain.
  destruct (contents_split i sbs Hsbs) as (pre & post & Hcont & Hpre).
  destruct (drop_before_app off _ _ _ post Hchain Hx) as (Happ & b & tl & Hfirst & Hb).
  destruct (gather_first max (drop_before off sbs)) as (b' & rs' & Hg & Hh & Hsz).
  { by rewrite Hfirst. }
  { destruct (drop_before_suffix off sbs) as (b1 & Hsuf & _).
    pose proof (chained_wf _ _ _ Hchain) as Hw. rewrite Hsuf in Hw. by apply Forall_app in Hw as [_ Hw]. }
  rewrite Hfirst in Hh. cbn in Hh. simplify_eq.
  destruct (gather_prefix max 0 (drop_before off sbs)) as [tl' Htl].
  exists (b' :: rs'), (tl' ++ post), b', rs'. split_and!; try done; try lia.
  - unfold EarliestOffset in Hoff. unfold Read.
    rewrite (proj2 (Z.eqb_neq _ _)) by lia. ltb_false. ltb_false. cbn [orb].
    erewrite readBatchesFrom_spec; [|done|done|done]. unfold read_spec. by rewrite Hg.
  - rewrite Hcont, drop_before_skip; [rewrite Happ, Htl, Hg; by rewrite <- app_assoc|].
    pose proof (log_contents _ _ _ Hrep) as Hall. rewrite Hcont in Hall.
    apply chained_app in Hall as (m & Hm1 & Hm2). apply chained_app in Hm2 as (m' & Hm2 & _).
    assert (m = baseOffset (segmentFor l off)) as ->.
    { destruct sbs as [|b0 sbs]; [done|]. cbn [chained] in Hm2, Hchain.
      destruct Hm2 as [[_ Hb1 _] _], Hchain as [[_ Hb2 _] _]. congruence. }
    eapply Forall_impl; [by eapply chained_below|]. cbn. lia.
Qed.

(** A read at the offset of the last batch answers that batch. *)
Lemma Read_last pre b off max :
  contents bss bs = pre ++ [b] -> in_int 32 max ->
  Forall (fun b => next_of b <= off) pre -> EarliestOffset l <= off < nextOffset l ->
  Read off max l = Ret (b, None).
Proof.
  intros Hcont Hmax Hpre Hoff.
  destruct (Read_spec off max Hmax Hoff) as (rs & tl & b0 & rs' & -> & Hd & -> & Hb0 & _).
  rewrite Hcont, drop_before_skip in Hd by done.
  cbn [drop_before] in Hd. destruct (_ <=? _); [done|].
  destruct rs' as [|? [|? ?]]; cbn in Hd; simplify_eq. cbn [concat]. by rewrite app_nil_r.
Qed.

End Reading.

(** ** Appending *)

(** What an operation that stores nothing keeps. *)
Record same_meta (l l1 : Log) : Prop := {
  sm_cfg : cfg l1 = cfg l;
  sm_next : nextOffset l1 = nextOffset l;
  sm_hwm : highWatermark l1 = highWatermark l;
  sm_hold : holdHWM l1 = holdHWM l;
  sm_first : EarliestOffset l1 = EarliestOffset l }.

Lemma same_meta_refl l : same_meta l l.
Proof. done. Qed.

Lemma log_active l bss bs : log_rep l bss bs ->
  seg_rep (active l) bs (nextOffset l) /\
  0 <= baseOffset (active l) /\ baseOffset (active l) <= nextOffset l < 2 ^ 63.
Proof.
  intros [(cs & a & Hs & _ & Ha) _]. unfold active. rewrite Hs, last_snoc_default.
  pose proof (sr_base _ _ _ Ha). pose proof (sr_bound _ _ _ Ha).
  pose proof (chained_le _ _ _ (sr_chain _ _ _ Ha)). split; [done|lia].
Qed.

(** Replacing the active segment by one that holds [bs'] up to [n]. *)
Lemma setActive_rep l bss bs s' bs' n hwm d :
  log_rep l bss bs -> baseOffset s' = baseOffset (active l) -> seg_rep s' bs' n -> hwm <= n ->
  let l' := mkLog (cfg l) (segments (setActive l s')) n hwm (holdHWM l) d in
  log_rep l' bss bs' /\ EarliestOffset l' = EarliestOffset l.
Proof.
  intros [(cs & a & Hs & Hc & Ha) _] Hb Hr Hh l'.
  unfold active in Hb. rewrite Hs, last_snoc_default in Hb.
  assert (segments l' = cs ++ [s']) as Hsegs.
  { unfold l', setActive. cbn [segments]. by rewrite Hs, removelast_last. }
  assert (EarliestOffset l' = EarliestOffset l) as He.
  { unfold EarliestOffset, firstSegment. rewrite Hsegs, Hs.
    rewrite (head_snoc_base _ _ _ _ _ Hc Hb). symmetry. by apply (head_snoc_base _ _ _ _ _ Hc). }
  split; [|done]. split; [|done]. exists cs, s'. split_and!; [done| |done].
  by rewrite He, Hb.
Qed.

Lemma roll_rep e l bss bs l1 r :
  log_rep l bss bs -> 0 < logSize (active l) -> roll e (nextOffset l) l = (l1, r) ->
  (r = Some ErrIO /\ l1 = l /\ e <> io_ok) \/
  (r = None /\ log_rep l1 (bss ++ [bs]) [] /\ same_meta l l1 /\
   logSize (active l1) = 0 /\ baseOffset (active l1) = nextOffset l).
Proof.
  intros Hrep Hsz. unfold roll.
  destruct (io_flush e) eqn:E1; cbn [negb]; [|intros [= <- <-]; left; split_and!; try done; by intros ->].
  destruct (io_create e) eqn:E2; cbn [negb]; [|intros [= <- <-]; left; split_and!; try done; by intros ->].
  intros [= <- <-]. right. destruct (log_active _ _ _ Hrep) as (Hact & Hb).
  destruct Hrep as [(cs & a & Hs & Hc & Ha) Hh].
  set (l1 := mkLog _ _ _ _ _ _).
  assert (active l1 = createSegment (nextOffset l) (IndexIntervalBytes (cfg l))) as Hact1.
  { unfold active, l1. cbn [segments]. by rewrite last_snoc. }
  assert (bs <> []) as Hne.
  { intros ->. rewrite (sr_size _ _ _ Hact) in Hsz. done. }
  assert (sealed (EarliestOffset l) (cs ++ [a]) (bss ++ [bs]) (nextOffset l)) as Hc'
    by (by eapply sealed_snoc).
  assert (EarliestOffset l1 = EarliestOffset l) as He.
  { unfold EarliestOffset at 1, firstSegment, l1. cbn [segments]. rewrite Hs.
    by eapply head_snoc_base. }
  split_and!; try done; [|by rewrite Hact1|by rewrite Hact1].
  split; [|done]. exists (cs ++ [a]), (createSegment (nextOffset l) (IndexIntervalBytes (cfg l))).
  split_and!; [by rewrite <- Hs|by rewrite He|].
  apply (createSegment_rep (nextOffset l)). lia.
Qed.

Lemma maybe_roll e b l bss bs l1 r :
  log_rep l bss bs ->
  (if rollDue l b then roll e (nextOffset l) l else (l, None)) = (l1, r) ->
  exists bss1 bs1, log_rep l1 bss1 bs1 /\ contents bss1 bs1 = contents bss bs /\ same_meta l l1 /\
    ((logSize (active l1) = logSize (active l) /\ baseOffset (active l1) = baseOffset (active l) /\
      (rollDue l b = false \/ r <> None)) \/
     (logSize (active l1) = 0 /\ baseOffset (active l1) = nextOffset l)) /\
    (e = io_ok -> r = None).
Proof.
  intros Hrep. destruct (rollDue l b) eqn:Hd.
  2: { intros [= <- <-]. exists bss, bs. split_and!; try done. left. by auto. }
  intros Hroll. apply andb_prop in Hd as [Hpos%Z.ltb_lt _].
  destruct (roll_rep e l bss bs l1 r Hrep Hpos Hroll) as [(-> & -> & Hne)|(-> & Hr & Hm & Hz & Hb)].
  - exists bss, bs. split_and!; try done. left. split_and!; try done. by right.
  - exists (bss ++ [bs]), []. split_and!; try done; [|by right].
    unfold contents. rewrite concat_app. cbn. by rewrite !app_nil_r.
Qed.

(** A batch as a conforming client produces it: as many records as offsets. *)
Record producer_ok (b : list byte) : Prop := {
  po_wf : batch_wf b;
  po_count : RecordCount (headerOf b) = LastOffsetDelta (headerOf b) + 1;
  po_pos : 1 <= RecordCount (headerOf b) }.

(** The int32 and int64 arithmetic of the log has room for the batch. *)
Record room (l : Log) (b : list byte) (count : Z) : Prop := {
  rm_bytes : logSize (active l) + zlen b < 2 ^ 31;
  rm_offset : nextOffset l + count < 2 ^ 63;
  rm_span : nextOffset l + count - baseOffset (active l) < 2 ^ 31 }.

Lemma patched_at b off b' :
  producer_ok b -> patched b off b' -> 0 <= off -> off + RecordCount (headerOf b) < 2 ^ 63 ->
  batch_at off b' /\ next_of b' = off + RecordCount (headerOf b) /\
  RecordCount (headerOf b') = RecordCount (headerOf b).
Proof.
  intros [Hw Hc Hp] Hpt Ho Hmax. pose proof (pt_header _ _ _ Hpt (bw_header _ Hw)) as Hh.
  assert (next_of b' = off + RecordCount (headerOf b)) as Hn.
  { unfold next_of, LastOffset. rewrite Hh. cbn [with_base BaseOffset LastOffsetDelta].
    rewrite (int64_id off), int64_id by solve_int. lia. }
  split_and!; [|done|by rewrite Hh].
  split; [by eapply patched_wf|rewrite Hh; apply int64_id; solve_int|lia].
Qed.

(** The common end of both append paths. *)
Lemma store_batch e b l bss bs b' next :
  log_rep l bss bs -> e = io_ok -> batch_at (nextOffset l) b' -> zlen b' = zlen b ->
  next = next_of b' -> room l b (next_of b' - nextOffset l) ->
  exists l1 s', (if rollDue l b' then roll e (nextOffset l) l else (l, None)) = (l1, None) /\
    append (io_idx e) (io_log e) b' (nextOffset l) (active l1) = (s', None) /\
    (forall hwm, hwm <= next -> exists bss' bs',
       let l' := mkLog (cfg l1) (segments (setActive l1 s')) next hwm (holdHWM l1) true in
       log_rep l' bss' bs' /\ contents bss' bs' = contents bss bs ++ [b'] /\
       EarliestOffset l' = EarliestOffset l) /\ same_meta l l1 /\
    logSize s' <= Z.max (SegmentBytes (cfg l)) (zlen b).
Proof.
  intros Hrep -> Hb Hlen -> [Hr1 Hr2 Hr3].
  destruct (if rollDue l b' then _ else _) as [l1 r] eqn:Hroll.
  destruct (maybe_roll _ _ _ _ _ _ _ Hrep Hroll) as (bss1 & bs1 & Hrep1 & Hcont & Hm & Hcase & Hok).
  rewrite (Hok eq_refl) in *. destruct (log_active _ _ _ Hrep1) as (Hact & Hbase).
  rewrite (sm_next _ _ Hm) in *. pose proof (ba_span _ _ Hb). pose proof (zlen_nonneg b').
  destruct (append_ok (active l1) bs1 (nextOffset l) Hact b' Hb) as (s' & Happ & Hrep' & Hbs' & Hls' & _ & _).
  { destruct Hcase as [(-> & _ & _)|(-> & _)]; destruct (log_active _ _ _ Hrep) as (Ha & _);
      pose proof (sr_size _ _ _ Ha); pose proof (zlen_nonneg (concat bs)); lia. }
  { destruct Hcase as [(_ & -> & _)|(_ & ->)]; destruct (log_active _ _ _ Hrep) as (_ & ?); lia. }
  exists l1, s'. split_and!; [done|exact Happ| |done|].
  2: { rewrite Hls'. destruct Hcase as [(-> & _ & [Hd|Hd])|(-> & _)]; [|done|lia].
       destruct (log_active _ _ _ Hrep) as (Ha & _). pose proof (sr_size _ _ _ Ha).
       pose proof (zlen_nonneg (concat bs)). apply andb_false_iff in Hd as [?%Z.ltb_ge|Hd]; [lia|].
       apply Z.ltb_ge in Hd. rewrite !int32_id in Hd by (rewrite ?int32_id; solve_int). lia. }
  intros hwm Hh. exists bss1, (bs1 ++ [b']).
  destruct (setActive_rep l1 bss1 bs1 s' _ _ hwm true Hrep1 Hbs' Hrep' Hh) as [G1 G2].
  split_and!; [exact G1| |by rewrite <- (sm_first _ _ Hm)].
  rewrite <- Hcont. unfold contents. by rewrite app_assoc.
Qed.

(** A successful append, and what it makes of the log. *)
Lemma Append_stores b l bss bs :
  log_rep l bss bs -> producer_ok b -> room l b (RecordCount (headerOf b)) ->
  exists l' b' bss' bs', Append io_ok b l = Ret (l', (nextOffset l, None)) /\
    (patchBatch b (nextOffset l) = Ret b' /\ patched b (nextOffset l) b') /\ log_rep l' bss' bs' /\
    contents bss' bs' = contents bss bs ++ [b'] /\
    nextOffset l' = nextOffset l + RecordCount (headerOf b) /\
    highWatermark l' = (if holdHWM l then highWatermark l else nextOffset l') /\
    EarliestOffset l' = EarliestOffset l /\
    logSize (active l') <= Z.max (SegmentBytes (cfg l)) (zlen b).
Proof.
  intros Hrep Hb Hroom. pose proof (po_wf _ Hb) as Hw. pose proof (po_pos _ Hb).
  destruct (log_active _ _ _ Hrep) as (_ & Hlo & Hhi).
  destruct (patchBatch_patched b (nextOffset l)) as (b' & Hpatch & Hpt).
  { pose proof (bw_header _ Hw). layout. lia. }
  destruct (patched_at b (nextOffset l) b' Hb Hpt) as (Hat & Hnext & Hcount); [lia|apply Hroom|].
  assert (zlen b' = zlen b) as Hlen by (unfold zlen; by rewrite (pt_length _ _ _ Hpt)).
  assert (room l b (next_of b' - nextOffset l)) as Hroom'
    by (replace (next_of b' - nextOffset l) with (RecordCount (headerOf b)) by lia; done).
  destruct (store_batch io_ok b l bss bs b' (nextOffset l + RecordCount (headerOf b)) Hrep eq_refl Hat Hlen)
    as (l1 & s' & Hroll & Happ & Hstore & Hm & Hsz); [lia|done|].
  assert (int64 (nextOffset l + RecordCount (headerOf b')) = nextOffset l + RecordCount (headerOf b)) as H64.
  { rewrite Hcount. apply int64_id. destruct Hroom. solve_int. }
  set (next := nextOffset l + RecordCount (headerOf b)) in *.
  destruct (Hstore (if holdHWM l1 then highWatermark l1 else next)) as (bss' & bs' & H1 & H2 & H3).
  { pose proof (lr_hwm _ _ _ Hrep). rewrite (sm_hwm _ _ Hm). destruct (holdHWM l1); lia. }
  eexists _, b', bss', bs'. split_and!; [|exact Hpatch|done|exact H1|done|done| |exact H3|].
  - unfold Append. rewrite Hpatch. cbn [mbind go_bind]. rewrite Hroll.
    rewrite (batch_wf_header b') by (by eapply patched_wf). rewrite Happ, H64. done.
  - cbn. by rewrite (sm_hold _ _ Hm), (sm_hwm _ _ Hm).
  - unfold active, setActive. cbn [segments]. by rewrite last_snoc.
Qed.

(** Whatever the bytes and whatever file call fails, an append that reports an
    error leaves the stored batches and both offsets as they were. *)
Lemma Append_rejected e b l bss bs l' z er :
  log_rep l bss bs -> Append e b l = Ret (l', (z, Some er)) ->
  z = 0 /\ same_meta l l' /\
  exists bss' bs', log_rep l' bss' bs' /\ contents bss' bs' = contents bss bs.
Proof.
  intros Hrep. unfold Append. destruct (patchBatch b _) as [b'| |]; cbn [mbind go_bind]; [|done..].
  destruct (if rollDue l b' then _ else _) as [l1 r] eqn:Hroll.
  destruct (maybe_roll _ _ _ _ _ _ _ Hrep Hroll) as (bss1 & bs1 & Hrep1 & Hcont & Hm & _ & _).
  destruct r as [er'|]; [intros [= <- <- <-]; split_and!; [done|done|by exists bss1, bs1]|].
  destruct (ParseHeader b') as [h [er'|]]; [intros [= <- <- <-]; split_and!; [done|done|by exists bss1, bs1]|].
  destruct (append _ _ _ _ _) as [s' [er'|]] eqn:Happ; [|done]. intros [= <- <- <-].
  destruct (log_active _ _ _ Hrep1) as (Hact & _). rewrite <- (sm_next _ _ Hm) in Happ.
  destruct (append_failed _ _ _ Hact _ _ _ _ _ Happ) as (Hr & Hb & _).
  destruct (setActive_rep l1 bss1 bs1 s' _ _ (highWatermark l1) (dirty l1) Hrep1 Hb Hr (lr_hwm _ _ _ Hrep1))
    as [G1 G2].
  split_and!; [done| |by exists bss1, bs1].
  split; cbn; try apply Hm. by rewrite <- (sm_first _ _ Hm).
Qed.

(** The follower's write path: duplicates, gaps and the next batch. *)
Lemma AppendReplica_stores b l bss bs :
  log_rep l bss bs -> batch_at (nextOffset l) b -> room l b (next_of b - nextOffset l) ->
  exists l' bss' bs', AppendReplica io_ok b l = (l', (next_of b, None)) /\ log_rep l' bss' bs' /\
    contents bss' bs' = contents bss bs ++ [b] /\ nextOffset l' = next_of b /\
    highWatermark l' = highWatermark l /\ EarliestOffset l' = EarliestOffset l.
Proof.
  intros Hrep Hat Hroom. pose proof (ba_wf _ _ Hat) as Hw. pose proof (ba_span _ _ Hat) as Hsp.
  destruct (log_active _ _ _ Hrep) as (_ & Hlo & Hhi).
  destruct (store_batch io_ok b l bss bs b (next_of b) Hrep eq_refl Hat eq_refl eq_refl Hroom)
    as (l1 & s' & Hroll & Happ & Hstore & Hm & _).
  destruct (Hstore (highWatermark l1)) as (bss' & bs' & H1 & H2 & H3).
  { pose proof (lr_hwm _ _ _ Hrep). rewrite (sm_hwm _ _ Hm). lia. }
  eexists _, bss', bs'. split_and!; [|exact H1|done|done|by apply Hm|exact H3].
  unfold AppendReplica. rewrite (batch_wf_header b) by done. rewrite (ba_base _ _ Hat).
  rewrite Z.ltb_irrefl, Hroll, Happ. unfold next_of in *. rewrite int64_id by solve_int. done.
Qed.

(** The active segment grows by at most the batch. *)
Lemma AppendReplica_active b l bss bs l' z :
  log_rep l bss bs -> batch_at (nextOffset l) b -> room l b (next_of b - nextOffset l) ->
  AppendReplica io_ok b l = (l', (z, None)) ->
  logSize (active l') <= logSize (active l) + zlen b /\ baseOffset (active l) <= baseOffset (active l').
Proof.
  intros Hrep Hat [Hr1 Hr2 Hr3]. unfold AppendReplica. rewrite (batch_wf_header b) by apply Hat.
  rewrite (ba_base _ _ Hat), Z.ltb_irrefl.
  destruct (if rollDue l b then _ else _) as [l1 [er|]] eqn:Hroll; [done|].
  destruct (maybe_roll _ _ _ _ _ _ _ Hrep Hroll) as (bss1 & bs1 & Hrep1 & _ & Hm & Hcase & _).
  destruct (log_active _ _ _ Hrep1) as (Hact & _). destruct (log_active _ _ _ Hrep) as (Ha & _ & Hb).
  pose proof (sr_size _ _ _ Ha). pose proof (zlen_nonneg (concat bs)). pose proof (zlen_nonneg b).
  rewrite (sm_next _ _ Hm) in Hact. pose proof (ba_span _ _ Hat).
  destruct (append_ok (active l1) bs1 (nextOffset l) Hact b Hat) as (s' & Happ & _ & Hbs' & Hls' & _).
  { destruct Hcase as [(-> & _ & _)|(-> & _)]; lia. }
  { destruct Hcase as [(_ & -> & _)|(_ & ->)]; lia. }
  cbn [io_ok io_idx io_log]. rewrite Happ. intros [= <- <-].
  set (l2 := mkLog _ _ _ _ _ _). assert (active l2 = s') as -> by (unfold active, l2, setActive; cbn [segments]; by rewrite last_snoc).
  rewrite Hls', Hbs'.
  destruct Hcase as [(-> & -> & _)|(-> & ->)]; lia.
Qed.

Lemma AppendReplica_rejected e b l bss bs l' z er :
  log_rep l bss bs -> AppendReplica e b l = (l', (z, Some er)) ->
  same_meta l l' /\ exists bss' bs', log_rep l' bss' bs' /\ contents bss' bs' = contents bss bs.
Proof.
  intros Hrep. unfold AppendReplica.
  destruct (ParseHeader b) as [h [er'|]]; [intros [= <- _ _]; split; [done|by exists bss, bs]|].
  destruct (Z.ltb_spec (BaseOffset h) (nextOffset l)); [done|].
  destruct (Z.ltb_spec (nextOffset l) (BaseOffset h)); [intros [= <- _ _]; split; [done|by exists bss, bs]|].
  assert (BaseOffset h = nextOffset l) as Heq by lia. rewrite !Heq.
  destruct (if rollDue l b then _ else _) as [l1 r] eqn:Hroll.
  destruct (maybe_roll _ _ _ _ _ _ _ Hrep Hroll) as (bss1 & bs1 & Hrep1 & Hcont & Hm & _ & _).
  destruct r as [er'|]; [intros [= <- _ _]; split; [done|by exists bss1, bs1]|].
  destruct (append _ _ _ _ _) as [s' [er'|]] eqn:Happ; [|done]. intros [= <- _ _].
  destruct (log_active _ _ _ Hrep1) as (Hact & _). rewrite <- (sm_next _ _ Hm) in Happ.
  destruct (append_failed _ _ _ Hact _ _ _ _ _ Happ) as (Hr & Hb & _).
  destruct (setActive_rep l1 bss1 bs1 s' _ _ (highWatermark l1) (dirty l1) Hrep1 Hb Hr (lr_hwm _ _ _ Hrep1))
    as [G1 G2].
  split; [|by exists bss1, bs1]. split; cbn; try apply Hm. by rewrite <- (sm_first _ _ Hm).
Qed.

(** An append that succeeded in spite of a faulty [io] never met the fault. *)
Lemma append_success wi wl b n s s' : append wi wl b n s = (s', None) -> append WOk WOk b n s = (s', None).
Proof.
  unfold append. destruct (indexDue s); [destruct wi; cbn [writeIndex]; [|done]|];
    (destruct wl; cbn [writeLog]; [done|done]).
Qed.

Lemma roll_success e base l l1 : roll e base l = (l1, None) -> roll io_ok base l = (l1, None).
Proof. unfold roll. destruct (io_flush e), (io_create e); done. Qed.

(** A refused replica batch leaves the active segment no larger. *)
Lemma AppendReplica_rejected_active e b l bss bs l' z er :
  log_rep l bss bs -> batch_at (nextOffset l) b -> AppendReplica e b l = (l', (z, Some er)) ->
  logSize (active l') <= logSize (active l) /\ baseOffset (active l) <= baseOffset (active l').
Proof.
  intros Hrep Hat. unfold AppendReplica. rewrite (batch_wf_header b) by apply Hat. rewrite (ba_base _ _ Hat), Z.ltb_irrefl.
  destruct (if rollDue l b then _ else _) as [l1 r] eqn:Hroll.
  destruct (maybe_roll _ _ _ _ _ _ _ Hrep Hroll) as (bss1 & bs1 & Hrep1 & _ & Hm & Hcase & _).
  destruct (log_active _ _ _ Hrep) as (Ha & _ & Hb). pose proof (sr_size _ _ _ Ha). pose proof (zlen_nonneg (concat bs)).
  assert (logSize (active l1) <= logSize (active l) /\ baseOffset (active l) <= baseOffset (active l1)) as Hl1.
  { destruct Hcase as [(-> & -> & _)|[-> ->]]; lia. }
  destruct r as [er'|]; [by intros [= <- _ _]|].
  destruct (append _ _ _ _ _) as [s' [er'|]] eqn:Happ; [|done]. intros [= <- _ _].
  destruct (log_active _ _ _ Hrep1) as (Hact & _). rewrite <- (sm_next _ _ Hm) in Happ.
  destruct (append_failed _ _ _ Hact _ _ _ _ _ Happ) as (Hr & Hbs & _).
  unfold active at 1 4, setActive. cbn [segments]. rewrite last_snoc_default, Hbs, (sr_size _ _ _ Hr), <- (sr_size _ _ _ Hact). done.
Qed.

Lemma maybe_roll_success e base (c : bool) l l1 :
  (if c then roll e base l else (l, None)) = (l1, None) ->
  (if c then roll io_ok base l else (l, None)) = (l1, None).
Proof. destruct c; [apply roll_success|done]. Qed.

Lemma Append_success e b l l' z :
  Append e b l = Ret (l', (z, None)) -> Append io_ok b l = Ret (l', (z, None)).
Proof.
  unfold Append. destruct (patchBatch b _) as [b'| |]; cbn [mbind go_bind]; [|done..].
  destruct (if rollDue l b' then _ else _) as [l1 [er|]] eqn:Hr; [done|].
  apply maybe_roll_success in Hr. rewrite Hr.
  destruct (ParseHeader b') as [h [er|]]; [done|].
  destruct (append _ _ _ _ _) as [s' [er|]] eqn:Ha; [done|].
  apply append_success in Ha. cbn [io_idx io_log io_ok]. by rewrite Ha.
Qed.

Lemma AppendReplica_success e b l l' z :
  AppendReplica e b l = (l', (z, None)) -> AppendReplica io_ok b l = (l', (z, None)).
Proof.
  unfold AppendReplica. destruct (ParseHeader b) as [h [er|]]; [done|].
  case_match; [done|]. case_match; [done|].
  destruct (if rollDue l b then _ else _) as [l1 [er|]] eqn:Hr; [done|].
  apply maybe_roll_success in Hr. rewrite Hr.
  destruct (append _ _ _ _ _) as [s' [er|]] eqn:Ha; [done|].
  apply append_success in Ha. cbn [io_idx io_log io_ok]. by rewrite Ha.
Qed.

(** ** Retention *)

Lemma retain_loop_bound now mt age maxB segs total :
  segs <> [] -> (retain_loop now mt age maxB segs total < length segs)%nat.
Proof.
  revert total. induction segs as [|s segs IH]; intros total Hne; [done|]. cbn [retain_loop].
  destruct segs as [|s' segs]; [simpl; lia|].
  destruct (_ && _); [simpl; lia|]. cbn [length].
  apply -> Nat.succ_lt_mono. by apply IH.
Qed.

(** How many segments a pass deletes. *)
Definition retained (now : Z) (mt : Z -> option Z) (age maxB : Z) (l : Log) : nat :=
  retain_loop now mt age maxB (segments l) (sizes (segments l)).

Lemma EnforceRetention_drop now mt age maxB l :
  EnforceRetention now mt age maxB l =
  mkLog (cfg l) (drop (retained now mt age maxB l) (segments l)) (nextOffset l) (highWatermark l) (holdHWM l) (dirty l).
Proof.
  unfold EnforceRetention, retained. destruct (Nat.leb_spec (length (segments l)) 1); [|done].
  destruct l as [c segs n h hl d]; cbn in *. by destruct segs as [|s [|s' segs]]; [..|cbn in *; lia].
Qed.

Lemma log_nonempty l bss bs : log_rep l bss bs -> segments l <> [].
Proof. intros [(cs & a & -> & _) _]. by destruct cs. Qed.

Lemma retained_lt now mt age maxB l bss bs :
  log_rep l bss bs -> (retained now mt age maxB l < length (segments l))%nat.
Proof. intros Hrep%log_nonempty. by apply retain_loop_bound. Qed.

Lemma EnforceRetention_rep now mt age maxB l bss bs :
  log_rep l bss bs ->
  let k := retained now mt age maxB l in
  let l' := EnforceRetention now mt age maxB l in
  log_rep l' (drop k bss) bs /\ active l' = active l /\
  chained (EarliestOffset l) (concat (take k bss)) (EarliestOffset l') /\
  contents bss bs = concat (take k bss) ++ contents (drop k bss) bs.
Proof.
  intros Hrep k. cbn zeta. rewrite EnforceRetention_drop. fold k.
  pose proof (retained_lt now mt age maxB _ _ _ Hrep) as Hk. fold k in Hk.
  destruct Hrep as [(cs & a & Hs & Hc & Ha) Hh].
  assert (k <= length cs)%nat as Hk'.
  { apply (f_equal length) in Hs. rewrite length_app in Hs. simpl in Hs. lia. }
  destruct (sealed_drop k _ _ _ _ Hc Hk') as (o' & Hc' & Ho' & Hch).
  set (l' := mkLog _ _ _ _ _ _).
  assert (segments l' = drop k cs ++ [a]) as Hs'.
  { unfold l'. cbn [segments]. rewrite Hs. by rewrite drop_app_le. }
  assert (EarliestOffset l' = o') as He.
  { unfold EarliestOffset, firstSegment. rewrite Hs'. by eapply head_snoc_base. }
  split_and!.
  - split; [|done]. exists (drop k cs), a. rewrite He. by split_and!.
  - unfold active. by rewrite Hs', Hs, !last_snoc_default.
  - by rewrite He.
  - unfold contents. rewrite <- (take_drop k bss) at 1. by rewrite concat_app, app_assoc.
Qed.

(** ** Reachable logs *)

(** One operation of the log, with any outcome of its file calls.  Produced
    batches are what a conforming client sends and the integer fields have room
    for them; replicated bytes are arbitrary unless they continue the log. *)
Inductive log_step (l : Log) : Log -> Prop :=
  | step_append e b l' r :
      producer_ok b -> room l b (RecordCount (headerOf b)) ->
      Append e b l = Ret (l', r) -> log_step l l'
  | step_replica e b l' r :
      (BaseOffset (fst (ParseHeader b)) = nextOffset l ->
       batch_at (nextOffset l) b /\ room l b (next_of b - nextOffset l)) ->
      AppendReplica e b l = (l', r) -> log_step l l'
  | step_hwm h : log_step l (SetHighWatermark h l)
  | step_hold : log_step l (HoldHighWatermark l)
  | step_flush ok : log_step l (fst (Flush ok l))
  | step_retain now mt age maxB : log_step l (EnforceRetention now mt age maxB l).

(** The log [Open] creates in an empty directory. *)
Definition freshLog (c : Config) : Log :=
  mkLog c [createSegment 0 (IndexIntervalBytes c)] 0 0 false false.

Lemma freshLog_rep c : log_rep (freshLog c) [] [].
Proof.
  split; [|done]. exists [], (createSegment 0 (IndexIntervalBytes c)). split_and!; try done.
  apply (createSegment_rep 0). lia.
Qed.

(** How the content may evolve: batches below the new earliest offset may go,
    the others stay as they are, in order, and new ones come behind them; no
    offset moves back. *)
Record evolves (l : Log) (c : list (list byte)) (l' : Log) (c' : list (list byte)) : Prop := {
  ev_content : drop_before (EarliestOffset l') c `prefix_of` c';
  ev_first : EarliestOffset l <= EarliestOffset l';
  ev_next : nextOffset l <= nextOffset l';
  ev_hwm : highWatermark l <= highWatermark l' }.

Lemma drop_before_twice a b bs : a <= b -> drop_before b (drop_before a bs) = drop_before b bs.
Proof.
  intros Hab. induction bs as [|x bs IH]; [done|]. cbn [drop_before].
  destruct (Z.leb_spec (next_of x) a); [leb_true; done|done].
Qed.

Lemma drop_before_prefix a bs cs : bs `prefix_of` cs -> drop_before a bs `prefix_of` drop_before a cs.
Proof.
  intros [k ->]. induction bs as [|x bs IH]; [apply prefix_nil|]. cbn [drop_before app].
  destruct (_ <=? a); [done|]. rewrite app_comm_cons. by eexists.
Qed.

Lemma evolves_trans l1 c1 l2 c2 l3 c3 :
  evolves l1 c1 l2 c2 -> evolves l2 c2 l3 c3 -> evolves l1 c1 l3 c3.
Proof.
  intros [H1 H2 H3 H4] [G1 G2 G3 G4]. split; [|lia..].
  rewrite <- (drop_before_twice (EarliestOffset l2)) by done.
  etrans; [by apply drop_before_prefix|done].
Qed.

Lemma evolves_append l bss bs l' new :
  log_rep l bss bs -> EarliestOffset l' = EarliestOffset l -> nextOffset l <= nextOffset l' ->
  highWatermark l <= highWatermark l' -> evolves l (contents bss bs) l' (contents bss bs ++ new).
Proof.
  intros Hrep He Hn Hh. split; [|lia..]. rewrite He.
  erewrite drop_before_none; [by eexists|by eapply log_contents|done].
Qed.

Lemma evolves_same l bss bs l' :
  log_rep l bss bs -> same_meta l l' -> evolves l (contents bss bs) l' (contents bss bs).
Proof.
  intros Hrep []. rewrite <- (app_nil_r (contents bss bs)) at 2. apply evolves_append; [done|lia..].
Qed.

Lemma SetHighWatermark_rep h l bss bs :
  log_rep l bss bs ->
  log_rep (SetHighWatermark h l) bss bs /\
  highWatermark (SetHighWatermark h l) = Z.max (highWatermark l) (Z.min h (nextOffset l)) /\
  nextOffset (SetHighWatermark h l) = nextOffset l /\
  segments (SetHighWatermark h l) = segments l.
Proof.
  intros [Hs Hh]. unfold SetHighWatermark. cbn zeta.
  assert ((if nextOffset l <? h then nextOffset l else h) = Z.min h (nextOffset l)) as ->
    by (destruct (Z.ltb_spec (nextOffset l) h); lia).
  destruct (Z.ltb_spec (highWatermark l) (Z.min h (nextOffset l))); cbn;
    split_and!; try done; try lia. split; cbn; done || lia.
Qed.

Lemma log_step_inv l l' bss bs :
  log_rep l bss bs -> log_step l l' ->
  exists bss' bs', log_rep l' bss' bs' /\ evolves l (contents bss bs) l' (contents bss' bs').
Proof.
  intros Hrep [e b l1 [z [er|]] Hb Hroom Happ | e b l1 [z [er|]] Hb Happ | h | | ok | now mt age maxB].
  - destruct (Append_rejected _ _ _ _ _ _ _ _ Hrep Happ) as (_ & Hm & bss' & bs' & Hr & Hc).
    exists bss', bs'. rewrite Hc. split; [done|by apply evolves_same].
  - apply Append_success in Happ.
    destruct (Append_stores b l bss bs Hrep Hb Hroom) as (l2 & b' & bss' & bs' & H1 & _ & H2 & H3 & H4 & H5 & H6 & _).
    rewrite H1 in Happ. simplify_eq. exists bss', bs'. split; [done|].
    pose proof (po_pos _ Hb). pose proof (lr_hwm _ _ _ Hrep).
    rewrite H3. apply evolves_append; [done|done|lia|rewrite H5; destruct (holdHWM l); lia].
  - destruct (AppendReplica_rejected _ _ _ _ _ _ _ _ Hrep Happ) as (Hm & bss' & bs' & Hr & Hc).
    exists bss', bs'. rewrite Hc. split; [done|by apply evolves_same].
  - apply AppendReplica_success in Happ.
    destruct (decide (BaseOffset (fst (ParseHeader b)) = nextOffset l)) as [Heq|Hne].
    + destruct (Hb Heq) as [Hat Hroom].
      destruct (AppendReplica_stores b l bss bs Hrep Hat Hroom) as (l2 & bss' & bs' & H1 & H2 & H3 & H4 & H5 & H6).
      rewrite H1 in Happ. simplify_eq. exists bss', bs'. split; [done|].
      pose proof (ba_span _ _ Hat). rewrite H3. apply evolves_append; [done|done|lia|lia].
    + exists bss, bs. assert (l1 = l) as ->.
      { unfold AppendReplica in Happ. destruct (ParseHeader b) as [h [er|]]; [done|]. cbn in Hne.
        destruct (Z.ltb_spec (BaseOffset h) (nextOffset l)); [by simplify_eq|].
        destruct (Z.ltb_spec (nextOffset l) (BaseOffset h)); [done|lia]. }
      split; [done|by apply evolves_same].
  - destruct (SetHighWatermark_rep h l bss bs Hrep) as (Hr & Hh & Hn & Hs). exists bss, bs.
    split; [done|]. rewrite <- (app_nil_r (contents bss bs)) at 2. apply evolves_append; [done| |lia|lia].
    unfold EarliestOffset, firstSegment. by rewrite Hs.
  - exists bss, bs. split; [by destruct Hrep|].
    rewrite <- (app_nil_r (contents bss bs)) at 2. by apply evolves_append.
  - exists bss, bs. unfold Flush. destruct (negb (dirty l)); [|destruct (negb ok)]; cbn [fst];
      (split; [by destruct Hrep|by apply evolves_same]).
  - destruct (EnforceRetention_rep now mt age maxB l bss bs Hrep) as (Hr & _ & He & Hc).
    eexists _, bs. split; [exact Hr|].
    split; [|by apply (chained_le _ _ _ He)|by rewrite EnforceRetention_drop..].
    rewrite Hc, drop_before_skip by (by eapply chained_below).
    by erewrite drop_before_none; [|by eapply log_contents|].
Qed.

Lemma log_steps_inv l l' bss bs :
  log_rep l bss bs -> rtc log_step l l' ->
  exists bss' bs', log_rep l' bss' bs' /\ evolves l (contents bss bs) l' (contents bss' bs').
Proof.
  intros Hrep Hsteps. revert bss bs Hrep.
  induction Hsteps as [l|l l1 l2 Hstep _ IH]; intros bss bs Hrep.
  - exists bss, bs. split; [done|by apply evolves_same].
  - destruct (log_step_inv _ _ _ _ Hrep Hstep) as (bss1 & bs1 & Hr1 & Hev1).
    destruct (IH _ _ Hr1) as (bss2 & bs2 & Hr2 & Hev2).
    exists bss2, bs2. split; [done|by eapply evolves_trans].
Qed.

(** ** Lookup by time *)

Fixpoint ts_spec (ts : Z) (bs : list (list byte)) : option Z :=
  match bs with
  | [] => None
  | b :: bs => if ts <=? MaxTimestamp (headerOf b) then Some (BaseOffset (headerOf b)) else ts_spec ts bs
  end.

Lemma ts_spec_app ts a b :
  ts_spec ts (a ++ b) = match ts_spec ts a with Some o => Some o | None => ts_spec ts b end.
Proof. induction a as [|x a IH]; cbn [ts_spec app]; [done|].
  by destruct (ts <=? MaxTimestamp (headerOf x)). Qed.

Lemma ts_loop_spec s bs n ts b1 b2 m fuel :
  seg_rep s bs n -> bs = b1 ++ b2 -> chained m b2 n -> (length b2 < fuel)%nat ->
  ts_loop fuel ts s (zlen (concat b1)) =
  Ret (match ts_spec ts b2 with Some o => Some (o, true) | None => None end).
Proof.
  intros Hrep. revert b1 m fuel.
  induction b2 as [|b b2 IH]; intros b1 m fuel Hbs Hc Hfuel;
    (destruct fuel as [|fuel]; [lia|]); cbn [ts_loop ts_spec].
  - rewrite app_nil_r in Hbs. subst b1. rewrite (sr_size _ _ _ Hrep). by ltb_false.
  - destruct Hc as [[Hw _ _] Hc]. destruct (sr_data _ _ _ Hrep) as [junk Hjunk].
    pose proof (batch_wf_pos b Hw) as Hpos.
    pose proof (sr_size _ _ _ Hrep) as Hsize. pose proof (sr_small _ _ _ Hrep) as Hsm.
    pose proof (zlen_nonneg (concat b1)). pose proof (zlen_nonneg (concat b2)).
    rewrite Hbs, concat_app, concat_cons, !zlen_app in Hsize. ltb_true.
    rewrite Hbs, concat_app, concat_cons, <- !app_assoc in Hjunk. rewrite Hjunk.
    destruct (ReadAt_header (concat b1) b (concat b2 ++ junk) Hw) as (hdr & -> & ->).
    rewrite (bw_size _ Hw), (int32_id (zlen b)), (int32_id (_ + zlen b)) by solve_int.
    destruct (ts <=? MaxTimestamp (headerOf b)); [done|].
    assert (zlen (concat b1) + zlen b = zlen (concat (b1 ++ [b]))) as ->
      by (rewrite concat_app, zlen_app; cbn [concat]; by rewrite app_nil_r).
    eapply IH; [by rewrite <- app_assoc|exact Hc|simpl in Hfuel; lia].
Qed.

Lemma ts_loop_segment s bs n ts :
  seg_rep s bs n ->
  ts_loop (S (Z.to_nat (logSize s))) ts s 0 =
  Ret (match ts_spec ts bs with Some o => Some (o, true) | None => None end).
Proof.
  intros Hr. apply (ts_loop_spec s bs n ts [] bs (baseOffset s)); [done|done|apply Hr|].
  rewrite (sr_size _ _ _ Hr). pose proof (chained_length _ _ _ (sr_chain _ _ _ Hr)). unfold zlen. lia.
Qed.

Lemma ts_segments_spec ts o cs bss m a bs n :
  sealed o cs bss m -> seg_rep a bs n ->
  ts_segments ts (cs ++ [a]) =
  Ret (match ts_spec ts (contents bss bs) with Some o => (o, true) | None => (0, false) end).
Proof.
  unfold contents. revert o bss. induction cs as [|s cs IH]; intros o [|b bss]; cbn [sealed app]; try done.
  - intros _ Ha. cbn [ts_segments concat app]. rewrite (ts_loop_segment _ _ _ _ Ha).
    cbn [mbind go_bind]. by destruct (ts_spec ts bs).
  - intros (_ & _ & x & Hr & Hs) Ha. cbn [ts_segments concat]. rewrite (ts_loop_segment _ _ _ _ Hr).
    cbn [mbind go_bind]. rewrite <- app_assoc, ts_spec_app.
    destruct (ts_spec ts b); [done|]. by eapply IH.
Qed.

(** ** Retention by size *)

Definition sumSizes (segs : list segment) : Z := foldr (fun s acc => logSize s + acc) 0 segs.

Definition small_sizes (segs : list segment) : Prop :=
  Forall (fun s => 0 <= logSize s) segs /\ sumSizes segs < 2 ^ 63.

Lemma sumSizes_cons s segs : sumSizes (s :: segs) = logSize s + sumSizes segs.
Proof. done. Qed.

Lemma sumSizes_nonneg segs : Forall (fun s => 0 <= logSize s) segs -> 0 <= sumSizes segs.
Proof. induction 1; [done|]. rewrite sumSizes_cons. lia. Qed.

Lemma small_sizes_tail s segs : small_sizes (s :: segs) -> 0 <= logSize s /\ small_sizes segs.
Proof. intros [[? Hf]%Forall_cons Hb]. rewrite sumSizes_cons in Hb. split; [done|]. split; [done|lia]. Qed.

Lemma sizes_fold segs total :
  0 <= total -> Forall (fun s => 0 <= logSize s) segs -> total + sumSizes segs < 2 ^ 63 ->
  foldl (fun total s => int64 (total + logSize s)) total segs = total + sumSizes segs.
Proof.
  intros Ht Hf. revert total Ht. induction Hf as [|s segs Hs Hf IH]; intros total Ht Hb;
    cbn [foldl]; [cbn; lia|]. rewrite sumSizes_cons in *. pose proof (sumSizes_nonneg _ Hf).
  rewrite int64_id by solve_int. rewrite IH by lia. lia.
Qed.

Lemma sizes_sum segs : small_sizes segs -> sizes segs = sumSizes segs.
Proof. intros [Hf Hb]. unfold sizes. rewrite sizes_fold by (done || lia). lia. Qed.

(** What stops the retention loop, and what each deletion was due to. *)
Definition expired (now : Z) (modTime : Z -> option Z) (age : Z) (s : segment) : Prop :=
  0 < age /\ exists t, modTime (baseOffset s) = Some t /\ t < retentionCutoff now age.

(** Without a wrap, up to some 292 years, the cutoff is that many milliseconds ago. *)
Lemma retentionCutoff_exact now age : 0 <= age <= 9223372036854 -> retentionCutoff now age = now - age * 1000000.
Proof. intros H. unfold retentionCutoff. rewrite (int64_id (- age)) by solve_int. rewrite int64_id by solve_int. lia. Qed.

Lemma retain_loop_spec now mt age maxB segs :
  segs <> [] -> small_sizes segs ->
  let k := retain_loop now mt age maxB segs (sumSizes segs) in
  (forall i s, (i < k)%nat -> segs !! i = Some s ->
     expired now mt age s \/ (0 < maxB /\ maxB < sumSizes (drop i segs))) /\
  (length (drop k segs) = 1%nat \/
   exists s rest, drop k segs = s :: rest /\ ~ expired now mt age s /\
     (0 < maxB -> sumSizes (drop k segs) <= maxB)).
Proof.
  induction segs as [|s segs IH]; intros Hne Hsm; [done|]. cbn [retain_loop].
  destruct segs as [|s' segs']; [split; [intros i ? Hi; lia|by left]|].
  remember (s' :: segs') as segs eqn:Es.
  destruct (small_sizes_tail _ _ Hsm) as [Hs Hsm'].
  destruct (negb _ && negb _) eqn:Ec.
  - apply andb_prop in Ec as [He%negb_true_iff Ho%negb_true_iff]. split; [intros i ? Hi; lia|].
    right. exists s, segs. rewrite drop_0. split_and!; [done| |].
    + intros [Ha (t & Hmt & Ht)]. rewrite Hmt in He. apply andb_false_iff in He as [?%Z.ltb_ge|?%Z.ltb_ge]; lia.
    + intros Hm. apply andb_false_iff in Ho as [?%Z.ltb_ge|?%Z.ltb_ge]; [lia|done].
  - assert (int64 (sumSizes (s :: segs) - logSize s) = sumSizes segs) as ->.
    { rewrite sumSizes_cons. destruct Hsm' as [Hf Hb]. pose proof (sumSizes_nonneg _ Hf). rewrite int64_id by solve_int. lia. }
    destruct IH as [IH1 IH2]; [by rewrite Es|done|]. split; [|done].
    intros [|i] t Hi Ht; cbn [drop]; [|apply IH1; [lia|done]].
    cbn in Ht. simplify_eq. apply andb_false_iff in Ec as [Ec|Ec]; apply negb_false_iff, andb_prop in Ec as [E1 E2].
    + left. apply Z.ltb_lt in E1. split; [done|]. destruct (mt _) as [t0|]; [|done].
      apply Z.ltb_lt in E2. by exists t0.
    + right. by apply Z.ltb_lt in E1, E2.
Qed.

Lemma log_small l bss bs :
  log_rep l bss bs -> Z.of_nat (length (segments l)) < 2 ^ 32 -> small_sizes (segments l).
Proof.
  intros Hrep Hn.
  assert (Forall (fun s => 0 <= logSize s < 2 ^ 31) (segments l)) as Hf.
  { apply Forall_lookup. intros i s Hi.
    destruct (segments_lookup l bss bs Hrep i s Hi) as (sbs & x & _ & Hr & _).
    pose proof (sr_size _ _ _ Hr). pose proof (sr_small _ _ _ Hr). pose proof (zlen_nonneg (concat sbs)). lia. }
  split; [eapply Forall_impl; [exact Hf|cbn; lia]|].
  assert (sumSizes (segments l) <= Z.of_nat (length (segments l)) * 2 ^ 31) as Hle.
  { clear Hn. induction Hf as [|s segs Hs Hf IH]; [done|].
    rewrite sumSizes_cons. cbn [length]. lia. }
  eval_pow. lia.
Qed.

(** ** A concrete log: three appends with a segment limit of 150 bytes *)

Definition demoConfig : Config := mkConfig 150 64.
Definition demoBatch1 : list byte := mkBatch 0 2 3 1000 [].
Definition demoBatch2 : list byte := mkBatch 0 0 1 2000 (be_put 4 7).
Definition runAppend (b : list byte) (l : Log) : Log :=
  match Append io_ok b l with Ret (l', _) => l' | _ => l end.
Definition demoLog : Log :=
  runAppend demoBatch1 (runAppend demoBatch2 (runAppend demoBatch1 (freshLog demoConfig))).

Lemma producer_okb b :
  batch_wfb b && (RecordCount (headerOf b) =? LastOffsetDelta (headerOf b) + 1)
    && (1 <=? RecordCount (headerOf b)) = true -> producer_ok b.
Proof. rewrite !andb_true_iff, Z.eqb_eq, Z.leb_le. intros [[?%batch_wfb_ok ?] ?]. by split. Qed.

Lemma runAppend_rep b l :
  (exists bss bs, log_rep l bss bs) -> producer_ok b -> room l b (RecordCount (headerOf b)) ->
  exists bss bs, log_rep (runAppend b l) bss bs.
Proof.
  intros (bss & bs & Hrep) Hb Hroom.
  destruct (Append_stores b l bss bs Hrep Hb Hroom) as (l' & b' & bss' & bs' & Happ & _ & Hr & _).
  exists bss', bs'. unfold runAppend. by rewrite Happ.
Qed.

Lemma demo_rep : exists bss bs, log_rep demoLog bss bs.
Proof.
  unfold demoLog.
  apply runAppend_rep; [|by apply producer_okb; vm_compute|split; by vm_compute].
  apply runAppend_rep; [|by apply producer_okb; vm_compute|split; by vm_compute].
  apply runAppend_rep; [|by apply producer_okb; vm_compute|split; by vm_compute].
  exists [], []. apply freshLog_rep.
Qed.

(** ** Properties *)

(** C9: [Read] on every branch, up to the log end, wherever the high watermark is
    (the comments of log.go speak of the watermark).  At the log end it answers
    nothing; outside [earliest, end] it answers ErrOffsetOutOfRange; inside, through segment
    search, sparse index and header scan, it answers whole batches exactly as
    stored: a non-empty run of the log that starts at the batch holding the
    requested offset, and of more than [maxBytes] bytes only if it is that one
    batch. *)
Theorem Read_correct l bss bs off max :
  log_rep l bss bs -> in_int 32 max ->
  (off = nextOffset l -> Read off max l = Ret ([], None)) /\
  (off < EarliestOffset l \/ nextOffset l < off -> Read off max l = Ret ([], Some ErrOffsetOutOfRange)) /\
  (EarliestOffset l <= off < nextOffset l ->
   exists rs tl b rs', Read off max l = Ret (concat rs, None) /\
     drop_before off (contents bss bs) = rs ++ tl /\ rs = b :: rs' /\
     BaseOffset (headerOf b) <= off < next_of b /\ (rs' = [] \/ zlen (concat rs) <= max)).
Proof.
  intros Hrep Hmax. pose proof (log_contents _ _ _ Hrep) as Hle%chained_le.
  split_and!; [|unfold EarliestOffset in *|by apply Read_spec].
  - intros ->. unfold Read. by rewrite Z.eqb_refl.
  - intros Hout. unfold Read. rewrite (proj2 (Z.eqb_neq _ _)) by lia.
    destruct Hout; [ltb_false; ltb_true|ltb_true]; done.
Qed.

Lemma Read_correct_witness :
  (exists bs, Read 4 1000 demoLog = Ret (bs, None) /\ BaseOffset (headerOf bs) = 4) /\
  Read 9 1000 demoLog = Ret ([], Some ErrOffsetOutOfRange).
Proof.
  destruct demo_rep as (bss & bs & Hrep).
  destruct (Read_correct demoLog bss bs 9 1000 Hrep ltac:(solve_int)) as (_ & H & _).
  split; [|apply H; right; reflexivity].
  eexists. split; [vm_compute; reflexivity|vm_compute; reflexivity].
Defined.

(** a successful append of a conforming batch returns the log end offset,
    stores exactly the patched batch behind the content, advances the log end by
    the record count, commits it at once unless the log is replicated, and keeps
    the active segment within the configured size (or the one batch). *)
Theorem Append_correct b l bss bs :
  log_rep l bss bs -> producer_ok b -> room l b (RecordCount (headerOf b)) ->
  exists l' b' bss' bs', Append io_ok b l = Ret (l', (nextOffset l, None)) /\
    patched b (nextOffset l) b' /\ log_rep l' bss' bs' /\
    contents bss' bs' = contents bss bs ++ [b'] /\
    nextOffset l' = nextOffset l + RecordCount (headerOf b) /\
    highWatermark l' = (if holdHWM l then highWatermark l else nextOffset l') /\
    EarliestOffset l' = EarliestOffset l /\
    logSize (active l') <= Z.max (SegmentBytes (cfg l)) (zlen b).
Proof.
  intros Hrep Hb Hroom.
  destruct (Append_stores b l bss bs Hrep Hb Hroom) as (l' & b' & bss' & bs' & H1 & [_ H2] & H3).
  by exists l', b', bss', bs'.
Qed.

Lemma Append_correct_witness :
  exists l' b' bss' bs', Append io_ok demoBatch1 (freshLog demoConfig) = Ret (l', (0, None)) /\
    contents bss' bs' = [b'] /\ log_rep l' bss' bs' /\ nextOffset l' = 3.
Proof.
  destruct (Append_correct demoBatch1 (freshLog demoConfig) [] [] (freshLog_rep _))
    as (l' & b' & bss' & bs' & H1 & _ & H2 & H3 & H4 & _).
  - apply producer_okb. vm_compute. reflexivity.
  - split; vm_compute; reflexivity.
  - exists l', b', bss', bs'. split_and!; [exact H1|exact H3|exact H2|rewrite H4; vm_compute; reflexivity].
Defined.

(** C22: appends are atomic under I/O faults and malformed input.  Whatever bytes
    are appended and whichever fsync, file creation, index write or log write
    fails (after any number of bytes), an append that reports an error returns
    offset 0 and leaves the stored batches, the log end and the high watermark
    unchanged. *)
Theorem Append_atomic e b l bss bs l' z er :
  log_rep l bss bs -> Append e b l = Ret (l', (z, Some er)) ->
  z = 0 /\ same_meta l l' /\
  exists bss' bs', log_rep l' bss' bs' /\ contents bss' bs' = contents bss bs.
Proof. apply Append_rejected. Qed.

Lemma Append_atomic_witness :
  exists l', Append (mkIO true true WOk (WErr 17)) demoBatch2 demoLog = Ret (l', (0, Some ErrIO)) /\
             same_meta demoLog l'.
Proof.
  destruct demo_rep as (bss & bs & Hrep).
  destruct (Append (mkIO true true WOk (WErr 17)) demoBatch2 demoLog) as [[l' [z [er|]]]| |] eqn:E;
    [|vm_compute in E; discriminate..].
  destruct (Append_atomic _ _ _ _ _ _ _ _ Hrep E) as (-> & Hm & _).
  exists l'. split; [|exact Hm]. vm_compute in E. injection E as _ <-. reflexivity.
Defined.

(** C10: the log is append-only.  In every log reachable from a fresh one by
    appends, replica appends, watermark moves, flushes and retention passes, in
    any order and with any I/O faults, the segments hold a gap-free chain of
    batches from the earliest to the end offset and the high watermark is at
    most the end; and in any later log the batches it held that are not below
    the new earliest offset are still there, byte for byte and in order, with
    the later ones behind them, and no offset has moved back. *)
Theorem log_append_only c l l' :
  rtc log_step (freshLog c) l -> rtc log_step l l' ->
  exists bss bs bss' bs', log_rep l bss bs /\ log_rep l' bss' bs' /\
    chained (EarliestOffset l) (contents bss bs) (nextOffset l) /\
    evolves l (contents bss bs) l' (contents bss' bs').
Proof.
  intros H1 H2. destruct (log_steps_inv _ _ _ _ (freshLog_rep c) H1) as (bss & bs & Hr & _).
  destruct (log_steps_inv _ _ _ _ Hr H2) as (bss' & bs' & Hr' & Hev).
  exists bss, bs, bss', bs'. split_and!; try done. by apply log_contents.
Qed.

Lemma log_append_only_witness :
  exists bss' bs', log_rep (EnforceRetention 0 (fun _ => None) 0 70 demoLog) bss' bs' /\
    EarliestOffset (EnforceRetention 0 (fun _ => None) 0 70 demoLog) = 4.
Proof.
  assert (forall b l, producer_ok b -> room l b (RecordCount (headerOf b)) ->
            (exists r, Append io_ok b l = Ret (runAppend b l, r)) -> log_step l (runAppend b l)) as Hs.
  { intros b l Hb Hr [r H]. exact (step_append l io_ok b _ r Hb Hr H). }
  destruct (log_append_only demoConfig demoLog (EnforceRetention 0 (fun _ => None) 0 70 demoLog))
    as (bss & bs & bss' & bs' & _ & H & _).
  - unfold demoLog. do 3 (eapply rtc_r; [|apply Hs;
      [by apply producer_okb; vm_compute|split; by vm_compute|eexists; vm_compute; reflexivity]]).
    constructor.
  - apply rtc_once, step_retain.
  - exists bss', bs'. split; [exact H|]. vm_compute. reflexivity.
Defined.

(** the follower's write path on every branch.  A batch below the log end is
    skipped, one above it is refused as a gap, and in both cases the log is
    untouched; the batch that continues the log is stored byte for byte, moves
    the end behind its last offset, and does not commit anything. *)
Theorem AppendReplica_correct b l bss bs :
  log_rep l bss bs -> batch_wf b ->
  let o := BaseOffset (headerOf b) in
  (o < nextOffset l -> forall e, AppendReplica e b l = (l, (nextOffset l, None))) /\
  (nextOffset l < o -> forall e, AppendReplica e b l = (l, (nextOffset l, Some ErrReplicaGap))) /\
  (o = nextOffset l -> o < next_of b < 2 ^ 63 -> room l b (next_of b - nextOffset l) ->
   exists l' bss' bs', AppendReplica io_ok b l = (l', (next_of b, None)) /\ log_rep l' bss' bs' /\
     contents bss' bs' = contents bss bs ++ [b] /\ nextOffset l' = next_of b /\
     highWatermark l' = highWatermark l /\ EarliestOffset l' = EarliestOffset l).
Proof.
  intros Hrep Hw. cbn zeta. split_and!.
  - intros Ho e. unfold AppendReplica. rewrite batch_wf_header by done. by ltb_true.
  - intros Ho e. unfold AppendReplica. rewrite batch_wf_header by done. ltb_false. by ltb_true.
  - intros Ho Hs Hr. apply AppendReplica_stores; [done| |done]. split; [done|done|lia].
Qed.

Lemma AppendReplica_correct_witness :
  AppendReplica io_ok demoBatch1 demoLog = (demoLog, (nextOffset demoLog, None)).
Proof.
  destruct demo_rep as (bss & bs & Hrep).
  destruct (AppendReplica_correct demoBatch1 demoLog bss bs Hrep) as (H & _).
  - apply (po_wf _ (producer_okb demoBatch1 ltac:(vm_compute; reflexivity))).
  - apply H. vm_compute. reflexivity.
Defined.

(** what was appended is what is read.  After a produced batch is appended,
    a read at the offset the append returned answers exactly that batch, with
    only its base offset, leader epoch and checksum rewritten, whatever the byte limit. *)
Theorem Append_then_Read b l bss bs max :
  log_rep l bss bs -> producer_ok b -> room l b (RecordCount (headerOf b)) -> in_int 32 max ->
  exists l' o b', Append io_ok b l = Ret (l', (o, None)) /\ patched b o b' /\
    Read o max l' = Ret (b', None).
Proof.
  intros Hrep Hb Hroom Hmax.
  destruct (Append_stores b l bss bs Hrep Hb Hroom) as (l' & b' & bss' & bs' & H1 & [_ H2] & H3 & H4 & H5 & H6 & H7 & _).
  exists l', (nextOffset l), b'. split_and!; [done|done|].
  pose proof (po_pos _ Hb). pose proof (log_contents _ _ _ Hrep) as Hc. pose proof (chained_le _ _ _ Hc).
  eapply (Read_last l' bss' bs'); [done|exact H4|done|by eapply chained_below|lia].
Qed.

Lemma Append_then_Read_witness :
  exists l' b', Append io_ok demoBatch2 demoLog = Ret (l', (7, None)) /\ Read 7 1 l' = Ret (b', None) /\
    patched demoBatch2 7 b'.
Proof.
  destruct demo_rep as (bss & bs & Hrep).
  destruct (Append_then_Read demoBatch2 demoLog bss bs 1 Hrep) as (l' & o & b' & H1 & H2 & H3).
  - apply producer_okb. vm_compute. reflexivity.
  - split; vm_compute; reflexivity.
  - solve_int.
  - assert (o = 7) as ->; [|by exists l', b'].
    vm_compute in H1. injection H1 as _ <-. reflexivity.
Defined.

(** a lookup by time answers the base offset of the first batch of the log,
    in offset order, whose maximum timestamp is at or after the given one, and
    nothing when there is none; it terminates. *)
Theorem OffsetForTimestamp_correct ts l bss bs :
  log_rep l bss bs ->
  OffsetForTimestamp ts l =
  Ret (match ts_spec ts (contents bss bs) with Some o => (o, true) | None => (0, false) end).
Proof.
  intros [(cs & a & Hs & Hc & Ha) _]. unfold OffsetForTimestamp. rewrite Hs. by eapply ts_segments_spec.
Qed.

Lemma OffsetForTimestamp_correct_witness :
  exists o, OffsetForTimestamp 1500 demoLog = Ret (o, true) /\ o = 3.
Proof.
  destruct demo_rep as (bss & bs & Hrep). pose proof (OffsetForTimestamp_correct 1500 _ _ _ Hrep) as H.
  destruct (ts_spec 1500 (contents bss bs)) as [o|].
  - exists o. split; [exact H|]. vm_compute in H. congruence.
  - vm_compute in H. congruence.
Defined.

(** retention.  A pass deletes a run of the oldest sealed segments, each for
    a reason (expired, or the log from it on exceeds the size limit), and stops
    only when one segment is left or when the oldest one left is not expired and
    the rest fits the limit.  The active segment, the log end and the high
    watermark are untouched, and the earliest offset moves to the first kept batch. *)
Theorem EnforceRetention_correct now mt age maxB l bss bs :
  log_rep l bss bs -> Z.of_nat (length (segments l)) < 2 ^ 32 ->
  let l' := EnforceRetention now mt age maxB l in
  exists k, segments l' = drop k (segments l) /\ (k < length (segments l))%nat /\
    nextOffset l' = nextOffset l /\ highWatermark l' = highWatermark l /\ active l' = active l /\
    log_rep l' (drop k bss) bs /\
    (forall i s, (i < k)%nat -> segments l !! i = Some s ->
       expired now mt age s \/ (0 < maxB /\ maxB < sumSizes (drop i (segments l)))) /\
    (length (segments l') = 1%nat \/
     (~ expired now mt age (firstSegment l') /\ (0 < maxB -> sumSizes (segments l') <= maxB))).
Proof.
  intros Hrep Hn. cbn zeta. exists (retained now mt age maxB l).
  pose proof (retained_lt now mt age maxB _ _ _ Hrep) as Hlt.
  destruct (EnforceRetention_rep now mt age maxB l bss bs Hrep) as (Hr & Ha & _ & _).
  pose proof (log_small _ _ _ Hrep Hn) as Hsm.
  destruct (retain_loop_spec now mt age maxB (segments l) (log_nonempty _ _ _ Hrep) Hsm) as [Hd Hst].
  rewrite <- (sizes_sum _ Hsm) in Hd, Hst.
  change (retain_loop _ _ _ _ _ _) with (retained now mt age maxB l) in Hd, Hst.
  rewrite EnforceRetention_drop in *. split_and!; try done.
  unfold firstSegment. cbn [segments]. destruct Hst as [Hst|(s & rest & Hst & He & Hm)]; [by left|right].
  split; [by rewrite Hst|done].
Qed.

Lemma EnforceRetention_correct_witness :
  exists k, segments (EnforceRetention 0 (fun _ => None) 0 70 demoLog) = drop k (segments demoLog) /\ k = 1%nat.
Proof.
  destruct demo_rep as (bss & bs & Hrep).
  destruct (EnforceRetention_correct 0 (fun _ => None) 0 70 demoLog bss bs Hrep) as (k & H & _);
    [vm_compute; reflexivity|].
  exists k. split; [exact H|]. apply (f_equal length) in H. rewrite length_drop in H.
  destruct k as [|[|k]]; [vm_compute in H; discriminate H|reflexivity|vm_compute in H; discriminate H].
Defined.

(** the high watermark.  Setting it moves it forward only, and never past the
    log end: the new value is the larger of the old one and the clamped target. *)
Theorem SetHighWatermark_correct h l bss bs :
  log_rep l bss bs ->
  let l' := SetHighWatermark h l in
  log_rep l' bss bs /\ HighWatermark l' = Z.max (HighWatermark l) (Z.min h (nextOffset l)) /\
  nextOffset l' = nextOffset l /\ segments l' = segments l.
Proof. apply SetHighWatermark_rep. Qed.

Lemma SetHighWatermark_correct_witness :
  HighWatermark (SetHighWatermark 99 (HoldHighWatermark demoLog)) = 7.
Proof.
  destruct demo_rep as (bss & bs & [Hs Hh]).
  assert (log_rep (HoldHighWatermark demoLog) bss bs) as Hrep by (split; [exact Hs|exact Hh]).
  destruct (SetHighWatermark_correct 99 _ _ _ Hrep) as (_ & -> & _). vm_compute. reflexivity.
Defined.
