(* ===== verification/Recovery.v ===== *)
(** * Opening a partition log: recovery of the segments on disk

    internal/storage/log.go: [Open], [listSegmentBases], [recoverActive] and
    [rewriteIndex], with the file names of segment.go.  A directory is a map
    from file names to file contents.  The crash model of the main theorem is
    the one the code is written for: the sealed segments are complete (they are
    flushed by [roll]), the active .log file ends in any strict prefix of a
    batch, and its .index file is arbitrary or missing. *)

From stdpp Require Import sorting.
From S2P Require Import Prelude Record Index Segment Strconv Log.

Abbreviation dir := (gmap string (list byte)).

Definition segmentName (base : Z) : string := pad20 base.
Definition logPath (base : Z) : string := (segmentName base +:+ ".log")%string.
Definition indexPath (base : Z) : string := (segmentName base +:+ ".index")%string.

(** What one directory entry contributes to the list of bases. *)
Definition entryBase (name : string) : option Z :=
  if HasSuffix name ".log" then ParseInt 64 (TrimSuffix name ".log") else None.

(** [listSegmentBases]: the sort makes the order of os.ReadDir irrelevant. *)
Definition listSegmentBases (d : dir) : list Z :=
  merge_sort Z.le (omap entryBase (map_to_list d).*1).

(** The outcomes of the file calls of [Open]. *)
Record openIO := mkOpenIO {
  o_mkdir : bool; o_readdir : bool; o_create : bool; o_open : Z -> bool;
  o_truncate : bool; o_idxTruncate : bool; o_seek : bool; o_idxWrite : wres }.
Definition open_ok : openIO := mkOpenIO true true true (fun _ => true) true true true WOk.

Definition openSegmentAt (e : openIO) (d : dir) (base interval : Z) : segment + error :=
  match d !! logPath base with
  | Some log => if o_open e base then inl (openSegment base interval log (default [] (d !! indexPath base)))
                else inr ErrIO
  | None => inr ErrIO
  end.

Fixpoint openAll (e : openIO) (d : dir) (interval : Z) (bases : list Z) : list segment + error :=
  match bases with
  | [] => inl []
  | b :: bases =>
    match openSegmentAt e d b interval with
    | inr er => inr er
    | inl s => match openAll e d interval bases with inr er => inr er | inl ss => inl (s :: ss) end
    end
  end.

(** The scan of [recoverActive]: the position reached, the next offset, the
    rebuilt index and the bytes since its last entry; [inr] is a read error. *)
Record scan := mkScan { sc_pos : Z; sc_next : Z; sc_index : list indexEntry; sc_since : Z }.

Fixpoint recover_loop (fuel : nat) (s : segment) (st : scan) : go (scan + error) :=
  match fuel with
  | O => Spin
  | S fuel =>
    if sc_pos st <? logSize s then
      let remaining := int32 (logSize s - sc_pos st) in
      if remaining <? Z.of_nat HeaderSize then Ret (inl st)
      else
        match ReadAt (logFile s) (Z.of_nat HeaderSize) (sc_pos st) with
        | None => Ret (inr ErrIO)
        | Some hdr =>
          match ParseHeader hdr with
          | (_, Some _) => Ret (inl st)
          | (h, None) =>
            let total := int32 (TotalSize h) in
            if logSize s <? int32 (sc_pos st + total) then Ret (inl st)
            else
              let due := match sc_index st with [] => true | _ => indexInterval s <=? sc_since st end in
              let index := if due
                then sc_index st ++ [mkEntry (int32 (BaseOffset h - baseOffset s)) (sc_pos st)]
                else sc_index st in
              let since := if due then 0 else sc_since st in
              recover_loop fuel s
                (mkScan (int32 (sc_pos st + total)) (int64 (LastOffset h + 1)) index (int32 (since + total)))
          end
        end
    else Ret (inl st)
  end.

(** [rewriteIndex]: truncate, seek to the start, write all entries at once. *)
Definition rewriteIndex (e : openIO) (s : segment) : segment * option error :=
  if negb (o_idxTruncate e) then (s, Some ErrIO)
  else
    let with_idx f p := mkSegment (baseOffset s) (logFile s) f p (logSize s) (index s) (bytesSinceIdx s) (indexInterval s) in
    if negb (o_seek e) then (with_idx [] (idxPos s), Some ErrIO)
    else
      let buf := concat (encodeIndexEntry <$> index s) in
      match o_idxWrite e with
      | WErr n => (with_idx (take n buf) (zlen (take n buf)), Some ErrIO)
      | WOk => (with_idx (WriteAt [] 0 buf) (zlen buf), None)
      end.

Definition recoverActive (e : openIO) (s : segment) : go (segment * (Z * option error)) :=
  r ← recover_loop (S (Z.to_nat (logSize s))) s (mkScan 0 0 [] 0);
  match r with
  | inr er => Ret (s, (0, Some er))
  | inl st =>
    let s1 := mkSegment (baseOffset s) (logFile s) (idxFile s) (idxPos s) (logSize s)
                (sc_index st) (sc_since st) (indexInterval s) in
    let cut := negb (sc_pos st =? logSize s) in
    if cut && negb (o_truncate e) then Ret (s1, (0, Some ErrIO))
    else
      let s2 := if cut
        then mkSegment (baseOffset s) (take (Z.to_nat (sc_pos st)) (logFile s)) (idxFile s) (idxPos s)
               (sc_pos st) (sc_index st) (sc_since st) (indexInterval s)
        else s1 in
      match rewriteIndex e s2 with
      | (s3, Some er) => Ret (s3, (0, Some er))
      | (s3, None) => Ret (s3, (if sc_next st =? 0 then baseOffset s else sc_next st, None))
      end
  end.

Definition Open (e : openIO) (d : dir) (c : Config) : go (Log + error) :=
  if negb (o_mkdir e) then Ret (inr ErrIO)
  else if negb (o_readdir e) then Ret (inr ErrIO)
  else
    match listSegmentBases d with
    | [] =>
      if negb (o_create e) then Ret (inr ErrIO)
      else Ret (inl (mkLog c [createSegment 0 (IndexIntervalBytes c)] 0 0 false false))
    | bases =>
      match openAll e d (IndexIntervalBytes c) bases with
      | inr er => Ret (inr er)
      | inl segs =>
        let l := mkLog c segs 0 0 false false in
        r ← recoverActive e (active l);
        match r with
        | (_, (_, Some er)) => Ret (inr er)
        | (s', (next, None)) =>
          let l' := setActive l s' in
          Ret (inl (mkLog c (segments l') next next false false))
        end
      end
    end.

(** What a failing [createSegment] leaves of a roll at [base]: when the .log file
    was created and the .index file was not, the empty .log file stays. *)
Definition rollLeft (logCreated : bool) (base : Z) (d : dir) : dir :=
  if logCreated then <[logPath base := []]> d else d.

(** ** Listing the segments *)

Lemma entryBase_logPath base : in_int 64 base -> entryBase (logPath base) = Some base.
Proof.
  intros Hb. unfold entryBase, logPath. rewrite HasSuffix_app, TrimSuffix_app. by apply ParseInt_pad20.
Qed.

Lemma omap_NoDup {A B} (f : A -> option B) (l : list A) :
  NoDup l -> (forall x y b, x ∈ l -> y ∈ l -> f x = Some b -> f y = Some b -> x = y) -> NoDup (omap f l).
Proof.
  induction 1 as [|x l Hx _ IH]; intros Hinj; [constructor|]. cbn.
  assert (NoDup (omap f l)) as Hl by (apply IH; intros; eapply Hinj; eauto; by right).
  destruct (f x) as [b|] eqn:Ex; [|done]. constructor; [|done].
  intros (y & Hy & Ey)%list_elem_of_omap. apply Hx.
  rewrite (Hinj x y b); [done|by left|by right|done|done].
Qed.

(** Sorting the numbers the names of a directory carry lists exactly [bases] in
    order, when the names that parse are theirs. *)
Lemma listed_exact (parse : string -> option Z) (path : Z -> string) (d : dir) bases :
  StronglySorted Z.lt bases ->
  (forall name b, is_Some (d !! name) -> parse name = Some b -> b ∈ bases /\ name = path b) ->
  (forall b, b ∈ bases -> is_Some (d !! path b) /\ parse (path b) = Some b) ->
  merge_sort Z.le (omap parse (map_to_list d).*1) = bases.
Proof.
  intros Hs Honly Hall.
  assert (forall name, name ∈ (map_to_list d).*1 <-> is_Some (d !! name)) as Hdom.
  { intros name. rewrite list_elem_of_fmap. split.
    - intros ([k v] & -> & H%elem_of_map_to_list). by exists v.
    - intros [v Hv]. exists (name, v). split; [done|]. by apply elem_of_map_to_list. }
  apply (StronglySorted_unique Z.le).
  - apply StronglySorted_merge_sort; [apply _|intros ??; lia].
  - clear -Hs. induction Hs as [|b bs Hb Hs IH]; constructor; [done|].
    eapply Forall_impl; [exact IH|]. cbn. lia.
  - rewrite merge_sort_Permutation. apply NoDup_Permutation.
    + apply omap_NoDup; [apply NoDup_fst_map_to_list|].
      intros x y b Hx%Hdom Hy%Hdom Ex Ey.
      destruct (Honly x b Hx Ex) as [_ ->], (Honly y b Hy Ey) as [_ ->]. done.
    + clear -Hs. induction Hs as [|b bs Hb Hs IH]; constructor; [|done].
      intros Hin. rewrite Forall_forall in IH. specialize (IH b Hin). lia.
    + intros b. rewrite list_elem_of_omap. split.
      * intros (name & Hn%Hdom & Eb). by eapply Honly.
      * intros Hb. exists (path b). rewrite Hdom. by apply Hall.
Qed.

(** A directory whose .log files are exactly those of [bases] lists them in order. *)
Lemma listSegmentBases_exact (d : dir) bases :
  StronglySorted Z.lt bases -> Forall (in_int 64) bases ->
  (forall name b, is_Some (d !! name) -> entryBase name = Some b -> b ∈ bases /\ name = logPath b) ->
  (forall b, b ∈ bases -> is_Some (d !! logPath b)) ->
  listSegmentBases d = bases.
Proof.
  intros Hs Hr Honly Hall. rewrite Forall_forall in Hr.
  apply (listed_exact entryBase logPath); [done|done|]. intros b Hb. split; [by apply Hall|by apply entryBase_logPath, Hr].
Qed.

Lemma sealed_bases o cs bss m :
  sealed o cs bss m ->
  StronglySorted Z.lt (map baseOffset cs ++ [m]) /\ Forall (fun b => o <= b) (map baseOffset cs ++ [m]).
Proof.
  revert o bss. induction cs as [|s cs IH]; intros o [|bs bss]; cbn [sealed map app]; try done.
  - intros ->. split; repeat constructor. lia.
  - intros (<- & Hne & x & Hr & Hs). destruct (IH _ _ Hs) as [H1 H2].
    assert (baseOffset s < x) as Hlt.
    { pose proof (sr_chain _ _ _ Hr) as Hc. destruct bs as [|b bs]; [done|].
      cbn [chained] in Hc. destruct Hc as [[_ _ ?] ?%chained_le]. lia. }
    split; constructor; try done; try lia; (eapply Forall_impl; [exact H2|]; cbn; lia).
Qed.

(** ** Scanning the active segment *)

(** The bytes a crash can leave behind the last complete batch: none, or a strict
    prefix of one that fitted the segment. *)
Definition crash_tail (pos : Z) (t : list byte) : Prop :=
  (t = [] /\ pos < 2 ^ 31) \/
  exists b rest, batch_wf b /\ b = t ++ rest /\ rest <> [] /\ pos + zlen b < 2 ^ 31.

Section Scan.
Context (s : segment) (bs : list (list byte)) (t : list byte) (n : Z).
Hypothesis Hfile : logFile s = concat bs ++ t.
Hypothesis Hsize : logSize s = zlen (logFile s).
Hypothesis Htail : crash_tail (zlen (concat bs)) t.
Hypothesis Hchain : chained (baseOffset s) bs n.
Hypothesis Hspan : n - baseOffset s < 2 ^ 31.
Hypothesis Hbase : 0 <= baseOffset s.
Hypothesis Hbound : n < 2 ^ 63.

(** What the scan has established after the batches [b1]. *)
Record scanned (b1 : list (list byte)) (m : Z) (st : scan) : Prop := {
  sn_pos : sc_pos st = zlen (concat b1);
  sn_next : sc_next st = match b1 with [] => 0 | _ => m end;
  sn_index : Forall (entry_at (baseOffset s) bs) (sc_index st);
  sn_sorted : index_sorted (sc_index st);
  sn_below : Forall (fun e => relOffset e <= m - baseOffset s) (sc_index st) }.

Lemma size_bound : zlen (concat bs) <= logSize s < 2 ^ 31.
Proof.
  rewrite Hsize, Hfile, zlen_app. destruct Htail as [[-> Hf]|(b & rest & _ & -> & _ & Hf)].
  - rewrite zlen_nil. lia.
  - rewrite zlen_app in Hf. pose proof (zlen_nonneg t). pose proof (zlen_nonneg rest). lia.
Qed.

(** At the tail the scan stops. *)
Lemma recover_tail fuel st : scanned bs n st -> recover_loop (S fuel) s st = Ret (inl st).
Proof.
  intros [Hp _ _ _ _]. cbn [recover_loop]. rewrite Hp. pose proof size_bound as Hb.
  destruct (Z.ltb_spec (zlen (concat bs)) (logSize s)); [|done].
  pose proof (zlen_nonneg (concat bs)).
  rewrite int32_id by solve_int.
  assert (logSize s - zlen (concat bs) = zlen t) as -> by (rewrite Hsize, Hfile, zlen_app; lia).
  destruct (Z.ltb_spec (zlen t) (Z.of_nat HeaderSize)) as [|Hlong]; [done|].
  destruct Htail as [[Ht _]|(b & rest & Hw & Hb' & Hr & Hfit)];
    [rewrite Hsize, Hfile, Ht, app_nil_r in *; lia|].
  assert (ReadAt (logFile s) (Z.of_nat HeaderSize) (zlen (concat bs)) = Some (take HeaderSize t)) as ->.
  { unfold ReadAt. leb_true. rewrite Hfile, zlen_app. leb_true. cbn [andb]. unfold sub. by rewrite drop_zlen, Nat2Z.id. }
  assert (HeaderSize <= length t)%nat as Hlt by (unfold zlen in Hlong; lia).
  assert (headerOf b = headerOf (take HeaderSize t)) as Hh.
  { rewrite Hb', <- (take_drop HeaderSize t) at 1. rewrite <- app_assoc.
    apply headerOf_app. rewrite length_take. lia. }
  rewrite parse_long; [|rewrite length_take; lia|rewrite <- Hh; apply Hw].
  rewrite <- Hh, (bw_size _ Hw). pose proof (zlen_nonneg b).
  rewrite (int32_id (zlen b)), int32_id by solve_int.
  rewrite Hb', zlen_app. pose proof (zlen_pos rest Hr).
  assert (logSize s = zlen (concat bs) + zlen t) as -> by (rewrite Hsize, Hfile, zlen_app; lia).
  by ltb_true.
Qed.

(** The rebuilt index entry of the batch at [b1]. *)
Lemma scanned_entry b1 b b2 m ix :
  bs = b1 ++ b :: b2 -> chained (baseOffset s) b1 m -> batch_at m b ->
  Forall (entry_at (baseOffset s) bs) ix -> index_sorted ix ->
  Forall (fun e => relOffset e <= m - baseOffset s) ix ->
  let ix' := ix ++ [mkEntry (m - baseOffset s) (zlen (concat b1))] in
  Forall (entry_at (baseOffset s) bs) ix' /\ index_sorted ix' /\
  Forall (fun e => relOffset e <= m - baseOffset s) ix'.
Proof.
  intros Hbs Hc1 Hat H1 H2 H3. cbn zeta. split_and!.
  - apply Forall_app. split; [done|]. constructor; [|done]. by exists b1, (b :: b2), m.
  - by apply index_sorted_snoc.
  - apply Forall_app. split; [done|]. by constructor.
Qed.

Lemma recover_loop_spec fuel b1 b2 m st :
  bs = b1 ++ b2 -> chained (baseOffset s) b1 m -> chained m b2 n -> scanned b1 m st ->
  (length b2 < fuel)%nat ->
  exists st', recover_loop fuel s st = Ret (inl st') /\ scanned bs n st'.
Proof.
  revert b1 m st fuel. induction b2 as [|b b2 IH]; intros b1 m st fuel Hbs Hc1 Hc2 Hst Hfuel;
    (destruct fuel as [|fuel]; [lia|]).
  - rewrite app_nil_r in Hbs. subst b1. cbn in Hc2. subst m. exists st. split; [by apply recover_tail|done].
  - cbn [chained] in Hc2. destruct Hc2 as [Hat Hc2]. pose proof Hat as [Hw Hb Hs].
    pose proof (batch_wf_pos b Hw) as Hpos. pose proof size_bound as Hsb.
    pose proof (zlen_nonneg (concat b1)). pose proof (zlen_nonneg (concat b2)).
    pose proof (chained_le _ _ _ Hc1). pose proof (chained_le _ _ _ Hc2).
    rewrite Hbs, concat_app, concat_cons, !zlen_app in Hsb.
    destruct Hst as [Hp Hn Hix Hso Hbe]. cbn [recover_loop]. rewrite Hp. ltb_true.
    rewrite int32_id by solve_int. change (Z.of_nat HeaderSize) with 61. ltb_false.
    assert (logFile s = concat b1 ++ b ++ concat b2 ++ t) as Hsplit
      by (by rewrite Hfile, Hbs, concat_app, concat_cons, <- !app_assoc).
    destruct (ReadAt_header (concat b1) b (concat b2 ++ t) Hw) as (hdr & Hrd & Hph).
    change (Z.of_nat HeaderSize) with 61 in Hrd. rewrite Hsplit, Hrd, Hph.
    rewrite (bw_size _ Hw), (int32_id (zlen b)), (int32_id (_ + zlen b)) by solve_int. ltb_false.
    rewrite Hb, (int32_id (m - _)) by solve_int.
    assert (int64 (LastOffset (headerOf b) + 1) = next_of b) as ->
      by (unfold next_of in *; apply int64_id; solve_int).
    assert (zlen (concat b1) + zlen b = zlen (concat (b1 ++ [b]))) as ->
      by (rewrite concat_app, zlen_app; cbn [concat]; by rewrite app_nil_r).
    destruct (scanned_entry b1 b b2 m _ Hbs Hc1 Hat Hix Hso Hbe) as (G1 & G2 & G3).
    apply (IH (b1 ++ [b]) (next_of b)); [by rewrite <- app_assoc|by apply (chained_snoc _ _ _ m)|done| |simpl in Hfuel; lia].
    split; cbn; [done|by destruct b1| | |]; destruct (match sc_index st with [] => true | _ => _ end); try done;
      (eapply Forall_impl; [eassumption|]; cbn; lia).
Qed.

Lemma recover_scan :
  exists st, recover_loop (S (Z.to_nat (logSize s))) s (mkScan 0 0 [] 0) = Ret (inl st) /\ scanned bs n st.
Proof.
  apply (recover_loop_spec _ [] bs (baseOffset s)); [done|done|done| |].
  - by split.
  - pose proof size_bound. pose proof (chained_length _ _ _ Hchain). unfold zlen in *. lia.
Qed.

(** Recovery truncates the tail, rebuilds both indexes and finds the end. *)
Lemma recoverActive_spec :
  exists s', recoverActive open_ok s = Ret (s', (n, None)) /\ seg_rep s' bs n /\
    baseOffset s' = baseOffset s /\ idx_synced s' /\ logFile s' = concat bs.
Proof.
  destruct recover_scan as (st & Hst & [Hp Hn Hix Hso Hbe]).
  pose proof size_bound as Hb. pose proof (chained_le _ _ _ Hchain) as Hle.
  eexists. unfold recoverActive. rewrite Hst. cbn [mbind go_bind open_ok o_truncate o_idxTruncate o_seek o_idxWrite negb].
  rewrite andb_false_r. unfold rewriteIndex. cbn [o_truncate o_idxTruncate o_seek o_idxWrite open_ok negb].
  assert ((if sc_next st =? 0 then baseOffset s else sc_next st) = n) as ->.
  { rewrite Hn. destruct bs as [|b bs']; [done|]. cbn [chained] in Hchain.
    destruct Hchain as [[_ _ Hsp] Hc%chained_le]. rewrite (proj2 (Z.eqb_neq _ _)) by lia. done. }
  split; [reflexivity|].
  set (s2 := if negb (sc_pos st =? logSize s) then _ else _).
  assert (logFile s2 = concat bs /\ logSize s2 = zlen (concat bs) /\ baseOffset s2 = baseOffset s /\
          index s2 = sc_index st) as (F1 & F2 & F3 & F4).
  { unfold s2. rewrite Hp. destruct (Z.eqb_spec (zlen (concat bs)) (logSize s)) as [Heq|]; cbn.
    - split_and!; try done. rewrite Hfile in *. rewrite Hsize, zlen_app in Heq.
      assert (t = []) as -> by (destruct t as [|c t']; [done|]; rewrite zlen_cons in Heq; pose proof (zlen_nonneg t'); lia).
      by rewrite app_nil_r.
    - rewrite Hfile, take_zlen. by split_and!. }
  split_and!; cbn; try done.
  - split; cbn; rewrite ?F1, ?F2, ?F3, ?F4; try done; try lia. by exists []; rewrite app_nil_r.
  - unfold idx_synced. cbn [idxFile index idxPos]. rewrite F4, (WriteAt_exact []). done.
Qed.

End Scan.

(** ** Opening a crashed directory *)

(** A segment whose files hold exactly what it says: no bytes of a failed write
    behind the log, and the index file in step with the index in memory; in a
    tidy log the descriptor of the active index is also at its end. *)
Definition seg_tidy (s : segment) : Prop :=
  zlen (logFile s) = logSize s /\ idxFile s = concat (encodeIndexEntry <$> index s).
Definition tidy (l : Log) : Prop := Forall seg_tidy (segments l) /\ idx_synced (active l).

Lemma tidy_file s bs n : seg_rep s bs n -> seg_tidy s -> logFile s = concat bs.
Proof.
  intros Hr [Hz _]. destruct (sr_data _ _ _ Hr) as [j Hj]. pose proof (sr_size _ _ _ Hr) as Hs.
  rewrite Hj, zlen_app in Hz. destruct j as [|c j]; [by rewrite app_nil_r in Hj|].
  rewrite zlen_cons in Hz. pose proof (zlen_nonneg j). lia.
Qed.

Lemma entry_at_fits s bs n e : seg_rep s bs n -> entry_at (baseOffset s) bs e -> entry_fits e.
Proof.
  intros Hr He. pose proof (entry_at_rel _ _ _ _ (sr_chain _ _ _ Hr) He) as Hrel.
  destruct He as (b1 & b2 & m & -> & _ & Hp & _). pose proof (sr_span _ _ _ Hr).
  pose proof (sr_size _ _ _ Hr) as Hsz. pose proof (sr_small _ _ _ Hr).
  rewrite concat_app, zlen_app in Hsz. pose proof (zlen_nonneg (concat b1)). pose proof (zlen_nonneg (concat b2)).
  split; rewrite ?Hp; solve_int.
Qed.

(** A sealed segment reopens to what it was. *)
Lemma openSegment_rep s bs n interval :
  seg_rep s bs n -> seg_tidy s ->
  let s' := openSegment (baseOffset s) interval (logFile s) (idxFile s) in
  seg_rep s' bs n /\ seg_tidy s'.
Proof.
  intros Hr Ht. pose proof (tidy_file _ _ _ Hr Ht) as Hf. destruct Ht as [Hz Hi].
  pose proof Hr as [Hd Hs Hsm Hc Hb Hsp Hbd Hix Hso].
  assert (decodeIndexEntries (idxFile s) = index s) as Hdec.
  { rewrite Hi, <- (app_nil_r (concat _)). apply index_decodes; [|unfold indexEntrySize; simpl; lia].
    eapply Forall_impl; [exact Hix|]. intros e. by eapply entry_at_fits. }
  assert (int32 (zlen (logFile s)) = logSize s) as Hls.
  { rewrite Hz. apply int32_id. pose proof (zlen_nonneg (concat bs)). solve_int. }
  cbn zeta. unfold openSegment. rewrite Hls, Hdec. split; [by split|]. by split; cbn; [|rewrite Hi].
Qed.

(** The directory a crash leaves: the files of the sealed segments, and the
    active .log file with some of the batches of the active segment, the last
    one possibly torn.  Anything may lie in the active .index file and in files
    that are not segments. *)
Record crash_image (l : Log) (kept : list (list byte)) (t : list byte) (d : dir) : Prop := {
  ci_only : forall name b, is_Some (d !! name) -> entryBase name = Some b ->
    exists s, s ∈ segments l /\ b = baseOffset s /\ name = logPath b;
  ci_sealed : forall i s, (S i < length (segments l))%nat -> segments l !! i = Some s ->
    d !! logPath (baseOffset s) = Some (logFile s) /\ d !! indexPath (baseOffset s) = Some (idxFile s);
  ci_active : d !! logPath (baseOffset (active l)) = Some (concat kept ++ t);
  ci_tail : crash_tail (zlen (concat kept)) t }.

Lemma openAll_sealed d interval o cs bss m :
  sealed o cs bss m -> Forall seg_tidy cs ->
  (forall s, s ∈ cs -> d !! logPath (baseOffset s) = Some (logFile s) /\ d !! indexPath (baseOffset s) = Some (idxFile s)) ->
  exists cs', openAll open_ok d interval (map baseOffset cs) = inl cs' /\ sealed o cs' bss m /\ Forall seg_tidy cs'.
Proof.
  revert o bss. induction cs as [|s cs IH]; intros o [|bs bss]; cbn [sealed map]; try done; [by exists []|].
  intros (<- & Hne & x & Hr & Hs) [Ht Hts]%Forall_cons Hd.
  destruct (Hd s ltac:(by left)) as [H1 H2].
  destruct (IH x bss Hs Hts) as (cs' & IH1 & IH2 & IH3); [intros; apply Hd; by right|].
  eexists. cbn [openAll]. unfold openSegmentAt. rewrite H1, H2. cbn [open_ok o_open default from_option].
  fold open_ok. rewrite IH1. split; [reflexivity|].
  destruct (openSegment_rep s bs x interval Hr Ht) as (Hr' & Ht'). cbn [sealed].
  split_and!; try done; [by exists x|by constructor].
Qed.

Lemma openAll_app d interval xs ys cs :
  openAll open_ok d interval xs = inl cs ->
  openAll open_ok d interval (xs ++ ys) =
  match openAll open_ok d interval ys with inl ds => inl (cs ++ ds) | inr er => inr er end.
Proof.
  revert cs. induction xs as [|x xs IH]; intros cs; cbn [openAll app].
  - intros [= <-]. by destruct (openAll _ _ _ ys).
  - destruct (openSegmentAt _ _ _ _); [|done]. destruct (openAll open_ok d interval xs); [|done].
    intros [= <-]. rewrite (IH l eq_refl). by destruct (openAll _ _ _ ys).
Qed.

(** Where the files of a segment of [l] are in a crash image. *)
Lemma crash_lookup l kept t d cs a :
  crash_image l kept t d -> segments l = cs ++ [a] ->
  (forall s, s ∈ cs -> d !! logPath (baseOffset s) = Some (logFile s) /\ d !! indexPath (baseOffset s) = Some (idxFile s)) /\
  d !! logPath (baseOffset a) = Some (concat kept ++ t).
Proof.
  intros [_ Hsl Ha _] Hs. split.
  - intros s [i Hi]%list_elem_of_lookup. apply (Hsl i).
    + rewrite Hs, length_app. simpl. apply lookup_lt_Some in Hi. lia.
    + rewrite Hs. by apply lookup_app_l_Some.
  - unfold active in Ha. by rewrite Hs, last_snoc_default in Ha.
Qed.

Lemma crash_bases l bss bs kept t d :
  log_rep l bss bs -> crash_image l kept t d -> listSegmentBases d = map baseOffset (segments l).
Proof.
  intros [(cs & a & Hs & Hc & Ha) _] Hci. destruct (crash_lookup _ _ _ _ _ _ Hci Hs) as [Hd1 Hd2].
  destruct (sealed_bases _ _ _ _ Hc) as [Hsort Hlo].
  rewrite Hs, map_app. cbn [map]. apply listSegmentBases_exact; [done| | |].
  - assert (Forall (fun b => 0 <= b <= baseOffset a) (map baseOffset cs ++ [baseOffset a])) as Hr.
    { pose proof (sr_base _ _ _ Ha). apply Forall_app. split; [|constructor; [lia|done]].
      apply Forall_forall. intros b Hb. split; [|pose proof (StronglySorted_app_1_elem_of _ _ _ b (baseOffset a) Hsort Hb ltac:(by left)); lia].
      apply list_elem_of_fmap in Hb as (s & -> & [i Hi]%list_elem_of_lookup).
      destruct (sealed_lookup _ _ _ _ _ _ Hc Hi) as (? & ? & _ & Hr & _). apply Hr. }
    eapply Forall_impl; [exact Hr|]. cbn. pose proof (sr_bound _ _ _ Ha).
    pose proof (chained_le _ _ _ (sr_chain _ _ _ Ha)). intros b Hb. solve_int.
  - intros name b Hn Eb. destruct (ci_only _ _ _ _ Hci name b Hn Eb) as (s & Hin & -> & Hname).
    split; [|done]. rewrite Hs in Hin. apply elem_of_app in Hin as [Hin|Hin].
    + apply elem_of_app. left. by apply list_elem_of_fmap_2.
    + apply list_elem_of_singleton in Hin as ->. apply elem_of_app. right. by left.
  - intros b [Hb|Hb]%elem_of_app.
    + apply list_elem_of_fmap in Hb as (s & -> & Hin). destruct (Hd1 s Hin) as [-> _]. by eexists.
    + apply list_elem_of_singleton in Hb as ->. rewrite Hd2. by eexists.
Qed.

Lemma Open_spec l bss kept lost t d c :
  log_rep l bss (kept ++ lost) -> Forall seg_tidy (segments l) -> crash_image l kept t d ->
  exists l', Open open_ok d c = Ret (inl l') /\ log_rep l' bss kept /\ tidy l' /\ cfg l' = c /\
    HighWatermark l' = nextOffset l' /\ EarliestOffset l' = EarliestOffset l /\
    (lost = [] -> nextOffset l' = nextOffset l).
Proof.
  intros Hrep Ht Hci. pose proof (crash_bases _ _ _ _ _ _ Hrep Hci) as Hb.
  destruct Hrep as [(cs & a & Hs & Hc & Ha) _]. destruct (crash_lookup _ _ _ _ _ _ Hci Hs) as [Hd1 Hd2].
  pose proof (sr_chain _ _ _ Ha) as Hch. apply chained_app in Hch as (n & Hch1 & Hch2).
  rewrite Hs in Ht. apply Forall_app in Ht as [Htc Hta].
  destruct (openAll_sealed d (IndexIntervalBytes c) _ _ _ _ Hc Htc Hd1) as (cs' & Hopen & Hsl & Htc').
  set (f := concat kept ++ t) in *. set (idx := default [] (d !! indexPath (baseOffset a))).
  set (sa := openSegment (baseOffset a) (IndexIntervalBytes c) f idx).
  assert (zlen f < 2 ^ 31) as Hf.
  { unfold f. rewrite zlen_app. destruct (ci_tail _ _ _ _ Hci) as [[-> ?]|(b & rest & _ & -> & _ & H)].
    - rewrite zlen_nil. lia.
    - rewrite zlen_app in H. pose proof (zlen_nonneg rest). lia. }
  pose proof (chained_le _ _ _ Hch2). pose proof (sr_span _ _ _ Ha). pose proof (sr_bound _ _ _ Ha).
  destruct (recoverActive_spec sa kept t n) as (s' & Hrec & Hr' & Hbase' & Hidx' & Hfile'); try done.
  { cbn. apply int32_id. pose proof (zlen_nonneg f). solve_int. }
  { apply Hci. }
  { cbn. lia. }
  { cbn. apply Ha. }
  { lia. }
  eexists. split.
  { assert (openAll open_ok d (IndexIntervalBytes c) (map baseOffset cs ++ [baseOffset a]) = inl (cs' ++ [sa])) as Hall.
    { rewrite (openAll_app _ _ _ _ _ Hopen). cbn [openAll]. unfold openSegmentAt. by rewrite Hd2. }
    unfold Open. cbn [open_ok o_mkdir o_readdir negb]. fold open_ok. rewrite Hb, Hs, map_app. cbn [map].
    destruct (map baseOffset cs ++ [baseOffset a]) as [|b0 bl]; [exfalso; by destruct cs'|]. rewrite Hall.
    cbn zeta. assert (active (mkLog c (cs' ++ [sa]) 0 0 false false) = sa) as -> by apply last_snoc_default.
    rewrite Hrec. cbn [mbind go_bind]. reflexivity. }
  unfold setActive. cbn [segments cfg HighWatermark highWatermark nextOffset].
  set (l' := mkLog _ _ _ _ _ _).
  assert (segments l' = cs' ++ [s']) as Hs' by (unfold l'; cbn [segments]; by rewrite removelast_last).
  assert (EarliestOffset l' = EarliestOffset l) as He.
  { unfold EarliestOffset at 1, firstSegment. rewrite Hs'. by eapply head_snoc_base. }
  split_and!; try done.
  - split; [|done]. exists cs', s'. rewrite He, Hbase'. by split_and!.
  - split; [rewrite Hs'; apply Forall_app; split; [done|constructor; [|done]]|].
    + split; [by rewrite Hfile', (sr_size _ _ _ Hr')|apply Hidx'].
    + unfold active. by rewrite Hs', last_snoc_default.
  - intros ->. cbn in *. by symmetry.
Qed.

(** ** Logs written without faults stay tidy *)

Lemma append_tidy b n s s' bs m :
  seg_rep s bs m -> seg_tidy s -> idx_synced s -> logSize s + zlen b < 2 ^ 31 ->
  append WOk WOk b n s = (s', None) -> seg_tidy s' /\ idx_synced s'.
Proof.
  intros Hr [Hz Hi] [Hs Hp] Hfit. unfold append.
  pose proof (sr_size _ _ _ Hr). pose proof (zlen_nonneg (concat bs)). pose proof (zlen_nonneg b).
  assert (forall s1, logSize s1 = logSize s -> logFile s1 = logFile s -> idx_synced s1 ->
            writeLog WOk b s1 = (s', None) -> seg_tidy s' /\ idx_synced s') as Hw.
  { intros s1 Hl Hf Hx [= <-]. unfold seg_tidy, idx_synced in *. cbn.
    rewrite Hl, Hf, <- Hz, WriteAt_exact, zlen_app, Hz, (int32_id (zlen b)), int32_id by solve_int.
    naive_solver. }
  destruct (indexDue s); [|by apply Hw]. cbn [writeIndex]. apply Hw; [done|done|].
  unfold idx_synced. cbn [idxFile index idxPos]. rewrite Hp, WriteAt_exact, Hs, fmap_app, concat_app. cbn.
  rewrite app_nil_r, !zlen_app. done.
Qed.

Lemma tidy_active l bss bs : log_rep l bss bs -> tidy l -> seg_tidy (active l) /\ Forall seg_tidy (removelast (segments l)).
Proof.
  intros [(cs & a & Hs & _) _] [Ht _]. unfold active. rewrite Hs in *.
  apply Forall_app in Ht as [H1 [H2 _]%Forall_cons]. by rewrite last_snoc_default, removelast_last.
Qed.

Lemma roll_tidy base l l1 : roll io_ok base l = (l1, None) -> tidy l -> tidy l1.
Proof.
  intros [= <-] [Ht _]. split.
  - cbn. apply Forall_app. split; [done|]. by constructor.
  - unfold active. cbn. by rewrite last_snoc_default.
Qed.

Lemma maybe_roll_tidy base b l l1 :
  (if rollDue l b then roll io_ok base l else (l, None)) = (l1, None) -> tidy l -> tidy l1.
Proof. destruct (rollDue l b); [apply roll_tidy|by intros [= <-]]. Qed.

Lemma store_tidy e b l bss bs l1 s' n o h hl :
  log_rep l bss bs -> tidy l -> logSize (active l) + zlen b < 2 ^ 31 ->
  (if rollDue l b then roll e (nextOffset l) l else (l, None)) = (l1, None) ->
  append (io_idx e) (io_log e) b n (active l1) = (s', None) ->
  tidy (mkLog (cfg l1) (segments (setActive l1 s')) o h hl true).
Proof.
  intros Hrep Ht Hfit Hroll Happ. apply append_success in Happ.
  destruct (maybe_roll _ _ _ _ _ _ _ Hrep Hroll) as (bss1 & bs1 & Hrep1 & _ & _ & Hcase & _).
  apply maybe_roll_success, maybe_roll_tidy in Hroll; [|done].
  destruct (tidy_active _ _ _ Hrep1 Hroll) as [H1 H2].
  destruct (log_active _ _ _ Hrep1) as [Ha _]. pose proof (sr_size _ _ _ Ha). pose proof (zlen_nonneg (concat bs1)).
  assert (logSize (active l1) + zlen b < 2 ^ 31) as Hfit1.
  { destruct Hcase as [(-> & _ & _)|(-> & _)]; [done|]. destruct (log_active _ _ _ Hrep) as [Ha0 _].
    pose proof (sr_size _ _ _ Ha0). pose proof (zlen_nonneg (concat bs)). lia. }
  destruct (append_tidy _ _ _ _ _ _ Ha H1 (proj2 Hroll) Hfit1 Happ) as [G1 G2].
  unfold setActive. cbn [segments]. split.
  - cbn [segments]. apply Forall_app. split; [done|]. by constructor.
  - unfold active. cbn [segments]. by rewrite last_snoc_default.
Qed.

(** Any successful append keeps the log tidy. *)
Lemma Append_tidy e b l bss bs l' z :
  log_rep l bss bs -> tidy l -> logSize (active l) + zlen b < 2 ^ 31 ->
  Append e b l = Ret (l', (z, None)) -> tidy l'.
Proof.
  intros Hrep Ht Hfit. unfold Append.
  destruct (patchBatch b _) as [b'| |] eqn:Hpatch; cbn [mbind go_bind]; [|done..].
  assert (zlen b' = zlen b) as Hlen.
  { destruct (decide (offAttributes <= length b)%nat) as [Hle|Hgt].
    - destruct (patchBatch_patched b (nextOffset l) Hle) as (b2 & Hp & Hpt). rewrite Hp in Hpatch.
      simplify_eq. unfold zlen. by rewrite (pt_length _ _ _ Hpt).
    - rewrite patchBatch_short in Hpatch by lia. done. }
  destruct (if rollDue l b' then _ else _) as [l1 [er|]] eqn:Hr; [done|].
  destruct (ParseHeader b') as [h [er|]]; [done|].
  destruct (append _ _ _ _ _) as [s' [er|]] eqn:Ha; [done|]. intros [= <- <-].
  eapply store_tidy; [done|done| |exact Hr|exact Ha]. by rewrite Hlen.
Qed.

Lemma AppendReplica_tidy e b l bss bs l' z :
  log_rep l bss bs -> tidy l -> logSize (active l) + zlen b < 2 ^ 31 ->
  AppendReplica e b l = (l', (z, None)) -> tidy l'.
Proof.
  intros Hrep Ht Hfit. unfold AppendReplica. destruct (ParseHeader b) as [h [er|]]; [done|].
  destruct (Z.ltb_spec (BaseOffset h) (nextOffset l)); [by intros [= <- <-]|].
  destruct (Z.ltb_spec (nextOffset l) (BaseOffset h)); [done|].
  assert (BaseOffset h = nextOffset l) as -> by lia.
  destruct (if rollDue l b then _ else _) as [l1 [er|]] eqn:Hr; [done|].
  destruct (append _ _ _ _ _) as [s' [er|]] eqn:Ha; [done|]. intros [= <- <-].
  by eapply store_tidy; [done|done| |exact Hr|exact Ha].
Qed.

(** ** A concrete crash *)

(** The directory that holds the files of a log. *)
Definition diskOf (l : Log) : dir :=
  foldr (fun s d => <[logPath (baseOffset s) := logFile s]> (<[indexPath (baseOffset s) := idxFile s]> d)) ∅ (segments l).

(** The demo log with a torn write behind its active segment and no index file
    for it. *)
Definition demoCrash : dir :=
  let f := logFile (active demoLog) in
  <[logPath 4 := f ++ take 63 demoBatch2]> (delete (indexPath 4) (diskOf demoLog)).

Lemma entryBase_only (d : dir) (P : string -> Z -> Prop) :
  map_Forall (fun name _ => match entryBase name with Some b => P name b | None => True end) d ->
  forall name b, is_Some (d !! name) -> entryBase name = Some b -> P name b.
Proof. intros H name b [v Hv] Eb. specialize (H name v Hv). cbn in H. by rewrite Eb in H. Qed.

Lemma demo_bases : exists s0 s1, segments demoLog = [s0; s1] /\ baseOffset s0 = 0 /\ baseOffset s1 = 4.
Proof. eexists _, _. split_and!; vm_compute; reflexivity. Qed.

Lemma demo_image bss bs : log_rep demoLog bss bs -> crash_image demoLog bs (take 63 demoBatch2) demoCrash.
Proof.
  intros Hrep. destruct (log_active _ _ _ Hrep) as [Ha _].
  assert (logFile (active demoLog) = concat bs) as Hf.
  { apply (tidy_file _ _ _ Ha). split; vm_compute; reflexivity. }
  split.
  - apply (entryBase_only _ (fun name b => exists s, s ∈ segments demoLog /\ b = baseOffset s /\ name = logPath b)).
    assert (forall i s, segments demoLog !! i = Some s -> forall name, name = logPath (baseOffset s) ->
      match entryBase name with Some b => exists s, s ∈ segments demoLog /\ b = baseOffset s /\ name = logPath b | None => True end) as Hg.
    { intros i s Hi name ->. rewrite entryBase_logPath.
      - exists s. split_and!; [by eapply list_elem_of_lookup_2|done|done].
      - destruct (segments_lookup _ _ _ Hrep i s Hi) as (? & ? & _ & Hr & Hb & _).
        pose proof (sr_base _ _ _ Hr). destruct (log_active _ _ _ Hrep) as (_ & _ & ?). solve_int. }
    destruct demo_bases as (s0 & s1 & Hs & H0 & H1).
    pose proof (Hg 0%nat s0 ltac:(by rewrite Hs) _ eq_refl) as Hg0.
    pose proof (Hg 1%nat s1 ltac:(by rewrite Hs) _ eq_refl) as Hg1. clear Hg.
    rewrite H0, Hs in Hg0. rewrite H1, Hs in Hg1.
    unfold demoCrash, diskOf. rewrite Hs. cbn [foldr]. rewrite H0, H1.
    apply map_Forall_insert_2; [exact Hg1|]. apply map_Forall_delete.
    apply map_Forall_insert_2; [exact Hg0|].
    apply map_Forall_insert_2; [by vm_compute|].
    apply map_Forall_insert_2; [exact Hg1|].
    apply map_Forall_insert_2; [by vm_compute|apply map_Forall_empty].
  - destruct demo_bases as (s0 & s1 & Hs & H0 & H1). intros [|[|i]] s Hi; rewrite Hs in *; cbn in *; [|lia..].
    intros [= <-]. unfold demoCrash, diskOf. rewrite Hs. cbn [foldr]. cbn zeta. rewrite H0, H1. split.
    + by rewrite lookup_insert_ne, lookup_delete_ne, lookup_insert_eq by (by vm_compute).
    + by rewrite lookup_insert_ne, lookup_delete_ne, lookup_insert_ne, lookup_insert_eq by (by vm_compute).
  - rewrite <- Hf. vm_compute. reflexivity.
  - right. exists demoBatch2, (drop 63 demoBatch2). split_and!.
    + apply batch_wfb_ok. vm_compute. reflexivity.
    + by rewrite take_drop.
    + by vm_compute.
    + rewrite <- Hf. vm_compute. reflexivity.
Qed.

#[export] Instance seg_tidy_dec s : Decision (seg_tidy s).
Proof. unfold seg_tidy. apply _. Defined.
#[export] Instance tidy_dec l : Decision (tidy l).
Proof. unfold tidy, idx_synced. apply _. Defined.

Lemma demo_tidy : tidy demoLog.
Proof. apply (bool_decide_eq_true_1 _). vm_compute. reflexivity. Qed.

(** ** Properties *)

(** C6: crash recovery.  Take any log whose writes succeeded, and crash: the
    sealed segment files are intact, the active .log file holds some of its
    batches followed by nothing or by a torn one, the active .index file holds
    anything.  Opening the directory terminates and yields a log that holds
    exactly the complete batches, at the same offsets, with the index rebuilt,
    the earliest offset unchanged, and everything committed; if no batch was
    lost, the log end is the one before the crash. *)
Theorem Open_recovers l bss kept lost t d c :
  log_rep l bss (kept ++ lost) -> tidy l -> crash_image l kept t d ->
  exists l', Open open_ok d c = Ret (inl l') /\ log_rep l' bss kept /\ tidy l' /\ cfg l' = c /\
    HighWatermark l' = nextOffset l' /\ EarliestOffset l' = EarliestOffset l /\
    (lost = [] -> nextOffset l' = nextOffset l).
Proof. intros Hrep [Ht _] Hci. by eapply Open_spec. Qed.

Lemma Open_recovers_witness :
  exists l', Open open_ok demoCrash demoConfig = Ret (inl l') /\ nextOffset l' = 7.
Proof.
  destruct demo_rep as (bss & bs & Hrep). pose proof (demo_image _ _ Hrep) as Hci.
  rewrite <- (app_nil_r bs) in Hrep.
  destruct (Open_recovers demoLog bss bs [] _ _ demoConfig Hrep demo_tidy Hci) as (l' & H & _ & _ & _ & _ & _ & Hn).
  exists l'. split; [exact H|]. rewrite Hn; [vm_compute|]; reflexivity.
Defined.

(** a produced batch survives a crash.  After a successful append to a tidy
    log, opening any directory that holds the files of the new log (with any
    index file, and possibly a torn later write) yields a log that answers the
    batch, byte for byte, to a read at the offset the append returned. *)
Theorem Append_durable b l bss bs max :
  log_rep l bss bs -> tidy l -> producer_ok b -> room l b (RecordCount (headerOf b)) -> in_int 32 max ->
  exists l1 o b' bss' bs', Append io_ok b l = Ret (l1, (o, None)) /\ patched b o b' /\ log_rep l1 bss' bs' /\
    forall t d c, crash_image l1 bs' t d ->
    exists l2, Open open_ok d c = Ret (inl l2) /\ Read o max l2 = Ret (b', None).
Proof.
  intros Hrep Ht Hb Hroom Hmax.
  destruct (Append_stores b l bss bs Hrep Hb Hroom) as (l1 & b' & bss' & bs' & H1 & [_ H2] & H3 & H4 & H5 & _ & H6 & _).
  exists l1, (nextOffset l), b', bss', bs'. split_and!; try done. intros t d c Hd.
  rewrite <- (app_nil_r bs') in H3.
  pose proof (Append_tidy _ _ _ _ _ _ _ Hrep Ht (rm_bytes _ _ _ Hroom) H1) as [Ht1 _].
  destruct (Open_spec _ _ _ _ _ _ c H3 Ht1 Hd) as (l2 & G1 & G2 & _ & _ & _ & G3 & G4).
  exists l2. split; [done|]. pose proof (log_contents _ _ _ Hrep) as Hc.
  eapply (Read_last l2 bss' bs'); [done|exact H4|done|by eapply chained_below|].
  pose proof (chained_le _ _ _ Hc). pose proof (po_pos _ Hb). rewrite G3, H6, G4 by done. lia.
Qed.

Lemma Append_durable_witness :
  exists l1 o b', Append io_ok demoBatch2 demoLog = Ret (l1, (o, None)) /\ patched demoBatch2 o b' /\ o = 7.
Proof.
  destruct demo_rep as (bss & bs & Hrep).
  destruct (Append_durable demoBatch2 demoLog bss bs 100 Hrep demo_tidy) as (l1 & o & b' & bss' & bs' & H1 & H2 & _).
  - apply producer_okb. vm_compute. reflexivity.
  - split; vm_compute; reflexivity.
  - solve_int.
  - exists l1, o, b'. split_and!; [exact H1|exact H2|]. vm_compute in H1. congruence.
Defined.

(** The file a failed roll leaves is harmless as long as nothing follows: a
    directory with the files of the log and that file opens as the log with all its
    batches and offsets, the file being the new active segment. *)
Theorem failed_roll_harmless l bss bs d c :
  log_rep l bss bs -> tidy l -> 0 < logSize (active l) -> crash_image l bs [] d ->
  d !! indexPath (baseOffset (active l)) = Some (idxFile (active l)) ->
  exists l', Open open_ok (rollLeft true (nextOffset l) d) c = Ret (inl l') /\ log_rep l' (bss ++ [bs]) [] /\
    contents (bss ++ [bs]) [] = contents bss bs /\ EarliestOffset l' = EarliestOffset l /\ nextOffset l' = nextOffset l.
Proof.
  intros Hrep Ht Hsz Hci Hidx. destruct (roll io_ok (nextOffset l) l) as [l1 r] eqn:Hroll.
  destruct (roll_rep _ _ _ _ _ _ Hrep Hsz Hroll) as [(_ & _ & ?)|(-> & Hrep1 & Hm & _ & Hb1)]; [done|].
  pose proof (roll_tidy _ _ _ Hroll Ht) as [Ht1 _].
  assert (segments l1 = segments l ++ [createSegment (nextOffset l) (IndexIntervalBytes (cfg l))]) as Hs1 by (by injection Hroll as <-).
  destruct (log_active _ _ _ Hrep) as (Ha & Hlo & Hhi).
  assert (forall s, s ∈ segments l -> baseOffset s < nextOffset l) as Hlt.
  { destruct Hrep1 as [(cs & a & Hs & Hc & _) _]. rewrite Hs in Hs1. apply app_inj_tail in Hs1 as [-> ->].
    destruct (sealed_bases _ _ _ _ Hc) as [Hsort _]. intros s Hin. cbn in Hsort.
    apply (StronglySorted_app_1_elem_of _ _ _ _ _ Hsort); [by apply list_elem_of_fmap_2|by left]. }
  assert (forall s, s ∈ segments l -> in_int 64 (baseOffset s)) as Hin64.
  { intros s Hin. pose proof (Hlt s Hin). pose proof Hin as [i Hi]%list_elem_of_lookup.
    destruct (segments_lookup _ _ _ Hrep i s Hi) as (? & ? & _ & Hr & _). pose proof (sr_base _ _ _ Hr). pose proof (sr_bound _ _ _ Ha). solve_int. }
  assert (in_int 64 (nextOffset l)) as Hn64 by (pose proof (sr_base _ _ _ Ha); pose proof (sr_bound _ _ _ Ha); solve_int).
  assert (crash_image l1 [] [] (rollLeft true (nextOffset l) d)) as Hci1.
  { split.
    - intros name b [f Hf] Eb. unfold rollLeft in Hf. rewrite Hs1. apply lookup_insert_Some in Hf as [[<- _]|[_ Hf]].
      + rewrite entryBase_logPath in Eb by done. injection Eb as <-. eexists. split; [apply elem_of_app; right; by left|done].
      + destruct (ci_only _ _ _ _ Hci name b) as (s & H1 & H2); [by eexists|done|]. exists s. split; [apply elem_of_app; by left|done].
    - intros i s Hi Hl. rewrite Hs1, length_app in Hi. simpl in Hi. rewrite Hs1, lookup_app_l in Hl by lia.
      assert (s ∈ segments l) as Hin by (by eapply list_elem_of_lookup_2). pose proof (Hlt s Hin).
      assert (logPath (nextOffset l) <> logPath (baseOffset s)) as Hne1.
      { intros Heq. pose proof (entryBase_logPath _ Hn64) as E1. rewrite Heq, entryBase_logPath in E1 by (by apply Hin64). injection E1. lia. }
      assert (logPath (nextOffset l) <> indexPath (baseOffset s)) as Hne2.
      { intros Heq. unfold logPath, indexPath in Heq. apply (f_equal String.length) in Heq. rewrite !append_length in Heq. unfold segmentName in Heq.
        rewrite !pad20_length in Heq. cbn in Heq. lia. }
      unfold rollLeft. rewrite !lookup_insert_ne by done.
      destruct (decide (S i < length (segments l))%nat) as [Hi'|Hi']; [by apply (ci_sealed _ _ _ _ Hci i)|].
      destruct Hrep as [(cs & a & Hs & _) _]. assert (s = active l) as ->.
      { unfold active. rewrite Hs, last_snoc_default. rewrite Hs, length_app in *. simpl in *.
        replace i with (length cs) in Hl by lia. rewrite list_lookup_middle in Hl by done. by injection Hl. }
      split; [|done]. rewrite (ci_active _ _ _ _ Hci), app_nil_r. f_equal. symmetry. apply (tidy_file _ _ _ Ha).
      destruct Ht as [Ht _]. rewrite Forall_forall in Ht. by apply Ht.
    - rewrite Hb1. unfold rollLeft. by rewrite lookup_insert_eq.
    - left. by split. }
  destruct (Open_spec l1 (bss ++ [bs]) [] [] [] _ c Hrep1 Ht1 Hci1) as (l' & H1 & H2 & _ & _ & _ & H3 & H4).
  exists l'. split_and!; [done|done|unfold contents; rewrite concat_app; cbn; by rewrite !app_nil_r| |].
  - rewrite H3. apply Hm.
  - rewrite H4 by done. apply Hm.
Qed.

(** Once a later batch goes into the old segment, it is not.  A first batch; a
    large one whose roll creates the next .log file and not its .index file, so the
    append fails; a small one that still fits and is stored at offset 3.  After a
    restart the empty file is the active segment: the log end is 3 again, and the
    next batch is given offset 3 a second time. *)
Theorem failed_roll_moves_log_end_back :
  let l1 := runAppend demoBatch1 (freshLog demoConfig) in
  let large := mkBatch 0 0 1 2000 (be_put 40 7) in
  exists l2 l3 l4, Append (mkIO true false WOk WOk) large l1 = Ret (l2, (0, Some ErrIO)) /\ nextOffset l2 = 3 /\
    Append io_ok demoBatch2 l2 = Ret (l3, (3, None)) /\ nextOffset l3 = 4 /\
    Open open_ok (rollLeft true 3 (diskOf l3)) demoConfig = Ret (inl l4) /\ nextOffset l4 = 3 /\
    exists l5, Append io_ok demoBatch2 l4 = Ret (l5, (3, None)).
Proof. cbv zeta. do 3 eexists. do 6 (split; [vm_compute; reflexivity|]). eexists. vm_compute. reflexivity. Qed.

(** [Append] counts records where recovery counts offsets.  For a batch whose
    record count (5) is not its last offset delta plus one (1), the log end is 5
    after the append, and 1 after the log is closed and opened again. *)
Theorem recovery_moves_log_end :
  exists b l1 l2, batch_wf b /\ Append io_ok b (freshLog demoConfig) = Ret (l1, (0, None)) /\
    Open open_ok (diskOf l1) demoConfig = Ret (inl l2) /\ LatestOffset l1 = 5 /\ LatestOffset l2 = 1.
Proof.
  exists (mkBatch 0 0 5 1000 []). eexists _, _. split_and!.
  - apply batch_wfb_ok. vm_compute. reflexivity.
  - vm_compute. reflexivity.
  - vm_compute. reflexivity.
  - vm_compute. reflexivity.
  - vm_compute. reflexivity.
Qed.
