(* ===== verification/Durable.v ===== *)
(** * What a power failure can take: internal/storage/log.go, Flush and roll

    [Recovery] takes a directory as a killed process leaves it, with every write
    in the file.  When the machine goes down, what was not forced to the disk is
    lost too.  A [Disk] is a log together with how many bytes of its two files
    are on the disk for each segment: [segment.flush] moves both marks to the
    ends of the files, and the log calls it from [roll], before a segment is
    sealed, and from [Flush], when the dirty flag is set.

    A power failure keeps of every file a prefix that reaches its mark
    ([power_image]).  The code never syncs a directory.  What is assumed of the file
    system is this: syncing a file makes its name durable too; a file that was never
    synced may be missing afterwards; and removals and truncations are not undone,
    nor is the creation of a file that came before a removal.  Appends whose writes
    fail are not among the steps.

    A killed process leaves all its writes in the files ([k_kill]), but the opened
    log counts as clean whether or not they are on the disk. *)

From stdpp Require Import sorting.
From S2P Require Import Prelude Record Index Segment Log Recovery.

(** By base offset: the bytes of the .log and of the .index file on the disk. *)
Abbreviation marks := (gmap Z (Z * Z)).

Record Disk := mkDisk { dk_log : Log; dk_marks : marks }.

Definition marksOf (base : Z) (m : marks) : Z * Z := default (0, 0) (m !! base).

(** [segment.flush], both calls successful. *)
Definition flush (s : segment) (m : marks) : marks :=
  <[baseOffset s := (zlen (logFile s), zlen (idxFile s))]> m.

(** [roll]: the active segment is flushed, then the files of the next one are
    created, empty; they have no mark before they are synced. *)
Definition rollMarks (e : io) (base : Z) (l : Log) (m : marks) : marks :=
  if negb (io_flush e) then m
  else if negb (io_create e) then flush (active l) m
  else delete base (flush (active l) m).

Definition AppendD (e : io) (b : list byte) (D : Disk) : go (Disk * (Z * option error)) :=
  let l := dk_log D in
  r ← Append e b l;
  Ret (mkDisk r.1 (if rollDue l b then rollMarks e (nextOffset l) l (dk_marks D) else dk_marks D), r.2).

Definition AppendReplicaD (e : io) (b : list byte) (D : Disk) : Disk * (Z * option error) :=
  let l := dk_log D in
  let stores := match ParseHeader b with (h, None) => BaseOffset h =? nextOffset l | _ => false end in
  let r := AppendReplica e b l in
  (mkDisk r.1 (if stores && rollDue l b then rollMarks e (nextOffset l) l (dk_marks D) else dk_marks D), r.2).

Definition FlushD (synced : bool) (D : Disk) : Disk * option error :=
  let l := dk_log D in
  let r := Flush synced l in
  (mkDisk r.1 (if dirty l && synced then flush (active l) (dk_marks D) else dk_marks D), r.2).

(** [segment.close] and [Log.Close] close the files and report the first error;
    they do not force anything to the disk. *)
Definition closeSegment (err1 err2 : option error) : option error :=
  match err1 with Some er => Some er | None => err2 end.

Fixpoint close_loop (closes : Z -> option error * option error) (segs : list segment) (firstErr : option error) : option error :=
  match segs with
  | [] => firstErr
  | s :: segs =>
    let '(err1, err2) := closes (baseOffset s) in
    let firstErr := match closeSegment err1 err2, firstErr with Some er, None => Some er | _, _ => firstErr end in
    close_loop closes segs firstErr
  end.

Definition CloseD (closes : Z -> option error * option error) (D : Disk) : Disk * option error :=
  (D, close_loop closes (segments (dk_log D)) None).

(** ** Power failures *)

(** What a power failure can leave of the files.  The index of the active segment
    may be anything, or missing: [Open] rewrites it.  The active .log file may be
    missing when it was never synced, except where it is the first file of a log that
    has removed older ones. *)
Record power_image (D : Disk) (d : dir) : Prop := {
  pi_only : forall name b, is_Some (d !! name) -> entryBase name = Some b ->
    exists s, s ∈ segments (dk_log D) /\ b = baseOffset s /\ name = logPath b;
  pi_sealed : forall s, s ∈ removelast (segments (dk_log D)) -> exists f x,
    d !! logPath (baseOffset s) = Some f /\ f `prefix_of` logFile s /\ (marksOf (baseOffset s) (dk_marks D)).1 <= zlen f /\
    d !! indexPath (baseOffset s) = Some x /\ x `prefix_of` idxFile s /\ (marksOf (baseOffset s) (dk_marks D)).2 <= zlen x;
  pi_active : let a := active (dk_log D) in
    match d !! logPath (baseOffset a) with
    | Some f => f `prefix_of` logFile a /\ (marksOf (baseOffset a) (dk_marks D)).1 <= zlen f
    | None => dk_marks D !! baseOffset a = None /\ (removelast (segments (dk_log D)) <> [] \/ baseOffset a = 0)
    end }.

(** The log opened on the directory [d] that a power failure left: what is in the
    files is on the disk, but for the index file of the active segment, which [Open]
    has rewritten; the files that [Open] has created have no mark. *)
Definition afterOpen (d : dir) (l : Log) : Disk :=
  mkDisk l match d !! logPath (baseOffset (active l)) with
           | Some _ => <[baseOffset (active l) := (zlen (logFile (active l)), 0)]> (foldr flush ∅ (removelast (segments l)))
           | None => ∅
           end.

(** The log opened after its process was killed: no byte has reached the disk by
    that, and the index of the active segment is written anew. *)
Definition reopened (D : Disk) (l : Log) : Disk :=
  mkDisk l (alter (fun m => (m.1, 0)) (baseOffset (active l)) (dk_marks D)).

Definition freshDisk (c : Config) : Disk := mkDisk (freshLog c) ∅.

(** What a process does to a log. *)
Inductive lstep (D : Disk) : Disk -> Prop :=
  | d_append b D' z : producer_ok b -> room (dk_log D) b (RecordCount (headerOf b)) ->
      AppendD io_ok b D = Ret (D', (z, None)) -> lstep D D'
  | d_replica b D' z : batch_at (nextOffset (dk_log D)) b -> room (dk_log D) b (next_of b - nextOffset (dk_log D)) ->
      AppendReplicaD io_ok b D = (D', (z, None)) -> lstep D D'
  | d_hwm h : lstep D (mkDisk (SetHighWatermark h (dk_log D)) (dk_marks D))
  | d_hold : lstep D (mkDisk (HoldHighWatermark (dk_log D)) (dk_marks D))
  | d_flush ok : lstep D (fst (FlushD ok D))
  | d_retain now mt age maxB : lstep D (mkDisk (EnforceRetention now mt age maxB (dk_log D)) (dk_marks D)).

(** That, and power failures after which the log is opened again. *)
Inductive dstep (D : Disk) : Disk -> Prop :=
  | d_live D' : lstep D D' -> dstep D D'
  | d_power d l : power_image D d -> Open open_ok d (cfg (dk_log D)) = Ret (inl l) -> dstep D (afterOpen d l).

(** These steps, and the end of the process: all batches are in the files, behind
    them at most the torn write of an append that had not returned. *)
Inductive kstep (D : Disk) : Disk -> Prop :=
  | k_step D' : dstep D D' -> kstep D D'
  | k_kill bss bs t d l : log_rep (dk_log D) bss bs -> crash_image (dk_log D) bs t d ->
      Open open_ok d (cfg (dk_log D)) = Ret (inl l) -> kstep D (reopened D l).

(** ** What is on the disk *)

(** [durable s D bss bs kept x]: the log holds [bss] in sealed segments, which are
    whole on the disk, and [bs] in the active one, of which at least [kept], up to
    the offset [x], are.  With [s], a clean log is whole on the disk. *)
Record durable (s : bool) (D : Disk) (bss : list (list (list byte))) (bs kept : list (list byte)) (x : Z) : Prop := {
  du_rep : log_rep (dk_log D) bss bs;
  du_tidy : tidy (dk_log D);
  du_kept : kept `prefix_of` bs;
  du_end : chained (baseOffset (active (dk_log D))) kept x;
  du_active : (marksOf (baseOffset (active (dk_log D))) (dk_marks D)).1 = zlen (concat kept);
  du_sealed : forall s, s ∈ removelast (segments (dk_log D)) ->
    marksOf (baseOffset s) (dk_marks D) = (zlen (logFile s), zlen (idxFile s));
  du_clean : s = true -> dirty (dk_log D) = false -> kept = bs }.
Arguments du_rep {_}. Arguments du_tidy {_}. Arguments du_kept {_}. Arguments du_end {_}.
Arguments du_active {_}. Arguments du_sealed {_}. Arguments du_clean {_}.

(** One state follows another without losing what was on the disk. *)
Definition keeps (D : Disk) (c : list (list byte)) (x : Z) (D' : Disk) (c' : list (list byte)) (x' : Z) : Prop :=
  x <= x' /\ EarliestOffset (dk_log D) <= EarliestOffset (dk_log D') /\
  drop_before (EarliestOffset (dk_log D')) c `prefix_of` c'.

Lemma marksOf_flush s m : marksOf (baseOffset s) (flush s m) = (zlen (logFile s), zlen (idxFile s)).
Proof. unfold marksOf, flush. by rewrite lookup_insert_eq. Qed.

Lemma marksOf_delete_ne b b' m : b <> b' -> marksOf b (delete b' m) = marksOf b m.
Proof. intros H. unfold marksOf. by rewrite lookup_delete_ne. Qed.

Lemma marksOf_insert_ne b b' v m : b <> b' -> marksOf b (<[b' := v]> m) = marksOf b m.
Proof. intros H. unfold marksOf. by rewrite lookup_insert_ne. Qed.

Lemma marksOf_flush_ne b s m : b <> baseOffset s -> marksOf b (flush s m) = marksOf b m.
Proof. apply marksOf_insert_ne. Qed.

(** Sealed segments start below the active one. *)
Lemma sealed_below l bss bs s :
  log_rep l bss bs -> s ∈ removelast (segments l) -> baseOffset s < baseOffset (active l) <= nextOffset l.
Proof.
  intros Hrep Hs. destruct (log_active _ _ _ Hrep) as (_ & _ & Hb). split; [|lia].
  destruct Hrep as [(cs & a & Hsegs & Hc & _) _]. unfold active. rewrite Hsegs, last_snoc_default, ?removelast_last in *.
  destruct (sealed_bases _ _ _ _ Hc) as [Hsort _].
  apply (StronglySorted_app_1_elem_of _ _ _ _ _ Hsort); [by apply list_elem_of_fmap_2|by left].
Qed.

Lemma segments_snoc l bss bs : log_rep l bss bs -> segments l = removelast (segments l) ++ [active l].
Proof. intros [(cs & a & Hs & _) _]. unfold active. by rewrite Hs, removelast_last, last_snoc_default. Qed.

Section Steps.
Context {s0 : bool} (D : Disk) (bss : list (list (list byte))) (bs kept : list (list byte)) (x : Z).
Context (HD : durable s0 D bss bs kept x).

Lemma kept_end : baseOffset (active (dk_log D)) <= x <= nextOffset (dk_log D).
Proof.
  destruct HD as [Hrep _ [r ->] Hend _ _ _]. split; [by eapply chained_le|].
  destruct (log_active _ _ _ Hrep) as [Ha _]. pose proof (sr_chain _ _ _ Ha) as Hc.
  apply chained_app in Hc as (m & H1 & H2). rewrite (chained_det _ _ _ _ Hend H1). by eapply chained_le.
Qed.

(** What was on the disk is a chain from the first offset. *)
Lemma durable_chain : chained (EarliestOffset (dk_log D)) (contents bss kept) x.
Proof.
  destruct HD as [Hrep _ _ Hend _ _ _]. apply chained_app. exists (baseOffset (active (dk_log D))). split; [|done].
  destruct Hrep as [(cs & a & Hs & Hc & _) _]. unfold active. rewrite Hs, last_snoc_default. by eapply sealed_contents.
Qed.

Lemma keeps_more D' new x' :
  EarliestOffset (dk_log D') = EarliestOffset (dk_log D) -> x <= x' -> keeps D (contents bss kept) x D' (contents bss kept ++ new) x'.
Proof.
  intros He Hx. split_and!; [done|lia|]. rewrite He. erewrite drop_before_none; [by eexists|by apply durable_chain|done].
Qed.

Lemma keeps_same D' x' :
  EarliestOffset (dk_log D') = EarliestOffset (dk_log D) -> x <= x' -> keeps D (contents bss kept) x D' (contents bss kept) x'.
Proof. intros. rewrite <- (app_nil_r (contents bss kept)) at 2. by apply keeps_more. Qed.

(** Changes that leave the segments and the dirty flag alone. *)
Lemma durable_meta l' :
  log_rep l' bss bs -> segments l' = segments (dk_log D) -> dirty l' = dirty (dk_log D) ->
  durable s0 (mkDisk l' (dk_marks D)) bss bs kept x /\ keeps D (contents bss kept) x (mkDisk l' (dk_marks D)) (contents bss kept) x.
Proof.
  intros Hrep Hs Hd. assert (active l' = active (dk_log D)) as Ha by (unfold active; by rewrite Hs).
  pose proof HD as [_ [H1 H2] H3 H4 H5 H6 H7]. split.
  - split; cbn [dk_log dk_marks]; rewrite ?Ha, ?Hd, ?Hs; try done. split; [by rewrite Hs|by rewrite Ha].
  - apply keeps_same; [|done]. unfold EarliestOffset, firstSegment. cbn [dk_log]. by rewrite Hs.
Qed.

Lemma durable_synced s1 D' :
  log_rep (dk_log D') bss bs -> segments (dk_log D') = segments (dk_log D) -> dk_marks D' = flush (active (dk_log D)) (dk_marks D) ->
  durable s1 D' bss bs bs (nextOffset (dk_log D')) /\ keeps D (contents bss kept) x D' (contents bss bs) (nextOffset (dk_log D')).
Proof.
  intros Hrep Hs Hm. assert (active (dk_log D') = active (dk_log D)) as Ha by (unfold active; by rewrite Hs).
  pose proof kept_end as Hx. destruct (log_active _ _ _ Hrep) as (Hr & _ & _). destruct (log_active _ _ _ (du_rep _ _ _ _ _ HD)) as (Hr0 & _ & _).
  assert (nextOffset (dk_log D') = nextOffset (dk_log D)) as Hn.
  { rewrite Ha in Hr. by apply (chained_det _ _ _ _ (sr_chain _ _ _ Hr) (sr_chain _ _ _ Hr0)). }
  pose proof HD as [Hrep0 [H1 H2] [r Hbs] H4 H5 H6 H7]. split.
  - split; rewrite ?Hm, ?Hs, ?Ha; try done.
    + split; [by rewrite Hs|by rewrite Ha].
    + rewrite Ha in Hr. apply Hr.
    + rewrite marksOf_flush. cbn [fst]. apply (f_equal zlen), (tidy_file _ _ _ Hr0), (tidy_active _ _ _ Hrep0). by split.
    + intros s Hin. pose proof (sealed_below _ _ _ s Hrep0 Hin). rewrite marksOf_flush_ne by lia. by apply H6.
  - unfold contents. rewrite Hbs, app_assoc. apply (keeps_more D' r); [|lia]. unfold EarliestOffset, firstSegment. by rewrite Hs.
Qed.

Lemma FlushD_durable ok D' r : FlushD ok D = (D', r) ->
  exists kept' x', durable (s0 || dirty (dk_log D)) D' bss bs kept' x' /\ keeps D (contents bss kept) x D' (contents bss kept') x' /\
    (r = None -> s0 || dirty (dk_log D) = true -> kept' = bs /\ x' = nextOffset (dk_log D')).
Proof.
  pose proof (du_rep _ _ _ _ _ HD) as [Hs Hh]. unfold FlushD, Flush. intros [= <- <-].
  destruct (dirty (dk_log D)) eqn:Ed; cbn [negb andb]; rewrite ?orb_true_r, ?orb_false_r.
  - destruct ok; cbn [negb fst snd].
    + exists bs, (nextOffset (dk_log D)). destruct (durable_synced true (mkDisk (mkLog (cfg (dk_log D)) (segments (dk_log D)) (nextOffset (dk_log D))
        (highWatermark (dk_log D)) (holdHWM (dk_log D)) false) (flush (active (dk_log D)) (dk_marks D)))) as [G1 G2]; [done..|]. by split_and!.
    + exists kept, x. destruct (durable_meta (dk_log D)) as [[] G2]; [done..|]. split_and!; [|done|done]. split; try done. cbn. congruence.
  - cbn [fst snd]. exists kept, x. destruct (durable_meta (dk_log D)) as [G1 G2]; [done..|]. split_and!; [done|done|].
    intros _ ->. pose proof (du_clean _ _ _ _ _ HD eq_refl Ed) as ->. split; [done|]. cbn [dk_log].
    destruct (log_active _ _ _ (du_rep _ _ _ _ _ HD)) as (Hr & _). by apply (chained_det _ _ _ _ (du_end _ _ _ _ _ HD) (sr_chain _ _ _ Hr)).
Qed.

Lemma roll_durable l1 :
  0 < logSize (active (dk_log D)) -> roll io_ok (nextOffset (dk_log D)) (dk_log D) = (l1, None) ->
  let D1 := mkDisk l1 (rollMarks io_ok (nextOffset (dk_log D)) (dk_log D) (dk_marks D)) in
  durable s0 D1 (bss ++ [bs]) [] [] (nextOffset (dk_log D)) /\
  keeps D (contents bss kept) x D1 (contents (bss ++ [bs]) []) (nextOffset (dk_log D)).
Proof.
  intros Hsz Hroll D1. pose proof kept_end as Hx. pose proof HD as [Hrep Ht [r Hbs] _ _ Hsl _].
  destruct (roll_rep _ _ _ _ _ _ Hrep Hsz Hroll) as [(? & _)|(_ & Hrep1 & Hm & _ & Hb1)]; [done|].
  assert (segments l1 = segments (dk_log D) ++ [createSegment (nextOffset (dk_log D)) (IndexIntervalBytes (cfg (dk_log D)))]) as Hs1
    by (by injection Hroll as <-).
  assert (nextOffset (dk_log D) <> baseOffset (active (dk_log D))) as Hne.
  { destruct (log_active _ _ _ Hrep) as (Ha & _). intros Heq. rewrite (sr_size _ _ _ Ha) in Hsz.
    pose proof (sr_chain _ _ _ Ha) as Hc. destruct bs as [|b bs']; [done|]. cbn [chained] in Hc. destruct Hc as [[_ _ ?] ?%chained_le]. lia. }
  split.
  - split; cbn [dk_log dk_marks D1]; try done.
    + by eapply roll_tidy.
    + unfold rollMarks. cbn [io_ok io_flush io_create negb]. rewrite Hb1. unfold marksOf. by rewrite lookup_delete_eq.
    + rewrite Hs1, removelast_last, (segments_snoc _ _ _ Hrep). intros s [Hin|Hin]%elem_of_app.
      * pose proof (sealed_below _ _ _ _ Hrep Hin). unfold rollMarks. cbn [io_ok io_flush io_create negb].
        rewrite marksOf_delete_ne, marksOf_flush_ne by lia. by apply Hsl.
      * apply list_elem_of_singleton in Hin as ->. unfold rollMarks. cbn [io_ok io_flush io_create negb].
        rewrite marksOf_delete_ne by done. apply marksOf_flush.
  - assert (contents (bss ++ [bs]) [] = contents bss kept ++ r) as ->
      by (unfold contents; rewrite concat_app, Hbs; cbn; by rewrite !app_nil_r, app_assoc).
    apply keeps_more; [apply Hm|lia].
Qed.

Lemma append_durable b s' hwm :
  batch_at (nextOffset (dk_log D)) b -> logSize (active (dk_log D)) + zlen b < 2 ^ 31 ->
  next_of b - baseOffset (active (dk_log D)) < 2 ^ 31 -> hwm <= next_of b ->
  append WOk WOk b (nextOffset (dk_log D)) (active (dk_log D)) = (s', None) ->
  let l := dk_log D in
  let D' := mkDisk (mkLog (cfg l) (segments (setActive l s')) (next_of b) hwm (holdHWM l) true) (dk_marks D) in
  durable s0 D' bss (bs ++ [b]) kept x /\ keeps D (contents bss kept) x D' (contents bss kept) x.
Proof.
  intros Hat Hfit Hspan Hh Happ l D'. pose proof HD as [Hrep Ht [r Hbs] Hend Hact Hsl _]. destruct (log_active _ _ _ Hrep) as (Ha & _).
  destruct (append_ok (active l) bs _ Ha b Hat Hfit Hspan) as (s2 & Happ2 & Hr2 & Hb2 & _). unfold l in Happ2. rewrite Happ in Happ2.
  injection Happ2 as <-. destruct (setActive_rep l bss bs s' _ _ hwm true Hrep Hb2 Hr2 Hh) as [Hrep' He].
  assert (segments (setActive l s') = removelast (segments l) ++ [s']) as Hs' by done.
  assert (active (dk_log D') = s') as Hact'. { unfold active, D'. cbn [dk_log segments]. by rewrite Hs', last_snoc_default. }
  assert (tidy (dk_log D')) as Ht'.
  { destruct (tidy_active _ _ _ Hrep Ht) as [T1 T2]. destruct (append_tidy _ _ _ _ _ _ Ha T1 (proj2 Ht) Hfit Happ) as [T3 T4].
    split; [|by rewrite Hact']. unfold D'. cbn [dk_log segments]. rewrite Hs'. apply Forall_app. split; [done|]. by constructor. }
  split; [|by apply keeps_same].
  split; rewrite ?Hact', ?Hb2; try done.
  - exists (r ++ [b]). by rewrite Hbs, app_assoc.
  - unfold D'. cbn [dk_log dk_marks segments]. rewrite Hs', removelast_last. done.
Qed.

End Steps.

Lemma retain_durable {s0} D bss bs kept x now mt age maxB :
  durable s0 D bss bs kept x ->
  let D' := mkDisk (EnforceRetention now mt age maxB (dk_log D)) (dk_marks D) in
  exists bss', durable s0 D' bss' bs kept x /\ keeps D (contents bss kept) x D' (contents bss' kept) x.
Proof.
  intros HD D'. pose proof HD as [Hrep [Ht1 Ht2] Hk Hend Hact Hsl Hcl].
  destruct (EnforceRetention_rep now mt age maxB _ _ _ Hrep) as (Hrep' & Ha & He & Hc).
  set (k := retained now mt age maxB (dk_log D)) in *. exists (drop k bss).
  assert (forall s, s ∈ removelast (segments (dk_log D')) -> s ∈ removelast (segments (dk_log D))) as Hsub.
  { intros s Hin. pose proof (segments_snoc _ _ _ Hrep) as H1. pose proof (segments_snoc _ _ _ Hrep') as H2.
    cbn [D' dk_log] in Hin. rewrite EnforceRetention_drop in H2, Hin. cbn [segments] in H2, Hin. fold k in H2, Hin.
    rewrite H1 in Hin. pose proof (retained_lt now mt age maxB _ _ _ Hrep) as Hlt. fold k in Hlt. rewrite H1, length_app in Hlt. simpl in Hlt.
    rewrite drop_app_le, removelast_last in Hin by lia.
    rewrite <- (take_drop k (removelast (segments (dk_log D)))). apply elem_of_app. by right. }
  assert (durable s0 D' (drop k bss) bs kept x) as HD'.
  { split; cbn [D' dk_log dk_marks]; rewrite ?Ha; try done.
    - split; [|by rewrite Ha]. rewrite EnforceRetention_drop. cbn [segments]. by apply Forall_drop.
    - intros s Hin. by apply Hsl, Hsub.
    - by rewrite EnforceRetention_drop. }
  split; [done|]. split_and!; [done|by apply (chained_le _ _ _ He)|].
  assert (contents bss kept = concat (take k bss) ++ contents (drop k bss) kept) as ->
    by (unfold contents; rewrite <- (take_drop k bss) at 1; by rewrite concat_app, app_assoc).
  rewrite drop_before_skip by (by eapply chained_below).
  erewrite drop_before_none; [done|by eapply durable_chain|done].
Qed.

Lemma keeps_trans D1 c1 x1 D2 c2 x2 D3 c3 x3 :
  keeps D1 c1 x1 D2 c2 x2 -> keeps D2 c2 x2 D3 c3 x3 -> keeps D1 c1 x1 D3 c3 x3.
Proof.
  intros (H1 & H2 & H3) (G1 & G2 & G3). split_and!; [lia|lia|].
  rewrite <- (drop_before_twice (EarliestOffset (dk_log D2))) by done. etrans; [by apply drop_before_prefix|done].
Qed.

(** ** Every step keeps what is on the disk *)

(** The common end of both append paths. *)
Lemma store_durable {s0} D bss bs kept x b hwm l1 s' :
  let l := dk_log D in
  durable s0 D bss bs kept x -> batch_at (nextOffset l) b -> room l b (next_of b - nextOffset l) -> hwm <= next_of b ->
  (if rollDue l b then roll io_ok (nextOffset l) l else (l, None)) = (l1, None) ->
  append WOk WOk b (nextOffset l) (active l1) = (s', None) ->
  let D' := mkDisk (mkLog (cfg l1) (segments (setActive l1 s')) (next_of b) hwm (holdHWM l1) true)
              (if rollDue l b then rollMarks io_ok (nextOffset l) l (dk_marks D) else dk_marks D) in
  exists bss' bs' kept' x', durable s0 D' bss' bs' kept' x' /\ keeps D (contents bss kept) x D' (contents bss' kept') x'.
Proof.
  intros l HD Hat [R1 R2 R3] Hh Hroll Happ D'. subst l. pose proof (ba_span _ _ Hat). pose proof (du_rep _ _ _ _ _ HD) as Hrep.
  destruct (log_active _ _ _ Hrep) as (Ha & Hb). pose proof (sr_size _ _ _ Ha). pose proof (zlen_nonneg (concat bs)).
  unfold D'. destruct (rollDue (dk_log D) b) eqn:Hd.
  - apply andb_prop in Hd as [Hpos%Z.ltb_lt _]. pose proof (roll_rep _ _ _ _ _ _ Hrep Hpos Hroll) as [(? & _)|(_ & _ & Hm & Hz & Hb1)]; [done|].
    destruct (roll_durable _ _ _ _ _ HD l1 Hpos Hroll) as [HD1 K1]. rewrite <- (sm_next _ _ Hm) in Hat, Happ.
    destruct (append_durable _ _ _ _ _ HD1 b s' hwm Hat) as [HD2 K2]; [cbn [dk_log]; lia..|done|].
    eexists _, _, _, _. split; [exact HD2|]. eapply keeps_trans; [exact K1|exact K2].
  - injection Hroll as <-. destruct (append_durable _ _ _ _ _ HD b s' hwm Hat) as [HD2 K2]; [lia..|done|].
    eexists _, _, _, _. split; [exact HD2|exact K2].
Qed.

(** The next state of the disk, and what is kept. *)
Definition goes_on (s0 : bool) (D : Disk) (bss : list (list (list byte))) (kept : list (list byte)) (x : Z) (D' : Disk) : Prop :=
  exists bss' bs' kept' x', durable s0 D' bss' bs' kept' x' /\ keeps D (contents bss kept) x D' (contents bss' kept') x'.

Lemma AppendD_durable {s0} D bss bs kept x b D' z :
  durable s0 D bss bs kept x -> producer_ok b -> room (dk_log D) b (RecordCount (headerOf b)) ->
  AppendD io_ok b D = Ret (D', (z, None)) -> goes_on s0 D bss kept x D'.
Proof.
  intros HD Hb Hroom. pose proof (du_rep _ _ _ _ _ HD) as Hrep. destruct (log_active _ _ _ Hrep) as (_ & Hlo & Hhi).
  set (l := dk_log D) in *. pose proof (po_wf _ Hb) as Hw. pose proof (po_pos _ Hb).
  destruct (patchBatch_patched b (nextOffset l)) as (b' & Hpatch & Hpt). { pose proof (bw_header _ Hw). layout. lia. }
  destruct (patched_at b (nextOffset l) b' Hb Hpt) as (Hat & Hnext & Hcount); [lia|apply Hroom|].
  assert (zlen b' = zlen b) as Hlen by (unfold zlen; by rewrite (pt_length _ _ _ Hpt)).
  assert (rollDue l b = rollDue l b') as Hdue by (unfold rollDue; by rewrite Hlen).
  assert (room l b' (next_of b' - nextOffset l)) as Hroom' by (destruct Hroom; split; [rewrite Hlen|..]; lia).
  unfold AppendD, Append. fold l. rewrite Hpatch. cbn [mbind go_bind]. rewrite Hdue.
  destruct (if rollDue l b' then roll io_ok (nextOffset l) l else (l, None)) as [l1 [er|]] eqn:Hroll; [done|].
  rewrite (batch_wf_header b') by (by eapply patched_wf). cbn [io_ok io_idx io_log].
  destruct (append WOk WOk b' (nextOffset l) (active l1)) as [s' [er|]] eqn:Happ; [done|].
  assert (int64 (nextOffset l + RecordCount (headerOf b')) = next_of b') as ->
    by (rewrite Hcount, Hnext; apply int64_id; destruct Hroom; solve_int).
  cbn [fst snd]. intros [= <- _].
  destruct (maybe_roll _ _ _ _ _ _ _ Hrep Hroll) as (_ & _ & _ & _ & Hm & _).
  eapply (store_durable D _ _ _ _ b' _ l1 s' HD Hat Hroom'); [|exact Hroll|exact Happ].
  cbn [setActive holdHWM highWatermark]. pose proof (lr_hwm _ _ _ Hrep). rewrite (sm_hwm _ _ Hm). subst l. destruct (holdHWM l1); lia.
Qed.

Lemma AppendReplicaD_durable {s0} D bss bs kept x b D' z :
  durable s0 D bss bs kept x -> batch_at (nextOffset (dk_log D)) b -> room (dk_log D) b (next_of b - nextOffset (dk_log D)) ->
  AppendReplicaD io_ok b D = (D', (z, None)) -> goes_on s0 D bss kept x D'.
Proof.
  intros HD Hat Hroom. pose proof (du_rep _ _ _ _ _ HD) as Hrep. destruct (log_active _ _ _ Hrep) as (_ & Hlo & Hhi).
  set (l := dk_log D) in *. pose proof (ba_span _ _ Hat). unfold AppendReplicaD, AppendReplica. fold l.
  rewrite (batch_wf_header b) by apply Hat. rewrite (ba_base _ _ Hat), Z.ltb_irrefl, Z.eqb_refl. cbn [andb].
  destruct (if rollDue l b then roll io_ok (nextOffset l) l else (l, None)) as [l1 [er|]] eqn:Hroll; [done|]. cbn [io_ok io_idx io_log].
  destruct (append WOk WOk b (nextOffset l) (active l1)) as [s' [er|]] eqn:Happ; [done|].
  assert (int64 (LastOffset (headerOf b) + 1) = next_of b) as -> by (unfold next_of in *; destruct Hroom; apply int64_id; solve_int).
  cbn [fst snd]. intros [= <- _].
  destruct (maybe_roll _ _ _ _ _ _ _ Hrep Hroll) as (_ & _ & _ & _ & Hm & _).
  eapply (store_durable D _ _ _ _ b _ l1 s' HD Hat Hroom); [|exact Hroll|exact Happ].
  cbn [setActive highWatermark]. pose proof (lr_hwm _ _ _ Hrep). rewrite (sm_hwm _ _ Hm). subst l. lia.
Qed.

(** ** Power failures *)

(** Batches carry their length: a file is cut into batches in one way only. *)
Lemma chained_concat_inj o bs bs' n n' : chained o bs n -> chained o bs' n' -> concat bs = concat bs' -> bs = bs'.
Proof.
  assert (forall b r, batch_wf b -> (0 < length (b ++ r))%nat) as Hpos.
  { intros b r Hw. pose proof (bw_header _ Hw). rewrite length_app. layout. lia. }
  revert o bs'. induction bs as [|b bs IH]; intros o [|b' bs'] H1 H2 Heq; [done| | |].
  - destruct H2 as [[Hw _ _] _]. pose proof (Hpos _ (concat bs') Hw) as H. cbn in Heq. rewrite <- Heq in H. cbn in H. lia.
  - destruct H1 as [[Hw _ _] _]. pose proof (Hpos _ (concat bs) Hw) as H. cbn in Heq. rewrite Heq in H. cbn in H. lia.
  - destruct H1 as [[Hw _ _] H1], H2 as [[Hw' _ _] H2]. cbn in Heq.
    assert (headerOf b = headerOf b') as Hh.
    { rewrite <- (headerOf_app b (concat bs)), Heq by apply Hw. by apply headerOf_app, Hw'. }
    assert (length b = length b') as Hlen.
    { pose proof (bw_size _ Hw) as G1. pose proof (bw_size _ Hw') as G2. rewrite Hh, G2 in G1. unfold zlen in G1. lia. }
    apply app_inj_1 in Heq as [-> Heq]; [|done]. f_equal. by eapply IH.
Qed.

(** A prefix of a file that reaches behind [kept] is some whole batches from
    [kept] on and, maybe, a torn one. *)
Lemma prefix_concat {A} (f : list A) bs kept :
  f `prefix_of` concat bs -> kept `prefix_of` bs -> (length (concat kept) <= length f)%nat ->
  exists got lost t, bs = got ++ lost /\ kept `prefix_of` got /\ f = concat got ++ t /\
    (t = [] \/ exists b rest lost', lost = b :: lost' /\ b = t ++ rest /\ rest <> []).
Proof.
  revert f kept. induction bs as [|b bs IH]; intros f kept Hf Hk Hlen.
  - apply prefix_nil_inv in Hf as ->. apply prefix_nil_inv in Hk as ->. exists [], [], []. by split_and!; [..|left].
  - destruct (decide (length b <= length f)%nat) as [Hle|Hgt].
    + assert (exists f', f = b ++ f' /\ f' `prefix_of` concat bs) as (f' & -> & Hf').
      { destruct Hf as [k Hk']. cbn in Hk'. apply (f_equal (take (length f))) in Hk' as Ht. rewrite take_app_length, take_app_ge in Ht by lia.
        exists (take (length f - length b) (concat bs)). split; [done|apply prefix_take]. }
      assert (exists kept', kept' `prefix_of` bs /\ (length (concat kept') <= length f')%nat /\ kept `prefix_of` b :: kept') as (kept' & K1 & K2 & K3).
      { destruct kept as [|b0 kept]; [exists []; split_and!; [apply prefix_nil|cbn; lia|apply prefix_nil]|].
        pose proof (prefix_cons_inv_1 _ _ _ _ Hk) as ->. apply prefix_cons_inv_2 in Hk. exists kept. split_and!; [done| |done].
        cbn in Hlen. rewrite !length_app in Hlen. lia. }
      destruct (IH f' kept' Hf' K1 K2) as (got & lost & t & -> & H2 & -> & H4).
      exists (b :: got), lost, t. split_and!; [done| |cbn; by rewrite app_assoc|done]. etrans; [exact K3|by apply prefix_cons].
    + assert (kept = []) as ->.
      { destruct kept as [|b0 kept]; [done|]. pose proof (prefix_cons_inv_1 _ _ _ _ Hk) as ->. cbn in Hlen. rewrite length_app in Hlen. lia. }
      exists [], (b :: bs), f. split_and!; [done|apply prefix_nil|done|]. right. exists b, (drop (length f) b), bs. split_and!; [done| |].
      * destruct Hf as [k Hk']. cbn in Hk'. apply (f_equal (take (length f))) in Hk'. rewrite take_app_length, take_app_le in Hk' by lia.
        transitivity (take (length f) b ++ drop (length f) b); [by rewrite take_drop|by rewrite Hk'].
      * intros H%(f_equal length). rewrite length_drop in H. cbn in H. lia.
Qed.

Lemma power_crash {s0} D bss bs kept x d :
  durable s0 D bss bs kept x -> power_image D d -> is_Some (d !! logPath (baseOffset (active (dk_log D)))) ->
  exists got lost t, bs = got ++ lost /\ kept `prefix_of` got /\ crash_image (dk_log D) got t d.
Proof.
  intros [Hrep Ht Hk _ Hact Hsl _] [Honly Hfiles Hpa] [f Hd]. destruct (log_active _ _ _ Hrep) as (Ha & _).
  destruct (tidy_active _ _ _ Hrep Ht) as [Hta _]. pose proof (tidy_file _ _ _ Ha Hta) as Hf. pose proof (segments_snoc _ _ _ Hrep) as Hs.
  cbn zeta in Hpa. rewrite Hd in Hpa. destruct Hpa as [Hp Hz].
  rewrite Hf in Hp. rewrite Hact in Hz. destruct (prefix_concat f bs kept Hp Hk) as (got & lost & t & -> & Hg & -> & Htail).
  { unfold zlen in Hz. lia. }
  exists got, lost, t. split_and!; [done|done|]. pose proof (sr_size _ _ _ Ha) as Hsz. pose proof (sr_small _ _ _ Ha) as Hsm.
  rewrite concat_app, zlen_app in Hsz. pose proof (zlen_nonneg (concat lost)). split; [done| |done|].
  - intros i s Hi Hl. assert (s ∈ removelast (segments (dk_log D))) as Hin.
    { rewrite Hs, length_app in Hi. simpl in Hi. rewrite Hs in Hl. apply (list_elem_of_lookup_2 _ i). by rewrite lookup_app_l in Hl by lia. }
    destruct (Hfiles s Hin) as (f1 & x1 & H1 & P1 & L1 & H2 & P2 & L2).
    rewrite (Hsl s Hin) in L1, L2. cbn [fst snd] in L1, L2. unfold zlen in *.
    rewrite H1, H2. rewrite (prefix_length_eq _ _ P1), (prefix_length_eq _ _ P2) by lia. done.
  - destruct Htail as [->|(b & rest & lost' & -> & Hb & Hr)]; [left; split; [done|lia]|]. right. exists b, rest.
    cbn [concat] in Hsz. rewrite zlen_app in Hsz. pose proof (zlen_nonneg (concat lost')).
    split_and!; [|done|done|lia]. pose proof (chained_wf _ _ _ (sr_chain _ _ _ Ha)) as Hw. rewrite Forall_app, Forall_cons in Hw. by apply Hw.
Qed.

(** When the newest file is missing, the log is as it was before the last roll. *)
Definition unrolled (l : Log) : Log :=
  mkLog (cfg l) (removelast (segments l)) (baseOffset (active l)) (baseOffset (active l)) (holdHWM l) (dirty l).

Lemma sealed_unsnoc o cs s bss m : sealed o (cs ++ [s]) bss m ->
  exists bss0 bs0, bss = bss0 ++ [bs0] /\ sealed o cs bss0 (baseOffset s) /\ seg_rep s bs0 m.
Proof.
  revert o bss. induction cs as [|c cs IH]; intros o [|bs bss]; cbn [app sealed]; try done.
  - intros (<- & _ & x & Hr & Hs). destruct bss; [|done]. cbn in Hs. subst x. exists [], bs. done.
  - intros (<- & Hne & x & Hr & Hs). destruct (IH x bss Hs) as (bss0 & bs0 & -> & H1 & H2).
    exists (bs :: bss0), bs0. split; [done|]. split; [|done]. cbn [sealed]. split; [done|]. split; [done|by exists x].
Qed.

Lemma unrolled_rep l bss bs : log_rep l bss bs -> removelast (segments l) <> [] ->
  exists bss0 bs0, bss = bss0 ++ [bs0] /\ log_rep (unrolled l) bss0 bs0 /\ EarliestOffset (unrolled l) = EarliestOffset l.
Proof.
  intros [(cs & a & Hs & Hc & Ha) _] Hne. unfold unrolled, active. rewrite Hs, removelast_last, last_snoc_default in *.
  destruct cs as [|s cs _] using rev_ind; [done|]. destruct (sealed_unsnoc _ _ _ _ _ Hc) as (bss0 & bs0 & -> & H1 & H2).
  exists bss0, bs0. assert (EarliestOffset l = baseOffset (default noSegment (head (cs ++ [s])))) as He.
  { unfold EarliestOffset, firstSegment. rewrite Hs. by destruct cs. }
  split; [done|]. split; [|by rewrite He]. split; [|done]. exists cs, s. split; [done|]. split; [|done].
  replace (EarliestOffset _) with (EarliestOffset l) by (by rewrite He). done.
Qed.

(** The newest file is missing: nothing of it was kept. *)
Lemma power_unrolled {s0} D bss bs kept x d :
  durable s0 D bss bs kept x -> power_image D d -> d !! logPath (baseOffset (active (dk_log D))) = None ->
  kept = [] /\ x = baseOffset (active (dk_log D)) /\
  ((bss = [] /\ x = 0 /\ EarliestOffset (dk_log D) = 0 /\ listSegmentBases d = []) \/
   exists bss0 bs0, bss = bss0 ++ [bs0] /\ log_rep (unrolled (dk_log D)) bss0 bs0 /\
     EarliestOffset (unrolled (dk_log D)) = EarliestOffset (dk_log D) /\ Forall seg_tidy (segments (unrolled (dk_log D))) /\
     crash_image (unrolled (dk_log D)) bs0 [] d).
Proof.
  intros HD [Honly Hfiles Hpa] Hd. cbn zeta in Hpa. rewrite Hd in Hpa. destruct Hpa as [Hm Hne].
  pose proof HD as [Hrep Ht Hk Hend Hact Hsl _]. pose proof (segments_snoc _ _ _ Hrep) as Hs.
  assert (kept = []) as ->.
  { unfold marksOf in Hact. rewrite Hm in Hact. cbn in Hact. destruct kept as [|b kept]; [done|]. destruct Hend as [[Hw _] _].
    cbn in Hact. rewrite zlen_app in Hact. pose proof (bw_header _ Hw). pose proof (zlen_nonneg (concat kept)). layout. unfold zlen in *. lia. }
  cbn in Hend. split_and!; [done|done|].
  assert (forall name b, is_Some (d !! name) -> entryBase name = Some b ->
    exists s, s ∈ removelast (segments (dk_log D)) /\ b = baseOffset s /\ name = logPath b) as Honly'.
  { intros name b Hn Eb. destruct (Honly name b Hn Eb) as (s & Hin & -> & ->). exists s. split; [|done].
    rewrite Hs in Hin. apply elem_of_app in Hin as [Hin|Hin%list_elem_of_singleton]; [done|]. subst s. rewrite Hd in Hn. by destruct Hn. }
  destruct (removelast (segments (dk_log D))) as [|s1 sl] eqn:Er.
  - left. destruct Hne as [?|H0]; [done|]. pose proof Hrep as [(cs & a & Hs' & Hc & _) _]. rewrite Hs in Hs'.
    apply app_inj_tail in Hs' as [<- <-]. destruct bss; [|done]. cbn in Hc. split_and!; [done|lia|lia|].
    apply listSegmentBases_exact; [constructor|constructor| |intros b Hb; by apply not_elem_of_nil in Hb].
    intros name b Hn Eb. destruct (Honly' name b Hn Eb) as (s & Hin & _). by apply not_elem_of_nil in Hin.
  - right. rewrite <- Er in *. destruct (unrolled_rep _ _ _ Hrep) as (bss0 & bs0 & -> & Hrep0 & He); [by rewrite Er|].
    assert (Forall seg_tidy (segments (unrolled (dk_log D)))) as Ht0.
    { destruct Ht as [Ht _]. rewrite Hs in Ht. by apply Forall_app in Ht as [Ht _]. }
    exists bss0, bs0. split_and!; [done..|].
    assert (forall s, s ∈ removelast (segments (dk_log D)) ->
      d !! logPath (baseOffset s) = Some (logFile s) /\ d !! indexPath (baseOffset s) = Some (idxFile s)) as Hwhole.
    { intros s Hin. destruct (Hfiles s Hin) as (f1 & x1 & H1 & P1 & L1 & H2 & P2 & L2). rewrite (Hsl s Hin) in L1, L2. cbn [fst snd] in L1, L2.
      unfold zlen in *. rewrite H1, H2. rewrite (prefix_length_eq _ _ P1), (prefix_length_eq _ _ P2) by lia. done. }
    pose proof (segments_snoc _ _ _ Hrep0) as Hs0. destruct (log_active _ _ _ Hrep0) as (Ha0 & _).
    assert (active (unrolled (dk_log D)) ∈ removelast (segments (dk_log D))) as Hin0.
    { change (removelast (segments (dk_log D))) with (segments (unrolled (dk_log D))). rewrite Hs0. apply elem_of_app. right. by left. }
    split; [done| | |].
    + intros i s _ Hi. apply Hwhole. by eapply list_elem_of_lookup_2.
    + rewrite app_nil_r, (proj1 (Hwhole _ Hin0)). f_equal. apply (tidy_file _ _ _ Ha0). rewrite Forall_forall in Ht0. by apply Ht0.
    + left. split; [done|]. pose proof (sr_size _ _ _ Ha0). pose proof (sr_small _ _ _ Ha0). lia.
Qed.

Lemma marksOf_flushed segs s :
  NoDup (map baseOffset segs) -> s ∈ segs -> marksOf (baseOffset s) (foldr flush ∅ segs) = (zlen (logFile s), zlen (idxFile s)).
Proof.
  induction segs as [|s0 segs IH]; cbn [map foldr]; [set_solver|]. intros [Hn Hnd]%NoDup_cons [->|Hin]%elem_of_cons; [apply marksOf_flush|].
  rewrite marksOf_flush_ne; [by apply IH|]. intros Heq. apply Hn. rewrite <- Heq. by apply list_elem_of_fmap_2.
Qed.

Lemma bases_NoDup l bss bs : log_rep l bss bs -> NoDup (map baseOffset (removelast (segments l))).
Proof.
  intros [(cs & a & -> & Hc & _) _]. rewrite removelast_last. destruct (sealed_bases _ _ _ _ Hc) as [Hs _].
  apply StronglySorted_app_1_l in Hs. clear -Hs. induction Hs as [|b bs Hs IH Hb]; constructor; [|done].
  intros Hin. rewrite Forall_forall in Hb. specialize (Hb _ Hin). lia.
Qed.

Lemma afterOpen_durable d l bss bs : log_rep l bss bs -> tidy l -> is_Some (d !! logPath (baseOffset (active l))) ->
  durable true (afterOpen d l) bss bs bs (nextOffset l).
Proof.
  intros Hrep Ht [f Hf]. destruct (log_active _ _ _ Hrep) as (Ha & _). unfold afterOpen. rewrite Hf. split; cbn [dk_log dk_marks]; try done.
  - apply Ha.
  - unfold marksOf. rewrite lookup_insert_eq. cbn. apply (f_equal zlen), (tidy_file _ _ _ Ha). by apply (tidy_active _ _ _ Hrep).
  - intros s Hin. pose proof (sealed_below _ _ _ _ Hrep Hin). rewrite marksOf_insert_ne by lia.
    apply marksOf_flushed; [by eapply bases_NoDup|done].
Qed.

Lemma freshDisk_durable c : durable true (freshDisk c) [] [] [] 0.
Proof.
  split; try done; [apply freshLog_rep|split; [by constructor|done]|]. intros s Hin. by apply not_elem_of_nil in Hin.
Qed.

(** Opening keeps the segment bases. *)
Lemma same_active l l' bss bs bs' : log_rep l bss bs -> log_rep l' bss bs' -> EarliestOffset l' = EarliestOffset l ->
  baseOffset (active l') = baseOffset (active l).
Proof.
  intros [(cs & a & Hs & Hc & _) _] [(cs' & a' & Hs' & Hc' & _) _] He. unfold active. rewrite Hs, Hs', !last_snoc_default.
  rewrite He in Hc'. by apply (chained_det _ _ _ _ (sealed_contents _ _ _ _ Hc') (sealed_contents _ _ _ _ Hc)).
Qed.

Lemma keeps_contents {s0} D bss bs kept x l bss' bs' :
  durable s0 D bss bs kept x -> log_rep l bss' bs' -> EarliestOffset l = EarliestOffset (dk_log D) ->
  contents bss kept `prefix_of` contents bss' bs' -> forall m, keeps D (contents bss kept) x (mkDisk l m) (contents bss' bs') (nextOffset l).
Proof.
  intros HD Hrep' He [r Hr] m. rewrite Hr. eapply keeps_more; [exact HD|exact He|].
  pose proof (durable_chain _ _ _ _ _ HD) as H1. pose proof (log_contents _ _ _ Hrep') as H2. rewrite Hr, He in H2.
  apply chained_app in H2 as (n & H2 & H3). rewrite (chained_det _ _ _ _ H1 H2). by eapply chained_le.
Qed.

(** Whatever a power failure leaves can be opened, and all that was on the disk is
    in the log again; when that was everything, so is the log end. *)
Lemma power_open {s0} D bss bs kept x d :
  durable s0 D bss bs kept x -> power_image D d ->
  exists l bss' bs', Open open_ok d (cfg (dk_log D)) = Ret (inl l) /\ durable true (afterOpen d l) bss' bs' bs' (nextOffset l) /\
    keeps D (contents bss kept) x (afterOpen d l) (contents bss' bs') (nextOffset l) /\ EarliestOffset l = EarliestOffset (dk_log D) /\
    (kept = bs -> contents bss' bs' = contents bss bs /\ nextOffset l = nextOffset (dk_log D)).
Proof.
  intros HD Hd. pose proof (du_rep _ _ _ _ _ HD) as Hrep. pose proof (log_active _ _ _ Hrep) as (Ha & _).
  destruct (d !! logPath (baseOffset (active (dk_log D)))) as [f|] eqn:Ef.
  - destruct (power_crash _ _ _ _ _ _ HD Hd ltac:(by eexists)) as (got & lost & t & -> & [r ->] & Hci).
    destruct (Open_spec _ _ _ _ _ _ (cfg (dk_log D)) Hrep (proj1 (du_tidy _ _ _ _ _ HD)) Hci) as (l & Ho & Hrep' & Ht' & _ & _ & He & Hl).
    exists l, bss, (kept ++ r). split_and!; [done| | |done|].
    + apply afterOpen_durable; [done|done|]. rewrite (same_active _ _ _ _ _ Hrep Hrep' He), Ef. by eexists.
    + eapply keeps_contents; [exact HD|done|done|]. unfold contents. rewrite app_assoc. by eexists.
    + intros Hk. assert (r = [] /\ lost = []) as [-> ->].
      { apply (f_equal length) in Hk. rewrite !length_app in Hk. split; apply length_zero_iff_nil; lia. }
      split; [by rewrite !app_nil_r|by apply Hl].
  - destruct (power_unrolled _ _ _ _ _ _ HD Hd Ef) as (-> & Hx & [(-> & Hx0 & He & Hb)|(bss0 & bs0 & -> & Hrep0 & He & Ht0 & Hci)]).
    + exists (freshLog (cfg (dk_log D))), [], []. split_and!.
      * unfold Open. cbn [open_ok o_mkdir o_readdir o_create negb]. by rewrite Hb.
      * assert (afterOpen d (freshLog (cfg (dk_log D))) = freshDisk (cfg (dk_log D))) as ->; [|apply freshDisk_durable].
        unfold afterOpen, freshDisk. cbn. rewrite Hx in Hx0. by rewrite <- Hx0, Ef.
      * split_and!; [cbn; lia|cbn; lia|done].
      * by rewrite He.
      * intros <-. split; [done|]. pose proof (sr_chain _ _ _ Ha) as Hch. cbn in *. lia.
    + rewrite <- (app_nil_r bs0) in Hrep0.
      destruct (Open_spec _ _ _ _ _ _ (cfg (dk_log D)) Hrep0 Ht0 Hci) as (l & Ho & Hrep' & Ht' & _ & _ & He' & Hl). rewrite app_nil_r in Hrep0.
      exists l, bss0, bs0. split_and!; [done| | |by rewrite He'|].
      * apply afterOpen_durable; [done|done|]. rewrite (same_active _ _ _ _ _ Hrep0 Hrep' He'), (ci_active _ _ _ _ Hci). by eexists.
      * eapply keeps_contents; [exact HD|done|by rewrite He'|]. unfold contents. rewrite concat_app. cbn. by rewrite !app_nil_r.
      * intros <-. split; [unfold contents; rewrite concat_app; cbn; by rewrite !app_nil_r|]. rewrite Hl by done. cbn.
        pose proof (sr_chain _ _ _ Ha) as Hch. by cbn in Hch.
Qed.

Lemma power_durable {s0} D bss bs kept x d :
  durable s0 D bss bs kept x -> power_image D d ->
  exists l, Open open_ok d (cfg (dk_log D)) = Ret (inl l) /\ goes_on true D bss kept x (afterOpen d l).
Proof.
  intros HD Hd. destruct (power_open _ _ _ _ _ _ HD Hd) as (l & bss' & bs' & Ho & H1 & H2 & _).
  exists l. split; [done|]. by exists bss', bs', bs', (nextOffset l).
Qed.

(** ** A killed process *)

(** The sealed segments of an opened log are the files as they are. *)
Lemma openAll_files e d interval bases segs : openAll e d interval bases = inl segs ->
  Forall (fun s => d !! logPath (baseOffset s) = Some (logFile s) /\ idxFile s = default [] (d !! indexPath (baseOffset s))) segs.
Proof.
  revert segs. induction bases as [|b bases IH]; intros segs; cbn [openAll]; [by intros [= <-]|].
  unfold openSegmentAt. destruct (d !! logPath b) as [f|] eqn:Ef; [|done]. destruct (o_open e b); [|done].
  destruct (openAll e d interval bases) as [ss|er] eqn:Ess; [|done]. intros [= <-]. constructor; [by split|by apply IH].
Qed.

Lemma Open_files d c l s : Open open_ok d c = Ret (inl l) -> s ∈ removelast (segments l) ->
  d !! logPath (baseOffset s) = Some (logFile s) /\ idxFile s = default [] (d !! indexPath (baseOffset s)).
Proof.
  unfold Open. cbn [open_ok o_mkdir o_readdir o_create negb]. fold open_ok.
  destruct (listSegmentBases d) as [|b0 bs]; [intros [= <-] H; by apply not_elem_of_nil in H|].
  destruct (openAll open_ok d _ (b0 :: bs)) as [segs|er] eqn:Eo; [|done].
  destruct (recoverActive _ _) as [[s' [next [er|]]]| |]; try done. cbn [mbind go_bind]. intros [= <-]. cbn [segments setActive].
  rewrite removelast_last. intros Hin. apply openAll_files in Eo. rewrite Forall_forall in Eo. apply Eo.
  destruct segs as [|s1 segs _] using rev_ind; [done|]. rewrite removelast_last in Hin. apply elem_of_app. by left.
Qed.

Lemma marksOf_alter b b' m : (marksOf b (alter (fun v => (v.1, 0)) b' m)).1 = (marksOf b m).1.
Proof.
  unfold marksOf. destruct (decide (b = b')) as [->|Hne]; [rewrite lookup_alter_eq; by destruct (m !! b')|by rewrite lookup_alter_ne].
Qed.

(** All is in the files, and what was on the disk still is; the opened log counts as
    clean all the same. *)
Lemma kill_durable {s0} D bss bs kept x t d l :
  durable s0 D bss bs kept x -> crash_image (dk_log D) bs t d -> Open open_ok d (cfg (dk_log D)) = Ret (inl l) ->
  durable false (reopened D l) bss bs kept x /\ keeps D (contents bss kept) x (reopened D l) (contents bss kept) x /\ log_rep l bss bs /\
  nextOffset l = nextOffset (dk_log D).
Proof.
  intros HD Hci Ho. pose proof HD as [Hrep Ht Hk Hend Hact Hsl _]. rewrite <- (app_nil_r bs) in Hrep.
  destruct (Open_spec _ _ _ _ _ _ (cfg (dk_log D)) Hrep (proj1 Ht) Hci) as (l' & Ho' & Hrep' & Ht' & _ & _ & He & Hl). rewrite app_nil_r in Hrep.
  rewrite Ho in Ho'. injection Ho' as <-. pose proof (same_active _ _ _ _ _ Hrep Hrep' He) as Hb.
  split_and!; [|by eapply keeps_same|done|by apply Hl]. split; cbn [reopened dk_log dk_marks]; rewrite ?Hb, ?marksOf_alter; try done.
  intros s Hin. pose proof (sealed_below _ _ _ _ Hrep' Hin) as [Hlt _]. destruct (Open_files _ _ _ _ Ho Hin) as [Hf1 Hf2].
  assert (in_int 64 (baseOffset s)) as H64.
  { assert (s ∈ segments l) as [i Hi]%list_elem_of_lookup by (rewrite (segments_snoc _ _ _ Hrep'); apply elem_of_app; by left).
    destruct (segments_lookup _ _ _ Hrep' i s Hi) as (? & ? & _ & Hr & _). pose proof (sr_base _ _ _ Hr).
    destruct (log_active _ _ _ Hrep') as (_ & _ & ?). solve_int. }
  destruct (ci_only _ _ _ _ Hci (logPath (baseOffset s)) (baseOffset s)) as (s1 & Hin1 & Hb1 & _); [by eexists|by apply entryBase_logPath|].
  assert (s1 ∈ removelast (segments (dk_log D))) as Hin2.
  { rewrite (segments_snoc _ _ _ Hrep) in Hin1. apply elem_of_app in Hin1 as [?|Hin1%list_elem_of_singleton]; [done|]. subst s1. lia. }
  assert (d !! logPath (baseOffset s1) = Some (logFile s1) /\ d !! indexPath (baseOffset s1) = Some (idxFile s1)) as [G1 G2].
  { pose proof Hrep as [(cs & a & Hs & _) _]. apply (proj1 (crash_lookup _ _ _ _ _ _ Hci Hs)). by rewrite Hs, removelast_last in Hin2. }
  rewrite Hb1 in *. rewrite G1 in Hf1. injection Hf1 as Hf1. rewrite G2 in Hf2. cbn in Hf2. rewrite <- Hf1, Hf2, <- (Hsl s1 Hin2).
  unfold marksOf. by rewrite lookup_alter_ne by lia.
Qed.

Lemma dstep_durable {s0} D D' bss bs kept x : durable s0 D bss bs kept x -> dstep D D' -> goes_on s0 D bss kept x D'.
Proof.
  intros HD Hstep. pose proof (du_rep _ _ _ _ _ HD) as Hrep. destruct Hstep as [D2 [b D1 z Hb Hr H|b D1 z Hb Hr H|h| |ok|now mt age maxB]|d l Hd Ho].
  - by eapply AppendD_durable.
  - by eapply AppendReplicaD_durable.
  - destruct (SetHighWatermark_rep h _ _ _ Hrep) as (Hr & _ & _ & Hs). exists bss, bs, kept, x. apply (durable_meta _ _ _ _ _ HD); [done|done|].
    unfold SetHighWatermark. by destruct (_ <? _).
  - exists bss, bs, kept, x. apply (durable_meta _ _ _ _ _ HD); [|done..]. by destruct Hrep.
  - destruct (FlushD ok D) as [D' r] eqn:E. destruct (FlushD_durable _ _ _ _ _ HD ok D' r E) as (kept' & x' & H1 & H2 & _).
    exists bss, bs, kept', x'. split; [|done]. destruct H1 as [? ? ? ? ? ? Hc]. split; try done. intros ->. by apply Hc.
  - destruct (retain_durable _ _ _ _ _ now mt age maxB HD) as (bss' & H1 & H2). exists bss', bs, kept, x. done.
  - destruct (power_durable _ _ _ _ _ _ HD Hd) as (l' & Ho' & bss' & bs' & kept' & x' & H1 & H2). rewrite Ho in Ho'. simplify_eq.
    exists bss', bs', kept', x'. split; [|done]. destruct H1 as [? ? ? ? ? ? Hc]. split; try done. intros _. by apply Hc.
Qed.

Lemma dsteps_durable {s0} D D' bss bs kept x : durable s0 D bss bs kept x -> rtc dstep D D' -> goes_on s0 D bss kept x D'.
Proof.
  intros HD Hsteps. revert bss bs kept x HD. induction Hsteps as [D|D D1 D2 Hstep _ IH]; intros bss bs kept x HD.
  - exists bss, bs, kept, x. split; [done|]. by eapply keeps_same.
  - destruct (dstep_durable _ _ _ _ _ _ HD Hstep) as (bss1 & bs1 & kept1 & x1 & H1 & K1).
    destruct (IH _ _ _ _ H1) as (bss2 & bs2 & kept2 & x2 & H2 & K2). exists bss2, bs2, kept2, x2. split; [done|by eapply keeps_trans].
Qed.

Lemma durable_weaken {s0} D bss bs kept x : durable s0 D bss bs kept x -> durable false D bss bs kept x.
Proof. intros []. by split. Qed.

Lemma kstep_durable D D' bss bs kept x : durable false D bss bs kept x -> kstep D D' -> goes_on false D bss kept x D'.
Proof.
  intros HD [D1 Hstep|bss1 bs1 t d l Hrep Hci Ho]; [by eapply dstep_durable|].
  assert (bs1 = bs) as ->; [|exists bss, bs, kept, x; by destruct (kill_durable _ _ _ _ _ _ _ _ HD Hci Ho) as (? & ? & _)].
  destruct (log_active _ _ _ Hrep) as [Ha1 _]. destruct (log_active _ _ _ (du_rep _ _ _ _ _ HD)) as [Ha2 _].
  apply (chained_concat_inj (baseOffset (active (dk_log D))) _ _ (nextOffset (dk_log D)) (nextOffset (dk_log D))); [apply Ha1|apply Ha2|].
  destruct (tidy_active _ _ _ Hrep (du_tidy _ _ _ _ _ HD)) as [Hta _].
  by rewrite <- (tidy_file _ _ _ Ha1 Hta), <- (tidy_file _ _ _ Ha2 Hta).
Qed.

Lemma ksteps_durable D D' bss bs kept x : durable false D bss bs kept x -> rtc kstep D D' -> goes_on false D bss kept x D'.
Proof.
  intros HD Hsteps. revert bss bs kept x HD. induction Hsteps as [D|D D1 D2 Hstep _ IH]; intros bss bs kept x HD.
  - exists bss, bs, kept, x. split; [done|]. by eapply keeps_same.
  - destruct (kstep_durable _ _ _ _ _ _ HD Hstep) as (bss1 & bs1 & kept1 & x1 & H1 & K1).
    destruct (IH _ _ _ _ H1) as (bss2 & bs2 & kept2 & x2 & H2 & K2). exists bss2, bs2, kept2, x2. split; [done|by eapply keeps_trans].
Qed.

(** ** The process goes on *)

(** A step of the process is a step of the log. *)
Lemma lstep_log D D' : lstep D D' -> log_step (dk_log D) (dk_log D').
Proof.
  intros [b D1 z Hb Hr H|b D1 z Hb Hr H|h| |ok|now mt age maxB].
  - unfold AppendD in H. destruct (Append io_ok b (dk_log D)) as [r| |] eqn:E; try done. injection H as <- _. destruct r as [l' r].
    by eapply step_append.
  - unfold AppendReplicaD in H. injection H as <- _. destruct (AppendReplica io_ok b (dk_log D)) as [l' r] eqn:E. by eapply step_replica.
  - apply step_hwm.
  - apply step_hold.
  - unfold FlushD. cbn. apply step_flush.
  - apply step_retain.
Qed.

(** As long as the process lives, nothing is lost: what the log held stays, but for
    what retention removes. *)
Lemma lsteps_evolve D D' bss bs : log_rep (dk_log D) bss bs -> rtc lstep D D' ->
  exists bss' bs', log_rep (dk_log D') bss' bs' /\ evolves (dk_log D) (contents bss bs) (dk_log D') (contents bss' bs').
Proof.
  intros Hrep Hs. apply log_steps_inv; [done|]. clear Hrep. induction Hs as [D|D D1 D2 H _ IH]; [apply rtc_refl|].
  eapply rtc_l; [by apply lstep_log|done].
Qed.

Lemma seg_rep_det s bs n bs' n' : seg_rep s bs n -> seg_rep s bs' n' -> bs = bs'.
Proof.
  intros R1 R2. apply (chained_concat_inj (baseOffset s) _ _ n n'); [apply R1|apply R2|].
  destruct (sr_data _ _ _ R1) as [j1 H1], (sr_data _ _ _ R2) as [j2 H2]. rewrite H1 in H2. pose proof (sr_size _ _ _ R1) as S1. rewrite (sr_size _ _ _ R2) in S1.
  apply app_inj_1 in H2 as [H2 _]; [done|]. unfold zlen in S1. lia.
Qed.

(** What a log holds is in its files. *)
Lemma log_contents_det l bss bs bss' bs' : log_rep l bss bs -> log_rep l bss' bs' -> contents bss bs = contents bss' bs'.
Proof.
  intros [(cs & a & Hs & Hc & Ha) _] [(cs' & a' & Hs' & Hc' & Ha') _]. rewrite Hs in Hs'. apply app_inj_tail in Hs' as [<- <-].
  unfold contents. f_equal; [|by eapply seg_rep_det]. f_equal. clear -Hc Hc'. revert bss bss' Hc Hc'. generalize (EarliestOffset l).
  induction cs as [|s cs IH]; intros o [|b bss] [|b' bss'] H1 H2; cbn in H1, H2; try done.
  destruct H1 as (<- & _ & x & R1 & S1), H2 as (_ & _ & x' & R2 & S2). pose proof (seg_rep_det _ _ _ _ _ R1 R2) as ->. f_equal.
  rewrite (chained_det _ _ _ _ (sr_chain _ _ _ R1) (sr_chain _ _ _ R2)) in S1. by eapply IH.
Qed.

Lemma lsteps_dsteps D D' : rtc lstep D D' -> rtc dstep D D'.
Proof. induction 1; [done|]. eapply rtc_l; [by apply d_live|done]. Qed.

(** The configuration stays. *)
Lemma dstep_cfg D D' : dstep D D' -> cfg (dk_log D') = cfg (dk_log D).
Proof.
  assert (forall e z l, cfg (fst (roll e z l)) = cfg l) as Hroll by (intros e z l; unfold roll; by destruct (io_flush e), (io_create e)).
  assert (forall (c : bool) e z l, cfg (fst (if c then roll e z l else (l, None))) = cfg l) as Hif by (intros []; done).
  intros [D2 [b D1 z _ _ Ha|b D1 z _ _ Ha|h| |ok|now mt age maxB]|d l _ Ho].
  - unfold AppendD, Append in Ha. destruct (patchBatch b _) as [b'| |]; [|done|done]. cbn [mbind go_bind] in Ha.
    specialize (Hif (rollDue (dk_log D) b') io_ok (nextOffset (dk_log D)) (dk_log D)).
    destruct (if rollDue _ b' then _ else _) as [l1 [er|]]; [done|]. cbn [fst] in Hif. destruct (ParseHeader b') as [h [er|]]; [done|].
    destruct (append _ _ _ _ _) as [s' [er|]]; [done|]. injection Ha as <- _. exact Hif.
  - unfold AppendReplicaD, AppendReplica in Ha. destruct (ParseHeader b) as [h [er|]]; [done|].
    destruct (_ <? _); [by injection Ha as <- _|]. destruct (_ <? _); [done|].
    specialize (Hif (rollDue (dk_log D) b) io_ok (BaseOffset h) (dk_log D)).
    destruct (if rollDue _ b then roll _ _ _ else _) as [l1 [er|]]; [done|]. cbn [fst] in Hif.
    destruct (append _ _ _ _ _) as [s' [er|]]; [done|]. injection Ha as <- _. exact Hif.
  - cbn. unfold SetHighWatermark. by destruct (_ <? _).
  - done.
  - unfold FlushD, Flush. cbn. by destruct (negb (dirty _)), (negb ok).
  - cbn. unfold EnforceRetention. by destruct (_ <=? _)%nat.
  - unfold Open in Ho. cbn [open_ok o_mkdir o_readdir o_create negb] in Ho.
    destruct (listSegmentBases d) as [|b0 bs]; [by injection Ho as <-|]. destruct (openAll _ _ _ _) as [segs|er]; [|done].
    destruct (recoverActive _ _) as [[s' [next [er|]]]| |]; try done. by injection Ho as <-.
Qed.

Lemma dsteps_cfg D D' : rtc dstep D D' -> cfg (dk_log D') = cfg (dk_log D).
Proof. induction 1 as [D|D D1 D2 H1 _ IH]; [done|]. by rewrite IH, (dstep_cfg _ _ H1). Qed.

(** ** Properties *)


(** ** Concrete power failures *)

(** The files of a log of one segment. *)
Definition oneSegment (f x : list byte) : dir := <[logPath 0 := f]> (<[indexPath 0 := x]> ∅).

Lemma power_image_one D s f x :
  segments (dk_log D) = [s] -> baseOffset s = 0 -> f `prefix_of` logFile s ->
  (marksOf 0 (dk_marks D)).1 <= zlen f -> power_image D (oneSegment f x).
Proof.
  intros Hs Hb Hf Hm1. assert (active (dk_log D) = s) as Ha by (unfold active; by rewrite Hs). split.
  - apply (entryBase_only _ (fun name b => exists s, s ∈ segments (dk_log D) /\ b = baseOffset s /\ name = logPath b)).
    apply map_Forall_insert_2; [|apply map_Forall_insert_2; [by vm_compute|apply map_Forall_empty]].
    rewrite entryBase_logPath by solve_int. exists s. rewrite Hs, Hb. split_and!; [by left|done|done].
  - intros s'. rewrite Hs. intros H. by apply not_elem_of_nil in H.
  - cbn zeta. rewrite Ha, Hb. unfold oneSegment. by rewrite lookup_insert_eq.
Qed.

(** A log of one segment that was never synced: nothing need be left. *)
Lemma power_image_none D s : segments (dk_log D) = [s] -> baseOffset s = 0 -> dk_marks D !! 0 = None -> power_image D ∅.
Proof.
  intros Hs Hb Hm. assert (active (dk_log D) = s) as Ha by (unfold active; by rewrite Hs). split.
  - intros name b [? ?]. done.
  - intros s'. rewrite Hs. intros H. by apply not_elem_of_nil in H.
  - cbn zeta. rewrite Ha, Hb, lookup_empty. split; [done|by right].
Qed.

(** One batch, flushed, and one more that is not. *)
Definition runD (b : list byte) (D : Disk) : Disk := match AppendD io_ok b D with Ret (D', _) => D' | _ => D end.
Definition demoFlushed : Disk := fst (FlushD true (runD demoBatch1 (freshDisk demoConfig))).
Definition demoUnflushed : Disk := runD demoBatch2 demoFlushed.

Lemma runD_step b D :
  batch_wfb b && (RecordCount (headerOf b) =? LastOffsetDelta (headerOf b) + 1) && (1 <=? RecordCount (headerOf b)) = true ->
  room (dk_log D) b (RecordCount (headerOf b)) ->
  (exists D' z, AppendD io_ok b D = Ret (D', (z, None))) -> lstep D (runD b D).
Proof. intros Hb Hr (D' & z & H). unfold runD. rewrite H. eapply d_append; [|done|exact H]. by apply producer_okb. Qed.

(** The power fails in the middle of writing the second batch back. *)
Definition demoOutage : dir :=
  let a := active (dk_log demoUnflushed) in oneSegment (take 90 (logFile a)) (idxFile a).

Lemma demo_step1 : dstep (freshDisk demoConfig) (runD demoBatch1 (freshDisk demoConfig)).
Proof. apply d_live, runD_step; [vm_compute; reflexivity|split; vm_compute; reflexivity|eexists _, _; vm_compute; reflexivity]. Qed.

Lemma demo_lstep2 : lstep demoFlushed demoUnflushed.
Proof. apply runD_step; [vm_compute; reflexivity|split; vm_compute; reflexivity|eexists _, _; vm_compute; reflexivity]. Qed.

Lemma demo_step2 : dstep demoFlushed demoUnflushed.
Proof. apply d_live, demo_lstep2. Qed.

Lemma demo_outage : power_image demoUnflushed demoOutage.
Proof.
  eapply power_image_one; [vm_compute; reflexivity|reflexivity|apply prefix_take|vm_compute; discriminate].
Qed.


(** [Flush] does nothing after a restart.  A batch is appended and the process is
    killed: the batch is in the file and is recovered, but it was never forced to
    the disk, and the opened log is clean.  [Flush] reports success, and a power
    failure still takes the batch. *)
Theorem restart_forgets_to_sync :
  let D := runD demoBatch1 (freshDisk demoConfig) in
  exists l1 D2 l2, Open open_ok (diskOf (dk_log D)) demoConfig = Ret (inl l1) /\ nextOffset l1 = 3 /\
    FlushD true (reopened D l1) = (D2, None) /\ power_image D2 ∅ /\
    Open open_ok ∅ demoConfig = Ret (inl l2) /\ nextOffset l2 = 0.
Proof.
  cbn zeta. do 3 eexists. split; [vm_compute; reflexivity|]. split; [vm_compute; reflexivity|]. split; [vm_compute; reflexivity|].
  split; [|split; vm_compute; reflexivity].
  eapply power_image_none; vm_compute; reflexivity.
Qed.

(** [Close] reports success and forces nothing to the disk. *)
Theorem close_does_not_sync :
  let D := runD demoBatch1 (freshDisk demoConfig) in
  CloseD (fun _ => (None, None)) D = (D, None) /\ nextOffset (dk_log D) = 3 /\ power_image D ∅.
Proof.
  split; [vm_compute; reflexivity|]. split; [vm_compute; reflexivity|]. eapply power_image_none; vm_compute; reflexivity.
Qed.
