(* ===== verification/Protocol.v ===== *)
(** * internal/protocol: requests, responses and their per-version layouts

    One record per Go struct, one [_Decode] or [_Encode] per method, with the
    version guards of the source.  A decoder reads from a [Reader] (the monad
    [rd]); a field that a version does not carry keeps its zero value.  The
    second half states what the decoders are for: they invert the layouts of the
    Kafka protocol at every supported version, and they are safe on any bytes. *)

From S2P Require Import Prelude Kbytes.
Open Scope wr_scope.

(** ** apikeys.go *)

Definition APIProduce : Z := 0.
Definition APIFetch : Z := 1.
Definition APIListOffsets : Z := 2.
Definition APIMetadata : Z := 3.
Definition APIOffsetCommit : Z := 8.
Definition APIOffsetFetch : Z := 9.
Definition APIFindCoordinator : Z := 10.
Definition APIJoinGroup : Z := 11.
Definition APIHeartbeat : Z := 12.
Definition APILeaveGroup : Z := 13.
Definition APISyncGroup : Z := 14.
Definition APIDescribeGroups : Z := 15.
Definition APIListGroups : Z := 16.
Definition APIApiVersions : Z := 18.
Definition APICreateTopics : Z := 19.
Definition APICreatePartitions : Z := 37.

Record VersionRange := mkRange { vr_APIKey : Z; vr_Min : Z; vr_Max : Z }.

Definition SupportedVersions : list VersionRange := [
  mkRange APIProduce 0 7; mkRange APIFetch 0 11; mkRange APIListOffsets 0 5; mkRange APIMetadata 0 8;
  mkRange APIOffsetCommit 0 6; mkRange APIOffsetFetch 0 5; mkRange APIFindCoordinator 0 2;
  mkRange APIJoinGroup 0 4; mkRange APIHeartbeat 0 2; mkRange APILeaveGroup 0 2; mkRange APISyncGroup 0 2;
  mkRange APIDescribeGroups 0 2; mkRange APIListGroups 0 2; mkRange APIApiVersions 0 2;
  mkRange APICreateTopics 0 4; mkRange APICreatePartitions 0 1].

Fixpoint supported_loop (vs : list VersionRange) (apiKey : Z) : option VersionRange :=
  match vs with
  | [] => None
  | v :: vs => if vr_APIKey v =? apiKey then Some v else supported_loop vs apiKey
  end.
Definition Supported (apiKey : Z) : option VersionRange := supported_loop SupportedVersions apiKey.

(** The Kafka error codes mq answers. *)
Definition CodeNone : Z := 0.
Definition CodeOffsetOutOfRange : Z := 1.
Definition CodeUnknownTopicOrPart : Z := 3.
Definition CodeNotLeader : Z := 6.
Definition CodeRequestTimedOut : Z := 7.
Definition CodeNotCoordinator : Z := 16.
Definition CodeIllegalGeneration : Z := 22.
Definition CodeUnknownMemberID : Z := 25.
Definition CodeRebalanceInProgress : Z := 27.
Definition CodeUnsupportedVersion : Z := 35.
Definition CodeTopicAlreadyExists : Z := 36.
Definition CodeInvalidPartitions : Z := 37.

(** ** header.go *)

Record RequestHeader := mkRequestHeader {
  rh_APIKey : Z; rh_APIVersion : Z; rh_CorrelationID : Z; rh_ClientID : option string }.

Definition DecodeRequestHeader : rd RequestHeader :=
  k ← Int16; v ← Int16; c ← Int32; id ← NullableString; mret (mkRequestHeader k v c id).

Definition WriteResponseHeader (correlationID : Z) : wr := wInt32 correlationID.

(** ** apiversions.go *)

Record ApiVersionsResponse := mkApiVersionsResponse {
  av_ErrorCode : Z; av_Versions : list VersionRange; av_ThrottleTime : Z }.

Definition VersionRange_Encode (v : VersionRange) : wr :=
  wInt16 (vr_APIKey v) ;> wInt16 (vr_Min v) ;> wInt16 (vr_Max v).

Definition ApiVersionsResponse_Encode (version : Z) (resp : ApiVersionsResponse) : wr :=
  wInt16 (av_ErrorCode resp) ;> wArray (av_Versions resp) VersionRange_Encode ;>
  wwhen (1 <=? version) (wInt32 (av_ThrottleTime resp)).

(** ** metadata.go *)

Record MetadataRequest := mkMetadataRequest { mr_Topics : list string; mr_AllTopics : bool }.

Definition MetadataRequest_Decode (version : Z) : rd MetadataRequest :=
  n ← ArrayLen;
  if n =? 0 then mret (mkMetadataRequest [] true)
  else topics ← rd_repeat (Z.to_nat n) String_; mret (mkMetadataRequest topics false).

Record MetadataBroker := mkMetadataBroker { mb_NodeID : Z; mb_Host : string; mb_Port : Z }.
Record MetadataPartition := mkMetadataPartition {
  mp_ErrorCode : Z; mp_Index : Z; mp_Leader : Z; mp_LeaderEpoch : Z; mp_Replicas : list Z; mp_Isr : list Z }.
Record MetadataTopic := mkMetadataTopic {
  mt_ErrorCode : Z; mt_Name : string; mt_IsInternal : bool; mt_Partitions : list MetadataPartition }.
Record MetadataResponse := mkMetadataResponse {
  mresp_ThrottleTime : Z; mresp_Brokers : list MetadataBroker; mresp_ClusterID : option string;
  mresp_ControllerID : Z; mresp_Topics : list MetadataTopic }.

Definition MetadataBroker_Encode (version : Z) (b : MetadataBroker) : wr :=
  wInt32 (mb_NodeID b) ;> wString (mb_Host b) ;> wInt32 (mb_Port b) ;>
  wwhen (1 <=? version) (wNullableString None).

Definition MetadataPartition_Encode (version : Z) (p : MetadataPartition) : wr :=
  wInt16 (mp_ErrorCode p) ;> wInt32 (mp_Index p) ;> wInt32 (mp_Leader p) ;>
  wwhen (7 <=? version) (wInt32 (mp_LeaderEpoch p)) ;>
  wArray (mp_Replicas p) wInt32 ;> wArray (mp_Isr p) wInt32 ;>
  wwhen (5 <=? version) (wArrayLen 0).

Definition MetadataTopic_Encode (version : Z) (t : MetadataTopic) : wr :=
  wInt16 (mt_ErrorCode t) ;> wString (mt_Name t) ;> wwhen (1 <=? version) (wBool (mt_IsInternal t)) ;>
  wArray (mt_Partitions t) (MetadataPartition_Encode version) ;>
  wwhen (8 <=? version) (wInt32 (-1)).

Definition MetadataResponse_Encode (version : Z) (resp : MetadataResponse) : wr :=
  wwhen (3 <=? version) (wInt32 (mresp_ThrottleTime resp)) ;>
  wArray (mresp_Brokers resp) (MetadataBroker_Encode version) ;>
  wwhen (2 <=? version) (wNullableString (mresp_ClusterID resp)) ;>
  wwhen (1 <=? version) (wInt32 (mresp_ControllerID resp)) ;>
  wArray (mresp_Topics resp) (MetadataTopic_Encode version) ;>
  wwhen (8 <=? version) (wInt32 (-1)).

(** ** produce.go *)

Record ProducePartition := mkProducePartition { pp_Index : Z; pp_Records : option (list byte) }.
Record ProduceTopic := mkProduceTopic { pt_Name : string; pt_Partitions : list ProducePartition }.
Record ProduceRequest := mkProduceRequest {
  pr_TransactionalID : option string; pr_Acks : Z; pr_TimeoutMs : Z; pr_Topics : list ProduceTopic }.

Definition ProducePartition_Decode : rd ProducePartition :=
  i ← Int32; recs ← Bytes; mret (mkProducePartition i recs).
Definition ProduceTopic_Decode : rd ProduceTopic :=
  name ← String_; ps ← rd_array ProducePartition_Decode; mret (mkProduceTopic name ps).
Definition ProduceRequest_Decode (version : Z) : rd ProduceRequest :=
  txn ← rd_when (3 <=? version) None NullableString;
  acks ← Int16; timeout ← Int32; topics ← rd_array ProduceTopic_Decode;
  mret (mkProduceRequest txn acks timeout topics).

Record ProducePartitionResp := mkProducePartitionResp {
  ppr_Index : Z; ppr_ErrorCode : Z; ppr_BaseOffset : Z; ppr_LogAppendTime : Z; ppr_LogStartOffset : Z }.
Record ProduceTopicResp := mkProduceTopicResp { ptr_Name : string; ptr_Partitions : list ProducePartitionResp }.
Record ProduceResponse := mkProduceResponse { presp_Topics : list ProduceTopicResp; presp_ThrottleTime : Z }.

Definition ProducePartitionResp_Encode (version : Z) (p : ProducePartitionResp) : wr :=
  wInt32 (ppr_Index p) ;> wInt16 (ppr_ErrorCode p) ;> wInt64 (ppr_BaseOffset p) ;>
  wwhen (2 <=? version) (wInt64 (ppr_LogAppendTime p)) ;>
  wwhen (5 <=? version) (wInt64 (ppr_LogStartOffset p)).
Definition ProduceTopicResp_Encode (version : Z) (t : ProduceTopicResp) : wr :=
  wString (ptr_Name t) ;> wArray (ptr_Partitions t) (ProducePartitionResp_Encode version).
Definition ProduceResponse_Encode (version : Z) (resp : ProduceResponse) : wr :=
  wArray (presp_Topics resp) (ProduceTopicResp_Encode version) ;>
  wwhen (1 <=? version) (wInt32 (presp_ThrottleTime resp)).

(** ** fetch.go *)

Record FetchPartition := mkFetchPartition {
  fp_Partition : Z; fp_FetchOffset : Z; fp_LogStartOffset : Z; fp_MaxBytes : Z }.
Record FetchTopic := mkFetchTopic { ft_Name : string; ft_Partitions : list FetchPartition }.
Record FetchRequest := mkFetchRequest {
  fr_ReplicaID : Z; fr_MaxWaitMs : Z; fr_MinBytes : Z; fr_MaxBytes : Z; fr_IsolationLevel : Z;
  fr_SessionID : Z; fr_SessionEpoch : Z; fr_Topics : list FetchTopic }.

Definition FetchPartition_Decode (version : Z) : rd FetchPartition :=
  p ← Int32; _ ← rd_when (9 <=? version) 0 Int32; off ← Int64;
  start ← rd_when (5 <=? version) 0 Int64; max ← Int32;
  mret (mkFetchPartition p off start max).
Definition FetchTopic_Decode (version : Z) : rd FetchTopic :=
  name ← String_; ps ← rd_array (FetchPartition_Decode version); mret (mkFetchTopic name ps).
Definition FetchRequest_Decode (version : Z) : rd FetchRequest :=
  replica ← Int32; wait ← Int32; minb ← Int32;
  maxb ← rd_when (3 <=? version) 0 Int32; iso ← rd_when (4 <=? version) 0 Int8;
  sid ← rd_when (7 <=? version) 0 Int32; sep ← rd_when (7 <=? version) 0 Int32;
  topics ← rd_array (FetchTopic_Decode version);
  mret (mkFetchRequest replica wait minb maxb iso sid sep topics).

Record FetchPartitionResp := mkFetchPartitionResp {
  fpr_Partition : Z; fpr_ErrorCode : Z; fpr_HighWatermark : Z; fpr_LastStable : Z;
  fpr_LogStartOffset : Z; fpr_Records : option (list byte) }.
Record FetchTopicResp := mkFetchTopicResp { ftr_Name : string; ftr_Partitions : list FetchPartitionResp }.
Record FetchResponse := mkFetchResponse {
  fresp_ThrottleTime : Z; fresp_ErrorCode : Z; fresp_SessionID : Z; fresp_Topics : list FetchTopicResp }.

Definition FetchPartitionResp_Encode (version : Z) (p : FetchPartitionResp) : wr :=
  wInt32 (fpr_Partition p) ;> wInt16 (fpr_ErrorCode p) ;> wInt64 (fpr_HighWatermark p) ;>
  wwhen (4 <=? version) (wInt64 (fpr_LastStable p)) ;>
  wwhen (5 <=? version) (wInt64 (fpr_LogStartOffset p)) ;>
  wwhen (4 <=? version) (wArrayLen 0) ;>
  wwhen (11 <=? version) (wInt32 (-1)) ;>
  wBytes (fpr_Records p).
Definition FetchTopicResp_Encode (version : Z) (t : FetchTopicResp) : wr :=
  wString (ftr_Name t) ;> wArray (ftr_Partitions t) (FetchPartitionResp_Encode version).
Definition FetchResponse_Encode (version : Z) (resp : FetchResponse) : wr :=
  wwhen (1 <=? version) (wInt32 (fresp_ThrottleTime resp)) ;>
  wwhen (7 <=? version) (wInt16 (fresp_ErrorCode resp) ;> wInt32 (fresp_SessionID resp)) ;>
  wArray (fresp_Topics resp) (FetchTopicResp_Encode version).

(** ** listoffsets.go *)

Definition TimestampLatest : Z := -1.
Definition TimestampEarliest : Z := -2.

Record ListOffsetsPartition := mkListOffsetsPartition { lp_Index : Z; lp_Timestamp : Z; lp_MaxNumOffsets : Z }.
Record ListOffsetsTopic := mkListOffsetsTopic { lt_Name : string; lt_Partitions : list ListOffsetsPartition }.
Record ListOffsetsRequest := mkListOffsetsRequest {
  lr_ReplicaID : Z; lr_IsolationLevel : Z; lr_Topics : list ListOffsetsTopic }.

Definition ListOffsetsPartition_Decode (version : Z) : rd ListOffsetsPartition :=
  i ← Int32; _ ← rd_when (4 <=? version) 0 Int32; ts ← Int64;
  n ← rd_when (version =? 0) 0 Int32; mret (mkListOffsetsPartition i ts n).
Definition ListOffsetsTopic_Decode (version : Z) : rd ListOffsetsTopic :=
  name ← String_; ps ← rd_array (ListOffsetsPartition_Decode version); mret (mkListOffsetsTopic name ps).
Definition ListOffsetsRequest_Decode (version : Z) : rd ListOffsetsRequest :=
  replica ← Int32; iso ← rd_when (2 <=? version) 0 Int8;
  topics ← rd_array (ListOffsetsTopic_Decode version); mret (mkListOffsetsRequest replica iso topics).

Record ListOffsetsPartitionResp := mkListOffsetsPartitionResp {
  lpr_Index : Z; lpr_ErrorCode : Z; lpr_Timestamp : Z; lpr_Offset : Z }.
Record ListOffsetsTopicResp := mkListOffsetsTopicResp {
  ltr_Name : string; ltr_Partitions : list ListOffsetsPartitionResp }.
Record ListOffsetsResponse := mkListOffsetsResponse { lresp_ThrottleTime : Z; lresp_Topics : list ListOffsetsTopicResp }.

Definition ListOffsetsPartitionResp_Encode (version : Z) (p : ListOffsetsPartitionResp) : wr :=
  wInt32 (lpr_Index p) ;> wInt16 (lpr_ErrorCode p) ;>
  (if version =? 0 then wArrayLen 1 ;> wInt64 (lpr_Offset p)
   else wInt64 (lpr_Timestamp p) ;> wInt64 (lpr_Offset p) ;> wwhen (4 <=? version) (wInt32 (-1))).
Definition ListOffsetsTopicResp_Encode (version : Z) (t : ListOffsetsTopicResp) : wr :=
  wString (ltr_Name t) ;> wArray (ltr_Partitions t) (ListOffsetsPartitionResp_Encode version).
Definition ListOffsetsResponse_Encode (version : Z) (resp : ListOffsetsResponse) : wr :=
  wwhen (2 <=? version) (wInt32 (lresp_ThrottleTime resp)) ;>
  wArray (lresp_Topics resp) (ListOffsetsTopicResp_Encode version).

(** ** group.go *)

Record FindCoordinatorRequest := mkFindCoordinatorRequest { fc_Key : string; fc_KeyType : Z }.
Definition FindCoordinatorRequest_Decode (version : Z) : rd FindCoordinatorRequest :=
  key ← String_; kt ← rd_when (1 <=? version) 0 Int8; mret (mkFindCoordinatorRequest key kt).

Record FindCoordinatorResponse := mkFindCoordinatorResponse {
  fcr_ThrottleTime : Z; fcr_ErrorCode : Z; fcr_ErrorMessage : option string;
  fcr_NodeID : Z; fcr_Host : string; fcr_Port : Z }.
Definition FindCoordinatorResponse_Encode (version : Z) (resp : FindCoordinatorResponse) : wr :=
  wwhen (1 <=? version) (wInt32 (fcr_ThrottleTime resp)) ;> wInt16 (fcr_ErrorCode resp) ;>
  wwhen (1 <=? version) (wNullableString (fcr_ErrorMessage resp)) ;>
  wInt32 (fcr_NodeID resp) ;> wString (fcr_Host resp) ;> wInt32 (fcr_Port resp).

Record JoinGroupProtocol := mkJoinGroupProtocol { jp_Name : string; jp_Metadata : option (list byte) }.
Record JoinGroupRequest := mkJoinGroupRequest {
  jg_GroupID : string; jg_SessionTimeout : Z; jg_RebalanceTimeout : Z; jg_MemberID : string;
  jg_ProtocolType : string; jg_Protocols : list JoinGroupProtocol }.
Definition JoinGroupProtocol_Decode : rd JoinGroupProtocol :=
  name ← String_; md ← Bytes; mret (mkJoinGroupProtocol name md).
Definition JoinGroupRequest_Decode (version : Z) : rd JoinGroupRequest :=
  gid ← String_; session ← Int32; rebalance ← rd_when (1 <=? version) 0 Int32;
  mid ← String_; ptype ← String_; protocols ← rd_array JoinGroupProtocol_Decode;
  mret (mkJoinGroupRequest gid session rebalance mid ptype protocols).

Record JoinGroupMember := mkJoinGroupMember { jm_MemberID : string; jm_Metadata : option (list byte) }.
Record JoinGroupResponse := mkJoinGroupResponse {
  jr_ThrottleTime : Z; jr_ErrorCode : Z; jr_GenerationID : Z; jr_ProtocolName : string;
  jr_Leader : string; jr_MemberID : string; jr_Members : list JoinGroupMember }.
Definition JoinGroupMember_Encode (m : JoinGroupMember) : wr :=
  wString (jm_MemberID m) ;> wBytes (jm_Metadata m).
Definition JoinGroupResponse_Encode (version : Z) (resp : JoinGroupResponse) : wr :=
  wwhen (2 <=? version) (wInt32 (jr_ThrottleTime resp)) ;> wInt16 (jr_ErrorCode resp) ;>
  wInt32 (jr_GenerationID resp) ;> wString (jr_ProtocolName resp) ;> wString (jr_Leader resp) ;>
  wString (jr_MemberID resp) ;> wArray (jr_Members resp) JoinGroupMember_Encode.

Record SyncGroupAssignment := mkSyncGroupAssignment { sa_MemberID : string; sa_Assignment : option (list byte) }.
Record SyncGroupRequest := mkSyncGroupRequest {
  sg_GroupID : string; sg_GenerationID : Z; sg_MemberID : string; sg_Assignments : list SyncGroupAssignment }.
Definition SyncGroupAssignment_Decode : rd SyncGroupAssignment :=
  mid ← String_; a ← Bytes; mret (mkSyncGroupAssignment mid a).
Definition SyncGroupRequest_Decode (version : Z) : rd SyncGroupRequest :=
  gid ← String_; gen ← Int32; mid ← String_; asg ← rd_array SyncGroupAssignment_Decode;
  mret (mkSyncGroupRequest gid gen mid asg).

Record SyncGroupResponse := mkSyncGroupResponse {
  sgr_ThrottleTime : Z; sgr_ErrorCode : Z; sgr_Assignment : option (list byte) }.
Definition SyncGroupResponse_Encode (version : Z) (resp : SyncGroupResponse) : wr :=
  wwhen (1 <=? version) (wInt32 (sgr_ThrottleTime resp)) ;> wInt16 (sgr_ErrorCode resp) ;>
  wBytes (sgr_Assignment resp).

Record HeartbeatRequest := mkHeartbeatRequest { hb_GroupID : string; hb_GenerationID : Z; hb_MemberID : string }.
Definition HeartbeatRequest_Decode (version : Z) : rd HeartbeatRequest :=
  gid ← String_; gen ← Int32; mid ← String_; mret (mkHeartbeatRequest gid gen mid).
Record HeartbeatResponse := mkHeartbeatResponse { hbr_ThrottleTime : Z; hbr_ErrorCode : Z }.
Definition HeartbeatResponse_Encode (version : Z) (resp : HeartbeatResponse) : wr :=
  wwhen (1 <=? version) (wInt32 (hbr_ThrottleTime resp)) ;> wInt16 (hbr_ErrorCode resp).

Record LeaveGroupRequest := mkLeaveGroupRequest { lg_GroupID : string; lg_MemberID : string }.
Definition LeaveGroupRequest_Decode (version : Z) : rd LeaveGroupRequest :=
  gid ← String_; mid ← String_; mret (mkLeaveGroupRequest gid mid).
Record LeaveGroupResponse := mkLeaveGroupResponse { lgr_ThrottleTime : Z; lgr_ErrorCode : Z }.
Definition LeaveGroupResponse_Encode (version : Z) (resp : LeaveGroupResponse) : wr :=
  wwhen (1 <=? version) (wInt32 (lgr_ThrottleTime resp)) ;> wInt16 (lgr_ErrorCode resp).

(** ** offsets.go *)

Record OffsetCommitPartition := mkOffsetCommitPartition {
  oc_Index : Z; oc_Offset : Z; oc_LeaderEpoch : Z; oc_Metadata : option string }.
Record OffsetCommitTopic := mkOffsetCommitTopic { oct_Name : string; oct_Partitions : list OffsetCommitPartition }.
Record OffsetCommitRequest := mkOffsetCommitRequest {
  ocr_GroupID : string; ocr_GenerationID : Z; ocr_MemberID : string; ocr_Topics : list OffsetCommitTopic }.
Definition OffsetCommitPartition_Decode (version : Z) : rd OffsetCommitPartition :=
  i ← Int32; off ← Int64; _ ← rd_when (version =? 1) 0 Int64;
  epoch ← rd_when (6 <=? version) 0 Int32; md ← NullableString;
  mret (mkOffsetCommitPartition i off epoch md).
Definition OffsetCommitTopic_Decode (version : Z) : rd OffsetCommitTopic :=
  name ← String_; ps ← rd_array (OffsetCommitPartition_Decode version); mret (mkOffsetCommitTopic name ps).
Definition OffsetCommitRequest_Decode (version : Z) : rd OffsetCommitRequest :=
  gid ← String_;
  gen ← rd_when (1 <=? version) 0 Int32; mid ← rd_when (1 <=? version) ""%string String_;
  _ ← rd_when ((2 <=? version) && (version <=? 4)) 0 Int64;
  topics ← rd_array (OffsetCommitTopic_Decode version);
  mret (mkOffsetCommitRequest gid gen mid topics).

Record OffsetCommitPartitionResp := mkOffsetCommitPartitionResp { ocp_Index : Z; ocp_ErrorCode : Z }.
Record OffsetCommitTopicResp := mkOffsetCommitTopicResp {
  octr_Name : string; octr_Partitions : list OffsetCommitPartitionResp }.
Record OffsetCommitResponse := mkOffsetCommitResponse { ocs_ThrottleTime : Z; ocs_Topics : list OffsetCommitTopicResp }.
Definition OffsetCommitPartitionResp_Encode (p : OffsetCommitPartitionResp) : wr :=
  wInt32 (ocp_Index p) ;> wInt16 (ocp_ErrorCode p).
Definition OffsetCommitTopicResp_Encode (t : OffsetCommitTopicResp) : wr :=
  wString (octr_Name t) ;> wArray (octr_Partitions t) OffsetCommitPartitionResp_Encode.
Definition OffsetCommitResponse_Encode (version : Z) (resp : OffsetCommitResponse) : wr :=
  wwhen (3 <=? version) (wInt32 (ocs_ThrottleTime resp)) ;>
  wArray (ocs_Topics resp) OffsetCommitTopicResp_Encode.

Record OffsetFetchTopic := mkOffsetFetchTopic { oft_Name : string; oft_Partitions : list Z }.
Record OffsetFetchRequest := mkOffsetFetchRequest {
  ofr_GroupID : string; ofr_AllTopics : bool; ofr_Topics : list OffsetFetchTopic }.
Definition OffsetFetchTopic_Decode : rd OffsetFetchTopic :=
  name ← String_; ps ← rd_array Int32; mret (mkOffsetFetchTopic name ps).
Definition OffsetFetchRequest_Decode (version : Z) : rd OffsetFetchRequest :=
  gid ← String_; n ← Int32;
  if n <? 0 then mret (mkOffsetFetchRequest gid true [])
  else fun r =>
    if zlen (Remaining r) <? n then (mkOffsetFetchRequest gid false [], r)
    else (topics ← rd_repeat (Z.to_nat n) OffsetFetchTopic_Decode;
          mret (mkOffsetFetchRequest gid false topics)) r.

Record OffsetFetchPartitionResp := mkOffsetFetchPartitionResp {
  ofp_Index : Z; ofp_Offset : Z; ofp_LeaderEpoch : Z; ofp_Metadata : option string; ofp_ErrorCode : Z }.
Record OffsetFetchTopicResp := mkOffsetFetchTopicResp {
  oftr_Name : string; oftr_Partitions : list OffsetFetchPartitionResp }.
Record OffsetFetchResponse := mkOffsetFetchResponse {
  ofs_ThrottleTime : Z; ofs_Topics : list OffsetFetchTopicResp; ofs_ErrorCode : Z }.
Definition OffsetFetchPartitionResp_Encode (version : Z) (p : OffsetFetchPartitionResp) : wr :=
  wInt32 (ofp_Index p) ;> wInt64 (ofp_Offset p) ;>
  wwhen (5 <=? version) (wInt32 (ofp_LeaderEpoch p)) ;>
  wNullableString (ofp_Metadata p) ;> wInt16 (ofp_ErrorCode p).
Definition OffsetFetchTopicResp_Encode (version : Z) (t : OffsetFetchTopicResp) : wr :=
  wString (oftr_Name t) ;> wArray (oftr_Partitions t) (OffsetFetchPartitionResp_Encode version).
Definition OffsetFetchResponse_Encode (version : Z) (resp : OffsetFetchResponse) : wr :=
  wwhen (3 <=? version) (wInt32 (ofs_ThrottleTime resp)) ;>
  wArray (ofs_Topics resp) (OffsetFetchTopicResp_Encode version) ;>
  wwhen (2 <=? version) (wInt16 (ofs_ErrorCode resp)).

(** ** describegroups.go, listgroups.go *)

Record DescribeGroupsRequest := mkDescribeGroupsRequest { dg_Groups : list string }.
Definition DescribeGroupsRequest_Decode (version : Z) : rd DescribeGroupsRequest :=
  gs ← rd_array String_; mret (mkDescribeGroupsRequest gs).

Record DescribeGroupsMember := mkDescribeGroupsMember {
  dgm_MemberID : string; dgm_ClientID : string; dgm_ClientHost : string;
  dgm_Metadata : option (list byte); dgm_Assignment : option (list byte) }.
Record DescribeGroupsGroup := mkDescribeGroupsGroup {
  dgg_ErrorCode : Z; dgg_GroupID : string; dgg_State : string; dgg_ProtocolType : string;
  dgg_Protocol : string; dgg_Members : list DescribeGroupsMember }.
Record DescribeGroupsResponse := mkDescribeGroupsResponse {
  dgr_ThrottleTime : Z; dgr_Groups : list DescribeGroupsGroup }.
Definition DescribeGroupsMember_Encode (m : DescribeGroupsMember) : wr :=
  wString (dgm_MemberID m) ;> wString (dgm_ClientID m) ;> wString (dgm_ClientHost m) ;>
  wBytes (dgm_Metadata m) ;> wBytes (dgm_Assignment m).
Definition DescribeGroupsGroup_Encode (g : DescribeGroupsGroup) : wr :=
  wInt16 (dgg_ErrorCode g) ;> wString (dgg_GroupID g) ;> wString (dgg_State g) ;>
  wString (dgg_ProtocolType g) ;> wString (dgg_Protocol g) ;>
  wArray (dgg_Members g) DescribeGroupsMember_Encode.
Definition DescribeGroupsResponse_Encode (version : Z) (resp : DescribeGroupsResponse) : wr :=
  wwhen (1 <=? version) (wInt32 (dgr_ThrottleTime resp)) ;>
  wArray (dgr_Groups resp) DescribeGroupsGroup_Encode.

Definition ListGroupsRequest_Decode (version : Z) : rd unit := mret tt.
Record ListGroupsGroup := mkListGroupsGroup { lgg_GroupID : string; lgg_ProtocolType : string }.
Record ListGroupsResponse := mkListGroupsResponse {
  lgs_ThrottleTime : Z; lgs_ErrorCode : Z; lgs_Groups : list ListGroupsGroup }.
Definition ListGroupsGroup_Encode (g : ListGroupsGroup) : wr :=
  wString (lgg_GroupID g) ;> wString (lgg_ProtocolType g).
Definition ListGroupsResponse_Encode (version : Z) (resp : ListGroupsResponse) : wr :=
  wwhen (1 <=? version) (wInt32 (lgs_ThrottleTime resp)) ;> wInt16 (lgs_ErrorCode resp) ;>
  wArray (lgs_Groups resp) ListGroupsGroup_Encode.

(** ** createtopics.go, createpartitions.go *)

Record CreateTopicsTopic := mkCreateTopicsTopic { ct_Name : string; ct_NumPartitions : Z; ct_ReplicationFactor : Z }.
Record CreateTopicsRequest := mkCreateTopicsRequest {
  ctr_Topics : list CreateTopicsTopic; ctr_TimeoutMs : Z; ctr_ValidateOnly : bool }.
Definition CreateTopicsAssignment_skip : rd (Z * list Z) :=
  p ← Int32; bs ← rd_array Int32; mret (p, bs).
Definition CreateTopicsConfig_skip : rd (string * option string) :=
  k ← String_; v ← NullableString; mret (k, v).
Definition CreateTopicsTopic_Decode : rd CreateTopicsTopic :=
  name ← String_; n ← Int32; rf ← Int16;
  _ ← rd_array CreateTopicsAssignment_skip; _ ← rd_array CreateTopicsConfig_skip;
  mret (mkCreateTopicsTopic name n rf).
Definition CreateTopicsRequest_Decode (version : Z) : rd CreateTopicsRequest :=
  topics ← rd_array CreateTopicsTopic_Decode; timeout ← Int32;
  v ← rd_when (1 <=? version) 0 Int8;
  mret (mkCreateTopicsRequest topics timeout (negb (v =? 0))).

Record CreateTopicsTopicResp := mkCreateTopicsTopicResp {
  cttr_Name : string; cttr_ErrorCode : Z; cttr_ErrorMessage : option string }.
Record CreateTopicsResponse := mkCreateTopicsResponse { cts_ThrottleTime : Z; cts_Topics : list CreateTopicsTopicResp }.
Definition CreateTopicsTopicResp_Encode (version : Z) (t : CreateTopicsTopicResp) : wr :=
  wString (cttr_Name t) ;> wInt16 (cttr_ErrorCode t) ;>
  wwhen (1 <=? version) (wNullableString (cttr_ErrorMessage t)).
Definition CreateTopicsResponse_Encode (version : Z) (resp : CreateTopicsResponse) : wr :=
  wwhen (2 <=? version) (wInt32 (cts_ThrottleTime resp)) ;>
  wArray (cts_Topics resp) (CreateTopicsTopicResp_Encode version).

Record CreatePartitionsTopic := mkCreatePartitionsTopic { cp_Name : string; cp_Count : Z }.
Record CreatePartitionsRequest := mkCreatePartitionsRequest {
  cpr_Topics : list CreatePartitionsTopic; cpr_TimeoutMs : Z; cpr_ValidateOnly : bool }.
Definition CreatePartitionsTopic_Decode : rd CreatePartitionsTopic :=
  name ← String_; n ← Int32; _ ← rd_array (rd_array Int32); mret (mkCreatePartitionsTopic name n).
Definition CreatePartitionsRequest_Decode (version : Z) : rd CreatePartitionsRequest :=
  topics ← rd_array CreatePartitionsTopic_Decode; timeout ← Int32; v ← Int8;
  mret (mkCreatePartitionsRequest topics timeout (negb (v =? 0))).

Record CreatePartitionsTopicResp := mkCreatePartitionsTopicResp {
  cptr_Name : string; cptr_ErrorCode : Z; cptr_ErrorMessage : option string }.
Record CreatePartitionsResponse := mkCreatePartitionsResponse {
  cps_ThrottleTime : Z; cps_Topics : list CreatePartitionsTopicResp }.
Definition CreatePartitionsTopicResp_Encode (t : CreatePartitionsTopicResp) : wr :=
  wString (cptr_Name t) ;> wInt16 (cptr_ErrorCode t) ;> wNullableString (cptr_ErrorMessage t).
Definition CreatePartitionsResponse_Encode (version : Z) (resp : CreatePartitionsResponse) : wr :=
  wInt32 (cps_ThrottleTime resp) ;> wArray (cps_Topics resp) CreatePartitionsTopicResp_Encode.

(** ** The layouts of the Kafka protocol

    What a client sends, field by field, at each version: the specification the
    decoders are checked against.  [_ok version] says that the fields fit their
    wire types and that the fields the version lacks have their zero value. *)

Definition ProducePartition_layout (p : ProducePartition) : wr := wInt32 (pp_Index p) ;> wBytes (pp_Records p).
Definition ProduceTopic_layout (t : ProduceTopic) : wr :=
  wString (pt_Name t) ;> wArray (pt_Partitions t) ProducePartition_layout.
Definition ProduceRequest_layout (v : Z) (q : ProduceRequest) : wr :=
  wwhen (3 <=? v) (wNullableString (pr_TransactionalID q)) ;> wInt16 (pr_Acks q) ;> wInt32 (pr_TimeoutMs q) ;>
  wArray (pr_Topics q) ProduceTopic_layout.

Definition ProducePartition_ok (p : ProducePartition) : Prop := in_int 32 (pp_Index p) /\ blob_fits (pp_Records p).
Definition ProduceTopic_ok (t : ProduceTopic) : Prop :=
  str_fits (pt_Name t) /\ arr_fits (pt_Partitions t) /\ Forall ProducePartition_ok (pt_Partitions t).
Definition ProduceRequest_ok (v : Z) (q : ProduceRequest) : Prop :=
  nstr_fits (pr_TransactionalID q) /\ ((3 <=? v) = false -> pr_TransactionalID q = None) /\
  in_int 16 (pr_Acks q) /\ in_int 32 (pr_TimeoutMs q) /\ arr_fits (pr_Topics q) /\ Forall ProduceTopic_ok (pr_Topics q).

#[export] Instance codec_ProducePartition : Codec ProducePartition_layout ProducePartition_Decode ProducePartition_ok.
Proof. apply codec_RTn. intros [i r] [H1 H2]. cbn in *. unfold ProducePartition_layout, ProducePartition_Decode. wire. Qed.
#[export] Instance codec_ProduceTopic : Codec ProduceTopic_layout ProduceTopic_Decode ProduceTopic_ok.
Proof. apply codec_RTn. intros [n ps] (H1 & H2 & H3). cbn in *. unfold ProduceTopic_layout, ProduceTopic_Decode. wire. Qed.
Lemma ProduceRequest_RT v q : ProduceRequest_ok v q -> RT (ProduceRequest_layout v q) (ProduceRequest_Decode v) q.
Proof.
  destruct q as [txn acks tm ts]. intros (H1 & H2 & H3 & H4 & H5 & H6). cbn in *.
  unfold ProduceRequest_layout, ProduceRequest_Decode. wire.
Qed.

Definition FetchPartition_layout (v epoch : Z) (p : FetchPartition) : wr :=
  wInt32 (fp_Partition p) ;> wwhen (9 <=? v) (wInt32 epoch) ;> wInt64 (fp_FetchOffset p) ;>
  wwhen (5 <=? v) (wInt64 (fp_LogStartOffset p)) ;> wInt32 (fp_MaxBytes p).
Definition FetchTopic_layout (v epoch : Z) (t : FetchTopic) : wr :=
  wString (ft_Name t) ;> wArray (ft_Partitions t) (FetchPartition_layout v epoch).
Definition FetchRequest_layout (v epoch : Z) (q : FetchRequest) : wr :=
  wInt32 (fr_ReplicaID q) ;> wInt32 (fr_MaxWaitMs q) ;> wInt32 (fr_MinBytes q) ;>
  wwhen (3 <=? v) (wInt32 (fr_MaxBytes q)) ;> wwhen (4 <=? v) (wInt8 (fr_IsolationLevel q)) ;>
  wwhen (7 <=? v) (wInt32 (fr_SessionID q)) ;> wwhen (7 <=? v) (wInt32 (fr_SessionEpoch q)) ;>
  wArray (fr_Topics q) (FetchTopic_layout v epoch).

Definition FetchPartition_ok (v : Z) (p : FetchPartition) : Prop :=
  in_int 32 (fp_Partition p) /\ in_int 64 (fp_FetchOffset p) /\ in_int 64 (fp_LogStartOffset p) /\
  ((5 <=? v) = false -> fp_LogStartOffset p = 0) /\ in_int 32 (fp_MaxBytes p).
Definition FetchTopic_ok (v : Z) (t : FetchTopic) : Prop :=
  str_fits (ft_Name t) /\ arr_fits (ft_Partitions t) /\ Forall (FetchPartition_ok v) (ft_Partitions t).
Definition FetchRequest_ok (v : Z) (q : FetchRequest) : Prop :=
  in_int 32 (fr_ReplicaID q) /\ in_int 32 (fr_MaxWaitMs q) /\ in_int 32 (fr_MinBytes q) /\
  in_int 32 (fr_MaxBytes q) /\ ((3 <=? v) = false -> fr_MaxBytes q = 0) /\
  in_int 8 (fr_IsolationLevel q) /\ ((4 <=? v) = false -> fr_IsolationLevel q = 0) /\
  in_int 32 (fr_SessionID q) /\ ((7 <=? v) = false -> fr_SessionID q = 0) /\
  in_int 32 (fr_SessionEpoch q) /\ ((7 <=? v) = false -> fr_SessionEpoch q = 0) /\
  arr_fits (fr_Topics q) /\ Forall (FetchTopic_ok v) (fr_Topics q).

#[export] Instance codec_FetchPartition v epoch : in_int 32 epoch ->
  Codec (FetchPartition_layout v epoch) (FetchPartition_Decode v) (FetchPartition_ok v).
Proof.
  intros He. apply codec_RTn. intros [p o s m] (H1 & H2 & H3 & H4 & H5). cbn in *.
  unfold FetchPartition_layout, FetchPartition_Decode. eapply RTn_seq; [by apply RTn_int32|].
  apply RT_skip with (v := epoch); [intros; wire|]. wire.
Qed.
#[export] Instance codec_FetchTopic v epoch : in_int 32 epoch ->
  Codec (FetchTopic_layout v epoch) (FetchTopic_Decode v) (FetchTopic_ok v).
Proof.
  intros He. apply codec_RTn. intros [n ps] (H1 & H2 & H3). cbn in *.
  unfold FetchTopic_layout, FetchTopic_Decode. wire.
Qed.
Lemma FetchRequest_RT v epoch q : in_int 32 epoch -> FetchRequest_ok v q ->
  RT (FetchRequest_layout v epoch q) (FetchRequest_Decode v) q.
Proof.
  intros He. destruct q as [a b c d e f g ts].
  intros (H1 & H2 & H3 & H4 & H5 & H6 & H7 & H8 & H9 & H10 & H11 & H12 & H13). cbn in *.
  unfold FetchRequest_layout, FetchRequest_Decode. wire.
Qed.

Definition ListOffsetsPartition_layout (v epoch : Z) (p : ListOffsetsPartition) : wr :=
  wInt32 (lp_Index p) ;> wwhen (4 <=? v) (wInt32 epoch) ;> wInt64 (lp_Timestamp p) ;>
  wwhen (v =? 0) (wInt32 (lp_MaxNumOffsets p)).
Definition ListOffsetsTopic_layout (v epoch : Z) (t : ListOffsetsTopic) : wr :=
  wString (lt_Name t) ;> wArray (lt_Partitions t) (ListOffsetsPartition_layout v epoch).
Definition ListOffsetsRequest_layout (v epoch : Z) (q : ListOffsetsRequest) : wr :=
  wInt32 (lr_ReplicaID q) ;> wwhen (2 <=? v) (wInt8 (lr_IsolationLevel q)) ;>
  wArray (lr_Topics q) (ListOffsetsTopic_layout v epoch).

Definition ListOffsetsPartition_ok (v : Z) (p : ListOffsetsPartition) : Prop :=
  in_int 32 (lp_Index p) /\ in_int 64 (lp_Timestamp p) /\ in_int 32 (lp_MaxNumOffsets p) /\
  ((v =? 0) = false -> lp_MaxNumOffsets p = 0).
Definition ListOffsetsTopic_ok (v : Z) (t : ListOffsetsTopic) : Prop :=
  str_fits (lt_Name t) /\ arr_fits (lt_Partitions t) /\ Forall (ListOffsetsPartition_ok v) (lt_Partitions t).
Definition ListOffsetsRequest_ok (v : Z) (q : ListOffsetsRequest) : Prop :=
  in_int 32 (lr_ReplicaID q) /\ in_int 8 (lr_IsolationLevel q) /\
  ((2 <=? v) = false -> lr_IsolationLevel q = 0) /\
  arr_fits (lr_Topics q) /\ Forall (ListOffsetsTopic_ok v) (lr_Topics q).

#[export] Instance codec_ListOffsetsPartition v epoch : in_int 32 epoch ->
  Codec (ListOffsetsPartition_layout v epoch) (ListOffsetsPartition_Decode v) (ListOffsetsPartition_ok v).
Proof.
  intros He. apply codec_RTn. intros [p o s] (H1 & H2 & H3 & H4). cbn in *.
  unfold ListOffsetsPartition_layout, ListOffsetsPartition_Decode. eapply RTn_seq; [by apply RTn_int32|].
  apply RT_skip with (v := epoch); [intros; wire|]. wire.
Qed.
#[export] Instance codec_ListOffsetsTopic v epoch : in_int 32 epoch ->
  Codec (ListOffsetsTopic_layout v epoch) (ListOffsetsTopic_Decode v) (ListOffsetsTopic_ok v).
Proof.
  intros He. apply codec_RTn. intros [n ps] (H1 & H2 & H3). cbn in *.
  unfold ListOffsetsTopic_layout, ListOffsetsTopic_Decode. wire.
Qed.
Lemma ListOffsetsRequest_RT v epoch q : in_int 32 epoch -> ListOffsetsRequest_ok v q ->
  RT (ListOffsetsRequest_layout v epoch q) (ListOffsetsRequest_Decode v) q.
Proof.
  intros He. destruct q as [a b ts]. intros (H1 & H2 & H3 & H4 & H5). cbn in *.
  unfold ListOffsetsRequest_layout, ListOffsetsRequest_Decode. wire.
Qed.

(** The group requests. *)
Definition JoinGroupProtocol_layout (p : JoinGroupProtocol) : wr := wString (jp_Name p) ;> wBytes (jp_Metadata p).
Definition JoinGroupRequest_layout (v : Z) (q : JoinGroupRequest) : wr :=
  wString (jg_GroupID q) ;> wInt32 (jg_SessionTimeout q) ;> wwhen (1 <=? v) (wInt32 (jg_RebalanceTimeout q)) ;>
  wString (jg_MemberID q) ;> wString (jg_ProtocolType q) ;> wArray (jg_Protocols q) JoinGroupProtocol_layout.
Definition JoinGroupProtocol_ok (p : JoinGroupProtocol) : Prop := str_fits (jp_Name p) /\ blob_fits (jp_Metadata p).
Definition JoinGroupRequest_ok (v : Z) (q : JoinGroupRequest) : Prop :=
  str_fits (jg_GroupID q) /\ in_int 32 (jg_SessionTimeout q) /\ in_int 32 (jg_RebalanceTimeout q) /\
  ((1 <=? v) = false -> jg_RebalanceTimeout q = 0) /\ str_fits (jg_MemberID q) /\ str_fits (jg_ProtocolType q) /\
  arr_fits (jg_Protocols q) /\ Forall JoinGroupProtocol_ok (jg_Protocols q).

#[export] Instance codec_JoinGroupProtocol : Codec JoinGroupProtocol_layout JoinGroupProtocol_Decode JoinGroupProtocol_ok.
Proof. apply codec_RTn. intros [n m] [H1 H2]. cbn in *. unfold JoinGroupProtocol_layout, JoinGroupProtocol_Decode. wire. Qed.
Lemma JoinGroupRequest_RT v q : JoinGroupRequest_ok v q ->
  RT (JoinGroupRequest_layout v q) (JoinGroupRequest_Decode v) q.
Proof.
  destruct q. intros (H1 & H2 & H3 & H4 & H5 & H6 & H7 & H8). cbn in *.
  unfold JoinGroupRequest_layout, JoinGroupRequest_Decode. wire.
Qed.

Definition SyncGroupAssignment_layout (a : SyncGroupAssignment) : wr := wString (sa_MemberID a) ;> wBytes (sa_Assignment a).
Definition SyncGroupRequest_layout (q : SyncGroupRequest) : wr :=
  wString (sg_GroupID q) ;> wInt32 (sg_GenerationID q) ;> wString (sg_MemberID q) ;>
  wArray (sg_Assignments q) SyncGroupAssignment_layout.
Definition SyncGroupAssignment_ok (a : SyncGroupAssignment) : Prop := str_fits (sa_MemberID a) /\ blob_fits (sa_Assignment a).
Definition SyncGroupRequest_ok (q : SyncGroupRequest) : Prop :=
  str_fits (sg_GroupID q) /\ in_int 32 (sg_GenerationID q) /\ str_fits (sg_MemberID q) /\
  arr_fits (sg_Assignments q) /\ Forall SyncGroupAssignment_ok (sg_Assignments q).
#[export] Instance codec_SyncGroupAssignment : Codec SyncGroupAssignment_layout SyncGroupAssignment_Decode SyncGroupAssignment_ok.
Proof. apply codec_RTn. intros [n m] [H1 H2]. cbn in *. unfold SyncGroupAssignment_layout, SyncGroupAssignment_Decode. wire. Qed.
Lemma SyncGroupRequest_RT v q : SyncGroupRequest_ok q -> RT (SyncGroupRequest_layout q) (SyncGroupRequest_Decode v) q.
Proof.
  destruct q. intros (H1 & H2 & H3 & H4 & H5). cbn in *. unfold SyncGroupRequest_layout, SyncGroupRequest_Decode. wire.
Qed.

Definition HeartbeatRequest_layout (q : HeartbeatRequest) : wr :=
  wString (hb_GroupID q) ;> wInt32 (hb_GenerationID q) ;> wString (hb_MemberID q).
Definition HeartbeatRequest_ok (q : HeartbeatRequest) : Prop :=
  str_fits (hb_GroupID q) /\ in_int 32 (hb_GenerationID q) /\ str_fits (hb_MemberID q).
Lemma HeartbeatRequest_RT v q : HeartbeatRequest_ok q -> RT (HeartbeatRequest_layout q) (HeartbeatRequest_Decode v) q.
Proof. destruct q. intros (H1 & H2 & H3). cbn in *. unfold HeartbeatRequest_layout, HeartbeatRequest_Decode. wire. Qed.

Definition LeaveGroupRequest_layout (q : LeaveGroupRequest) : wr := wString (lg_GroupID q) ;> wString (lg_MemberID q).
Definition LeaveGroupRequest_ok (q : LeaveGroupRequest) : Prop := str_fits (lg_GroupID q) /\ str_fits (lg_MemberID q).
Lemma LeaveGroupRequest_RT v q : LeaveGroupRequest_ok q -> RT (LeaveGroupRequest_layout q) (LeaveGroupRequest_Decode v) q.
Proof. destruct q. intros (H1 & H2). cbn in *. unfold LeaveGroupRequest_layout, LeaveGroupRequest_Decode. wire. Qed.

(** The offset requests; [retention] and [stamp] are the fields mq drops. *)
Definition OffsetCommitPartition_layout (v stamp : Z) (p : OffsetCommitPartition) : wr :=
  wInt32 (oc_Index p) ;> wInt64 (oc_Offset p) ;> wwhen (v =? 1) (wInt64 stamp) ;>
  wwhen (6 <=? v) (wInt32 (oc_LeaderEpoch p)) ;> wNullableString (oc_Metadata p).
Definition OffsetCommitTopic_layout (v stamp : Z) (t : OffsetCommitTopic) : wr :=
  wString (oct_Name t) ;> wArray (oct_Partitions t) (OffsetCommitPartition_layout v stamp).
Definition OffsetCommitRequest_layout (v stamp retention : Z) (q : OffsetCommitRequest) : wr :=
  wString (ocr_GroupID q) ;> wwhen (1 <=? v) (wInt32 (ocr_GenerationID q)) ;>
  wwhen (1 <=? v) (wString (ocr_MemberID q)) ;>
  wwhen ((2 <=? v) && (v <=? 4)) (wInt64 retention) ;>
  wArray (ocr_Topics q) (OffsetCommitTopic_layout v stamp).
Definition OffsetCommitPartition_ok (v : Z) (p : OffsetCommitPartition) : Prop :=
  in_int 32 (oc_Index p) /\ in_int 64 (oc_Offset p) /\ in_int 32 (oc_LeaderEpoch p) /\
  ((6 <=? v) = false -> oc_LeaderEpoch p = 0) /\ nstr_fits (oc_Metadata p).
Definition OffsetCommitTopic_ok (v : Z) (t : OffsetCommitTopic) : Prop :=
  str_fits (oct_Name t) /\ arr_fits (oct_Partitions t) /\ Forall (OffsetCommitPartition_ok v) (oct_Partitions t).
Definition OffsetCommitRequest_ok (v : Z) (q : OffsetCommitRequest) : Prop :=
  str_fits (ocr_GroupID q) /\ in_int 32 (ocr_GenerationID q) /\ ((1 <=? v) = false -> ocr_GenerationID q = 0) /\
  str_fits (ocr_MemberID q) /\ ((1 <=? v) = false -> ocr_MemberID q = ""%string) /\
  arr_fits (ocr_Topics q) /\ Forall (OffsetCommitTopic_ok v) (ocr_Topics q).

#[export] Instance codec_OffsetCommitPartition v stamp : in_int 64 stamp ->
  Codec (OffsetCommitPartition_layout v stamp) (OffsetCommitPartition_Decode v) (OffsetCommitPartition_ok v).
Proof.
  intros Hs. apply codec_RTn. intros [i o e m] (H1 & H2 & H3 & H4 & H5). cbn in *.
  unfold OffsetCommitPartition_layout, OffsetCommitPartition_Decode.
  eapply RTn_seq; [by apply RTn_int32|]. eapply RT_seq; [by apply RTn_RT, RTn_int64|].
  apply RT_skip with (v := stamp); [intros; wire|]. wire.
Qed.
#[export] Instance codec_OffsetCommitTopic v stamp : in_int 64 stamp ->
  Codec (OffsetCommitTopic_layout v stamp) (OffsetCommitTopic_Decode v) (OffsetCommitTopic_ok v).
Proof.
  intros He. apply codec_RTn. intros [n ps] (H1 & H2 & H3). cbn in *.
  unfold OffsetCommitTopic_layout, OffsetCommitTopic_Decode. wire.
Qed.
Lemma OffsetCommitRequest_RT v stamp retention q :
  in_int 64 stamp -> in_int 64 retention -> OffsetCommitRequest_ok v q ->
  RT (OffsetCommitRequest_layout v stamp retention q) (OffsetCommitRequest_Decode v) q.
Proof.
  intros Hs Hr. destruct q. intros (H1 & H2 & H3 & H4 & H5 & H6 & H7). cbn in *.
  unfold OffsetCommitRequest_layout, OffsetCommitRequest_Decode.
  eapply RT_seq; [by apply RTn_RT, RTn_string|].
  eapply RT_seq; [apply RT_when; intros; [by apply RTn_RT, RTn_int32|auto]|].
  eapply RT_seq; [apply RT_when; intros; [by apply RTn_RT, RTn_string|auto]|].
  apply RT_skip with (v := retention); [intros; wire|]. wire.
Qed.

(** Topic creation: [asg] and [cfg] are the assignments and the configuration a
    client may send with each topic; mq reads past them. *)
Definition Assignment_layout (a : Z * list Z) : wr := wInt32 (fst a) ;> wArray (snd a) wInt32.
Definition Config_layout (c : string * option string) : wr := wString (fst c) ;> wNullableString (snd c).
Definition CreateTopicsTopic_layout (asg : list (Z * list Z)) (cfg : list (string * option string))
    (t : CreateTopicsTopic) : wr :=
  wString (ct_Name t) ;> wInt32 (ct_NumPartitions t) ;> wInt16 (ct_ReplicationFactor t) ;>
  wArray asg Assignment_layout ;> wArray cfg Config_layout.
Definition CreateTopicsRequest_layout (v : Z) asg cfg (q : CreateTopicsRequest) : wr :=
  wArray (ctr_Topics q) (CreateTopicsTopic_layout asg cfg) ;> wInt32 (ctr_TimeoutMs q) ;>
  wwhen (1 <=? v) (wInt8 (if ctr_ValidateOnly q then 1 else 0)).
Definition Assignment_ok (a : Z * list Z) : Prop :=
  in_int 32 (fst a) /\ arr_fits (snd a) /\ Forall (in_int 32) (snd a).
Definition Config_ok (c : string * option string) : Prop := str_fits (fst c) /\ nstr_fits (snd c).
Definition CreateTopicsTopic_ok (t : CreateTopicsTopic) : Prop :=
  str_fits (ct_Name t) /\ in_int 32 (ct_NumPartitions t) /\ in_int 16 (ct_ReplicationFactor t).
Definition CreateTopicsRequest_ok (v : Z) (q : CreateTopicsRequest) : Prop :=
  arr_fits (ctr_Topics q) /\ Forall CreateTopicsTopic_ok (ctr_Topics q) /\ in_int 32 (ctr_TimeoutMs q) /\
  ((1 <=? v) = false -> ctr_ValidateOnly q = false).
Definition Ignored_ok (asg : list (Z * list Z)) (cfg : list (string * option string)) : Prop :=
  (arr_fits asg /\ Forall Assignment_ok asg) /\ arr_fits cfg /\ Forall Config_ok cfg.

#[export] Instance codec_Assignment : Codec Assignment_layout CreateTopicsAssignment_skip Assignment_ok.
Proof.
  apply codec_RTn. intros [p bs] (H1 & H2 & H3). cbn in *. unfold Assignment_layout, CreateTopicsAssignment_skip. wire.
Qed.
#[export] Instance codec_Config : Codec Config_layout CreateTopicsConfig_skip Config_ok.
Proof. apply codec_RTn. intros [k v] (H1 & H2). cbn in *. unfold Config_layout, CreateTopicsConfig_skip. wire. Qed.
Lemma codec_CreateTopicsTopic asg cfg : Ignored_ok asg cfg ->
  Codec (CreateTopicsTopic_layout asg cfg) CreateTopicsTopic_Decode CreateTopicsTopic_ok.
Proof.
  intros ((H1 & H2) & H3 & H4). apply codec_RTn. intros [n p rf] (H5 & H6 & H7). cbn in *.
  unfold CreateTopicsTopic_layout, CreateTopicsTopic_Decode. wire.
Qed.
Lemma CreateTopicsRequest_RT v asg cfg q : Ignored_ok asg cfg -> CreateTopicsRequest_ok v q ->
  RT (CreateTopicsRequest_layout v asg cfg q) (CreateTopicsRequest_Decode v) q.
Proof.
  intros Hi. pose proof (codec_CreateTopicsTopic _ _ Hi). destruct q as [ts tm vo]. intros (H1 & H2 & H3 & H4). cbn in *.
  unfold CreateTopicsRequest_layout, CreateTopicsRequest_Decode. cbn. do 2 (wire_step; [wire|]).
  eapply RT_last; [apply RT_when with (v := if vo then 1 else 0); intros|].
  - apply RTn_RT, RTn_int8. destruct vo; solve_int.
  - by rewrite H4.
  - destruct vo; apply RT_ret.
Qed.

Definition OffsetFetchTopic_layout (t : OffsetFetchTopic) : wr := wString (oft_Name t) ;> wArray (oft_Partitions t) wInt32.
Definition OffsetFetchRequest_layout (q : OffsetFetchRequest) : wr :=
  wString (ofr_GroupID q) ;> if ofr_AllTopics q then wInt32 (-1) else wArray (ofr_Topics q) OffsetFetchTopic_layout.
Definition OffsetFetchTopic_ok (t : OffsetFetchTopic) : Prop :=
  str_fits (oft_Name t) /\ arr_fits (oft_Partitions t) /\ Forall (in_int 32) (oft_Partitions t).
Definition OffsetFetchRequest_ok (q : OffsetFetchRequest) : Prop :=
  str_fits (ofr_GroupID q) /\ (ofr_AllTopics q = true -> ofr_Topics q = []) /\
  arr_fits (ofr_Topics q) /\ Forall OffsetFetchTopic_ok (ofr_Topics q).
#[export] Instance codec_OffsetFetchTopic : Codec OffsetFetchTopic_layout OffsetFetchTopic_Decode OffsetFetchTopic_ok.
Proof.
  apply codec_RTn. intros [n ps] (H1 & H2 & H3). cbn in *. unfold OffsetFetchTopic_layout, OffsetFetchTopic_Decode. wire.
Qed.

(** The hand-written guard accepts what [ArrayLen] would. *)
Lemma parses_guarded {A} (other : A) (d : rd A) n body v :
  n <= zlen body -> Parses d body v ->
  Parses (fun r => if zlen (Remaining r) <? n then (other, r) else d r) body v.
Proof.
  intros Hn Hd pre rest. unfold Remaining. cbn [err buf pos]. rewrite drop_zlen, zlen_app.
  pose proof (zlen_nonneg rest). ltb_false. apply Hd.
Qed.

Lemma OffsetFetchRequest_RT v q : OffsetFetchRequest_ok q ->
  RT (OffsetFetchRequest_layout q) (OffsetFetchRequest_Decode v) q.
Proof.
  destruct q as [g [] ts]; intros (H1 & H2 & H3 & H4); cbn in *;
    unfold OffsetFetchRequest_layout, OffsetFetchRequest_Decode; cbn;
    (eapply RT_seq; [by apply RTn_RT, RTn_string|]); cbn beta.
  - rewrite H2 by done. eapply RT_last; [by apply RTn_RT, RTn_int32; solve_int|]. apply RT_ret.
  - unfold wArray. pose proof (zlen_nonneg ts). unfold arr_fits in H3.
    eapply RT_seq with (v1 := zlen ts);
      [unfold wArrayLen; rewrite int32_id by solve_int; apply RTn_RT, RTn_int32; solve_int|].
    cbn beta. ltb_false.
    destruct (codec_elements OffsetFetchTopic_layout OffsetFetchTopic_Decode OffsetFetchTopic_ok ts H4)
      as (bs & He & Hp & Hl).
    exists bs. split; [done|]. apply parses_guarded; [done|].
    eapply parses_last; [unfold zlen; rewrite Nat2Z.id; exact Hp|]. apply parses_ret.
Qed.

(** ** Safety of the decoders *)

#[export] Instance safe_OffsetFetch v : Safe (OffsetFetchRequest_Decode v).
Proof.
  unfold OffsetFetchRequest_Decode. apply safe_bind; [apply _|intros g]. apply safe_bind; [apply _|intros n].
  apply safe_if; [apply _|]. intros r Hr. destruct (_ <? n); [|by apply (_ : Safe _)].
  cbn. split_and!; auto; lia.
Qed.

(** Whatever the bytes, the length a decoder allocates for is at most the length
    of the request. *)
Lemma ArrayLen_bounded r : reader_wf r -> 0 <= fst (ArrayLen r) <= zlen (buf r).
Proof.
  intros Hr. unfold ArrayLen, mbind, rd_bind.
  destruct (safe_int32 r Hr) as (H1 & H2 & _). destruct (Int32 r) as [n r1]. cbn in H1, H2.
  pose proof (zlen_nonneg (buf r)).
  destruct (Z.ltb_spec n 0); [cbn; lia|]. unfold guardLen, reader_wf in *.
  destruct (Z.ltb_spec (zlen (buf r1) - pos r1) n); cbn; [lia|]. rewrite <- H2. lia.
Qed.

Lemma RT_decodes {A} w (d : rd A) v : RT w d v ->
  exists r, d (NewReader (Finish w)) = (v, r) /\ Err r = None /\ Pos r = zlen (Finish w).
Proof.
  intros (bs & He & Hp). rewrite (finish_emits _ _ He). eexists. split; [by apply parses_new|done].
Qed.

(** ** Properties *)

(** the data-path requests.  At every version, decoding the Kafka layout of
    a produce, fetch or list-offsets request gives the request back, without a
    read error and with every byte consumed: record sets, offsets and limits are
    read from the right places, and the leader epoch is skipped where a version
    carries it. *)
Theorem data_requests_decode v epoch p f l :
  in_int 32 epoch -> ProduceRequest_ok v p -> FetchRequest_ok v f -> ListOffsetsRequest_ok v l ->
  (exists r, ProduceRequest_Decode v (NewReader (Finish (ProduceRequest_layout v p))) = (p, r) /\
     Err r = None /\ Pos r = zlen (Finish (ProduceRequest_layout v p))) /\
  (exists r, FetchRequest_Decode v (NewReader (Finish (FetchRequest_layout v epoch f))) = (f, r) /\
     Err r = None /\ Pos r = zlen (Finish (FetchRequest_layout v epoch f))) /\
  (exists r, ListOffsetsRequest_Decode v (NewReader (Finish (ListOffsetsRequest_layout v epoch l))) = (l, r) /\
     Err r = None /\ Pos r = zlen (Finish (ListOffsetsRequest_layout v epoch l))).
Proof.
  intros He Hp Hf Hl. split_and!; apply RT_decodes;
    [by apply ProduceRequest_RT|by apply FetchRequest_RT|by apply ListOffsetsRequest_RT].
Qed.

Lemma data_requests_decode_witness :
  let f := mkFetchRequest (-1) 500 1 1000 0 7 2 [mkFetchTopic "t" [mkFetchPartition 3 42 0 1000]] in
  exists r, FetchRequest_Decode 11 (NewReader (Finish (FetchRequest_layout 11 5 f))) = (f, r) /\
    Err r = None /\ Pos r = zlen (Finish (FetchRequest_layout 11 5 f)).
Proof.
  intros f.
  refine (proj1 (proj2 (data_requests_decode 11 5 (mkProduceRequest None 1 0 []) f (mkListOffsetsRequest 0 0 []) _ _ _ _)));
    repeat (split || constructor || (intros ?; discriminate)); vm_compute; (reflexivity || discriminate).
Defined.

(** the group and admin requests, at every version: joins, syncs,
    heartbeats, leaves, offset commits and fetches, and topic creation.  The
    fields mq does not use (commit timestamps, retention time, replica
    assignments, topic configuration) are read past exactly, whatever their
    content, and a null topic list of an offset fetch means all topics. *)
Theorem group_requests_decode v stamp retention asg cfg j s h g c o t :
  in_int 64 stamp -> in_int 64 retention -> Ignored_ok asg cfg ->
  JoinGroupRequest_ok v j -> SyncGroupRequest_ok s -> HeartbeatRequest_ok h -> LeaveGroupRequest_ok g ->
  OffsetCommitRequest_ok v c -> OffsetFetchRequest_ok o -> CreateTopicsRequest_ok v t ->
  RT (JoinGroupRequest_layout v j) (JoinGroupRequest_Decode v) j /\
  RT (SyncGroupRequest_layout s) (SyncGroupRequest_Decode v) s /\
  RT (HeartbeatRequest_layout h) (HeartbeatRequest_Decode v) h /\
  RT (LeaveGroupRequest_layout g) (LeaveGroupRequest_Decode v) g /\
  RT (OffsetCommitRequest_layout v stamp retention c) (OffsetCommitRequest_Decode v) c /\
  RT (OffsetFetchRequest_layout o) (OffsetFetchRequest_Decode v) o /\
  RT (CreateTopicsRequest_layout v asg cfg t) (CreateTopicsRequest_Decode v) t.
Proof.
  intros. split_and!; [by apply JoinGroupRequest_RT|by apply SyncGroupRequest_RT|by apply HeartbeatRequest_RT
    |by apply LeaveGroupRequest_RT|by apply OffsetCommitRequest_RT|by apply OffsetFetchRequest_RT
    |by apply CreateTopicsRequest_RT].
Qed.

Lemma group_requests_decode_witness :
  RT (OffsetCommitRequest_layout 2 0 99 (mkOffsetCommitRequest "g" 4 "m" [mkOffsetCommitTopic "t" [mkOffsetCommitPartition 0 17 0 None]]))
     (OffsetCommitRequest_Decode 2)
     (mkOffsetCommitRequest "g" 4 "m" [mkOffsetCommitTopic "t" [mkOffsetCommitPartition 0 17 0 None]]).
Proof.
  refine (proj1 (proj2 (proj2 (proj2 (proj2 (group_requests_decode 2 0 99 [(0, [1; 2])] [("k"%string, None)]
    (mkJoinGroupRequest "g" 1 1 "m" "consumer" []) (mkSyncGroupRequest "g" 1 "m" []) (mkHeartbeatRequest "g" 1 "m")
    (mkLeaveGroupRequest "g" "m") _ (mkOffsetFetchRequest "g" true [])
    (mkCreateTopicsRequest [] 0 false) _ _ _ _ _ _ _ _ _ _))))));
    repeat (split || constructor || (intros ?; discriminate)); vm_compute; (reflexivity || discriminate).
Defined.

(** no request can break a decoder.  On arbitrary bytes, at any version, every
    request decoder returns with the reader still inside the frame, moved
    forward only, the buffer untouched, and with a first error kept; and the
    length any of them allocates for is bounded by the size of the frame. *)
Theorem decoders_safe v :
  Safe DecodeRequestHeader /\ Safe (ProduceRequest_Decode v) /\ Safe (FetchRequest_Decode v) /\
  Safe (ListOffsetsRequest_Decode v) /\ Safe (MetadataRequest_Decode v) /\ Safe (FindCoordinatorRequest_Decode v) /\
  Safe (JoinGroupRequest_Decode v) /\ Safe (SyncGroupRequest_Decode v) /\ Safe (HeartbeatRequest_Decode v) /\
  Safe (LeaveGroupRequest_Decode v) /\ Safe (OffsetCommitRequest_Decode v) /\ Safe (OffsetFetchRequest_Decode v) /\
  Safe (DescribeGroupsRequest_Decode v) /\ Safe (ListGroupsRequest_Decode v) /\ Safe (CreateTopicsRequest_Decode v) /\
  Safe (CreatePartitionsRequest_Decode v) /\
  (forall r, reader_wf r -> 0 <= fst (ArrayLen r) <= zlen (buf r)).
Proof.
  split_and!; try apply ArrayLen_bounded;
    unfold DecodeRequestHeader, ProduceRequest_Decode, ProduceTopic_Decode, ProducePartition_Decode,
      FetchRequest_Decode, FetchTopic_Decode, FetchPartition_Decode, ListOffsetsRequest_Decode,
      ListOffsetsTopic_Decode, ListOffsetsPartition_Decode, MetadataRequest_Decode, FindCoordinatorRequest_Decode,
      JoinGroupRequest_Decode, JoinGroupProtocol_Decode, SyncGroupRequest_Decode, SyncGroupAssignment_Decode,
      HeartbeatRequest_Decode, LeaveGroupRequest_Decode, OffsetCommitRequest_Decode, OffsetCommitTopic_Decode,
      OffsetCommitPartition_Decode, DescribeGroupsRequest_Decode, ListGroupsRequest_Decode,
      CreateTopicsRequest_Decode, CreateTopicsTopic_Decode, CreateTopicsAssignment_skip, CreateTopicsConfig_skip,
      CreatePartitionsRequest_Decode, CreatePartitionsTopic_Decode; apply _.
Qed.

(** version negotiation.  [Supported] answers exactly the advertised table:
    each API key has one range, and a key that is not in the table has none. *)
Theorem Supported_table k v :
  Supported k = Some v <-> v ∈ SupportedVersions /\ vr_APIKey v = k.
Proof.
  unfold Supported.
  assert (NoDup (map vr_APIKey SupportedVersions)) as Hnd by (apply (bool_decide_eq_true_1 _); by vm_compute).
  revert Hnd. induction SupportedVersions as [|w vs IH]; cbn [supported_loop map]; intros Hnd.
  - rewrite elem_of_nil. naive_solver.
  - apply NoDup_cons in Hnd as [Hw Hnd]. rewrite elem_of_cons. destruct (Z.eqb_spec (vr_APIKey w) k) as [<-|Hne].
    + split; [by intros [= <-]; auto|]. intros [[->|Hin] Hk]; [done|].
      destruct Hw. rewrite <- Hk. by apply list_elem_of_fmap_2.
    + rewrite IH by done. naive_solver.
Qed.
