(* ===== verification/Typed.v ===== *)
(** * internal/protocol: the types of what the decoders deliver

    Whatever the bytes, a Go decoder fills int16 fields with int16 values, slices
    with slices a machine can index, and leaves the fields a version lacks zero.
    In the model these are facts about integers and lists; here they are proved of
    every request decoder with a unary postcondition on the reader monad
    ([Typed]), rule by rule.  With the layouts of [Protocol] and the remaining ones
    here, [requests_decode] says of each decoder that it inverts the layout of its
    request. *)

From S2P Require Import Prelude Kbytes Protocol.

(** [d] delivers only values in [P], from any state of the reader. *)
Class Typed {A} (d : rd A) (P : A -> Prop) : Prop := typed : forall r, P (fst (d r)).

#[export] Instance typed_ret {A} (a : A) : Typed (mret a) (eq a).
Proof. done. Qed.

Lemma typed_is {A} (a : A) (P : A -> Prop) : P a -> Typed (mret a) P.
Proof. intros H r. exact H. Qed.

Lemma typed_bind {A B} (d : rd A) (f : A -> rd B) P Q :
  Typed d P -> (forall a, P a -> Typed (f a) Q) -> Typed (d ≫= f) Q.
Proof. intros Hd Hf r. unfold mbind, rd_bind. specialize (Hd r). destruct (d r) as [a r1]. by apply Hf. Qed.

Lemma typed_any {A} (d : rd A) : Typed d (fun _ => True).
Proof. done. Qed.

Lemma typed_fixed conv n (w : Z) : 0 < w -> (forall x, in_int w (conv x)) -> Typed (fixedInt conv n) (in_int w).
Proof.
  intros Hw Hc. eapply typed_bind; [apply typed_any|]. intros [b|] _; apply typed_is; [done|].
  unfold in_int. pose proof (Z.pow_pos_nonneg 2 (w - 1) ltac:(lia) ltac:(lia)). lia.
Qed.

Lemma typed_swrap w n : 0 < w -> Typed (fixedInt (swrap w) n) (in_int w).
Proof. intros Hw. apply typed_fixed; [done|]. intros x. by apply swrap_range. Qed.

#[export] Instance typed_int8 : Typed Int8 (in_int 8).
Proof. by apply typed_swrap. Qed.
#[export] Instance typed_int16 : Typed Int16 (in_int 16).
Proof. by apply typed_swrap. Qed.
#[export] Instance typed_int32 : Typed Int32 (in_int 32).
Proof. by apply typed_swrap. Qed.
#[export] Instance typed_int64 : Typed Int64 (in_int 64).
Proof. by apply typed_swrap. Qed.

(** A slice of [n] bytes has at most that many. *)
Lemma typed_take n : Typed (takeN n) (from_option (fun b => zlen b <= Z.max 0 n) True).
Proof.
  intros r. unfold takeN. destruct (err r); [done|]. destruct (_ || _); [done|]. cbn. unfold sub, zlen. rewrite length_take. lia.
Qed.

Lemma zlen_string b : zlen (bytes_of_string (string_of_bytes b)) = zlen b.
Proof. unfold bytes_of_string, string_of_bytes. by rewrite String.list_byte_of_string_of_list_byte. Qed.

Lemma taken_fits n b : in_int 16 n -> from_option (fun b => zlen b <= Z.max 0 n) True b -> str_fits (string_of_bytes (default [] b)).
Proof. intros Hn Hb. unfold str_fits. rewrite zlen_string. destruct b as [b|]; cbn in *; [unfold in_int in Hn; lia|done]. Qed.

#[export] Instance typed_string : Typed String_ str_fits.
Proof.
  eapply typed_bind; [apply typed_int16|]. intros n Hn. destruct (n <? 0); [by apply typed_is|].
  eapply typed_bind; [apply typed_take|]. intros b Hb. by eapply typed_is, taken_fits.
Qed.
#[export] Instance typed_nullable : Typed NullableString nstr_fits.
Proof.
  eapply typed_bind; [apply typed_int16|]. intros n Hn. destruct (n <? 0); [by apply typed_is|].
  eapply typed_bind; [apply typed_take|]. intros b Hb. by eapply typed_is, taken_fits.
Qed.
#[export] Instance typed_blob : Typed Bytes blob_fits.
Proof.
  eapply typed_bind; [apply typed_int32|]. intros n Hn. destruct (Z.ltb_spec n 0); [by apply typed_is|].
  intros r. pose proof (typed_take n r) as Hb. destruct (fst (takeN n r)) as [b|]; cbn in *; [unfold in_int in Hn; lia|done].
Qed.

(** A field of some versions: zero in the others. *)
#[export] Instance typed_when {A} (c : bool) (zero : A) d P : Typed d P -> Typed (rd_when c zero d) (fun a => (c = false -> a = zero) /\ (c = true -> P a)).
Proof. intros Hd. destruct c; [|by intros r]. intros r. by split; [|intros _; apply Hd]. Qed.

(** Arrays: the length passed the guard, and every element is typed. *)
#[export] Instance typed_repeat {A} n (d : rd A) P : Typed d P -> Typed (rd_repeat n d) (fun xs => length xs = n /\ Forall P xs).
Proof.
  intros Hd. induction n as [|n IH]; cbn [rd_repeat]; [by apply typed_is|].
  eapply typed_bind; [exact Hd|]. intros x Hx. eapply typed_bind; [exact IH|]. intros xs [Hl Hxs]. apply typed_is. cbn. auto with lia.
Qed.
#[export] Instance typed_arraylen : Typed ArrayLen (fun n => 0 <= n < 2 ^ 31).
Proof.
  eapply typed_bind; [apply typed_int32|]. intros n Hn. destruct (Z.ltb_spec n 0); [by apply typed_is|].
  intros r. unfold guardLen. destruct (_ <? n); cbn; [done|]. unfold in_int in Hn. lia.
Qed.
#[export] Instance typed_array {A} (d : rd A) P : Typed d P -> Typed (rd_array d) (fun xs => arr_fits xs /\ Forall P xs).
Proof.
  intros Hd. eapply typed_bind; [apply typed_arraylen|]. cbn beta. intros n Hn r. destruct (typed_repeat (Z.to_nat n) d P Hd r) as [Hl Hf].
  split; [|done]. unfold arr_fits, zlen. rewrite Hl. lia.
Qed.

(** A decoder field by field; each field's rule is found by its type. *)
Ltac typed_step :=
  lazymatch goal with
  | |- Typed (_ ≫= _) _ => eapply typed_bind; [apply _|cbn beta; intros ? ?]
  | |- Typed (mret _) _ => apply typed_is
  end.

(** ** The requests *)

Definition MetadataRequest_ok (q : MetadataRequest) : Prop :=
  arr_fits (mr_Topics q) /\ Forall str_fits (mr_Topics q) /\ (mr_AllTopics q = true <-> mr_Topics q = []).
Definition FindCoordinatorRequest_ok (v : Z) (q : FindCoordinatorRequest) : Prop :=
  str_fits (fc_Key q) /\ in_int 8 (fc_KeyType q) /\ ((1 <=? v) = false -> fc_KeyType q = 0).
Definition DescribeGroupsRequest_ok (q : DescribeGroupsRequest) : Prop := arr_fits (dg_Groups q) /\ Forall str_fits (dg_Groups q).
Definition CreatePartitionsTopic_ok (t : CreatePartitionsTopic) : Prop := str_fits (cp_Name t) /\ in_int 32 (cp_Count t).
Definition CreatePartitionsRequest_ok (q : CreatePartitionsRequest) : Prop :=
  arr_fits (cpr_Topics q) /\ Forall CreatePartitionsTopic_ok (cpr_Topics q) /\ in_int 32 (cpr_TimeoutMs q).
Definition RequestHeader_ok (h : RequestHeader) : Prop :=
  in_int 16 (rh_APIKey h) /\ in_int 16 (rh_APIVersion h) /\ in_int 32 (rh_CorrelationID h) /\ nstr_fits (rh_ClientID h).

(** A field that some versions lack has the type of the field in all of them. *)
Lemma when_typed {A} (c : bool) (a zero : A) (P : A -> Prop) : (c = false -> a = zero) /\ (c = true -> P a) -> P zero -> P a.
Proof. intros [H1 H2] Hz. destruct c; [by apply H2|by rewrite H1]. Qed.
Lemma zero_typed w : 0 < w -> in_int w 0.
Proof. intros Hw. unfold in_int. pose proof (Z.pow_pos_nonneg 2 (w - 1) ltac:(lia) ltac:(lia)). lia. Qed.
Lemma int8_typed c a : (c = false -> a = 0) /\ (c = true -> in_int 8 a) -> in_int 8 a.
Proof. intros H. by eapply when_typed, zero_typed. Qed.
Lemma int32_typed c a : (c = false -> a = 0) /\ (c = true -> in_int 32 a) -> in_int 32 a.
Proof. intros H. by eapply when_typed, zero_typed. Qed.
Lemma int64_typed c a : (c = false -> a = 0) /\ (c = true -> in_int 64 a) -> in_int 64 a.
Proof. intros H. by eapply when_typed, zero_typed. Qed.
Lemma string_typed c a : (c = false -> a = ""%string) /\ (c = true -> str_fits a) -> str_fits a.
Proof. intros H. by eapply when_typed. Qed.
Lemma nullable_typed c a : (c = false -> a = None) /\ (c = true -> nstr_fits a) -> nstr_fits a.
Proof. intros H. by eapply when_typed. Qed.
Create HintDb wire_types.
#[export] Hint Resolve int8_typed int32_typed int64_typed string_typed nullable_typed : wire_types.

(** The fields of the result follow from what the reads promised. *)
Ltac typed_fields := repeat typed_step; hnf; cbn -[str_fits nstr_fits blob_fits arr_fits in_int Z.leb Z.eqb]; split_and?; first [tauto|eauto with wire_types].

#[export] Instance typed_Header : Typed DecodeRequestHeader RequestHeader_ok.
Proof. unfold DecodeRequestHeader. typed_fields. Qed.
#[export] Instance typed_ProducePartition : Typed ProducePartition_Decode ProducePartition_ok.
Proof. unfold ProducePartition_Decode. typed_fields. Qed.
#[export] Instance typed_ProduceTopic : Typed ProduceTopic_Decode ProduceTopic_ok.
Proof. unfold ProduceTopic_Decode. typed_fields. Qed.
#[export] Instance typed_Produce v : Typed (ProduceRequest_Decode v) (ProduceRequest_ok v).
Proof. unfold ProduceRequest_Decode. typed_fields. Qed.
#[export] Instance typed_FetchPartition v : Typed (FetchPartition_Decode v) (FetchPartition_ok v).
Proof. unfold FetchPartition_Decode. typed_fields. Qed.
#[export] Instance typed_FetchTopic v : Typed (FetchTopic_Decode v) (FetchTopic_ok v).
Proof. unfold FetchTopic_Decode. typed_fields. Qed.
#[export] Instance typed_Fetch v : Typed (FetchRequest_Decode v) (FetchRequest_ok v).
Proof. unfold FetchRequest_Decode. typed_fields. Qed.
#[export] Instance typed_ListOffsetsPartition v : Typed (ListOffsetsPartition_Decode v) (ListOffsetsPartition_ok v).
Proof. unfold ListOffsetsPartition_Decode. typed_fields. Qed.
#[export] Instance typed_ListOffsetsTopic v : Typed (ListOffsetsTopic_Decode v) (ListOffsetsTopic_ok v).
Proof. unfold ListOffsetsTopic_Decode. typed_fields. Qed.
#[export] Instance typed_ListOffsets v : Typed (ListOffsetsRequest_Decode v) (ListOffsetsRequest_ok v).
Proof. unfold ListOffsetsRequest_Decode. typed_fields. Qed.
#[export] Instance typed_FindCoordinator v : Typed (FindCoordinatorRequest_Decode v) (FindCoordinatorRequest_ok v).
Proof. unfold FindCoordinatorRequest_Decode. typed_fields. Qed.
#[export] Instance typed_JoinGroupProtocol : Typed JoinGroupProtocol_Decode JoinGroupProtocol_ok.
Proof. unfold JoinGroupProtocol_Decode. typed_fields. Qed.
#[export] Instance typed_JoinGroup v : Typed (JoinGroupRequest_Decode v) (JoinGroupRequest_ok v).
Proof. unfold JoinGroupRequest_Decode. typed_fields. Qed.
#[export] Instance typed_SyncGroupAssignment : Typed SyncGroupAssignment_Decode SyncGroupAssignment_ok.
Proof. unfold SyncGroupAssignment_Decode. typed_fields. Qed.
#[export] Instance typed_SyncGroup v : Typed (SyncGroupRequest_Decode v) SyncGroupRequest_ok.
Proof. unfold SyncGroupRequest_Decode. typed_fields. Qed.
#[export] Instance typed_Heartbeat v : Typed (HeartbeatRequest_Decode v) HeartbeatRequest_ok.
Proof. unfold HeartbeatRequest_Decode. typed_fields. Qed.
#[export] Instance typed_LeaveGroup v : Typed (LeaveGroupRequest_Decode v) LeaveGroupRequest_ok.
Proof. unfold LeaveGroupRequest_Decode. typed_fields. Qed.
#[export] Instance typed_OffsetCommitPartition v : Typed (OffsetCommitPartition_Decode v) (OffsetCommitPartition_ok v).
Proof. unfold OffsetCommitPartition_Decode. typed_fields. Qed.
#[export] Instance typed_OffsetCommitTopic v : Typed (OffsetCommitTopic_Decode v) (OffsetCommitTopic_ok v).
Proof. unfold OffsetCommitTopic_Decode. typed_fields. Qed.
#[export] Instance typed_OffsetCommit v : Typed (OffsetCommitRequest_Decode v) (OffsetCommitRequest_ok v).
Proof. unfold OffsetCommitRequest_Decode. typed_fields. Qed.
#[export] Instance typed_OffsetFetchTopic : Typed OffsetFetchTopic_Decode OffsetFetchTopic_ok.
Proof. unfold OffsetFetchTopic_Decode. typed_fields. Qed.
#[export] Instance typed_DescribeGroups v : Typed (DescribeGroupsRequest_Decode v) DescribeGroupsRequest_ok.
Proof. unfold DescribeGroupsRequest_Decode. typed_fields. Qed.
#[export] Instance typed_skip {A} (d : rd A) : Typed (rd_array d) (fun _ => True) | 10.
Proof. apply typed_any. Qed.
#[export] Instance typed_CreateTopicsTopic : Typed CreateTopicsTopic_Decode CreateTopicsTopic_ok.
Proof. unfold CreateTopicsTopic_Decode. typed_fields. Qed.
#[export] Instance typed_CreateTopics v : Typed (CreateTopicsRequest_Decode v) (CreateTopicsRequest_ok v).
Proof.
  unfold CreateTopicsRequest_Decode. repeat typed_step. hnf. cbn -[arr_fits in_int Z.leb Z.eqb]. split_and?; try tauto.
  intros Hv. destruct H1 as [-> _]; done.
Qed.
#[export] Instance typed_CreatePartitionsTopic : Typed CreatePartitionsTopic_Decode CreatePartitionsTopic_ok.
Proof. unfold CreatePartitionsTopic_Decode. typed_fields. Qed.
#[export] Instance typed_CreatePartitions v : Typed (CreatePartitionsRequest_Decode v) CreatePartitionsRequest_ok.
Proof. unfold CreatePartitionsRequest_Decode. typed_fields. Qed.

(** Two decoders with a branch of their own. *)
#[export] Instance typed_Metadata v : Typed (MetadataRequest_Decode v) MetadataRequest_ok.
Proof.
  unfold MetadataRequest_Decode. eapply typed_bind; [apply typed_arraylen|]. cbn beta. intros n Hn.
  destruct (Z.eqb_spec n 0); [by apply typed_is|]. eapply typed_bind; [apply typed_repeat, typed_string|]. cbn beta. intros ts [Hl Hf].
  apply typed_is. split_and!; cbn; [unfold arr_fits, zlen; lia|done|]. split; [done|]. intros ->. cbn in Hl. lia.
Qed.
#[export] Instance typed_OffsetFetch v : Typed (OffsetFetchRequest_Decode v) OffsetFetchRequest_ok.
Proof.
  unfold OffsetFetchRequest_Decode. eapply typed_bind; [apply typed_string|]. intros g Hg. eapply typed_bind; [apply typed_int32|]. intros n Hn.
  destruct (Z.ltb_spec n 0); [by apply typed_is|]. intros r. destruct (_ <? n); [done|].
  eapply (typed_bind _ _ _ _ (typed_repeat _ _ _ typed_OffsetFetchTopic)). cbn beta. intros ts [Hl Hf].
  apply typed_is. unfold in_int in Hn. split_and!; cbn; [done|done|unfold arr_fits, zlen; lia|done].
Qed.

(** ** The remaining layouts *)

Definition RequestHeader_layout (h : RequestHeader) : wr :=
  wInt16 (rh_APIKey h) ;> wInt16 (rh_APIVersion h) ;> wInt32 (rh_CorrelationID h) ;> wNullableString (rh_ClientID h).
(** All topics: a null list, or an empty one. *)
Definition MetadataRequest_layout (null : bool) (q : MetadataRequest) : wr :=
  if mr_AllTopics q then wInt32 (if null then -1 else 0) else wArray (mr_Topics q) wString.
Definition FindCoordinatorRequest_layout (v : Z) (q : FindCoordinatorRequest) : wr :=
  wString (fc_Key q) ;> wwhen (1 <=? v) (wInt8 (fc_KeyType q)).
Definition DescribeGroupsRequest_layout (q : DescribeGroupsRequest) : wr := wArray (dg_Groups q) wString.
(** [asg]: the broker ids a client may name for each new partition. *)
Definition BrokerIDs_layout (ids : list Z) : wr := wArray ids wInt32.
Definition BrokerIDs_ok (ids : list Z) : Prop := arr_fits ids /\ Forall (in_int 32) ids.
Definition CreatePartitionsTopic_layout (asg : list (list Z)) (t : CreatePartitionsTopic) : wr :=
  wString (cp_Name t) ;> wInt32 (cp_Count t) ;> wArray asg BrokerIDs_layout.
Definition CreatePartitionsRequest_layout (asg : list (list Z)) (q : CreatePartitionsRequest) : wr :=
  wArray (cpr_Topics q) (CreatePartitionsTopic_layout asg) ;> wInt32 (cpr_TimeoutMs q) ;> wInt8 (if cpr_ValidateOnly q then 1 else 0).

Lemma RequestHeader_RT h : RequestHeader_ok h -> RT (RequestHeader_layout h) DecodeRequestHeader h.
Proof. destruct h. intros (H1 & H2 & H3 & H4). cbn in *. unfold RequestHeader_layout, DecodeRequestHeader. wire. Qed.

Lemma FindCoordinatorRequest_RT v q : FindCoordinatorRequest_ok v q -> RT (FindCoordinatorRequest_layout v q) (FindCoordinatorRequest_Decode v) q.
Proof. destruct q. intros (H1 & H2 & H3). cbn in *. unfold FindCoordinatorRequest_layout, FindCoordinatorRequest_Decode. wire. Qed.

#[export] Instance codec_string : Codec wString String_ str_fits.
Proof. apply codec_RTn. intros x Hx. by apply RTn_string. Qed.

Lemma DescribeGroupsRequest_RT v q : DescribeGroupsRequest_ok q -> RT (DescribeGroupsRequest_layout q) (DescribeGroupsRequest_Decode v) q.
Proof. destruct q. intros (H1 & H2). cbn in *. unfold DescribeGroupsRequest_layout, DescribeGroupsRequest_Decode. wire. Qed.

#[export] Instance codec_BrokerIDs : Codec BrokerIDs_layout (rd_array Int32) BrokerIDs_ok.
Proof. apply codec_RTn. intros ids [H1 H2]. unfold BrokerIDs_layout. apply RTn_array; [done|]. eapply Forall_impl; [exact H2|]. intros x. apply RTn_int32. Qed.
Lemma codec_CreatePartitionsTopic asg : arr_fits asg -> Forall BrokerIDs_ok asg ->
  Codec (CreatePartitionsTopic_layout asg) CreatePartitionsTopic_Decode CreatePartitionsTopic_ok.
Proof.
  intros H1 H2. apply codec_RTn. intros [n c] (H3 & H4). cbn in *. unfold CreatePartitionsTopic_layout, CreatePartitionsTopic_Decode. wire.
Qed.
Lemma CreatePartitionsRequest_RT v asg q : arr_fits asg -> Forall BrokerIDs_ok asg -> CreatePartitionsRequest_ok q ->
  RT (CreatePartitionsRequest_layout asg q) (CreatePartitionsRequest_Decode v) q.
Proof.
  intros Ha Hb. pose proof (codec_CreatePartitionsTopic asg Ha Hb). destruct q as [ts tm vo]. intros (H1 & H2 & H3). cbn in *.
  unfold CreatePartitionsRequest_layout, CreatePartitionsRequest_Decode. cbn. do 2 (wire_step; [wire|]).
  eapply RT_last with (v1 := if vo then 1 else 0); [apply RTn_RT, RTn_int8; destruct vo; solve_int|]. destruct vo; apply RT_ret.
Qed.

Lemma MetadataRequest_RT v null q : MetadataRequest_ok q -> RT (MetadataRequest_layout null q) (MetadataRequest_Decode v) q.
Proof.
  destruct q as [ts all]. intros (H1 & H2 & H3). cbn in *. unfold MetadataRequest_layout, MetadataRequest_Decode. cbn. destruct all.
  - rewrite (proj1 H3 eq_refl) in *. eapply RT_last with (v1 := 0); [|apply RT_ret].
    assert (RT (wInt32 (if null then -1 else 0)) Int32 (if null then -1 else 0)) as (bs & He & Hp).
    { apply RTn_RT, RTn_int32. destruct null; solve_int. }
    exists bs. split; [done|]. intros pre rest. unfold ArrayLen, mbind, rd_bind. rewrite (Hp pre rest). destruct null; [done|]. cbn [Z.ltb Z.compare].
    unfold guardLen. cbn [buf pos]. rewrite (proj2 (Z.ltb_ge _ _)); [done|]. rewrite !zlen_app. pose proof (zlen_nonneg rest). lia.
  - assert (ts <> []) as Hne by (intros Hx; by apply H3 in Hx).
    assert (0 < zlen ts) as Hpos by (destruct ts; [done|]; rewrite zlen_cons; pose proof (zlen_nonneg ts); lia).
    destruct (codec_elements wString String_ str_fits ts H2) as (bs & He & Hp & Hl).
    exists (be_put 4 (int32 (zlen ts)) ++ bs). split; [unfold wArray; apply _|].
    apply parses_arraylen_then; [lia|done|]. rewrite (proj2 (Z.eqb_neq _ _)) by lia.
    eapply parses_last; [unfold zlen; rewrite Nat2Z.id; exact Hp|]. apply parses_ret.
Qed.

(** ** Properties *)

(** A decoder against a layout: any well-typed value that is laid out, with any
    bytes behind it, is decoded to that value without an error and with exactly
    its bytes read; and whatever the bytes and the state of the reader, what is
    decoded is well typed. *)
Definition Decodes {A} (d : rd A) (layout : A -> wr) (ok : A -> Prop) : Prop :=
  (forall q rest, ok q -> exists r, d (NewReader (Finish (layout q) ++ rest)) = (q, r) /\ Err r = None /\ Pos r = zlen (Finish (layout q))) /\
  (forall r, ok (fst (d r))).

Lemma decodes_RT {A} (d : rd A) layout ok : (forall q, ok q -> RT (layout q) d q) -> Typed d ok -> Decodes d layout ok.
Proof.
  intros Hrt Ht. split; [|done]. intros q rest Hq. destruct (Hrt q Hq) as (bs & He & Hp). rewrite (finish_emits _ _ He).
  specialize (Hp [] rest). cbn in Hp. eexists. split; [exact Hp|done].
Qed.


