(* ===== verification/Replication.v ===== *)
(** * internal/replication/replication.go: the follower's fetch loop

    The frames the follower writes and reads, the step it makes on its local log
    with one fetch response, and the set of running fetchers.  The connection is
    the stream of bytes still to be read from it; the sessions of a fetcher and
    its loop over them are in [Fetcher].  The main theorem composes the leader's
    read path, the wire format and the follower's write path: a follower whose
    log is a prefix of the leader's stays one, and makes progress. *)

From S2P Require Import Prelude Record Kbytes Segment Log Protocol.

Definition fetchAPIVersion : Z := 4.
Definition fetchMaxWaitMs : Z := 500.
Definition fetchMinBytes : Z := 1.
Definition fetchMaxBytes : Z := Z.shiftl 1 20.

(** ** The fetch request *)

Definition fetchHeader (corr : Z) : wr :=
  (wInt16 APIFetch ;> wInt16 fetchAPIVersion ;> wInt32 corr ;> wNullableString (Some "mq-replica"%string))%wr.
Definition fetchBody (replicaID : Z) (topic : string) (p fetchOffset : Z) : wr :=
  (wInt32 replicaID ;> wInt32 fetchMaxWaitMs ;> wInt32 fetchMinBytes ;> wInt32 fetchMaxBytes ;> wInt8 0 ;>
   wArrayLen 1 ;> wString topic ;> wArrayLen 1 ;> wInt32 p ;> wInt64 fetchOffset ;> wInt32 fetchMaxBytes)%wr.

Definition encodeFetch (replicaID : Z) (topic : string) (p fetchOffset corr : Z) : list byte :=
  let payload := Finish (fetchHeader corr ;> fetchBody replicaID topic p fetchOffset)%wr in
  be_put 4 (zlen payload) ++ payload.

(** ** The fetch response *)

Record fetchPartitionResult := mkResult { r_errorCode : Z; r_hwm : Z; r_records : option (list byte) }.

(** [io.ReadFull] into a buffer of [n] bytes. *)
Definition ReadFull (n : Z) (stream : list byte) : option (list byte * list byte) :=
  if zlen stream <? n then None else Some (take (Z.to_nat n) stream, drop (Z.to_nat n) stream).

Definition abortedTxn : rd unit := _ ← Int64; _ ← Int64; mret tt.
Definition partitionResult : rd fetchPartitionResult :=
  _ ← Int32; ec ← Int16; hwm ← Int64; _ ← Int64; _ ← rd_array abortedTxn; data ← Bytes;
  mret (mkResult ec hwm data).
Definition topicResults : rd (list fetchPartitionResult) := _ ← String_; rd_array partitionResult.
Definition fetchResults : rd (list (list fetchPartitionResult)) :=
  _ ← Int32; _ ← Int32; rd_array topicResults.

(** The first partition of the first topic, or the zero value. *)
Definition firstResult (rs : list (list fetchPartitionResult)) : fetchPartitionResult :=
  match rs with (r :: _) :: _ => r | _ => mkResult 0 0 None end.

Definition readFetchResponse (stream : list byte) : (fetchPartitionResult + error) * list byte :=
  match ReadFull 4 stream with
  | None => (inr ErrEOF, [])
  | Some (lenBuf, stream) =>
    match ReadFull (be_get lenBuf) stream with
    | None => (inr ErrEOF, [])
    | Some (frame, stream) =>
      let '(rs, r) := fetchResults (NewReader frame) in
      match Err r with Some e => (inr e, stream) | None => (inl (firstResult rs), stream) end
    end
  end.

(** ** One round of a session *)

(** The callback of [record.Iterate]: append the batch, remember the error. *)
Definition applyBatch (e : list byte -> io) (st : Log * option error) (batch : list byte)
    : go ((Log * option error) * option error) :=
  let '(log, applyErr) := st in
  match AppendReplica (e batch) batch log with
  | (log', (_, Some er)) => Ret ((log', Some er), Some er)
  | (log', (_, None)) => Ret ((log', applyErr), None)
  end.

(** What the follower does with one response; [false]: the session ends. *)
Definition applyResponse (e : list byte -> io) (res : fetchPartitionResult) (log : Log) : go (Log * bool) :=
  if negb (r_errorCode res =? CodeNone) then Ret (log, false)
  else
    let records := default [] (r_records res) in
    if 0 <? zlen records then
      it ← Iterate records (applyBatch e) (log, None);
      let '((log', applyErr), _, _) := it in
      match applyErr with
      | Some _ => Ret (log', false)
      | None => Ret (SetHighWatermark (r_hwm res) log', true)
      end
    else Ret (SetHighWatermark (r_hwm res) log, true).

Definition sessionRound (e : list byte -> io) (stream : list byte) (log : Log) : go (Log * bool * list byte) :=
  match readFetchResponse stream with
  | (inr _, rest) => Ret (log, false, rest)
  | (inl res, rest) => r ← applyResponse e res log; Ret (r, rest)
  end.

(** ** The manager *)

Abbreviation tp := (string * Z)%type.
Record Manager := mkManager { m_self : Z; m_fetchers : gset tp; m_closed : bool }.

Definition NewManager (self : Z) : Manager := mkManager self ∅ false.
(** The second component: whether a fetcher goroutine is started. *)
Definition EnsureFollowing (key : tp) (m : Manager) : Manager * bool :=
  if m_closed m then (m, false)
  else if bool_decide (key ∈ m_fetchers m) then (m, false)
  else (mkManager (m_self m) ({[key]} ∪ m_fetchers m) (m_closed m), true).
(** The second component: whether a fetcher is shut down. *)
Definition StopFollowing (key : tp) (m : Manager) : Manager * bool :=
  if bool_decide (key ∈ m_fetchers m)
  then (mkManager (m_self m) (m_fetchers m ∖ {[key]}) (m_closed m), true) else (m, false).
(** The second component: the fetchers that are shut down. *)
Definition Close (m : Manager) : Manager * gset tp := (mkManager (m_self m) ∅ true, m_fetchers m).

(** The decision at the top of each round: replicate from this address or end
    the session. *)
Definition keepSession (self : Z) (addr : string) (leader : option (Z * string)) : bool :=
  match leader with
  | None => false
  | Some (nodeID, cur) => negb (nodeID =? self) && String.eqb cur addr
  end.

(** ** The request reaches the server *)

Definition replicaRequest (replicaID : Z) (topic : string) (p fetchOffset : Z) : FetchRequest :=
  mkFetchRequest replicaID fetchMaxWaitMs fetchMinBytes fetchMaxBytes 0 0 0
    [mkFetchTopic topic [mkFetchPartition p fetchOffset 0 fetchMaxBytes]].

Lemma fetchBody_layout replicaID topic p off :
  forall w, fetchBody replicaID topic p off w =
            FetchRequest_layout fetchAPIVersion 0 (replicaRequest replicaID topic p off) w.
Proof. intros w. reflexivity. Qed.

Lemma RT_ext {A} w w' (d : rd A) v : (forall x, w x = w' x) -> RT w' d v -> RT w d v.
Proof. intros H (bs & He & Hp). exists bs. split; [|done]. intros x. by rewrite H. Qed.

Definition headerThenBody : rd (RequestHeader * FetchRequest) :=
  h ← DecodeRequestHeader; q ← FetchRequest_Decode (rh_APIVersion h); mret (h, q).

Lemma encodeFetch_RT replicaID topic p off corr :
  in_int 32 replicaID -> str_fits topic -> in_int 32 p -> in_int 64 off -> in_int 32 corr ->
  RT (fetchHeader corr ;> fetchBody replicaID topic p off)%wr headerThenBody
     (mkRequestHeader APIFetch fetchAPIVersion corr (Some "mq-replica"%string), replicaRequest replicaID topic p off).
Proof.
  intros H1 H2 H3 H4 H5. unfold headerThenBody. eapply RT_seq.
  - unfold fetchHeader, DecodeRequestHeader. wire; try (unfold APIFetch, fetchAPIVersion; auto with wire).
    + apply RTn_int16. unfold APIFetch. solve_int.
    + apply RTn_int16. unfold fetchAPIVersion. solve_int.
    + apply RTn_nullable. by vm_compute.
  - cbn beta. cbn [rh_APIVersion]. eapply RT_last; [|apply RT_ret].
    eapply RT_ext; [apply fetchBody_layout|]. apply FetchRequest_RT; [solve_int|].
    repeat (split || constructor || (intros ?; discriminate)); cbn; try done; try solve_int.
Qed.

(** ** The response comes back *)

Definition resultOf (p : FetchPartitionResp) : fetchPartitionResult :=
  mkResult (fpr_ErrorCode p) (fpr_HighWatermark p) (fpr_Records p).
Definition resultsOf (resp : FetchResponse) : list (list fetchPartitionResult) :=
  map (fun t => map resultOf (ftr_Partitions t)) (fresp_Topics resp).

Definition PartitionResp_fits (p : FetchPartitionResp) : Prop :=
  in_int 32 (fpr_Partition p) /\ in_int 16 (fpr_ErrorCode p) /\ in_int 64 (fpr_HighWatermark p) /\
  in_int 64 (fpr_LastStable p) /\ blob_fits (fpr_Records p).
Definition TopicResp_fits (t : FetchTopicResp) : Prop :=
  str_fits (ftr_Name t) /\ arr_fits (ftr_Partitions t) /\ Forall PartitionResp_fits (ftr_Partitions t).
Definition FetchResponse_fits (r : FetchResponse) : Prop :=
  in_int 32 (fresp_ThrottleTime r) /\ arr_fits (fresp_Topics r) /\ Forall TopicResp_fits (fresp_Topics r).

(** The frame the server writes for a fetch response at the replica's version. *)
Definition fetchFrame (corr : Z) (resp : FetchResponse) : list byte :=
  let payload := Finish (WriteResponseHeader corr ;> FetchResponse_Encode fetchAPIVersion resp)%wr in
  be_put 4 (zlen payload) ++ payload.

Lemma partitionResult_RT p : PartitionResp_fits p ->
  RTn (FetchPartitionResp_Encode fetchAPIVersion p) partitionResult (resultOf p).
Proof.
  destruct p as [i ec hw ls st rec]. intros (H1 & H2 & H3 & H4 & H5). cbn in *.
  assert (RTn (wInt32 i ;> wInt16 ec ;> wInt64 hw ;> wInt64 ls ;> wArray [] (fun _ : unit => wnop) ;> wBytes rec)%wr
            partitionResult (mkResult ec hw rec)) as Hrt.
  { unfold partitionResult. wire. apply (RTn_array_map _ _ (fun _ => tt)); [done|constructor]. }
  destruct Hrt as (bs & He & Hp & Hn). exists bs. split_and!; [|done|done]. intros w. apply (He w).
Qed.

Lemma fetchResults_RT corr resp : in_int 32 corr -> FetchResponse_fits resp ->
  RT (WriteResponseHeader corr ;> FetchResponse_Encode fetchAPIVersion resp)%wr fetchResults (resultsOf resp).
Proof.
  intros Hc. destruct resp as [th ec sid ts]. intros (H1 & H2 & H3). cbn in H1, H2, H3.
  apply (RT_ext _ (wInt32 corr ;> wInt32 th ;> wArray ts (FetchTopicResp_Encode fetchAPIVersion))%wr); [done|].
  unfold fetchResults, resultsOf. cbn [fresp_Topics]. wire. apply RTn_array_map; [done|].
  eapply Forall_impl; [exact H3|]. intros [n ps] (G1 & G2 & G3). cbn in *.
  unfold FetchTopicResp_Encode, topicResults. eapply RTn_seq; [by apply RTn_string|]. cbn.
  apply RTn_RT, RTn_array_map; [done|]. eapply Forall_impl; [exact G3|]. intros p. apply partitionResult_RT.
Qed.

Lemma ReadFull_app a b n : n = zlen a -> ReadFull n (a ++ b) = Some (a, b).
Proof.
  intros ->. unfold ReadFull. rewrite zlen_app. pose proof (zlen_nonneg b). ltb_false.
  by rewrite take_zlen, drop_zlen.
Qed.

Lemma readFetchResponse_frame corr resp rest :
  in_int 32 corr -> FetchResponse_fits resp -> zlen (fetchFrame corr resp) < 2 ^ 32 ->
  readFetchResponse (fetchFrame corr resp ++ rest) = (inl (firstResult (resultsOf resp)), rest).
Proof.
  intros Hc Hf Hsz. unfold readFetchResponse, fetchFrame in *.
  set (payload := Finish _) in *. rewrite <- app_assoc. rewrite zlen_app, zlen_be_put in Hsz.
  rewrite ReadFull_app by (by rewrite zlen_be_put).
  pose proof (zlen_nonneg payload). rewrite be_get_put, Z.mod_small by (change (256 ^ Z.of_nat 4) with (2 ^ 32); lia).
  rewrite ReadFull_app by done.
  destruct (RT_decodes _ _ _ (fetchResults_RT corr resp Hc Hf)) as (r & Hr & He & _).
  fold payload in Hr. by rewrite Hr, He.
Qed.

(** ** Applying a run of batches *)

(** The follower's log has room for a run of batches up to offset [n]. *)
Record room_all (l : Log) (rs : list (list byte)) (n : Z) : Prop := {
  ra_bytes : logSize (active l) + zlen (concat rs) < 2 ^ 31;
  ra_offset : n < 2 ^ 63;
  ra_span : n - baseOffset (active l) < 2 ^ 31 }.

Lemma visit_applies rs n l bss bs consumed :
  log_rep l bss bs -> chained (nextOffset l) rs n -> room_all l rs n ->
  exists l' bss' bs', visit (applyBatch (fun _ => io_ok)) (l, None) consumed rs None =
      Ret ((l', None), consumed + zlen (concat rs), None) /\
    log_rep l' bss' bs' /\ contents bss' bs' = contents bss bs ++ rs /\ nextOffset l' = n /\
    highWatermark l' = highWatermark l /\ EarliestOffset l' = EarliestOffset l.
Proof.
  revert l bss bs consumed. induction rs as [|b rs IH]; intros l bss bs consumed Hrep Hc [R1 R2 R3].
  - cbn in Hc. subst n. exists l, bss, bs. cbn. rewrite app_nil_r, zlen_nil, Z.add_0_r. by split_and!.
  - cbn [chained] in Hc. destruct Hc as [Hat Hc]. rewrite concat_cons, zlen_app in R1.
    pose proof (zlen_nonneg (concat rs)). pose proof (chained_le _ _ _ Hc). pose proof (ba_span _ _ Hat).
    assert (room l b (next_of b - nextOffset l)) as Hroom by (split; lia).
    destruct (AppendReplica_stores b l bss bs Hrep Hat Hroom) as (l1 & bss1 & bs1 & Ha & Hr1 & Hc1 & Hn1 & Hh1 & He1).
    destruct (AppendReplica_active _ _ _ _ _ _ Hrep Hat Hroom Ha) as [Hsz Hb].
    destruct (IH l1 bss1 bs1 (consumed + zlen b)) as (l2 & bss2 & bs2 & Hv & Hr2 & Hc2 & Hn2 & Hh2 & He2);
      [done|by rewrite Hn1|split; lia|].
    exists l2, bss2, bs2. cbn [visit applyBatch]. rewrite Ha. cbn [mbind go_bind]. rewrite Hv.
    split_and!; [|done|by rewrite Hc2, Hc1, <- app_assoc|done|congruence|congruence].
    rewrite concat_cons, zlen_app. do 3 f_equal. lia.
Qed.

Lemma applyResponse_appends rs n l bss bs hwm :
  log_rep l bss bs -> chained (nextOffset l) rs n -> room_all l rs n ->
  exists l' bss' bs', applyResponse (fun _ => io_ok) (mkResult CodeNone hwm (Some (concat rs))) l = Ret (l', true) /\
    log_rep l' bss' bs' /\ contents bss' bs' = contents bss bs ++ rs /\ nextOffset l' = n /\
    highWatermark l' = Z.max (highWatermark l) (Z.min hwm n) /\ EarliestOffset l' = EarliestOffset l.
Proof.
  intros Hrep Hc Hroom.
  destruct (visit_applies rs n l bss bs 0 Hrep Hc Hroom) as (l1 & bss1 & bs1 & Hv & Hr & Hco & Hn & Hh & He).
  destruct (SetHighWatermark_rep hwm l1 bss1 bs1 Hr) as (Gr & Gh & Gn & Gs).
  exists (SetHighWatermark hwm l1), bss1, bs1.
  assert (EarliestOffset (SetHighWatermark hwm l1) = EarliestOffset l) as Hee
    by (unfold EarliestOffset at 1, firstSegment; by rewrite Gs).
  split_and!; try done; [|congruence|rewrite Gh; congruence].
  unfold applyResponse. cbn [r_errorCode r_hwm r_records from_option Z.eqb CodeNone negb id]. cbn zeta.
  destruct (Z.ltb_spec 0 (zlen (concat rs))).
  - unfold Iterate. pose proof (iterate_loop_visits (applyBatch (fun _ => io_ok)) rs [] (S (length (concat rs))) [] (l, None)) as Hi.
    cbn [app] in Hi. rewrite app_nil_r in Hi. rewrite zlen_nil in Hi. rewrite Hi, Hv; [done| |by left|lia].
    by eapply chained_wf.
  - destruct rs as [|b rs]; [|cbn [chained] in Hc; destruct Hc as [Hat _]; pose proof (batch_wf_pos b (ba_wf _ _ Hat));
      rewrite concat_cons, zlen_app in *; pose proof (zlen_nonneg (concat rs)); lia].
    cbn in Hv. injection Hv as <-. done.
Qed.

(** ** Leader to follower *)

(** The response of the leader for one partition. *)
Definition partitionResponse (topic : string) (p hwm start : Z) (records : list byte) : FetchResponse :=
  mkFetchResponse 0 0 0 [mkFetchTopicResp topic [mkFetchPartitionResp p CodeNone hwm hwm start (Some records)]].

Lemma partitionResponse_fits topic p hwm start records :
  str_fits topic -> in_int 32 p -> in_int 64 hwm -> zlen records < 2 ^ 31 ->
  FetchResponse_fits (partitionResponse topic p hwm start records).
Proof. intros. repeat (split || constructor); cbn; try done; solve_int. Qed.

(** A frame that answers one partition. *)
Lemma fetchFrame_one corr topic p code hwm stable start records :
  str_fits topic -> zlen (default [] records) < 2 ^ 31 ->
  zlen (fetchFrame corr (mkFetchResponse 0 0 0 [mkFetchTopicResp topic [mkFetchPartitionResp p code hwm stable start records]])) < 2 ^ 32.
Proof.
  unfold str_fits. intros Ht Hr. unfold fetchFrame. rewrite zlen_app, zlen_be_put.
  set (resp := mkFetchResponse _ _ _ _).
  assert (zlen (Finish (WriteResponseHeader corr ;> FetchResponse_Encode fetchAPIVersion resp)%wr)
    = zlen (bytes_of_string topic) + zlen (default [] records) + 48) as ->; [|eval_pow; lia].
  unfold Finish, wseq, WriteResponseHeader, FetchResponse_Encode, fetchAPIVersion, resp, wArray, wArrayLen.
  cbn [fresp_Topics fresp_ThrottleTime wwhen wfor Z.leb Z.compare Pos.compare Pos.compare_cont].
  unfold wseq, wnop, FetchTopicResp_Encode, wArray, wString, wArrayLen, wseq, wInt16, wInt32, wRaw.
  cbn [ftr_Partitions ftr_Name wfor].
  unfold wseq, wnop, FetchPartitionResp_Encode, wBytes, wInt16, wInt32, wInt64, wwhen, wnop, wArrayLen, wInt32, wRaw, wseq.
  destruct records; cbn; rewrite !zlen_app, !zlen_be_put, ?zlen_nil; lia.
Qed.

Lemma fetchFrame_small corr topic p hwm start records :
  str_fits topic -> zlen records < 2 ^ 31 ->
  zlen (fetchFrame corr (partitionResponse topic p hwm start records)) < 2 ^ 32.
Proof. intros. by apply fetchFrame_one. Qed.

(** No batch is larger than the segment that holds it. *)
Lemma batches_bounded l bss bs max :
  log_rep l bss bs -> Forall (fun s => logSize s <= max) (segments l) ->
  Forall (fun b => zlen b <= max) (contents bss bs).
Proof.
  assert (forall s bs n, seg_rep s bs n -> logSize s <= max -> Forall (fun b => zlen b <= max) bs) as Hseg.
  { intros s bs0 n Hr. rewrite (sr_size _ _ _ Hr). clear. induction bs0 as [|b bs0 IH]; intros Hm; constructor;
      rewrite concat_cons, zlen_app in Hm; pose proof (zlen_nonneg (concat bs0)); pose proof (zlen_nonneg b);
      [lia|apply IH; lia]. }
  intros [(cs & a & -> & Hc & Ha) _] [Hcs [Hla _]%Forall_cons]%Forall_app. unfold contents. apply Forall_app.
  split; [|by eapply Hseg]. revert Hc. generalize (EarliestOffset l). clear Ha Hla. revert bss.
  induction Hcs as [|s cs Hs Hcs IH]; intros [|sbs bss] o; cbn [sealed]; try done.
  intros (_ & _ & x & Hr & Hrest). cbn [concat]. apply Forall_app. split; [by eapply Hseg|by eapply IH].
Qed.

(** A leader's read at the end of a follower that holds a prefix of its log. *)
Lemma Read_next L bl ll F bf lf max :
  log_rep L bl ll -> log_rep F bf lf -> contents bf lf `prefix_of` contents bl ll ->
  EarliestOffset F = EarliestOffset L -> LatestOffset F < LatestOffset L ->
  in_int 32 max -> Forall (fun b => zlen b <= max) (contents bl ll) ->
  exists rs tl n, Read (LatestOffset F) max L = Ret (concat rs, None) /\ rs <> [] /\
    contents bl ll = (contents bf lf ++ rs) ++ tl /\ chained (LatestOffset F) rs n /\
    n <= LatestOffset L /\ zlen (concat rs) <= max.
Proof.
  unfold LatestOffset. intros HL HF [tl0 Htl] He Hlt Hmax Hsz.
  pose proof (log_contents _ _ _ HF) as HcF. pose proof (log_contents _ _ _ HL) as HcL.
  pose proof (chained_le _ _ _ HcF).
  rewrite Htl in HcL. apply chained_app in HcL as (m & Hm1 & Hm2). rewrite <- He in Hm1.
  pose proof (chained_det _ _ _ _ Hm1 HcF) as ->.
  destruct (Read_spec L bl ll HL (nextOffset F) max Hmax) as (rs & tl & b & rs' & Hread & Hd & Hrs & _ & Hb); [lia|].
  rewrite Htl, drop_before_skip in Hd by (by eapply chained_below).
  rewrite (drop_before_none _ _ _ _ Hm2) in Hd by lia. subst tl0.
  apply chained_app in Hm2 as (n & Hn1 & Hn2).
  exists rs, tl, n. split_and!; [done|by rewrite Hrs|by rewrite Htl, app_assoc|done|by apply (chained_le _ _ _ Hn2)|].
  destruct Hb as [->|Hb]; [|done]. subst rs. cbn [concat]. rewrite app_nil_r.
  rewrite Htl in Hsz. apply Forall_app in Hsz as [_ [Hs _]%Forall_cons]. done.
Qed.

(** One round of a session: read, response, apply. *)
Lemma follower_round L bl ll F bf lf max topic p corr hwm start rest :
  log_rep L bl ll -> log_rep F bf lf -> contents bf lf `prefix_of` contents bl ll ->
  EarliestOffset F = EarliestOffset L -> LatestOffset F < LatestOffset L ->
  in_int 32 max -> Forall (fun b => zlen b <= max) (contents bl ll) ->
  logSize (active F) + max < 2 ^ 31 -> LatestOffset L - baseOffset (active F) < 2 ^ 31 ->
  str_fits topic -> in_int 32 p -> in_int 32 corr -> in_int 64 hwm ->
  exists records F' bf' lf', Read (LatestOffset F) max L = Ret (records, None) /\
    sessionRound (fun _ => io_ok) (fetchFrame corr (partitionResponse topic p hwm start records) ++ rest) F
      = Ret (F', true, rest) /\
    log_rep F' bf' lf' /\ contents bf lf `prefix_of` contents bf' lf' /\ contents bf' lf' `prefix_of` contents bl ll /\
    LatestOffset F < LatestOffset F' <= LatestOffset L /\ EarliestOffset F' = EarliestOffset L /\
    HighWatermark F' = Z.max (HighWatermark F) (Z.min hwm (LatestOffset F')).
Proof.
  intros HL HF Hpre He Hlt Hmax Hsz Hfit Hspan Ht Hp Hc Hh.
  destruct (Read_next L bl ll F bf lf max HL HF Hpre He Hlt Hmax Hsz) as (rs & tl & n & Hread & Hne & Hcont & Hch & Hn & Hb).
  assert (zlen (concat rs) < 2 ^ 31) as Hbig by solve_int.
  destruct (log_active _ _ _ HL) as (_ & _ & HLb).
  destruct (applyResponse_appends rs n F bf lf hwm HF Hch) as (F' & bf' & lf' & Happ & Hr' & Hc' & Hn' & Hh' & He').
  { unfold LatestOffset in *. split; lia. }
  exists (concat rs), F', bf', lf'. unfold LatestOffset, HighWatermark in *. split_and!; try done; try congruence.
  - unfold sessionRound. rewrite readFetchResponse_frame; [|done|by apply partitionResponse_fits|by apply fetchFrame_small].
    cbn [firstResult resultsOf partitionResponse fresp_Topics map ftr_Partitions].
    unfold resultOf. cbn [fpr_ErrorCode fpr_HighWatermark fpr_Records]. rewrite Happ. done.
  - rewrite Hc'. by eexists.
  - rewrite Hc', Hcont. by eexists.
  - rewrite Hn'. destruct rs as [|b rs]; [done|]. cbn [chained] in Hch.
    destruct Hch as [Hat Hch%chained_le]. pose proof (ba_span _ _ Hat). lia.
Qed.

(** ** Properties *)

(** the fetch request of a follower is what the leader's server decodes: the
    frame is its length followed by a request header for Fetch v4 and, at that
    version, the request for the one partition from the given offset, with the
    follower's node id as replica id. *)
Theorem encodeFetch_decodes replicaID topic p off corr :
  in_int 32 replicaID -> str_fits topic -> in_int 32 p -> in_int 64 off -> in_int 32 corr ->
  exists payload r, encodeFetch replicaID topic p off corr = be_put 4 (zlen payload) ++ payload /\
    headerThenBody (NewReader payload) =
      ((mkRequestHeader APIFetch fetchAPIVersion corr (Some "mq-replica"%string), replicaRequest replicaID topic p off), r) /\
    Err r = None /\ Pos r = zlen payload.
Proof.
  intros H1 H2 H3 H4 H5. eexists _. destruct (RT_decodes _ _ _ (encodeFetch_RT _ _ _ _ _ H1 H2 H3 H4 H5)) as (r & Hr).
  exists r. split; [reflexivity|exact Hr].
Qed.

Lemma encodeFetch_decodes_witness :
  exists payload r, encodeFetch 2 "orders" 1 77 9 = be_put 4 (zlen payload) ++ payload /\
    headerThenBody (NewReader payload) =
      ((mkRequestHeader APIFetch 4 9 (Some "mq-replica"%string), replicaRequest 2 "orders" 1 77), r) /\
    Err r = None /\ Pos r = zlen payload.
Proof. apply encodeFetch_decodes; try solve_int. vm_compute. reflexivity. Defined.

(** the follower reads back what the server wrote: of any Fetch v4 response
    frame, error code, high watermark and record set of the first partition of
    the first topic, and it leaves the stream at the next frame. *)
Theorem readFetchResponse_correct corr resp rest :
  in_int 32 corr -> FetchResponse_fits resp -> zlen (fetchFrame corr resp) < 2 ^ 32 ->
  readFetchResponse (fetchFrame corr resp ++ rest) = (inl (firstResult (resultsOf resp)), rest).
Proof. apply readFetchResponse_frame. Qed.

Lemma readFetchResponse_correct_witness :
  readFetchResponse (fetchFrame 1 (partitionResponse "t" 0 8 0 (be_put 3 5)) ++ be_put 2 9) =
  (inl (mkResult 0 8 (Some (be_put 3 5))), be_put 2 9).
Proof.
  apply (readFetchResponse_correct 1 (partitionResponse "t" 0 8 0 (be_put 3 5))).
  - solve_int.
  - apply partitionResponse_fits; [vm_compute; reflexivity|solve_int|solve_int|vm_compute; reflexivity].
  - vm_compute. reflexivity.
Defined.

(** replication is faithful and makes progress.  Let a follower's log hold a
    prefix of the leader's batches and be behind it.  One round - the leader
    reads at the follower's log end, its response crosses the wire, the follower
    applies it - leaves the follower with a strictly longer prefix of the
    leader's batches, byte for byte at the leader's offsets, and with the high
    watermark the leader reported, capped by what the follower holds; the
    session goes on. *)
Theorem follower_replicates L bl ll F bf lf max topic p corr hwm start rest :
  log_rep L bl ll -> log_rep F bf lf -> contents bf lf `prefix_of` contents bl ll ->
  EarliestOffset F = EarliestOffset L -> LatestOffset F < LatestOffset L ->
  in_int 32 max -> Forall (fun b => zlen b <= max) (contents bl ll) ->
  logSize (active F) + max < 2 ^ 31 -> LatestOffset L - baseOffset (active F) < 2 ^ 31 ->
  str_fits topic -> in_int 32 p -> in_int 32 corr -> in_int 64 hwm ->
  exists records F' bf' lf', Read (LatestOffset F) max L = Ret (records, None) /\
    sessionRound (fun _ => io_ok) (fetchFrame corr (partitionResponse topic p hwm start records) ++ rest) F
      = Ret (F', true, rest) /\
    log_rep F' bf' lf' /\ contents bf lf `prefix_of` contents bf' lf' /\ contents bf' lf' `prefix_of` contents bl ll /\
    LatestOffset F < LatestOffset F' <= LatestOffset L /\ EarliestOffset F' = EarliestOffset L /\
    HighWatermark F' = Z.max (HighWatermark F) (Z.min hwm (LatestOffset F')).
Proof. apply follower_round. Qed.

Lemma follower_replicates_witness :
  exists records F', Read 0 150 demoLog = Ret (records, None) /\
    sessionRound (fun _ => io_ok) (fetchFrame 1 (partitionResponse "t" 0 7 0 records) ++ []) (freshLog demoConfig)
      = Ret (F', true, []) /\ 0 < LatestOffset F' <= 7.
Proof.
  destruct demo_rep as (bss & bs & Hrep).
  destruct (follower_replicates demoLog bss bs (freshLog demoConfig) [] [] 150 "t" 0 1 7 0 [] Hrep (freshLog_rep _))
    as (records & F' & bf' & lf' & H1 & H2 & _ & _ & _ & H3 & _).
  - apply prefix_nil.
  - vm_compute. reflexivity.
  - vm_compute. reflexivity.
  - solve_int.
  - apply (batches_bounded demoLog bss bs 150 Hrep). apply (bool_decide_eq_true_1 _). vm_compute. reflexivity.
  - vm_compute. reflexivity.
  - vm_compute. reflexivity.
  - vm_compute. reflexivity.
  - solve_int.
  - solve_int.
  - solve_int.
  - exists records, F'. change (LatestOffset demoLog) with (nextOffset demoLog) in H3.
    assert (nextOffset demoLog = 7) as Hn by (vm_compute; reflexivity). rewrite Hn in H3.
    split; [exact H1|]. split; [exact H2|exact H3].
Defined.
