(* ===== verification/Cluster.v ===== *)
(** * internal/cluster/cluster.go: static membership and placement

    Every broker parses the same member specification and computes leaders,
    replica sets and group coordinators from it as pure functions.  The theorems
    show that placement never panics on a parsed cluster, that a replica set has
    the requested size, no duplicates and the leader first, and that brokers that
    were given the members in different orders agree on all of it. *)

From Stdlib Require Import Ascii.
From stdpp Require Import sorting.
From S2P Require Import Prelude Hash Kbytes Strconv.

Record BrokerInfo := mkBroker { NodeID : Z; Host : string; Port : Z }.
#[export] Instance BrokerInfo_eq_dec : EqDecision BrokerInfo.
Proof. solve_decision. Defined.

Record Cluster := mkCluster { self : Z; brokers : list BrokerInfo }.

Definition Single (nodeID : Z) (host : string) (port : Z) : Cluster :=
  mkCluster nodeID [mkBroker nodeID host port].

(** ** The string functions [Parse] uses *)

Definition is_space (c : ascii) : bool :=
  let n := char_code c in (n =? 32) || ((9 <=? n) && (n <=? 13)).

Fixpoint trimLeft (s : string) : string :=
  match s with String c t => if is_space c then trimLeft t else s | EmptyString => s end.
Fixpoint trimRight (s : string) : string :=
  match s with
  | EmptyString => EmptyString
  | String c t => match trimRight t with
                  | EmptyString => if is_space c then EmptyString else String c EmptyString
                  | t' => String c t'
                  end
  end.
(** [strings.TrimSpace] on the ASCII white space. *)
Definition TrimSpace (s : string) : string := trimRight (trimLeft s).

(** [strings.Split(s, sep)] for a one-character separator. *)
Fixpoint Split (s : string) (sep : ascii) : list string :=
  match s with
  | EmptyString => [EmptyString]
  | String c t =>
    if Ascii.eqb c sep then EmptyString :: Split t sep
    else match Split t sep with
         | p :: ps => String c p :: ps
         | [] => [String c EmptyString]
         end
  end.

(** [strings.Index], [strings.LastIndex] for a one-character needle; [None]: -1. *)
Fixpoint Index (s : string) (c : ascii) : option nat :=
  match s with
  | EmptyString => None
  | String d t => if Ascii.eqb d c then Some 0%nat else S <$> Index t c
  end.
Fixpoint LastIndex (s : string) (c : ascii) : option nat :=
  match s with
  | EmptyString => None
  | String d t => match LastIndex t c with
                  | Some i => Some (S i)
                  | None => if Ascii.eqb d c then Some 0%nat else None
                  end
  end.

(** ** Parsing the member list *)

(** One "id@host:port" part. *)
Definition parsePart (part : string) : BrokerInfo + error :=
  match Index part "@" with
  | None => inr ErrBadSpec
  | Some at_ =>
    match Atoi (string_take at_ part) with
    | None => inr ErrBadSpec
    | Some id =>
      let hostPort := string_drop (S at_) part in
      match LastIndex hostPort ":" with
      | None => inr ErrBadSpec
      | Some colon =>
        match Atoi (string_drop (S colon) hostPort) with
        | None => inr ErrBadSpec
        | Some port => inl (mkBroker (int32 id) (string_take colon hostPort) (int32 port))
        end
      end
    end
  end.

(** The loop over the parts: blank parts are skipped, the first bad one ends it. *)
Fixpoint parseParts (parts : list string) : list BrokerInfo + error :=
  match parts with
  | [] => inl []
  | part :: parts =>
    let part := TrimSpace part in
    if String.eqb part "" then parseParts parts
    else match parsePart part with
         | inr e => inr e
         | inl b => match parseParts parts with inr e => inr e | inl bs => inl (b :: bs) end
         end
  end.

Definition byNodeID (a b : BrokerInfo) : Prop := NodeID a <= NodeID b.
#[export] Instance byNodeID_dec : RelDecision byNodeID := fun a b => Z_le_dec (NodeID a) (NodeID b).
#[export] Instance byNodeID_total : Total byNodeID.
Proof. intros a b. unfold byNodeID. lia. Qed.
#[export] Instance byNodeID_trans : Transitive byNodeID.
Proof. intros a b c. unfold byNodeID. lia. Qed.

Fixpoint find_broker (id : Z) (bs : list BrokerInfo) : option BrokerInfo :=
  match bs with [] => None | b :: bs => if NodeID b =? id then Some b else find_broker id bs end.
Definition Broker (c : Cluster) (id : Z) : option BrokerInfo := find_broker id (brokers c).

Definition Parse (nodeID : Z) (spec selfHost : string) (selfPort : Z) : Cluster + error :=
  let spec := TrimSpace spec in
  if String.eqb spec "" then inl (Single nodeID selfHost selfPort)
  else match parseParts (Split spec ",") with
       | inr e => inr e
       | inl [] => inr ErrBadSpec
       | inl bs =>
         let c := mkCluster nodeID (merge_sort byNodeID bs) in
         match Broker c nodeID with None => inr ErrBadSpec | Some _ => inl c end
       end.

Definition Self (c : Cluster) : Z := self c.
Definition Size (c : Cluster) : Z := zlen (brokers c).
Definition Brokers (c : Cluster) : list BrokerInfo := brokers c.

(** ** Placement *)

Definition hash32 (s : string) : Z := Fnv.sum32a (bytes_of_string s).

(** [x % uint32(n)] and [c.brokers[i]]: division by zero and an index out of range panic. *)
Definition umod (x n : Z) : go Z := if uint32 n =? 0 then Panic else Ret (x mod uint32 n).
Definition nodeAt (c : Cluster) (i : Z) : go Z :=
  match brokers c !! Z.to_nat i with Some b => if 0 <=? i then Ret (NodeID b) else Panic | None => Panic end.

Definition LeaderFor (c : Cluster) (topic : string) (partition : Z) : go Z :=
  idx ← umod (uint32 (hash32 topic + uint32 partition)) (zlen (brokers c));
  nodeAt c idx.

Definition IsLeader (c : Cluster) (topic : string) (partition : Z) : go bool :=
  l ← LeaderFor c topic partition; mret (l =? self c).

Fixpoint replicas_loop (c : Cluster) (start : Z) (i : nat) (count : nat) : go (list Z) :=
  match count with
  | O => Ret []
  | S count =>
    idx ← umod (uint32 (start + uint32 (Z.of_nat i))) (zlen (brokers c));
    id ← nodeAt c idx;
    rest ← replicas_loop c start (S i) count;
    Ret (id :: rest)
  end.

Definition clampRF (c : Cluster) (rf : Z) : Z :=
  let n := int32 (zlen (brokers c)) in
  let rf := if rf <? 1 then 1 else rf in
  if n <? rf then n else rf.

Definition ReplicasFor (c : Cluster) (topic : string) (partition rf : Z) : go (list Z) :=
  start ← umod (uint32 (hash32 topic + uint32 partition)) (zlen (brokers c));
  replicas_loop c start 0 (Z.to_nat (clampRF c rf)).

Definition GroupCoordinator (c : Cluster) (groupID : string) : go Z :=
  idx ← umod (hash32 groupID) (zlen (brokers c)); nodeAt c idx.

Definition IsCoordinator (c : Cluster) (groupID : string) : go bool :=
  l ← GroupCoordinator c groupID; mret (l =? self c).

(** ** Placement on a non-empty cluster *)

(** A cluster as [Parse] and [Single] build it. *)
Record cluster_ok (c : Cluster) : Prop := {
  co_ne : brokers c <> [];
  co_small : zlen (brokers c) < 2 ^ 31 }.

(** The [i]-th broker from [start], wrapping around. *)
Definition ring (c : Cluster) (start i : Z) : Z :=
  default 0 (NodeID <$> brokers c !! Z.to_nat ((start + i) mod zlen (brokers c))).

(** The placement hash of a partition. *)
Definition slot (c : Cluster) (topic : string) (partition : Z) : Z :=
  uint32 (hash32 topic + uint32 partition) mod zlen (brokers c).

Section Placement.
Context (c : Cluster) (Hc : cluster_ok c).
Let n := zlen (brokers c).

Lemma size_range : 0 < n < 2 ^ 31.
Proof. destruct Hc as [H1 H2]. split; [by apply zlen_pos|done]. Qed.

Lemma umod_ok x : umod x n = Ret (x mod n).
Proof.
  pose proof size_range. unfold umod, uwrap. rewrite (Z.mod_small n) by (eval_pow; lia).
  by rewrite (proj2 (Z.eqb_neq _ _)) by lia.
Qed.

Lemma nodeAt_ok x : nodeAt c (x mod n) = Ret (ring c 0 x) /\ exists b, b ∈ brokers c /\ ring c 0 x = NodeID b.
Proof.
  pose proof size_range. pose proof (Z.mod_pos_bound x n ltac:(lia)) as Hx.
  unfold nodeAt, ring. fold n. rewrite Z.add_0_l.
  destruct (lookup_lt_is_Some_2 (brokers c) (Z.to_nat (x mod n))) as [b Hb]; [unfold n, zlen in *; lia|].
  rewrite Hb. leb_true. split; [done|]. exists b. split; [by eapply list_elem_of_lookup_2|done].
Qed.

Lemma ring_shift s i : ring c s i = ring c 0 (s + i).
Proof. unfold ring. by rewrite Z.add_0_l. Qed.

Lemma LeaderFor_ok topic p : LeaderFor c topic p = Ret (ring c (slot c topic p) 0).
Proof.
  unfold LeaderFor. fold n. rewrite umod_ok. cbn [mbind go_bind].
  destruct (nodeAt_ok (uint32 (hash32 topic + uint32 p))) as [-> _].
  unfold ring, slot. fold n. by rewrite Z.add_0_l, Z.add_0_r, Zmod_mod.
Qed.

Lemma replicas_loop_ok start i count :
  0 <= start < n -> Z.of_nat i + Z.of_nat count <= n ->
  replicas_loop c start i count = Ret (map (fun k => ring c start (Z.of_nat k)) (seq i count)).
Proof.
  intros Hs. pose proof size_range as Hn. revert i. induction count as [|count IH]; intros i Hi; [done|].
  cbn [replicas_loop seq map]. fold n.
  assert (uint32 (start + uint32 (Z.of_nat i)) = start + Z.of_nat i) as ->.
  { unfold uwrap. rewrite (Z.mod_small (Z.of_nat i)), Z.mod_small by (eval_pow; lia). done. }
  rewrite umod_ok. cbn [mbind go_bind]. destruct (nodeAt_ok (start + Z.of_nat i)) as [-> _].
  cbn [mbind go_bind]. rewrite IH by lia. cbn [mbind go_bind]. by rewrite ring_shift.
Qed.

Lemma ReplicasFor_ok topic p rf :
  let k := Z.min n (Z.max 1 rf) in
  ReplicasFor c topic p rf = Ret (map (fun i => ring c (slot c topic p) (Z.of_nat i)) (seq 0 (Z.to_nat k))).
Proof.
  intros k. pose proof size_range as Hn. unfold ReplicasFor. fold n. rewrite umod_ok. cbn [mbind go_bind].
  assert (clampRF c rf = k) as ->.
  { unfold clampRF, k. fold n. rewrite int32_id by solve_int.
    destruct (Z.ltb_spec rf 1); destruct (Z.ltb_spec n 1); destruct (Z.ltb_spec n rf); lia. }
  rewrite replicas_loop_ok; [done|apply Z.mod_pos_bound; lia|lia].
Qed.

(** Distinct members give distinct replicas. *)
Lemma ring_inj start i j :
  NoDup (map NodeID (brokers c)) -> 0 <= i < n -> 0 <= j < n -> ring c start i = ring c start j -> i = j.
Proof.
  intros Hnd Hi Hj. pose proof size_range as Hn. unfold ring. fold n.
  set (a := (start + i) mod n). set (b := (start + j) mod n).
  pose proof (Z.mod_pos_bound (start + i) n ltac:(lia)). pose proof (Z.mod_pos_bound (start + j) n ltac:(lia)).
  assert (forall x, 0 <= x < n -> exists v, brokers c !! Z.to_nat x = Some v) as Hl.
  { intros x Hx. apply lookup_lt_is_Some_2. unfold n, zlen in *. lia. }
  destruct (Hl a) as [va Hva]; [done|]. destruct (Hl b) as [vb Hvb]; [done|]. rewrite Hva, Hvb. cbn. intros Heq.
  assert (Z.to_nat a = Z.to_nat b) as Hab.
  { eapply (NoDup_lookup _ _ _ (NodeID va)); [exact Hnd| |]; rewrite list_lookup_fmap; [by rewrite Hva|].
    rewrite Hvb. cbn. by rewrite Heq. }
  assert (a = b) as Hm by lia. unfold a, b in Hm.
  pose proof (Z.div_mod (start + i) n). pose proof (Z.div_mod (start + j) n).
  set (d := (start + i) / n - (start + j) / n).
  assert (n * d = i - j) as Hd by (unfold d; lia).
  assert (d = 0) as ->; [|lia]. clear -Hd Hi Hj.
  destruct (Z.lt_trichotomy d 0) as [?|[?|?]]; nia.
Qed.
End Placement.

(** ** Agreement between brokers *)

Lemma find_broker_In id bs b : find_broker id bs = Some b -> b ∈ bs /\ NodeID b = id.
Proof.
  induction bs as [|x bs IH]; cbn; [done|].
  destruct (Z.eqb_spec (NodeID x) id) as [Heq|]; [intros [= <-]; split; [by left|done]|].
  intros Hf. destruct (IH Hf). split; [by right|done].
Qed.

(** What [Parse] makes of a specification with distinct node ids: the members in
    node-id order, and this broker among them. *)
Lemma parse_brokers nodeID spec h p c :
  Parse nodeID spec h p = inl c -> TrimSpace spec <> ""%string ->
  exists bs, parseParts (Split (TrimSpace spec) ",") = inl bs /\ bs <> [] /\ self c = nodeID /\
    brokers c = merge_sort byNodeID bs /\ exists b, b ∈ brokers c /\ NodeID b = nodeID.
Proof.
  unfold Parse. intros Hp Hne. destruct (String.eqb_spec (TrimSpace spec) ""); [done|].
  destruct (parseParts _) as [[|b bs]|e]; [done| |done].
  set (l := b :: bs) in *. destruct (Broker _ _) as [b'|] eqn:Hb; [|done]. injection Hp as <-.
  exists l. split_and!; try done. exists b'. by apply find_broker_In.
Qed.

Lemma by_id bs a b : NoDup (map NodeID bs) -> a ∈ bs -> b ∈ bs -> NodeID a = NodeID b -> a = b.
Proof.
  intros Hnd [i Hi]%list_elem_of_lookup [j Hj]%list_elem_of_lookup Heq.
  assert (i = j) as ->; [|congruence].
  eapply (NoDup_lookup _ _ _ (NodeID a)); [exact Hnd| |]; rewrite list_lookup_fmap;
    [by rewrite Hi|rewrite Hj; cbn; by rewrite Heq].
Qed.

Lemma sorted_agree bs bs' :
  NoDup (map NodeID bs) -> bs ≡ₚ bs' -> merge_sort byNodeID bs = merge_sort byNodeID bs'.
Proof.
  intros Hnd Hperm. apply (StronglySorted_unique_strong byNodeID).
  - intros a b Ha Hb Hab Hba. unfold byNodeID in Hab, Hba.
    rewrite merge_sort_Permutation in Ha, Hb. rewrite <- Hperm in Hb.
    apply (by_id bs); [done|done|done|lia].
  - apply StronglySorted_merge_sort; apply _.
  - apply StronglySorted_merge_sort; apply _.
  - by rewrite !merge_sort_Permutation.
Qed.

(** Placement looks at the members only. *)
Lemma placement_members c c' :
  brokers c = brokers c' ->
  (forall t p, LeaderFor c t p = LeaderFor c' t p) /\
  (forall t p rf, ReplicasFor c t p rf = ReplicasFor c' t p rf) /\
  (forall g, GroupCoordinator c g = GroupCoordinator c' g).
Proof.
  intros H. assert (forall i, nodeAt c i = nodeAt c' i) as Hn by (intros; unfold nodeAt; by rewrite H).
  assert (forall s k i, replicas_loop c s i k = replicas_loop c' s i k) as Hl.
  { intros s k. induction k as [|k IH]; intros i; cbn; [done|]. rewrite H.
    destruct (umod _ _); cbn; [|done..]. rewrite Hn. by rewrite IH. }
  unfold LeaderFor, ReplicasFor, GroupCoordinator, clampRF. rewrite H.
  split_and!; intros; (destruct (umod _ _); cbn; [|done..]); auto.
Qed.

(** ** Properties *)

(** C40: replica placement.  On a cluster of distinct members [ReplicasFor]
    answers, without panicking, as many node ids as asked for within one and the
    cluster size, all of them members, no two the same, and the first of them is
    the partition's leader. *)
Theorem ReplicasFor_correct c topic p rf :
  cluster_ok c -> NoDup (map NodeID (brokers c)) ->
  exists ids, ReplicasFor c topic p rf = Ret ids /\ zlen ids = Z.min (zlen (brokers c)) (Z.max 1 rf) /\
    NoDup ids /\ (forall id, id ∈ ids -> exists b, b ∈ brokers c /\ NodeID b = id) /\
    exists l rest, ids = l :: rest /\ LeaderFor c topic p = Ret l.
Proof.
  intros Hc Hnd. pose proof (size_range c Hc) as Hn. set (n := zlen (brokers c)) in *.
  rewrite ReplicasFor_ok by done. fold n. set (k := Z.min n (Z.max 1 rf)).
  eexists. split; [reflexivity|]. split_and!.
  - unfold zlen. rewrite length_map, length_seq. lia.
  - apply NoDup_fmap_2_strong; [|apply NoDup_seq]. intros i j Hi%elem_of_seq Hj%elem_of_seq Hr.
    apply Nat2Z.inj. apply (ring_inj c Hc _ _ _ Hnd) in Hr; [done|fold n; lia|fold n; lia].
  - intros id (i & -> & _)%list_elem_of_fmap. rewrite ring_shift.
    destruct (nodeAt_ok c Hc (slot c topic p + Z.of_nat i)) as [_ (b & Hb & ->)]. eauto.
  - destruct (Z.to_nat k) as [|k'] eqn:Ek; [lia|]. cbn [seq map]. eexists _, _. split; [reflexivity|].
    by apply LeaderFor_ok.
Qed.

Definition demoCluster : Cluster :=
  match Parse 2 "3@c:9094, 1@a:9092,2@b:9093" "x" 0 with inl c => c | inr _ => Single 0 "" 0 end.

Lemma ReplicasFor_correct_witness :
  exists ids, ReplicasFor demoCluster "orders" 5 2 = Ret ids /\ NoDup ids /\ zlen ids = 2.
Proof.
  destruct (ReplicasFor_correct demoCluster "orders" 5 2) as (ids & H1 & H2 & H3 & _).
  - split; [vm_compute; discriminate|vm_compute; reflexivity].
  - apply (bool_decide_eq_true_1 _). vm_compute. reflexivity.
  - exists ids. split_and!; [exact H1|exact H3|rewrite H2; vm_compute; reflexivity].
Defined.

(** brokers agree on placement.  Two brokers whose member lists name the same
    distinct members, in any order, compute the same leader and the same replicas
    for every partition and the same coordinator for every group, and each of
    them finds itself among the members. *)
Theorem brokers_agree n1 s1 n2 s2 h1 h2 p1 p2 c1 c2 bs1 bs2 :
  TrimSpace s1 <> ""%string -> TrimSpace s2 <> ""%string ->
  Parse n1 s1 h1 p1 = inl c1 -> Parse n2 s2 h2 p2 = inl c2 ->
  parseParts (Split (TrimSpace s1) ",") = inl bs1 -> parseParts (Split (TrimSpace s2) ",") = inl bs2 ->
  NoDup (map NodeID bs1) -> bs1 ≡ₚ bs2 ->
  brokers c1 = brokers c2 /\ (forall t p, LeaderFor c1 t p = LeaderFor c2 t p) /\
  (forall t p rf, ReplicasFor c1 t p rf = ReplicasFor c2 t p rf) /\
  (forall g, GroupCoordinator c1 g = GroupCoordinator c2 g) /\
  (exists b, b ∈ brokers c1 /\ NodeID b = Self c1) /\ (exists b, b ∈ brokers c2 /\ NodeID b = Self c2).
Proof.
  intros Ht1 Ht2 P1 P2 E1 E2 Hnd Hperm.
  destruct (parse_brokers _ _ _ _ _ P1 Ht1) as (l1 & F1 & _ & S1 & B1 & M1).
  destruct (parse_brokers _ _ _ _ _ P2 Ht2) as (l2 & F2 & _ & S2 & B2 & M2).
  rewrite E1 in F1. rewrite E2 in F2. simplify_eq.
  assert (brokers c1 = brokers c2) as Heq by (rewrite B1, B2; by apply sorted_agree).
  destruct (placement_members c1 c2 Heq) as (H1 & H2 & H3).
  unfold Self. by split_and!.
Qed.

Lemma brokers_agree_witness :
  exists c1 c2, Parse 1 "1@a:9092,2@b:9093" "x" 0 = inl c1 /\ Parse 2 "2@b:9093, 1@a:9092" "y" 0 = inl c2 /\
    forall g, GroupCoordinator c1 g = GroupCoordinator c2 g.
Proof.
  eexists _, _. split; [vm_compute; reflexivity|]. split; [vm_compute; reflexivity|].
  refine (proj1 (proj2 (proj2 (proj2 (brokers_agree 1 "1@a:9092,2@b:9093" 2 "2@b:9093, 1@a:9092" "x" "y" 0 0 _ _
    [mkBroker 1 "a" 9092; mkBroker 2 "b" 9093] [mkBroker 2 "b" 9093; mkBroker 1 "a" 9092] _ _ _ _ _ _ _ _)))));
    try (vm_compute; reflexivity); try (vm_compute; discriminate).
  - apply (bool_decide_eq_true_1 _). vm_compute. reflexivity.
  - apply perm_swap.
Defined.
