(* ===== verification/Fsm.v ===== *)
(** * internal/controller: the replicated metadata and leader failover

    command.go and fsm.go: the commands and the deterministic state machine they
    drive (topics with their partitions' replicas, leader, ISR and epoch, and the
    object index); liveness.go: which nodes are alive and the failover scan of
    the controller leader; indexstore.go: the object index on top of the state
    machine.  Raft itself (the hashicorp library) is outside: a run of the
    controller is the sequence of commands it commits, and the JSON encoding of
    commands and snapshots is the identity here. *)

From stdpp Require Import sorting.
From S2P Require Import Prelude Strconv.

(** ** Data *)

Record SegmentRef := mkRef {
  sr_Key : string; sr_BaseOffset : Z; sr_NextOffset : Z; sr_Position : Z; sr_Length : Z; sr_UploadedMs : Z }.

Record partitionMeta := mkPart { Replicas : list Z; Leader : Z; ISR : list Z; LeaderEpoch : Z }.
Record topicMeta := mkTopic { Partitions_ : Z; Parts : list partitionMeta }.
Record metaState := mkState {
  Topics_ : gmap string topicMeta; Segments_ : gmap string (list SegmentRef) }.

Definition NewFSM : metaState := mkState ∅ ∅.

(** The commands, each with the fields its type makes meaningful; [CmdOther]
    stands for every other type value, CmdHeartbeat included. *)
Inductive Command :=
  | CmdCreateTopic (topic : string) (replicas : list (list Z))
  | CmdCreatePartitions (topic : string) (replicas : list (list Z))
  | CmdChangeLeader (topic : string) (partition leader : Z) (isr : list Z)
  | CmdChangeISR (topic : string) (partition : Z) (isr : list Z)
  | CmdCommitSegment (topic : string) (partition : Z) (segment : option SegmentRef)
  | CmdPruneSegments (topic : string) (partition cutoff : Z)
  | CmdOther (type : Z).

(** ** The state machine *)

Definition partsFromReplicas (replicas : list (list Z)) : list partitionMeta :=
  map (fun rs => mkPart rs (match rs with r :: _ => r | [] => -1 end) rs 0) replicas.

Definition segKey (topic : string) (p : Z) : string :=
  (topic +:+ String Ascii.zero (Itoa p))%string.

(** [partition]: the position of the partition the returned pointer denotes. *)
Definition partition (st : metaState) (topic : string) (p : Z) : (topicMeta * partitionMeta) + error :=
  match Topics_ st !! topic with
  | None => inr ErrUnknownTopic
  | Some t =>
    if (p <? 0) || (zlen (Parts t) <=? p) then inr ErrNoPartition
    else match Parts t !! Z.to_nat p with Some pm => inl (t, pm) | None => inr ErrNoPartition end
  end.

(** A write through that pointer. *)
Definition setPartition (st : metaState) (topic : string) (t : topicMeta) (p : Z) (pm : partitionMeta) : metaState :=
  mkState (<[topic := mkTopic (Partitions_ t) (<[Z.to_nat p := pm]> (Parts t))]> (Topics_ st)) (Segments_ st).

Definition applyLocked (cmd : Command) (st : metaState) : metaState * option error :=
  match cmd with
  | CmdCreateTopic topic replicas =>
    match Topics_ st !! topic with
    | Some _ => (st, Some ErrTopicExists)
    | None =>
      (mkState (<[topic := mkTopic (int32 (zlen replicas)) (partsFromReplicas replicas)]> (Topics_ st)) (Segments_ st), None)
    end
  | CmdCreatePartitions topic replicas =>
    match Topics_ st !! topic with
    | None => (st, Some ErrUnknownTopic)
    | Some t =>
      let parts := Parts t ++ partsFromReplicas replicas in
      (mkState (<[topic := mkTopic (int32 (zlen parts)) parts]> (Topics_ st)) (Segments_ st), None)
    end
  | CmdChangeLeader topic p leader isr =>
    match partition st topic p with
    | inr e => (st, Some e)
    | inl (t, pm) => (setPartition st topic t p (mkPart (Replicas pm) leader isr (int32 (LeaderEpoch pm + 1))), None)
    end
  | CmdChangeISR topic p isr =>
    match partition st topic p with
    | inr e => (st, Some e)
    | inl (t, pm) => (setPartition st topic t p (mkPart (Replicas pm) (Leader pm) isr (LeaderEpoch pm)), None)
    end
  | CmdCommitSegment topic p segment =>
    match segment with
    | None => (st, Some ErrNilSegment)
    | Some r =>
      let k := segKey topic p in
      (mkState (Topics_ st) (<[k := default [] (Segments_ st !! k) ++ [r]]> (Segments_ st)), None)
    end
  | CmdPruneSegments topic p cutoff =>
    let k := segKey topic p in
    let kept := filter (fun r => cutoff < sr_NextOffset r) (default [] (Segments_ st !! k)) in
    (mkState (Topics_ st)
       (match kept with [] => delete k (Segments_ st) | _ => <[k := kept]> (Segments_ st) end), None)
  | CmdOther _ => (st, Some ErrBadCommand)
  end.

(** A run of committed commands; the errors go to the proposers. *)
Definition applyAll (cmds : list Command) (st : metaState) : metaState :=
  foldl (fun st cmd => fst (applyLocked cmd st)) st cmds.

(** ** Queries *)

Record PartitionView := mkView { v_Leader : Z; v_LeaderEpoch : Z; v_Replicas : list Z; v_ISR : list Z }.
Record TopicView := mkTopicView { tv_Name : string; tv_Partitions : Z; tv_Parts : list PartitionView }.

Definition viewPart (pm : partitionMeta) : PartitionView := mkView (Leader pm) (LeaderEpoch pm) (Replicas pm) (ISR pm).

Definition HasTopic (st : metaState) (name : string) : bool := bool_decide (is_Some (Topics_ st !! name)).

Definition Partition (st : metaState) (topic : string) (p : Z) : option PartitionView :=
  match partition st topic p with inl (_, pm) => Some (viewPart pm) | inr _ => None end.

Definition PartitionLeader (st : metaState) (topic : string) (p : Z) : option (Z * Z) :=
  match partition st topic p with inl (_, pm) => Some (Leader pm, LeaderEpoch pm) | inr _ => None end.

Definition Partitions (st : metaState) (topic : string) : option Z := Partitions_ <$> Topics_ st !! topic.

Definition byName (a b : TopicView) : Prop := String.leb (tv_Name a) (tv_Name b) = true.
#[export] Instance byName_dec : RelDecision byName.
Proof. intros a b. unfold byName. apply _. Defined.
Definition Topics (st : metaState) : list TopicView :=
  merge_sort byName
    (map (fun '(name, t) => mkTopicView name (Partitions_ t) (map viewPart (Parts t))) (map_to_list (Topics_ st))).

Definition Segments (st : metaState) (topic : string) (p : Z) : list SegmentRef :=
  default [] (Segments_ st !! segKey topic p).

Definition SegmentReferenced (st : metaState) (key : string) : bool :=
  existsb (fun '(_, refs) => existsb (fun r => String.eqb (sr_Key r) key) refs) (map_to_list (Segments_ st)).

(** ** indexstore.go *)

(** [Commit], [Load], [Prune] and [Referenced] with [Controller.Apply] answering
    the state machine's result. *)
Definition index_Commit (topic : string) (p : Z) (ref : SegmentRef) (st : metaState) : metaState * option error :=
  applyLocked (CmdCommitSegment topic p (Some ref)) st.
Definition index_Load (st : metaState) (topic : string) (p : Z) : list SegmentRef := Segments st topic p.
Definition index_Prune (topic : string) (p cutoff : Z) (st : metaState) : metaState * (list SegmentRef + error) :=
  let before := Segments st topic p in
  match applyLocked (CmdPruneSegments topic p cutoff) st with
  | (st', Some e) => (st', inr e)
  | (st', None) => (st', inl (filter (fun r => sr_NextOffset r <= cutoff) before))
  end.
Definition index_Referenced (st : metaState) (key : string) : bool := SegmentReferenced st key.

(** ** liveness.go *)

(** Times in milliseconds. *)
Definition livenessTimeout : Z := 3000.

Record liveness := mkLive { nodeID : Z; lastSeen : gmap Z Z; leaderSince : Z }.

Definition onBecomeLeader (now : Z) (lv : liveness) : liveness := mkLive (nodeID lv) ∅ now.
Definition recordHeartbeat (id now : Z) (lv : liveness) : liveness :=
  mkLive (nodeID lv) (<[id := now]> (lastSeen lv)) (leaderSince lv).

Definition alive (lv : liveness) (id now : Z) : bool :=
  (id =? nodeID lv) ||
  match lastSeen lv !! id with Some ls => now - ls <=? livenessTimeout | None => false end.

(** What the scan decides for one partition. *)
Definition failoverOf (lv : liveness) (now : Z) (pv : PartitionView) : option (Z * list Z) :=
  if (0 <=? v_Leader pv) && alive lv (v_Leader pv) now then None
  else match filter (fun id => alive lv id now = true) (v_ISR pv) with
       | [] => None
       | s :: survivors => if s =? v_Leader pv then None else Some (s, s :: survivors)
       end.

Fixpoint failoverParts (lv : liveness) (now : Z) (topic : string) (p : Z) (pvs : list PartitionView) : list Command :=
  match pvs with
  | [] => []
  | pv :: pvs =>
    match failoverOf lv now pv with
    | Some (leader, isr) => [CmdChangeLeader topic (int32 p) leader isr]
    | None => []
    end ++ failoverParts lv now topic (p + 1) pvs
  end.

(** [checkFailover]: the commands the scan commits, in order.  The topics are a
    copy taken at the start. *)
Definition checkFailover (lv : liveness) (now : Z) (st : metaState) : list Command :=
  if now - leaderSince lv <? livenessTimeout then []
  else concat (map (fun tv => failoverParts lv now (tv_Name tv) 0 (tv_Parts tv)) (Topics st)).

(** ** Names of index entries *)

Fixpoint no_nul (s : string) : bool :=
  match s with EmptyString => true | String c s => negb (Ascii.eqb c Ascii.zero) && no_nul s end.

Lemma no_nul_app a b : no_nul (a +:+ b) = no_nul a && no_nul b.
Proof.
  induction a as [|c a IH]; [done|]. change ((String c a +:+ b)%string) with (String c (a +:+ b)).
  cbn [no_nul]. rewrite IH. by destruct (negb _).
Qed.

Lemma no_nul_digits w z : no_nul (put_digits w z) = true.
Proof.
  revert z. induction w as [|w IH]; intros z; [done|]. cbn [put_digits]. rewrite no_nul_app, IH. cbn [no_nul andb].
  rewrite andb_true_r. pose proof (Z.mod_pos_bound z 10 ltac:(lia)) as Hd. apply negb_true_iff.
  destruct (Ascii.eqb_spec (digit_char (z mod 10)) Ascii.zero) as [H|]; [|done].
  apply (f_equal char_code) in H. rewrite char_code_digit in H by lia. change (char_code Ascii.zero) with 0 in H. lia.
Qed.

Lemma no_nul_Itoa z : no_nul (Itoa z) = true.
Proof. unfold Itoa. destruct (z <? 0); [cbn [no_nul]; rewrite no_nul_digits|apply no_nul_digits]; done. Qed.

Lemma nul_split a b x y :
  no_nul x = true -> no_nul y = true ->
  (a +:+ String Ascii.zero x)%string = (b +:+ String Ascii.zero y)%string -> a = b /\ x = y.
Proof.
  intros Hx Hy. revert b. induction a as [|c a IH]; intros [|d b]; cbn.
  - by intros [= ->].
  - change ((String d b +:+ String Ascii.zero y)%string) with (String d (b +:+ String Ascii.zero y)).
    intros [= <- ->]. by rewrite no_nul_app in Hx; cbn in Hx; rewrite andb_false_r in Hx.
  - change ((String c a +:+ String Ascii.zero x)%string) with (String c (a +:+ String Ascii.zero x)).
    intros [= -> <-]. by rewrite no_nul_app in Hy; cbn in Hy; rewrite andb_false_r in Hy.
  - change ((String c a +:+ String Ascii.zero x)%string) with (String c (a +:+ String Ascii.zero x)).
    change ((String d b +:+ String Ascii.zero y)%string) with (String d (b +:+ String Ascii.zero y)).
    intros [= -> H]. by destruct (IH b H) as [-> ->].
Qed.

Lemma segKey_inj t p t' p' :
  in_int 64 p -> in_int 64 p' -> segKey t p = segKey t' p' -> t = t' /\ p = p'.
Proof.
  intros Hp Hp' H. apply nul_split in H as [-> H]; [|apply no_nul_Itoa..]. split; [done|].
  apply (f_equal (ParseInt 64)) in H. rewrite !ParseInt_Itoa in H by done. by injection H.
Qed.

(** ** What a command does to a partition *)

Lemma partition_lookup st topic p :
  match partition st topic p with
  | inl (t, pm) => Topics_ st !! topic = Some t /\ Parts t !! Z.to_nat p = Some pm /\ 0 <= p < zlen (Parts t)
  | inr _ => True
  end.
Proof.
  unfold partition. destruct (Topics_ st !! topic) as [t|]; [|done].
  destruct (_ || _) eqn:Hc; [done|]. apply orb_false_iff in Hc as [?%Z.ltb_ge ?%Z.leb_gt].
  destruct (Parts t !! Z.to_nat p) eqn:E; [|done]. split_and!; done || lia.
Qed.

Lemma partition_found st topic p t pm :
  Topics_ st !! topic = Some t -> Parts t !! Z.to_nat p = Some pm -> 0 <= p -> partition st topic p = inl (t, pm).
Proof.
  intros Ht Hp Hpos. unfold partition. rewrite Ht. pose proof (lookup_lt_Some _ _ _ Hp) as Hl.
  ltb_false. rewrite (proj2 (Z.leb_gt _ _)) by (unfold zlen; lia). cbn [orb]. by rewrite Hp.
Qed.

Lemma partition_set st topic t p pm pm' topic' p' :
  Topics_ st !! topic = Some t -> Parts t !! Z.to_nat p = Some pm -> 0 <= p ->
  partition (setPartition st topic t p pm') topic' p' =
  if decide (topic' = topic /\ p' = p)
  then inl (mkTopic (Partitions_ t) (<[Z.to_nat p := pm']> (Parts t)), pm')
  else match partition st topic' p' with
       | inl (t', q) => inl (if decide (topic' = topic) then mkTopic (Partitions_ t) (<[Z.to_nat p := pm']> (Parts t)) else t', q)
       | inr e => inr e
       end.
Proof.
  intros Ht Hp Hpos. pose proof (lookup_lt_Some _ _ _ Hp) as Hl.
  destruct (decide (topic' = topic)) as [->|Hne].
  - unfold partition. cbn [setPartition Topics_]. rewrite lookup_insert_eq, Ht. cbn [Parts].
    assert (zlen (<[Z.to_nat p := pm']> (Parts t)) = zlen (Parts t)) as -> by (unfold zlen; by rewrite length_insert).
    destruct (decide (topic = topic /\ p' = p)) as [[_ ->]|Hd].
    + ltb_false. rewrite (proj2 (Z.leb_gt _ _)) by (unfold zlen; lia). cbn [orb].
      by rewrite list_lookup_insert_eq.
    + destruct (_ || _) eqn:Hc; [done|]. apply orb_false_iff in Hc as [?%Z.ltb_ge ?%Z.leb_gt].
      assert (p' <> p) by (intros ->; by destruct Hd).
      rewrite list_lookup_insert_ne by lia. by destruct (Parts t !! Z.to_nat p').
  - rewrite decide_False by (by intros [? _]). unfold partition. cbn [setPartition Topics_].
    rewrite lookup_insert_ne by done. destruct (Topics_ st !! topic') as [t'|]; [|done].
    destruct (_ || _); [done|]. by destruct (Parts t' !! _).
Qed.

Lemma Partition_cases st topic p :
  (exists t pm, partition st topic p = inl (t, pm) /\ Partition st topic p = Some (viewPart pm) /\
     Topics_ st !! topic = Some t /\ Parts t !! Z.to_nat p = Some pm /\ 0 <= p < zlen (Parts t)) \/
  (exists e, partition st topic p = inr e /\ Partition st topic p = None).
Proof.
  pose proof (partition_lookup st topic p) as H. unfold Partition.
  destruct (partition st topic p) as [[t pm]|e]; [left|right; by exists e].
  exists t, pm. naive_solver.
Qed.

Definition withLeader (leader : Z) (isr : list Z) (v : PartitionView) : PartitionView :=
  mkView leader (int32 (v_LeaderEpoch v + 1)) (v_Replicas v) isr.
Definition withISR (isr : list Z) (v : PartitionView) : PartitionView :=
  mkView (v_Leader v) (v_LeaderEpoch v) (v_Replicas v) isr.

Lemma Partition_set st topic t p pm pm' topic' p' :
  Topics_ st !! topic = Some t -> Parts t !! Z.to_nat p = Some pm -> 0 <= p ->
  Partition (setPartition st topic t p pm') topic' p' =
  if decide (topic' = topic /\ p' = p) then Some (viewPart pm') else Partition st topic' p'.
Proof.
  intros Ht Hp Hpos. unfold Partition. erewrite partition_set by done.
  destruct (decide _); [done|]. by destruct (partition st topic' p') as [[t' q]|e].
Qed.

(** Both partition commands: the new view of the partition, all others as they were. *)
Lemma Partition_ChangeLeader st topic p leader isr topic' p' :
  Partition (fst (applyLocked (CmdChangeLeader topic p leader isr) st)) topic' p' =
  if decide (topic' = topic /\ p' = p) then withLeader leader isr <$> Partition st topic' p' else Partition st topic' p'.
Proof.
  cbn [applyLocked]. destruct (Partition_cases st topic p) as [(t & pm & Hp & Hv & Ht & Hq & Hr)|(e & Hp & Hv)]; rewrite Hp; cbn [fst].
  - erewrite Partition_set by (done || lia). destruct (decide _) as [[-> ->]|]; [by rewrite Hv|done].
  - destruct (decide _) as [[-> ->]|]; [by rewrite Hv|done].
Qed.

Lemma Partition_ChangeISR st topic p isr topic' p' :
  Partition (fst (applyLocked (CmdChangeISR topic p isr) st)) topic' p' =
  if decide (topic' = topic /\ p' = p) then withISR isr <$> Partition st topic' p' else Partition st topic' p'.
Proof.
  cbn [applyLocked]. destruct (Partition_cases st topic p) as [(t & pm & Hp & Hv & Ht & Hq & Hr)|(e & Hp & Hv)]; rewrite Hp; cbn [fst].
  - erewrite Partition_set by (done || lia). destruct (decide _) as [[-> ->]|]; [by rewrite Hv|done].
  - destruct (decide _) as [[-> ->]|]; [by rewrite Hv|done].
Qed.

(** Growing a topic keeps the partitions it has. *)
Lemma Partition_grow st st' topic t parts topic' p' v :
  Topics_ st !! topic = Some t -> Topics_ st' = <[topic := mkTopic (int32 (zlen (Parts t ++ parts))) (Parts t ++ parts)]> (Topics_ st) ->
  Partition st topic' p' = Some v -> Partition st' topic' p' = Some v.
Proof.
  intros Ht Hst Hv. destruct (Partition_cases st topic' p') as [(t' & pm & Hp & Hv' & Ht' & Hq & Hr)|(e & _ & Hv')]; [|congruence].
  unfold Partition. rewrite Hv in Hv'. destruct (decide (topic' = topic)) as [->|Hne].
  - simplify_eq. erewrite (partition_found st'); [done|by rewrite Hst, lookup_insert_eq| |lia].
    cbn [Parts]. by apply lookup_app_l_Some.
  - erewrite (partition_found st'); [by rewrite Hv'|by rewrite Hst, lookup_insert_ne|done|lia].
Qed.

(** How a view may change under one command: the replicas never, the leader only
    together with the epoch. *)
Definition advances (v v' : PartitionView) : Prop :=
  v_Replicas v' = v_Replicas v /\
  ((v_LeaderEpoch v' = v_LeaderEpoch v /\ v_Leader v' = v_Leader v) \/ v_LeaderEpoch v' = v_LeaderEpoch v + 1).

Lemma apply_advances cmd st topic p v :
  Partition st topic p = Some v -> 0 <= v_LeaderEpoch v < 2 ^ 31 - 1 ->
  exists v', Partition (fst (applyLocked cmd st)) topic p = Some v' /\ advances v v'.
Proof.
  intros Hv He. assert (advances v v) as Hrefl by (split; auto).
  destruct cmd as [t rs|t rs|t q l isr|t q isr|t q s|t q c|ty].
  - cbn [applyLocked]. destruct (Topics_ st !! t) as [tm|] eqn:E; cbn [fst]; [by exists v|].
    exists v. split; [|done].
    destruct (Partition_cases st topic p) as [(t' & pm & Hp & Hv' & Ht' & Hq & Hr)|(e & _ & Hv')]; [|congruence].
    assert (topic <> t) by (intros ->; congruence).
    unfold Partition. erewrite partition_found; [by rewrite <- Hv', Hv|cbn; by rewrite lookup_insert_ne|done|lia].
  - cbn [applyLocked]. destruct (Topics_ st !! t) as [tm|] eqn:E; cbn [fst]; [|by exists v].
    exists v. split; [|done]. by eapply Partition_grow.
  - rewrite Partition_ChangeLeader. destruct (decide _) as [[-> ->]|]; [|by exists v].
    rewrite Hv. eexists. split; [reflexivity|]. split; [done|]. right. cbn. apply int32_id. eval_pow. lia.
  - rewrite Partition_ChangeISR. destruct (decide _) as [[-> ->]|]; [|by exists v].
    rewrite Hv. eexists. split; [reflexivity|]. split; [done|]. by left.
  - exists v. cbn. by destruct s.
  - by exists v.
  - by exists v.
Qed.

(** ** Runs of commands *)

Lemma applyAll_app a b st : applyAll (a ++ b) st = applyAll b (applyAll a st).
Proof. unfold applyAll. by rewrite foldl_app. Qed.

Lemma applyAll_cons c cs st : applyAll (c :: cs) st = applyAll cs (fst (applyLocked c st)).
Proof. done. Qed.

Lemma applyAll_advances cmds st topic p v :
  Partition st topic p = Some v -> 0 <= v_LeaderEpoch v -> v_LeaderEpoch v + zlen cmds < 2 ^ 31 ->
  exists v', Partition (applyAll cmds st) topic p = Some v' /\ v_Replicas v' = v_Replicas v /\
    v_LeaderEpoch v <= v_LeaderEpoch v' <= v_LeaderEpoch v + zlen cmds /\
    (v_LeaderEpoch v' = v_LeaderEpoch v -> v_Leader v' = v_Leader v).
Proof.
  revert st v. induction cmds as [|c cmds IH]; intros st v Hv H0 Hb.
  - exists v. rewrite zlen_nil in *. split_and!; done || lia.
  - rewrite zlen_cons in Hb. pose proof (zlen_nonneg cmds). rewrite applyAll_cons.
    destruct (apply_advances c st topic p v Hv) as (v1 & Hv1 & Hr1 & Hc); [eval_pow; lia|].
    destruct (IH _ v1 Hv1) as (v2 & Hv2 & Hr2 & He2 & Hl2); [lia|lia|].
    exists v2. rewrite zlen_cons. split_and!; [done|congruence|lia|lia|].
    intros Heq. destruct Hc as [[? ?]|?]; [|lia]. rewrite Hl2 by lia. done.
Qed.

(** ** The failover scan *)

Abbreviation change := ((string * Z) * (Z * list Z))%type.
Definition toCmd (c : change) : Command :=
  let '((t, p), (l, isr)) := c in CmdChangeLeader t p l isr.

Lemma applyAll_changes (cs : list change) st topic p :
  NoDup cs.*1 ->
  Partition (applyAll (map toCmd cs) st) topic p =
  match (list_to_map cs : gmap (string * Z) (Z * list Z)) !! (topic, p) with
  | Some (l, isr) => withLeader l isr <$> Partition st topic p
  | None => Partition st topic p
  end.
Proof.
  revert st. induction cs as [|[[t q] [l isr]] cs IH]; intros st Hnd; [done|].
  cbn [map fmap list_fmap fst] in *. apply NoDup_cons in Hnd as [Hx Hnd].
  rewrite applyAll_cons, IH by done. cbn [toCmd]. rewrite Partition_ChangeLeader. cbn [list_to_map foldr].
  destruct (decide (topic = t /\ p = q)) as [[-> ->]|Hne].
  - rewrite lookup_insert_eq. by rewrite (not_elem_of_list_to_map_1 cs (t, q)).
  - rewrite lookup_insert_ne by naive_solver. done.
Qed.

(** The changes the scan decides, with the partition they are for. *)
Definition failoverChange (lv : liveness) (now : Z) (k : string * Z) (pv : PartitionView) : option change :=
  (fun '(l, isr) => (k, (l, isr))) <$> failoverOf lv now pv.

Fixpoint indexed (topic : string) (p : Z) (pvs : list PartitionView) : list ((string * Z) * PartitionView) :=
  match pvs with [] => [] | pv :: pvs => ((topic, int32 p), pv) :: indexed topic (p + 1) pvs end.

Definition allParts (st : metaState) : list ((string * Z) * PartitionView) :=
  concat (map (fun tv => indexed (tv_Name tv) 0 (tv_Parts tv)) (Topics st)).

Definition failoverChanges (lv : liveness) (now : Z) (st : metaState) : list change :=
  omap (fun '(k, pv) => failoverChange lv now k pv) (allParts st).

Lemma failoverParts_changes lv now topic p pvs :
  failoverParts lv now topic p pvs =
  map toCmd (omap (fun '(k, pv) => failoverChange lv now k pv) (indexed topic p pvs)).
Proof.
  revert p. induction pvs as [|pv pvs IH]; intros p; [done|]. cbn. unfold failoverChange at 1.
  rewrite IH. by destruct (failoverOf lv now pv) as [[l isr]|].
Qed.

Lemma checkFailover_changes lv now st :
  livenessTimeout <= now - leaderSince lv -> checkFailover lv now st = map toCmd (failoverChanges lv now st).
Proof.
  intros H. unfold checkFailover, failoverChanges, allParts. ltb_false.
  induction (Topics st) as [|tv tvs IH]; [done|]. cbn [map concat].
  by rewrite failoverParts_changes, IH, omap_app, map_app.
Qed.

Lemma indexed_elem topic p pvs k pv :
  0 <= p -> p + zlen pvs < 2 ^ 31 ->
  (k, pv) ∈ indexed topic p pvs <-> exists i, k = (topic, p + Z.of_nat i) /\ pvs !! i = Some pv.
Proof.
  revert p. induction pvs as [|x pvs IH]; intros p Hp Hb; cbn [indexed].
  - rewrite elem_of_nil. split; [done|]. intros (i & _ & Hi). done.
  - rewrite zlen_cons in Hb. pose proof (zlen_nonneg pvs). rewrite elem_of_cons, IH by lia.
    rewrite int32_id by solve_int. split.
    + intros [[= -> ->]|(i & -> & Hi)]; [exists 0%nat; split; [f_equal; lia|done]|].
      exists (S i). split; [f_equal; lia|done].
    + intros ([|i] & -> & Hi); [left; cbn in Hi; simplify_eq; do 2 f_equal; lia|].
      right. exists i. split; [f_equal; lia|done].
Qed.

Lemma indexed_NoDup topic p pvs :
  0 <= p -> p + zlen pvs < 2 ^ 31 -> NoDup (indexed topic p pvs).*1 /\
  Forall (fun k => fst k = topic /\ p <= snd k) (indexed topic p pvs).*1.
Proof.
  revert p. induction pvs as [|x pvs IH]; intros p Hp Hb; [split; constructor|].
  rewrite zlen_cons in Hb. pose proof (zlen_nonneg pvs). destruct (IH (p + 1)) as [H1 H2]; [lia|lia|].
  cbn [indexed fmap list_fmap fst]. rewrite int32_id by solve_int. split.
  - constructor; [|done]. intros Hin. rewrite Forall_forall in H2. apply H2 in Hin as [_ ?]. cbn in *. lia.
  - constructor; [split; [done|cbn; lia]|].
    eapply Forall_impl; [exact H2|]. intros [? ?] [? ?]. cbn in *. split; [done|lia].
Qed.

(** Partition counts fit an int32. *)
Definition small_topics (st : metaState) : Prop := map_Forall (fun _ t => zlen (Parts t) < 2 ^ 31) (Topics_ st).

Lemma Topics_elem st tv :
  tv ∈ Topics st <-> exists name t, Topics_ st !! name = Some t /\
    tv = mkTopicView name (Partitions_ t) (map viewPart (Parts t)).
Proof.
  unfold Topics. rewrite merge_sort_Permutation, list_elem_of_fmap. split.
  - intros ([name t] & -> & Hin%elem_of_map_to_list). by exists name, t.
  - intros (name & t & Ht & ->). exists (name, t). split; [done|by apply elem_of_map_to_list].
Qed.

Lemma Topics_NoDup st : NoDup (map tv_Name (Topics st)).
Proof.
  unfold Topics. rewrite merge_sort_Permutation, map_map.
  erewrite map_ext; [apply (NoDup_fst_map_to_list (Topics_ st))|]. by intros [].
Qed.

Lemma allParts_elem st t p pv : small_topics st ->
  ((t, p), pv) ∈ allParts st <-> Partition st t p = Some pv.
Proof.
  intros Hsm. unfold allParts. rewrite elem_of_list_concat. split.
  - intros (l & Hin & (tv & -> & Htv)%list_elem_of_fmap). apply Topics_elem in Htv as (name & tm & Htm & ->). cbn [tv_Name tv_Parts] in *.
    apply indexed_elem in Hin as (i & [= -> ->] & Hi); [|lia|rewrite zlen_map; apply (Hsm _ _ Htm)].
    rewrite list_lookup_fmap in Hi. apply fmap_Some in Hi as (pm & Hpm & ->).
    unfold Partition. erewrite partition_found; [done|exact Htm| |lia]. by rewrite Z.add_0_l, Nat2Z.id.
  - intros Hv. destruct (Partition_cases st t p) as [(tm & pm & Hp & Hv' & Ht & Hq & Hr)|(e & _ & Hv')]; [|congruence].
    exists (indexed t 0 (map viewPart (Parts tm))). split.
    + apply indexed_elem; [lia|rewrite zlen_map; apply (Hsm _ _ Ht)|].
      exists (Z.to_nat p). split; [f_equal; lia|]. rewrite list_lookup_fmap, Hq. cbn. congruence.
    + apply list_elem_of_fmap. exists (mkTopicView t (Partitions_ tm) (map viewPart (Parts tm))).
      split; [done|]. apply Topics_elem. by exists t, tm.
Qed.

Lemma allParts_NoDup st : small_topics st -> NoDup (allParts st).*1.
Proof.
  intros Hsm. unfold allParts. pose proof (Topics_NoDup st) as Hnd.
  assert (Forall (fun tv => 0 + zlen (tv_Parts tv) < 2 ^ 31) (Topics st)) as Hb.
  { apply Forall_forall. intros tv (name & tm & Htm & ->)%Topics_elem. cbn. rewrite zlen_map. apply (Hsm _ _ Htm). }
  induction Hb as [|tv tvs Htv Hb IH]; [constructor|]. cbn [map concat] in *. apply NoDup_cons in Hnd as [Hx Hnd].
  rewrite fmap_app. destruct (indexed_NoDup (tv_Name tv) 0 (tv_Parts tv)) as [H1 H2]; [lia|done|].
  apply NoDup_app. split_and!; [done| |by apply IH].
  intros k Hk1 Hk2. rewrite Forall_forall in H2. apply H2 in Hk1 as [Hname _]. apply Hx. rewrite <- Hname.
  apply list_elem_of_fmap in Hk2 as ([k' pv] & -> & (l & Hin & (tv' & -> & Htv')%list_elem_of_fmap)%elem_of_list_concat).
  rewrite Forall_forall in Hb. specialize (Hb tv' Htv').
  destruct (indexed_NoDup (tv_Name tv') 0 (tv_Parts tv')) as [_ H3]; [lia|done|].
  rewrite Forall_forall in H3. cbn. destruct (H3 k') as [-> _]; [|by apply list_elem_of_fmap_2].
  apply list_elem_of_fmap. by exists (k', pv).
Qed.

Lemma omap_keys_NoDup {K A B} (f : K -> A -> option B) (l : list (K * A)) :
  NoDup l.*1 -> NoDup (omap (fun '(k, a) => (fun b => (k, b)) <$> f k a) l).*1.
Proof.
  induction l as [|[k a] l IH]; intros Hnd; [constructor|]. cbn in *. apply NoDup_cons in Hnd as [Hx Hnd].
  destruct (f k a) as [b|]; cbn; [|by apply IH]. constructor; [|by apply IH].
  intros ([k' b'] & -> & ([k'' a''] & Hin & Heq)%list_elem_of_omap)%list_elem_of_fmap. apply Hx. cbn in *.
  destruct (f k'' a''); [|done]. cbn in Heq. simplify_eq. apply list_elem_of_fmap. by exists (k', a'').
Qed.

(** The view of a partition after the scan. *)
Definition failedOver (lv : liveness) (now : Z) (v : PartitionView) : PartitionView :=
  match failoverOf lv now v with Some (l, isr) => withLeader l isr v | None => v end.

Lemma failover_view lv now st topic p :
  small_topics st -> livenessTimeout <= now - leaderSince lv ->
  Partition (applyAll (checkFailover lv now st) st) topic p = failedOver lv now <$> Partition st topic p.
Proof.
  intros Hsm Ht. rewrite checkFailover_changes by done.
  assert (NoDup (failoverChanges lv now st).*1) as Hnd.
  { pose proof (omap_keys_NoDup (fun _ pv => failoverOf lv now pv) (allParts st) (allParts_NoDup st Hsm)) as H.
    unfold failoverChanges. erewrite list_omap_ext; [exact H|].
    apply Forall_Forall2_diag, Forall_forall. intros [k pv] _. unfold failoverChange.
    by destruct (failoverOf lv now pv) as [[]|]. }
  rewrite applyAll_changes by done.
  destruct (Partition st topic p) as [v|] eqn:Hv.
  - cbn. unfold failedOver.
    destruct (failoverOf lv now v) as [[l isr]|] eqn:Hf.
    + rewrite (elem_of_list_to_map_1 _ (topic, p) (l, isr)); [done|done|]. unfold failoverChanges. apply list_elem_of_omap.
      exists ((topic, p), v). split; [by apply allParts_elem|]. unfold failoverChange. by rewrite Hf.
    + destruct (list_to_map (failoverChanges lv now st) !! (topic, p)) as [[l isr]|] eqn:Hl; [|done].
      apply elem_of_list_to_map_2, list_elem_of_omap in Hl as ([[t q] pv] & Hin & Heq).
      unfold failoverChange in Heq. destruct (failoverOf lv now pv) as [[? ?]|] eqn:Hf'; [|done]. cbn in Heq. simplify_eq.
      apply allParts_elem in Hin; [|done]. congruence.
  - by destruct (_ !! _) as [[l isr]|].
Qed.

(** ** The object index *)

Lemma Segments_insert st k refs topic p :
  Segments (mkState (Topics_ st) (<[k := refs]> (Segments_ st))) topic p =
  if decide (segKey topic p = k) then refs else Segments st topic p.
Proof.
  unfold Segments. cbn [Segments_]. destruct (decide _) as [<-|Hne]; [by rewrite lookup_insert_eq|].
  by rewrite lookup_insert_ne.
Qed.

Lemma Segments_prune st topic p cutoff topic' p' :
  Segments (fst (applyLocked (CmdPruneSegments topic p cutoff) st)) topic' p' =
  if decide (segKey topic' p' = segKey topic p)
  then filter (fun r => cutoff < sr_NextOffset r) (Segments st topic p) else Segments st topic' p'.
Proof.
  cbn [applyLocked fst]. change (default [] (Segments_ st !! segKey topic p)) with (Segments st topic p).
  destruct (filter _ (Segments st topic p)) as [|r refs] eqn:Hf; [|by rewrite Segments_insert].
  unfold Segments at 1. cbn [Segments_]. destruct (decide _) as [->|Hne]; [by rewrite lookup_delete_eq|].
  by rewrite lookup_delete_ne.
Qed.

Lemma decide_key topic p topic' p' {A} (x y : A) :
  in_int 64 p -> in_int 64 p' ->
  (if decide (segKey topic' p' = segKey topic p) then x else y) =
  (if decide (topic' = topic /\ p' = p) then x else y).
Proof.
  intros Hp Hp'. destruct (decide (segKey topic' p' = segKey topic p)) as [H|H].
  - apply segKey_inj in H as [-> ->]; [|done..]. by rewrite decide_True.
  - rewrite decide_False; [done|]. by intros [-> ->].
Qed.

Lemma referenced_spec st key :
  SegmentReferenced st key = true <->
  exists k refs r, Segments_ st !! k = Some refs /\ r ∈ refs /\ sr_Key r = key.
Proof.
  unfold SegmentReferenced. rewrite existsb_exists. split.
  - intros ([k refs] & Hin%list_elem_of_In%elem_of_map_to_list & (r & Hr%list_elem_of_In & Hk%String.eqb_eq)%existsb_exists).
    by exists k, refs, r.
  - intros (k & refs & r & Hk & Hr & <-). exists (k, refs). split; [by apply list_elem_of_In, elem_of_map_to_list|].
    apply existsb_exists. exists r. split; [by apply list_elem_of_In|apply String.eqb_refl].
Qed.

(** ** A concrete run *)

Definition demoMeta : metaState :=
  applyAll [CmdCreateTopic "orders" [[1; 2; 3]; [2; 3; 1]]; CmdChangeISR "orders" 0 [1; 3]] NewFSM.

(** Node 2 leads the controller; it has heard from 3, not from 1. *)
Definition demoLive : liveness := mkLive 2 {[3 := 9000]} 0.

(** ** Properties *)

(** C23: fencing.  Through any sequence of committed commands, whatever they are, a
    partition keeps its replica set, its leader epoch never decreases, grows by
    at most one per command, and its leader is the same whenever its epoch is:
    two different leaders never share an epoch. *)
Theorem leader_epoch_fences cmds st topic p v :
  Partition st topic p = Some v -> 0 <= v_LeaderEpoch v -> v_LeaderEpoch v + zlen cmds < 2 ^ 31 ->
  exists v', Partition (applyAll cmds st) topic p = Some v' /\ v_Replicas v' = v_Replicas v /\
    v_LeaderEpoch v <= v_LeaderEpoch v' <= v_LeaderEpoch v + zlen cmds /\
    (v_LeaderEpoch v' = v_LeaderEpoch v -> v_Leader v' = v_Leader v).
Proof. apply applyAll_advances. Qed.

Lemma leader_epoch_fences_witness :
  exists v', Partition (applyAll [CmdChangeLeader "orders" 0 3 [3]; CmdOther 5] demoMeta) "orders" 0 = Some v' /\
    v_Replicas v' = [1; 2; 3] /\ 0 <= v_LeaderEpoch v' <= 2.
Proof.
  destruct (leader_epoch_fences [CmdChangeLeader "orders" 0 3 [3]; CmdOther 5] demoMeta "orders" 0 (mkView 1 0 [1; 2; 3] [1; 3]))
    as (v' & H1 & H2 & H3 & _); [vm_compute; reflexivity|cbn; lia|vm_compute; reflexivity|].
  exists v'. split_and!; [exact H1|exact H2|apply H3|apply H3].
Defined.

(** One partition whose leader is gone. *)
Lemma failover_elects lv now st topic p v s rest :
  small_topics st -> livenessTimeout <= now - leaderSince lv -> Partition st topic p = Some v ->
  let survivors := filter (fun id => alive lv id now = true) (v_ISR v) in
  v_Leader v < 0 \/ alive lv (v_Leader v) now = false -> survivors = s :: rest -> s <> v_Leader v ->
  Partition (applyAll (checkFailover lv now st) st) topic p = Some (mkView s (int32 (v_LeaderEpoch v + 1)) (v_Replicas v) survivors) /\
  s ∈ v_ISR v /\ alive lv s now = true.
Proof.
  intros Hsm Ht Hv survivors Hdead Hs Hne. rewrite failover_view, Hv by done. cbn [fmap option_fmap option_map].
  unfold failedOver, failoverOf. assert ((0 <=? v_Leader v) && alive lv (v_Leader v) now = false) as ->.
  { destruct Hdead as [?| ->]; [leb_false; done|apply andb_false_r]. }
  fold survivors. rewrite Hs, (proj2 (Z.eqb_neq _ _)) by done. split; [done|].
  assert (s ∈ survivors) as [? ?]%list_elem_of_filter; [|done]. rewrite Hs. by left.
Qed.

(** C24: failover.  Past the grace period one scan and the commands it commits
    leave every partition with a live leader untouched, and give a partition
    whose leader is dead or missing the first live member of its ISR as leader,
    with the live members of the ISR as ISR and the next epoch; a partition with
    no live ISR member is left alone.  So only in-sync replicas are elected. *)
Theorem failover_correct lv now st topic p v :
  small_topics st -> livenessTimeout <= now - leaderSince lv -> Partition st topic p = Some v ->
  let survivors := filter (fun id => alive lv id now = true) (v_ISR v) in
  let st' := applyAll (checkFailover lv now st) st in
  (0 <= v_Leader v -> alive lv (v_Leader v) now = true -> Partition st' topic p = Some v) /\
  (survivors = [] -> Partition st' topic p = Some v) /\
  (forall s rest, v_Leader v < 0 \/ alive lv (v_Leader v) now = false -> survivors = s :: rest -> s <> v_Leader v ->
     Partition st' topic p = Some (mkView s (int32 (v_LeaderEpoch v + 1)) (v_Replicas v) survivors) /\
     s ∈ v_ISR v /\ alive lv s now = true).
Proof.
  intros Hsm Ht Hv. cbn zeta. split_and!.
  - intros H0 Ha. rewrite failover_view, Hv by done. cbn. unfold failedOver, failoverOf. leb_true. by rewrite Ha.
  - intros Hs. rewrite failover_view, Hv by done. cbn. unfold failedOver, failoverOf. rewrite Hs. by destruct (_ && _).
  - intros s rest. by apply failover_elects.
Qed.

Lemma failover_correct_witness :
  Partition (applyAll (checkFailover demoLive 10000 demoMeta) demoMeta) "orders" 0 = Some (mkView 3 1 [1; 2; 3] [3]).
Proof.
  refine (proj1 (proj2 (proj2 (failover_correct demoLive 10000 demoMeta "orders" 0 (mkView 1 0 [1; 2; 3] [1; 3]) _ _ _)) 3 [] _ _ _)).
  - apply (bool_decide_eq_true_1 _). vm_compute. reflexivity.
  - vm_compute. discriminate.
  - vm_compute. reflexivity.
  - right. vm_compute. reflexivity.
  - vm_compute. reflexivity.
  - vm_compute. discriminate.
Defined.

(** the object index kept in the state machine is a map from partitions to
    their slices.  A commit appends one slice to its partition, a prune removes
    exactly the slices that end at or below the cutoff and reports exactly
    those, both leave every other partition alone whatever the topic names, and
    an object counts as referenced while any partition holds a slice of it. *)
Theorem index_store_correct st topic p topic' p' ref cutoff :
  in_int 32 p -> in_int 32 p' ->
  (snd (index_Commit topic p ref st) = None /\
   index_Load (fst (index_Commit topic p ref st)) topic' p' =
     if decide (topic' = topic /\ p' = p) then index_Load st topic p ++ [ref] else index_Load st topic' p') /\
  (exists dropped, snd (index_Prune topic p cutoff st) = inl dropped /\
   dropped = filter (fun r => sr_NextOffset r <= cutoff) (index_Load st topic p) /\
   index_Load (fst (index_Prune topic p cutoff st)) topic' p' =
     if decide (topic' = topic /\ p' = p) then filter (fun r => cutoff < sr_NextOffset r) (index_Load st topic p)
     else index_Load st topic' p') /\
  (forall key, index_Referenced st key = false -> forall r, r ∈ index_Load st topic p -> sr_Key r <> key).
Proof.
  intros Hp Hp'. assert (in_int 64 p /\ in_int 64 p') as [Hp64 Hp64'] by (split; solve_int).
  unfold index_Commit, index_Load, index_Prune, index_Referenced. split_and!.
  - done.
  - cbn [applyLocked fst]. rewrite Segments_insert. by apply decide_key.
  - eexists. split; [reflexivity|]. split; [done|].
    change (fst _) with (fst (applyLocked (CmdPruneSegments topic p cutoff) st)).
    rewrite Segments_prune. by apply decide_key.
  - intros key Hf r Hr Hk. unfold Segments in Hr. destruct (Segments_ st !! segKey topic p) as [refs|] eqn:E; cbn in Hr;
      [|by apply elem_of_nil in Hr].
    assert (SegmentReferenced st key = true) as Ht; [|congruence]. apply referenced_spec. by exists (segKey topic p), refs, r.
Qed.

Lemma index_store_correct_witness :
  index_Load (fst (index_Commit "t" 1 (mkRef "k" 0 5 0 100 0) NewFSM)) "t" 1 = [mkRef "k" 0 5 0 100 0].
Proof.
  refine (proj2 (proj1 (index_store_correct NewFSM "t" 1 "t" 1 (mkRef "k" 0 5 0 100 0) 0 _ _))); solve_int.
Defined.
