(* ===== verification/Rpc.v ===== *)
(** * internal/controller/rpc.go, controller.go: proposing from any node

    Every node may change the metadata, but only the raft leader may propose: a
    follower sends the command to the leader in a length-prefixed frame and
    retries while the leader is unavailable.  Heartbeats use the same frames.  The
    raft library is outside: what a node sees of it and what its Apply answers is
    an argument of each step ([attempt]), and a proposal that committed changes the
    state machine ([Fsm]) as [applyLocked] says.  JSON is a parameter with the
    documented round trip of valid UTF-8; an error crosses the wire as its text,
    here as the error.  fsm.go's Apply, Snapshot and Restore, which work on encoded
    commands and states, are here too. *)

From stdpp Require Import countable finite.
From S2P Require Import Prelude Strconv Replication Fsm.

(** ** Frames *)

Definition rpcMaxFrame : Z := Z.shiftl 1 20.

Definition writeFrame (payload : list byte) : list byte := be_put 4 (uint32 (zlen payload)) ++ payload.

Definition readFrame (stream : list byte) : (list byte + error) * list byte :=
  match ReadFull 4 stream with
  | None => (inr ErrEOF, [])
  | Some (hdr, stream) =>
    let n := be_get hdr in
    if (n =? 0) || (rpcMaxFrame <? n) then (inr ErrFrame, stream)
    else match ReadFull n stream with
         | None => (inr ErrEOF, [])
         | Some (buf, stream) => (inl buf, stream)
         end
  end.

Lemma read_writeFrame payload rest : 0 < zlen payload <= rpcMaxFrame -> readFrame (writeFrame payload ++ rest) = (inl payload, rest).
Proof.
  intros Hp. unfold readFrame, writeFrame. rewrite <- app_assoc, ReadFull_app by (by rewrite zlen_be_put).
  change rpcMaxFrame with 1048576 in *. rewrite be_get_put. change (256 ^ Z.of_nat 4) with (2 ^ 32). unfold uwrap.
  rewrite Zmod_mod, Z.mod_small by (eval_pow; lia). rewrite (proj2 (Z.eqb_neq _ _)), (proj2 (Z.ltb_ge _ _)) by lia. cbn [orb].
  by rewrite ReadFull_app.
Qed.

(** ** Messages *)

(** What the frames carry: a command of the state machine or a heartbeat. *)
Inductive rpcCommand := RCommand (cmd : Command) | RHeartbeat (from : Z).

(** [rpcResult]: no error means the command committed. *)
Record rpcResult := mkRpcResult { rr_Error : option error }.

(** encoding/json.  A decoded state has nil maps where the encoding has none. *)
Class Json := {
  marshalCmd : rpcCommand -> list byte;
  unmarshalCmd : list byte -> option rpcCommand;
  marshalRes : rpcResult -> list byte;
  unmarshalRes : list byte -> option rpcResult;
  marshalState : metaState -> list byte;
  unmarshalState : list byte -> option (option (gmap string topicMeta) * option (gmap string (list SegmentRef))) }.

(** Valid UTF-8, which encoding/json keeps (other bytes it replaces). *)
Definition in_range (lo hi : Z) (c : Ascii.ascii) : bool := (lo <=? char_code c) && (char_code c <=? hi).
Fixpoint utf8 (s : string) : bool :=
  match s with
  | EmptyString => true
  | String a s1 =>
    if in_range 0 127 a then utf8 s1
    else match s1 with
    | EmptyString => false
    | String b s2 =>
      if in_range 194 223 a then in_range 128 191 b && utf8 s2
      else match s2 with
      | EmptyString => false
      | String c s3 =>
        if in_range 224 239 a then
          in_range (if char_code a =? 224 then 160 else 128) (if char_code a =? 237 then 159 else 191) b && in_range 128 191 c && utf8 s3
        else match s3 with
        | EmptyString => false
        | String d s4 =>
          in_range 240 244 a && in_range (if char_code a =? 240 then 144 else 128) (if char_code a =? 244 then 143 else 191) b &&
          in_range 128 191 c && in_range 128 191 d && utf8 s4
        end
      end
    end
  end.

(** The commands that are values of Go's struct: valid text, and [CmdOther] with a
    type byte that is none of the other commands'. *)
Definition CmdHeartbeat : Z := 5.
Definition cmd_valid (c : rpcCommand) : bool :=
  match c with
  | RCommand (CmdCreateTopic t _ | CmdCreatePartitions t _ | CmdChangeLeader t _ _ _ | CmdChangeISR t _ _ | CmdPruneSegments t _ _) => utf8 t
  | RCommand (CmdCommitSegment t _ r) => utf8 t && match r with Some r => utf8 (sr_Key r) | None => true end
  | RCommand (CmdOther n) => (n =? 0) || (8 <=? n) && (n <? 256)
  | RHeartbeat _ => true
  end.
Definition state_utf8 (st : metaState) : Prop :=
  (forall t, is_Some (Topics_ st !! t) -> utf8 t = true) /\
  (forall k refs, Segments_ st !! k = Some refs -> utf8 k = true /\ Forall (fun r => utf8 (sr_Key r) = true) refs).

Class JsonLaws `{Json} : Prop := {
  json_cmd c : cmd_valid c = true -> unmarshalCmd (marshalCmd c) = Some c;
  json_res r : unmarshalRes (marshalRes r) = Some r;
  json_res_size r : 0 < zlen (marshalRes r) <= rpcMaxFrame;
  json_state st : state_utf8 st -> exists ts ss, unmarshalState (marshalState st) = Some (ts, ss) /\
    default ∅ ts = Topics_ st /\ default ∅ ss = Segments_ st }.

(** ** controller.go *)

(** [raft.LeaderWithID] answers the server id of the leader, a node id in decimal,
    or the empty string. *)
Definition itoa (n : Z) : string := Itoa n.
Definition LeaderID (id : string) : option Z :=
  if String.eqb id "" then None else n ← Atoi id; Some (int32 n).

Record Peer := mkPeer { pe_NodeID : Z; pe_RaftAddr : string; pe_RPCAddr : string }.
Definition rpcAddrs (peers : list Peer) : gmap Z string :=
  foldl (fun m p => if String.eqb (pe_RPCAddr p) "" then m else <[pe_NodeID p := pe_RPCAddr p]> m) ∅ peers.

(** What [raft.Apply] did with a proposal: it committed, or its future failed, and
    then it may have committed all the same. *)
Inductive raftOutcome := Committed | Failed (committed : bool) (er : error).

(** The waits, in milliseconds. *)
Definition applyTimeout : Z := 10000.
Definition retryPause : Z := 50.
Definition rpcDialWait : Z := 3000.
Definition rpcCallWait : Z := applyTimeout + 2000.

(** One round of [Apply], as the world answers it: the node's own role and the
    leader it knows; for a forwarded command, whether the connection, the request
    and the reply get through and how long each of them takes, the role of the
    node it reaches and what raft does there; and how long raft takes when the
    node itself leads. *)
Record attempt := mkAttempt {
  at_leader : bool; at_known : string; at_dial : bool; at_sent : bool;
  at_remote : bool; at_raft : raftOutcome; at_reply : bool;
  at_dialTook : Z; at_sendTook : Z; at_replyTook : Z; at_raftTook : Z }.

(** A step of the call gets through when it does so within its wait, and ends the
    call at its wait otherwise. *)
Definition within (ok : bool) (ms wait : Z) : bool := ok && (ms <=? wait).
Definition took (ms wait : Z) : Z := Z.min wait (Z.max 0 ms).

(** A controller node: its clock and liveness are those of the node reached. *)
Record ctrlNode := mkCtrl { cn_state : metaState; cn_live : liveness }.

Section Rpc.
Context `{Json}.

(** A heartbeat is no command of the state machine. *)
Definition asCommand (c : rpcCommand) : Command := match c with RCommand cmd => cmd | RHeartbeat _ => CmdOther CmdHeartbeat end.

Definition fsm_Apply (data : list byte) (st : metaState) : metaState * option error :=
  match unmarshalCmd data with
  | None => (st, Some ErrBadCommand)
  | Some c => applyLocked (asCommand c) st
  end.

(** The leader encodes the command, raft replicates the bytes, and the state
    machine's answer comes back. *)
Definition proposeLocal (isLeader : bool) (out : raftOutcome) (cmd : Command) (st : metaState) : metaState * option error :=
  if negb isLeader then (st, Some ErrCtrlNotLeader)
  else match out with
       | Committed => fsm_Apply (marshalCmd (RCommand cmd)) st
       | Failed committed er => (if committed then fst (fsm_Apply (marshalCmd (RCommand cmd)) st) else st, Some er)
       end.

(** ** rpc.go *)

(** [serveRPCConn] on the bytes of a connection: the new state and the bytes of the
    reply. *)
Definition serveRPCConn (now : Z) (isLeader : bool) (out : raftOutcome) (stream : list byte) (c : ctrlNode) : ctrlNode * list byte :=
  match readFrame stream with
  | (inr _, _) => (c, [])
  | (inl frame, _) =>
    match unmarshalCmd frame with
    | None => (c, writeFrame (marshalRes (mkRpcResult (Some ErrBadCommand))))
    | Some (RHeartbeat from) =>
      (mkCtrl (cn_state c) (recordHeartbeat from now (cn_live c)), writeFrame (marshalRes (mkRpcResult None)))
    | Some (RCommand cmd) =>
      let '(st', er) := proposeLocal isLeader out cmd (cn_state c) in
      (mkCtrl st' (cn_live c), writeFrame (marshalRes (mkRpcResult er)))
    end
  end.

(** The end of [forwardToLeader]: what the reply says. *)
Definition readReply (stream : list byte) : option error :=
  match readFrame stream with
  | (inr _, _) => Some ErrUnavailable
  | (inl frame, _) =>
    match unmarshalRes frame with
    | None => Some ErrUnavailable
    | Some res =>
      match rr_Error res with
      | None => None
      | Some er => if decide (er = ErrCtrlNotLeader) then Some ErrUnavailable else Some er
      end
    end
  end.

Definition forwardToLeader (addrs : gmap Z string) (now : Z) (a : attempt) (cmd : Command) (c : ctrlNode) : ctrlNode * option error :=
  match LeaderID (at_known a) with
  | None => (c, Some ErrUnavailable)
  | Some id =>
    match addrs !! id with
    | None => (c, Some ErrNoAddr)
    | Some _ =>
      if negb (within (at_dial a) (at_dialTook a) rpcDialWait) then (c, Some ErrUnavailable)
      else if negb (within (at_sent a) (at_sendTook a) rpcCallWait) then (c, Some ErrUnavailable)
      else
        let '(c', reply) := serveRPCConn now (at_remote a) (at_raft a) (writeFrame (marshalCmd (RCommand cmd))) c in
        if negb (within (at_reply a) (at_replyTook a) rpcCallWait) then (c', Some ErrUnavailable) else (c', readReply reply)
    end
  end.

(** How long it takes. *)
Definition forwardTook (addrs : gmap Z string) (a : attempt) : Z :=
  match LeaderID (at_known a) with
  | None => 0
  | Some id =>
    match addrs !! id with
    | None => 0
    | Some _ =>
      let d := took (at_dialTook a) rpcDialWait in
      if negb (within (at_dial a) (at_dialTook a) rpcDialWait) then d
      else
        let s := d + took (at_sendTook a) rpcCallWait in
        if negb (within (at_sent a) (at_sendTook a) rpcCallWait) then s else s + took (at_replyTook a) rpcCallWait
    end
  end.

(** The loop of [Apply]: the attempts it makes, in order, the first at [now]; [Spin]
    when they run out.  The answer comes with the time it is given. *)
Fixpoint apply_loop (addrs : gmap Z string) (now deadline : Z) (atts : list attempt) (cmd : Command) (c : ctrlNode)
    : go (ctrlNode * option error * Z) :=
  match atts with
  | [] => Spin
  | a :: atts =>
    if at_leader a then
      let '(st', er) := proposeLocal true (at_raft a) cmd (cn_state c) in
      Ret (mkCtrl st' (cn_live c), er, now + Z.max 0 (at_raftTook a))
    else
      let t := now + forwardTook addrs a in
      match forwardToLeader addrs now a cmd c with
      | (c', Some ErrUnavailable) =>
        if negb (t <? deadline) then Ret (c', Some ErrUnavailable, t) else apply_loop addrs (t + retryPause) deadline atts cmd c'
      | (c', r) => Ret (c', r, t)
      end
  end.

Definition Apply (addrs : gmap Z string) (now : Z) (atts : list attempt) (cmd : Command) (c : ctrlNode) : go (ctrlNode * option error * Z) :=
  apply_loop addrs now (now + applyTimeout) atts cmd c.

(** ** liveness.go *)

(** [sendHeartbeat] of node [self], delivered to the leader's controller. *)
Definition sendHeartbeat (addrs : gmap Z string) (self now : Z) (a : attempt) (c : ctrlNode) : ctrlNode :=
  match LeaderID (at_known a) with
  | None => c
  | Some id =>
    if id =? self then c
    else match addrs !! id with
         | None => c
         | Some _ =>
           if negb (at_dial a) || negb (at_sent a) then c
           else fst (serveRPCConn now (at_remote a) (at_raft a) (writeFrame (marshalCmd (RHeartbeat self))) c)
         end
  end.

(** One tick of [runLiveness] on node [self], with the controller its beat reaches:
    the liveness state, whether it was leader, that controller afterwards and the
    commands the failover scan proposes. *)
Definition livenessTick (addrs : gmap Z string) (self now : Z) (a : attempt) (isLeader wasLeader : bool) (st : metaState)
    (lv : liveness) (c : ctrlNode) : liveness * bool * ctrlNode * list Command :=
  let lv' := if isLeader && negb wasLeader then onBecomeLeader now lv else lv in
  (lv', isLeader, sendHeartbeat addrs self now a c, if isLeader then checkFailover lv' now st else []).

(** ** fsm.go, on encoded states *)

Definition Snapshot (st : metaState) : list byte := marshalState st.

Definition Restore (data : list byte) (st : metaState) : metaState * option error :=
  match unmarshalState data with
  | None => (st, Some ErrBadCommand)
  | Some (ts, ss) => (mkState (default ∅ ts) (default ∅ ss), None)
  end.

(** A replica applies the committed entries in order. *)
Definition fsm_run (entries : list (list byte)) (st : metaState) : metaState :=
  foldl (fun st e => fst (fsm_Apply e st)) st entries.

End Rpc.

(** ** A forwarded command *)

Lemma LeaderID_itoa n : in_int 32 n -> LeaderID (itoa n) = Some n.
Proof.
  intros Hn. unfold LeaderID, itoa. destruct (String.eqb_spec (Itoa n) "") as [He|_].
  - apply (f_equal (ParseInt 64)) in He. rewrite ParseInt_Itoa in He by solve_int. done.
  - unfold Atoi. rewrite ParseInt_Itoa by solve_int. cbn. f_equal. apply int32_id. solve_int.
Qed.

(** The state machine's own errors are none of the transport's. *)
Lemma applyLocked_errors cmd st er : snd (applyLocked cmd st) = Some er -> er <> ErrCtrlNotLeader /\ er <> ErrUnavailable.
Proof.
  unfold applyLocked, partition. intros He. destruct cmd; repeat case_match; simplify_eq; cbn in *; simplify_eq; done.
Qed.

(** ** Valid text *)

Lemma string_app_cons c a b : (String c a +:+ b)%string = String c (a +:+ b).
Proof. reflexivity. Qed.

Lemma utf8_app a b : utf8 a = true -> utf8 b = true -> utf8 (a +:+ b) = true.
Proof.
  intros Ha Hb. remember (String.length a) as n eqn:Hn. revert a Ha Hn.
  induction (lt_wf n) as [n _ IH]; intros a Ha ->. destruct a as [|c1 a]; [done|]. rewrite string_app_cons. cbn [utf8] in *.
  destruct (in_range 0 127 c1); [by apply (IH (String.length a)); [cbn; lia|..]|]. destruct a as [|c2 a]; [done|]. rewrite string_app_cons.
  destruct (in_range 194 223 c1).
  { apply andb_prop in Ha as [-> Ha]. by apply (IH (String.length a)); [cbn; lia|..]. }
  destruct a as [|c3 a]; [done|]. rewrite string_app_cons. destruct (in_range 224 239 c1).
  { apply andb_prop in Ha as [-> Ha]. by apply (IH (String.length a)); [cbn; lia|..]. }
  destruct a as [|c4 a]; [done|]. rewrite string_app_cons. apply andb_prop in Ha as [-> Ha]. by apply (IH (String.length a)); [cbn; lia|..].
Qed.

Lemma utf8_digits w z : utf8 (put_digits w z) = true.
Proof.
  revert z. induction w as [|w IH]; intros z; [done|]. cbn [put_digits]. apply utf8_app; [apply IH|]. cbn [utf8].
  pose proof (Z.mod_pos_bound z 10 ltac:(lia)). unfold in_range. rewrite char_code_digit by lia.
  rewrite (proj2 (Z.leb_le _ _)), (proj2 (Z.leb_le _ _)) by lia. done.
Qed.

Lemma utf8_segKey t p : utf8 t = true -> utf8 (segKey t p) = true.
Proof.
  intros Ht. apply utf8_app; [done|]. cbn. unfold Itoa. destruct (p <? 0); [cbn|]; apply utf8_digits.
Qed.

Lemma topics_utf8 st topic t : state_utf8 st -> utf8 topic = true -> state_utf8 (mkState (<[topic := t]> (Topics_ st)) (Segments_ st)).
Proof.
  intros [H1 H2] Ht. split; [|done]. cbn. intros t' [x [[-> _]|[_ Hx]]%lookup_insert_Some]; [done|]. apply H1. eauto.
Qed.

Lemma applyLocked_utf8 c st : state_utf8 st -> cmd_valid c = true -> state_utf8 (fst (applyLocked (asCommand c) st)).
Proof.
  intros Hst Hc. destruct c as [[t r|t r|t p l i|t p i|t p r|t p c|n]|n]; cbn [asCommand applyLocked]; try done; cbn in Hc.
  - destruct (Topics_ st !! t); [done|]. by apply topics_utf8.
  - destruct (Topics_ st !! t); [|done]. by apply topics_utf8.
  - destruct (partition st t p) as [[tm pm]|er]; [|done]. by apply topics_utf8.
  - destruct (partition st t p) as [[tm pm]|er]; [|done]. by apply topics_utf8.
  - destruct r as [r|]; [|done]. apply andb_prop in Hc as [Ht Hr]. destruct Hst as [H1 H2]. split; [done|]. cbn.
    intros k refs [[<- <-]|[_ Hk]]%lookup_insert_Some; [|by eapply H2]. split; [by apply utf8_segKey|].
    apply Forall_app. split; [|by apply Forall_cons]. destruct (Segments_ st !! segKey t p) eqn:E; [by eapply H2|constructor].
  - destruct Hst as [H1 H2]. split; [done|]. cbn. set (kept := filter _ _).
    assert (Forall (fun r => utf8 (sr_Key r) = true) kept) as Hkept.
    { apply Forall_forall. intros r [_ Hr]%list_elem_of_filter. destruct (Segments_ st !! segKey t p) as [refs|] eqn:E; [|by apply elem_of_nil in Hr].
      destruct (H2 _ _ E) as [_ Hf]. rewrite Forall_forall in Hf. by apply Hf. }
    intros k refs. destruct kept as [|r0 kept'].
    + intros [_ Hk]%lookup_delete_Some. by eapply H2.
    + intros [[<- <-]|[_ Hk]]%lookup_insert_Some; [|by eapply H2]. split; [by apply utf8_segKey|done].
Qed.

Lemma run_commands `{JsonLaws} cmds st : state_utf8 st -> Forall (fun c => cmd_valid c = true) cmds ->
  fsm_run (map marshalCmd cmds) st = applyAll (map asCommand cmds) st /\ state_utf8 (fsm_run (map marshalCmd cmds) st).
Proof.
  intros Hst Hc. revert st Hst. induction Hc as [|c cmds Hc _ IH]; intros st Hst; [done|]. cbn [map fsm_run foldl applyAll].
  unfold fsm_Apply at 2 4. rewrite json_cmd by done. apply IH. by apply applyLocked_utf8.
Qed.

Section Correct.
Context `{JsonLaws}.

(** The command fits a frame. *)
Definition frame_ok (cmd : Command) : Prop :=
  cmd_valid (RCommand cmd) = true /\ 0 < zlen (marshalCmd (RCommand cmd)) <= rpcMaxFrame.

Lemma fsm_Apply_cmd cmd st : frame_ok cmd -> fsm_Apply (marshalCmd (RCommand cmd)) st = applyLocked cmd st.
Proof. intros [Hu _]. unfold fsm_Apply. by rewrite json_cmd. Qed.

Lemma serve_command now isLeader out cmd c : frame_ok cmd ->
  serveRPCConn now isLeader out (writeFrame (marshalCmd (RCommand cmd))) c =
  (mkCtrl (fst (proposeLocal isLeader out cmd (cn_state c))) (cn_live c),
   writeFrame (marshalRes (mkRpcResult (snd (proposeLocal isLeader out cmd (cn_state c)))))).
Proof.
  intros [Hu Hf]. unfold serveRPCConn. pose proof (read_writeFrame (marshalCmd (RCommand cmd)) [] Hf) as Hr.
  rewrite app_nil_r in Hr. rewrite Hr, json_cmd by done. by destruct (proposeLocal _ _ _ _).
Qed.

Lemma readReply_res r : readReply (writeFrame (marshalRes (mkRpcResult r))) =
  match r with Some er => if decide (er = ErrCtrlNotLeader) then Some ErrUnavailable else Some er | None => None end.
Proof.
  unfold readReply. pose proof (read_writeFrame (marshalRes (mkRpcResult r)) [] (json_res_size _)) as Hr.
  rewrite app_nil_r in Hr. by rewrite Hr, json_res.
Qed.

(** How often an attempt commits the command. *)
Definition commits (a : attempt) (delivered : bool) : nat :=
  if delivered then match at_raft a with Committed => 1 | Failed true _ => 1 | Failed false _ => 0 end else 0.

Lemma propose_commits a cmd st : frame_ok cmd -> fst (proposeLocal true (at_raft a) cmd st) = applyAll (replicate (commits a true) cmd) st.
Proof. intros Hf. unfold proposeLocal, commits. rewrite fsm_Apply_cmd by done. by destruct (at_raft a) as [|[] er]. Qed.

(** An attempt in which nothing is lost: the reply arrives within its wait, and a
    failed raft future did not commit. *)
Definition clean (a : attempt) : Prop := within (at_reply a) (at_replyTook a) rpcCallWait = true /\ forall er, at_raft a <> Failed true er.

Lemma forward_spec addrs now a cmd c : frame_ok cmd ->
  exists k, (k <= 1)%nat /\ cn_live (fst (forwardToLeader addrs now a cmd c)) = cn_live c /\
    cn_state (fst (forwardToLeader addrs now a cmd c)) = applyAll (replicate k cmd) (cn_state c) /\
    (snd (forwardToLeader addrs now a cmd c) = None -> k = 1%nat) /\
    (clean a ->
      (cn_state (fst (forwardToLeader addrs now a cmd c)), snd (forwardToLeader addrs now a cmd c)) = applyLocked cmd (cn_state c) \/
      (k = 0%nat /\ exists er, snd (forwardToLeader addrs now a cmd c) = Some er)).
Proof.
  intros Hf. unfold forwardToLeader. destruct (LeaderID (at_known a)) as [id|]; [|exists 0%nat; naive_solver].
  destruct (addrs !! id); [|exists 0%nat; naive_solver]. destruct (within (at_dial a) _ _); [|exists 0%nat; naive_solver].
  destruct (within (at_sent a) _ _); [|exists 0%nat; naive_solver]. cbn [negb]. rewrite serve_command by done.
  destruct (at_remote a).
  2: { exists 0%nat. cbn [proposeLocal negb fst snd]. unfold clean. destruct (within (at_reply a) _ _); cbn [negb fst snd]; [rewrite readReply_res|]; cbn; naive_solver. }
  exists (commits a true). rewrite propose_commits by done. assert (commits a true <= 1)%nat by (unfold commits; destruct (at_raft a) as [|[]]; lia).
  unfold clean. destruct (within (at_reply a) _ _) eqn:Erep; cbn [negb fst snd cn_state cn_live].
  - rewrite readReply_res. split_and!; [done|done|done| |].
    + unfold proposeLocal, commits. cbn. destruct (at_raft a) as [|[] er]; [done|done|]. cbn. by destruct (decide _).
    + intros [_ Hc]. unfold proposeLocal, commits. cbn [negb]. rewrite fsm_Apply_cmd by done. destruct (at_raft a) as [|[] er]; [left|by destruct (Hc er)|right].
      * destruct (applyLocked cmd (cn_state c)) as [st' [er|]] eqn:Ea; [|cbn; by rewrite Ea].
        destruct (applyLocked_errors cmd (cn_state c) er) as [Hn _]; [by rewrite Ea|]. cbn. rewrite Ea. by rewrite decide_False.
      * split; [done|]. cbn. destruct (decide _); eauto.
  - split_and!; [done|done|done|done|]. intros [Hr _]. congruence.
Qed.

(** ** Properties *)

(** The longest a forwarded call takes. *)
Definition callBound : Z := rpcDialWait + 2 * rpcCallWait.

Lemma forwardTook_bound addrs a : 0 <= forwardTook addrs a <= callBound.
Proof.
  assert (forall ms wait, 0 <= wait -> 0 <= took ms wait <= wait) as Ht by (intros; unfold took; lia).
  unfold forwardTook, callBound. pose proof (Ht (at_dialTook a) rpcDialWait ltac:(done)). pose proof (Ht (at_sendTook a) rpcCallWait ltac:(done)).
  pose proof (Ht (at_replyTook a) rpcCallWait ltac:(done)). assert (0 <= rpcDialWait /\ 0 <= rpcCallWait) by done.
  destruct (LeaderID _) as [id|]; [|lia]. destruct (addrs !! id); [|lia]. destruct (negb _); [lia|]. destruct (negb _); lia.
Qed.

(** What the loop ends with when it starts at [s] and its deadline is [dl]. *)
Definition proposed (dl : Z) (atts : list attempt) (cmd : Command) (c c' : ctrlNode) (r : option error) (t : Z) : Prop :=
  cn_live c' = cn_live c /\
  (exists k, (k <= length atts)%nat /\ cn_state c' = applyAll (replicate k cmd) (cn_state c) /\ (r = None -> (1 <= k)%nat)) /\
  (t <= dl + retryPause + callBound \/ exists a, a ∈ atts /\ at_leader a = true /\ t <= dl + retryPause + Z.max 0 (at_raftTook a)) /\
  (Forall clean atts ->
     (cn_state c', r) = applyLocked cmd (cn_state c) \/ (cn_state c' = cn_state c /\ exists er, r = Some er)).

Lemma apply_loop_ends addrs s dl atts cmd c : frame_ok cmd -> s < dl + retryPause ->
  Exists (fun a => at_leader a = true) atts \/ dl + retryPause - s <= retryPause * Z.of_nat (length atts) ->
  exists c' r t, apply_loop addrs s dl atts cmd c = Ret (c', r, t) /\ proposed dl atts cmd c c' r t.
Proof.
  intros Hf. revert s c. induction atts as [|a atts IH]; intros s c Hs Hend.
  { exfalso. destruct Hend as [Hx|Hx]; [by apply Exists_nil in Hx|]. cbn in Hx. lia. }
  cbn [apply_loop]. pose proof (forwardTook_bound addrs a) as Hft. destruct (at_leader a) eqn:Elead.
  - destruct (proposeLocal true (at_raft a) cmd (cn_state c)) as [st' r] eqn:Ep. eexists _, r, _. split; [done|].
    pose proof (propose_commits a cmd (cn_state c) Hf) as Hc. rewrite Ep in Hc. split_and!; [done| | |].
    + exists (commits a true). cbn [length]. split_and!; [unfold commits; destruct (at_raft a) as [|[]]; lia|exact Hc|].
      revert Ep. unfold proposeLocal, commits. cbn. destruct (at_raft a) as [|[] er]; [lia..|]. intros [= <- <-]. done.
    + right. exists a. split_and!; [by left|done|lia].
    + intros [[_ Hcl] _]%Forall_cons. revert Ep. unfold proposeLocal. rewrite fsm_Apply_cmd by done. cbn.
      destruct (at_raft a) as [|[] er]; [by left|by destruct (Hcl er)|]. intros [= <- <-]. right. eauto.
  - destruct (forward_spec addrs s a cmd c Hf) as (k & Hk & Hlv & Hst & Hok & Hcl).
    destruct (forwardToLeader addrs s a cmd c) as [c1 r1]. cbn [fst snd] in *. set (t := s + forwardTook addrs a).
    destruct (decide (r1 = Some ErrUnavailable /\ t < dl)) as [[-> Hlate]|Hdone].
    + rewrite (proj2 (Z.ltb_lt t dl)) by done. cbn [negb].
      destruct (IH (t + retryPause) c1) as (c2 & r2 & t2 & Hrun & Hlv2 & (k2 & Hk2 & Hst2 & Hok2) & Htime & Hcl2); [lia| |].
      { destruct Hend as [Hx|Hx]; [apply Exists_cons in Hx as [?|?]; [congruence|by left]|right]. rewrite length_cons in Hx.
        assert (retryPause = 50) by done. unfold t. lia. }
      exists c2, r2, t2. split; [done|]. split_and!; [congruence| | |].
      * exists (k + k2)%nat. cbn [length]. split_and!; [lia| |naive_solver lia]. rewrite Hst2, Hst. unfold applyAll. by rewrite replicate_add, foldl_app.
      * destruct Htime as [?|(a' & ? & ? & ?)]; [by left|right]. exists a'. split_and!; [by right|done|done].
      * intros [Hca Hcs]%Forall_cons. destruct (Hcl Hca) as [Heq|[-> _]].
        -- exfalso. destruct (applyLocked_errors cmd (cn_state c) ErrUnavailable) as [_ Hne]; [by rewrite <- Heq|done].
        -- cbn in Hst. rewrite Hst in Hcl2. by apply Hcl2.
    + exists c1, r1, t. split.
      * destruct r1 as [[]|]; try done. rewrite (proj2 (Z.ltb_ge t dl)); [done|]. destruct (Z.lt_ge_cases t dl); [by destruct Hdone|done].
      * split_and!; [done| |left; unfold t; lia|].
        -- exists k. cbn [length]. split_and!; [lia|done|naive_solver lia].
        -- intros [Hca _]%Forall_cons. destruct (Hcl Hca) as [Heq|[-> Her]]; [by left|right]. by rewrite Hst.
Qed.

(** C31: a proposal from any node is the state machine's.  Whatever the leader, the
    network and raft do to each attempt, the loop ends: an attempt on a node that
    leads ends it, and 201 attempts reach the 10 seconds of [applyTimeout], with 50
    milliseconds between them.  It ends at most one pause and one call past that
    deadline, a call being bounded by its dial, write and read waits, or when the
    local raft answers.  The committed metadata is that of applying the command
    some number of times, at least once when success is reported, and heartbeats
    are untouched.  When every reply of a call arrives within its wait, and no raft
    future that failed has committed, the command was applied exactly once and its
    own result is returned, or it was not applied and an error says so.  Without
    that condition it may be applied twice ([lost_reply_grows_twice]). *)
Theorem proposal_applied addrs now atts cmd c :
  frame_ok cmd -> Exists (fun a => at_leader a = true) atts \/ (200 < length atts)%nat ->
  exists c' r t, Apply addrs now atts cmd c = Ret (c', r, t) /\
    cn_live c' = cn_live c /\
    (exists k, (k <= length atts)%nat /\ cn_state c' = applyAll (replicate k cmd) (cn_state c) /\ (r = None -> (1 <= k)%nat)) /\
    (t <= now + applyTimeout + retryPause + rpcDialWait + 2 * rpcCallWait \/
     exists a, a ∈ atts /\ at_leader a = true /\ t <= now + applyTimeout + retryPause + Z.max 0 (at_raftTook a)) /\
    (Forall clean atts ->
       (cn_state c', r) = applyLocked cmd (cn_state c) \/ (cn_state c' = cn_state c /\ exists er, r = Some er)).
Proof.
  intros Hf Hend. destruct (apply_loop_ends addrs now (now + applyTimeout) atts cmd c Hf) as (c' & r & t & Hrun & H1' & H2' & H3' & H4').
  - unfold applyTimeout, retryPause. lia.
  - destruct Hend; [by left|right]. unfold applyTimeout, retryPause. lia.
  - exists c', r, t. split_and!; [done|done|done| |done]. unfold callBound in H3'. destruct H3' as [?|?]; [left; lia|by right].
Qed.

(** C32: a heartbeat keeps a node's partitions with it.  When a beat reaches the
    controller leader, the metadata is untouched, and for the length of the
    liveness timeout no tick of the leader moves a partition off the node that
    beat, whether the leader was just elected or not. *)
Theorem heartbeat_protects addrs self id addr t now a a' c d st topic p v was :
  0 < zlen (marshalCmd (RHeartbeat self)) <= rpcMaxFrame ->
  LeaderID (at_known a) = Some id -> id <> self -> addrs !! id = Some addr -> at_dial a = true -> at_sent a = true ->
  t <= now <= t + livenessTimeout -> small_topics st -> Partition st topic p = Some v -> v_Leader v = self -> 0 <= self ->
  let c' := sendHeartbeat addrs self t a c in
  cn_state c' = cn_state c /\
  Partition (applyAll (snd (livenessTick addrs id now a' true was st (cn_live c') d)) st) topic p = Some v.
Proof.
  intros Hsz Hid Hne Haddr Hd Hs Ht Hsm Hp Hlead Hpos c'.
  assert (c' = mkCtrl (cn_state c) (recordHeartbeat self t (cn_live c))) as ->.
  { unfold c', sendHeartbeat, serveRPCConn. rewrite Hid, Haddr, Hd, Hs, (proj2 (Z.eqb_neq _ _)) by done. cbn [negb orb].
    pose proof (read_writeFrame _ [] Hsz) as Hr. rewrite app_nil_r in Hr. by rewrite Hr, json_cmd by done. }
  split; [done|]. cbn [livenessTick snd cn_live andb]. set (lv := if negb was then _ else _).
  destruct (Z.ltb_spec (now - leaderSince lv) livenessTimeout) as [Hgrace|Hpast].
  { unfold checkFailover. by rewrite (proj2 (Z.ltb_lt _ _)). }
  assert (was = true) as -> by (destruct was; [done|]; unfold lv, onBecomeLeader in Hpast; cbn in Hpast; unfold livenessTimeout in Hpast; lia).
  cbn [negb] in lv. rewrite failover_view, Hp by done. cbn. unfold failedOver, failoverOf.
  assert (alive lv (v_Leader v) now = true) as ->.
  { unfold alive, lv. cbn. rewrite Hlead, lookup_insert_eq. rewrite (proj2 (Z.leb_le _ _)) by lia. apply orb_true_r. }
  by rewrite (proj2 (Z.leb_le _ _)) by lia.
Qed.

(** Replicas of the metadata agree: one that applies all committed entries, and one
    that restores a snapshot and applies the rest. *)
Lemma replicas_agree cmds1 cmds2 st :
  Forall (fun c => cmd_valid c = true) (cmds1 ++ cmds2) ->
  let s1 := fsm_run (map marshalCmd cmds1) NewFSM in
  snd (Restore (Snapshot s1) st) = None /\
  fsm_run (map marshalCmd cmds2) (fst (Restore (Snapshot s1) st)) = fsm_run (map marshalCmd (cmds1 ++ cmds2)) NewFSM /\
  fsm_run (map marshalCmd (cmds1 ++ cmds2)) NewFSM = applyAll (map asCommand (cmds1 ++ cmds2)) NewFSM.
Proof.
  intros Hc. cbn zeta. assert (state_utf8 NewFSM) as H0' by (split; cbn; [intros t []%lookup_empty_is_Some|intros k refs ?; done]).
  destruct (run_commands (cmds1 ++ cmds2) NewFSM H0' Hc) as [Hall _]. apply Forall_app in Hc as [Hc1 Hc2].
  destruct (run_commands cmds1 NewFSM H0' Hc1) as [_ Hu]. set (s1 := fsm_run (map marshalCmd cmds1) NewFSM) in *.
  destruct (json_state s1 Hu) as (ts & ss & Hd & Ht & Hs). unfold Restore, Snapshot. rewrite Hd. cbn [fst snd]. rewrite Ht, Hs.
  split; [done|]. split; [|done]. assert (mkState (Topics_ s1) (Segments_ s1) = s1) as -> by (by destruct s1).
  unfold s1, fsm_run. by rewrite map_app, foldl_app.
Qed.

End Correct.

(** ** A codec to run *)

(** Any injective encoding serves: commands as positives, positives as bytes. *)
Fixpoint pos_bytes (p : positive) : list byte :=
  match p with xH => [Byte.x02] | xO p => Byte.x00 :: pos_bytes p | xI p => Byte.x01 :: pos_bytes p end.
Fixpoint bytes_pos (l : list byte) : option positive :=
  match l with
  | [Byte.x02] => Some xH
  | Byte.x00 :: l => xO <$> bytes_pos l
  | Byte.x01 :: l => xI <$> bytes_pos l
  | _ => None
  end.

Lemma bytes_pos_bytes p : bytes_pos (pos_bytes p) = Some p.
Proof. induction p as [p IH|p IH|]; cbn; [..|done]; by rewrite IH. Qed.

Definition errors : list error :=
  [ErrShort; ErrTooShort; ErrBadMagic; ErrOffsetOutOfRange; ErrReplicaGap; ErrIO; ErrEOF; ErrClampStop; ErrWAL; ErrBadSpec;
   ErrTopicExists; ErrUnknownTopic; ErrNoPartition; ErrNilSegment; ErrBadCommand; ErrNotLeader; ErrUnknownPartition; ErrBadCount;
   ErrCtrlNotLeader; ErrUnavailable; ErrNoAddr; ErrFrame].
#[export] Program Instance error_finite : finite.Finite error := { enum := errors }.
Next Obligation. refine (bool_decide_unpack _ _). vm_compute. exact I. Qed.
Next Obligation. intros er. by destruct er; repeat first [by left|right]. Qed.

Definition refTuple (r : SegmentRef) := (sr_Key r, sr_BaseOffset r, sr_NextOffset r, sr_Position r, sr_Length r, sr_UploadedMs r).
#[export] Instance ref_countable : @Countable SegmentRef ltac:(solve_decision).
Proof. apply (inj_countable' refTuple (fun '(a, b, c, d, e, f) => mkRef a b c d e f)). by intros []. Defined.

Definition partTuple (p : partitionMeta) := (Replicas p, Leader p, ISR p, LeaderEpoch p).
Definition tuplePart (x : list Z * Z * list Z * Z) : partitionMeta := let '(a, b, c, d) := x in mkPart a b c d.
Definition topicTuple (x : string * topicMeta) := (x.1, Partitions_ x.2, partTuple <$> Parts x.2).
Definition tupleTopic (x : string * Z * list (list Z * Z * list Z * Z)) : string * topicMeta :=
  let '(n, k, ps) := x in (n, mkTopic k (tuplePart <$> ps)).
Lemma tupleTopic_topic x : tupleTopic (topicTuple x) = x.
Proof.
  destruct x as [n [k ps]]. cbn. do 2 f_equal. rewrite <- list_fmap_compose. induction ps as [|[] ps IH]; [done|]. cbn. by rewrite IH.
Qed.

(** The commands as a sum of tuples. *)
Definition cmdCode (c : rpcCommand) :
    (string * list (list Z)) + (string * list (list Z)) + (string * Z * Z * list Z) + (string * Z * list Z) +
    (string * Z * option SegmentRef) + (string * Z * Z) + Z + Z :=
  match c with
  | RCommand (CmdCreateTopic t r) => inl (inl (inl (inl (inl (inl (inl (t, r)))))))
  | RCommand (CmdCreatePartitions t r) => inl (inl (inl (inl (inl (inl (inr (t, r)))))))
  | RCommand (CmdChangeLeader t p l i) => inl (inl (inl (inl (inl (inr (t, p, l, i))))))
  | RCommand (CmdChangeISR t p i) => inl (inl (inl (inl (inr (t, p, i)))))
  | RCommand (CmdCommitSegment t p r) => inl (inl (inl (inr (t, p, r))))
  | RCommand (CmdPruneSegments t p c) => inl (inl (inr (t, p, c)))
  | RCommand (CmdOther n) => inl (inr n)
  | RHeartbeat n => inr n
  end.
Definition codeCmd x : rpcCommand :=
  match x with
  | inl (inl (inl (inl (inl (inl (inl (t, r))))))) => RCommand (CmdCreateTopic t r)
  | inl (inl (inl (inl (inl (inl (inr (t, r))))))) => RCommand (CmdCreatePartitions t r)
  | inl (inl (inl (inl (inl (inr (t, p, l, i)))))) => RCommand (CmdChangeLeader t p l i)
  | inl (inl (inl (inl (inr (t, p, i))))) => RCommand (CmdChangeISR t p i)
  | inl (inl (inl (inr (t, p, r)))) => RCommand (CmdCommitSegment t p r)
  | inl (inl (inr (t, p, c))) => RCommand (CmdPruneSegments t p c)
  | inl (inr n) => RCommand (CmdOther n)
  | inr n => RHeartbeat n
  end.
Lemma codeCmd_code c : codeCmd (cmdCode c) = c.
Proof. by destruct c as [[]|]. Qed.

#[export] Instance demo_json : Json := {
  marshalCmd c := pos_bytes (encode (cmdCode c));
  unmarshalCmd l := codeCmd <$> (bytes_pos l ≫= decode);
  marshalRes r := pos_bytes (encode (rr_Error r));
  unmarshalRes l := mkRpcResult <$> (bytes_pos l ≫= decode);
  marshalState st := pos_bytes (encode (topicTuple <$> map_to_list (Topics_ st), map_to_list (Segments_ st)));
  unmarshalState l := (fun '(ts, ss) => (Some (list_to_map (tupleTopic <$> ts)), Some (list_to_map ss))) <$> (bytes_pos l ≫= decode) }.

#[export] Instance demo_json_laws : JsonLaws.
Proof.
  split.
  - intros c _. cbn. rewrite bytes_pos_bytes. cbn [mbind option_bind]. rewrite decode_encode. cbn. by rewrite codeCmd_code.
  - intros [r]. cbn. rewrite bytes_pos_bytes. cbn [mbind option_bind]. by rewrite decode_encode.
  - intros [[er|]]; [destruct er|]; vm_compute; done.
  - intros st _. cbn. rewrite bytes_pos_bytes. cbn [mbind option_bind]. rewrite decode_encode. cbn. eexists _, _. split; [done|].
    rewrite <- list_fmap_compose. split; [|apply list_to_map_to_list].
    assert (tupleTopic ∘ topicTuple <$> map_to_list (Topics_ st) = map_to_list (Topics_ st)) as Hid.
    { rewrite <- (list_fmap_id (map_to_list (Topics_ st))) at 2. apply list_fmap_ext. intros i x _. apply tupleTopic_topic. }
    cbn. rewrite Hid. apply list_to_map_to_list.
Qed.

(** Three peers; node 1 proposes, node 2 leads. *)
Definition demoPeers : list Peer := [mkPeer 1 "a:9093" "a:9094"; mkPeer 2 "b:9093" "b:9094"; mkPeer 3 "c:9093" "c:9094"].
Definition demoAddrs : gmap Z string := rpcAddrs demoPeers.
Definition viaLeader (out : raftOutcome) (reply : bool) : attempt := mkAttempt false (itoa 2) true true true out reply 2 1 5 0.
Definition noLeader : attempt := mkAttempt false "" false false false Committed true 0 0 0 0.
Definition elected : attempt := mkAttempt true (itoa 1) false false false Committed true 0 0 0 7.
Definition demoCtrl : ctrlNode := mkCtrl demoMeta demoLive.
Definition demoCreate : Command := CmdCreateTopic "events" [[2; 3]].

Lemma proposal_applied_witness :
  exists c' t, Apply demoAddrs 9500 [noLeader; viaLeader (Failed false ErrIO) true; elected] demoCreate demoCtrl = Ret (c', Some ErrIO, t) /\
    cn_state c' = demoMeta.
Proof.
  destruct (proposal_applied demoAddrs 9500 [noLeader; viaLeader (Failed false ErrIO) true; elected] demoCreate demoCtrl)
    as (c' & r & t & H1 & _ & _ & _ & H2).
  - split; [done|]. split; vm_compute; done.
  - left. right. right. left. done.
  - assert (r = Some ErrIO) as -> by (apply (f_equal (fun x => match x with Ret (_, r, _) => r | _ => None end)) in H1; vm_compute in H1; done).
    exists c', t. split; [done|]. destruct H2 as [H2|[H2 _]]; [|exfalso|done].
    + repeat (apply Forall_cons; split; [split; [done|by intros er]|]). constructor.
    + apply (f_equal snd) in H2. vm_compute in H2. discriminate H2.
Defined.

Lemma heartbeat_protects_witness :
  let c' := sendHeartbeat demoAddrs 1 9500 (viaLeader Committed true) demoCtrl in
  cn_state c' = demoMeta /\
  Partition (applyAll (snd (livenessTick demoAddrs 2 12000 noLeader true true demoMeta (cn_live c') demoCtrl)) demoMeta) "orders" 0 = Some (mkView 1 0 [1; 2; 3] [1; 3]).
Proof.
  pose proof (heartbeat_protects demoAddrs 1 2 "b:9094" 9500 12000 (viaLeader Committed true) noLeader demoCtrl demoCtrl demoMeta "orders" 0
    (mkView 1 0 [1; 2; 3] [1; 3]) true) as Hp.
  apply Hp; clear Hp.
  - split; vm_compute; done.
  - apply LeaderID_itoa. solve_int.
  - lia.
  - vm_compute. reflexivity.
  - reflexivity.
  - reflexivity.
  - unfold livenessTimeout. lia.
  - apply (bool_decide_eq_true_1 _). vm_compute. reflexivity.
  - vm_compute. reflexivity.
  - reflexivity.
  - lia.
Defined.

(** a lost reply repeats the command.  Growing a topic from two to three
    partitions commits at the leader, but its reply is lost; the retry commits it
    again, success is reported, and the topic has four partitions. *)
Theorem lost_reply_grows_twice :
  match Apply demoAddrs 9500 [viaLeader Committed false; viaLeader Committed true] (CmdCreatePartitions "orders" [[3; 1; 2]]) demoCtrl with
  | Ret (c', r, _) => r = None /\ Partitions demoMeta "orders" = Some 2 /\ Partitions (cn_state c') "orders" = Some 4
  | _ => False
  end.
Proof. vm_compute. done. Qed.
