(* ===== verification/Liveness.v ===== *)
(** * internal/controller/liveness.go: the loop over time

    [Rpc.livenessTick] is one tick of [runLiveness].  Here the loop runs over any
    sequence of ticks and of heartbeats that arrive between them, while this node
    gains and loses the leadership of the controllers, and the theorem says what must
    have happened before it moves a partition. *)

From stdpp Require Import sorting.
From S2P Require Import Prelude Fsm Rpc.

Section Loop.
Context `{Json} (addrs : gmap Z string).

(** A tick: the time, whether this node leads the controllers, the local metadata,
    and, for the beat it sends, the attempt and the controller it reaches. *)
Inductive event :=
  | Tick (now : Z) (isLeader : bool) (st : metaState) (a : attempt) (c : ctrlNode)
  | Beat (id now : Z).

Definition timeOf (e : event) : Z := match e with Tick now _ _ _ _ => now | Beat _ now => now end.

(** The liveness state and whether the node was leader at the last tick. *)
Definition liveStep (s : liveness * bool) (e : event) : liveness * bool :=
  match e with
  | Beat id now => (recordHeartbeat id now s.1, s.2)
  | Tick now isLeader st a c => let '(lv, was, _, _) := livenessTick addrs (nodeID s.1) now a isLeader s.2 st s.1 c in (lv, was)
  end.

(** [runLiveness] up to the last of the events, from the start of the loop. *)
Definition runLiveness (evs : list event) (lv : liveness) : liveness * bool := foldl liveStep (lv, false) evs.

(** What a further tick proposes. *)
Definition proposedAt (now : Z) (isLeader : bool) (st : metaState) (a : attempt) (c : ctrlNode) (s : liveness * bool) : list Command :=
  snd (livenessTick addrs (nodeID s.1) now a isLeader s.2 st s.1 c).

(** ** What the state says about the past *)

(** The node has led the controllers at every tick since the one at [t]; [before] and
    [after] are the events around it. *)
Definition led_since (evs : list event) (t : Z) (before after : list event) : Prop :=
  exists st a c, evs = before ++ Tick t true st a c :: after /\ (forall now st' a' c', Tick now false st' a' c' ∉ after).

Record tracks (evs : list event) (self : Z) (s : liveness * bool) : Prop := {
  tr_self : nodeID s.1 = self;
  tr_led : s.2 = true -> exists before after, led_since evs (leaderSince s.1) before after /\
    (forall id t, Beat id t ∈ after -> exists ls, lastSeen s.1 !! id = Some ls /\ t <= ls) /\
    (forall id ls, lastSeen s.1 !! id = Some ls -> Beat id ls ∈ after) }.

Lemma led_snoc evs t before after e : led_since evs t before after -> (forall now st a c, e <> Tick now false st a c) ->
  led_since (evs ++ [e]) t before (after ++ [e]).
Proof.
  intros (st & a & c & -> & Hno) He. exists st, a, c. split; [by rewrite <- app_assoc|].
  intros now st' a' c' [Hin|Heq%list_elem_of_singleton]%elem_of_app; [by eapply Hno|by eapply He].
Qed.

Lemma tracks_step evs self s e : tracks evs self s -> (forall x, x ∈ evs -> timeOf x <= timeOf e) -> tracks (evs ++ [e]) self (liveStep s e).
Proof.
  intros [Hself Hled] Htime. destruct s as [lv was]. cbn [fst snd] in *. destruct e as [now ld st a c|id now]; cbn [liveStep fst snd].
  - unfold livenessTick. split; cbn [fst snd].
    + by destruct (ld && negb was).
    + intros ->. destruct was; cbn [negb andb].
      * destruct (Hled eq_refl) as (b & af & Hl & H1 & H2). exists b, (af ++ [Tick now true st a c]).
        split_and!; [by apply led_snoc| |].
        -- intros id t [Hin|Heq%list_elem_of_singleton]%elem_of_app; [by apply H1|done].
        -- intros id ls Hls. apply elem_of_app. left. by apply H2.
      * exists evs, []. split_and!; [|by intros ?? ?%elem_of_nil|done].
        exists st, a, c. split; [done|]. by intros ???? ?%elem_of_nil.
  - split; cbn [fst snd recordHeartbeat nodeID lastSeen leaderSince]; [done|]. intros Hw.
    destruct (Hled Hw) as (b & af & Hl & H1 & H2). exists b, (af ++ [Beat id now]). split_and!; [by apply led_snoc| |].
    + intros i t [Hin|[= -> ->]%list_elem_of_singleton]%elem_of_app; [|exists now; by rewrite lookup_insert_eq].
      destruct (H1 i t Hin) as (ls & Hls & Hle). destruct (decide (id = i)) as [->|Hne]; [|exists ls; by rewrite lookup_insert_ne].
      exists now. rewrite lookup_insert_eq. split; [done|]. destruct Hl as (? & ? & ? & -> & _).
      specialize (Htime (Beat i t)). cbn in Htime. apply Htime. apply elem_of_app. right. by right.
    + intros i ls. destruct (decide (id = i)) as [->|Hne]; [rewrite lookup_insert_eq; intros [= <-]|rewrite lookup_insert_ne by done; intros Hls];
        apply elem_of_app; [right; by left|left; by apply H2].
Qed.

Lemma runLiveness_tracks evs lv : StronglySorted Z.le (map timeOf evs) -> tracks evs (nodeID lv) (runLiveness evs lv).
Proof.
  unfold runLiveness. induction evs as [|e evs IH] using rev_ind; intros Hs; [by split|].
  rewrite map_app in Hs. rewrite foldl_app. cbn [foldl]. apply tracks_step; [apply IH; by eapply StronglySorted_app_1_l|].
  intros x Hx. apply (StronglySorted_app_1_elem_of _ _ _ _ _ Hs); [by apply list_elem_of_fmap_2|by left].
Qed.

(** ** Properties *)

(** C25: a partition moves only for a reason.  Over any sequence of ticks and
    heartbeats in the order of time, with the node gaining and losing the leadership
    of the controllers, let a further tick at [now] propose a command.  Then it is a
    change of the leader of a partition that exists; the node has led the controllers
    at every tick for at least the liveness timeout; the leader it replaces is not
    this node and has sent no heartbeat within the timeout; and the new leader is an
    in-sync replica that is this node or did. *)
Theorem failover_justified evs lv now isLeader st a c cmd :
  StronglySorted Z.le (map timeOf evs) -> (forall e, e ∈ evs -> timeOf e <= now) -> small_topics st ->
  cmd ∈ proposedAt now isLeader st a c (runLiveness evs lv) ->
  exists topic p l isr pv t before after, cmd = CmdChangeLeader topic p l isr /\ Partition st topic p = Some pv /\
    isLeader = true /\ led_since evs t before after /\ livenessTimeout <= now - t /\
    (0 <= v_Leader pv -> v_Leader pv <> nodeID lv) /\
    (forall t', 0 <= v_Leader pv -> Beat (v_Leader pv) t' ∈ evs -> livenessTimeout <= now - t') /\
    l ∈ v_ISR pv /\ (l = nodeID lv \/ exists t', Beat l t' ∈ evs /\ now - t' <= livenessTimeout).
Proof.
  intros Hsort Hnow Hsm Hcmd. destruct (runLiveness_tracks evs lv Hsort) as [Hself Hled].
  destruct (runLiveness evs lv) as [lv1 was]. cbn [fst snd] in *. unfold proposedAt, livenessTick in Hcmd. cbn [fst snd] in Hcmd.
  destruct isLeader; [|by apply elem_of_nil in Hcmd]. cbn [andb] in Hcmd.
  destruct was; cbn [negb] in Hcmd.
  2:{ unfold checkFailover, onBecomeLeader in Hcmd. cbn in Hcmd. rewrite (proj2 (Z.ltb_lt _ _)) in Hcmd by (unfold livenessTimeout; lia).
      by apply elem_of_nil in Hcmd. }
  destruct (Hled eq_refl) as (before & after & Hl & Hbeat & Hseen).
  destruct (Z.ltb_spec (now - leaderSince lv1) livenessTimeout) as [Hg|Hpast].
  { unfold checkFailover in Hcmd. rewrite (proj2 (Z.ltb_lt _ _)) in Hcmd by done. by apply elem_of_nil in Hcmd. }
  rewrite checkFailover_changes in Hcmd by done. apply list_elem_of_fmap in Hcmd as ([[topic p] [l isr]] & -> & Hin).
  apply list_elem_of_omap in Hin as ([k pv] & Hpv & Hch). unfold failoverChange in Hch.
  destruct (failoverOf lv1 now pv) as [[l' isr']|] eqn:Hf; [|done]. cbn in Hch. injection Hch as -> -> ->.
  apply allParts_elem in Hpv; [|done]. exists topic, p, l, isr, pv, (leaderSince lv1), before, after.
  pose proof Hl as (st0 & a0 & c0 & Hev & _). unfold failoverOf in Hf. destruct ((0 <=? v_Leader pv) && alive lv1 (v_Leader pv) now) eqn:Hal; [done|].
  assert (0 <= v_Leader pv -> alive lv1 (v_Leader pv) now = false) as Hdead by (intros H0; by rewrite (proj2 (Z.leb_le _ _) H0) in Hal).
  destruct (filter _ (v_ISR pv)) as [|s sv] eqn:Hsv; [done|]. destruct (s =? v_Leader pv); [done|]. injection Hf as -> _.
  assert (l ∈ filter (fun id => alive lv1 id now = true) (v_ISR pv)) as Hin by (rewrite Hsv; by left).
  apply list_elem_of_filter in Hin as [Hlive Hisr].
  split_and!; [done|done|done|done|done| | |done|].
  - intros H0 Heq. specialize (Hdead H0). unfold alive in Hdead. by rewrite Heq, Hself, Z.eqb_refl in Hdead.
  - intros t' H0 Hb. specialize (Hdead H0). rewrite Hev in Hb. apply elem_of_app in Hb as [Hb|[Heq|Hb]%elem_of_cons]; [|done|].
    + assert (t' <= leaderSince lv1); [|lia]. rewrite Hev, map_app in Hsort.
      apply (StronglySorted_app_1_elem_of _ _ _ _ _ Hsort); [by apply (list_elem_of_fmap_2 timeOf) in Hb|by left].
    + destruct (Hbeat _ _ Hb) as (ls & Hls & Hle). unfold alive in Hdead. rewrite Hls in Hdead.
      apply orb_false_elim in Hdead as [_ Hd%Z.leb_gt]. lia.
  - unfold alive in Hlive. apply orb_prop in Hlive as [Hl'%Z.eqb_eq|Hl']; [left; congruence|right].
    destruct (lastSeen lv1 !! l) as [ls|] eqn:Hls; [|done]. exists ls. split; [|by apply Z.leb_le]. rewrite Hev.
    apply elem_of_app. right. right. by apply Hseen.
Qed.

End Loop.

(** Node 2 is elected at 0; node 1, which leads a partition, beats once, node 3 is
    heard later. *)
Definition demoEvents : list event := [Tick 0 true demoMeta noLeader demoCtrl; Beat 1 100; Beat 3 3500].
Definition demoSelf : liveness := mkLive 2 ∅ 0.

Lemma failover_justified_witness :
  CmdChangeLeader "orders" 0 3 [3] ∈ proposedAt demoAddrs 4000 true demoMeta noLeader demoCtrl (runLiveness demoAddrs demoEvents demoSelf) /\
  exists t before after, led_since demoEvents t before after /\ livenessTimeout <= 4000 - t.
Proof.
  assert (CmdChangeLeader "orders" 0 3 [3] ∈ proposedAt demoAddrs 4000 true demoMeta noLeader demoCtrl (runLiveness demoAddrs demoEvents demoSelf)) as Hin.
  { apply list_elem_of_lookup. exists 0%nat. vm_compute. reflexivity. }
  split; [exact Hin|].
  destruct (failover_justified demoAddrs demoEvents demoSelf 4000 true demoMeta noLeader demoCtrl (CmdChangeLeader "orders" 0 3 [3]))
    as (topic & p & l & isr & pv & t & before & after & _ & _ & _ & H1 & H2 & _).
  - repeat constructor; vm_compute; discriminate.
  - intros e He. repeat (apply elem_of_cons in He as [->|He]; [vm_compute; discriminate|]). by apply elem_of_nil in He.
  - apply (bool_decide_eq_true_1 _). vm_compute. reflexivity.
  - exact Hin.
  - by exists t, before, after.
Defined.
