(* ===== verification/Wal.v ===== *)
(** * internal/storage/object/wal.go: the write-ahead log of a node

    One log for all partitions of the node: records framed with a checksum in
    numbered segment files.  The directory is a map from file names to contents;
    a write may fail after any number of bytes.  The theorems say that replaying
    the directory gives back the appended records in order, that a torn record at
    the end of a segment costs only that record, and that trimming removes
    exactly the sealed segments. *)

From stdpp Require Import sorting.
From S2P Require Import Prelude Hash Record Kbytes Segment Strconv Recovery.

(** ** Records and frames *)

Record walRecord := mkWalRecord { wr_Topic : string; wr_Partition : Z; wr_BaseOffset : Z; wr_Batch : list byte }.

Definition walMagic : byte := Byte.xa7.

Definition encodeWALPayload (rec : walRecord) : list byte :=
  be_put 2 (uint16 (zlen (bytes_of_string (wr_Topic rec)))) ++ bytes_of_string (wr_Topic rec) ++
  be_put 4 (uint32 (wr_Partition rec)) ++ be_put 8 (uint64 (wr_BaseOffset rec)) ++ wr_Batch rec.

Definition decodeWALPayload (b : list byte) : walRecord + error :=
  if zlen b <? 2 then inr ErrWAL
  else
    let tl := be_get (sub b 0 2) in
    if zlen b <? 2 + tl + 12 then inr ErrWAL
    else
      let p := Z.to_nat (2 + tl) in
      inl (mkWalRecord (string_of_bytes (sub b 2 (Z.to_nat tl))) (int32 (be_get (sub b p 4)))
             (int64 (be_get (sub b (p + 4) 8))) (drop (p + 12) b)).

Definition walFrame (rec : walRecord) : list byte :=
  let payload := encodeWALPayload rec in
  [walMagic] ++ be_put 4 (Crc32.Checksum payload) ++ be_put 4 (uint32 (zlen payload)) ++ payload.

(** ** Segment files *)

Definition segPath (seq : Z) : string := (pad20 seq +:+ ".wal")%string.

(** [strconv.ParseUint(s, 10, 64)] *)
Definition ParseUint (s : string) : option Z :=
  match s with
  | EmptyString => None
  | _ => v ← parse_digits 0 s; if v <? 2 ^ 64 then Some v else None
  end.

Definition entrySeq (name : string) : option Z :=
  if HasSuffix name ".wal" then ParseUint (TrimSuffix name ".wal") else None.

Definition segmentSeqs (d : dir) : list Z := merge_sort Z.le (omap entrySeq (map_to_list d).*1).

Record wal := mkWal { w_files : dir; activeSeq : Z }.

(** O_CREATE and O_APPEND: an existing file keeps its bytes. *)
Definition openActive (seq : Z) (d : dir) : wal :=
  mkWal (match d !! segPath seq with Some _ => d | None => <[segPath seq := []]> d end) seq.

Definition openWAL (d : dir) : wal :=
  openActive (match last (segmentSeqs d) with Some s => uint64 (s + 1) | None => 1 end) d.

Definition wal_append (e : wres) (rec : walRecord) (w : wal) : wal * option error :=
  let add d := mkWal (<[segPath (activeSeq w) := default [] (w_files w !! segPath (activeSeq w)) ++ d]> (w_files w)) (activeSeq w) in
  match e with
  | WOk => (add (walFrame rec), None)
  | WErr n => (add (take n (walFrame rec)), Some ErrIO)
  end.

(** [ok]: the sync, the close and the open succeed. *)
Definition rotate (ok : bool) (w : wal) : wal * (Z + error) :=
  if ok then (openActive (uint64 (activeSeq w + 1)) (w_files w), inl (activeSeq w)) else (w, inr ErrIO).

(** [removed s]: whether the removal of segment [s] succeeds. *)
Fixpoint delete_loop (removed : Z -> bool) (sealedThrough : Z) (seqs : list Z) (d : dir) : dir * option error :=
  match seqs with
  | [] => (d, None)
  | s :: seqs =>
    if sealedThrough <? s then delete_loop removed sealedThrough seqs d
    else if removed s then delete_loop removed sealedThrough seqs (delete (segPath s) d)
    else (d, Some ErrIO)
  end.
Definition deleteThrough (removed : Z -> bool) (sealedThrough : Z) (w : wal) : wal * option error :=
  let '(d, er) := delete_loop removed sealedThrough (segmentSeqs (w_files w)) (w_files w) in
  (mkWal d (activeSeq w), er).

(** ** Replay *)

Section Replay.
(** The callback threads the state it mutates. *)
Context {S : Type} (fn : S -> walRecord -> S * option error).

(** Each round consumes at least nine bytes. *)
Fixpoint replay_loop (fuel : nat) (data : list byte) (pos : Z) (st : S) : go (S * option error) :=
  match fuel with
  | O => Spin
  | Datatypes.S fuel =>
    if pos <? zlen data then
      if negb (bool_decide (data !! Z.to_nat pos = Some walMagic)) then Ret (st, None)
      else if zlen data <? pos + 9 then Ret (st, None)
      else
        let crc := be_get (sub data (Z.to_nat (pos + 1)) 4) in
        let n := be_get (sub data (Z.to_nat (pos + 5)) 4) in
        let start := pos + 9 in
        if zlen data <? start + n then Ret (st, None)
        else
          payload ← slice data start (start + n);
          if negb (Crc32.Checksum payload =? crc) then Ret (st, None)
          else match decodeWALPayload payload with
               | inr er => Ret (st, Some er)
               | inl rec =>
                 match fn st rec with
                 | (st', Some er) => Ret (st', Some er)
                 | (st', None) => replay_loop fuel data (start + n) st'
                 end
               end
    else Ret (st, None)
  end.

Definition replaySegment (data : list byte) (st : S) : go (S * option error) :=
  replay_loop (Datatypes.S (length data)) data 0 st.

(** [readable s]: whether segment [s] can be read. *)
Fixpoint replay_segments (readable : Z -> bool) (d : dir) (seqs : list Z) (st : S) : go (S * option error) :=
  match seqs with
  | [] => Ret (st, None)
  | s :: seqs =>
    if readable s then
      r ← replaySegment (default [] (d !! segPath s)) st;
      match r with
      | (st', Some er) => Ret (st', Some er)
      | (st', None) => replay_segments readable d seqs st'
      end
    else Ret (st, Some ErrIO)
  end.

Definition replay (readable : Z -> bool) (w : wal) (st : S) : go (S * option error) :=
  replay_segments readable (w_files w) (segmentSeqs (w_files w)) st.

(** The reference: the callback over a list of records, until its first error. *)
Fixpoint each (recs : list walRecord) (st : S) : S * option error :=
  match recs with
  | [] => (st, None)
  | rec :: recs => match fn st rec with (st', Some er) => (st', Some er) | (st', None) => each recs st' end
  end.

Lemma each_app a b st :
  each (a ++ b) st = match each a st with (st', Some er) => (st', Some er) | (st', None) => each b st' end.
Proof.
  revert st. induction a as [|r a IH]; intros st; cbn [each app]; [done|].
  destruct (fn st r) as [st' [er|]]; [done|apply IH].
Qed.

End Replay.

(** ** The format round-trips *)

(** The fields fit their wire types. *)
Record record_ok (rec : walRecord) : Prop := {
  ro_topic : zlen (bytes_of_string (wr_Topic rec)) < 2 ^ 16;
  ro_partition : in_int 32 (wr_Partition rec);
  ro_base : in_int 64 (wr_BaseOffset rec);
  ro_size : zlen (encodeWALPayload rec) < 2 ^ 32 }.

Lemma sub_mid a b c off n : off = length a -> n = length b -> sub (a ++ b ++ c) off n = b.
Proof. intros -> ->. unfold sub. by rewrite drop_app_length, take_app_length. Qed.

Lemma decode_encodeWAL rec : record_ok rec -> decodeWALPayload (encodeWALPayload rec) = inl rec.
Proof.
  destruct rec as [topic p base batch]. intros [Ht Hp Hb _]. cbn [wr_Topic wr_Partition wr_BaseOffset] in Ht, Hp, Hb.
  unfold decodeWALPayload, encodeWALPayload. cbn [wr_Topic wr_Partition wr_BaseOffset wr_Batch].
  set (tb := bytes_of_string topic) in *. pose proof (zlen_nonneg tb). pose proof (zlen_nonneg batch).
  set (b := be_put 2 (uint16 (zlen tb)) ++ _).
  assert (zlen b = 14 + zlen tb + zlen batch) as Hlen by (unfold b; rewrite !zlen_app, !zlen_be_put; lia).
  assert (be_get (sub b 0 2) = zlen tb) as Htl.
  { assert (sub b 0 2 = be_put 2 (uint16 (zlen tb))) as -> by (apply (sub_mid []); by rewrite ?length_be_put).
    rewrite be_get_put. unfold uwrap. change (256 ^ Z.of_nat 2) with (2 ^ 16). rewrite Zmod_mod, Z.mod_small by lia. done. }
  rewrite Htl, Hlen. ltb_false. ltb_false. replace (Z.to_nat (2 + zlen tb)) with (2 + length tb)%nat by (unfold zlen; lia).
  set (h := be_put 2 (uint16 (zlen tb))) in *. assert (length h = 2%nat) as Hh by apply length_be_put.
  f_equal. f_equal.
  - unfold b. rewrite (sub_mid h tb) by (unfold zlen; lia). apply string_of_bytes_of_string.
  - unfold b. rewrite (app_assoc h). rewrite (sub_mid (h ++ tb)) by (rewrite ?length_app, ?length_be_put, ?Hh; lia).
    rewrite int32_be, swrap_uwrap, swrap_id by (done || lia). done.
  - unfold b. rewrite (app_assoc h), (app_assoc (h ++ tb)).
    rewrite (sub_mid ((h ++ tb) ++ _)) by (rewrite ?length_app, ?length_be_put, ?Hh; lia).
    rewrite int64_be, swrap_uwrap, swrap_id by (done || lia). done.
  - unfold b. rewrite !app_assoc. apply drop_app_length'. rewrite !length_app, !length_be_put, Hh. lia.
Qed.

Lemma zlen_walFrame rec : zlen (walFrame rec) = 9 + zlen (encodeWALPayload rec).
Proof. unfold walFrame. rewrite !zlen_app, !zlen_be_put. change (zlen [walMagic]) with 1. lia. Qed.

(** What the scan reads at the start of a frame, whatever follows it. *)
Lemma frame_fields pre rec rest : record_ok rec ->
  let data := pre ++ walFrame rec ++ rest in
  data !! Z.to_nat (zlen pre) = Some walMagic /\
  be_get (sub data (Z.to_nat (zlen pre + 1)) 4) = Crc32.Checksum (encodeWALPayload rec) /\
  be_get (sub data (Z.to_nat (zlen pre + 5)) 4) = zlen (encodeWALPayload rec) /\
  slice data (zlen pre + 9) (zlen pre + 9 + zlen (encodeWALPayload rec)) = Ret (encodeWALPayload rec).
Proof.
  intros Hr data. pose proof (ro_size _ Hr) as Hs. unfold data, walFrame. set (payload := encodeWALPayload rec) in *.
  pose proof (zlen_nonneg payload). set (c := be_put 4 (Crc32.Checksum payload)). set (n := be_put 4 (uint32 (zlen payload))).
  assert (length c = 4%nat) as Hc by apply length_be_put. assert (length n = 4%nat) as Hn by apply length_be_put.
  rewrite <- !app_assoc. split_and!.
  - unfold zlen. rewrite Nat2Z.id. by apply list_lookup_middle.
  - replace (Z.to_nat (zlen pre + 1)) with (length (pre ++ [walMagic])) by (rewrite length_app; unfold zlen; cbn [length]; lia).
    rewrite (app_assoc pre [walMagic]). rewrite sub_mid by (by rewrite ?Hc). unfold c. rewrite be_get_put.
    apply Z.mod_small, Crc32.checksum_range.
  - replace (Z.to_nat (zlen pre + 5)) with (length (pre ++ [walMagic] ++ c)) by (rewrite !length_app; unfold zlen; cbn [length]; lia).
    rewrite (app_assoc [walMagic]), (app_assoc pre ([walMagic] ++ c)). rewrite sub_mid by (by rewrite ?Hn).
    unfold n. rewrite be_get_put. unfold uwrap. change (256 ^ Z.of_nat 4) with (2 ^ 32). by rewrite Zmod_mod, Z.mod_small by lia.
  - replace (zlen pre + 9) with (zlen (pre ++ [walMagic] ++ c ++ n)) by (rewrite !zlen_app; unfold zlen; cbn [length]; lia).
    rewrite (app_assoc c n), (app_assoc [walMagic]), (app_assoc pre ([walMagic] ++ c ++ n)). apply slice_mid.
Qed.

(** ** Replaying a segment *)

(** What a crash may leave behind the last complete record: a proper prefix of a
    frame. *)
Definition cut (t : list byte) : Prop := exists rec rest, record_ok rec /\ walFrame rec = t ++ rest /\ rest <> [].
Definition tail_ok (t : list byte) : Prop := t = [] \/ cut t.

Section ReplaySegment.
Context {S : Type} (fn : S -> walRecord -> S * option error).

Lemma replay_tail fuel pre t st : tail_ok t -> (0 < fuel)%nat ->
  replay_loop fn fuel (pre ++ t) (zlen pre) st = Ret (st, None).
Proof.
  intros Ht Hf. destruct fuel as [|fuel]; [lia|]. cbn [replay_loop]. rewrite zlen_app.
  destruct Ht as [->|(rec & rest & Hr & Heq & Hne)].
  { rewrite zlen_nil, Z.add_0_r. by rewrite Z.ltb_irrefl. }
  pose proof (zlen_nonneg t). pose proof (zlen_nonneg pre). pose proof (zlen_pos rest Hne).
  destruct (Z.ltb_spec (zlen pre) (zlen pre + zlen t)); [|done].
  destruct (frame_fields pre rec [] Hr) as (F1 & _ & F3 & _). rewrite app_nil_r, Heq, app_assoc in F1, F3.
  assert (length (pre ++ t) = Z.to_nat (zlen pre + zlen t)) as Hl by (rewrite length_app; unfold zlen; lia).
  rewrite lookup_app_l in F1 by lia. rewrite F1, bool_decide_eq_true_2 by done. cbn [negb].
  destruct (Z.ltb_spec (zlen pre + zlen t) (zlen pre + 9)); [done|].
  rewrite sub_app_le in F3 by lia. rewrite F3.
  assert (zlen t + zlen rest = 9 + zlen (encodeWALPayload rec)) as Hz by (rewrite <- zlen_walFrame, Heq; by rewrite zlen_app).
  by rewrite (proj2 (Z.ltb_lt _ _)) by lia.
Qed.

Lemma replay_records recs t fuel pre st :
  Forall record_ok recs -> tail_ok t -> (length (concat (map walFrame recs) ++ t) < fuel)%nat ->
  replay_loop fn fuel (pre ++ concat (map walFrame recs) ++ t) (zlen pre) st = Ret (each fn recs st).
Proof.
  intros Hr Ht. revert fuel pre st. induction Hr as [|rec recs Hr Hrs IH]; intros fuel pre st Hf.
  - apply replay_tail; [done|lia].
  - cbn [map concat each] in *. destruct fuel as [|fuel]; [lia|]. cbn [replay_loop]. rewrite <- app_assoc.
    destruct (frame_fields pre rec (concat (map walFrame recs) ++ t) Hr) as (F1 & F2 & F3 & F4).
    set (rest := concat (map walFrame recs) ++ t) in *. set (payload := encodeWALPayload rec) in *.
    pose proof (zlen_nonneg payload). pose proof (zlen_nonneg rest). pose proof (zlen_walFrame rec) as Hz. fold payload in Hz.
    rewrite !zlen_app. rewrite (proj2 (Z.ltb_lt _ _)) by lia. rewrite F1, bool_decide_eq_true_2 by done. cbn [negb].
    rewrite (proj2 (Z.ltb_ge _ _)) by lia. rewrite F2, F3. rewrite (proj2 (Z.ltb_ge _ _)) by lia.
    rewrite F4. cbn [mbind go_bind]. rewrite Z.eqb_refl. cbn [negb]. unfold payload. rewrite decode_encodeWAL by done.
    destruct (fn st rec) as [st' [er|]]; [done|]. fold payload.
    replace (zlen pre + 9 + zlen payload) with (zlen (pre ++ walFrame rec)) by (rewrite zlen_app; lia).
    rewrite app_assoc. apply IH. rewrite <- app_assoc, length_app in Hf. fold rest in Hf. unfold zlen in Hz. lia.
Qed.

Lemma replaySegment_records recs t st :
  Forall record_ok recs -> tail_ok t ->
  replaySegment fn (concat (map walFrame recs) ++ t) st = Ret (each fn recs st).
Proof. intros Hr Ht. apply (replay_records recs t _ [] st Hr Ht). lia. Qed.

End ReplaySegment.

(** ** The directory *)

(** A segment: its number, its records, and what a crash left behind them. *)
Record seg := mkSeg { sg_seq : Z; sg_recs : list walRecord; sg_tail : list byte }.
Definition seg_bytes (s : seg) : list byte := concat (map walFrame (sg_recs s)) ++ sg_tail s.
Definition all_recs (ss : list seg) : list walRecord := concat (map sg_recs ss).
Definition seg_ok (s : seg) : Prop := 1 <= sg_seq s < 2 ^ 63 /\ Forall record_ok (sg_recs s) /\ tail_ok (sg_tail s).

(** [files_rep d ss]: the directory holds exactly the segments [ss], in order. *)
Record files_rep (d : dir) (ss : list seg) : Prop := {
  fr_sorted : StronglySorted Z.lt (map sg_seq ss);
  fr_ok : Forall seg_ok ss;
  fr_in : forall s, s ∈ ss -> d !! segPath (sg_seq s) = Some (seg_bytes s);
  fr_only : forall name x, d !! name = Some x -> exists s, s ∈ ss /\ name = segPath (sg_seq s) }.

Lemma ParseUint_pad20 z : 0 <= z < 2 ^ 63 -> ParseUint (pad20 z) = Some z.
Proof.
  intros Hz. unfold pad20. rewrite (proj2 (Z.ltb_ge z 0)) by lia.
  pose proof (parse_put_digits 20 z 0) as Hp. rewrite Z.mul_0_l, Z.add_0_l in Hp.
  destruct (put_digits_ne 19 z) as (c & s & Hs & _). unfold ParseUint. rewrite Hs in *. rewrite Hp.
  - cbn [mbind option_bind]. by rewrite (proj2 (Z.ltb_lt _ _)) by (eval_pow; lia).
  - change (10 ^ Z.of_nat 20) with 100000000000000000000. solve_int.
Qed.

Lemma entrySeq_segPath z : 0 <= z < 2 ^ 63 -> entrySeq (segPath z) = Some z.
Proof. intros Hz. unfold entrySeq, segPath. rewrite HasSuffix_app, TrimSuffix_app. by apply ParseUint_pad20. Qed.

Lemma segPath_inj a b : 0 <= a < 2 ^ 63 -> 0 <= b < 2 ^ 63 -> segPath a = segPath b -> a = b.
Proof. intros Ha%entrySeq_segPath Hb%entrySeq_segPath Heq. rewrite Heq in Ha. congruence. Qed.

Section Files.
Context (d : dir) (ss : list seg) (Hrep : files_rep d ss).

Lemma seg_range s : s ∈ ss -> 0 <= sg_seq s < 2 ^ 63.
Proof. intros Hs. pose proof (fr_ok _ _ Hrep) as Ho. rewrite Forall_forall in Ho. destruct (Ho s Hs) as [? _]. lia. Qed.

Lemma seg_unique s1 s2 : s1 ∈ ss -> s2 ∈ ss -> sg_seq s1 = sg_seq s2 -> s1 = s2.
Proof.
  pose proof (fr_sorted _ _ Hrep) as Hs. clear -Hs. induction ss as [|s l IH]; [by intros ?%elem_of_nil|].
  cbn [map] in Hs. apply StronglySorted_inv in Hs as [Hs Hlt]. rewrite Forall_map, Forall_forall in Hlt.
  rewrite !elem_of_cons. intros [->|H1] [->|H2] Heq; [done| | |by apply IH].
  - specialize (Hlt _ H2). cbn in Hlt. lia.
  - specialize (Hlt _ H1). cbn in Hlt. lia.
Qed.

Lemma segmentSeqs_exact : segmentSeqs d = map sg_seq ss.
Proof.
  apply (listed_exact entrySeq segPath); [apply Hrep| |].
  - intros name b [x Hx] Hb. destruct (fr_only _ _ Hrep _ _ Hx) as (s & Hin & ->).
    rewrite entrySeq_segPath in Hb by (by apply seg_range). injection Hb as <-. split; [|done]. apply list_elem_of_fmap. eauto.
  - intros b (s & -> & Hin)%list_elem_of_fmap. rewrite entrySeq_segPath by (by apply seg_range). split; [|done]. by rewrite (fr_in _ _ Hrep).
Qed.

End Files.

Lemma sorted_last ss s s' : StronglySorted Z.lt (map sg_seq (ss ++ [s])) -> s' ∈ ss -> sg_seq s' < sg_seq s.
Proof.
  intros Hs Hin. rewrite map_app in Hs. apply StronglySorted_app_1_elem_of with (x1 := sg_seq s') (x2 := sg_seq s) in Hs; [done| |].
  - apply list_elem_of_fmap. eauto.
  - cbn. set_solver.
Qed.

(** Rewriting the last segment. *)
Lemma files_rep_last d ss s s' : files_rep d (ss ++ [s]) -> sg_seq s' = sg_seq s -> seg_ok s' ->
  files_rep (<[segPath (sg_seq s) := seg_bytes s']> d) (ss ++ [s']).
Proof.
  intros Hrep Heq Hok. pose proof (seg_range _ _ Hrep) as Hr. destruct Hrep as [Hs Ho Hi Hl]. split.
  - by rewrite map_app in *; cbn [map] in *; rewrite Heq.
  - apply Forall_app in Ho as [Ho _]. apply Forall_app. by split; [|apply Forall_cons].
  - intros x [Hx| ->%list_elem_of_singleton]%elem_of_app; [|by rewrite Heq, lookup_insert_eq].
    pose proof (sorted_last _ _ _ Hs Hx). rewrite lookup_insert_ne; [by apply Hi, elem_of_app; left|].
    intros Hp%segPath_inj; [lia|apply Hr..]; set_solver.
  - intros name x. destruct (decide (segPath (sg_seq s) = name)) as [<-|Hne].
    + intros _. exists s'. rewrite Heq. set_solver.
    + rewrite lookup_insert_ne by done. intros (s1 & [H1| ->%list_elem_of_singleton]%elem_of_app & ->)%Hl; [|done].
      exists s1. set_solver.
Qed.

(** Opening a segment behind all others. *)
Lemma files_rep_snoc d ss seq : files_rep d ss -> (forall s, s ∈ ss -> sg_seq s < seq) -> 1 <= seq < 2 ^ 63 ->
  files_rep (w_files (openActive seq d)) (ss ++ [mkSeg seq [] []]).
Proof.
  intros Hrep Hlt Hq. pose proof (seg_range _ _ Hrep) as Hr. destruct Hrep as [Hs Ho Hi Hl].
  assert (d !! segPath seq = None) as Hnone.
  { destruct (d !! segPath seq) as [x|] eqn:E; [|done]. destruct (Hl _ _ E) as (s & Hin & Hp%segPath_inj); [|lia|by apply Hr].
    specialize (Hlt s Hin). lia. }
  unfold openActive. rewrite Hnone. cbn [w_files]. split.
  - rewrite map_app. apply StronglySorted_app_2; [|done|by repeat constructor].
    intros x y (s & -> & Hin)%list_elem_of_fmap ->%list_elem_of_singleton. by apply Hlt.
  - apply Forall_app. split; [done|]. apply Forall_cons. split; [|done]. split; [cbn; lia|]. split; [constructor|by left].
  - intros x [Hx| ->%list_elem_of_singleton]%elem_of_app; [|by rewrite lookup_insert_eq].
    rewrite lookup_insert_ne; [by apply Hi|]. intros Hp%segPath_inj; [|lia|by apply Hr]. specialize (Hlt x Hx). lia.
  - intros name x [[<- _]|[_ Hx]]%lookup_insert_Some.
    + exists (mkSeg seq [] []). set_solver.
    + destruct (Hl _ _ Hx) as (s & Hin & ->). exists s. set_solver.
Qed.

(** Removing the oldest segment. *)
Lemma files_rep_tail d s ss : files_rep d (s :: ss) -> files_rep (delete (segPath (sg_seq s)) d) ss.
Proof.
  intros Hrep. pose proof (seg_range _ _ Hrep) as Hr. destruct Hrep as [Hs Ho Hi Hl]. cbn [map] in *.
  apply StronglySorted_inv in Hs as [Hs Hlt]. rewrite Forall_map, Forall_forall in Hlt.
  apply Forall_cons in Ho as [_ Ho]. split; [done|done| |].
  - intros x Hx. specialize (Hlt x Hx). cbn in Hlt. rewrite lookup_delete_ne; [apply Hi; set_solver|].
    intros Hp%segPath_inj; [lia|apply Hr; set_solver..].
  - intros name x [Hne Hx]%lookup_delete_Some. destruct (Hl _ _ Hx) as (s1 & [->|Hin]%elem_of_cons & ->); [done|eauto].
Qed.

(** ** The operations *)

(** [wal_rep w pre act]: the sealed segments and the active one. *)
Record wal_rep (w : wal) (pre : list seg) (act : seg) : Prop := {
  wp_files : files_rep (w_files w) (pre ++ [act]);
  wp_active : activeSeq w = sg_seq act;
  wp_clean : sg_tail act = [] }.

(** Room for one more segment number. *)
Definition seq_room (ss : list seg) : Prop := forall s, s ∈ ss -> sg_seq s < 2 ^ 63 - 1.

Lemma open_rep d ss : files_rep d ss -> seq_room ss ->
  exists act, wal_rep (openWAL d) ss act /\ sg_recs act = [].
Proof.
  intros Hrep Hroom. unfold openWAL. rewrite (segmentSeqs_exact _ _ Hrep).
  assert (exists next, match last (map sg_seq ss) with Some s => uint64 (s + 1) | None => 1 end = next /\
    (forall s, s ∈ ss -> sg_seq s < next) /\ 1 <= next < 2 ^ 63) as (next & -> & Hlt & Hn).
  { destruct ss as [|s ss _] using rev_ind; [exists 1; split_and!; [done|by intros s ?%elem_of_nil|lia|eval_pow; lia]|].
    rewrite map_app. cbn [map]. rewrite last_snoc. assert (s ∈ ss ++ [s]) as Hin by set_solver.
    pose proof (seg_range _ _ Hrep s Hin). pose proof (Hroom s Hin). unfold uwrap. rewrite Z.mod_small by (eval_pow; lia).
    eexists. split; [done|]. split; [|lia].
    intros s' [Hs' | ->%list_elem_of_singleton]%elem_of_app; [|lia].
    pose proof (sorted_last _ _ _ (fr_sorted _ _ Hrep) Hs'). lia. }
  exists (mkSeg next [] []). split; [|done]. split; [by apply files_rep_snoc| |done].
  unfold openActive. by destruct (d !! segPath next).
Qed.

Lemma append_rep w pre act rec : wal_rep w pre act -> record_ok rec ->
  exists w', wal_append WOk rec w = (w', None) /\
    wal_rep w' pre (mkSeg (sg_seq act) (sg_recs act ++ [rec]) []).
Proof.
  intros [Hf Ha Hc] Hr. eexists. split; [done|]. rewrite Ha.
  rewrite (fr_in _ _ Hf act) by set_solver. cbn [default from_option].
  pose proof (fr_ok _ _ Hf) as Ho. apply Forall_app in Ho as [_ [(Hq & Hrs & _) _]%Forall_cons].
  assert (seg_bytes (mkSeg (sg_seq act) (sg_recs act ++ [rec]) []) = seg_bytes act ++ walFrame rec) as Hb.
  { unfold seg_bytes. cbn [sg_recs sg_tail]. rewrite Hc, map_app, concat_app. cbn. by rewrite !app_nil_r. }
  split; cbn [w_files activeSeq]; [|done|done]. cbn [from_option id]. rewrite <- Hb. apply files_rep_last; [done|done|].
  split; [done|]. split; [apply Forall_app; by split; [|apply Forall_cons]|by left].
Qed.

Lemma rotate_rep w pre act : wal_rep w pre act -> seq_room (pre ++ [act]) ->
  exists w' act', rotate true w = (w', inl (sg_seq act)) /\ wal_rep w' (pre ++ [act]) act' /\ sg_recs act' = [] /\ sg_seq act < sg_seq act'.
Proof.
  intros [Hf Ha Hc] Hroom. assert (act ∈ pre ++ [act]) as Hin by set_solver.
  pose proof (seg_range _ _ Hf _ Hin). pose proof (Hroom _ Hin).
  unfold rotate. rewrite Ha. unfold uwrap. rewrite Z.mod_small by (eval_pow; lia).
  eexists _, (mkSeg (sg_seq act + 1) [] []). split; [done|]. split; [|split; [done|cbn; lia]].
  split; [|by unfold openActive; destruct (_ !! _)|done].
  apply files_rep_snoc; [done| |lia].
  intros s' [Hs' | ->%list_elem_of_singleton]%elem_of_app; [|lia].
  pose proof (sorted_last _ _ _ (fr_sorted _ _ Hf) Hs'). lia.
Qed.

Lemma delete_keeps through seqs d : Forall (fun s => through < s) seqs -> delete_loop (fun _ => true) through seqs d = (d, None).
Proof. induction 1 as [|s seqs Hs _ IH]; cbn [delete_loop]; [done|]. by rewrite (proj2 (Z.ltb_lt _ _)). Qed.

Lemma delete_rep w old pre act through : wal_rep w (old ++ pre) act ->
  Forall (fun s => sg_seq s <= through) old -> Forall (fun s => through < sg_seq s) (pre ++ [act]) ->
  exists w', deleteThrough (fun _ => true) through w = (w', None) /\ wal_rep w' pre act.
Proof.
  intros [Hf Ha Hc] Hold Hnew. unfold deleteThrough. rewrite (segmentSeqs_exact _ _ Hf).
  rewrite <- app_assoc in *.
  assert (exists d', delete_loop (fun _ => true) through (map sg_seq (old ++ pre ++ [act])) (w_files w) = (d', None) /\
    files_rep d' (pre ++ [act])) as (d' & -> & Hd).
  { revert Hf. generalize (w_files w). induction Hold as [|s old Hs _ IH]; intros d Hf; cbn [app map].
    - exists d. split; [|done]. apply delete_keeps. by apply Forall_map.
    - cbn [delete_loop]. rewrite (proj2 (Z.ltb_ge _ _)) by done. apply IH. by apply files_rep_tail. }
  eexists. split; [done|]. by split.
Qed.

Lemma replay_rep {S} (fn : S -> walRecord -> S * option error) d ss st n : files_rep d ss ->
  replay fn (fun _ => true) (mkWal d n) st = Ret (each fn (all_recs ss) st).
Proof.
  intros Hrep. unfold replay. cbn [w_files]. rewrite (segmentSeqs_exact _ _ Hrep).
  assert (forall l, (forall s, s ∈ l -> s ∈ ss) -> forall st,
    replay_segments fn (fun _ => true) d (map sg_seq l) st = Ret (each fn (all_recs l) st)) as H; [|by apply H].
  induction l as [|s l IH]; intros Hin st'; [done|]. cbn [map replay_segments].
  rewrite (fr_in _ _ Hrep s) by set_solver. cbn [default from_option id].
  pose proof (fr_ok _ _ Hrep) as Ho. rewrite Forall_forall in Ho. destruct (Ho s (Hin s ltac:(set_solver))) as (_ & Hr & Ht).
  unfold seg_bytes. rewrite replaySegment_records by done. cbn [mbind go_bind].
  unfold all_recs. cbn [map concat]. rewrite each_app. destruct (each fn (sg_recs s) st') as [st1 [er|]]; [done|].
  apply IH. set_solver.
Qed.

Lemma all_recs_app a b : all_recs (a ++ b) = all_recs a ++ all_recs b.
Proof. unfold all_recs. by rewrite map_app, concat_app. Qed.

(** The records in the order of replay. *)
Definition collect (acc : list walRecord) (rec : walRecord) : list walRecord * option error := (acc ++ [rec], None).
Lemma each_collect recs acc : each collect recs acc = (acc ++ recs, None).
Proof.
  revert acc. induction recs as [|r recs IH]; intros acc; cbn [each]; [by rewrite app_nil_r|].
  cbn [collect]. by rewrite IH, <- app_assoc.
Qed.

(** ** Properties *)

(** C17: the write-ahead log loses nothing that was written and repeats nothing that
    was trimmed.  On a well-formed log an append adds its record behind all
    others; rotation changes no record and reports a number at or below which
    every earlier segment lies; deleting through that number removes exactly the
    records of those segments; and opening any directory a crash leaves behind
    (complete records in every segment, possibly a torn one at its end) replays
    exactly the complete records, in order. *)
Theorem wal_correct w pre act rec :
  wal_rep w pre act -> record_ok rec -> seq_room (pre ++ [act]) ->
  (exists w' act', wal_append WOk rec w = (w', None) /\ wal_rep w' pre act' /\
     all_recs (pre ++ [act']) = all_recs (pre ++ [act]) ++ [rec]) /\
  (exists w' act' q, rotate true w = (w', inl q) /\ wal_rep w' (pre ++ [act]) act' /\
     all_recs ((pre ++ [act]) ++ [act']) = all_recs (pre ++ [act]) /\
     exists w'', deleteThrough (fun _ => true) q w' = (w'', None) /\ wal_rep w'' [] act' /\ all_recs [act'] = []) /\
  (forall d ss, files_rep d ss ->
     replay collect (fun _ => true) (mkWal d 0) [] = Ret (all_recs ss, None)).
Proof.
  intros Hw Hr Hroom. split_and!.
  - destruct (append_rep _ _ _ _ Hw Hr) as (w' & H1 & H2). eexists w', _. split_and!; [done|exact H2|].
    rewrite !all_recs_app. unfold all_recs. cbn. by rewrite !app_nil_r, app_assoc.
  - destruct (rotate_rep _ _ _ Hw Hroom) as (w' & act' & H1 & H2 & H3 & H4). exists w', act', (sg_seq act).
    assert (all_recs [act'] = []) as Hn by (unfold all_recs; cbn; by rewrite H3). split_and!; [done|done| |].
    + by rewrite all_recs_app, Hn, app_nil_r.
    + destruct (delete_rep w' (pre ++ [act]) [] act' (sg_seq act)) as (w'' & H5 & H6); [by rewrite app_nil_r| | |by eauto].
      * apply Forall_app. split; [|by apply Forall_cons; split; [lia|]]. apply Forall_forall. intros s Hs.
        pose proof (sorted_last _ _ _ (fr_sorted _ _ (wp_files _ _ _ Hw)) Hs). lia.
      * by apply Forall_cons.
  - intros d ss Hd. rewrite (replay_rep _ _ _ _ _ Hd). by rewrite each_collect.
Qed.

Definition demoRec (p base : Z) : walRecord := mkWalRecord "orders" p base (mkBatch base 2 3 1000 []).

Lemma demoRec_ok p base : in_int 32 p -> in_int 64 base -> record_ok (demoRec p base).
Proof.
  intros Hp Hb. split; cbn [demoRec wr_Topic wr_Partition wr_BaseOffset]; [vm_compute; done|done|done|].
  unfold encodeWALPayload, mkBatch. cbn [demoRec wr_Topic wr_Partition wr_BaseOffset wr_Batch].
  rewrite !zlen_app, !zlen_be_put. vm_compute. done.
Qed.

Lemma empty_files : files_rep ∅ [].
Proof. split; [constructor|done|by intros s ?%elem_of_nil|by intros name x ?]. Qed.

Lemma wal_correct_witness :
  exists w' act', wal_append WOk (demoRec 0 7) (openWAL ∅) = (w', None) /\ wal_rep w' [] act' /\ sg_recs act' = [demoRec 0 7].
Proof.
  destruct (open_rep ∅ [] empty_files) as (act & Hw & Hn); [by intros s ?%elem_of_nil|].
  destruct (wal_correct _ _ _ (demoRec 0 7) Hw) as ((w' & act' & H1 & H2 & H3) & _).
  - apply demoRec_ok; solve_int.
  - intros s [-> | []%elem_of_nil]%elem_of_cons. rewrite <- (wp_active _ _ _ Hw). vm_compute. done.
  - exists w', act'. split_and!; [done|done|]. unfold all_recs in H3. cbn [app map concat] in H3.
    by rewrite !app_nil_r, Hn in H3.
Defined.

(** a failed append can cost later ones.  The write of a record fails after ten
    bytes and is reported; the next two appends succeed and are reported as
    stored; but the torn bytes stay in front of them in the file, so replay stops
    there and recovers neither. *)
Theorem torn_write_hides_later_records :
  let w0 := openWAL ∅ in
  let '(w1, e1) := wal_append WOk (demoRec 0 0) w0 in
  let '(w2, e2) := wal_append (WErr 10) (demoRec 0 3) w1 in
  let '(w3, e3) := wal_append WOk (demoRec 0 3) w2 in
  let '(w4, e4) := wal_append WOk (demoRec 0 6) w3 in
  (e1, e2, e3, e4) = (None, Some ErrIO, None, None) /\
  replay collect (fun _ => true) (openWAL (w_files w4)) [] = Ret ([demoRec 0 0], None).
Proof. vm_compute. done. Qed.
