(* ===== verification/WalSync.v ===== *)
(** * What a power failure can take from the write-ahead log

    internal/storage/object/wal.go: [sync], [rotate] and [close], and the calls
    that reach them (storage.go [sync], log.go [Flush]).  As in [Durable], the log
    carries how many bytes of each segment file are on the disk: [rotate] forces
    the segment it seals, [sync] the active one.  A power failure keeps of every
    segment file a prefix that reaches its mark.  The code never syncs the directory;
    as in [Durable], syncing a file is taken to make its name durable, a file that was
    never synced may be missing, and removals are not undone, nor is the creation of a
    file that came before a removal.  Appends whose write fails are not among the
    steps ([Wal.torn_write_hides_later_records] shows what they cost), nor is a
    restart of the process alone ([sync_skips_earlier_segments]). *)

From stdpp Require Import sorting.
From S2P Require Import Prelude Record Segment Strconv Recovery Durable Wal.

(** The log, the bytes of each segment on the disk, and the highest number that
    was trimmed. *)
Record SyncedWal := mkSW { sw_wal : wal; sw_marks : gmap Z Z; sw_trimmed : Z }.

Definition markOf (q : Z) (m : gmap Z Z) : Z := default 0 (m !! q).
Definition fileOf (q : Z) (d : dir) : list byte := default [] (d !! segPath q).

(** [os.File.Sync] of the active segment. *)
Definition syncActive (W : SyncedWal) : gmap Z Z :=
  let q := activeSeq (sw_wal W) in <[q := zlen (fileOf q (w_files (sw_wal W)))]> (sw_marks W).

Definition appendW (e : wres) (rec : walRecord) (W : SyncedWal) : SyncedWal * option error :=
  let '(w, er) := wal_append e rec (sw_wal W) in (mkSW w (sw_marks W) (sw_trimmed W), er).

Definition sync (ok : bool) (W : SyncedWal) : SyncedWal * option error :=
  if ok then (mkSW (sw_wal W) (syncActive W) (sw_trimmed W), None) else (W, Some ErrIO).

(** Sealing forces the segment to the disk; the new file has no mark before it is
    synced. *)
Definition rotateW (ok : bool) (W : SyncedWal) : SyncedWal * (Z + error) :=
  let '(w, r) := rotate ok (sw_wal W) in
  match r with
  | inl q => (mkSW w (delete (activeSeq w) (syncActive W)) (sw_trimmed W), inl q)
  | inr er => (W, inr er)
  end.

Definition deleteThroughW (removed : Z -> bool) (q : Z) (W : SyncedWal) : SyncedWal * option error :=
  let '(w, er) := deleteThrough removed q (sw_wal W) in (mkSW w (sw_marks W) (Z.max (sw_trimmed W) q), er).

(** [close] closes the active file and forces nothing. *)
Definition closeW (er : option error) (W : SyncedWal) : SyncedWal * option error := (W, er).

(** storage.go [sync] and log.go [Flush]: what a partition's Flush does. *)
Definition storage_sync (ok : bool) (W : SyncedWal) : SyncedWal * option error := sync ok W.
Definition ObjectLog_Flush (ok : bool) (W : SyncedWal) : SyncedWal * option error := storage_sync ok W.

(** What a power failure leaves, and the log opened on it.  A segment without a mark
    may be missing, except where it is the only one left of a log that was trimmed. *)
Record wal_image (W : SyncedWal) (d : dir) : Prop := {
  pw_only : forall name x, d !! name = Some x -> is_Some (w_files (sw_wal W) !! name);
  pw_files : forall q, 0 <= q < 2 ^ 63 -> is_Some (w_files (sw_wal W) !! segPath q) ->
    match d !! segPath q with
    | Some f => f `prefix_of` fileOf q (w_files (sw_wal W)) /\ markOf q (sw_marks W) <= zlen f
    | None => sw_marks W !! q = None /\ (sw_trimmed W = 0 \/ exists q', 0 <= q' < 2 ^ 63 /\ q' <> q /\ is_Some (w_files (sw_wal W) !! segPath q'))
    end }.

Definition walAfterOpen (trimmed : Z) (d : dir) : SyncedWal :=
  mkSW (openWAL d) (list_to_map (map (fun q => (q, zlen (fileOf q d))) (segmentSeqs d))) trimmed.

Definition freshWal : SyncedWal := mkSW (openWAL ∅) ∅ 0.

Inductive wstep (W : SyncedWal) : SyncedWal -> Prop :=
  | w_append rec W' : record_ok rec -> appendW WOk rec W = (W', None) -> wstep W W'
  | w_sync ok : wstep W (fst (sync ok W))
  | w_rotate ok : activeSeq (sw_wal W) + 1 < 2 ^ 63 -> wstep W (fst (rotateW ok W))
  | w_delete q W' : q < activeSeq (sw_wal W) -> deleteThroughW (fun _ => true) q W = (W', None) -> wstep W W'
  | w_power d : activeSeq (sw_wal W) + 1 < 2 ^ 63 -> wal_image W d -> wstep W (walAfterOpen (sw_trimmed W) d).

(** ** Segment lists that continue each other *)

(** [B] has the segments of [A], the last one with at least its records, and more;
    empty segments at the end of [A] may be missing. *)
Inductive ext : list seg -> list seg -> Prop :=
  | ext_empty A B : Forall (fun a => sg_recs a = []) A -> ext A B
  | ext_last a A b B : sg_seq a = sg_seq b -> sg_recs a `prefix_of` sg_recs b -> Forall (fun a => sg_recs a = []) A -> ext (a :: A) (b :: B)
  | ext_cons a b A B : sg_seq a = sg_seq b -> sg_recs a = sg_recs b -> ext A B -> ext (a :: A) (b :: B).

Lemma ext_nil B : ext [] B.
Proof. by apply ext_empty. Qed.

Lemma ext_refl A : ext A A.
Proof. induction A; [apply ext_nil|by apply ext_cons]. Qed.

Lemma ext_of_empty A B : ext A B -> Forall (fun b => sg_recs b = []) B -> Forall (fun a => sg_recs a = []) A.
Proof.
  induction 1 as [A B HA|a A b B _ Hr HA|a b A B _ Hr _ IH]; [done| |]; intros [Hb HB]%Forall_cons.
  - apply Forall_cons. split; [|done]. rewrite Hb in Hr. by apply prefix_nil_inv in Hr.
  - apply Forall_cons. split; [congruence|by apply IH].
Qed.

Lemma ext_trans A B C : ext A B -> ext B C -> ext A C.
Proof.
  intros HAB. revert C. induction HAB as [A B HA|a A b B Hq Hr HA|a b A B Hq Hr HAB IH]; intros C HBC; [by apply ext_empty| |].
  - inversion HBC as [? ? HB|b' B' c C' Hq' Hr' HB|b' c B' C' Hq' Hr' HBC']; subst.
    + apply ext_empty. eapply ext_of_empty; [by apply ext_last|exact HB].
    + apply ext_last; [congruence|by etrans|done].
    + apply ext_last; [congruence|by rewrite <- Hr'|done].
  - inversion HBC as [? ? HB|b' B' c C' Hq' Hr' HB|b' c B' C' Hq' Hr' HBC']; subst.
    + apply ext_empty. eapply ext_of_empty; [by apply ext_cons|exact HB].
    + apply ext_last; [congruence|by rewrite Hr|by eapply ext_of_empty].
    + apply ext_cons; [congruence|congruence|by apply IH].
Qed.

Lemma empty_recs A : Forall (fun a => sg_recs a = []) A -> all_recs A = [].
Proof. unfold all_recs. induction 1 as [|a A Ha _ IH]; [done|]. cbn. by rewrite Ha, IH. Qed.

Lemma ext_recs A B : ext A B -> all_recs A `prefix_of` all_recs B.
Proof.
  induction 1 as [A B HA|a A b B _ Hr HA|a b A B _ Hr _ IH].
  - rewrite empty_recs by done. apply prefix_nil.
  - unfold all_recs at 1. cbn [map concat]. fold (all_recs A). rewrite empty_recs, app_nil_r by done. etrans; [exact Hr|by eexists].
  - unfold all_recs. cbn [map concat]. rewrite Hr. by apply prefix_app.
Qed.

Lemma ext_app pre A B : ext A B -> ext (pre ++ A) (pre ++ B).
Proof. intros H. induction pre as [|s pre IH]; [done|by apply ext_cons]. Qed.

Lemma filter_absent {A} (P : A -> Prop) `{!forall x, Decision (P x)} l : Forall (fun x => ~ P x) l -> filter P l = [].
Proof. induction 1 as [|x l Hx _ IH]; [done|]. by rewrite filter_cons, decide_False. Qed.

Lemma filter_agree {A} (P Q : A -> Prop) `{!forall x, Decision (P x), !forall x, Decision (Q x)} l :
  Forall (fun x => P x <-> Q x) l -> filter P l = filter Q l.
Proof.
  induction 1 as [|x l Hx _ IH]; [done|]. rewrite !filter_cons, IH. by destruct (decide (P x)), (decide (Q x)); tauto || done.
Qed.

Definition live (t : Z) (A : list seg) : list seg := filter (fun s => t < sg_seq s) A.

Lemma live_empty t A : Forall (fun a => sg_recs a = []) A -> Forall (fun a => sg_recs a = []) (live t A).
Proof. intros H. rewrite Forall_forall in H. apply Forall_forall. intros x [_ Hx]%list_elem_of_filter. by apply H. Qed.

Lemma ext_live t A B : ext A B -> ext (live t A) (live t B).
Proof.
  induction 1 as [A B HA|a A b B Hq Hr HA|a b A B Hq Hr _ IH]; [by apply ext_empty, live_empty| |].
  - unfold live at 1 2. rewrite !filter_cons, Hq. pose proof (live_empty t A HA). destruct (decide (t < sg_seq b)); [by apply ext_last|by apply ext_empty].
  - unfold live in *. rewrite !filter_cons, Hq. destruct (decide (t < sg_seq b)); [by apply ext_cons|done].
Qed.

Lemma live_live t t' A : t <= t' -> live t' (live t A) = live t' A.
Proof.
  intros Ht. unfold live. rewrite list_filter_filter. apply list_filter_iff. intros s. lia.
Qed.

Lemma live_all t A : Forall (fun s => t < sg_seq s) A -> live t A = A.
Proof.
  unfold live. induction 1 as [|s A Hs _ IH]; [done|]. rewrite filter_cons, decide_True by done. by f_equal.
Qed.

(** A list continues with a longer last segment and anything behind. *)
Lemma ext_snoc pre a b B : sg_seq a = sg_seq b -> sg_recs a `prefix_of` sg_recs b -> ext (pre ++ [a]) (pre ++ b :: B).
Proof. intros Hq Hr. by apply ext_app, ext_last. Qed.

(** ** What is on the disk *)

(** [synced W pre act kept]: the sealed segments [pre] are whole on the disk, of the
    active one at least the records [kept] are, and nothing trimmed is left. *)
Record synced (W : SyncedWal) (pre : list seg) (act : seg) (kept : list walRecord) : Prop := {
  sy_rep : wal_rep (sw_wal W) pre act;
  sy_kept : kept `prefix_of` sg_recs act;
  sy_active : markOf (sg_seq act) (sw_marks W) = zlen (concat (map walFrame kept));
  sy_sealed : forall s, s ∈ pre -> sw_marks W !! sg_seq s = Some (zlen (seg_bytes s));
  sy_live : Forall (fun s => sw_trimmed W < sg_seq s) (pre ++ [act]) }.

(** The segments as they are on the disk. *)
Definition on_disk (pre : list seg) (act : seg) (kept : list walRecord) : list seg := pre ++ [mkSeg (sg_seq act) kept []].

(** One state follows another without losing records that were on the disk and are
    not trimmed. *)
Definition keeps (W : SyncedWal) (A : list seg) (W' : SyncedWal) (B : list seg) : Prop :=
  sw_trimmed W <= sw_trimmed W' /\ ext (live (sw_trimmed W') A) B.

Definition goes_on (W : SyncedWal) (pre : list seg) (act : seg) (kept : list walRecord) (W' : SyncedWal) : Prop :=
  exists pre' act' kept', synced W' pre' act' kept' /\ keeps W (on_disk pre act kept) W' (on_disk pre' act' kept').

Lemma keeps_chain W1 A W2 B W3 C : keeps W1 A W2 B -> keeps W2 B W3 C -> keeps W1 A W3 C.
Proof.
  intros [H1 H2] [G1 G2]. split; [lia|]. rewrite <- (live_live (sw_trimmed W2)) by done. eapply ext_trans; [by apply ext_live|done].
Qed.

Lemma active_bytes W pre act : wal_rep (sw_wal W) pre act ->
  fileOf (activeSeq (sw_wal W)) (w_files (sw_wal W)) = concat (map walFrame (sg_recs act)).
Proof.
  intros [Hf Ha Hc]. unfold fileOf. rewrite Ha, (fr_in _ _ Hf act) by set_solver. unfold seg_bytes. cbn. by rewrite Hc, app_nil_r.
Qed.

Section Steps.
Context (W : SyncedWal) (pre : list seg) (act : seg) (kept : list walRecord) (HW : synced W pre act kept).

Lemma below_active s : s ∈ pre -> sg_seq s < sg_seq act.
Proof. intros Hs. exact (sorted_last _ _ _ (fr_sorted _ _ (wp_files _ _ _ (sy_rep _ _ _ _ HW))) Hs). Qed.

Lemma on_disk_live : Forall (fun s => sw_trimmed W < sg_seq s) (on_disk pre act kept).
Proof.
  pose proof (sy_live _ _ _ _ HW) as [H1 [H2 _]%Forall_cons]%Forall_app. apply Forall_app. split; [done|]. by apply Forall_cons.
Qed.

(** Steps that trim nothing. *)
Lemma keeps_snoc W' b B : sw_trimmed W' = sw_trimmed W -> sg_seq b = sg_seq act -> kept `prefix_of` sg_recs b ->
  keeps W (on_disk pre act kept) W' (pre ++ b :: B).
Proof.
  intros Ht Hq Hr. split; [lia|]. rewrite Ht, live_all by apply on_disk_live. by apply ext_snoc.
Qed.

Lemma append_on rec W' : record_ok rec -> appendW WOk rec W = (W', None) -> goes_on W pre act kept W'.
Proof.
  intros Hrec Happ. pose proof HW as [Hrep Hk Ha Hs Hl]. destruct (append_rep _ _ _ _ Hrep Hrec) as (w' & Hw & Hrep').
  unfold appendW in Happ. rewrite Hw in Happ. injection Happ as <-.
  exists pre, (mkSeg (sg_seq act) (sg_recs act ++ [rec]) []), kept. split; [|by apply keeps_snoc].
  split; cbn; try done; [by apply prefix_app_r|]. apply Forall_app in Hl as [H1 H2]. apply Forall_app. split; [done|].
  apply Forall_cons in H2 as [? _]. by apply Forall_cons.
Qed.

Lemma sync_on ok W' r : sync ok W = (W', r) -> exists kept', synced W' pre act kept' /\
  keeps W (on_disk pre act kept) W' (on_disk pre act kept') /\ (r = None -> kept' = sg_recs act).
Proof.
  pose proof HW as [Hrep Hk Ha Hs Hl]. unfold sync. destruct ok; intros [= <- <-].
  - exists (sg_recs act). split_and!; [|by apply keeps_snoc|done]. pose proof (wp_active _ _ _ Hrep) as Hq.
    split; cbn [sw_wal sw_marks sw_trimmed]; try done; unfold syncActive, markOf.
    + rewrite (active_bytes _ _ _ Hrep), Hq, lookup_insert_eq. done.
    + intros s Hin. pose proof (below_active s Hin). rewrite lookup_insert_ne by lia. by apply Hs.
  - exists kept. split_and!; [done| |done]. by apply keeps_snoc.
Qed.

Lemma rotate_on ok : activeSeq (sw_wal W) + 1 < 2 ^ 63 -> goes_on W pre act kept (fst (rotateW ok W)).
Proof.
  intros Hroom. pose proof HW as [Hrep Hk Ha Hs Hl]. pose proof (wp_active _ _ _ Hrep) as Hq. destruct ok; cycle 1.
  { exists pre, act, kept. split; [done|by apply keeps_snoc]. }
  destruct (rotate_rep _ _ _ Hrep) as (w' & act' & Hw & Hrep' & Hnil & Hlt).
  { intros s [Hin| ->%list_elem_of_singleton]%elem_of_app; [pose proof (below_active s Hin)|]; lia. }
  unfold rotateW. rewrite Hw. cbn [fst]. exists (pre ++ [act]), act', []. pose proof (wp_active _ _ _ Hrep') as Hq'. split.
  - split; cbn [sw_wal sw_marks sw_trimmed]; [done|apply prefix_nil|rewrite Hq'; unfold markOf; by rewrite lookup_delete_eq| |].
    + rewrite Hq'. unfold markOf, syncActive. rewrite (active_bytes _ _ _ Hrep), Hq. intros s [Hin| ->%list_elem_of_singleton]%elem_of_app.
      * pose proof (below_active s Hin). rewrite lookup_delete_ne, lookup_insert_ne by lia. by apply Hs.
      * rewrite lookup_delete_ne, lookup_insert_eq by lia. unfold seg_bytes. by rewrite (wp_clean _ _ _ Hrep), app_nil_r.
    + apply Forall_app. split; [done|]. apply Forall_app in Hl as [_ [? _]%Forall_cons]. apply Forall_cons. split; [lia|done].
  - unfold on_disk at 2. rewrite <- app_assoc. cbn [app]. by apply keeps_snoc.
Qed.

Lemma delete_on q W' : q < activeSeq (sw_wal W) -> deleteThroughW (fun _ => true) q W = (W', None) -> goes_on W pre act kept W'.
Proof.
  intros Hlt Hdel. pose proof HW as [Hrep Hk Ha Hs Hl]. pose proof (wp_active _ _ _ Hrep) as Hq.
  assert (pre = filter (fun s => sg_seq s <= q) pre ++ live q pre) as Hsplit.
  { pose proof (fr_sorted _ _ (wp_files _ _ _ Hrep)) as Hsort. rewrite map_app in Hsort. apply StronglySorted_app_1_l in Hsort.
    clear -Hsort. unfold live. induction pre as [|s l IH]; [done|]. cbn [map] in Hsort. apply StronglySorted_inv in Hsort as [Hsort Hall].
    rewrite !filter_cons. destruct (decide (sg_seq s <= q)) as [Hle|Hgt].
    - rewrite decide_False by lia. cbn [app]. f_equal. by apply IH.
    - rewrite decide_True by lia. rewrite Forall_map, Forall_forall in Hall.
      assert (filter (fun s => sg_seq s <= q) l = []) as ->; [|cbn; f_equal; symmetry; apply live_all].
      + apply filter_absent, Forall_forall. intros x Hx. specialize (Hall x Hx). cbn in Hall. lia.
      + apply Forall_forall. intros x Hx. specialize (Hall x Hx). cbn in Hall. lia. }
  destruct (delete_rep (sw_wal W) (filter (fun s => sg_seq s <= q) pre) (live q pre) act q) as (w' & Hw & Hrep').
  { by rewrite <- Hsplit. }
  { apply Forall_forall. intros s Hin. by apply list_elem_of_filter in Hin as [? _]. }
  { apply Forall_app. split; [|apply Forall_cons; split; [lia|done]]. apply Forall_forall. intros s Hin. by apply list_elem_of_filter in Hin as [? _]. }
  unfold deleteThroughW in Hdel. rewrite Hw in Hdel. injection Hdel as <-.
  exists (live q pre), act, kept. split.
  - split; cbn [sw_wal sw_marks sw_trimmed]; try done.
    + intros s [_ Hin]%list_elem_of_filter. by apply Hs.
    + apply Forall_app in Hl as [H1 [H2 _]%Forall_cons]. apply Forall_app. split; [|apply Forall_cons; split; [lia|done]].
      rewrite Forall_forall in H1. apply Forall_forall. intros s [Hgt Hin]%list_elem_of_filter. specialize (H1 s Hin). lia.
  - split; cbn [sw_trimmed]; [lia|]. unfold on_disk, live at 1. rewrite filter_app.
    apply Forall_app in Hl as [H1 [H2 _]%Forall_cons]. rewrite filter_cons, decide_True by (cbn; lia).
    assert (filter (fun s => Z.max (sw_trimmed W) q < sg_seq s) pre = live q pre) as ->; [|apply ext_refl].
    unfold live. apply filter_agree. eapply Forall_impl; [exact H1|]. cbn. intros s Hs'. lia.
Qed.

End Steps.

(** ** Power failures *)

Lemma sorted_NoDup l : StronglySorted Z.lt l -> NoDup l.
Proof.
  induction 1 as [|x l _ IH Hall]; constructor; [|done]. intros Hin. rewrite Forall_forall in Hall. specialize (Hall _ Hin). lia.
Qed.

(** What is left of the active file: the records on the disk, maybe more, maybe a
    torn one. *)
Lemma torn_file recs kept f :
  Forall record_ok recs -> kept `prefix_of` recs -> f `prefix_of` concat (map walFrame recs) -> zlen (concat (map walFrame kept)) <= zlen f ->
  exists got t, kept `prefix_of` got /\ got `prefix_of` recs /\ f = concat (map walFrame got) ++ t /\ tail_ok t.
Proof.
  intros Hok [k ->] Hf Hlen.
  destruct (prefix_concat f (map walFrame (kept ++ k)) (map walFrame kept) Hf) as (got & lost & t & Hsplit & Hg & -> & Ht);
    [rewrite map_app; by eexists|unfold zlen in Hlen; lia|].
  apply map_eq_app in Hsplit as (r1 & r2 & Hr & <- & <-). exists r1, t. split_and!; [|rewrite Hr; by eexists|done|].
  - apply prefix_length in Hg. rewrite !length_map in Hg. exists (take (length r1 - length kept) k).
    apply (f_equal (take (length r1))) in Hr. rewrite take_app_length, take_app_ge in Hr by done. by rewrite Hr.
  - destruct Ht as [->|(b & rest & lost' & Hlost & Hb & Hne)]; [by left|]. right. destruct r2 as [|rec r2]; [done|]. injection Hlost as Hh _.
    rewrite Hr in Hok. apply Forall_app in Hok as [_ [Hrec _]%Forall_cons]. exists rec, rest. by rewrite Hh.
Qed.

(** A file list without an empty, or missing, tail. *)
Lemma image_files W pre act kept d : synced W pre act kept -> wal_image W d ->
  (exists got t, kept `prefix_of` got /\ got `prefix_of` sg_recs act /\ files_rep d (pre ++ [mkSeg (sg_seq act) got t])) \/
  (kept = [] /\ files_rep d pre /\ (sw_trimmed W = 0 \/ pre <> [])).
Proof.
  intros [Hrep Hk Ha Hs Hl] [Honly Hfiles]. destruct Hrep as [Hf Hq Hc]. pose proof (seg_range _ _ Hf) as Hrange. pose proof Hf as [F1 F2 F3 F4].
  assert (forall s, s ∈ pre ++ [act] -> fileOf (sg_seq s) (w_files (sw_wal W)) = seg_bytes s /\ is_Some (w_files (sw_wal W) !! segPath (sg_seq s))) as Hfile.
  { intros s Hin. unfold fileOf. rewrite (F3 s Hin). by split. }
  assert (act ∈ pre ++ [act]) as Hact by set_solver.
  destruct (Hfile act Hact) as [Hb Hsome]. pose proof (Hfiles _ (Hrange _ Hact) Hsome) as Hda.
  assert (forall s, s ∈ pre -> d !! segPath (sg_seq s) = Some (seg_bytes s)) as Hpre.
  { intros s Hin. assert (s ∈ pre ++ [act]) as Hin' by set_solver. destruct (Hfile s Hin') as [Hb' Hsome'].
    pose proof (Hfiles _ (Hrange _ Hin') Hsome') as Hd'. pose proof (Hs s Hin) as Hm.
    destruct (d !! segPath (sg_seq s)) as [f'|].
    - destruct Hd' as [Hp' Hm']. rewrite Hb' in Hp'. unfold markOf in Hm'. rewrite Hm in Hm'. cbn in Hm'. f_equal. apply prefix_length_eq; [done|]. unfold zlen in Hm'. lia.
    - destruct Hd' as [Hn _]. congruence. }
  apply Forall_app in F2 as [F2 [(Fq & Fr & _) _]%Forall_cons].
  destruct (d !! segPath (sg_seq act)) as [f|] eqn:Hd.
  - left. destruct Hda as [Hp Hm]. rewrite Hb in Hp. unfold seg_bytes in Hp. rewrite Hc, app_nil_r in Hp. rewrite Ha in Hm.
    destruct (torn_file (sg_recs act) kept f Fr Hk Hp Hm) as (got & t & G1 & G2 & -> & G4). exists got, t. split_and!; [done|done|].
    split.
    + rewrite map_app in *. exact F1.
    + apply Forall_app. split; [done|]. apply Forall_cons. split; [|done]. split; [exact Fq|]. split; [|done].
      destruct G2 as [k Hk2]. rewrite Hk2 in Fr. by apply Forall_app in Fr as [? _].
    + intros s [Hin| ->%list_elem_of_singleton]%elem_of_app; [by apply Hpre|]. exact Hd.
    + intros name x Hx. destruct (Honly _ _ Hx) as [y Hy]. destruct (F4 _ _ Hy) as (s & [Hin| ->%list_elem_of_singleton]%elem_of_app & ->).
      * exists s. set_solver.
      * exists (mkSeg (sg_seq act) got t). set_solver.
  - right. destruct Hda as [Hn Hor]. split_and!.
    + unfold markOf in Ha. rewrite Hn in Ha. cbn [default from_option] in Ha. destruct kept as [|r kept]; [done|]. cbn [map concat] in Ha. rewrite zlen_app in Ha.
      pose proof (zlen_walFrame r). pose proof (zlen_nonneg (encodeWALPayload r)). pose proof (zlen_nonneg (concat (map walFrame kept))). lia.
    + split; [rewrite map_app in F1; by eapply StronglySorted_app_1_l|done|done|].
      intros name x Hx. destruct (Honly _ _ Hx) as [y Hy]. destruct (F4 _ _ Hy) as (s & [Hin| ->%list_elem_of_singleton]%elem_of_app & ->); [by exists s|congruence].
    + destruct Hor as [?|(q' & Hq' & Hne & [y Hy])]; [by left|right]. destruct (F4 _ _ Hy) as (s & [Hin| ->%list_elem_of_singleton]%elem_of_app & Hsp).
      * by intros ->; apply not_elem_of_nil in Hin.
      * apply segPath_inj in Hsp; [|done|by apply Hrange]. done.
Qed.

(** The log opened on what is left of the files. *)
Lemma opened_on W pre act kept d ss : synced W pre act kept -> files_rep d ss -> seq_room ss ->
  Forall (fun s => sw_trimmed W < sg_seq s) ss -> sw_trimmed W = 0 \/ ss <> [] ->
  (forall act2, keeps W (on_disk pre act kept) (walAfterOpen (sw_trimmed W) d) (ss ++ [act2])) ->
  goes_on W pre act kept (walAfterOpen (sw_trimmed W) d) /\
  replay collect (fun _ => true) (openWAL d) [] = Ret (all_recs ss, None).
Proof.
  intros HW Hf Hroom Hl Hor Hk. destruct (open_rep d ss Hf Hroom) as (act2 & Hrep2 & Hnil).
  assert (forall s, s ∈ ss -> sg_seq s < sg_seq act2) as Hlt
    by (intros s Hin; exact (sorted_last _ _ _ (fr_sorted _ _ (wp_files _ _ _ Hrep2)) Hin)).
  split.
  - exists ss, act2, []. split; [|apply Hk]. split; cbn [walAfterOpen sw_wal sw_marks sw_trimmed]; [done|apply prefix_nil| | |].
    + unfold markOf. rewrite (segmentSeqs_exact _ _ Hf). rewrite not_elem_of_list_to_map_1; [done|].
      intros (x & Hx & (q & -> & (s & -> & Hin)%list_elem_of_fmap)%list_elem_of_fmap)%list_elem_of_fmap. cbn in Hx.
      specialize (Hlt s Hin). lia.
    + intros s Hin. rewrite (segmentSeqs_exact _ _ Hf), map_map.
      apply (elem_of_list_to_map_1 _ (sg_seq s) (zlen (seg_bytes s))).
      * rewrite map_map. exact (sorted_NoDup _ (fr_sorted _ _ Hf)).
      * apply list_elem_of_fmap. exists s. split; [|done]. unfold fileOf. by rewrite (fr_in _ _ Hf s Hin).
    + apply Forall_app. split; [done|]. apply Forall_cons. split; [|done]. destruct Hor as [->|Hne].
      * pose proof (fr_ok _ _ (wp_files _ _ _ Hrep2)) as [_ [[? _] _]%Forall_cons]%Forall_app. lia.
      * destruct ss as [|s ss]; [done|]. apply Forall_cons in Hl as [? _]. specialize (Hlt s ltac:(by left)). lia.
  - pose proof (replay_rep collect (w_files (openWAL d)) _ [] (activeSeq (openWAL d)) (wp_files _ _ _ Hrep2)) as Hr.
    rewrite each_collect, all_recs_app in Hr. unfold all_recs at 2 in Hr. cbn in Hr. rewrite Hnil, !app_nil_r in Hr. exact Hr.
Qed.

Lemma power_on W pre act kept d : synced W pre act kept -> wal_image W d -> activeSeq (sw_wal W) + 1 < 2 ^ 63 ->
  goes_on W pre act kept (walAfterOpen (sw_trimmed W) d) /\
  exists recs, replay collect (fun _ => true) (openWAL d) [] = Ret (recs, None) /\
    all_recs (on_disk pre act kept) `prefix_of` recs /\ recs `prefix_of` all_recs (pre ++ [act]).
Proof.
  intros HW Hd Hroom. pose proof HW as [Hrep Hk Ha Hs Hl]. pose proof (wp_active _ _ _ Hrep) as Hq. pose proof (below_active _ _ _ _ HW) as Hlt.
  pose proof Hl as [L1 [L2 _]%Forall_cons]%Forall_app. destruct (image_files _ _ _ _ _ HW Hd) as [(got & t & G1 & G2 & Hf)|(-> & Hf & Hor)].
  - set (b := mkSeg (sg_seq act) got t) in *. destruct (opened_on W pre act kept d (pre ++ [b]) HW Hf) as [H1 H2].
    + intros s [Hin| ->%list_elem_of_singleton]%elem_of_app; [pose proof (Hlt s Hin)|cbn]; lia.
    + apply Forall_app. split; [done|]. by apply Forall_cons.
    + right. by destruct pre.
    + intros act2. rewrite <- app_assoc. cbn [app]. by apply (keeps_snoc _ _ _ _ HW).
    + split; [done|]. eexists. split; [exact H2|]. rewrite !all_recs_app. unfold on_disk. rewrite all_recs_app.
      split; apply prefix_app; unfold all_recs; cbn; by rewrite !app_nil_r.
  - destruct (opened_on W pre act [] d pre HW Hf) as [H1 H2]; [intros s Hin; pose proof (Hlt s Hin); lia|done|done| |].
    + intros act2. split; [done|]. cbn [walAfterOpen sw_trimmed]. rewrite live_all by (by apply (on_disk_live _ _ _ _ HW)).
      apply ext_app, ext_empty. by apply Forall_cons.
    + split; [done|]. eexists. split; [exact H2|]. unfold on_disk. rewrite !all_recs_app. unfold all_recs at 2. cbn.
      split; [by rewrite app_nil_r|by eexists].
Qed.

Lemma wstep_on W pre act kept W' : synced W pre act kept -> wstep W W' -> goes_on W pre act kept W'.
Proof.
  intros HW [rec W1 Hrec Happ|ok|ok Hroom|q W1 Hlt Hdel|d Hroom Hd].
  - by eapply append_on.
  - destruct (sync ok W) as [W1 r] eqn:E. destruct (sync_on _ _ _ _ HW _ _ _ E) as (kept' & H1 & H2 & _). by exists pre, act, kept'.
  - by apply rotate_on.
  - by eapply delete_on.
  - by eapply power_on.
Qed.

Lemma wsteps_on W pre act kept W' : synced W pre act kept -> rtc wstep W W' -> goes_on W pre act kept W'.
Proof.
  intros HW Hs. revert pre act kept HW. induction Hs as [W|W W1 W2 Hstep _ IH]; intros pre act kept HW.
  - exists pre, act, kept. split; [done|]. by apply (keeps_snoc _ _ _ _ HW).
  - destruct (wstep_on _ _ _ _ _ HW Hstep) as (pre1 & act1 & kept1 & H1 & K1).
    destruct (IH _ _ _ H1) as (pre2 & act2 & kept2 & H2 & K2). exists pre2, act2, kept2. split; [done|by eapply keeps_chain].
Qed.

Lemma freshWal_synced : exists act, synced freshWal [] act [] /\ sg_recs act = [].
Proof.
  destruct (open_rep ∅ [] empty_files) as (act & Hrep & Hnil); [by intros s ?%elem_of_nil|]. exists act. split; [|done].
  split; [done|apply prefix_nil|done|by intros s ?%elem_of_nil|]. apply Forall_cons. split; [|done].
  rewrite <- (wp_active _ _ _ Hrep). vm_compute. done.
Qed.

(** ** Properties *)


Definition demoSynced : SyncedWal := fst (ObjectLog_Flush true (fst (appendW WOk (demoRec 0 7) freshWal))).
Definition demoLater : SyncedWal := fst (appendW WOk (demoRec 0 9) demoSynced).

(** The second record is torn: the failure keeps five of its bytes. *)
Definition demoImage : dir :=
  let q := activeSeq (sw_wal demoLater) in
  {[ segPath q := take (length (walFrame (demoRec 0 7)) + 5) (fileOf q (w_files (sw_wal demoLater))) ]}.

Lemma demoLater_files : w_files (sw_wal demoLater) = {[ segPath (activeSeq (sw_wal demoLater)) := walFrame (demoRec 0 7) ++ walFrame (demoRec 0 9) ]}.
Proof. vm_compute. reflexivity. Qed.

Lemma demoLater_image : wal_image demoLater demoImage.
Proof.
  split.
  - intros name x Hx. rewrite demoLater_files. unfold demoImage in Hx. apply lookup_singleton_Some in Hx as [<- _]. by rewrite lookup_singleton_eq.
  - intros q Hq. rewrite demoLater_files. intros [x [Hx _]%lookup_singleton_Some].
    apply segPath_inj in Hx as <-; [|vm_compute; done|done]. unfold demoImage. rewrite lookup_singleton_eq, demoLater_files.
    split; [apply prefix_take|]. vm_compute. done.
Qed.


(** The log opened by a process that was killed, not by a machine that lost power:
    the files are whole, and what was on the disk still is. *)
Definition walAfterKill (W : SyncedWal) : SyncedWal := mkSW (openWAL (w_files (sw_wal W))) (sw_marks W) (sw_trimmed W).

(** a sync covers the active segment only.  A record is appended, the process is
    killed and started again, which opens a new segment behind the one that holds
    the record, and a Flush is reported as done.  The record's segment was never
    forced to the disk: a power failure can leave it empty, and the record, in the
    log when the Flush returned, is not replayed. *)
Theorem sync_skips_earlier_segments :
  let W := walAfterKill (fst (appendW WOk (demoRec 0 7) freshWal)) in
  exists W1 d, ObjectLog_Flush true W = (W1, None) /\ wal_image W1 d /\
    replay collect (fun _ => true) (sw_wal W1) [] = Ret ([demoRec 0 7], None) /\
    replay collect (fun _ => true) (openWAL d) [] = Ret ([], None).
Proof.
  intros W. set (W1 := fst (ObjectLog_Flush true W)). exists W1, (const [] <$> w_files (sw_wal W1)).
  split; [done|]. split; [|split; vm_compute; reflexivity]. split.
  - intros name x. rewrite lookup_fmap. intros (y & -> & _)%fmap_Some. done.
  - intros q Hq [x Hx]. rewrite lookup_fmap, Hx. cbn. split; [apply prefix_nil|].
    unfold markOf, W1, ObjectLog_Flush, storage_sync, sync. cbn [fst sw_marks]. unfold syncActive.
    assert (sw_marks W = ∅) as -> by done. destruct (decide (activeSeq (sw_wal W) = q)) as [<-|Hne].
    + rewrite lookup_insert_eq. vm_compute. done.
    + by rewrite lookup_insert_ne.
Qed.
