(* ===== verification/ObjectIndex.v ===== *)
(** * internal/storage/object/index.go: where uploaded records are

    The durable index of the object backend is an interface with two
    implementations: the in-memory one of this package, and the one over the
    replicated metadata (internal/controller/indexstore.go, [Fsm]).  The class
    [IndexStore] is the interface, [IndexStoreLaws] what it promises; both
    implementations discharge it, and the cache [Index] and the node storage are
    proved against it. *)

From stdpp Require Import sorting.
From S2P Require Import Prelude Strconv Fsm.

Definition indexKey (topic : string) (p : Z) : string := (topic +:+ String Ascii.zero (Itoa p))%string.

#[local] Obligation Tactic := idtac.

(** ** The interface *)

Class IndexStore (I : Type) := {
  ixCommit : string -> Z -> SegmentRef -> I -> I * option error;
  ixLoad : I -> string -> Z -> list SegmentRef + error;
  ixPrune : string -> Z -> Z -> I -> I * (list SegmentRef + error);
  ixReferenced : I -> string -> bool + error }.

(** What a store promises when a call reports no error; [refs_of] is what it
    durably holds per partition. *)
Class IndexStoreLaws (I : Type) `{IndexStore I} := {
  refs_of : I -> string -> list SegmentRef;
  ix_commit i i' topic p r : ixCommit topic p r i = (i', None) ->
    refs_of i' (indexKey topic p) = refs_of i (indexKey topic p) ++ [r] /\
    forall k, k <> indexKey topic p -> refs_of i' k = refs_of i k;
  ix_load i topic p rs : ixLoad i topic p = inl rs -> rs = refs_of i (indexKey topic p);
  ix_prune i i' topic p cutoff gone : ixPrune topic p cutoff i = (i', inl gone) ->
    gone = filter (fun r => sr_NextOffset r <= cutoff) (refs_of i (indexKey topic p)) /\
    refs_of i' (indexKey topic p) = filter (fun r => cutoff < sr_NextOffset r) (refs_of i (indexKey topic p)) /\
    forall k, k <> indexKey topic p -> refs_of i' k = refs_of i k;
  ix_referenced i key : ixReferenced i key = inl false -> forall k r, r ∈ refs_of i k -> sr_Key r <> key }.

(** ** MemIndexStore *)

Abbreviation MemIndexStore := (gmap string (list SegmentRef)).
Definition NewMemIndexStore : MemIndexStore := ∅.

Definition mem_Commit (topic : string) (p : Z) (ref : SegmentRef) (m : MemIndexStore) : MemIndexStore * option error :=
  (<[indexKey topic p := default [] (m !! indexKey topic p) ++ [ref]]> m, None).
Definition mem_Load (m : MemIndexStore) (topic : string) (p : Z) : list SegmentRef + error :=
  inl (default [] (m !! indexKey topic p)).
Definition mem_Prune (topic : string) (p cutoff : Z) (m : MemIndexStore) : MemIndexStore * (list SegmentRef + error) :=
  let refs := default [] (m !! indexKey topic p) in
  (<[indexKey topic p := filter (fun r => ~ sr_NextOffset r <= cutoff) refs]> m,
   inl (filter (fun r => sr_NextOffset r <= cutoff) refs)).
Definition mem_Referenced (m : MemIndexStore) (key : string) : bool + error :=
  inl (existsb (fun '(_, refs) => existsb (fun r => String.eqb (sr_Key r) key) refs) (map_to_list m)).

#[export] Instance mem_index : IndexStore MemIndexStore :=
  { ixCommit := mem_Commit; ixLoad := mem_Load; ixPrune := mem_Prune; ixReferenced := mem_Referenced }.

Lemma existsb_refs (m : gmap string (list SegmentRef)) key k r :
  existsb (fun '(_, refs) => existsb (fun r => String.eqb (sr_Key r) key) refs) (map_to_list m) = false ->
  r ∈ default [] (m !! k) -> sr_Key r <> key.
Proof.
  intros Hf Hr <-. destruct (m !! k) as [refs|] eqn:E; cbn in Hr; [|by apply elem_of_nil in Hr].
  apply not_true_iff_false in Hf. apply Hf, existsb_exists. exists (k, refs).
  split; [by apply list_elem_of_In, elem_of_map_to_list|]. apply existsb_exists. exists r.
  split; [by apply list_elem_of_In|apply String.eqb_refl].
Qed.

#[export] Program Instance mem_index_laws : IndexStoreLaws MemIndexStore :=
  { refs_of := fun m k => default [] (m !! k) }.
Next Obligation.
  intros m m' topic p r [= <-]. split; [by rewrite lookup_insert_eq|]. intros k Hk. by rewrite lookup_insert_ne.
Qed.
Next Obligation. by intros m topic p rs [= <-]. Qed.
Next Obligation.
  intros m m' topic p cutoff gone [= <- <-]. split_and!; [done| |].
  - rewrite lookup_insert_eq. cbn. apply list_filter_iff. intros r. lia.
  - intros k Hk. by rewrite lookup_insert_ne.
Qed.
Next Obligation. intros m key [= Hf] k r. exact (existsb_refs m key k r Hf). Qed.

(** ** The index over the replicated metadata *)

#[export] Instance fsm_index : IndexStore metaState :=
  { ixCommit := index_Commit; ixLoad := fun st topic p => inl (index_Load st topic p);
    ixPrune := index_Prune; ixReferenced := fun st key => inl (index_Referenced st key) }.

#[export] Program Instance fsm_index_laws : IndexStoreLaws metaState :=
  { refs_of := fun st k => default [] (Segments_ st !! k) }.
Next Obligation.
  intros st st' topic p r [= <-]. change (indexKey topic p) with (segKey topic p). cbn [Segments_].
  split; [by rewrite lookup_insert_eq|]. intros k Hk. by rewrite lookup_insert_ne.
Qed.
Next Obligation. by intros st topic p rs [= <-]. Qed.
Next Obligation.
  intros st st' topic p cutoff gone [= <- <-]. change (indexKey topic p) with (segKey topic p). cbn [Segments_].
  split_and!; [done| |].
  - destruct (filter _ _) eqn:E; [by rewrite lookup_delete_eq|by rewrite lookup_insert_eq].
  - intros k Hk. destruct (filter _ _); [by rewrite lookup_delete_ne|by rewrite lookup_insert_ne].
Qed.
Next Obligation. intros st key [= Hf] k r. exact (existsb_refs (Segments_ st) key k r Hf). Qed.

(** ** The cache *)

Record Index (I : Type) := mkIndex { ix_store : I; ix_refs : gmap string (list SegmentRef) }.
Arguments mkIndex {I} _ _.
Arguments ix_store {I} _.
Arguments ix_refs {I} _.

Definition byBase (a b : SegmentRef) : Prop := sr_BaseOffset a <= sr_BaseOffset b.
#[export] Instance byBase_dec : RelDecision byBase.
Proof. intros a b. unfold byBase. apply _. Defined.
#[export] Instance byBase_trans : Transitive byBase.
Proof. intros a b c. unfold byBase. lia. Qed.
#[export] Instance byBase_total : Total byBase.
Proof. intros a b. unfold byBase. lia. Qed.

Section Cache.
Context {I : Type} `{IndexStore I}.

Definition newIndex (store : I) : Index I := mkIndex store ∅.

Definition refsFor (ix : Index I) (topic : string) (p : Z) : list SegmentRef :=
  default [] (ix_refs ix !! indexKey topic p).

Definition load (topic : string) (p : Z) (ix : Index I) : Index I * option error :=
  match ixLoad (ix_store ix) topic p with
  | inr er => (ix, Some er)
  | inl refs => (mkIndex (ix_store ix) (<[indexKey topic p := merge_sort byBase refs]> (ix_refs ix)), None)
  end.

Definition commit (topic : string) (p : Z) (ref : SegmentRef) (ix : Index I) : Index I * option error :=
  match ixCommit topic p ref (ix_store ix) with
  | (st, Some er) => (mkIndex st (ix_refs ix), Some er)
  | (st, None) => (mkIndex st (<[indexKey topic p := refsFor ix topic p ++ [ref]]> (ix_refs ix)), None)
  end.

Definition refFor (ix : Index I) (topic : string) (p offset : Z) : option SegmentRef :=
  let refs := refsFor ix topic p in
  let i := sort_Search (length refs) (fun i => match refs !! i with Some r => offset <? sr_BaseOffset r | None => false end) in
  match i with
  | O => None
  | S i => ref ← refs !! i; if sr_NextOffset ref <=? offset then None else Some ref
  end.

Definition prune (topic : string) (p cutoff : Z) (ix : Index I) : Index I * (list SegmentRef + error) :=
  match ixPrune topic p cutoff (ix_store ix) with
  | (st, inr er) => (mkIndex st (ix_refs ix), inr er)
  | (st, inl dropped) =>
    (mkIndex st (<[indexKey topic p := filter (fun r => cutoff < sr_NextOffset r) (refsFor ix topic p)]> (ix_refs ix)), inl dropped)
  end.

(** A failing store counts as referenced. *)
Definition referenced (ix : Index I) (key : string) : bool :=
  match ixReferenced (ix_store ix) key with inl ok => ok | inr _ => true end.

Definition earliest (ix : Index I) (topic : string) (p : Z) : option Z :=
  sr_BaseOffset <$> head (refsFor ix topic p).
Definition latest (ix : Index I) (topic : string) (p : Z) : option Z :=
  sr_NextOffset <$> last (refsFor ix topic p).

End Cache.

(** ** Contiguous references *)

(** [spans o refs m]: the references cover [o] up to [m] without gap or overlap. *)
Fixpoint spans (o : Z) (refs : list SegmentRef) (m : Z) : Prop :=
  match refs with
  | [] => o = m
  | r :: refs => sr_BaseOffset r = o /\ o < sr_NextOffset r /\ spans (sr_NextOffset r) refs m
  end.

Lemma spans_le o refs m : spans o refs m -> o <= m.
Proof. revert o. induction refs as [|r refs IH]; intros o; cbn; [lia|]. intros (_ & Hlt & Hs%IH). lia. Qed.

Lemma spans_app o a b m : spans o (a ++ b) m <-> exists x, spans o a x /\ spans x b m.
Proof.
  revert o. induction a as [|r a IH]; intros o; cbn [app spans].
  - split; [by exists o|]. by intros (x & -> & H).
  - rewrite IH. naive_solver.
Qed.

Lemma spans_bounds o refs m : spans o refs m ->
  Forall (fun r => o <= sr_BaseOffset r < sr_NextOffset r /\ sr_NextOffset r <= m) refs.
Proof.
  revert o. induction refs as [|r refs IH]; intros o; [constructor|]. cbn. intros (Hb & Hlt & Hs).
  pose proof (spans_le _ _ _ Hs). constructor; [lia|]. eapply Forall_impl; [by apply IH|]. cbn. lia.
Qed.

Lemma spans_sorted o refs m : spans o refs m -> StronglySorted byBase refs.
Proof.
  revert o. induction refs as [|r refs IH]; intros o; [constructor|]. cbn. intros (Hb & Hlt & Hs).
  constructor; [by eapply IH|]. eapply Forall_impl; [by eapply spans_bounds|]. unfold byBase. cbn. lia.
Qed.

(** The reference at a position covers from its base to the next one's. *)
Lemma spans_lookup o refs m i r : spans o refs m -> refs !! i = Some r ->
  spans o (take i refs) (sr_BaseOffset r) /\ spans (sr_NextOffset r) (drop (S i) refs) m.
Proof.
  intros Hs Hi. rewrite <- (take_drop_middle _ _ _ Hi) in Hs. apply spans_app in Hs as (x & H1 & H2).
  cbn in H2. destruct H2 as (Hb & _ & H2). by rewrite Hb.
Qed.

Lemma refFor_found {I} `{IndexStore I} (ix : Index I) topic p o m x :
  spans o (refsFor ix topic p) m -> o <= x < m ->
  exists i r, refsFor ix topic p !! i = Some r /\ refFor ix topic p x = Some r /\ sr_BaseOffset r <= x < sr_NextOffset r.
Proof.
  intros Hs Hx. unfold refFor. set (refs := refsFor ix topic p) in *.
  set (f := fun i => match refs !! i with Some r => x <? sr_BaseOffset r | None => false end).
  destruct (sort_Search_spec (length refs) f) as (Hn & Hlo & Hhi).
  { intros a b Hab. unfold f. destruct (refs !! a) as [ra|] eqn:Ea; [|done]. intros Ha%Z.ltb_lt.
    destruct (refs !! b) as [rb|] eqn:Eb; [|apply lookup_ge_None in Eb; lia]. apply Z.ltb_lt.
    destruct (decide (a = b)) as [->|]; [by simplify_eq|].
    destruct (spans_lookup _ _ _ _ _ Hs Ea) as [_ H2]. pose proof (spans_bounds _ _ _ H2) as Hb. rewrite Forall_forall in Hb.
    assert (rb ∈ drop (S a) refs) as Hin.
    { apply list_elem_of_lookup. exists (b - S a)%nat. rewrite lookup_drop. replace (S a + (b - S a))%nat with b by lia. done. }
    specialize (Hb rb Hin). pose proof (spans_bounds _ _ _ Hs) as Hb2. rewrite Forall_forall in Hb2.
    specialize (Hb2 ra (list_elem_of_lookup_2 _ _ _ Ea)). lia. }
  set (i := sort_Search (length refs) f) in *. destruct i as [|i].
  { exfalso. destruct refs as [|r0 rest] eqn:E; [cbn in Hs; lia|]. specialize (Hhi 0%nat ltac:(cbn; lia)).
    unfold f in Hhi. cbn in Hhi, Hs. lia. }
  destruct (refs !! i) as [r|] eqn:Ei; [|apply lookup_ge_None in Ei; lia].
  specialize (Hlo i ltac:(lia)). unfold f in Hlo. rewrite Ei in Hlo. apply Z.ltb_ge in Hlo.
  destruct (spans_lookup _ _ _ _ _ Hs Ei) as [_ H2].
  assert (x < sr_NextOffset r) as Hnext.
  { destruct (refs !! S i) as [r'|] eqn:Er.
    - specialize (Hhi (S i)). unfold f in Hhi. rewrite Er in Hhi. pose proof (lookup_lt_Some _ _ _ Er).
      specialize (Hhi ltac:(lia)). apply Z.ltb_lt in Hhi. rewrite (drop_S _ _ _ Er) in H2. cbn in H2. lia.
    - apply lookup_ge_None in Er. rewrite drop_ge in H2 by done. cbn in H2. lia. }
  exists i, r. cbn [mbind option_bind]. by rewrite (proj2 (Z.leb_gt _ _)).
Qed.

Lemma refFor_none {I} `{IndexStore I} (ix : Index I) topic p o m x :
  spans o (refsFor ix topic p) m -> m <= x -> refFor ix topic p x = None.
Proof.
  intros Hs Hx. unfold refFor. destruct (sort_Search _ _) as [|i]; [done|]. destruct (refsFor ix topic p !! i) as [r|] eqn:Er; [|done].
  cbn. pose proof (spans_bounds _ _ _ Hs) as Hb. rewrite Forall_forall in Hb. specialize (Hb r (list_elem_of_lookup_2 _ _ _ Er)).
  by rewrite (proj2 (Z.leb_le _ _)) by lia.
Qed.

(** Sorting contiguous references changes nothing. *)
Lemma spans_base_inj o refs m r1 r2 : spans o refs m -> r1 ∈ refs -> r2 ∈ refs -> sr_BaseOffset r1 = sr_BaseOffset r2 -> r1 = r2.
Proof.
  revert o. induction refs as [|r refs IH]; intros o; [by intros _ ?%elem_of_nil|]. cbn. intros (Hb & Hlt & Hs).
  pose proof (spans_bounds _ _ _ Hs) as HF. rewrite Forall_forall in HF.
  rewrite !elem_of_cons. intros [->|H1] [->|H2] Heq; [done| | |by eapply IH].
  - specialize (HF _ H2). lia.
  - specialize (HF _ H1). lia.
Qed.

Lemma merge_sort_spans o refs m : spans o refs m -> merge_sort byBase refs = refs.
Proof.
  intros Hs. apply (StronglySorted_unique_strong byBase).
  - intros r1 r2 H1 H2 H12 H21. rewrite merge_sort_Permutation in H1. unfold byBase in *.
    eapply spans_base_inj; [done..|lia].
  - apply StronglySorted_merge_sort; apply _.
  - by eapply spans_sorted.
  - apply merge_sort_Permutation.
Qed.

(** Pruning at the end of a reference keeps exactly the later ones. *)
Lemma filter_keeps {A} (P : A -> Prop) `{forall x, Decision (P x)} (l : list A) : Forall P l -> filter P l = l.
Proof. induction 1 as [|x l Hx _ IH]; [done|]. rewrite filter_cons, decide_True by done. by rewrite IH. Qed.

Lemma filter_drops {A} (P : A -> Prop) `{forall x, Decision (P x)} (l : list A) : Forall (fun x => ~ P x) l -> filter P l = [].
Proof. induction 1 as [|x l Hx _ IH]; [done|]. by rewrite filter_cons, decide_False by done. Qed.

Lemma spans_prune o refs m i r : spans o refs m -> refs !! i = Some r ->
  filter (fun x => sr_NextOffset x <= sr_NextOffset r) refs = take (S i) refs /\
  filter (fun x => sr_NextOffset r < sr_NextOffset x) refs = drop (S i) refs.
Proof.
  intros Hs Hi. destruct (spans_lookup _ _ _ _ _ Hs Hi) as [H1%spans_bounds H2%spans_bounds].
  assert (Forall (fun x => sr_NextOffset x <= sr_NextOffset r) (take (S i) refs)) as Ht.
  { rewrite (take_S_r _ _ _ Hi). apply Forall_app. split; [|by apply Forall_cons; split; [lia|]].
    pose proof (spans_bounds _ _ _ Hs) as Hb. rewrite Forall_forall in Hb. specialize (Hb r (list_elem_of_lookup_2 _ _ _ Hi)).
    eapply Forall_impl; [exact H1|]. cbn. lia. }
  assert (Forall (fun x => sr_NextOffset r < sr_NextOffset x) (drop (S i) refs)) as Hd by (eapply Forall_impl; [exact H2|]; cbn; lia).
  rewrite <- (take_drop (S i) refs) at 1 3. rewrite !filter_app.
  rewrite (filter_keeps _ _ Ht), (filter_keeps _ _ Hd), !filter_drops by (eapply Forall_impl; [eassumption|]; cbn; lia).
  by rewrite app_nil_r.
Qed.
