(* ===== verification/Objects.v ===== *)
(** * internal/storage/object: the object backend

    storage.go, read.go, retention.go and log.go: the storage of a node (the
    write-ahead log [Wal], the pending buffer, the index [ObjectIndex] and the
    uploader) and the per-partition handle [ObjectLog] over it.  The object store
    is an interface ([ObjectStore], store.go); what it promises when a call
    reports no error is [ObjectStoreLaws].  The background goroutine is the calls
    of [upload] it makes; an upload is split where other operations can run. *)

From stdpp Require Import sorting.
From S2P Require Import Prelude Record Segment Strconv Log Recovery Wal Fsm ObjectIndex.

(** ** store.go: the interface of the object store *)

Class ObjectStore (OS : Type) := {
  osPut : string -> list byte -> OS -> OS * option error;
  osGet : OS -> string -> Z -> Z -> list byte + error;
  osDelete : string -> OS -> OS }.

Class ObjectStoreLaws (OS : Type) `{ObjectStore OS} := {
  osView : OS -> gmap string (list byte);
  os_put o o' key data : osPut key data o = (o', None) -> osView o' = <[key := data]> (osView o);
  os_put_fails o o' key data er : osPut key data o = (o', Some er) ->
    forall k, k <> key -> osView o' !! k = osView o !! k;
  os_get o key off len data d : osGet o key off len = inl data -> osView o !! key = Some d ->
    0 <= off -> 0 < len -> off + len <= zlen d -> data = take (Z.to_nat len) (drop (Z.to_nat off) d);
  os_delete o key k : k <> key -> osView (osDelete key o) !! k = osView o !! k }.

(** ** State *)

Record StorageConfig := mkStorageConfig { sc_NodeID : string; sc_UploadBytes : Z }.

Record pendingPart := mkPending {
  pp_topic : string; pp_partition : Z; pp_base : Z; pp_next : Z; pp_batches : list (list byte); pp_bytes : Z }.

Record ObjectLog := mkObjectLog {
  ol_topic : string; ol_partition : Z; ol_next : Z; ol_hwm : Z; ol_hold : bool; ol_earliest : Z }.

Definition byKey (a b : string * pendingPart) : Prop := String.leb a.1 b.1 = true.
#[export] Instance byKey_dec : RelDecision byKey.
Proof. intros a b. unfold byKey. apply _. Defined.

Section Storage.
Context {OS IS : Type} `{ObjectStore OS} `{IndexStore IS}.

(** [st_notify]: an upload is asked for. *)
Record Storage := mkStorage {
  st_cfg : StorageConfig; st_store : OS; st_wal : wal; st_index : Index IS;
  st_pending : gmap string pendingPart; st_bytes : Z; st_seq : Z;
  st_recBase : gmap string Z; st_recNext : gmap string Z; st_notify : bool }.

Definition withPending (pend : gmap string pendingPart) (bytes : Z) (s : Storage) : Storage :=
  mkStorage (st_cfg s) (st_store s) (st_wal s) (st_index s) pend bytes (st_seq s) (st_recBase s) (st_recNext s) (st_notify s).
Definition withWal (w : wal) (s : Storage) : Storage :=
  mkStorage (st_cfg s) (st_store s) w (st_index s) (st_pending s) (st_bytes s) (st_seq s) (st_recBase s) (st_recNext s) (st_notify s).
Definition withStore (o : OS) (s : Storage) : Storage :=
  mkStorage (st_cfg s) o (st_wal s) (st_index s) (st_pending s) (st_bytes s) (st_seq s) (st_recBase s) (st_recNext s) (st_notify s).
Definition withIndex (ix : Index IS) (s : Storage) : Storage :=
  mkStorage (st_cfg s) (st_store s) (st_wal s) ix (st_pending s) (st_bytes s) (st_seq s) (st_recBase s) (st_recNext s) (st_notify s).

(** ** storage.go: appending *)

Definition appendPendingLocked (rec : walRecord) (next : Z) (s : Storage) : Storage :=
  let k := indexKey (wr_Topic rec) (wr_Partition rec) in
  let pp := default (mkPending (wr_Topic rec) (wr_Partition rec) (wr_BaseOffset rec) 0 [] 0) (st_pending s !! k) in
  let pp' := mkPending (pp_topic pp) (pp_partition pp) (pp_base pp) next (pp_batches pp ++ [wr_Batch rec])
               (int64 (pp_bytes pp + zlen (wr_Batch rec))) in
  withPending (<[k := pp']> (st_pending s)) (int64 (st_bytes s + zlen (wr_Batch rec))) s.

Definition triggerUpload (s : Storage) : Storage :=
  mkStorage (st_cfg s) (st_store s) (st_wal s) (st_index s) (st_pending s) (st_bytes s) (st_seq s) (st_recBase s) (st_recNext s) true.

(** The second half of [append], under the storage's lock. *)
Definition appendBuffered (rec : walRecord) (next : Z) (s : Storage) : Storage :=
  let s' := appendPendingLocked rec next s in
  if (0 <? sc_UploadBytes (st_cfg s')) && (sc_UploadBytes (st_cfg s') <=? st_bytes s') then triggerUpload s' else s'.

Definition storage_append (e : wres) (rec : walRecord) (next : Z) (s : Storage) : Storage * option error :=
  match wal_append e rec (st_wal s) with
  | (w, Some er) => (withWal w s, Some er)
  | (w, None) => (appendBuffered rec next (withWal w s), None)
  end.

(** ** storage.go: uploading *)

Definition mergePart (pp cur : pendingPart) : pendingPart :=
  mkPending (pp_topic pp) (pp_partition pp) (pp_base pp) (pp_next cur) (pp_batches pp ++ pp_batches cur)
    (int64 (pp_bytes pp + pp_bytes cur)).

Definition restore (snap : gmap string pendingPart) (s : Storage) : Storage :=
  let pend := union_with (fun pp cur => Some (mergePart pp cur)) snap (st_pending s) in
  withPending pend (map_fold (fun _ pp total => int64 (total + pp_bytes pp)) 0 pend) s.

Definition sortedKeys (m : gmap string pendingPart) : list (string * pendingPart) :=
  merge_sort byKey (map_to_list m).

Definition objectKey (node : string) (seq : Z) : string := ("data/sso/" +:+ node +:+ "/" +:+ pad20 seq)%string.

(** The object's bytes and the slices to commit. *)
Fixpoint buildObject (key : string) (uploadedMs : Z) (parts : list (string * pendingPart)) (buf : list byte)
    : list byte * list (string * Z * SegmentRef) :=
  match parts with
  | [] => (buf, [])
  | (_, pp) :: parts =>
    let pos := zlen buf in
    let buf' := buf ++ concat (pp_batches pp) in
    let ref := mkRef key (pp_base pp) (pp_next pp) pos (zlen buf' - pos) uploadedMs in
    let '(out, commits) := buildObject key uploadedMs parts buf' in
    (out, (pp_topic pp, pp_partition pp, ref) :: commits)
  end.

Fixpoint commitAll (commits : list (string * Z * SegmentRef)) (ix : Index IS) : Index IS * option error :=
  match commits with
  | [] => (ix, None)
  | (topic, p, ref) :: commits =>
    match commit topic p ref ix with
    | (ix', Some er) => (ix', Some er)
    | (ix', None) => commitAll commits ix'
    end
  end.

(** The outcomes of the file calls, and the clock. *)
Record uploadIO := mkUploadIO { u_rotated : bool; u_now : Z; u_removed : Z -> bool }.

(** [upload] up to the release of the lock: the snapshot and its number. *)
Definition uploadBegin (s : Storage) : Storage * option (gmap string pendingPart * Z) :=
  if decide (st_pending s = ∅) then (s, None)
  else
    let seq := uint64 (st_seq s + 1) in
    (mkStorage (st_cfg s) (st_store s) (st_wal s) (st_index s) ∅ 0 seq (st_recBase s) (st_recNext s) (st_notify s),
     Some (st_pending s, seq)).

(** The rest of it. *)
Definition uploadFinish (e : uploadIO) (snap : gmap string pendingPart) (seq : Z) (s : Storage) : Storage * option error :=
  match rotate (u_rotated e) (st_wal s) with
  | (w, inr er) => (restore snap (withWal w s), Some er)
  | (w, inl sealed) =>
    let s1 := withWal w s in
    let key := objectKey (sc_NodeID (st_cfg s)) seq in
    let '(buf, commits) := buildObject key (u_now e) (sortedKeys snap) [] in
    match osPut key buf (st_store s1) with
    | (o, Some er) => (restore snap (withStore o s1), Some er)
    | (o, None) =>
      let s2 := withStore o s1 in
      match commitAll commits (st_index s2) with
      | (ix, Some er) => (withIndex ix s2, Some er)
      | (ix, None) =>
        let s3 := withIndex ix s2 in
        let '(w', er) := deleteThrough (u_removed e) sealed (st_wal s3) in
        (withWal w' s3, er)
      end
    end
  end.

Definition upload (e : uploadIO) (s : Storage) : Storage * option error :=
  match uploadBegin s with
  | (s', None) => (s', None)
  | (s', Some (snap, seq)) => uploadFinish e snap seq s'
  end.

(** ** storage.go: opening *)

(** The callback of [replay]. *)
Definition replayRecord (s : Storage) (rec : walRecord) : Storage * option error :=
  match ParseHeader (wr_Batch rec) with
  | (_, Some er) => (s, Some er)
  | (h, None) =>
    let next := int64 (LastOffset h + 1) in
    let s' := appendPendingLocked rec next s in
    let k := indexKey (wr_Topic rec) (wr_Partition rec) in
    (mkStorage (st_cfg s') (st_store s') (st_wal s') (st_index s') (st_pending s') (st_bytes s') (st_seq s')
       (match st_recBase s' !! k with Some _ => st_recBase s' | None => <[k := wr_BaseOffset rec]> (st_recBase s') end)
       (<[k := next]> (st_recNext s')) (st_notify s'), None)
  end.

Definition NewStorage (readable : Z -> bool) (c : StorageConfig) (o : OS) (i : IS) (d : dir) : go (Storage + error) :=
  let w := openWAL d in
  let s := mkStorage c o w (newIndex i) ∅ 0 0 ∅ ∅ false in
  r ← replay replayRecord readable w s;
  match r with
  | (_, Some er) => Ret (inr er)
  | (s', None) => Ret (inl s')
  end.

Definition storage_Log (topic : string) (p : Z) (s : Storage) : Storage * (ObjectLog + error) :=
  match load topic p (st_index s) with
  | (ix, Some er) => (withIndex ix s, inr er)
  | (ix, None) =>
    let k := indexKey topic p in
    let next := default 0 (latest ix topic p) in
    let next := match st_recNext s !! k with Some r => if next <? r then r else next | None => next end in
    let first := match earliest ix topic p with
                 | Some e => e
                 | None => default next (st_recBase s !! k)
                 end in
    (withIndex ix s, inl (mkObjectLog topic p next next false first))
  end.

(** ** read.go *)

Fixpoint slice_loop (fuel : nat) (data : list byte) (wantOffset maxBytes pos : Z) (out : list byte)
    : go (list byte * option error) :=
  match fuel with
  | O => Spin
  | S fuel =>
    if pos <? zlen data then
      match ParseHeader (drop (Z.to_nat pos) data) with
      | (_, Some er) => Ret (out, Some er)
      | (h, None) =>
        let total := TotalSize h in
        if zlen data <? pos + total then Ret (out, None)
        else if LastOffset h <? wantOffset then slice_loop fuel data wantOffset maxBytes (pos + total) out
        else if (0 <? zlen out) && (maxBytes <? int32 (int32 (zlen out) + int32 total)) then Ret (out, None)
        else
          b ← slice data pos (pos + total);
          let out := out ++ b in
          if maxBytes <=? int32 (zlen out) then Ret (out, None)
          else slice_loop fuel data wantOffset maxBytes (pos + total) out
      end
    else Ret (out, None)
  end.

(** Stored batches have a positive size, so the length of the data is enough
    rounds. *)
Definition sliceBatches (data : list byte) (wantOffset maxBytes : Z) : go (list byte * option error) :=
  slice_loop (S (length data)) data wantOffset maxBytes 0 [].

Definition pendingData (s : Storage) (k : string) : list byte :=
  match st_pending s !! k with Some pp => concat (pp_batches pp) | None => [] end.

Definition storage_read (topic : string) (p offset maxBytes : Z) (s : Storage) : go (list byte * option error) :=
  let k := indexKey topic p in
  let data := match st_pending s !! k with
              | Some pp => if pp_base pp <=? offset then pendingData s k else []
              | None => []
              end in
  match data with
  | _ :: _ => sliceBatches data offset maxBytes
  | [] =>
    match refFor (st_index s) topic p offset with
    | None => Ret ([], None)
    | Some ref =>
      match osGet (st_store s) (sr_Key ref) (sr_Position ref) (sr_Length ref) with
      | inr er => Ret ([], Some er)
      | inl data => sliceBatches data offset maxBytes
      end
    end
  end.

Fixpoint scan_loop (fuel : nat) (data : list byte) (ts pos : Z) : go (option Z) :=
  match fuel with
  | O => Spin
  | S fuel =>
    if pos <? zlen data then
      match ParseHeader (drop (Z.to_nat pos) data) with
      | (_, Some _) => Ret None
      | (h, None) => if ts <=? MaxTimestamp h then Ret (Some (BaseOffset h)) else scan_loop fuel data ts (pos + TotalSize h)
      end
    else Ret None
  end.
Definition scanTimestamp (data : list byte) (ts : Z) : go (option Z) := scan_loop (S (length data)) data ts 0.

Fixpoint scanRefs (o : OS) (refs : list SegmentRef) (ts : Z) : go (option (option Z)) :=
  match refs with
  | [] => Ret None
  | ref :: refs =>
    match osGet o (sr_Key ref) (sr_Position ref) (sr_Length ref) with
    | inr _ => Ret (Some None)
    | inl data =>
      r ← scanTimestamp data ts;
      match r with Some off => Ret (Some (Some off)) | None => scanRefs o refs ts end
    end
  end.

Definition offsetForTimestamp (topic : string) (p ts : Z) (s : Storage) : go (option Z) :=
  r ← scanRefs (st_store s) (refsFor (st_index s) topic p) ts;
  match r with
  | Some answer => Ret answer
  | None => scanTimestamp (pendingData s (indexKey topic p)) ts
  end.

(** ** retention.go *)

Definition pendingSize (s : Storage) (k : string) : Z :=
  match st_pending s !! k with Some pp => pp_bytes pp | None => 0 end.

Definition storage_size (topic : string) (p : Z) (s : Storage) : Z :=
  int64 (foldl (fun total r => int64 (total + sr_Length r)) 0 (refsFor (st_index s) topic p) + pendingSize s (indexKey topic p)).

(** How many of the oldest references go. *)
Fixpoint drop_loop (now maxAgeMs maxBytes : Z) (refs : list SegmentRef) (total : Z) : nat :=
  match refs with
  | [] => 0
  | r :: refs =>
    let expired := (0 <? maxAgeMs) && (maxAgeMs <? int64 (now - sr_UploadedMs r)) in
    let overSize := (0 <? maxBytes) && (maxBytes <? total) in
    if negb expired && negb overSize then 0
    else S (drop_loop now maxAgeMs maxBytes refs (int64 (total - sr_Length r)))
  end.

(** Delete the objects of the dropped references that nothing refers to. *)
Fixpoint collectObjects (ix : Index IS) (gone : list SegmentRef) (seen : gset string) (o : OS) : OS :=
  match gone with
  | [] => o
  | r :: gone =>
    if decide (sr_Key r ∈ seen) then collectObjects ix gone seen o
    else
      let o' := if referenced ix (sr_Key r) then o else osDelete (sr_Key r) o in
      collectObjects ix gone ({[sr_Key r]} ∪ seen) o'
  end.

(** [Some]: the new earliest offset. *)
Definition enforceRetention (now : Z) (topic : string) (p maxAgeMs maxBytes : Z) (s : Storage)
    : Storage * (option Z + error) :=
  let refs := refsFor (st_index s) topic p in
  let total := storage_size topic p s in
  let dropped := drop_loop now maxAgeMs maxBytes refs total in
  match dropped with
  | O => (s, inl None)
  | S i =>
    match refs !! i with
    | None => (s, inl None)
    | Some last =>
      let cutoff := sr_NextOffset last in
      match prune topic p cutoff (st_index s) with
      | (ix, inr er) => (withIndex ix s, inr er)
      | (ix, inl gone) => (withStore (collectObjects ix gone ∅ (st_store s)) (withIndex ix s), inl (Some cutoff))
      end
    end
  end.

(** ** log.go *)

Definition setNext (next hwm : Z) (l : ObjectLog) : ObjectLog :=
  mkObjectLog (ol_topic l) (ol_partition l) next hwm (ol_hold l) (ol_earliest l).

Definition Append (e : wres) (batch0 : list byte) (l : ObjectLog) (s : Storage)
    : go (ObjectLog * Storage * (Z * option error)) :=
  let base := ol_next l in
  batch ← patchBatch batch0 base;
  match ParseHeader batch with
  | (_, Some er) => Ret (l, s, (0, Some er))
  | (h, None) =>
    let next := int64 (LastOffset h + 1) in
    match storage_append e (mkWalRecord (ol_topic l) (ol_partition l) base batch) next s with
    | (s', Some er) => Ret (l, s', (0, Some er))
    | (s', None) => Ret (setNext next (if ol_hold l then ol_hwm l else next) l, s', (base, None))
    end
  end.

Definition AppendReplica (e : wres) (batch : list byte) (l : ObjectLog) (s : Storage)
    : ObjectLog * Storage * (Z * option error) :=
  match ParseHeader batch with
  | (_, Some er) => (l, s, (0, Some er))
  | (h, None) =>
    if BaseOffset h <? ol_next l then (l, s, (ol_next l, None))
    else if ol_next l <? BaseOffset h then (l, s, (ol_next l, Some ErrReplicaGap))
    else
      let next := int64 (LastOffset h + 1) in
      match storage_append e (mkWalRecord (ol_topic l) (ol_partition l) (BaseOffset h) batch) next s with
      | (s', Some er) => (l, s', (0, Some er))
      | (s', None) => (setNext next (ol_hwm l) l, s', (next, None))
      end
  end.

Definition SetHighWatermark (hwm : Z) (l : ObjectLog) : ObjectLog :=
  let hwm := if ol_next l <? hwm then ol_next l else hwm in
  if ol_hwm l <? hwm then setNext (ol_next l) hwm l else l.

Definition HoldHighWatermark (l : ObjectLog) : ObjectLog :=
  mkObjectLog (ol_topic l) (ol_partition l) (ol_next l) (ol_hwm l) true (ol_earliest l).

Definition Read (offset maxBytes : Z) (l : ObjectLog) (s : Storage) : go (list byte * option error) :=
  if offset =? ol_next l then Ret ([], None)
  else if (ol_next l <? offset) || (offset <? ol_earliest l) then Ret ([], Some ErrOffsetOutOfRange)
  else storage_read (ol_topic l) (ol_partition l) offset maxBytes s.

Definition OffsetForTimestamp (ts : Z) (l : ObjectLog) (s : Storage) : go (option Z) :=
  offsetForTimestamp (ol_topic l) (ol_partition l) ts s.

Definition Size (l : ObjectLog) (s : Storage) : Z := storage_size (ol_topic l) (ol_partition l) s.

Definition EnforceRetention (now maxAgeMs maxBytes : Z) (l : ObjectLog) (s : Storage)
    : ObjectLog * Storage * option error :=
  match enforceRetention now (ol_topic l) (ol_partition l) maxAgeMs maxBytes s with
  | (s', inr er) => (l, s', Some er)
  | (s', inl (Some first)) =>
    (if ol_earliest l <? first
     then mkObjectLog (ol_topic l) (ol_partition l) (ol_next l) (ol_hwm l) (ol_hold l) first else l, s', None)
  | (s', inl None) => (l, s', None)
  end.

End Storage.
Arguments Storage : clear implicits.

(** ** Slicing stored bytes *)

Lemma slice_loop_spec want max fuel pre bs m n out :
  chained m bs n -> in_int 32 max -> zlen pre + zlen (concat bs) < 2 ^ 31 -> zlen out <= zlen pre ->
  (length bs < fuel)%nat ->
  slice_loop fuel (pre ++ concat bs) want max (zlen pre) out =
  Ret (out ++ concat (gather max (zlen out) (drop_before want bs)), None).
Proof.
  intros Hc Hmax. revert pre m out fuel Hc.
  induction bs as [|b bs IH]; intros pre m out fuel Hc Hsm Hout Hfuel; (destruct fuel as [|fuel]; [lia|]);
    cbn [slice_loop drop_before gather concat].
  - rewrite !app_nil_r. by rewrite Z.ltb_irrefl.
  - destruct Hc as [[Hw Hb Hs] Hc]. pose proof (batch_wf_pos b Hw) as Hpos. pose proof (zlen_nonneg out).
    pose proof (zlen_nonneg pre). pose proof (zlen_nonneg (concat bs)). rewrite concat_cons, zlen_app in Hsm.
    rewrite !zlen_app. rewrite (proj2 (Z.ltb_lt _ _)) by lia. rewrite drop_zlen, parse_wf, (bw_size _ Hw) by done.
    rewrite (proj2 (Z.ltb_ge _ _)) by lia. rewrite (int32_id (zlen b)), (int32_id (zlen out)) by solve_int.
    rewrite (int32_id (zlen out + zlen b)) by solve_int.
    assert (forall out', zlen out' <= zlen pre + zlen b ->
      slice_loop fuel (pre ++ b ++ concat bs) want max (zlen pre + zlen b) out' =
      Ret (out' ++ concat (gather max (zlen out') (drop_before want bs)), None)) as Hgo.
    { intros out' Ho'. rewrite app_assoc, <- zlen_app. eapply IH; [exact Hc|rewrite zlen_app; lia|rewrite zlen_app; lia|cbn in Hfuel; lia]. }
    unfold next_of in *. destruct (Z.ltb_spec (LastOffset (headerOf b)) want) as [Hlt|Hge].
    + leb_true. apply Hgo. lia.
    + leb_false. cbn [gather]. destruct (_ && _) eqn:Hfull; [by rewrite app_nil_r|].
      rewrite slice_mid. cbn [mbind go_bind]. rewrite zlen_app, (int32_id (zlen out + zlen b)) by solve_int.
      destruct (max <=? zlen out + zlen b); [cbn [concat]; by rewrite app_nil_r|].
      rewrite Hgo by (rewrite zlen_app; lia). rewrite zlen_app, concat_cons, app_assoc.
      assert (drop_before want bs = bs) as -> by (eapply drop_before_none; [exact Hc|lia]). done.
Qed.

Lemma sliceBatches_spec want max bs m n :
  chained m bs n -> in_int 32 max -> zlen (concat bs) < 2 ^ 31 ->
  sliceBatches (concat bs) want max = Ret (concat (read_spec want max bs), None).
Proof.
  intros Hc Hmax Hsm. unfold sliceBatches. pose proof (chained_length _ _ _ Hc).
  pose proof (slice_loop_spec want max (S (length (concat bs))) [] bs m n [] Hc Hmax) as H1.
  cbn [app] in H1. rewrite zlen_nil in H1. rewrite H1 by lia. done.
Qed.

(** ** What a partition holds *)

(** The bytes of a reference are those of the batches [bs]. *)
Definition slice_of (v : gmap string (list byte)) (r : SegmentRef) (bs : list (list byte)) : Prop :=
  exists a c, v !! sr_Key r = Some (a ++ concat bs ++ c) /\ sr_Position r = zlen a /\ sr_Length r = zlen (concat bs).

(** [uploaded v o refs bss m]: the references hold, one by one, the groups [bss]
    of batches, which cover the offsets from [o] to [m]. *)
Fixpoint uploaded (v : gmap string (list byte)) (o : Z) (refs : list SegmentRef) (bss : list (list (list byte))) (m : Z) : Prop :=
  match refs, bss with
  | [], [] => o = m
  | r :: refs, bs :: bss =>
    sr_BaseOffset r = o /\ bs <> [] /\ chained o bs (sr_NextOffset r) /\ zlen (concat bs) < 2 ^ 31 /\
    slice_of v r bs /\ uploaded v (sr_NextOffset r) refs bss m
  | _, _ => False
  end.

Lemma chained_lt o bs n : chained o bs n -> bs <> [] -> o < n.
Proof. destruct bs as [|b bs]; [done|]. intros [[_ _ Hs] Hc%chained_le] _. lia. Qed.

Lemma uploaded_spans v o refs bss m : uploaded v o refs bss m -> spans o refs m.
Proof.
  revert o bss. induction refs as [|r refs IH]; intros o [|bs bss]; cbn; try done.
  intros (Hb & Hne & Hc & _ & _ & Hu). pose proof (chained_lt _ _ _ Hc Hne). split_and!; [done|lia|by eapply IH].
Qed.

Lemma uploaded_chained v o refs bss m : uploaded v o refs bss m -> chained o (concat bss) m.
Proof.
  revert o bss. induction refs as [|r refs IH]; intros o [|bs bss]; cbn; try done.
  intros (_ & _ & Hc & _ & _ & Hu). apply chained_app. eexists. split; [exact Hc|by eapply IH].
Qed.

Lemma uploaded_snoc v o refs bss m r bs : uploaded v o refs bss m ->
  sr_BaseOffset r = m -> bs <> [] -> chained m bs (sr_NextOffset r) -> zlen (concat bs) < 2 ^ 31 -> slice_of v r bs ->
  uploaded v o (refs ++ [r]) (bss ++ [bs]) (sr_NextOffset r).
Proof.
  revert o bss. induction refs as [|r' refs IH]; intros o [|bs' bss]; cbn; try done.
  - intros ->. done.
  - intros (G1 & G2 & G3 & G4 & G5 & Hu) H1 H2 H3 H4 H5. split_and!; try done. by apply IH.
Qed.

(** Only the objects that are referred to matter. *)
Lemma uploaded_view v v' o refs bss m : uploaded v o refs bss m ->
  (forall r, r ∈ refs -> v' !! sr_Key r = v !! sr_Key r) -> uploaded v' o refs bss m.
Proof.
  revert o bss. induction refs as [|r refs IH]; intros o [|bs bss]; cbn; try done.
  intros (H1 & H2 & H3 & H4 & (a & c & Hv & Hpos) & Hu) Hsame. split_and!; try done.
  - exists a, c. split; [|done]. by rewrite Hsame by set_solver.
  - apply IH; [done|]. intros r' Hr'. apply Hsame. set_solver.
Qed.

Lemma uploaded_lookup v o refs bss m i r : uploaded v o refs bss m -> refs !! i = Some r ->
  exists bs pre post, bss !! i = Some bs /\ bs <> [] /\ concat bss = pre ++ bs ++ post /\
    chained o pre (sr_BaseOffset r) /\ chained (sr_BaseOffset r) bs (sr_NextOffset r) /\
    zlen (concat bs) < 2 ^ 31 /\ slice_of v r bs.
Proof.
  revert o bss i. induction refs as [|r' refs IH]; intros o [|bs bss] i; cbn [uploaded]; try done.
  intros (Hb & Hne & Hc & Hsz & Hsl & Hu). destruct i as [|i]; cbn [lookup list_lookup].
  - intros [= ->]. exists bs, [], (concat bss). rewrite Hb. by split_and!.
  - intros Hi. destruct (IH _ _ _ Hu Hi) as (bs' & pre & post & H1 & H2 & H3 & H4 & H5 & H6 & H7).
    exists bs', (bs ++ pre), post. split_and!; try done; [cbn [concat]; by rewrite H3, app_assoc|].
    apply chained_app. eauto.
Qed.

Lemma uploaded_drop v o refs bss m i r : uploaded v o refs bss m -> refs !! i = Some r ->
  uploaded v (sr_NextOffset r) (drop (S i) refs) (drop (S i) bss) m.
Proof.
  revert o bss i. induction refs as [|r' refs IH]; intros o [|bs bss] i; cbn [uploaded]; try done.
  intros (_ & _ & _ & _ & _ & Hu). destruct i as [|i]; cbn [lookup list_lookup drop]; [by intros [= ->]|]. by eapply IH.
Qed.

Definition pend_rep (k : string) (m : Z) (pp : option pendingPart) (bs : list (list byte)) (n : Z) : Prop :=
  chained m bs n /\ zlen (concat bs) < 2 ^ 31 /\
  match pp with
  | None => bs = []
  | Some pp => bs <> [] /\ pp_batches pp = bs /\ pp_base pp = m /\ pp_next pp = n /\
               pp_bytes pp = zlen (concat bs) /\ indexKey (pp_topic pp) (pp_partition pp) = k
  end.

Section Correct.
Context {OS IS : Type} `{ObjectStoreLaws OS} `{IndexStoreLaws IS}.

Definition view (s : Storage OS IS) : gmap string (list byte) := osView (st_store s).
Definition cached (s : Storage OS IS) (k : string) : list SegmentRef := default [] (ix_refs (st_index s) !! k).
Definition durable (s : Storage OS IS) (k : string) : list SegmentRef := refs_of (ix_store (st_index s)) k.

(** [part_rep s k o n bss bs]: the partition holds the batches of [bss] in objects
    and [bs] in the pending buffer, which together cover [o] to [n]; the cache
    and the durable index agree. *)
Record part_rep (s : Storage OS IS) (k : string) (o n : Z) (bss : list (list (list byte))) (bs : list (list byte)) : Prop := {
  pr_data : exists m, uploaded (view s) o (cached s k) bss m /\ pend_rep k m (st_pending s !! k) bs n;
  pr_durable : durable s k = cached s k }.

(** The handle carries the range of its partition. *)
Record handle_ok (l : ObjectLog) (o n : Z) : Prop := {
  ho_next : ol_next l = n; ho_earliest : ol_earliest l = o; ho_hwm : ol_hwm l <= n }.

Abbreviation lkey l := (indexKey (ol_topic l) (ol_partition l)).

Lemma part_chained s k o n bss bs : part_rep s k o n bss bs -> chained o (contents bss bs) n.
Proof.
  intros [(m & Hu & Hc & _) _]. apply chained_app. exists m. split; [by eapply uploaded_chained|done].
Qed.

(** ** Reading *)

Lemma gather_run max bs off m n : chained m bs n -> m <= off < n ->
  exists b rs' tl, read_spec off max bs = b :: rs' /\ drop_before off bs = (b :: rs') ++ tl /\
    BaseOffset (headerOf b) <= off < next_of b /\ (rs' = [] \/ zlen (concat (b :: rs')) <= max).
Proof.
  intros Hc Hoff. destruct (drop_before_app off _ _ _ [] Hc Hoff) as (_ & b & tl & Hd & Hb).
  destruct (gather_first max (drop_before off bs)) as (b' & rs' & Hg & Hh & Hsz).
  { by rewrite Hd. }
  { destruct (drop_before_suffix off bs) as (b1 & Hsuf & _). pose proof (chained_wf _ _ _ Hc) as Hw.
    rewrite Hsuf in Hw. by apply Forall_app in Hw as [_ Hw]. }
  rewrite Hd in Hh. cbn in Hh. simplify_eq. destruct (gather_prefix max 0 (drop_before off bs)) as [tl' Htl].
  exists b', rs', tl'. unfold read_spec. rewrite Hg.
  split; [done|]. split; [by rewrite Htl at 1; rewrite Hg|]. split; [lia|done].
Qed.

(** A read inside the range: a store error, or the batches from the one that
    holds the offset. *)
Lemma storage_read_spec s topic p o n bss bs off max :
  part_rep s (indexKey topic p) o n bss bs -> in_int 32 max -> o <= off < n ->
  (exists r er, r ∈ cached s (indexKey topic p) /\ osGet (st_store s) (sr_Key r) (sr_Position r) (sr_Length r) = inr er /\
     storage_read topic p off max s = Ret ([], Some er)) \/
  exists b rs' tl, storage_read topic p off max s = Ret (concat (b :: rs'), None) /\
    drop_before off (contents bss bs) = (b :: rs') ++ tl /\
    BaseOffset (headerOf b) <= off < next_of b /\ (rs' = [] \/ zlen (concat (b :: rs')) <= max).
Proof.
  intros [(m & Hu & Hpc & Hps & Hpp) Hd] Hmax Hoff. set (k := indexKey topic p) in *.
  pose proof (uploaded_chained _ _ _ _ _ Hu) as Huc. unfold storage_read. fold k.
  destruct (Z.le_gt_cases m off) as [Hge|Hlt].
  - right. destruct (st_pending s !! k) as [pp|] eqn:Epp; [|subst bs; cbn in Hpc; lia].
    destruct Hpp as (Hne & Hbs & Hbase & Hnext & _). rewrite Hbase. rewrite (proj2 (Z.leb_le _ _) Hge).
    unfold pendingData. rewrite Epp, Hbs.
    destruct (gather_run max bs off m n Hpc ltac:(lia)) as (b & rs' & tl & Hg & Hdb & Hb & Hsz).
    destruct (concat bs) as [|c0 cs] eqn:Ec.
    { exfalso. destruct bs as [|b0 bs]; [done|]. destruct Hpc as [Hat _]. pose proof (batch_wf_pos b0 (ba_wf _ _ Hat)).
      apply (f_equal zlen) in Ec. rewrite concat_cons, zlen_app, zlen_nil in Ec. pose proof (zlen_nonneg (concat bs)). lia. }
    rewrite <- Ec in Hps |- *. exists b, rs', tl. split; [|split; [|by split]].
    + rewrite (sliceBatches_spec off max bs m n) by done. by rewrite Hg.
    + unfold contents. rewrite drop_before_skip; [done|].
      eapply Forall_impl; [by eapply chained_below|]. cbn. lia.
  - assert ((match st_pending s !! k with
             | Some pp => if pp_base pp <=? off then pendingData s k else [] | None => [] end) = []) as ->.
    { destruct (st_pending s !! k) as [pp|]; [|done]. destruct Hpp as (_ & _ & Hb & _). by rewrite (proj2 (Z.leb_gt _ _)) by lia. }
    destruct (refFor_found (st_index s) topic p o m off) as (i & r & Hi & -> & Hr).
    { by eapply uploaded_spans. }
    { lia. }
    destruct (uploaded_lookup _ _ _ _ _ _ _ Hu Hi) as (sbs & pre & post & _ & Hne & Hcat & Hpre & Hsc & Hsz & (a & c & Hv & Hpos & Hlen)).
    destruct (osGet _ _ _ _) as [data|er] eqn:Eg; [right|left; exists r, er; split; [by eapply list_elem_of_lookup_2|done]].
    assert (0 < zlen (concat sbs)) as Hzpos.
    { apply zlen_pos. destruct sbs as [|b0 sbs]; [done|]. destruct Hsc as [Hat _]. pose proof (batch_wf_pos b0 (ba_wf _ _ Hat)).
      intros Hz%(f_equal zlen). rewrite concat_cons, zlen_app, zlen_nil in Hz. pose proof (zlen_nonneg (concat sbs)). lia. }
    pose proof (zlen_nonneg a). pose proof (zlen_nonneg c).
    rewrite (os_get _ _ _ _ _ _ Eg Hv) by (rewrite ?Hpos, ?Hlen, ?zlen_app; lia).
    rewrite Hpos, Hlen, drop_zlen, take_zlen.
    destruct (gather_run max sbs off _ _ Hsc Hr) as (b & rs' & tl & Hg & Hdb & Hb & Hs).
    exists b, rs', (tl ++ post ++ bs). split; [|split; [|by split]].
    + rewrite (sliceBatches_spec off max sbs _ _ Hsc) by done. by rewrite Hg.
    + unfold contents. rewrite Hcat, <- !app_assoc. rewrite drop_before_skip.
      * destruct (drop_before_app off _ _ _ (post ++ bs) Hsc Hr) as (-> & _). rewrite Hdb. by rewrite <- app_assoc.
      * eapply Forall_impl; [by eapply chained_below|]. cbn. lia.
Qed.

(** ** The node *)

(** The partition a write-ahead record belongs to. *)
Definition rkey (r : walRecord) : string := indexKey (wr_Topic r) (wr_Partition r).
Definition recs_for (k : string) (recs : list walRecord) : list walRecord := filter (fun r => rkey r = k) recs.

(** A record the replay accepts. *)
Record replayable (r : walRecord) : Prop := {
  ry_ok : record_ok r;
  ry_wf : batch_wf (wr_Batch r);
  ry_base : wr_BaseOffset r = BaseOffset (headerOf (wr_Batch r));
  ry_next : next_of (wr_Batch r) < 2 ^ 63 }.

(** Every pending batch is in the write-ahead log and nothing else is. *)
Definition walled (s : Storage OS IS) (recs : list walRecord) : Prop :=
  Forall replayable recs /\
  forall k, map wr_Batch (recs_for k recs) = match st_pending s !! k with Some pp => pp_batches pp | None => [] end.

Record node_ok (s : Storage OS IS) : Prop := {
  no_wal : exists pre act, wal_rep (st_wal s) pre act /\ walled s (all_recs (pre ++ [act]));
  no_keys : forall k pp, st_pending s !! k = Some pp -> indexKey (pp_topic pp) (pp_partition pp) = k;
  no_seq : 0 <= st_seq s }.

(** No reference names an object this node is still to write. *)
Definition fresh_keys (s : Storage OS IS) : Prop :=
  forall k r q, r ∈ durable s k \/ r ∈ cached s k -> st_seq s < q < 2 ^ 63 ->
    sr_Key r <> objectKey (sc_NodeID (st_cfg s)) q.

(** The record an append writes. *)
Definition recordOf (l : ObjectLog) (b : list byte) : walRecord :=
  mkWalRecord (ol_topic l) (ol_partition l) (BaseOffset (headerOf b)) b.

Lemma recs_for_snoc k recs r :
  recs_for k (recs ++ [r]) = if decide (rkey r = k) then recs_for k recs ++ [r] else recs_for k recs.
Proof.
  unfold recs_for. rewrite filter_app, filter_cons. destruct (decide (rkey r = k)); [done|]. cbn. by rewrite app_nil_r.
Qed.

(** What buffering does to the pending parts. *)
Lemma buffered_pending rec next (s : Storage OS IS) :
  st_pending (appendBuffered rec next s) = st_pending (appendPendingLocked rec next s) /\
  st_cfg (appendBuffered rec next s) = st_cfg s /\ st_store (appendBuffered rec next s) = st_store s /\
  st_wal (appendBuffered rec next s) = st_wal s /\ st_index (appendBuffered rec next s) = st_index s /\
  st_seq (appendBuffered rec next s) = st_seq s.
Proof. unfold appendBuffered. by destruct (_ && _). Qed.

(** The pending part after a record was buffered. *)
Definition extended (rec : walRecord) (next : Z) (pp : option pendingPart) : pendingPart :=
  match pp with
  | Some pp => mkPending (pp_topic pp) (pp_partition pp) (pp_base pp) next (pp_batches pp ++ [wr_Batch rec])
                 (int64 (pp_bytes pp + zlen (wr_Batch rec)))
  | None => mkPending (wr_Topic rec) (wr_Partition rec) (wr_BaseOffset rec) next [wr_Batch rec] (int64 (0 + zlen (wr_Batch rec)))
  end.

Lemma appendPending_lookup rec next (s : Storage OS IS) :
  st_pending (appendPendingLocked rec next s) = <[rkey rec := extended rec next (st_pending s !! rkey rec)]> (st_pending s).
Proof. unfold appendPendingLocked. cbn. fold (rkey rec). by destruct (st_pending s !! rkey rec). Qed.

Lemma extended_batches rec next pp :
  pp_batches (extended rec next pp) = match pp with Some pp => pp_batches pp | None => [] end ++ [wr_Batch rec].
Proof. by destruct pp. Qed.

Lemma storage_append_ok rec next s :
  replayable rec ->
  exists s', storage_append WOk rec next s = (s', None) /\ (node_ok s -> node_ok s') /\ (fresh_keys s -> fresh_keys s') /\
    view s' = view s /\ st_index s' = st_index s /\
    st_pending s' = <[rkey rec := extended rec next (st_pending s !! rkey rec)]> (st_pending s).
Proof.
  intros Hr. unfold storage_append. destruct (wal_append WOk rec (st_wal s)) as [w' [er|]] eqn:Ha; [done|].
  set (s1 := withWal w' s). eexists. split; [done|].
  destruct (buffered_pending rec next s1) as (Hp & Hcfg & Hst & Hwl & Hix & Hsq). set (s' := appendBuffered rec next s1) in *.
  rewrite appendPending_lookup in Hp. change (st_pending s1) with (st_pending s) in Hp.
  split_and!; [| |unfold view; by rewrite Hst|done|done].
  2: { intros Hfresh k r q. unfold durable, cached. rewrite Hsq, Hcfg, Hix. apply Hfresh. }
  intros [(pre & act & Hw & Hrec & Hall) Hkeys Hseq]. destruct (append_rep _ _ _ rec Hw (ry_ok _ Hr)) as (w1 & Ha1 & Hw').
  rewrite Ha in Ha1. injection Ha1 as <-. split.
  - eexists pre, _. rewrite Hwl. split; [exact Hw'|].
    assert (all_recs (pre ++ [mkSeg (sg_seq act) (sg_recs act ++ [rec]) []]) = all_recs (pre ++ [act]) ++ [rec]) as ->.
    { rewrite !all_recs_app. unfold all_recs. cbn. by rewrite !app_nil_r, app_assoc. }
    split; [apply Forall_app; by split; [|apply Forall_cons]|]. intros k. rewrite recs_for_snoc, Hp.
    destruct (decide (rkey rec = k)) as [<-|Hne].
    + by rewrite lookup_insert_eq, map_app, Hall, extended_batches.
    + by rewrite lookup_insert_ne.
  - intros k pp. rewrite Hp. intros [[<- <-]|[_ Hk]]%lookup_insert_Some; [|by apply Hkeys].
    destruct (st_pending s !! rkey rec) as [pp|] eqn:E; [exact (Hkeys _ _ E)|done].
  - by rewrite Hsq.
Qed.

(** A partition whose index entries and objects are untouched keeps what it holds
    when its pending part does. *)
Lemma part_rep_frame s s' k o n bss bs :
  part_rep s k o n bss bs -> st_index s' = st_index s -> view s' = view s -> st_pending s' !! k = st_pending s !! k ->
  part_rep s' k o n bss bs.
Proof.
  intros [(m & Hu & Hp) Hd] Hix Hv Hpp. split; unfold durable, cached in *; rewrite Hix; [|done].
  exists m. by rewrite Hv, Hpp.
Qed.

(** One batch more. *)
Lemma part_rep_extend s s' rec k o n bss bs :
  part_rep s k o n bss bs -> rkey rec = k -> wr_BaseOffset rec = BaseOffset (headerOf (wr_Batch rec)) ->
  batch_at n (wr_Batch rec) -> zlen (concat bs) + zlen (wr_Batch rec) < 2 ^ 31 ->
  st_index s' = st_index s -> view s' = view s ->
  st_pending s' = <[k := extended rec (next_of (wr_Batch rec)) (st_pending s !! k)]> (st_pending s) ->
  part_rep s' k o (next_of (wr_Batch rec)) bss (bs ++ [wr_Batch rec]).
Proof.
  intros [(m & Hu & Hc & Hsz & Hp) Hd] Hk Hbase Hat Hroom Hix Hv Hpp. split; unfold durable, cached in *; rewrite Hix; [|done].
  exists m. rewrite Hv, Hpp, lookup_insert_eq. split; [done|]. split_and!.
  - by eapply chained_snoc.
  - rewrite concat_app, zlen_app. cbn [concat]. by rewrite app_nil_r.
  - by destruct bs.
  - rewrite extended_batches. destruct (st_pending s !! k) as [pp|]; [by destruct Hp as (_ & -> & _)|by subst bs].
  - destruct (st_pending s !! k) as [pp|]; [apply Hp|]. subst bs. cbn in Hc. subst m.
    cbn. rewrite Hbase. apply Hat.
  - by destruct (st_pending s !! k).
  - rewrite concat_app, zlen_app. cbn [concat]. rewrite app_nil_r. pose proof (zlen_nonneg (concat bs)). pose proof (zlen_nonneg (wr_Batch rec)).
    destruct (st_pending s !! k) as [pp|]; [destruct Hp as (_ & _ & _ & _ & Hby & _)|subst bs]; cbn [extended pp_bytes];
      [rewrite Hby|change (zlen (concat [])) with 0]; apply int64_id; solve_int.
  - destruct (st_pending s !! k) as [pp|]; [apply Hp|done].
Qed.

End Correct.
