(* ===== verification/Uploads.v ===== *)
(** * The object backend keeps what it was given

    The operations of [Objects] against the contents of a partition: appending,
    uploading, retention and the restart of a node, for any object store and any
    index that keep the promises of [ObjectStoreLaws] and [IndexStoreLaws]; and
    concrete runs, with the in-memory stores, of what the code does not keep. *)

From stdpp Require Import sorting.
From S2P Require Import Prelude Kbytes Record Segment Strconv Log Recovery Wal Fsm ObjectIndex Objects.

(** ** Object names *)

Lemma pad20_inj a b : 0 <= a < 2 ^ 63 -> 0 <= b < 2 ^ 63 -> pad20 a = pad20 b -> a = b.
Proof. intros Ha%ParseUint_pad20 Hb%ParseUint_pad20 Heq. rewrite Heq in Ha. congruence. Qed.

Lemma objectKey_inj node a b : 0 <= a < 2 ^ 63 -> 0 <= b < 2 ^ 63 -> objectKey node a = objectKey node b -> a = b.
Proof.
  intros Ha Hb Heq. apply pad20_inj; [done..|]. unfold objectKey in Heq. by simplify_eq.
Qed.

(** ** Building an object *)

(** The slice of [pp] in the object [out], as its reference names it. *)
Record slice_ref (key : string) (out : list byte) (pp : pendingPart) (topic : string) (p : Z) (r : SegmentRef) : Prop := {
  sl_topic : topic = pp_topic pp;
  sl_partition : p = pp_partition pp;
  sl_key : sr_Key r = key;
  sl_base : sr_BaseOffset r = pp_base pp;
  sl_next : sr_NextOffset r = pp_next pp;
  sl_bytes : exists a c, out = a ++ concat (pp_batches pp) ++ c /\
    sr_Position r = zlen a /\ sr_Length r = zlen (concat (pp_batches pp)) }.

Lemma buildObject_spec key ms parts buf out commits :
  buildObject key ms parts buf = (out, commits) ->
  (exists rest, out = buf ++ rest) /\
  Forall2 (fun kp c => slice_ref key out kp.2 c.1.1 c.1.2 c.2) parts commits.
Proof.
  revert buf out commits. induction parts as [|[k pp] parts IH]; intros buf out commits; cbn [buildObject].
  - intros [= <- <-]. split; [exists []; by rewrite app_nil_r|constructor].
  - destruct (buildObject key ms parts _) as [out' commits'] eqn:E. intros [= <- <-].
    destruct (IH _ _ _ E) as ((rest & ->) & Hf). split; [exists (concat (pp_batches pp) ++ rest); by rewrite app_assoc|].
    constructor; [|done]. split; try done. cbn [snd sr_Position sr_Length].
    exists buf, rest. rewrite zlen_app. split_and!; [by rewrite app_assoc|done|lia].
Qed.

Abbreviation commits_t := (list (string * Z * SegmentRef)).

(** The references the commits give to a partition. *)
Definition refs_in (k : string) (commits : commits_t) : list SegmentRef :=
  map snd (filter (fun c => indexKey c.1.1 c.1.2 = k) commits).

Lemma refs_in_cons k c (cs : commits_t) :
  refs_in k (c :: cs) = (if decide (indexKey c.1.1 c.1.2 = k) then [c.2] else []) ++ refs_in k cs.
Proof. unfold refs_in. rewrite filter_cons. by destruct (decide _). Qed.

(** The parts and the commits of one object; the parts carry their own key. *)
Definition sliced (key : string) (out : list byte) (kp : string * pendingPart) (c : string * Z * SegmentRef) : Prop :=
  indexKey (pp_topic kp.2) (pp_partition kp.2) = kp.1 /\ slice_ref key out kp.2 c.1.1 c.1.2 c.2.

Lemma sliced_key key out kp c : sliced key out kp c -> indexKey c.1.1 c.1.2 = kp.1.
Proof. intros [<- [-> -> _ _ _ _]]. done. Qed.

Lemma refs_in_none key out parts commits k :
  Forall2 (sliced key out) parts commits -> k ∉ parts.*1 -> refs_in k commits = [].
Proof.
  induction 1 as [|kp c parts commits Hs _ IH]; [done|]. cbn [fmap list_fmap]. intros Hn.
  rewrite refs_in_cons, (sliced_key _ _ _ _ Hs), decide_False by set_solver. apply IH. set_solver.
Qed.

Lemma refs_in_one key out parts commits k pp :
  Forall2 (sliced key out) parts commits -> NoDup parts.*1 -> (k, pp) ∈ parts ->
  exists topic p r, refs_in k commits = [r] /\ slice_ref key out pp topic p r.
Proof.
  induction 1 as [|kp c parts commits Hs Hf IH]; [by intros _ ?%elem_of_nil|]. cbn [fmap list_fmap].
  intros [Hni Hnd]%NoDup_cons Hin. rewrite refs_in_cons, (sliced_key _ _ _ _ Hs).
  apply elem_of_cons in Hin as [<-|Hin].
  - rewrite decide_True by done. exists c.1.1, c.1.2, c.2. split; [|apply Hs]. by rewrite (refs_in_none _ _ _ _ k Hf Hni).
  - rewrite decide_False; [by apply IH|]. intros <-. apply Hni, list_elem_of_fmap. by exists (kp.1, pp).
Qed.

Lemma sortedKeys_elem m k pp : (k, pp) ∈ sortedKeys m <-> m !! k = Some pp.
Proof. unfold sortedKeys. rewrite merge_sort_Permutation. apply elem_of_map_to_list. Qed.

Lemma sortedKeys_nodup m : NoDup (sortedKeys m).*1.
Proof. unfold sortedKeys. rewrite merge_sort_Permutation. apply NoDup_fst_map_to_list. Qed.

(** What the object built from a pending buffer gives to a partition. *)
Lemma built_refs key ms snap out commits :
  (forall k pp, snap !! k = Some pp -> indexKey (pp_topic pp) (pp_partition pp) = k) ->
  buildObject key ms (sortedKeys snap) [] = (out, commits) ->
  forall k, match snap !! k with
            | None => refs_in k commits = []
            | Some pp => exists topic p r, refs_in k commits = [r] /\ slice_ref key out pp topic p r
            end.
Proof.
  intros Hk [_ Hf]%buildObject_spec k.
  assert (Forall2 (sliced key out) (sortedKeys snap) commits) as Hf'.
  { apply Forall2_same_length_lookup. split; [by eapply Forall2_length|]. intros i kp c Hi Hc. split.
    - destruct kp as [k' pp]. apply list_elem_of_lookup_2 in Hi. by apply Hk, sortedKeys_elem.
    - by eapply (Forall2_lookup_lr _ _ _ _ _ _ Hf). }
  destruct (snap !! k) as [pp|] eqn:E.
  - eapply refs_in_one; [done|apply sortedKeys_nodup|by apply sortedKeys_elem].
  - eapply refs_in_none; [done|]. intros ([k' pp] & -> & Hin)%list_elem_of_fmap. apply sortedKeys_elem in Hin. cbn in E. congruence.
Qed.

(** ** Looking up by time *)

Lemma scan_loop_spec ts bs m n fuel pre : chained m bs n -> (length bs < fuel)%nat ->
  scan_loop fuel (pre ++ concat bs) ts (zlen pre) = Ret (ts_spec ts bs).
Proof.
  revert m fuel pre. induction bs as [|b bs IH]; intros m fuel pre Hc Hf; (destruct fuel as [|fuel]; [lia|]); cbn [scan_loop ts_spec concat].
  - rewrite app_nil_r. by rewrite Z.ltb_irrefl.
  - destruct Hc as [[Hw _ _] Hc]. pose proof (batch_wf_pos b Hw). pose proof (zlen_nonneg (concat bs)).
    rewrite !zlen_app. rewrite (proj2 (Z.ltb_lt _ _)) by lia. rewrite drop_zlen, parse_wf, (bw_size _ Hw) by done.
    destruct (ts <=? MaxTimestamp (headerOf b)); [done|]. rewrite app_assoc, <- zlen_app. eapply IH; [exact Hc|cbn in Hf; lia].
Qed.

Lemma scanTimestamp_spec ts bs m n : chained m bs n -> scanTimestamp (concat bs) ts = Ret (ts_spec ts bs).
Proof.
  intros Hc. pose proof (chained_length _ _ _ Hc). apply (scan_loop_spec ts bs m n _ [] Hc). lia.
Qed.

Lemma concat_pos m bs n : chained m bs n -> bs <> [] -> 0 < zlen (concat bs).
Proof.
  intros Hc Hne. destruct bs as [|b bs]; [done|]. destruct Hc as [[Hw _ _] _]. pose proof (batch_wf_pos b Hw).
  cbn [concat]. rewrite zlen_app. pose proof (zlen_nonneg (concat bs)). lia.
Qed.

Section Node.
Context {OS IS : Type} `{ObjectStoreLaws OS} `{IndexStoreLaws IS}.
Implicit Types (s : Storage OS IS) (ix : Index IS).

Lemma commitAll_spec commits ix ix' : commitAll commits ix = (ix', None) ->
  forall k, default [] (ix_refs ix' !! k) = default [] (ix_refs ix !! k) ++ refs_in k commits /\
    refs_of (ix_store ix') k = refs_of (ix_store ix) k ++ refs_in k commits.
Proof.
  revert ix. induction commits as [|[[topic p] r] commits IH]; intros ix; cbn [commitAll].
  - intros [= <-] k. by rewrite !app_nil_r.
  - unfold commit. destruct (ixCommit topic p r (ix_store ix)) as [i [er|]] eqn:E; [done|]. intros Hc k.
    destruct (IH _ Hc k) as [-> ->]. cbn [ix_refs ix_store]. destruct (ix_commit _ _ _ _ _ E) as [G1 G2].
    rewrite refs_in_cons. cbn [fst snd]. destruct (decide (indexKey topic p = k)) as [<-|Hne].
    + rewrite lookup_insert_eq, G1. cbn. by rewrite <- !app_assoc.
    + rewrite lookup_insert_ne by done. rewrite G2 by congruence. done.
Qed.

(** ** Appending *)

Lemma handle_next l o n : handle_ok l o n -> ol_next l = n.
Proof. by intros [? ? ?]. Qed.

(** The partition holds the batches of [bss] and [bs] from [o] to [n], and the
    handle agrees. *)
Record log_holds s (l : ObjectLog) (o n : Z) (bss : list (list (list byte))) (bs : list (list byte)) : Prop := {
  lh_part : part_rep s (indexKey (ol_topic l) (ol_partition l)) o n bss bs;
  lh_handle : handle_ok l o n;
  lh_range : 0 <= o /\ n < 2 ^ 63 }.

(** The frame of the write-ahead log, the buffer and the offsets have room. *)
Record log_room (l : ObjectLog) (bs : list (list byte)) (b : list byte) (count : Z) : Prop := {
  lm_topic : zlen (bytes_of_string (ol_topic l)) < 2 ^ 16;
  lm_partition : in_int 32 (ol_partition l);
  lm_bytes : zlen (concat bs) + zlen b < 2 ^ 31;
  lm_offset : ol_next l + count < 2 ^ 63 }.

Lemma recordOf_replayable l bs b count n :
  log_room l bs b count -> batch_at n b -> 0 <= n -> replayable (recordOf l b).
Proof.
  intros [Ht Hp Hb _] [Hw Hbase Hs] Hn. pose proof (zlen_nonneg (concat bs)).
  split; [split|..]; try done; cbn [recordOf wr_Topic wr_Partition wr_BaseOffset wr_Batch]; [solve_int| |lia].
  unfold encodeWALPayload, recordOf. cbn [wr_Topic wr_Partition wr_BaseOffset wr_Batch]. rewrite !zlen_app, !zlen_be_put. solve_int.
Qed.

(** Both append paths, from the record on. *)
Lemma append_record s l o n bss bs b :
  log_holds s l o n bss bs -> batch_at n b -> log_room l bs b (next_of b - n) ->
  exists s', storage_append WOk (recordOf l b) (next_of b) s = (s', None) /\ (node_ok s -> node_ok s') /\ (fresh_keys s -> fresh_keys s') /\
    part_rep s' (indexKey (ol_topic l) (ol_partition l)) o (next_of b) bss (bs ++ [b]) /\
    forall k o' n' bss' bs', k <> indexKey (ol_topic l) (ol_partition l) -> part_rep s k o' n' bss' bs' -> part_rep s' k o' n' bss' bs'.
Proof.
  intros [Hp Hh Hr] Hat Hroom. pose proof (chained_le _ _ _ (part_chained _ _ _ _ _ _ Hp)).
  destruct (storage_append_ok (recordOf l b) (next_of b) s) as (s' & Ha & Hno' & Hfr & Hv & Hix & Hpend).
  { eapply recordOf_replayable; [done|done|lia]. }
  exists s'. split_and!; [done|done|done| |].
  - eapply (part_rep_extend s s' (recordOf l b)); try done. apply Hroom.
  - intros k o' n' bss' bs' Hk Hrep. eapply part_rep_frame; [done..|]. rewrite Hpend. by rewrite lookup_insert_ne.
Qed.

Lemma object_Append s l o n bss bs b :
  log_holds s l o n bss bs -> producer_ok b -> log_room l bs b (RecordCount (headerOf b)) ->
  exists b' l' s', Append WOk b l s = Ret (l', s', (n, None)) /\ patchBatch b n = Ret b' /\ patched b n b' /\
    (node_ok s -> node_ok s') /\ (fresh_keys s -> fresh_keys s') /\ log_holds s' l' o (n + RecordCount (headerOf b)) bss (bs ++ [b']) /\
    ol_hwm l' = (if ol_hold l then ol_hwm l else ol_next l') /\
    (forall k o' n' bss' bs', k <> indexKey (ol_topic l) (ol_partition l) -> part_rep s k o' n' bss' bs' -> part_rep s' k o' n' bss' bs').
Proof.
  intros Hl Hb Hroom. pose proof (lh_handle _ _ _ _ _ _ Hl) as [Hn Hear Hh]. pose proof (lh_range _ _ _ _ _ _ Hl) as Hr.
  pose proof (chained_le _ _ _ (part_chained _ _ _ _ _ _ (lh_part _ _ _ _ _ _ Hl))).
  pose proof (po_wf _ Hb) as Hw. pose proof (po_pos _ Hb). pose proof (lm_offset _ _ _ _ Hroom) as Hoff. rewrite Hn in Hoff.
  destruct (patchBatch_patched b n) as (b' & Hpatch & Hpt). { pose proof (bw_header _ Hw). layout. lia. }
  destruct (patched_at b n b' Hb Hpt) as (Hat & Hnext & _); [lia|done|].
  assert (zlen b' = zlen b) as Hlen by (unfold zlen; by rewrite (pt_length _ _ _ Hpt)).
  destruct (append_record s l o n bss bs b') as (s' & Ha & Hno' & Hfr & Hp & Hoth); [done|done| |].
  { destruct Hroom as [G1 G2 G3 G4]. split; rewrite ?Hlen; try done. lia. }
  assert (recordOf l b' = mkWalRecord (ol_topic l) (ol_partition l) n b') as Hrec by (unfold recordOf; by rewrite (ba_base _ _ Hat)).
  assert (int64 (LastOffset (headerOf b') + 1) = next_of b') as H64 by (apply int64_id; unfold next_of in *; solve_int).
  exists b'. unfold Append. rewrite Hn, Hpatch. cbn [mbind go_bind]. rewrite (batch_wf_header b') by apply Hat.
  rewrite H64, <- Hrec, Ha. eexists _, s'. split_and!; try done.
  rewrite <- Hnext. split; [exact Hp| |lia]. split; cbn; [done|done|]. destruct (ol_hold l); lia.
Qed.

Lemma object_AppendReplica s l o n bss bs b :
  log_holds s l o n bss bs -> batch_at n b -> log_room l bs b (next_of b - n) ->
  exists l' s', AppendReplica WOk b l s = (l', s', (next_of b, None)) /\
    (node_ok s -> node_ok s') /\ (fresh_keys s -> fresh_keys s') /\ log_holds s' l' o (next_of b) bss (bs ++ [b]) /\ ol_hwm l' = ol_hwm l /\
    ol_topic l' = ol_topic l /\ ol_partition l' = ol_partition l /\
    (forall k o' n' bss' bs', k <> indexKey (ol_topic l) (ol_partition l) -> part_rep s k o' n' bss' bs' -> part_rep s' k o' n' bss' bs').
Proof.
  intros Hl Hat Hroom. pose proof (lh_handle _ _ _ _ _ _ Hl) as [Hn Hear Hh]. pose proof (lh_range _ _ _ _ _ _ Hl) as Hr.
  pose proof (chained_le _ _ _ (part_chained _ _ _ _ _ _ (lh_part _ _ _ _ _ _ Hl))). pose proof (ba_span _ _ Hat).
  destruct (append_record s l o n bss bs b) as (s' & Ha & Hno' & Hfr & Hp & Hoth); [done..|].
  assert (int64 (LastOffset (headerOf b) + 1) = next_of b) as H64 by (apply int64_id; unfold next_of in *; solve_int).
  unfold AppendReplica. rewrite (batch_wf_header b) by apply Hat. rewrite Hn, (ba_base _ _ Hat), Z.ltb_irrefl, H64.
  unfold recordOf in Ha. rewrite (ba_base _ _ Hat) in Ha. rewrite Ha. eexists _, s'. split_and!; try done.
  split; [exact Hp| |lia]. split; cbn; [done|done|lia].
Qed.

(** ** Uploading *)

(** The object number and the segment number have room to grow. *)
Record can_upload s : Prop := {
  cu_seq : st_seq s + 1 < 2 ^ 63;
  cu_wal : activeSeq (st_wal s) + 1 < 2 ^ 63 }.

(** The batches an upload adds as one group. *)
Definition group (bs : list (list byte)) : list (list (list byte)) := match bs with [] => [] | _ => [bs] end.

Lemma contents_group bss bs : contents (bss ++ group bs) [] = contents bss bs.
Proof. unfold contents. rewrite concat_app, app_nil_r. f_equal. destruct bs; cbn; by rewrite ?app_nil_r. Qed.

(** The snapshot of a partition becomes the last of its uploaded groups. *)
Lemma part_uploaded s s' key out commits ms k o n bss bs :
  part_rep s k o n bss bs ->
  (forall k pp, st_pending s !! k = Some pp -> indexKey (pp_topic pp) (pp_partition pp) = k) ->
  buildObject key ms (sortedKeys (st_pending s)) [] = (out, commits) ->
  (forall r, r ∈ cached s k -> sr_Key r <> key) ->
  view s' = <[key := out]> (view s) -> st_pending s' !! k = None ->
  cached s' k = cached s k ++ refs_in k commits -> durable s' k = durable s k ++ refs_in k commits ->
  part_rep s' k o n (bss ++ group bs) [].
Proof.
  intros [(m & Hu & Hc & Hsz & Hp) Hd] Hkeys Hb Hfresh Hv Hnone Hca Hdu. split; [|by rewrite Hca, Hdu, Hd].
  pose proof (built_refs _ _ _ _ _ Hkeys Hb k) as Hrefs.
  assert (uploaded (view s') o (cached s k) bss m) as Hu'.
  { eapply uploaded_view; [exact Hu|]. intros r Hr. rewrite Hv. by rewrite lookup_insert_ne by (intros ->; by eapply Hfresh). }
  exists n. rewrite Hca, Hnone. split; [|done]. destruct (st_pending s !! k) as [pp|].
  - destruct Hp as (Hne & Hbs & Hbase & Hnext & _). destruct Hrefs as (topic & p & r & -> & [_ _ Hk1 Hk2 Hk3 (a & c & Ho & Hpo & Hl)]).
    rewrite <- Hbs in *. assert (group (pp_batches pp) = [pp_batches pp]) as -> by (by destruct (pp_batches pp)).
    rewrite <- Hnext, <- Hk3 in *. apply uploaded_snoc with m; try done; [congruence|].
    exists a, c. rewrite Hv, Hk1, lookup_insert_eq, Ho. done.
  - subst bs. rewrite Hrefs. cbn [group] in *. rewrite !app_nil_r. cbn in Hc. by subst m.
Qed.

Lemma pre_before w pre act : wal_rep w pre act -> Forall (fun x => sg_seq x <= sg_seq act) (pre ++ [act]).
Proof.
  intros Hw. apply Forall_app. split; [|by apply Forall_cons; split; [lia|]]. apply Forall_forall. intros x Hx.
  pose proof (sorted_last _ _ _ (fr_sorted _ _ (wp_files _ _ _ Hw)) Hx). lia.
Qed.

Lemma wal_room w pre act : wal_rep w pre act -> activeSeq w + 1 < 2 ^ 63 -> seq_room (pre ++ [act]).
Proof.
  intros Hw Hlt x Hx. pose proof (pre_before _ _ _ Hw) as Hb. rewrite Forall_forall in Hb. specialize (Hb x Hx).
  rewrite (wp_active _ _ _ Hw) in Hlt. lia.
Qed.

(** A failed upload that reached no commit: everything is as before. *)
Lemma restored_ok s s' pre act :
  node_ok s -> fresh_keys s -> walled s (all_recs (pre ++ [act])) -> wal_rep (st_wal s') pre act ->
  st_pending s' = st_pending s -> st_index s' = st_index s -> st_cfg s' = st_cfg s -> st_seq s <= st_seq s' ->
  (forall k r, r ∈ cached s k -> view s' !! sr_Key r = view s !! sr_Key r) ->
  node_ok s' /\ fresh_keys s' /\ st_pending s' = st_pending s /\
  forall k o n bss bs, part_rep s k o n bss bs -> part_rep s' k o n bss bs.
Proof.
  intros [_ Hkeys Hseq] Hfr [Hrec Hall] Hw Hp Hix Hcfg Hle Hv.
  split_and!; [| |done|].
  - split; [|by rewrite Hp|lia]. exists pre, act. split; [done|]. split; [done|]. by rewrite Hp.
  - intros k r q. unfold durable, cached. rewrite Hix, Hcfg. intros Hr Hq. eapply Hfr; [exact Hr|lia].
  - intros k o n bss bs [(m & Hu & Hpd) Hd]. unfold durable, cached in *. split; unfold durable, cached; rewrite Hix; [|done].
    exists m. rewrite Hp. split; [|done]. eapply uploaded_view; [exact Hu|]. intros r Hr. by apply (Hv k).
Qed.

Lemma restore_all snap s : st_pending s = ∅ -> st_pending (restore snap s) = snap.
Proof. intros Hp. unfold restore. cbn. rewrite Hp. apply (right_id_L ∅ (union_with _)). Qed.

(** The end of a successful upload: the log is trimmed and the buffer empty. *)
Lemma upload_trims s s' pre act act' w :
  wal_rep w (pre ++ [act]) act' -> sg_recs act' = [] -> sg_seq act < sg_seq act' ->
  Forall (fun x => sg_seq x <= sg_seq act) (pre ++ [act]) -> st_pending s' = ∅ -> 0 <= st_seq s' ->
  exists w', deleteThrough (fun _ => true) (sg_seq act) w = (w', None) /\ (st_wal s' = w' -> node_ok s').
Proof.
  intros Hw Hnil Hlt Hold Hp Hseq.
  destruct (delete_rep w (pre ++ [act]) [] act' (sg_seq act)) as (w' & Hdel & Hw'); [by rewrite app_nil_r|done|by apply Forall_cons|].
  exists w'. split; [done|]. intros Hst. split; [|by rewrite Hp|done]. exists [], act'. rewrite Hst. split; [done|].
  assert (all_recs ([] ++ [act']) = []) as -> by (unfold all_recs; cbn; by rewrite Hnil).
  split; [constructor|]. intros k. by rewrite Hp, lookup_empty.
Qed.

(** What an upload can end in. *)
Definition upload_done s s' : Prop :=
  node_ok s' /\ fresh_keys s' /\ st_pending s' = ∅ /\
  forall k o n bss bs, part_rep s k o n bss bs -> part_rep s' k o n (bss ++ group bs) [].
Definition upload_undone s s' : Prop :=
  node_ok s' /\ fresh_keys s' /\ st_pending s' = st_pending s /\
  forall k o n bss bs, part_rep s k o n bss bs -> part_rep s' k o n bss bs.

Lemma part_idle s k o n bss bs : st_pending s = ∅ -> part_rep s k o n bss bs -> part_rep s k o n (bss ++ group bs) [].
Proof.
  intros Hp Hrep. pose proof Hrep as [(m & _ & _ & _ & Hpd) _]. rewrite Hp, lookup_empty in Hpd. subst bs.
  cbn [group]. by rewrite app_nil_r.
Qed.

Lemma upload_cases e s s' r :
  node_ok s -> fresh_keys s -> can_upload s -> u_removed e = (fun _ => true) -> upload e s = (s', r) ->
  match r with
  | None => upload_done s s'
  | Some er => upload_undone s s' \/ exists commits, commitAll commits (st_index s) = (st_index s', Some er)
  end.
Proof.
  intros Hno Hfr [Hcs Hcw] Hrem. unfold upload, uploadBegin. destruct (decide (st_pending s = ∅)) as [Hemp|Hne].
  { intros [= <- <-]. split_and!; [done|done|done|]. intros k o n bss bs. by apply part_idle. }
  pose proof Hno as [(pre & act & Hw & Hwalled) Hkeys Hseq].
  assert (uint64 (st_seq s + 1) = st_seq s + 1) as Hu64 by (apply Z.mod_small; solve_int). rewrite Hu64.
  unfold uploadFinish. cbn [st_wal]. destruct (u_rotated e).
  2: { intros [= <- <-]. left. eapply restored_ok; [done|done|exact Hwalled|done| |done|done|cbn; lia|done].
       by rewrite restore_all. }
  destruct (rotate_rep _ _ _ Hw (wal_room _ _ _ Hw Hcw)) as (w1 & act' & -> & Hw1 & Hnil & Hlt).
  set (key := objectKey _ _). destruct (buildObject _ _ _ _) as [out commits] eqn:Hb. cbn [st_store withWal].
  assert (forall k r, r ∈ cached s k -> sr_Key r <> key) as Hkey.
  { intros k r0 Hr0. eapply Hfr; [by right|cbn; lia]. }
  destruct (osPut key out (st_store s)) as [o1 [er|]] eqn:Hput.
  { intros [= <- <-]. left. eapply (restored_ok s _ (pre ++ [act]) act'); [done|done| |done|by rewrite restore_all|done|done|cbn; lia|].
    - rewrite all_recs_app. unfold all_recs at 2. cbn. by rewrite Hnil, !app_nil_r.
    - intros k r0 Hr0. apply (os_put_fails _ _ _ _ _ Hput). by eapply Hkey. }
  cbn [st_index withStore withWal]. destruct (commitAll commits (st_index s)) as [ix [er|]] eqn:Hc.
  { intros [= <- <-]. right. by exists commits. }
  cbn [st_wal withIndex withStore withWal].
  destruct (upload_trims s (mkStorage (st_cfg s) o1 (deleteThrough (u_removed e) (sg_seq act) w1).1 ix ∅ 0 (st_seq s + 1) (st_recBase s) (st_recNext s) (st_notify s))
    pre act act' w1) as (w2 & Hdel & Hno'); [done..|by eapply pre_before|done|cbn; lia|].
  rewrite Hrem, Hdel in *. intros [= <- <-]. pose proof (commitAll_spec _ _ _ Hc) as Hspec.
  split_and!; [by apply Hno'| |done|].
  - intros k r0 q. cbn [st_seq st_cfg withWal withIndex withStore]. unfold durable, cached. cbn [st_index withWal withIndex withStore].
    destruct (Hspec k) as [-> ->]. rewrite !elem_of_app. intros Hin Hq.
    assert ((r0 ∈ durable s k \/ r0 ∈ cached s k) \/ r0 ∈ refs_in k commits) as [Hold|Hnew] by (unfold durable, cached; tauto).
    + eapply Hfr; [exact Hold|lia].
    + pose proof (built_refs _ _ _ _ _ Hkeys Hb k) as Hbr. destruct (st_pending s !! k) as [pp|]; [|by rewrite Hbr in Hnew; apply elem_of_nil in Hnew].
      destruct Hbr as (t & p & r1 & Hr1 & Hsl). rewrite Hr1 in Hnew. apply list_elem_of_singleton in Hnew as ->.
      rewrite (sl_key _ _ _ _ _ _ Hsl). intros Heq%objectKey_inj; lia.
  - intros k o n bss bs Hrep. eapply part_uploaded; [exact Hrep|done|exact Hb|by apply Hkey| |done|apply (Hspec k)|apply (Hspec k)].
    apply (os_put _ _ _ _ Hput).
Qed.

(** With nothing buffered the write-ahead log is empty. *)
Lemma idle_wal s : node_ok s -> st_pending s = ∅ -> replay collect (fun _ => true) (st_wal s) [] = Ret ([], None).
Proof.
  intros [(pre & act & Hw & _ & Hall) _ _] Hp. assert (all_recs (pre ++ [act]) = []) as Hnil.
  { destruct (all_recs (pre ++ [act])) as [|rec recs]; [done|]. specialize (Hall (rkey rec)). rewrite Hp, lookup_empty in Hall.
    unfold recs_for in Hall. rewrite filter_cons, decide_True in Hall by done. done. }
  pose proof (replay_rep collect (w_files (st_wal s)) _ [] (activeSeq (st_wal s)) (wp_files _ _ _ Hw)) as Hr.
  rewrite Hnil in Hr. by destruct (st_wal s).
Qed.

(** ** Size and retention *)

(** A reference is due when it is too old, or the bytes from it on are too many. *)
Definition due (now maxAgeMs maxBytes : Z) (r : SegmentRef) (size : Z) : bool :=
  ((0 <? maxAgeMs) && (maxAgeMs <? int64 (now - sr_UploadedMs r))) || ((0 <? maxBytes) && (maxBytes <? size)).

(** The bytes of the groups and the pending batches. *)
Definition size_of (bss : list (list (list byte))) (bs : list (list byte)) : Z := zlen (concat (contents bss bs)).

Lemma size_of_cons g bss bs : size_of (g :: bss) bs = zlen (concat g) + size_of bss bs.
Proof. unfold size_of, contents. cbn [concat]. by rewrite !concat_app, !zlen_app, Z.add_assoc. Qed.

Lemma slice_of_length v r bs : slice_of v r bs -> sr_Length r = zlen (concat bs).
Proof. by intros (a & c & _ & _ & Hl). Qed.

(** The loop drops the longest prefix of due references. *)
Lemma drop_loop_spec now age max v o refs bss m bs :
  uploaded v o refs bss m -> size_of bss bs < 2 ^ 63 ->
  let j := drop_loop now age max refs (size_of bss bs) in
  (j <= length refs)%nat /\
  (forall i r, (i < j)%nat -> refs !! i = Some r -> due now age max r (size_of (drop i bss) bs) = true) /\
  (forall r, refs !! j = Some r -> due now age max r (size_of (drop j bss) bs) = false).
Proof.
  revert o bss. induction refs as [|r refs IH]; intros o [|g bss]; cbn [uploaded]; try done.
  intros (_ & _ & _ & _ & Hl%slice_of_length & Hu) Hsz. cbn [drop_loop length].
  rewrite <- negb_orb. fold (due now age max r (size_of (g :: bss) bs)).
  destruct (due now age max r (size_of (g :: bss) bs)) eqn:Hdue; cbn [negb].
  2: { split_and!; [lia|intros; lia|]. intros r'. cbn. by intros [= <-]. }
  rewrite size_of_cons in Hsz. pose proof (zlen_nonneg (concat g)). assert (0 <= size_of bss bs) by apply zlen_nonneg.
  rewrite Hl. rewrite size_of_cons. replace (zlen (concat g) + size_of bss bs - zlen (concat g)) with (size_of bss bs) by lia.
  rewrite int64_id by solve_int. destruct (IH _ _ Hu ltac:(lia)) as (G1 & G2 & G3). split_and!; [lia| |done].
  intros [|i] r' Hi; cbn [lookup list_lookup]; [by intros [= <-]|]. intros Hr. apply G2; [lia|done].
Qed.

Lemma total_spec v o refs bss m bs acc : uploaded v o refs bss m -> 0 <= acc -> acc + size_of bss bs < 2 ^ 63 ->
  foldl (fun total r => int64 (total + sr_Length r)) acc refs = acc + size_of bss bs - zlen (concat bs).
Proof.
  revert o bss acc. induction refs as [|r refs IH]; intros o [|g bss] acc; cbn [uploaded]; try done.
  - intros _ _ _. cbn [foldl]. unfold size_of, contents. cbn. lia.
  - intros (_ & _ & _ & _ & Hl%slice_of_length & Hu) Hacc Hsz. cbn [foldl]. rewrite size_of_cons in *. rewrite Hl.
    pose proof (zlen_nonneg (concat g)). assert (0 <= size_of bss bs) by apply zlen_nonneg.
    rewrite int64_id by solve_int. rewrite (IH _ _ _ Hu) by lia. lia.
Qed.

Lemma storage_size_spec s topic p o n bss bs : part_rep s (indexKey topic p) o n bss bs -> size_of bss bs < 2 ^ 63 ->
  storage_size topic p s = size_of bss bs.
Proof.
  intros [(m & Hu & _ & _ & Hp) _] Hsz. unfold storage_size, pendingSize, refsFor. fold (cached s (indexKey topic p)).
  rewrite (total_spec _ _ _ _ _ bs 0 Hu) by lia. assert (0 <= size_of bss bs) by apply zlen_nonneg.
  destruct (st_pending s !! _) as [pp|]; [destruct Hp as (_ & _ & _ & _ & -> & _)|subst bs; change (zlen (concat [])) with 0];
    rewrite int64_id; solve_int.
Qed.

(** No object that some partition refers to is deleted. *)
Lemma collect_keeps ix gone seen o k r : r ∈ refs_of (ix_store ix) k ->
  osView (collectObjects ix gone seen o) !! sr_Key r = osView o !! sr_Key r.
Proof.
  intros Hr. revert seen o. induction gone as [|g gone IH]; intros seen o; cbn [collectObjects]; [done|].
  destruct (decide _); [apply IH|]. rewrite IH. unfold referenced.
  destruct (ixReferenced (ix_store ix) (sr_Key g)) as [[]|er] eqn:E; [done| |done].
  apply os_delete. by eapply ix_referenced.
Qed.

(** Dropping [S i] references of one partition leaves the others alone. *)
Lemma prune_keeps s topic p cutoff ix gone :
  prune topic p cutoff (st_index s) = (ix, inl gone) ->
  let s' := withStore (collectObjects ix gone ∅ (st_store s)) (withIndex ix s) in
  (node_ok s -> node_ok s') /\ (fresh_keys s -> fresh_keys s') /\
  cached s' (indexKey topic p) = filter (fun r => cutoff < sr_NextOffset r) (cached s (indexKey topic p)) /\
  durable s' (indexKey topic p) = filter (fun r => cutoff < sr_NextOffset r) (durable s (indexKey topic p)) /\
  (forall k r, r ∈ durable s' k -> view s' !! sr_Key r = view s !! sr_Key r) /\
  (forall k, k <> indexKey topic p -> cached s' k = cached s k /\ durable s' k = durable s k).
Proof.
  unfold prune. destruct (ixPrune topic p cutoff _) as [i [dropped|er]] eqn:E; [|done]. intros [= <- <-]. set (s' := withStore _ _).
  destruct (ix_prune _ _ _ _ _ _ E) as (_ & Hd & Hoth).
  assert (cached s' (indexKey topic p) = filter (fun r => cutoff < sr_NextOffset r) (cached s (indexKey topic p))) as Hc
    by (unfold cached, s'; cbn; by rewrite lookup_insert_eq).
  assert (forall k, k <> indexKey topic p -> cached s' k = cached s k /\ durable s' k = durable s k) as Hk.
  { intros k Hk. split; [unfold cached, s'; cbn; by rewrite lookup_insert_ne by congruence|by apply Hoth]. }
  split_and!; [| |done|exact Hd| |done].
  - intros [Hw Hkeys Hseq]. by split.
  - intros Hfr k r q Hr Hq. apply (Hfr k r q); [|exact Hq]. destruct (decide (k = indexKey topic p)) as [->|Hne].
    + destruct Hr as [Hr|Hr]; [left|right]; [unfold durable in *; cbn in Hr; rewrite Hd in Hr|rewrite Hc in Hr];
        apply list_elem_of_filter in Hr; tauto.
    + destruct (Hk k Hne) as [<- <-]. done.
  - intros k r Hr. exact (collect_keeps _ _ _ _ k r Hr).
Qed.

Lemma part_rep_view s s' k o n bss bs :
  part_rep s k o n bss bs -> cached s' k = cached s k -> durable s' k = durable s k -> st_pending s' !! k = st_pending s !! k ->
  (forall r, r ∈ durable s' k -> view s' !! sr_Key r = view s !! sr_Key r) -> part_rep s' k o n bss bs.
Proof.
  intros [(m & Hu & Hp) Hd] Hc Hdu Hpp Hv. split; [|by rewrite Hc, Hdu]. exists m. rewrite Hc, Hpp. split; [|done].
  eapply uploaded_view; [exact Hu|]. intros r Hr. apply Hv. by rewrite Hdu, Hd.
Qed.

(** Keeping the later references keeps the later groups. *)
Lemma part_rep_drop s s' k o n bss bs i r :
  part_rep s k o n bss bs -> cached s k !! i = Some r ->
  cached s' k = filter (fun x => sr_NextOffset r < sr_NextOffset x) (cached s k) ->
  durable s' k = filter (fun x => sr_NextOffset r < sr_NextOffset x) (durable s k) ->
  st_pending s' !! k = st_pending s !! k -> (forall r, r ∈ durable s' k -> view s' !! sr_Key r = view s !! sr_Key r) ->
  part_rep s' k (sr_NextOffset r) n (drop (S i) bss) bs /\ o < sr_NextOffset r.
Proof.
  intros [(m & Hu & Hp) Hd] Hi Hc Hdu Hpp Hv. pose proof (uploaded_spans _ _ _ _ _ Hu) as Hs.
  destruct (spans_prune _ _ _ _ _ Hs Hi) as [_ Hk]. rewrite Hd, Hk in Hdu. rewrite Hk in Hc.
  pose proof (spans_bounds _ _ _ Hs) as Hb. rewrite Forall_forall in Hb. specialize (Hb r (list_elem_of_lookup_2 _ _ _ Hi)).
  split; [|lia]. split; [|by rewrite Hc, Hdu]. exists m. rewrite Hc, Hpp. split; [|done].
  eapply uploaded_view; [by eapply uploaded_drop|]. intros r' Hr'. apply Hv. by rewrite Hdu.
Qed.

Lemma retention_holds s l o n bss bs now age max l' s' :
  node_ok s -> log_holds s l o n bss bs -> size_of bss bs < 2 ^ 63 ->
  EnforceRetention now age max l s = (l', s', None) ->
  let k := indexKey (ol_topic l) (ol_partition l) in
  exists j o', log_holds s' l' o' n (drop j bss) bs /\ o <= o' /\ ol_hwm l' = ol_hwm l /\
    (forall i r, (i < j)%nat -> cached s k !! i = Some r -> due now age max r (size_of (drop i bss) bs) = true) /\
    (forall r, cached s k !! j = Some r -> due now age max r (size_of (drop j bss) bs) = false) /\
    node_ok s' /\ (fresh_keys s -> fresh_keys s') /\
    (forall k' o2 n2 bss2 bs2, k' <> k -> part_rep s k' o2 n2 bss2 bs2 -> part_rep s' k' o2 n2 bss2 bs2).
Proof.
  intros Hno [Hp [Hn Hear Hh] Hr] Hsz. set (k := indexKey (ol_topic l) (ol_partition l)) in *.
  unfold EnforceRetention, enforceRetention.
  rewrite (storage_size_spec _ _ _ _ _ _ _ Hp Hsz). unfold refsFor. fold k. fold (cached s k).
  pose proof Hp as [(m & Hu & _) _].
  destruct (drop_loop_spec now age max _ _ _ _ _ bs Hu Hsz) as (Hj & Hdue & Hstop).
  destruct (drop_loop _ _ _ _ _) as [|i] eqn:Ej.
  { intros [= <- <-]. exists 0%nat, o. rewrite drop_0. by split_and!. }
  destruct (cached s k !! i) as [r|] eqn:Hi; [|apply lookup_ge_None in Hi; lia].
  destruct (prune _ _ _ _) as [ix [gone|er]] eqn:Hpr; [|done].
  destruct (prune_keeps _ _ _ _ _ _ Hpr) as (G1 & G2 & G3 & G4 & G5 & G6). fold k in G3, G4, G6.
  set (s1 := withStore _ _) in *. intros Hret.
  destruct (part_rep_drop s s1 k o n bss bs i r Hp Hi G3 G4 eq_refl (G5 k)) as [Hp' Hlt].
  assert ((ol_earliest l <? sr_NextOffset r) = true) as Hcut by (apply Z.ltb_lt; lia). rewrite Hcut in Hret.
  injection Hret as <- <-. pose proof (chained_le _ _ _ (part_chained _ _ _ _ _ _ Hp')).
  exists (S i), (sr_NextOffset r). split_and!; [| |done|done|done|by apply G1|done|].
  - split; [done|by split|lia].
  - lia.
  - intros k' o2 n2 bss2 bs2 Hk' Hrep. destruct (G6 k' Hk'). by eapply part_rep_view; [done..|apply G5].
Qed.

(** ** Restarting *)

(** What replaying the records of one partition leaves in the buffer. *)
Definition buffered (k : string) (bs : list (list byte)) (pp : pendingPart) : Prop :=
  pp_batches pp = bs /\ pp_bytes pp = int64 (zlen (concat bs)) /\ indexKey (pp_topic pp) (pp_partition pp) = k /\
  (forall b, head bs = Some b -> pp_base pp = BaseOffset (headerOf b)) /\
  (forall b, last bs = Some b -> pp_next pp = next_of b).

Definition replayed (recs : list walRecord) s : Prop := forall k,
  match map wr_Batch (recs_for k recs) with
  | [] => st_pending s !! k = None /\ st_recBase s !! k = None /\ st_recNext s !! k = None
  | bs => exists pp, st_pending s !! k = Some pp /\ buffered k bs pp /\
      st_recBase s !! k = Some (pp_base pp) /\ st_recNext s !! k = Some (pp_next pp)
  end.

Lemma int64_add a b : int64 (int64 a + b) = int64 (a + b).
Proof.
  unfold swrap. replace ((a + 2 ^ (64 - 1)) mod 2 ^ 64 - 2 ^ (64 - 1) + b + 2 ^ (64 - 1)) with ((a + 2 ^ (64 - 1)) mod 2 ^ 64 + b) by lia.
  rewrite Zplus_mod_idemp_l. do 2 f_equal. lia.
Qed.

Lemma buffered_extend k bs pp rec next :
  buffered k bs pp -> bs <> [] -> next = next_of (wr_Batch rec) ->
  buffered k (bs ++ [wr_Batch rec]) (extended rec next (Some pp)).
Proof.
  intros (H1' & H2' & H3' & H4' & H5') Hne ->. split_and!; cbn; [by rewrite H1'| |done| |].
  - rewrite H2', int64_add, concat_app, zlen_app. cbn [concat]. by rewrite app_nil_r.
  - intros b. destruct bs as [|b0 bs]; [done|]. apply H4'.
  - intros b. rewrite last_snoc. by intros [= ->].
Qed.

Lemma buffered_first rec next :
  wr_BaseOffset rec = BaseOffset (headerOf (wr_Batch rec)) -> next = next_of (wr_Batch rec) ->
  buffered (rkey rec) [wr_Batch rec] (extended rec next None).
Proof.
  intros Hb ->. split_and!; cbn; [done|by rewrite app_nil_r|done| |]; by intros b [= <-].
Qed.

Lemma replay_one recs rec s : replayed recs s -> replayable rec ->
  exists s', replayRecord s rec = (s', None) /\ replayed (recs ++ [rec]) s' /\
    st_store s' = st_store s /\ st_index s' = st_index s /\ st_wal s' = st_wal s /\ st_seq s' = st_seq s /\ st_cfg s' = st_cfg s.
Proof.
  intros Hrp [Hok Hwf Hbase Hnext]. unfold replayRecord. rewrite (batch_wf_header _ Hwf). eexists. split; [done|].
  assert (int64 (LastOffset (headerOf (wr_Batch rec)) + 1) = next_of (wr_Batch rec)) as H64.
  { apply int64_id. unfold next_of, LastOffset in *. pose proof (int64_range (BaseOffset (headerOf (wr_Batch rec)) + LastOffsetDelta (headerOf (wr_Batch rec)))).
    solve_int. }
  rewrite H64. split; [|done]. intros k. cbn [st_pending st_recBase st_recNext]. rewrite appendPending_lookup.
  fold (rkey rec). rewrite recs_for_snoc. specialize (Hrp k). cbn [st_recBase st_recNext appendPendingLocked withPending].
  destruct (decide (rkey rec = k)) as [<-|Hne].
  - rewrite map_app, !lookup_insert_eq. cbn [map]. destruct (map wr_Batch (recs_for (rkey rec) recs)) as [|b0 bs] eqn:Ebs.
    + destruct Hrp as (-> & Hrb & Hrn). rewrite Hrb, lookup_insert_eq. cbn [app]. eexists. split; [done|].
      split; [by apply buffered_first|]. done.
    + destruct Hrp as (pp & -> & Hbf & Hrb & Hrn). rewrite Hrb. cbn [app]. eexists. split; [done|].
      split; [by apply (buffered_extend _ (b0 :: bs))|]. by rewrite Hrb.
  - rewrite !lookup_insert_ne by done.
    assert (match st_recBase s !! rkey rec with Some _ => st_recBase s | None => <[rkey rec := wr_BaseOffset rec]> (st_recBase s) end !! k
      = st_recBase s !! k) as -> by (destruct (st_recBase s !! rkey rec); [done|by rewrite lookup_insert_ne]).
    done.
Qed.

Lemma replay_all recs s : replayed [] s -> Forall replayable recs ->
  exists s', each replayRecord recs s = (s', None) /\ replayed recs s' /\
    st_store s' = st_store s /\ st_index s' = st_index s /\ st_wal s' = st_wal s /\ st_seq s' = st_seq s /\ st_cfg s' = st_cfg s.
Proof.
  intros H0'. induction recs as [|rec recs IH] using rev_ind; [by exists s|]. intros [Hrs [Hr _]%Forall_cons]%Forall_app.
  destruct (IH Hrs) as (s1 & He & Hrp & E1 & E2 & E3 & E4 & E5). destruct (replay_one _ _ _ Hrp Hr) as (s2 & He2 & Hrp2 & F1 & F2 & F3 & F4 & F5).
  exists s2. rewrite each_app, He. cbn [each]. rewrite He2. split_and!; [done|done|congruence..].
Qed.

(** A node killed while it writes [rec]: some of the frame's bytes are in the
    file, what was written before is complete. *)
Definition torn (j : nat) (rec : walRecord) s : dir := w_files (wal_append (WErr j) rec (st_wal s)).1.

Lemma torn_rep j rec w pre act : wal_rep w pre act -> record_ok rec -> (j < length (walFrame rec))%nat ->
  exists act', files_rep (w_files (wal_append (WErr j) rec w).1) (pre ++ [act']) /\ sg_seq act' = sg_seq act /\ sg_recs act' = sg_recs act.
Proof.
  intros [Hf Ha Hc] Hr Hj. exists (mkSeg (sg_seq act) (sg_recs act) (take j (walFrame rec))). split; [|done].
  cbn [wal_append w_files fst]. rewrite Ha, (fr_in _ _ Hf act) by set_solver. cbn [default from_option id].
  assert (seg_bytes act ++ take j (walFrame rec) = seg_bytes (mkSeg (sg_seq act) (sg_recs act) (take j (walFrame rec)))) as ->.
  { unfold seg_bytes. by rewrite Hc, app_nil_r. }
  apply files_rep_last; [done|done|]. pose proof (fr_ok _ _ Hf) as Ho. apply Forall_app in Ho as [_ [(Hq & Hrs & _) _]%Forall_cons].
  split; [done|]. split; [done|]. right. exists rec, (drop j (walFrame rec)). split_and!; [done|cbn [sg_tail]; by rewrite take_drop|].
  intros Hd%(f_equal length). rewrite length_drop in Hd. change (length []) with 0%nat in Hd. lia.
Qed.

Lemma NewStorage_ok s j rec c : node_ok s -> activeSeq (st_wal s) + 1 < 2 ^ 63 -> record_ok rec -> (j < length (walFrame rec))%nat ->
  exists s1 recs, NewStorage (fun _ => true) c (st_store s) (ix_store (st_index s)) (torn j rec s) = Ret (inl s1) /\
    walled s recs /\ replayed recs s1 /\ node_ok s1 /\ view s1 = view s /\ st_index s1 = newIndex (ix_store (st_index s)).
Proof.
  intros [(pre & act & Hw & Hwalled) _ _] Hroom Hr Hj. pose proof (wal_room _ _ _ Hw Hroom) as Hrm.
  destruct (torn_rep j rec _ _ _ Hw Hr Hj) as (act' & Hf & Hseq & Hrecs).
  assert (all_recs (pre ++ [act']) = all_recs (pre ++ [act])) as Hall by (rewrite !all_recs_app; unfold all_recs; cbn; by rewrite Hrecs).
  destruct (open_rep (torn j rec s) (pre ++ [act'])) as (act2 & Hw2 & Hnil); [done| |].
  { intros x [Hx | ->%list_elem_of_singleton]%elem_of_app; [apply Hrm; set_solver|]. rewrite Hseq. apply Hrm. set_solver. }
  assert (all_recs ((pre ++ [act']) ++ [act2]) = all_recs (pre ++ [act])) as Hall2.
  { rewrite all_recs_app, Hall. unfold all_recs at 2. cbn. by rewrite Hnil, !app_nil_r. }
  unfold NewStorage. set (w := openWAL _) in *. set (s0 := mkStorage c _ _ _ _ _ _ _ _ _).
  destruct (replay_all (all_recs (pre ++ [act])) s0) as (s1 & He & Hrp & E1 & E2 & E3 & E4 & E5); [done|apply Hwalled|].
  pose proof (replay_rep replayRecord (w_files w) _ s0 (activeSeq w) (wp_files _ _ _ Hw2)) as Hre.
  replace (mkWal (w_files w) (activeSeq w)) with w in Hre by (by destruct w). rewrite Hre, Hall2, He. cbn [mbind go_bind].
  exists s1, (all_recs (pre ++ [act])). split; [done|]. split; [done|]. split; [done|]. split; [|split; [unfold view; by rewrite E1|done]].
  split; [exists (pre ++ [act']), act2; rewrite E3, Hall2; split; [done|split; [apply Hwalled|]] | |by rewrite E4].
  - intros k. specialize (Hrp k). destruct (map wr_Batch _) as [|b0 bs0]; [by destruct Hrp as (-> & _)|].
    destruct Hrp as (pp & -> & (Hb & _) & _). done.
  - intros k pp Hp. specialize (Hrp k). destruct (map wr_Batch _) as [|b0 bs0]; [destruct Hrp as (Hn & _); congruence|].
    destruct Hrp as (pp' & Hp' & (_ & _ & Hk & _) & _). congruence.
Qed.

(** The buffer after the replay, and the offsets it recovered. *)
Lemma replayed_pend s s1 recs k m bs n : walled s recs -> replayed recs s1 -> pend_rep k m (st_pending s !! k) bs n ->
  pend_rep k m (st_pending s1 !! k) bs n /\
  st_recBase s1 !! k = (match bs with [] => None | _ => Some m end) /\ st_recNext s1 !! k = (match bs with [] => None | _ => Some n end).
Proof.
  intros [_ Hall] Hrp (Hc & Hsz & Hp). specialize (Hrp k). rewrite (Hall k) in Hrp.
  assert (match st_pending s !! k with Some pp => pp_batches pp | None => [] end = bs) as Heq.
  { destruct (st_pending s !! k); [apply Hp|done]. }
  rewrite Heq in Hrp. destruct bs as [|b bs].
  - destruct Hrp as (-> & -> & ->). done.
  - destruct Hrp as (pp & -> & (H1' & H2' & H3' & H4' & H5') & -> & ->).
    assert (pp_base pp = m) as Hb by (rewrite (H4' b) by done; apply Hc).
    assert (pp_next pp = n) as Hn.
    { destruct (exists_last (l := b :: bs)) as (pre & b' & Hpre); [done|]. rewrite Hpre in *.
      rewrite (H5' b') by (by rewrite last_snoc). apply chained_app in Hc as (x & _ & Hx & Hy). done. }
    rewrite Hb, Hn. split; [|done]. split; [done|]. split; [done|]. split_and!; try done.
    rewrite H2'. apply int64_id. pose proof (zlen_nonneg (concat (b :: bs))). solve_int.
Qed.

Lemma spans_ends o refs m : spans o refs m ->
  (refs = [] /\ o = m) \/ (sr_BaseOffset <$> head refs = Some o /\ sr_NextOffset <$> last refs = Some m).
Proof.
  intros Hs. destruct refs as [|r refs]; [by left|right].
  split; [cbn in *; f_equal; tauto|]. destruct (exists_last (l := r :: refs)) as (pre & x & Heq); [done|]. rewrite Heq in *.
  apply spans_app in Hs as (y & _ & _ & _ & Hx). rewrite last_snoc. cbn in *. by rewrite Hx.
Qed.

Lemma Log_recovers s s1 recs topic p o n bss bs :
  walled s recs -> replayed recs s1 -> node_ok s1 -> view s1 = view s -> ix_store (st_index s1) = ix_store (st_index s) ->
  part_rep s (indexKey topic p) o n bss bs -> 0 <= o -> n < 2 ^ 63 -> (o < n \/ n = 0) ->
  match storage_Log topic p s1 with
  | (_, inr er) => ixLoad (ix_store (st_index s)) topic p = inr er
  | (s2, inl l) => node_ok s2 /\ log_holds s2 l o n bss bs /\ ol_topic l = topic /\ ol_partition l = p /\ ol_hwm l = n
  end.
Proof.
  intros Hwl Hrp Hno Hv Hix [(m & Hu & Hp) Hd] Ho Hn Hne. unfold storage_Log, load. rewrite Hix.
  set (k := indexKey topic p) in *. destruct (ixLoad _ _ _) as [rs|er] eqn:El; [|done].
  pose proof (ix_load _ _ _ _ El) as ->. change (refs_of (ix_store (st_index s)) _) with (durable s k). rewrite Hd.
  pose proof (uploaded_spans _ _ _ _ _ Hu) as Hs. rewrite (merge_sort_spans _ _ _ Hs).
  destruct (replayed_pend s s1 recs k m bs n Hwl Hrp Hp) as (Hp1 & -> & ->). pose proof Hp as (Hc & _ & _).
  set (s2 := withIndex _ _). assert (cached s2 k = cached s k) as Hca by (unfold cached at 1; cbn; by rewrite lookup_insert_eq).
  unfold latest, earliest, refsFor. cbn [ix_refs]. fold k. rewrite lookup_insert_eq. cbn [default from_option id].
  pose proof (spans_le _ _ _ Hs) as Hom. pose proof (chained_le _ _ _ Hc) as Hmn.
  set (next := match (match bs with [] => None | _ => Some n end) with Some r => if _ <? r then r else _ | None => _ end).
  assert (next = n) as Hnext.
  { unfold next. destruct (spans_ends _ _ _ Hs) as [(-> & ->)|(_ & Hl)]; [cbn|rewrite Hl; cbn];
      (destruct bs as [|b bs]; [cbn in Hc; lia|pose proof (chained_lt _ _ _ Hc ltac:(done))]); by rewrite (proj2 (Z.ltb_lt _ _)) by lia. }
  rewrite Hnext.
  assert (match sr_BaseOffset <$> head (cached s k) with Some e => e | None => default n (match bs with [] => None | _ => Some m end) end = o) as ->.
  { destruct (spans_ends _ _ _ Hs) as [(-> & ->)|(-> & _)]; [|done]. cbn. destruct bs; [cbn in *; congruence|done]. }
  assert (part_rep s2 k o n bss bs) as Hpart.
  { split; [|by rewrite Hca]. exists m. rewrite Hca. change (view s2) with (view s1). rewrite Hv. done. }
  split_and!; [|split; [done|by split|done]|done|done|done].
  destruct Hno as [Hw Hkeys Hseq]. by split.
Qed.

(** What a fetch of a slice returns. *)
Lemma slice_get (o : OS) r m bs data : slice_of (osView o) r bs -> chained m bs (sr_NextOffset r) -> bs <> [] ->
  osGet o (sr_Key r) (sr_Position r) (sr_Length r) = inl data -> data = concat bs.
Proof.
  intros (a & c & Hv & Hp & Hl) Hc Hne Hg. pose proof (concat_pos _ _ _ Hc Hne). pose proof (zlen_nonneg a). pose proof (zlen_nonneg c).
  rewrite (os_get _ _ _ _ _ _ Hg Hv) by (rewrite ?Hp, ?Hl, ?zlen_app; lia). by rewrite Hp, Hl, drop_zlen, take_zlen.
Qed.

Lemma scanRefs_spec (o : OS) ts b refs bss m : uploaded (osView o) b refs bss m ->
  (exists r er, r ∈ refs /\ osGet o (sr_Key r) (sr_Position r) (sr_Length r) = inr er /\ scanRefs o refs ts = Ret (Some None)) \/
  scanRefs o refs ts = Ret (match ts_spec ts (concat bss) with Some x => Some (Some x) | None => None end).
Proof.
  revert b bss. induction refs as [|r refs IH]; intros b [|g bss]; cbn [uploaded]; try done; [by right|].
  intros (_ & Hne & Hc & _ & Hs & Hu). cbn [scanRefs concat]. destruct (osGet _ _ _ _) as [data|er] eqn:Eg.
  2: { left. exists r, er. by split; [set_solver|]. }
  rewrite (slice_get _ _ _ _ _ Hs Hc Hne Eg), (scanTimestamp_spec _ _ _ _ Hc), ts_spec_app. cbn [mbind go_bind].
  destruct (ts_spec ts g); [by right|]. destruct (IH _ _ Hu) as [(r' & er & Hr & H2')|H2']; [left|by right].
  exists r', er. by split; [set_solver|].
Qed.

Lemma offsetForTimestamp_spec s topic p o n bss bs ts : part_rep s (indexKey topic p) o n bss bs ->
  (exists r er, r ∈ cached s (indexKey topic p) /\ osGet (st_store s) (sr_Key r) (sr_Position r) (sr_Length r) = inr er /\
     offsetForTimestamp topic p ts s = Ret None) \/
  offsetForTimestamp topic p ts s = Ret (ts_spec ts (contents bss bs)).
Proof.
  intros [(m & Hu & Hc & _ & Hp) _]. unfold offsetForTimestamp, refsFor. fold (cached s (indexKey topic p)).
  destruct (scanRefs_spec _ ts _ _ _ _ Hu) as [(r & er & Hr & Hg & ->)| ->]; [left; by exists r, er|right].
  unfold contents. rewrite ts_spec_app. cbn [mbind go_bind]. destruct (ts_spec ts (concat bss)); [done|].
  unfold pendingData. assert (match st_pending s !! indexKey topic p with Some pp => concat (pp_batches pp) | None => [] end = concat bs) as ->.
  { destruct (st_pending s !! _); [by destruct Hp as (_ & -> & _)|by subst bs]. }
  by eapply scanTimestamp_spec.
Qed.

(** Reading, on every branch. *)
Lemma object_Read s l o n bss bs off max : log_holds s l o n bss bs -> in_int 32 max ->
  (off = n -> Read off max l s = Ret ([], None)) /\
  (off < o \/ n < off -> Read off max l s = Ret ([], Some ErrOffsetOutOfRange)) /\
  (o <= off < n ->
     (exists r er, r ∈ refsFor (st_index s) (ol_topic l) (ol_partition l) /\
        osGet (st_store s) (sr_Key r) (sr_Position r) (sr_Length r) = inr er /\ Read off max l s = Ret ([], Some er)) \/
     exists b rs' tl, Read off max l s = Ret (concat (b :: rs'), None) /\
       drop_before off (contents bss bs) = (b :: rs') ++ tl /\
       BaseOffset (headerOf b) <= off < next_of b /\ (rs' = [] \/ zlen (concat (b :: rs')) <= max)).
Proof.
  intros [Hp [Hn Ho _] _] Hmax. pose proof (chained_le _ _ _ (part_chained _ _ _ _ _ _ Hp)). unfold Read. rewrite Hn, Ho. split_and!.
  - intros ->. by rewrite Z.eqb_refl.
  - intros Hout. rewrite (proj2 (Z.eqb_neq _ _)) by lia. destruct Hout as [Hlt|Hlt]; apply Z.ltb_lt in Hlt; by rewrite Hlt, ?orb_true_r.
  - intros Hin. rewrite (proj2 (Z.eqb_neq _ _)), (proj2 (Z.ltb_ge n off)), (proj2 (Z.ltb_ge off o)) by lia. cbn [orb].
    by apply (storage_read_spec _ _ _ o n bss bs).
Qed.

(** ** While an upload runs *)

(** Once the snapshot is taken, a partition holds what is in objects, up to some
    offset [m], and nothing behind it. *)
Lemma uploading_part s k o n bss bs s1 x : part_rep s k o n bss bs -> uploadBegin s = (s1, Some x) ->
  exists m, chained o (concat bss) m /\ chained m bs n /\ part_rep s1 k o m bss [].
Proof.
  intros [(m & Hu & Hc & _) Hd] Hb. unfold uploadBegin in Hb. destruct (decide _); [done|]. injection Hb as <- _.
  exists m. split_and!; [by eapply uploaded_chained|done|]. split; [|done]. exists m. by repeat split.
Qed.

Lemma uploading_read topic p s o m bss off max : part_rep s (indexKey topic p) o m bss [] -> m <= off ->
  st_pending s !! indexKey topic p = None -> storage_read topic p off max s = Ret ([], None).
Proof.
  intros [(m' & Hu & Hc & _) _] Hoff Hp. cbn in Hc. unfold storage_read. rewrite Hp.
  by rewrite (refFor_none _ _ _ o m' off (uploaded_spans _ _ _ _ _ Hu)) by lia.
Qed.

(** ** Properties *)

(** C13: the object backend's read returns what a partition holds, wherever it is.
    Between uploads, on a partition whose batches lie partly in objects and partly in
    the pending buffer, a read at the log end is empty, a read outside the range is
    refused, and a read inside it returns whole batches from the one that holds the
    offset on, at least one and no more bytes than asked unless one batch alone is
    larger, or the error of a fetch from the object store.  A lookup by time finds
    the first batch at or after it, over objects and buffer, unless a fetch fails;
    the size is the number of bytes held.  While an upload runs, that is after its
    snapshot and before its index commits, reads, lookups and the size see the
    objects alone: what was pending reads as nothing, though it is inside the range
    the handle reports. *)
Theorem object_read_correct s l o n bss bs off max ts :
  log_holds s l o n bss bs -> in_int 32 max -> size_of bss bs < 2 ^ 63 ->
  (off = n -> Read off max l s = Ret ([], None)) /\
  (off < o \/ n < off -> Read off max l s = Ret ([], Some ErrOffsetOutOfRange)) /\
  (o <= off < n ->
     (exists r er, r ∈ refsFor (st_index s) (ol_topic l) (ol_partition l) /\
        osGet (st_store s) (sr_Key r) (sr_Position r) (sr_Length r) = inr er /\ Read off max l s = Ret ([], Some er)) \/
     exists b rs' tl, Read off max l s = Ret (concat (b :: rs'), None) /\
       drop_before off (contents bss bs) = (b :: rs') ++ tl /\
       BaseOffset (headerOf b) <= off < next_of b /\ (rs' = [] \/ zlen (concat (b :: rs')) <= max)) /\
  ((exists r er, r ∈ refsFor (st_index s) (ol_topic l) (ol_partition l) /\
      osGet (st_store s) (sr_Key r) (sr_Position r) (sr_Length r) = inr er /\ OffsetForTimestamp ts l s = Ret None) \/
   OffsetForTimestamp ts l s = Ret (ts_spec ts (contents bss bs))) /\
  Size l s = size_of bss bs /\
  (forall s1 x, uploadBegin s = (s1, Some x) -> exists m, chained o (concat bss) m /\ chained m bs n /\
     (m <= off < n -> Read off max l s1 = Ret ([], None)) /\
     (o <= off < m ->
        (exists r er, r ∈ refsFor (st_index s1) (ol_topic l) (ol_partition l) /\
           osGet (st_store s1) (sr_Key r) (sr_Position r) (sr_Length r) = inr er /\ Read off max l s1 = Ret ([], Some er)) \/
        exists b rs' tl, Read off max l s1 = Ret (concat (b :: rs'), None) /\
          drop_before off (concat bss) = (b :: rs') ++ tl /\
          BaseOffset (headerOf b) <= off < next_of b /\ (rs' = [] \/ zlen (concat (b :: rs')) <= max)) /\
     ((exists r er, r ∈ refsFor (st_index s1) (ol_topic l) (ol_partition l) /\
         osGet (st_store s1) (sr_Key r) (sr_Position r) (sr_Length r) = inr er /\ OffsetForTimestamp ts l s1 = Ret None) \/
      OffsetForTimestamp ts l s1 = Ret (ts_spec ts (concat bss))) /\
     Size l s1 = size_of bss []).
Proof.
  intros Hl Hmax Hsz. destruct (object_Read _ _ _ _ _ _ off max Hl Hmax) as (G1 & G2 & G3). pose proof (lh_part _ _ _ _ _ _ Hl) as Hp.
  split_and!; [done..|by eapply offsetForTimestamp_spec|by eapply storage_size_spec|]. intros s1 x Hb.
  destruct (uploading_part _ _ _ _ _ _ _ _ Hp Hb) as (m & Hm1 & Hm2 & Hp1). exists m. pose proof (lh_handle _ _ _ _ _ _ Hl) as [Hn Ho _].
  pose proof (chained_le _ _ _ Hm2). pose proof (chained_le _ _ _ Hm1).
  assert (contents bss [] = concat bss) as Hc by (unfold contents; apply app_nil_r).
  assert (forall off', o <= off' < n -> Read off' max l s1 = storage_read (ol_topic l) (ol_partition l) off' max s1) as Hread.
  { intros off' Hr. unfold Read. rewrite Hn, Ho, (proj2 (Z.eqb_neq _ _)), (proj2 (Z.ltb_ge n off')), (proj2 (Z.ltb_ge off' o)) by lia. done. }
  split_and!; [done|done| | | |].
  - intros Hr. rewrite Hread by lia. eapply uploading_read; [exact Hp1|lia|].
    unfold uploadBegin in Hb. destruct (decide _); [done|]. by injection Hb as <- _.
  - intros Hr. rewrite Hread, <- Hc by lia. by apply (storage_read_spec _ _ _ o m bss []).
  - rewrite <- Hc. by eapply offsetForTimestamp_spec.
  - eapply storage_size_spec; [exact Hp1|]. unfold size_of, contents in *. rewrite concat_app, zlen_app in Hsz. rewrite app_nil_r.
    pose proof (zlen_nonneg (concat bs)). lia.
Qed.

(** C14: both write paths of the object backend.  A produced batch gets the next
    offset and is added behind everything the partition holds, in the write-ahead
    log as in the buffer; a replica takes exactly the batch at its log end,
    answers an earlier one with its log end, and refuses a later one or bytes
    without a header; on neither path does another partition change; and on either,
    an append whose write fails is reported and changes neither the handle nor any
    partition. *)
Theorem object_append_correct s l o n bss bs b :
  node_ok s -> log_holds s l o n bss bs -> producer_ok b -> log_room l bs b (RecordCount (headerOf b)) ->
  (exists b' l' s', Append WOk b l s = Ret (l', s', (n, None)) /\ patched b n b' /\
     node_ok s' /\ log_holds s' l' o (n + RecordCount (headerOf b)) bss (bs ++ [b']) /\
     ol_hwm l' = (if ol_hold l then ol_hwm l else ol_next l') /\
     (forall k o' n' bss' bs', k <> indexKey (ol_topic l) (ol_partition l) -> part_rep s k o' n' bss' bs' -> part_rep s' k o' n' bss' bs')) /\
  (forall r, batch_at n r -> log_room l bs r (next_of r - n) ->
     exists l' s', AppendReplica WOk r l s = (l', s', (next_of r, None)) /\
       node_ok s' /\ log_holds s' l' o (next_of r) bss (bs ++ [r]) /\ ol_hwm l' = ol_hwm l /\
       (forall k o' n' bss' bs', k <> indexKey (ol_topic l) (ol_partition l) -> part_rep s k o' n' bss' bs' -> part_rep s' k o' n' bss' bs')) /\
  (forall e r, batch_wf r -> BaseOffset (headerOf r) < n -> AppendReplica e r l s = (l, s, (n, None))) /\
  (forall e r, batch_wf r -> n < BaseOffset (headerOf r) -> AppendReplica e r l s = (l, s, (n, Some ErrReplicaGap))) /\
  (forall e r h er, ParseHeader r = (h, Some er) -> AppendReplica e r l s = (l, s, (0, Some er))) /\
  (forall j, exists s', Append (WErr j) b l s = Ret (l, s', (0, Some ErrIO)) /\
     forall k o' n' bss' bs', part_rep s k o' n' bss' bs' -> part_rep s' k o' n' bss' bs') /\
  (forall j r, batch_at n r -> exists s', AppendReplica (WErr j) r l s = (l, s', (0, Some ErrIO)) /\
     forall k o' n' bss' bs', part_rep s k o' n' bss' bs' -> part_rep s' k o' n' bss' bs').
Proof.
  intros Hno Hl Hb Hroom. pose proof (ho_next _ _ _ (lh_handle _ _ _ _ _ _ Hl)) as Hn. split_and!.
  - destruct (object_Append _ _ _ _ _ _ _ Hl Hb Hroom) as (b' & l' & s' & G1 & _ & G2 & G3 & _ & G4 & G5 & G6).
    exists b', l', s'. split_and!; try done. by apply G3.
  - intros r Hat Hr. destruct (object_AppendReplica _ _ _ _ _ _ _ Hl Hat Hr) as (l' & s' & G1 & G2 & _ & G3 & G4 & _ & _ & G5).
    exists l', s'. split_and!; try done. by apply G2.
  - intros e r Hw Hlt. unfold AppendReplica. rewrite (batch_wf_header _ Hw), Hn. by rewrite (proj2 (Z.ltb_lt _ _)).
  - intros e r Hw Hlt. unfold AppendReplica. rewrite (batch_wf_header _ Hw), Hn. rewrite (proj2 (Z.ltb_ge _ _)) by lia.
    by rewrite (proj2 (Z.ltb_lt _ _)).
  - intros e r h er Hh. unfold AppendReplica. by rewrite Hh.
  - intros j. pose proof (po_wf _ Hb) as Hw. destruct (patchBatch_patched b n) as (b' & Hpatch & Hpt). { pose proof (bw_header _ Hw). layout. lia. }
    unfold Append. rewrite Hn, Hpatch. cbn [mbind go_bind]. rewrite (batch_wf_header b') by (by eapply patched_wf).
    eexists. split; [done|]. intros k o' n' bss' bs' Hrep. by eapply part_rep_frame.
  - intros j r Hat. unfold AppendReplica. rewrite (batch_wf_header r) by apply Hat. rewrite (ba_base _ _ Hat), Hn, Z.ltb_irrefl.
    eexists. split; [done|]. intros k o' n' bss' bs' Hrep. by eapply part_rep_frame.
Qed.

(** C11: an upload moves data and never loses or reorders it.  For a node that has
    written only objects with numbers below its counter ([fresh_keys], which holds
    until the node is restarted, see [restart_overwrites_objects]), with nothing
    appended during the upload ([trim_drops_concurrent_append]) and removals of log
    segments that succeed: an upload that reports success has emptied the buffer
    and the write-ahead log, and every partition holds the same batches over the
    same offsets, what was pending now as one more object slice; one that fails
    before its index commits leaves every partition, the buffer and the log as
    they were; the one remaining case is an index commit that failed. *)
Theorem object_upload_correct e s s' r :
  node_ok s -> fresh_keys s -> can_upload s -> u_removed e = (fun _ => true) -> upload e s = (s', r) ->
  match r with
  | None => node_ok s' /\ fresh_keys s' /\ st_pending s' = ∅ /\ replay collect (fun _ => true) (st_wal s') [] = Ret ([], None) /\
      forall l o n bss bs, log_holds s l o n bss bs ->
        log_holds s' l o n (bss ++ group bs) [] /\ contents (bss ++ group bs) [] = contents bss bs
  | Some er =>
      (node_ok s' /\ fresh_keys s' /\ st_pending s' = st_pending s /\
       forall l o n bss bs, log_holds s l o n bss bs -> log_holds s' l o n bss bs) \/
      exists commits, commitAll commits (st_index s) = (st_index s', Some er)
  end.
Proof.
  intros Hno Hfr Hcan Hrem Hup. pose proof (upload_cases _ _ _ _ Hno Hfr Hcan Hrem Hup) as Hc. destruct r as [er|].
  - destruct Hc as [(G1 & G2 & G3 & G4)|Hc]; [left|by right]. split_and!; try done.
    intros l o n bss bs [Hp Hh Hr]. split; [by apply G4|done..].
  - destruct Hc as (G1 & G2 & G3 & G4). split_and!; try done; [by apply idle_wal|]. intros l o n bss bs [Hp Hh Hr].
    split; [split; [by apply G4|done..]|apply contents_group].
Qed.

(** C15: retention of the object backend.  It drops the longest run of oldest object
    slices that are each too old or push the size over the limit, and nothing
    else: the partition then holds exactly the later groups and the buffer, from
    the offset its handle reports; and no other partition loses a byte, though
    objects are shared between partitions and deleted.  When the index refuses, the
    handle, the buffer and every object stay. *)
Theorem object_retention_safe s l o n bss bs now age max :
  node_ok s -> log_holds s l o n bss bs -> size_of bss bs < 2 ^ 63 ->
  let refs := refsFor (st_index s) (ol_topic l) (ol_partition l) in
  match EnforceRetention now age max l s with
  | (l', s', Some _) => l' = l /\ st_pending s' = st_pending s /\ st_store s' = st_store s
  | (l', s', None) =>
    exists j o', log_holds s' l' o' n (drop j bss) bs /\ o <= o' /\ ol_hwm l' = ol_hwm l /\
    (forall i r, (i < j)%nat -> refs !! i = Some r -> due now age max r (size_of (drop i bss) bs) = true) /\
    (forall r, refs !! j = Some r -> due now age max r (size_of (drop j bss) bs) = false) /\
    node_ok s' /\ (fresh_keys s -> fresh_keys s') /\
    (forall k o2 n2 bss2 bs2, k <> indexKey (ol_topic l) (ol_partition l) -> part_rep s k o2 n2 bss2 bs2 -> part_rep s' k o2 n2 bss2 bs2)
  end.
Proof.
  intros Hno Hl Hsz refs. destruct (EnforceRetention now age max l s) as [[l' s'] [er|]] eqn:E.
  - revert E. unfold EnforceRetention, enforceRetention. destruct (drop_loop _ _ _ _ _); [done|].
    destruct (_ !! _); [|done]. destruct (prune _ _ _ _) as [ix [gone|er']]; [done|]. by intros [= <- <- _].
  - exact (retention_holds _ _ _ _ _ _ _ _ _ _ _ Hno Hl Hsz E).
Qed.

(** a restart recovers every partition.  Kill the node at any byte of writing
    its next record; the storage opened on what is left, with the same store and
    index, replays the write-ahead log into the buffer, and the handle of a
    partition has the same range and holds exactly the same batches, in objects
    and in the buffer, as before. *)
Theorem object_restart_recovers s topic p o n bss bs c rec j :
  node_ok s -> part_rep s (indexKey topic p) o n bss bs -> 0 <= o -> n < 2 ^ 63 -> o < n \/ n = 0 ->
  activeSeq (st_wal s) + 1 < 2 ^ 63 -> record_ok rec -> (j < length (walFrame rec))%nat ->
  exists s1, NewStorage (fun _ => true) c (st_store s) (ix_store (st_index s)) (torn j rec s) = Ret (inl s1) /\ node_ok s1 /\
    match storage_Log topic p s1 with
    | (_, inr er) => ixLoad (ix_store (st_index s)) topic p = inr er
    | (s2, inl l) => node_ok s2 /\ log_holds s2 l o n bss bs /\ ol_topic l = topic /\ ol_partition l = p /\ ol_hwm l = n
    end.
Proof.
  intros Hno Hp Ho Hn Hne Hroom Hr Hj. destruct (NewStorage_ok s j rec c Hno Hroom Hr Hj) as (s1 & recs & G1 & G2 & G3 & G4 & G5 & G6).
  exists s1. split; [done|]. split; [done|]. eapply Log_recovers; [done..| |done|done|done|done]. by rewrite G6.
Qed.

End Node.

(** ** A store and a node to run *)

Abbreviation MemStore := (gmap string (list byte)).

#[export] Instance mem_store : ObjectStore MemStore := {
  osPut key data o := (<[key := data]> o, None);
  osGet o key off len := match o !! key with Some d => inl (take (Z.to_nat len) (drop (Z.to_nat off) d)) | None => inr ErrIO end;
  osDelete key o := delete key o }.

#[local] Obligation Tactic := idtac.
#[export] Program Instance mem_store_laws : ObjectStoreLaws MemStore := { osView := fun o => o }.
Next Obligation. by intros o o' key data [= <-]. Qed.
Next Obligation. done. Qed.
Next Obligation. intros o key off len data d. cbn. intros Hg Hd. rewrite Hd in Hg. by injection Hg as <-. Qed.
Next Obligation. intros o key k Hk. cbn. by rewrite lookup_delete_ne. Qed.

Definition demoCfg : StorageConfig := mkStorageConfig "n1" 0.
Definition demoNode : Storage MemStore MemIndexStore := mkStorage demoCfg ∅ (openWAL ∅) (newIndex ∅) ∅ 0 0 ∅ ∅ false.
Definition demoHandle : ObjectLog := mkObjectLog "orders" 0 0 0 false 0.
Definition demoIO : uploadIO := mkUploadIO true 5000 (fun _ => true).

(** One batch appended. *)
Definition demoRun : ObjectLog * Storage MemStore MemIndexStore :=
  match Append WOk demoBatch1 demoHandle demoNode with Ret (l, s, _) => (l, s) | _ => (demoHandle, demoNode) end.
Definition demoStored : list byte := match patchBatch demoBatch1 0 with Ret b => b | _ => [] end.

Lemma demoNode_ok : node_ok demoNode.
Proof.
  split; [|by intros k pp Hp|done]. destruct (open_rep ∅ [] empty_files) as (act & Hw & Hn); [by intros x ?%elem_of_nil|].
  exists [], act. split; [done|]. assert (all_recs ([] ++ [act]) = []) as -> by (unfold all_recs; cbn; by rewrite Hn).
  split; [constructor|done].
Qed.

Lemma demoNode_fresh : fresh_keys demoNode.
Proof. intros k r q [Hr|Hr]; by apply elem_of_nil in Hr. Qed.

Lemma demoHandle_holds : log_holds demoNode demoHandle 0 0 [] [].
Proof. split; [split; [exists 0; by repeat split|done]|by split|solve_int]. Qed.

Lemma demoRoom : log_room demoHandle [] demoBatch1 (RecordCount (headerOf demoBatch1)).
Proof. split; vm_compute; done. Qed.

Lemma demoBatch_ok : producer_ok demoBatch1.
Proof. apply producer_okb. vm_compute. reflexivity. Qed.

Lemma demoRun_ok : node_ok demoRun.2 /\ fresh_keys demoRun.2 /\ log_holds demoRun.2 demoRun.1 0 3 [] [demoStored].
Proof.
  destruct (object_Append _ _ _ _ _ _ _ demoHandle_holds demoBatch_ok demoRoom) as (b' & l' & s' & Ha & Hb & _ & Hno & Hfr & Hl & _).
  unfold demoRun, demoStored. rewrite Ha, Hb. split_and!; [by apply Hno, demoNode_ok|by apply Hfr, demoNode_fresh|exact Hl].
Qed.

(** And uploaded. *)
Definition demoUploaded : Storage MemStore MemIndexStore := (upload demoIO demoRun.2).1.

Lemma demoUploaded_ok : node_ok demoUploaded /\ log_holds demoUploaded demoRun.1 0 3 [[demoStored]] [].
Proof.
  destruct demoRun_ok as (Hno & Hfr & [Hp Hh Hr]). unfold demoUploaded. destruct (upload demoIO demoRun.2) as [s' r] eqn:E.
  assert (r = None) as -> by (apply (f_equal snd) in E; vm_compute in E; done).
  destruct (upload_cases demoIO _ _ _ Hno Hfr ltac:(split; vm_compute; done) eq_refl E) as (H1 & _ & _ & H2). cbn [fst].
  split; [done|]. split; [exact (H2 _ _ _ _ _ Hp)|done|done].
Qed.

Lemma object_read_correct_witness : Read 1 1000 demoRun.1 demoRun.2 = Ret (demoStored, None).
Proof.
  destruct demoRun_ok as (_ & _ & Hl).
  destruct (object_read_correct _ _ _ _ _ _ 1 1000 500 Hl) as (_ & _ & Hin & _); [solve_int|vm_compute; done|].
  destruct (Hin ltac:(lia)) as [(r & er & Hr & _)|(b & rs' & tl & -> & Hd & _)].
  - exfalso. assert (refsFor (st_index demoRun.2) (ol_topic demoRun.1) (ol_partition demoRun.1) = []) as Hnil by (vm_compute; reflexivity).
    rewrite Hnil in Hr. by apply elem_of_nil in Hr.
  - assert (drop_before 1 (contents [] [demoStored]) = [demoStored]) as Hs by (vm_compute; reflexivity). rewrite Hs in Hd.
    revert Hd. generalize demoStored as b0. intros b0 Hd. destruct rs'; [|discriminate Hd]. injection Hd as -> _. cbn. by rewrite app_nil_r.
Defined.

Lemma object_append_correct_witness :
  exists b' l' s', Append WOk demoBatch1 demoHandle demoNode = Ret (l', s', (0, None)) /\ node_ok s' /\ log_holds s' l' 0 3 [] [b'].
Proof.
  destruct (object_append_correct _ _ _ _ _ _ _ demoNode_ok demoHandle_holds demoBatch_ok demoRoom) as ((b' & l' & s' & H1 & _ & H2 & H3 & _) & _).
  by exists b', l', s'.
Defined.

Lemma object_upload_correct_witness :
  exists s', upload demoIO demoRun.2 = (s', None) /\ log_holds s' demoRun.1 0 3 [[demoStored]] [].
Proof.
  destruct demoRun_ok as (Hno & Hfr & Hl). destruct (upload demoIO demoRun.2) as [s' r] eqn:E.
  assert (r = None) as -> by (apply (f_equal snd) in E; vm_compute in E; done).
  exists s'. split; [done|]. refine (proj1 (proj2 (proj2 (proj2 (proj2 (object_upload_correct demoIO _ _ None Hno Hfr _ eq_refl E)))) _ _ _ _ _ Hl)).
  split; vm_compute; done.
Defined.

Lemma object_retention_safe_witness :
  exists l' s', EnforceRetention 9000 1000 0 demoRun.1 demoUploaded = (l', s', None) /\ log_holds s' l' 3 3 [] [].
Proof.
  destruct demoUploaded_ok as (Hno & Hl). pose proof (object_retention_safe _ _ _ _ _ _ 9000 1000 0 Hno Hl ltac:(vm_compute; done)) as Hr.
  assert ((EnforceRetention 9000 1000 0 demoRun.1 demoUploaded).2 = None) as H1 by (vm_compute; reflexivity).
  assert (ol_earliest (EnforceRetention 9000 1000 0 demoRun.1 demoUploaded).1.1 = 3) as He by (vm_compute; reflexivity).
  destruct (EnforceRetention 9000 1000 0 demoRun.1 demoUploaded) as [[l' s'] r]. cbn [fst snd] in H1, He. subst r. clear Hno Hl.
  destruct Hr as (j & o' & H3 & _). exists l', s'. split; [done|].
  assert (o' = 3) as -> by (rewrite <- (ho_earliest _ _ _ (lh_handle _ _ _ _ _ _ H3)); done).
  destruct j as [|j]; [exfalso|by rewrite drop_ge in H3 by (cbn; lia)]. pose proof (part_chained _ _ _ _ _ _ (lh_part _ _ _ _ _ _ H3)) as Hc. cbn in Hc.
  destruct Hc as [[_ _ Hs] Hc]. lia.
Defined.

Lemma object_restart_recovers_witness :
  exists s1, NewStorage (fun _ => true) demoCfg (st_store demoRun.2) (ix_store (st_index demoRun.2)) (torn 5 (demoRec 0 3) demoRun.2) = Ret (inl s1) /\
    match storage_Log "orders" 0 s1 with (_, inr _) => False | (s2, inl l) => log_holds s2 l 0 3 [] [demoStored] end.
Proof.
  destruct demoRun_ok as (Hno & _ & Hl).
  destruct (object_restart_recovers _ "orders" 0 0 3 [] [demoStored] demoCfg (demoRec 0 3) 5 Hno (lh_part _ _ _ _ _ _ Hl)) as (s1 & H3 & _ & H2);
    [lia|solve_int|lia|vm_compute; done|apply demoRec_ok; solve_int|vm_compute; lia|].
  exists s1. split; [done|]. destruct (storage_Log "orders" 0 s1) as [s2 [l|er]]; [apply H2|done].
Defined.

(** ** What is not kept *)

Section Run.
Context {I : Type} `{IndexStore I}.

(** Reopen a node on what is on disk, in the store and in the index. *)
Definition reopen (s : Storage MemStore I) : ObjectLog * Storage MemStore I :=
  match NewStorage (fun _ => true) (st_cfg s) (st_store s) (ix_store (st_index s)) (w_files (st_wal s)) with
  | Ret (inl s') => match storage_Log "orders" 0 s' with (s2, inl l) => (l, s2) | (s2, inr _) => (demoHandle, s2) end
  | _ => (demoHandle, s)
  end.
Definition put (b : list byte) (x : ObjectLog * Storage MemStore I) : ObjectLog * Storage MemStore I :=
  match Append WOk b x.1 x.2 with Ret (l, s, _) => (l, s) | _ => x end.

End Run.

(** a restarted node overwrites its own objects.  A batch at offset 0 is
    uploaded; the node restarts, appends a second batch and uploads it, with
    success.  The upload numbers start again at 1, so the second object replaces
    the first under the same key, and the record at offset 0, still inside the
    reported range, reads as nothing. *)
Theorem restart_overwrites_objects :
  let x := put demoBatch2 (reopen demoUploaded) in
  let '(s, r) := upload demoIO x.2 in
  Read 0 1000 demoRun.1 demoUploaded = Ret (demoStored, None) /\ r = None /\
  ol_earliest x.1 = 0 /\ ol_next x.1 = 4 /\ Read 0 1000 x.1 s = Ret ([], None).
Proof. vm_compute. done. Qed.

(** the log trim can drop a record that was not uploaded.  A batch is appended
    between the snapshot of an upload and the rotation of the write-ahead log; the
    upload succeeds and deletes the segment the batch's only durable copy is in.
    The running node still serves it, but a restart comes back without it and
    assigns its offset again. *)
Theorem trim_drops_concurrent_append :
  match uploadBegin demoRun.2 with
  | (s1, Some (snap, seq)) =>
    let x := put demoBatch2 (demoRun.1, s1) in
    let '(s2, r) := uploadFinish demoIO snap seq x.2 in
    r = None /\ ol_next x.1 = 4 /\ ol_next (reopen s2).1 = 3
  | _ => False
  end.
Proof. vm_compute. done. Qed.

(** An index whose next [n] commits fail. *)
Abbreviation FlakyIndex := (MemIndexStore * nat)%type.
#[export] Instance flaky_index : IndexStore FlakyIndex := {
  ixCommit topic p r i := match i.2 with O => ((mem_Commit topic p r i.1).1, O, None) | S n => (i.1, n, Some ErrIO) end;
  ixLoad i topic p := mem_Load i.1 topic p;
  ixPrune topic p c i := let '(m, gone) := mem_Prune topic p c i.1 in ((m, i.2), gone);
  ixReferenced i key := mem_Referenced i.1 key }.

(** a failed index commit loses acknowledged records.  An upload whose commit
    fails reports the error but has already dropped the snapshot, so the records
    read as nothing; the next upload succeeds and trims the log they were still
    in, and after a restart they are gone for good. *)
Theorem failed_commit_loses_records :
  let s0 : Storage MemStore FlakyIndex := mkStorage demoCfg ∅ (openWAL ∅) (newIndex (∅, 1%nat)) ∅ 0 0 ∅ ∅ false in
  let x1 := put demoBatch1 (demoHandle, s0) in
  let '(s2, r2) := upload demoIO x1.2 in
  let x3 := put demoBatch2 (x1.1, s2) in
  let '(s4, r4) := upload demoIO x3.2 in
  Read 0 1000 x1.1 x1.2 = Ret (demoStored, None) /\ r2 = Some ErrIO /\ Read 0 1000 x1.1 s2 = Ret ([], None) /\
  r4 = None /\ Read 0 1000 x3.1 s4 = Ret ([], None) /\ ol_earliest (reopen s4).1 = 3.
Proof. vm_compute. done. Qed.

(** retention forgets the log end.  When it drops the last object of a partition
    with nothing pending, the running node continues at offset 3; but the log end
    is stored nowhere, and after a restart the partition starts again at 0. *)
Theorem retention_forgets_log_end :
  let '(l, s, r) := EnforceRetention 9000 1000 0 demoRun.1 demoUploaded in
  r = None /\ ol_next l = 3 /\ ol_next (reopen s).1 = 0.
Proof. vm_compute. done. Qed.
