(* ===== verification/Minio.v ===== *)
(** * internal/storage/object/store.go: the S3 client

    The one implementation of the object store, over a bucket of the minio client.
    The client is not part of the program: [MinioClient] is the calls the code
    makes, [MinioLaws] what it relies on of them, in the words of the S3 API and of
    the client's documentation: an object has at most five terabytes; the size given
    with a put is that of the data; a range is inclusive at both ends, and an end of 0
    behind a positive start leaves it open; a listing goes below a slash only when it
    is recursive; a service that answers reports the removal of a missing key as done.
    The file proves that the store keeps the laws the rest of the object backend was
    verified against ([Objects]). *)

From S2P Require Import Prelude Kbytes Strconv Objects.

(** minio.ListObjectsOptions, the fields that are set. *)
Record ListObjectsOptions := mkListOpts { lo_Prefix : string; lo_Recursive : bool }.

(** [Opts]: minio.GetObjectOptions.  [GetObject] answers what reading the object to
    its end gives, for the object is fetched while it is read. *)
Class MinioClient (C Opts : Type) := {
  PutObject : string -> string -> list byte -> Z -> C -> C * option error;
  noRange : Opts;
  SetRange : Z -> Z -> Opts -> Opts + error;
  GetObject : C -> string -> string -> Opts -> (list byte + error) + error;
  ListObjects : C -> string -> ListObjectsOptions -> list (string + error);
  RemoveObject : string -> string -> C -> C * option error }.

(** The bytes of [d] from [a] through [b], or to the end. *)
Definition rangeOf (r : option (Z * option Z)) (d : list byte) : list byte :=
  match r with
  | None => d
  | Some (a, None) => drop (Z.to_nat a) d
  | Some (a, Some b) => take (Z.to_nat (b - a + 1)) (drop (Z.to_nat a) d)
  end.

Definition startsWith (prefix s : string) : bool := String.prefix prefix s.

(** [bucketView c b]: the objects of bucket [b]; [answers c b]: the service is there
    and accepts the credentials, so that no call fails for a reason of its own. *)
Class MinioLaws (C Opts : Type) `{MinioClient C Opts} := {
  bucketView : C -> string -> gmap string (list byte);
  answers : C -> string -> Prop;
  rangeIn : Opts -> option (Z * option Z);
  view_small c b key d : bucketView c b !! key = Some d -> zlen d <= 5 * 2 ^ 40;
  put_ok b key data c c' : PutObject b key data (zlen data) c = (c', None) -> bucketView c' b = <[key := data]> (bucketView c b);
  put_fails b key data n c c' er : PutObject b key data n c = (c', Some er) ->
    forall k, k <> key -> bucketView c' b !! k = bucketView c b !! k;
  put_answers b key data c : answers c b -> zlen data <= 5 * 2 ^ 40 -> (PutObject b key data (zlen data) c).2 = None;
  noRange_ok : rangeIn noRange = None;
  range_open o o' a : 0 < a -> SetRange a 0 o = inl o' -> rangeIn o' = Some (a, None);
  range_closed o o' a b : 0 <= a <= b -> SetRange a b o = inl o' -> rangeIn o' = Some (a, Some b);
  range_accepted o a b : (0 < a /\ b = 0) \/ 0 <= a <= b -> exists o', SetRange a b o = inl o';
  get_ok c b key o d data : bucketView c b !! key = Some d -> GetObject c b key o = inl (inl data) -> data = rangeOf (rangeIn o) d;
  get_missing c b key o data : bucketView c b !! key = None -> GetObject c b key o <> inl (inl data);
  get_answers c b key o d : answers c b -> bucketView c b !! key = Some d -> exists data, GetObject c b key o = inl (inl data);
  list_ok c b prefix ks : ListObjects c b (mkListOpts prefix true) = map inl ks ->
    forall k, k ∈ ks <-> startsWith prefix k = true /\ is_Some (bucketView c b !! k);
  list_answers c b o : answers c b -> exists ks, ListObjects c b o = map inl ks;
  remove_ok b key c c' : RemoveObject b key c = (c', None) -> bucketView c' b = delete key (bucketView c b);
  remove_fails b key c c' er : RemoveObject b key c = (c', Some er) ->
    forall k, k <> key -> bucketView c' b !! k = bucketView c b !! k;
  remove_answers b key c : answers c b -> (RemoveObject b key c).2 = None }.

(** ** The configuration *)

(** store.go [Config]. *)
Record S3Config := mkS3Config { s3_Endpoint : string; s3_Bucket : string; s3_AccessKey : string; s3_SecretKey : string; s3_Region : string }.

Definition TrimPrefix (s pre : string) : string := if String.prefix pre s then string_drop (String.length pre) s else s.

Definition splitScheme (endpoint : string) : string * bool :=
  if String.prefix "https://" endpoint then (TrimPrefix endpoint "https://", true)
  else if String.prefix "http://" endpoint then (TrimPrefix endpoint "http://", false)
  else (endpoint, false).

Section Store.
Context {C Opts : Type} `{MinioClient C Opts}.

Record minioStore := mkMinio { ms_client : C; ms_bucket : string }.

(** [connect]: minio.New on host, credentials, TLS and region. *)
Definition NewMinIO (connect : string -> string * string -> bool -> string -> C + error) (cfg : S3Config) : minioStore + error :=
  let '(endpoint, secure) := splitScheme (s3_Endpoint cfg) in
  match connect endpoint (s3_AccessKey cfg, s3_SecretKey cfg) secure (s3_Region cfg) with
  | inr er => inr er
  | inl client => inl (mkMinio client (s3_Bucket cfg))
  end.

Definition Put (key : string) (data : list byte) (s : minioStore) : minioStore * option error :=
  let '(c, er) := PutObject (ms_bucket s) key data (zlen data) (ms_client s) in (mkMinio c (ms_bucket s), er).

Definition Get (s : minioStore) (key : string) (off length : Z) : list byte + error :=
  let fetch (opts : Opts) :=
    match GetObject (ms_client s) (ms_bucket s) key opts with
    | inr er => inr er
    | inl (inr er) => inr er
    | inl (inl data) => inl data
    end in
  if (0 <? off) || (0 <? length) then
    let last := if 0 <? length then int64 (off + length - 1) else 0 in
    match SetRange off last noRange with inr er => inr er | inl opts => fetch opts end
  else fetch noRange.

Fixpoint list_loop (objs : list (string + error)) (keys : list string) : list string + error :=
  match objs with
  | [] => inl keys
  | inr er :: _ => inr er
  | inl k :: objs => list_loop objs (keys ++ [k])
  end.

Definition List (s : minioStore) (prefix : string) : list string + error :=
  list_loop (ListObjects (ms_client s) (ms_bucket s) (mkListOpts prefix true)) [].

Definition Delete (key : string) (s : minioStore) : minioStore * option error :=
  let '(c, er) := RemoveObject (ms_bucket s) key (ms_client s) in (mkMinio c (ms_bucket s), er).

End Store.
Arguments minioStore : clear implicits.

(** ** The laws of the object store *)

Section Laws.
Context {C Opts : Type} `{MinioLaws C Opts}.
Implicit Types s : minioStore C.

Definition storeView s : gmap string (list byte) := bucketView (ms_client s) (ms_bucket s).

Lemma Put_view key data s s' : Put key data s = (s', None) -> storeView s' = <[key := data]> (storeView s).
Proof.
  unfold Put, storeView. destruct (PutObject _ _ _ _ _) as [c er] eqn:E. intros [= <- ->]. cbn. by apply put_ok.
Qed.

Lemma Put_others key data s s' er : Put key data s = (s', Some er) -> forall k, k <> key -> storeView s' !! k = storeView s !! k.
Proof.
  unfold Put, storeView. destruct (PutObject _ _ _ _ _) as [c er'] eqn:E. intros [= <- ->]. cbn. by eapply put_fails.
Qed.

(** What is fetched: [length] bytes from [off], or all from [off]. *)
Lemma Get_range s key off length data d :
  Get s key off length = inl data -> storeView s !! key = Some d -> 0 <= off -> off + Z.max 0 length <= zlen d ->
  data = if 0 <? length then take (Z.to_nat length) (drop (Z.to_nat off) d) else drop (Z.to_nat off) d.
Proof.
  intros Hg Hd Ho Hb. pose proof (view_small _ _ _ _ Hd) as Hsm. unfold Get in Hg.
  assert (forall o, match GetObject (ms_client s) (ms_bucket s) key o with
    | inr er => inr er | inl (inr er) => inr er | inl (inl data) => inl data end = inl data -> data = rangeOf (rangeIn o) d) as Hf.
  { intros o Hf. destruct (GetObject _ _ _ o) as [[x|er]|er] eqn:E; [|done|done]. injection Hf as <-. by eapply get_ok. }
  destruct (Z.ltb_spec 0 length) as [Hl|Hl].
  - rewrite orb_true_r, int64_id in Hg by solve_int. destruct (SetRange _ _ _) as [o|er] eqn:E; [|done].
    apply range_closed in E; [|lia]. rewrite (Hf _ Hg), E. cbn. do 2 f_equal. lia.
  - rewrite orb_false_r in Hg. destruct (Z.ltb_spec 0 off) as [Hoff|Hoff].
    + destruct (SetRange _ _ _) as [o|er] eqn:E; [|done]. by rewrite (Hf _ Hg), (range_open _ _ _ Hoff E).
    + rewrite (Hf _ Hg), noRange_ok. replace off with 0 by lia. done.
Qed.

Lemma Get_missing s key off length data : storeView s !! key = None -> Get s key off length <> inl data.
Proof.
  intros Hn. assert (forall o, match GetObject (ms_client s) (ms_bucket s) key o with
    | inr er => inr er | inl (inr er) => inr er | inl (inl data) => inl data end <> inl data) as Hf.
  { intros o Hf. destruct (GetObject _ _ _ o) as [[x|er]|er] eqn:E; [|done|done]. by eapply get_missing. }
  unfold Get. destruct (_ || _); [|apply Hf]. destruct (SetRange _ _ _); [apply Hf|done].
Qed.

Lemma list_loop_spec objs keys ks : list_loop objs keys = inl ks -> exists ks', objs = map inl ks' /\ ks = keys ++ ks'.
Proof.
  revert keys. induction objs as [|[k|er] objs IH]; intros keys; cbn; [intros [= <-]; exists []; by rewrite app_nil_r| |done].
  intros (ks' & -> & ->)%IH. exists (k :: ks'). by rewrite <- app_assoc.
Qed.

Lemma list_loop_keys ks keys : exists ks', list_loop (map inl ks) keys = inl ks'.
Proof. revert keys. induction ks as [|k ks IH]; intros keys; [by eexists|apply IH]. Qed.

(** A range inside the object is never refused. *)
Lemma Get_answers s key off length d : answers (ms_client s) (ms_bucket s) -> storeView s !! key = Some d ->
  0 <= off -> off + Z.max 0 length <= zlen d -> exists got, Get s key off length = inl got.
Proof.
  intros Ha Hd Ho Hb. pose proof (view_small _ _ _ _ Hd) as Hsm. unfold Get. set (last := if 0 <? length then _ else _).
  assert ((0 <? off) || (0 <? length) = true -> exists o, SetRange off last noRange = inl o) as Hr.
  { intros Hor. apply range_accepted. unfold last. destruct (Z.ltb_spec 0 length); [right; rewrite int64_id by solve_int; lia|left].
    rewrite orb_false_r in Hor. apply Z.ltb_lt in Hor. done. }
  destruct (_ || _).
  - destruct (Hr eq_refl) as [o ->]. destruct (get_answers _ _ _ o _ Ha Hd) as [x ->]. by eexists.
  - destruct (get_answers _ _ _ noRange _ Ha Hd) as [x ->]. by eexists.
Qed.

#[export] Instance minio_object_store : ObjectStore (minioStore C) :=
  { osPut := Put; osGet := Get; osDelete key s := fst (Delete key s) }.

#[local] Obligation Tactic := idtac.
#[export] Program Instance minio_object_laws : ObjectStoreLaws (minioStore C) := { osView := storeView }.
Next Obligation. intros o o' key data. apply Put_view. Qed.
Next Obligation. intros o o' key data er. apply Put_others. Qed.
Next Obligation.
  intros o key off len data d Hg Hd Ho Hl Hb. rewrite (Get_range _ _ _ _ _ _ Hg Hd) by lia. by rewrite (proj2 (Z.ltb_lt _ _)).
Qed.
Next Obligation.
  intros o key k Hk. cbn. unfold Delete, storeView. destruct (RemoveObject _ _ _) as [c [er|]] eqn:E; cbn.
  - by eapply remove_fails.
  - rewrite (remove_ok _ _ _ _ E). by rewrite lookup_delete_ne.
Qed.

(** ** Properties *)


End Laws.

(** The scheme of the endpoint decides whether TLS is used and is not part of the
    host; without one it is not used. *)
Theorem splitScheme_correct host :
  splitScheme ("https://" +:+ host) = (host, true) /\ splitScheme ("http://" +:+ host) = (host, false) /\
  (String.prefix "http" host = false -> splitScheme host = (host, false)).
Proof.
  assert (forall pre s, String.prefix pre (pre +:+ s) = true) as Hp.
  { intros pre s. induction pre as [|a pre IH]; [by destruct s|]. change (String a pre +:+ s)%string with (String a (pre +:+ s)). cbn [String.prefix]. by destruct (Ascii.ascii_dec a a). }
  assert (forall pre s, TrimPrefix (pre +:+ s) pre = s) as Ht.
  { intros pre s. unfold TrimPrefix. rewrite Hp. apply string_drop_app. }
  unfold splitScheme. rewrite !Hp, !Ht. split_and!; [done|done|].
  assert (forall a b s, String.prefix a s = false -> String.prefix (a +:+ b) s = false) as Hno.
  { intros a b. induction a as [|x a IH]; intros s; [by destruct s|].
    change (String x a +:+ b)%string with (String x (a +:+ b)). destruct s as [|y s]; [done|]. cbn [String.prefix]. destruct (Ascii.ascii_dec x y); [apply IH|done]. }
  intros Hh. pose proof (Hno _ "s://"%string _ Hh) as H1. pose proof (Hno _ "://"%string _ Hh) as H2. change (String.prefix "https://" host = false) in H1. change (String.prefix "http://" host = false) in H2. by rewrite H1, H2.
Qed.

(** ** A client to run: buckets in memory *)

Abbreviation MemClient := (gmap string (gmap string (list byte))).
Abbreviation MemOpts := (option (Z * option Z)).

Definition memBucket (c : MemClient) (b : string) : gmap string (list byte) :=
  filter (fun x => zlen x.2 <= 5 * 2 ^ 40) (default ∅ (c !! b)).

(** What a listing answers for a key behind the prefix: without recursion, what is
    below a slash is cut there. *)
Fixpoint cutSlash (s : string) : string :=
  match s with
  | EmptyString => EmptyString
  | String c s => if Ascii.eqb c (Ascii.ascii_of_nat 47) then String c EmptyString else String c (cutSlash s)
  end.
Definition listed (o : ListObjectsOptions) (k : string) : string :=
  if lo_Recursive o then k else (lo_Prefix o +:+ cutSlash (TrimPrefix k (lo_Prefix o)))%string.

#[export] Instance mem_client : MinioClient MemClient MemOpts := {
  PutObject b key data n c := if zlen data <=? 5 * 2 ^ 40 then (<[b := <[key := data]> (default ∅ (c !! b))]> c, None) else (c, Some ErrIO);
  noRange := None;
  SetRange a b o := if (0 <? a) && (b =? 0) then inl (Some (a, None)) else if (0 <=? a) && (a <=? b) then inl (Some (a, Some b)) else inr ErrIO;
  GetObject c b key o := match memBucket c b !! key with Some d => inl (inl (rangeOf o d)) | None => inl (inr ErrIO) end;
  ListObjects c b o := map inl (map (listed o) (List.filter (startsWith (lo_Prefix o)) (map_to_list (memBucket c b)).*1));
  RemoveObject b key c := (<[b := delete key (default ∅ (c !! b))]> c, None) }.

Lemma memBucket_insert b m c : memBucket (<[b := m]> c) b = filter (fun x => zlen x.2 <= 5 * 2 ^ 40) m.
Proof. unfold memBucket. by rewrite lookup_insert_eq. Qed.

#[local] Obligation Tactic := idtac.
#[export] Program Instance mem_client_laws : MinioLaws MemClient MemOpts := { bucketView := memBucket; answers _ _ := True; rangeIn o := o }.
Next Obligation. intros c b key d [_ Hd]%map_lookup_filter_Some. done. Qed.
Next Obligation.
  intros b key data c c'. cbn. destruct (Z.leb_spec (zlen data) (5 * 2 ^ 40)) as [Hl|]; [|done]. intros [= <-].
  rewrite memBucket_insert. by apply map_filter_insert_True.
Qed.
Next Obligation. intros b key data n c c' er. cbn. destruct (_ <=? _); [done|]. by intros [= <- _]. Qed.
Next Obligation. intros b key data c _ Hl. cbn. by rewrite (proj2 (Z.leb_le _ _) Hl). Qed.
Next Obligation. done. Qed.
Next Obligation. intros o o' a Ha. cbn. rewrite (proj2 (Z.ltb_lt _ _) Ha). by intros [= <-]. Qed.
Next Obligation.
  intros o o' a b Hab. cbn. destruct (Z.ltb_spec 0 a), (Z.eqb_spec b 0); cbn; [lia|..];
    (rewrite (proj2 (Z.leb_le 0 a)), (proj2 (Z.leb_le a b)) by lia; by intros [= <-]).
Qed.
Next Obligation.
  intros o a b Hab. cbn. destruct ((0 <? a) && (b =? 0)) eqn:E; [by eexists|].
  destruct Hab as [[Ha ->]|Hab]; [rewrite (proj2 (Z.ltb_lt _ _) Ha) in E; done|].
  rewrite (proj2 (Z.leb_le 0 a)), (proj2 (Z.leb_le a b)) by lia. by eexists.
Qed.
Next Obligation. intros c b key o d data Hd. cbn. rewrite Hd. by intros [= <-]. Qed.
Next Obligation. intros c b key o data Hd. cbn. by rewrite Hd. Qed.
Next Obligation. intros c b key o d _ Hd. cbn. rewrite Hd. by eexists. Qed.
Next Obligation.
  intros c b prefix ks. cbn. intros Hk%(inj (map inl)) k. rewrite <- Hk, map_id, list_elem_of_In, filter_In, <- list_elem_of_In, list_elem_of_fmap.
  split.
  - intros [([k' d] & -> & Hin%elem_of_map_to_list) Hp]. split; [done|by eexists].
  - intros [Hp [d Hd]]. split; [|done]. exists (k, d). split; [done|by apply elem_of_map_to_list].
Qed.
Next Obligation. intros c b o _. cbn. by eexists. Qed.
Next Obligation. intros b key c c'. cbn. intros [= <-]. rewrite memBucket_insert. apply map_filter_delete. Qed.
Next Obligation. done. Qed.
Next Obligation. done. Qed.

Definition demoS3 : minioStore MemClient :=
  fst (Put "data/x" (bytes_of_string "hello") (mkMinio ∅ "kafka-data")).


(** Without recursion a listing does not answer the keys below a slash. *)
Example flat_listing :
  ListObjects (ms_client demoS3) (ms_bucket demoS3) (mkListOpts "" false) = [inl "data/"%string] /\
  List demoS3 "" = inl ["data/x"%string].
Proof. split; vm_compute; reflexivity. Qed.
