(* ===== verification/Backend.v ===== *)
(** * internal/storage/backend.go: the interface of a partition's storage

    The broker and the replication layer use a partition's log through an
    interface with two implementations, the file log ([Log]) and the object log
    ([Objects]).  The class [Backend] is the interface, [BackendLaws] what a caller
    may rely on, stated over the list of batches a log holds; both
    implementations are proved to keep the laws.  Its client here is the follower
    ([Fetcher]). *)

From S2P Require Import Prelude Record Kbytes Segment Log Protocol Replication Wal Fsm ObjectIndex Objects Uploads.

(** ** The interface *)

(** What retention sees of the world: the clock and the files' times, in
    nanoseconds. *)
Record clock := mkClock { ck_now : Z; ck_modTime : Z -> option Z }.

(** [E]: the outcomes of the file calls of a write. *)
Class Backend (E B : Type) := {
  bAppend : E -> list byte -> B -> go (B * (Z * option error));
  bAppendReplica : E -> list byte -> B -> B * (Z * option error);
  bRead : Z -> Z -> B -> go (list byte * option error);
  bHighWatermark : B -> Z;
  bSetHighWatermark : Z -> B -> B;
  bHoldHighWatermark : B -> B;
  bOffsetForTimestamp : Z -> B -> go (Z * bool);
  bEarliestOffset : B -> Z;
  bLatestOffset : B -> Z;
  bSize : B -> Z;
  bFlush : bool -> B -> B * option error;
  bEnforceRetention : clock -> Z -> Z -> B -> B * option error }.

(** A read inside the range returns whole batches from the one that holds the
    offset on: at least one, and no more bytes than asked unless one is larger. *)
Definition read_run (off max : Z) (bs : list (list byte)) (r : go (list byte * option error)) : Prop :=
  exists b rs tl, r = Ret (concat (b :: rs), None) /\ drop_before off bs = (b :: rs) ++ tl /\
    BaseOffset (headerOf b) <= off < next_of b /\ (rs = [] \/ zlen (concat (b :: rs)) <= max).

(** [holds b o n bs]: the log holds the batches [bs], which cover [o] to [n].
    [takes b x]: it has room for a produced batch; [fits b rs]: for a run of
    replicated ones.  [outage b er]: a fetch of its data fails with [er]. *)
Class BackendLaws (E B : Type) `{Backend E B} := {
  fine : E;
  holds : B -> Z -> Z -> list (list byte) -> Prop;
  takes : B -> list byte -> Prop;
  fits : B -> list (list byte) -> Prop;
  outage : B -> error -> Prop;
  b_range b o n bs : holds b o n bs ->
    bEarliestOffset b = o /\ bLatestOffset b = n /\ chained o bs n /\ 0 <= o /\ n < 2 ^ 63 /\ bHighWatermark b <= n;
  b_append b o n bs x : holds b o n bs -> producer_ok x -> takes b x ->
    exists b' x', bAppend fine x b = Ret (b', (n, None)) /\ patched x n x' /\
      holds b' o (n + RecordCount (headerOf x)) (bs ++ [x']);
  b_append_fails b b' o n bs e x z er : holds b o n bs -> bAppend e x b = Ret (b', (z, Some er)) -> holds b' o n bs;
  b_replica b o n bs x rs : holds b o n bs -> batch_at n x -> fits b (x :: rs) ->
    exists b', bAppendReplica fine x b = (b', (next_of x, None)) /\ holds b' o (next_of x) (bs ++ [x]) /\
      fits b' rs /\ bHighWatermark b' = bHighWatermark b;
  b_replica_faults b b' o n bs e x rs z r : holds b o n bs -> batch_at n x -> fits b (x :: rs) -> bAppendReplica e x b = (b', (z, r)) ->
    match r with
    | None => bAppendReplica fine x b = (b', (z, None))
    | Some _ => holds b' o n bs /\ fits b' (x :: rs) /\ bHighWatermark b' = bHighWatermark b
    end;
  b_duplicate b o n bs e x : holds b o n bs -> batch_wf x -> BaseOffset (headerOf x) < n -> bAppendReplica e x b = (b, (n, None));
  b_gap b o n bs e x : holds b o n bs -> batch_wf x -> n < BaseOffset (headerOf x) ->
    bAppendReplica e x b = (b, (n, Some ErrReplicaGap));
  b_read b o n bs off max : holds b o n bs -> in_int 32 max ->
    (off = n -> bRead off max b = Ret ([], None)) /\
    (off < o \/ n < off -> bRead off max b = Ret ([], Some ErrOffsetOutOfRange)) /\
    (o <= off < n -> (exists er, outage b er /\ bRead off max b = Ret ([], Some er)) \/ read_run off max bs (bRead off max b));
  b_time b o n bs ts : holds b o n bs -> (forall er, ~ outage b er) ->
    bOffsetForTimestamp ts b = Ret (match ts_spec ts bs with Some x => (x, true) | None => (0, false) end);
  b_watermark b o n bs h rs : holds b o n bs -> fits b rs ->
    holds (bSetHighWatermark h b) o n bs /\ fits (bSetHighWatermark h b) rs /\
    bHighWatermark (bSetHighWatermark h b) = Z.max (bHighWatermark b) (Z.min h n);
  b_hold b o n bs : holds b o n bs -> holds (bHoldHighWatermark b) o n bs;
  b_flush b o n bs ok : holds b o n bs -> holds (bFlush ok b).1 o n bs }.

(** ** The file log *)

#[export] Instance file_backend : Backend io Log := {
  bAppend := Log.Append; bAppendReplica := Log.AppendReplica; bRead := Log.Read;
  bHighWatermark := Log.HighWatermark; bSetHighWatermark := Log.SetHighWatermark;
  bHoldHighWatermark := Log.HoldHighWatermark; bOffsetForTimestamp := Log.OffsetForTimestamp;
  bEarliestOffset := Log.EarliestOffset; bLatestOffset := Log.LatestOffset; bSize := Log.Size;
  bFlush := Log.Flush; bEnforceRetention ck age max l := (Log.EnforceRetention (ck_now ck) (ck_modTime ck) age max l, None) }.

Definition file_holds (l : Log) (o n : Z) (bs : list (list byte)) : Prop :=
  exists bss abs, log_rep l bss abs /\ contents bss abs = bs /\ EarliestOffset l = o /\ nextOffset l = n.
Definition file_fits (l : Log) (rs : list (list byte)) : Prop :=
  exists n, chained (nextOffset l) rs n /\ room_all l rs n.

Lemma earliest_nonneg l bss bs : log_rep l bss bs -> 0 <= EarliestOffset l.
Proof.
  intros [(cs & a & Hs & Hc & Ha) _]. destruct cs as [|c cs].
  - cbn in Hc. destruct bss; [|done]. rewrite Hc. apply (sr_base _ _ _ Ha).
  - destruct bss as [|b bss]; [done|]. cbn in Hc. destruct Hc as (<- & _ & x & Hr & _). apply (sr_base _ _ _ Hr).
Qed.

Lemma file_read l o n bs off max : file_holds l o n bs -> in_int 32 max ->
  (off = n -> Log.Read off max l = Ret ([], None)) /\
  (off < o \/ n < off -> Log.Read off max l = Ret ([], Some ErrOffsetOutOfRange)) /\
  (o <= off < n -> read_run off max bs (Log.Read off max l)).
Proof.
  intros (bss & abs & Hr & <- & <- & <-) Hmax. pose proof (chained_le _ _ _ (log_contents _ _ _ Hr)). split_and!.
  - intros ->. unfold Log.Read. by rewrite Z.eqb_refl.
  - intros Hout. unfold Log.Read. rewrite (proj2 (Z.eqb_neq _ _)) by lia. unfold EarliestOffset in *.
    destruct Hout as [Hlt|Hlt]; apply Z.ltb_lt in Hlt; by rewrite Hlt, ?orb_true_r.
  - intros Hin. destruct (Read_spec l bss abs Hr off max Hmax Hin) as (rs & tl & b & rs' & -> & Hd & -> & Hb & Hsz).
    by exists b, rs', tl.
Qed.

#[local] Obligation Tactic := idtac.
#[export] Program Instance file_laws : BackendLaws io Log := {
  fine := io_ok; holds := file_holds; takes l x := room l x (RecordCount (headerOf x)); fits := file_fits;
  outage _ _ := False }.
Next Obligation.
  intros l o n bs (bss & abs & Hr & <- & <- & <-). destruct (log_active _ _ _ Hr) as (Ha & _).
  split_and!; try done; [by apply log_contents|by eapply earliest_nonneg|apply (sr_bound _ _ _ Ha)|apply Hr].
Qed.
Next Obligation.
  intros l o n bs x (bss & abs & Hr & <- & <- & <-) Hx Hroom.
  destruct (Append_stores x l bss abs Hr Hx Hroom) as (l' & x' & bss' & bs' & H1 & [_ H2] & H3 & H4 & H5 & _ & H7 & _).
  exists l', x'. split_and!; [done|done|]. by exists bss', bs'.
Qed.
Next Obligation.
  intros l l' o n bs e x z er (bss & abs & Hr & <- & <- & <-) Ha.
  destruct (Append_rejected _ _ _ _ _ _ _ _ Hr Ha) as (_ & Hm & bss' & bs' & Hr' & Hc).
  exists bss', bs'. split_and!; [done|done|apply Hm|apply Hm].
Qed.
Next Obligation.
  intros l o n bs x rs (bss & abs & Hr & <- & <- & <-) Hat (x1 & [_ Hc] & [R1 R2 R3]).
  cbn [concat] in R1. rewrite zlen_app in R1. pose proof (zlen_nonneg (concat rs)). pose proof (chained_le _ _ _ Hc).
  pose proof (ba_span _ _ Hat). assert (room l x (next_of x - nextOffset l)) as Hroom by (split; lia).
  destruct (AppendReplica_stores x l bss abs Hr Hat Hroom) as (l' & bss' & bs' & Ha & Hr' & Hc' & Hn & Hh & He).
  destruct (AppendReplica_active _ _ _ _ _ _ Hr Hat Hroom Ha) as [Hsz Hb].
  exists l'. split_and!; [done|by exists bss', bs'| |done]. exists x1. rewrite Hn. split; [done|split; lia].
Qed.
Next Obligation.
  intros l l' o n bs e x rs z [er|] (bss & abs & Hr & <- & <- & <-) Hat (x1 & Hc & [R1 R2 R3]) Ha; [|by eapply AppendReplica_success].
  destruct (AppendReplica_rejected _ _ _ _ _ _ _ _ Hr Ha) as (Hm & bss' & bs' & Hr' & Hc').
  destruct (AppendReplica_rejected_active _ _ _ _ _ _ _ _ Hr Hat Ha) as [Hsz Hb].
  split_and!; [|exists x1; rewrite (sm_next _ _ Hm); split; [done|split; lia]|apply Hm].
  exists bss', bs'. split_and!; [done|done|apply Hm|apply Hm].
Qed.
Next Obligation.
  intros l o n bs e x (bss & abs & Hr & <- & <- & <-) Hw Hlt. cbn. unfold Log.AppendReplica. rewrite batch_wf_header by done. by ltb_true.
Qed.
Next Obligation.
  intros l o n bs e x (bss & abs & Hr & <- & <- & <-) Hw Hlt. cbn. unfold Log.AppendReplica. rewrite batch_wf_header by done. ltb_false. by ltb_true.
Qed.
Next Obligation.
  intros l o n bs off max Hh Hmax. destruct (file_read _ _ _ _ off max Hh Hmax) as (H1 & H2 & H3). split_and!; [done|done|]. intros Hin. right. by apply H3.
Qed.
Next Obligation.
  intros l o n bs ts (bss & abs & Hr & <- & <- & <-) _. destruct Hr as [(cs & a & Hs & Hc & Ha) _]. cbn. unfold Log.OffsetForTimestamp. rewrite Hs.
  by eapply ts_segments_spec.
Qed.
Next Obligation.
  intros l o n bs h rs (bss & abs & Hr & <- & <- & <-) (x1 & Hc & [R1 R2 R3]).
  destruct (SetHighWatermark_rep h l bss abs Hr) as (G1 & G2 & G3 & G4). cbn. split_and!; [| |exact G2].
  - exists bss, abs. split_and!; [done|done|unfold EarliestOffset, firstSegment; by rewrite G4|done].
  - exists x1. rewrite G3. split; [done|]. split; unfold active in *; rewrite ?G4; done.
Qed.
Next Obligation.
  intros l o n bs (bss & abs & [Hs Hh] & Hc & He & Hn). by exists bss, abs.
Qed.
Next Obligation.
  intros l o n bs ok (bss & abs & Hr & Hc & He & Hn). cbn. unfold Log.Flush. destruct (negb (dirty l)); [by exists bss, abs|].
  destruct (negb ok); [by exists bss, abs|]. cbn. destruct Hr as [Hs Hh]. by exists bss, abs.
Qed.

(** ** The object log *)

Section ObjectBackend.
Context {OS IS : Type} `{ObjectStoreLaws OS} `{IndexStoreLaws IS}.

#[export] Instance object_backend : Backend wres (ObjectLog * Storage OS IS) := {
  bAppend e x b := r ← Objects.Append e x b.1 b.2; let '(l, s, z) := r in Ret ((l, s), z);
  bAppendReplica e x b := Objects.AppendReplica e x b.1 b.2;
  bRead off max b := Objects.Read off max b.1 b.2;
  bHighWatermark b := ol_hwm b.1;
  bSetHighWatermark h b := (Objects.SetHighWatermark h b.1, b.2);
  bHoldHighWatermark b := (Objects.HoldHighWatermark b.1, b.2);
  bOffsetForTimestamp ts b := r ← Objects.OffsetForTimestamp ts b.1 b.2; Ret (match r with Some x => (x, true) | None => (0, false) end);
  bEarliestOffset b := ol_earliest b.1;
  bLatestOffset b := ol_next b.1;
  bSize b := Objects.Size b.1 b.2;
  bFlush ok b := (b, if ok then None else Some ErrIO);
  bEnforceRetention ck age max b := Objects.EnforceRetention (ck_now ck / 1000000) age max b.1 b.2 }.

Abbreviation okey l := (indexKey (ol_topic l) (ol_partition l)).

Definition object_holds (b : ObjectLog * Storage OS IS) (o n : Z) (bs : list (list byte)) : Prop :=
  exists bss pbs, log_holds b.2 b.1 o n bss pbs /\ contents bss pbs = bs.

(** The bytes buffered for the partition and those of [rs] fit an int32. *)
Definition buffer_room (l : ObjectLog) (s : Storage OS IS) (rs : list (list byte)) : Prop :=
  zlen (bytes_of_string (ol_topic l)) < 2 ^ 16 /\ in_int 32 (ol_partition l) /\
  zlen (pendingData s (okey l)) + zlen (concat rs) < 2 ^ 31.

Definition object_takes (b : ObjectLog * Storage OS IS) (x : list byte) : Prop :=
  buffer_room b.1 b.2 [x] /\ ol_next b.1 + RecordCount (headerOf x) < 2 ^ 63.
Definition object_fits (b : ObjectLog * Storage OS IS) (rs : list (list byte)) : Prop := buffer_room b.1 b.2 rs.
Definition object_outage (b : ObjectLog * Storage OS IS) (er : error) : Prop :=
  exists r, r ∈ refsFor (st_index b.2) (ol_topic b.1) (ol_partition b.1) /\
    osGet (st_store b.2) (sr_Key r) (sr_Position r) (sr_Length r) = inr er.

Lemma pendingData_holds s l o n bss pbs : log_holds s l o n bss pbs -> pendingData s (okey l) = concat pbs.
Proof.
  intros [[(m & _ & _ & _ & Hp) _] _ _]. unfold pendingData. destruct (st_pending s !! _); [by destruct Hp as (_ & -> & _)|by subst pbs].
Qed.

Lemma buffer_log_room l s bss pbs o n x rs count : log_holds s l o n bss pbs -> buffer_room l s (x :: rs) ->
  ol_next l + count < 2 ^ 63 -> log_room l pbs x count.
Proof.
  intros Hl (Ht & Hp & Hb) Hc. rewrite (pendingData_holds _ _ _ _ _ _ Hl) in Hb.
  cbn [concat] in Hb. rewrite zlen_app in Hb. pose proof (zlen_nonneg (concat rs)). split; try done. lia.
Qed.

#[export] Program Instance object_laws : BackendLaws wres (ObjectLog * Storage OS IS) := {
  fine := WOk; holds := object_holds; takes := object_takes; fits := object_fits; outage := object_outage }.
Next Obligation.
  intros [l s] o n bs (bss & pbs & [Hp [Hn He Hh] Hr] & <-). cbn in *. split_and!; try done; [by eapply part_chained|lia..].
Qed.
Next Obligation.
  intros [l s] o n bs x (bss & pbs & Hl & <-) Hx [Hb Hc]. pose proof (buffer_log_room _ _ _ _ _ _ _ _ _ Hl Hb Hc) as Hroom.
  destruct (object_Append _ _ _ _ _ _ _ Hl Hx Hroom) as (x' & l' & s' & H1' & _ & H2' & _ & _ & H3' & _).
  exists (l', s'), x'. cbn in *. rewrite H1'. split_and!; [done|done|]. exists bss, (pbs ++ [x']). split; [exact H3'|].
  unfold contents. by rewrite app_assoc.
Qed.
Next Obligation.
  intros [l s] [l' s'] o n bs e x z er (bss & pbs & [Hp Hh Hr] & <-). cbn in *. unfold Objects.Append.
  destruct (patchBatch x _) as [x'| |]; cbn [mbind go_bind]; [|done..]. destruct (ParseHeader x') as [h [er'|]].
  { intros [= <- <- <- <-]. by exists bss, pbs. }
  unfold storage_append. destruct (wal_append e _ _) as [w [er'|]]; [|done]. intros [= <- <- <- <-].
  exists bss, pbs. split; [|done]. split; [by eapply part_rep_frame|done|done].
Qed.
Next Obligation.
  intros [l s] o n bs x rs (bss & pbs & Hl & <-) Hat Hb.
  assert (log_room l pbs x (next_of x - n)) as Hroom.
  { apply (buffer_log_room _ _ _ _ _ _ _ rs _ Hl Hb). rewrite (ho_next _ _ _ (lh_handle _ _ _ _ _ _ Hl)). pose proof (ba_span _ _ Hat). cbn. lia. }
  destruct (object_AppendReplica _ _ _ _ _ _ _ Hl Hat Hroom) as (l' & s' & H1' & H2' & _ & H3' & H4' & Ht & Hp & _).
  exists (l', s'). cbn in *. split_and!; [done| | |done].
  - exists bss, (pbs ++ [x]). split; [exact H3'|]. unfold contents. by rewrite app_assoc.
  - destruct Hb as (G1 & G2 & G3). unfold object_fits, buffer_room. cbn [fst snd] in *.
    rewrite (pendingData_holds _ _ _ _ _ _ H3'), Ht, Hp. rewrite (pendingData_holds _ _ _ _ _ _ Hl) in G3.
    cbn [concat] in G3. rewrite concat_app. cbn [concat]. rewrite app_nil_r. rewrite !zlen_app in *. split_and!; try done. lia.
Qed.
Next Obligation.
  intros [l s] [l' s'] o n bs e x rs z r (bss & pbs & [Hp Hh Hr] & <-) Hat Hf. cbn in *. unfold Objects.AppendReplica, storage_append.
  rewrite (batch_wf_header x) by apply Hat. rewrite (ho_next _ _ _ Hh), (ba_base _ _ Hat), Z.ltb_irrefl.
  destruct e as [|k]; cbn [wal_append]; intros [= <- <- <- <-]; [done|].
  split_and!; [|done|done]. exists bss, pbs. split; [|done]. split; [by eapply part_rep_frame|done|done].
Qed.
Next Obligation.
  intros [l s] o n bs e x (bss & pbs & [_ [Hn _ _] _] & _) Hw Hlt. cbn [bAppendReplica object_backend fst snd] in *. unfold Objects.AppendReplica.
  rewrite batch_wf_header, Hn by done. by ltb_true.
Qed.
Next Obligation.
  intros [l s] o n bs e x (bss & pbs & [_ [Hn _ _] _] & _) Hw Hlt. cbn [bAppendReplica object_backend fst snd] in *. unfold Objects.AppendReplica.
  rewrite batch_wf_header, Hn by done. ltb_false. by ltb_true.
Qed.
Next Obligation.
  intros [l s] o n bs off max (bss & pbs & Hl & <-) Hmax. cbn [fst snd] in *.
  destruct (object_Read _ _ _ _ _ _ off max Hl Hmax) as (G1 & G2 & G3). split_and!; [done|done|]. intros Hin.
  destruct (G3 Hin) as [(r & er & Hr & Hg & Hrd)|Hrun]; [left; exists er; split; [by exists r|done]|by right].
Qed.
Next Obligation.
  intros [l s] o n bs ts (bss & pbs & Hl & <-) Hout. cbn [fst snd] in *.
  destruct (offsetForTimestamp_spec _ _ _ _ _ _ _ ts (lh_part _ _ _ _ _ _ Hl)) as [(r & er & Hr & Hg & _)|Ht].
  - exfalso. apply (Hout er). by exists r.
  - cbn. unfold Objects.OffsetForTimestamp. by rewrite Ht.
Qed.
Next Obligation.
  intros [l s] o n bs h rs (bss & pbs & [Hp [Hn He Hh] Hr] & <-) Hf. cbn in *. unfold Objects.SetHighWatermark, setNext. rewrite Hn.
  split_and!.
  - exists bss, pbs. split; [|done]. split; [|split|done]; cbn;
      repeat match goal with |- context [if ?b then _ else _] => destruct b eqn:? end; cbn; try done; lia.
  - unfold object_fits, buffer_room in *. cbn [fst snd] in *. by destruct (ol_hwm l <? _).
  - destruct (Z.ltb_spec n h); [destruct (Z.ltb_spec (ol_hwm l) n)|destruct (Z.ltb_spec (ol_hwm l) h)]; cbn; lia.
Qed.
Next Obligation.
  intros [l s] o n bs (bss & pbs & [Hp [Hn He Hh] Hr] & Hc). exists bss, pbs. split; [|done]. by split.
Qed.
Next Obligation. intros [l s] o n bs ok Hh. exact Hh. Qed.

End ObjectBackend.
