(* ===== verification/Fetcher.v ===== *)
(** * internal/replication/replication.go: the life of a fetcher

    A fetcher follows one partition: it resolves the leader, opens a session on a
    connection and replicates in rounds until it is stopped, leadership moves or
    something fails; then it backs off and resolves again.  [session] and [run] are
    those two loops on any [Backend].  What the fetcher cannot control is an
    argument: each round's [roundIn] says whether it was stopped, what the
    resolvers answered, whether the request was written, what bytes arrived for
    it and what the file calls of the appends did. *)

From S2P Require Import Prelude Record Kbytes Segment Log Protocol Replication Wal Fsm ObjectIndex Objects Uploads Backend.

Section Follower.
Context {E B : Type} `{Backend E B}.

(** The callback of [record.Iterate] in a session. *)
Definition applyBatchOn (e : list byte -> E) (st : B * option error) (batch : list byte) : go ((B * option error) * option error) :=
  let '(log, applyErr) := st in
  match bAppendReplica (e batch) batch log with
  | (log', (_, Some er)) => Ret ((log', Some er), Some er)
  | (log', (_, None)) => Ret ((log', applyErr), None)
  end.

(** What a session does with one response; [false]: it ends. *)
Definition applyResponseOn (e : list byte -> E) (res : fetchPartitionResult) (log : B) : go (B * bool) :=
  if negb (r_errorCode res =? CodeNone) then Ret (log, false)
  else
    let records := default [] (r_records res) in
    if 0 <? zlen records then
      it ← Iterate records (applyBatchOn e) (log, None);
      let '((log', applyErr), _, _) := it in
      match applyErr with
      | Some _ => Ret (log', false)
      | None => Ret (bSetHighWatermark (r_hwm res) log', true)
      end
    else Ret (bSetHighWatermark (r_hwm res) log, true).

(** One round as the world answers it.  [rd_reply]: the bytes that arrive for a
    request before the connection ends or the deadline passes. *)
Record roundIn := mkRound {
  rd_stopped : bool; rd_leader : option (Z * string); rd_log : bool; rd_write : bool;
  rd_reply : list byte -> list byte; rd_io : list byte -> E }.

(** The loop of [session] on the bytes [buf] that have arrived and are not read.
    The answer: the log, and whether the session has ended ([false]: it is still
    open when [rs] runs out). *)
Fixpoint session_loop (self : Z) (topic : string) (p : Z) (addr : string) (rs : list roundIn) (corr : Z) (buf : list byte) (log : B)
    : go (B * bool) :=
  match rs with
  | [] => Ret (log, false)
  | r :: rs =>
    if rd_stopped r then Ret (log, true)
    else if negb (keepSession self addr (rd_leader r)) then Ret (log, true)
    else if negb (rd_log r) then Ret (log, true)
    else
      let corr := int32 (corr + 1) in
      let req := encodeFetch self topic p (bLatestOffset log) corr in
      if negb (rd_write r) then Ret (log, true)
      else
        match readFetchResponse (buf ++ rd_reply r req) with
        | (inr _, _) => Ret (log, true)
        | (inl res, buf) =>
          x ← applyResponseOn (rd_io r) res log;
          match x with
          | (log', true) => session_loop self topic p addr rs corr buf log'
          | (log', false) => Ret (log', true)
          end
        end
  end.

Definition session (self : Z) (topic : string) (p : Z) (addr : string) (dial : bool) (rs : list roundIn) (log : B) : go (B * bool) :=
  if dial then session_loop self topic p addr rs 0 [] log else Ret (log, true).

(** One pass of [run]: whether the fetcher was stopped, the leader, the session and
    whether it was stopped while backing off. *)
Record turnIn := mkTurn {
  tn_stopped : bool; tn_leader : option (Z * string); tn_dial : bool; tn_rounds : list roundIn; tn_sleep : bool }.

Definition attempt (self : Z) (topic : string) (p : Z) (t : turnIn) (log : B) : go (B * bool) :=
  match tn_leader t with
  | Some (nodeID, addr) => if nodeID =? self then Ret (log, true) else session self topic p addr (tn_dial t) (tn_rounds t) log
  | None => Ret (log, true)
  end.

Fixpoint run (self : Z) (topic : string) (p : Z) (ts : list turnIn) (log : B) : go (B * bool) :=
  match ts with
  | [] => Ret (log, false)
  | t :: ts =>
    if tn_stopped t then Ret (log, true)
    else
      x ← attempt self topic p t log;
      let '(log', ended) := x in
      if negb ended then Ret (log', false)
      else if tn_sleep t then Ret (log', true) else run self topic p ts log'
  end.

End Follower.
Arguments roundIn : clear implicits.
Arguments turnIn : clear implicits.

(** On the file log this is the session step of [Replication]. *)
Lemma applyResponseOn_file e res l : applyResponseOn e res l = applyResponse e res l.
Proof. reflexivity. Qed.

(** ** Prefixes of one history *)

(** Two prefixes of a chain are nested as their ends are. *)
Lemma chained_nested o hist fs m pre k : fs `prefix_of` hist -> chained o fs m -> pre `prefix_of` hist -> chained o pre k -> k <= m ->
  exists fs2, fs = pre ++ fs2 /\ chained k fs2 m.
Proof.
  intros Hf Hcf Hp Hcp Hle. destruct (prefix_weak_total fs pre hist Hf Hp) as [[x ->]|[x ->]].
  - apply chained_app in Hcp as (m' & Hm & Hx). pose proof (chained_det _ _ _ _ Hm Hcf) as ->.
    destruct x as [|b x]; [|pose proof (chained_lt _ _ _ Hx ltac:(done)); lia].
    exists []. rewrite !app_nil_r. split; [done|]. cbn in Hx. by subst.
  - exists x. split; [done|]. apply chained_app in Hcf as (k' & Hk & Hx). by rewrite (chained_det _ _ _ _ Hcp Hk).
Qed.

Section Reading.
Context {E B : Type} `{BackendLaws E B}.

(** A leader's log as a window of the history. *)
Definition window (o : Z) (hist : list (list byte)) (L : B) : Prop :=
  exists oL nL bs pre post, holds L oL nL bs /\ hist = pre ++ bs ++ post /\ chained o pre oL /\ Forall (fun b => zlen b < 2 ^ 31) bs.

(** A fetch at the end of a prefix of the history is refused or answers the next
    batches of the history. *)
Lemma window_reads o hist N L fs ds m :
  chained o hist N -> window o hist L -> hist = fs ++ ds -> chained o fs m ->
  (exists er, bRead m fetchMaxBytes L = Ret ([], Some er)) \/
  (exists rs tl x, bRead m fetchMaxBytes L = Ret (concat rs, None) /\ ds = rs ++ tl /\ chained m rs x /\ zlen (concat rs) < 2 ^ 31).
Proof.
  intros HN (oL & nL & bs & pre & post & HL & Hh & Hpre & Hsz) Hsplit Hf.
  assert (in_int 32 fetchMaxBytes) as Hmax by (unfold fetchMaxBytes; split; vm_compute; done).
  destruct (b_read _ _ _ _ m _ HL Hmax) as (Hend & Hout & Hin). destruct (b_range _ _ _ _ HL) as (_ & _ & Hc & _ & _).
  destruct (decide (m = nL)) as [->|Hne].
  { right. exists [], ds, nL. split_and!; [by apply Hend|done|done|by vm_compute]. }
  destruct (decide (m < oL \/ nL < m)) as [Ho|Hi]; [left; eexists; by apply Hout|].
  destruct (Hin ltac:(lia)) as [(er & _ & Hr)|(b & rs & tl & Hr & Hdrop & _ & Hlen)]; [by left; exists er|]. right.
  destruct (chained_nested o hist fs m pre oL) as (fs2 & -> & Hf2); [by exists ds|done|by exists (bs ++ post)|done|lia|].
  assert (bs ++ post = fs2 ++ ds) as Heq by (apply (app_inv_head pre); by rewrite <- Hh, Hsplit, app_assoc).
  destruct (prefix_weak_total fs2 bs (bs ++ post)) as [[d2 ->]|[d2 ->]]; [by exists ds|by exists post| |].
  - rewrite drop_before_skip in Hdrop by (by eapply chained_below). apply chained_app in Hc as (m' & Hm & Hd2).
    pose proof (chained_det _ _ _ _ Hm Hf2) as ->. rewrite (drop_before_none _ _ _ _ Hd2) in Hdrop by lia. subst d2.
    rewrite <- app_assoc in Heq. apply app_inv_head in Heq. rewrite <- app_assoc in Heq.
    apply chained_app in Hd2 as (x & Hx & _). exists (b :: rs), (tl ++ post), x. split_and!; [done|done|done|].
    destruct Hlen as [->|Hlen]; [|assert (fetchMaxBytes < 2 ^ 31) by (by vm_compute); lia].
    apply Forall_app in Hsz as [_ Hsz]. apply Forall_app in Hsz as [[Hb _]%Forall_cons _]. cbn [concat]. by rewrite app_nil_r.
  - apply chained_app in Hf2 as (n' & Hn & Hd2). pose proof (chained_det _ _ _ _ Hn Hc) as ->. pose proof (chained_le _ _ _ Hd2). lia.
Qed.
End Reading.

(** ** Frames on the wire *)

Section Leader.
Context {E B : Type} `{Backend E B}.

(** What [buildFetch] answers a replica for one partition that fetches at [off]
    with the fetcher's byte limit.  The high watermark and the log start are read
    after the batches: [hwm] and [start] are what they are then.  A read that fails
    otherwise than by its offset is logged and answered without an error code; no
    data is [nil] on the wire. *)
Definition leaderAnswer (p off hwm start : Z) (L : B) : go FetchPartitionResp :=
  '(data, err) ← bRead off fetchMaxBytes L;
  let code := if bool_decide (err = Some ErrOffsetOutOfRange) then CodeOffsetOutOfRange else CodeNone in
  let records := match data with [] => None | _ => Some data end in
  Ret (mkFetchPartitionResp p code hwm hwm start records).

(** A node that does not lead the partition, or cannot open it, answers a code. *)
Definition leaderRefusal (p code : Z) : FetchPartitionResp := mkFetchPartitionResp p code 0 0 0 None.

Definition answerFrame (topic : string) (corr : Z) (pr : FetchPartitionResp) : list byte :=
  fetchFrame corr (mkFetchResponse 0 0 0 [mkFetchTopicResp topic [pr]]).

(** What the connection then writes: the frame of the answer, nothing when the read
    panics.  [ReplicaFetch] shows it of the server's connection loop and handler. *)
Definition leaderFrame (topic : string) (p corr off hwm start : Z) (L : B) : list byte :=
  match leaderAnswer p off hwm start L with
  | Ret pr => answerFrame topic corr pr
  | _ => []
  end.
End Leader.

(** A frame cut short is no response. *)
Lemma readFetchResponse_cut k corr resp : zlen (fetchFrame corr resp) < 2 ^ 32 -> (k < length (fetchFrame corr resp))%nat ->
  readFetchResponse (take k (fetchFrame corr resp)) = (inr ErrEOF, []).
Proof.
  unfold fetchFrame. set (payload := Finish _). intros Hsz Hk. rewrite zlen_app, zlen_be_put in Hsz.
  assert (length (be_put 4 (zlen payload)) = 4%nat) as Hl4 by (pose proof (zlen_be_put 4 (zlen payload)); unfold zlen in *; lia).
  rewrite length_app, Hl4 in Hk. unfold readFetchResponse. destruct (decide (k < 4)%nat) as [Hlt|Hge].
  - assert (ReadFull 4 (take k (be_put 4 (zlen payload) ++ payload)) = None) as ->; [|done].
    unfold ReadFull. rewrite (proj2 (Z.ltb_lt _ _)); [done|]. unfold zlen. rewrite length_take. lia.
  - rewrite take_app, take_ge, Hl4 by lia. rewrite ReadFull_app by (by rewrite zlen_be_put).
    pose proof (zlen_nonneg payload). rewrite be_get_put, Z.mod_small by (change (256 ^ Z.of_nat 4) with (2 ^ 32); lia).
    assert (ReadFull (zlen payload) (take (k - 4) payload) = None) as ->; [|done].
    unfold ReadFull. rewrite (proj2 (Z.ltb_lt _ _)); [done|]. unfold zlen. rewrite length_take. lia.
Qed.

(** A whole or a cut frame: the response or none. *)
Lemma readFetchResponse_any k corr resp : in_int 32 corr -> FetchResponse_fits resp -> zlen (fetchFrame corr resp) < 2 ^ 32 ->
  readFetchResponse (take k (fetchFrame corr resp)) = (inr ErrEOF, []) \/
  readFetchResponse (take k (fetchFrame corr resp)) = (inl (firstResult (resultsOf resp)), []).
Proof.
  intros Hc Hf Hsz. destruct (decide (k < length (fetchFrame corr resp))%nat) as [Hk|Hk]; [left; by apply readFetchResponse_cut|right].
  rewrite take_ge by lia. rewrite <- (app_nil_r (fetchFrame corr resp)). by apply readFetchResponse_frame.
Qed.

(** ** Applying a run of the history *)

Section Applying.
Context {E B : Type} `{BackendLaws E B}.

(** [follows hist o F ds]: the follower holds the history up to its last batches
    [ds], for which it has room. *)
Definition follows (hist : list (list byte)) (o : Z) (F : B) (ds : list (list byte)) : Prop :=
  exists m fs, hist = fs ++ ds /\ holds F o m fs /\ fits F ds.

Lemma follows_range hist o F ds : follows hist o F ds -> in_int 64 (bLatestOffset F).
Proof.
  intros (m & fs & _ & Hh & _). destruct (b_range _ _ _ _ Hh) as (_ & -> & Hc%chained_le & Ho & Hm & _). solve_int.
Qed.

Lemma follows_step hist o F ds x e : follows hist o F (x :: ds) -> batch_at (bLatestOffset F) x ->
  exists F' z r, bAppendReplica e x F = (F', (z, r)) /\ bHighWatermark F' = bHighWatermark F /\
    (e = fine -> r = None) /\
    match r with None => follows hist o F' ds /\ bLatestOffset F' = next_of x | Some _ => follows hist o F' (x :: ds) end.
Proof.
  intros (m & fs & -> & Hh & Hf) Hat. destruct (b_range _ _ _ _ Hh) as (_ & Hl & _). rewrite Hl in Hat.
  destruct (bAppendReplica e x F) as [F' [z r]] eqn:Ha. pose proof (b_replica_faults _ _ _ _ _ _ _ _ _ _ Hh Hat Hf Ha) as Hr.
  destruct (b_replica _ _ _ _ _ _ Hh Hat Hf) as (F1 & Ha1 & Hh1 & Hf1 & Hw1).
  exists F', z, r. destruct r as [er|].
  - destruct Hr as (Hh' & Hf' & Hw'). split_and!; [done|done|intros ->; congruence|]. by exists m, fs.
  - rewrite Ha1 in Hr. injection Hr as <- <-. split_and!; [done|done|done| |by apply (b_range _ _ _ _ Hh1)].
    exists (next_of x), (fs ++ [x]). by rewrite <- app_assoc.
Qed.

(** The callback over a run: some of it is stored, all of it when nothing fails. *)
Lemma visit_follows hist o rs tl F n consumed e : follows hist o F (rs ++ tl) -> chained (bLatestOffset F) rs n ->
  exists F' er c rs1 rs2, visit (applyBatchOn e) (F, None) consumed rs None = Ret ((F', er), c, er) /\ rs = rs1 ++ rs2 /\
    follows hist o F' (rs2 ++ tl) /\ bHighWatermark F' = bHighWatermark F /\
    (er = None -> rs2 = [] /\ bLatestOffset F' = n) /\ (e = (fun _ => fine) -> er = None).
Proof.
  revert F consumed. induction rs as [|x rs IH]; intros F consumed HF Hc.
  - exists F, None, consumed, [], []. cbn in *. by split_and!.
  - destruct Hc as [Hat Hc]. destruct (follows_step hist o F (rs ++ tl) x (e x) HF Hat) as (F1 & z & r & Ha & Hw & Hfine & Hr).
    cbn [visit applyBatchOn]. rewrite Ha. destruct r as [er|].
    + exists F1, (Some er), consumed, [], (x :: rs). split_and!; [done|done|exact Hr|done|done|].
      intros ->. by specialize (Hfine eq_refl).
    + destruct Hr as [HF1 Hn]. rewrite <- Hn in Hc. destruct (IH F1 (consumed + zlen x) HF1 Hc) as (F' & er & c & r1 & r2 & Hv & -> & G1 & G2 & G3 & G4).
      cbn [mbind go_bind]. rewrite Hv. exists F', er, c, (x :: r1), r2. split_and!; [done|done|done|congruence|done|done].
Qed.

(** A response with the next batches of the history. *)
Lemma apply_follows hist o rs tl F n hwm rec e : follows hist o F (rs ++ tl) -> chained (bLatestOffset F) rs n -> default [] rec = concat rs ->
  exists F' ok rs1 rs2, applyResponseOn e (mkResult CodeNone hwm rec) F = Ret (F', ok) /\ rs = rs1 ++ rs2 /\
    follows hist o F' (rs2 ++ tl) /\ bHighWatermark F <= bHighWatermark F' <= Z.max (bHighWatermark F) hwm /\
    (ok = true -> rs2 = [] /\ bLatestOffset F' = n /\ bHighWatermark F' = Z.max (bHighWatermark F) (Z.min hwm n)) /\
    (e = (fun _ => fine) -> ok = true).
Proof.
  intros HF Hc Hrec. destruct (visit_follows hist o rs tl F n 0 e HF Hc) as (F1 & er & c & r1 & r2 & Hv & Hrs & HF1 & Hw & Hok & Hfine).
  assert (forall F2, follows hist o F2 (r2 ++ tl) -> bLatestOffset F2 = bLatestOffset F1 -> follows hist o (bSetHighWatermark hwm F2) (r2 ++ tl) /\
    bLatestOffset (bSetHighWatermark hwm F2) = bLatestOffset F2 /\
    bHighWatermark (bSetHighWatermark hwm F2) = Z.max (bHighWatermark F2) (Z.min hwm (bLatestOffset F2))) as Hset.
  { intros F2 (m & fs & -> & Hh & Hf) _. destruct (b_watermark _ _ _ _ hwm _ Hh Hf) as (G1 & G2 & G3).
    destruct (b_range _ _ _ _ Hh) as (_ & Hl & _). destruct (b_range _ _ _ _ G1) as (_ & Hl' & _). rewrite Hl.
    split_and!; [by exists m, fs|congruence|done]. }
  assert (applyResponseOn e (mkResult CodeNone hwm rec) F =
    Ret (match er with Some _ => (F1, false) | None => (bSetHighWatermark hwm F1, true) end)) as ->.
  { unfold applyResponseOn. cbn [r_errorCode r_hwm r_records Z.eqb CodeNone negb]. rewrite Hrec.
    destruct (Z.ltb_spec 0 (zlen (concat rs))).
    - unfold Iterate. pose proof (iterate_loop_visits (applyBatchOn e) rs [] (S (length (concat rs))) [] (F, None)) as Hi.
      cbn [app] in Hi. rewrite app_nil_r, zlen_nil in Hi. rewrite Hi, Hv; [by destruct er|by eapply chained_wf|by left|lia].
    - destruct rs as [|b rs]; [cbn in Hv; by injection Hv as <- <-|]. pose proof (concat_pos _ _ _ Hc ltac:(done)). lia. }
  destruct er as [er|].
  - exists F1, false, r1, r2. rewrite Hw. split_and!; [done|done|done|lia|lia|done|]. intros ->. by specialize (Hfine eq_refl).
  - destruct (Hok eq_refl) as [-> Hn]. destruct (Hset F1 HF1 eq_refl) as (G1 & G2 & G3). rewrite Hw, Hn in *.
    exists (bSetHighWatermark hwm F1), true, r1, []. split_and!; try done; lia.
Qed.
End Applying.

(** ** Sessions against leaders of one history *)

#[local] Ltac kept := split_and!; first [done|lia].

Section Sessions.
Context {EL BL EF BF : Type} `{BackendLaws EL BL} `{BackendLaws EF BF}.
Context (self : Z) (topic : string) (p : Z) (Htopic : str_fits topic) (Hp : in_int 32 p).
Context (o N : Z) (hist : list (list byte)) (Hhist : chained o hist N).

(** What arrives is what some node wrote, cut at any byte: the answer of a leader
    that holds a window of the history, or a refusal.  [W] bounds the high
    watermarks leaders announce. *)
Definition authentic (W : Z) (r : roundIn EF) : Prop :=
  forall off corr, in_int 64 off -> in_int 32 corr ->
    exists cut frame, rd_reply r (encodeFetch self topic p off corr) = take cut frame /\
      ((exists (L : BL) hwm start, window o hist L /\ in_int 64 hwm /\ hwm <= W /\ frame = leaderFrame topic p corr off hwm start L) \/
       (exists code, in_int 16 code /\ code <> CodeNone /\ frame = answerFrame topic corr (leaderRefusal p code))).

(** One partition's answer on the wire, cut or whole. *)
Lemma answer_response cut corr code hwm start records : in_int 32 corr -> in_int 16 code -> in_int 64 hwm -> zlen (default [] records) < 2 ^ 31 ->
  let resp := readFetchResponse (take cut (answerFrame topic corr (mkFetchPartitionResp p code hwm hwm start records))) in
  resp = (inr ErrEOF, []) \/ resp = (inl (mkResult code hwm records), []).
Proof.
  intros Hcorr Hcode Hw Hsz. unfold answerFrame. cbn zeta.
  destruct (readFetchResponse_any cut corr (mkFetchResponse 0 0 0 [mkFetchTopicResp topic [mkFetchPartitionResp p code hwm hwm start records]]))
    as [->| ->]; [done| |by apply fetchFrame_one|by left|by right].
  repeat (split || constructor); cbn; try done; try solve_int; by destruct records.
Qed.

(** A leader's frame at the follower's log end, cut or whole. *)
Lemma frame_response (L : BL) (F : BF) ds hwm start corr cut :
  follows hist o F ds -> window o hist L -> in_int 64 hwm -> in_int 32 corr ->
  let resp := readFetchResponse (take cut (leaderFrame topic p corr (bLatestOffset F) hwm start L)) in
  resp = (inr ErrEOF, []) \/ (exists code h rec, resp = (inl (mkResult code h rec), []) /\ code <> CodeNone) \/
  exists rs tl x rec, resp = (inl (mkResult CodeNone hwm rec), []) /\ default [] rec = concat rs /\ ds = rs ++ tl /\ chained (bLatestOffset F) rs x.
Proof.
  intros (m & fs & Hsplit & Hh & _) HL Hw Hcorr. cbn zeta. destruct (b_range _ _ _ _ Hh) as (_ & -> & Hcf & _). unfold leaderFrame, leaderAnswer.
  destruct (window_reads o hist N L fs ds m Hhist HL Hsplit Hcf) as [(er & ->)|(rs & tl & x & -> & -> & Hc & Hsz)]; cbn [mbind go_bind].
  - case_bool_decide.
    + destruct (answer_response cut corr CodeOffsetOutOfRange hwm start None) as [->| ->]; [done|by split; vm_compute|done|by vm_compute|by left|].
      right. left. by eexists _, _, _.
    + destruct (answer_response cut corr CodeNone hwm start None) as [->| ->]; [done|by split; vm_compute|done|by vm_compute|by left|].
      right. right. by exists [], ds, m, None.
  - rewrite bool_decide_eq_false_2 by done. set (rec := match concat rs with [] => None | _ => _ end).
    assert (default [] rec = concat rs) as Hrec by (by subst rec; destruct (concat rs)).
    destruct (answer_response cut corr CodeNone hwm start rec) as [->| ->]; [done|by split; vm_compute|done|by rewrite Hrec|by left|].
    right. right. by exists rs, tl, x, rec.
Qed.

(** A leader that holds the whole history answers with the next batches, at least
    one while some are missing. *)
Lemma leader_answers (L : BL) (F : BF) ds start corr :
  holds L o N hist -> (forall er, ~ outage L er) -> Forall (fun b => zlen b < 2 ^ 31) hist -> in_int 64 (bHighWatermark L) ->
  follows hist o F ds -> in_int 32 corr ->
  exists rs tl x rec, readFetchResponse (leaderFrame topic p corr (bLatestOffset F) (bHighWatermark L) start L) =
      (inl (mkResult CodeNone (bHighWatermark L) rec), []) /\ default [] rec = concat rs /\
    ds = rs ++ tl /\ chained (bLatestOffset F) rs x /\ (tl <> [] -> rs <> []).
Proof.
  intros HL Hout Hsz HW (m & fs & Hsplit & Hh & _) Hcorr. destruct (b_range _ _ _ _ Hh) as (_ & -> & Hcf & _).
  assert (window o hist L) as Hwin by (exists o, N, hist, [], []; rewrite app_nil_r; by split_and!).
  assert (in_int 32 fetchMaxBytes) as Hmax by (unfold fetchMaxBytes; split; vm_compute; done).
  destruct (b_read _ _ _ _ m _ HL Hmax) as (Hend & _ & Hin). pose proof Hhist as Hc. rewrite Hsplit in Hc.
  apply chained_app in Hc as (m' & Hm & Hd). pose proof (chained_det _ _ _ _ Hm Hcf) as ->. pose proof (chained_le _ _ _ Hd).
  pose proof (chained_le _ _ _ Hcf).
  assert (exists rs tl x, bRead m fetchMaxBytes L = Ret (concat rs, None) /\ ds = rs ++ tl /\ chained m rs x /\ zlen (concat rs) < 2 ^ 31 /\
    (tl <> [] -> rs <> [])) as (rs & tl & x & Hr & -> & Hx & Hlen & Hmore).
  { destruct (window_reads o hist N L fs ds m Hhist Hwin Hsplit Hcf) as [(er & Hr)|(rs & tl & x & Hr & -> & Hx & Hlen)].
    - exfalso. destruct (decide (m = N)) as [->|Hne]; [by rewrite Hend in Hr|].
      destruct (Hin ltac:(lia)) as [(er' & Ho & _)|(b & rs & tl & Hr' & _)]; [by apply (Hout er')|by rewrite Hr' in Hr].
    - exists rs, tl, x. split_and!; try done. intros Htl ->. cbn in Hx. subst x.
      pose proof (chained_lt _ _ _ Hd Htl). destruct (Hin ltac:(lia)) as [(er' & Ho & _)|(b & rs & tl' & Hr' & Hdr & Hb & _)]; [by apply (Hout er')|].
      rewrite Hr' in Hr. injection Hr as Hr. assert (chained m tl N) as Hct by exact Hd.
      rewrite Hsplit in Hdr. cbn [app] in Hdr. rewrite drop_before_skip in Hdr by (by eapply chained_below).
      rewrite (drop_before_none _ _ _ _ Hct) in Hdr by lia. rewrite Hdr in Hct.
      destruct Hct as [Hat _]. pose proof (batch_wf_pos b (ba_wf _ _ Hat)) as Hpos. unfold zlen in Hpos. apply (f_equal length) in Hr.
      rewrite length_app in Hr. cbn in Hr. lia. }
  set (rec := match concat rs with [] => None | _ => Some (concat rs) end).
  assert (default [] rec = concat rs) as Hrec by (by subst rec; destruct (concat rs)).
  exists rs, tl, x, rec. split_and!; try done. unfold leaderFrame, leaderAnswer. rewrite Hr. cbn [mbind go_bind].
  rewrite bool_decide_eq_false_2 by done. fold rec. unfold answerFrame. rewrite <- (app_nil_r (fetchFrame _ _)).
  rewrite readFetchResponse_frame; [done|done| |by apply fetchFrame_one; rewrite ?Hrec].
  repeat (split || constructor); cbn; try done; try solve_int. subst rec. by destruct (concat rs).
Qed.

(** A round leaves the follower on the history. *)
Lemma round_follows W r (F : BF) ds corr : follows hist o F ds -> authentic W r -> in_int 32 corr ->
  match readFetchResponse (rd_reply r (encodeFetch self topic p (bLatestOffset F) corr)) with
  | (inr _, _) => True
  | (inl res, rest) => rest = [] /\
    exists F' ok ds1 ds2, applyResponseOn (rd_io r) res F = Ret (F', ok) /\ ds = ds1 ++ ds2 /\ follows hist o F' ds2 /\
      bHighWatermark F <= bHighWatermark F' <= Z.max (bHighWatermark F) W
  end.
Proof.
  intros HF Hr Hcorr. destruct (Hr (bLatestOffset F) corr) as (cut & frame & -> & Hframe); [by eapply follows_range|done|].
  assert (forall code h rec, code <> CodeNone -> exists F' ok ds1 ds2, applyResponseOn (rd_io r) (mkResult code h rec) F = Ret (F', ok) /\
    ds = ds1 ++ ds2 /\ follows hist o F' ds2 /\ bHighWatermark F <= bHighWatermark F' <= Z.max (bHighWatermark F) W) as Hrefused.
  { intros code h rec Hne. exists F, false, [], ds. split_and!; try done; [|lia..].
    unfold applyResponseOn. cbn [r_errorCode]. by rewrite (proj2 (Z.eqb_neq _ _)). }
  destruct Hframe as [(L & hwm & start & HL & Hw & HW & ->)|(code & Hcode & Hne & ->)].
  - destruct (frame_response L F ds hwm start corr cut HF HL Hw Hcorr) as [->|[(code & h & rec & -> & Hne)|(rs & tl & x & rec & -> & Hrec & Hds & Hc)]];
      [done|split; [done|by apply Hrefused]|].
    subst ds. split; [done|]. destruct (apply_follows hist o rs tl F x hwm rec (rd_io r) HF Hc Hrec) as (F' & ok & r1 & r2 & Ha & -> & HF' & Hb & _).
    exists F', ok, r1, (r2 ++ tl). split_and!; try done; [by rewrite <- app_assoc|lia..].
  - unfold leaderRefusal. destruct (answer_response cut corr code 0 0 None) as [->| ->]; [done|done|solve_int|by vm_compute|done|]. split; [done|by apply Hrefused].
Qed.

Lemma session_follows W addr rs corr (F : BF) ds : follows hist o F ds -> Forall (authentic W) rs ->
  exists F' ended ds1 ds2, session_loop self topic p addr rs corr [] F = Ret (F', ended) /\ ds = ds1 ++ ds2 /\
    follows hist o F' ds2 /\ bHighWatermark F <= bHighWatermark F' <= Z.max (bHighWatermark F) W.
Proof.
  intros HF Hrs. revert corr F ds HF. induction Hrs as [|r rs Hr _ IH]; intros corr F ds HF.
  { exists F, false, [], ds. kept. }
  assert (forall b, exists F' ended ds1 ds2, @Ret (BF * bool) (F, b) = Ret (F', ended) /\ ds = ds1 ++ ds2 /\ follows hist o F' ds2 /\
    bHighWatermark F <= bHighWatermark F' <= Z.max (bHighWatermark F) W) as Hstay.
  { intros b. exists F, b, [], ds. kept. }
  cbn [session_loop]. destruct (rd_stopped r); [apply Hstay|]. destruct (negb (keepSession _ _ _)); [apply Hstay|].
  destruct (negb (rd_log r)); [apply Hstay|]. destruct (negb (rd_write r)); [apply Hstay|]. cbn [app].
  set (c1 := int32 (corr + 1)). assert (in_int 32 c1) as Hc1 by apply int32_range.
  pose proof (round_follows W r F ds c1 HF Hr Hc1) as Hround.
  destruct (readFetchResponse _) as [[res|er] rest]; [|apply Hstay].
  destruct Hround as (-> & F1 & ok & d1 & d2 & -> & -> & HF1 & Hw1). cbn [mbind go_bind]. destruct ok.
  - destruct (IH c1 F1 d2 HF1) as (F2 & ended & d3 & d4 & -> & -> & HF2 & Hw2).
    exists F2, ended, (d1 ++ d3), d4. split_and!; try done; [by rewrite app_assoc|lia..].
  - exists F1, true, d1, d2. kept.
Qed.

Lemma run_follows W ts (F : BF) ds : follows hist o F ds -> Forall (fun t => Forall (authentic W) (tn_rounds t)) ts ->
  exists F' ended ds1 ds2, run self topic p ts F = Ret (F', ended) /\ ds = ds1 ++ ds2 /\
    follows hist o F' ds2 /\ bHighWatermark F <= bHighWatermark F' <= Z.max (bHighWatermark F) W.
Proof.
  intros HF Hts. revert F ds HF. induction Hts as [|t ts Ht _ IH]; intros F ds HF.
  { exists F, false, [], ds. kept. }
  cbn [run]. destruct (tn_stopped t).
  { exists F, true, [], ds. kept. }
  match goal with |- context [mbind _ ?x] => assert (exists F1 ended d1 d2, x = Ret (F1, ended) /\ ds = d1 ++ d2 /\ follows hist o F1 d2 /\
    bHighWatermark F <= bHighWatermark F1 <= Z.max (bHighWatermark F) W) as (F1 & ended & d1 & d2 & -> & -> & HF1 & Hw1) end.
  { unfold attempt. destruct (tn_leader t) as [[nodeID addr]|]; [destruct (nodeID =? self)|];
      [exists F, true, [], ds; kept| |exists F, true, [], ds; kept].
    unfold session. destruct (tn_dial t); [by eapply session_follows|]. exists F, true, [], ds. kept. }
  cbn [mbind go_bind]. destruct (negb ended); [exists F1, false, d1, d2; kept|].
  destruct (tn_sleep t); [exists F1, true, d1, d2; kept|].
  destruct (IH F1 d2 HF1) as (F2 & e2 & d3 & d4 & -> & -> & HF2 & Hw2).
  exists F2, e2, (d1 ++ d3), d4. split_and!; try done; [by rewrite app_assoc|lia..].
Qed.

(** C29: a fetcher keeps its partition a prefix of the leaders' history.  Whatever
    happens to it, over any number of sessions - stopped at any point, leaders that
    change and lag or have retained less, connections that end at any byte,
    refusals, reads that fail at the leader, append faults - as long as each reply
    that does arrive, whole or cut, is what [buildFetch] answers a replica at a
    leader that holds a window of one history, or a refusal, the fetcher returns
    or keeps running with a log that extends what it held by the next batches of
    that history, byte for byte, and its high watermark never goes back nor beyond
    what a leader announced. *)
Theorem fetcher_follows_history W ts (F : BF) m fs ds :
  hist = fs ++ ds -> holds F o m fs -> fits F ds -> Forall (fun t => Forall (authentic W) (tn_rounds t)) ts ->
  exists F' ended m' fs', run self topic p ts F = Ret (F', ended) /\ holds F' o m' fs' /\
    fs `prefix_of` fs' /\ fs' `prefix_of` hist /\
    bHighWatermark F <= bHighWatermark F' <= Z.max (bHighWatermark F) W /\ bHighWatermark F' <= m'.
Proof.
  intros Hsplit Hh Hf Hts. destruct (run_follows W ts F ds) as (F' & ended & d1 & d2 & Hrun & Hds & (m' & fs' & Hsplit' & Hh' & _) & Hw);
    [by exists m, fs|done|]. destruct (b_range _ _ _ _ Hh') as (_ & _ & _ & _ & _ & Hwm).
  exists F', ended, m', fs'. subst ds. assert (fs' = fs ++ d1) as ->.
  { apply (app_inv_tail d2). by rewrite <- Hsplit', Hsplit, app_assoc. }
  split_and!; [done|done|by exists d1|by exists d2|lia|lia|done].
Qed.

(** A round in which nothing fails, against the leader [L] at [addr]. *)
Record good (addr : string) (L : BL) (start : Z) (r : roundIn EF) : Prop := {
  gd_stopped : rd_stopped r = false;
  gd_leader : keepSession self addr (rd_leader r) = true;
  gd_log : rd_log r = true;
  gd_write : rd_write r = true;
  gd_reply off corr : in_int 64 off -> in_int 32 corr ->
    rd_reply r (encodeFetch self topic p off corr) = leaderFrame topic p corr off (bHighWatermark L) start L;
  gd_io : rd_io r = (fun _ => fine) }.

(** A session without a failure brings the follower to the leader's end. *)
Lemma session_catches_up addr (L : BL) start rs (F : BF) ds corr :
  holds L o N hist -> (forall er, ~ outage L er) -> Forall (fun b => zlen b < 2 ^ 31) hist -> in_int 64 (bHighWatermark L) ->
  follows hist o F ds -> Forall (good addr L start) rs -> (length ds <= length rs)%nat -> (0 < length rs)%nat ->
  exists F', session_loop self topic p addr rs corr [] F = Ret (F', false) /\ holds F' o N hist /\
    bHighWatermark F' = Z.max (bHighWatermark F) (bHighWatermark L).
Proof.
  intros HL Hout Hsz HW HF Hgood. destruct (b_range _ _ _ _ HL) as (_ & _ & _ & _ & _ & HwN). revert F ds HF corr.
  induction Hgood as [|r rs [G1 G2 G3 G4 G5 G6] Hgood IH]; intros F ds HF corr Hlen Hpos; [cbn in Hpos; lia|].
  cbn [session_loop app]. rewrite G1, G2, G3, G4. cbn [negb]. set (c1 := int32 (corr + 1)). rewrite G5 by (apply int32_range || by eapply follows_range).
  destruct (leader_answers L F ds start c1 HL Hout Hsz HW HF) as (r1 & tl & x & rec & -> & Hrec & -> & Hc & Hmore); [apply int32_range|].
  destruct (apply_follows hist o r1 tl F x (bHighWatermark L) rec (rd_io r) HF Hc Hrec) as (F1 & ok & q1 & q2 & -> & Hq & HF1 & _ & Hok & Hfine).
  destruct (Hok (Hfine G6)) as (-> & Hx & Hw1). rewrite (Hfine G6). cbn [mbind go_bind app] in *. rewrite length_app in Hlen.
  destruct rs as [|r' rs].
  - assert (tl = []) as ->. { destruct tl; [done|]. assert (r1 <> []) by (by apply Hmore). destruct r1; [done|]. cbn in Hlen. lia. }
    exists F1. cbn [session_loop]. destruct HF1 as (m' & fs' & Hs & Hh' & _). rewrite app_nil_r in Hs. subst fs'.
    destruct (b_range _ _ _ _ Hh') as (_ & Hl & Hch & _). pose proof (chained_det _ _ _ _ Hch Hhist) as ->.
    split_and!; [done|done|]. rewrite Hw1, <- Hx, Hl. lia.
  - destruct (IH F1 tl HF1 c1) as (F2 & -> & Hh2 & Hw2); [| cbn; lia |].
    { destruct tl; [cbn; lia|]. assert (r1 <> []) by (by apply Hmore). destruct r1; [done|]. cbn in *. lia. }
    exists F2. split_and!; [done|done|]. destruct HF1 as (m' & fs' & Hs & Hh' & _). destruct (b_range _ _ _ _ Hh') as (_ & Hl & Hch & _).
    rewrite Hw2, Hw1. lia.
Qed.

(** The turns the fetcher has been through, each ended and waited out: the leader
    not known, the dial refused, or a session that ended for any reason. *)
Inductive tried : list (turnIn EF) -> BF -> BF -> Prop :=
  | tried_nil F : tried [] F F
  | tried_cons t ts F F1 F2 : tn_stopped t = false -> attempt self topic p t F = Ret (F1, true) -> tn_sleep t = false ->
      tried ts F1 F2 -> tried (t :: ts) F F2.

Lemma tried_run ts ts' F F1 : tried ts F F1 -> run self topic p (ts ++ ts') F = run self topic p ts' F1.
Proof. induction 1 as [|t ts F F1 F2 Hs Ha Hw _ IH]; [done|]. cbn [app run]. rewrite Hs, Ha. cbn [mbind go_bind negb]. by rewrite Hw, IH. Qed.

Lemma tried_follows W ts F F1 ds : tried ts F F1 -> follows hist o F ds -> Forall (fun t => Forall (authentic W) (tn_rounds t)) ts ->
  exists ds1 ds2, ds = ds1 ++ ds2 /\ follows hist o F1 ds2 /\ bHighWatermark F <= bHighWatermark F1 <= Z.max (bHighWatermark F) W.
Proof.
  intros Ht HF Hts. destruct (run_follows W ts F ds HF Hts) as (F' & e & d1 & d2 & Hrun & Hds & HF' & Hw).
  rewrite <- (app_nil_r ts), (tried_run _ _ _ _ Ht) in Hrun. cbn [run] in Hrun. injection Hrun as <- <-. by exists d1, d2.
Qed.

End Sessions.

(** ** An object leader with one batch, an empty file follower *)

Lemma demoRun_holds : object_holds demoRun 0 3 [demoStored].
Proof. destruct demoRun_ok as (_ & _ & Hl). by exists [], [demoStored]. Qed.

Lemma demoRun_chained : chained 0 [demoStored] 3.
Proof. destruct demoRun_ok as (_ & _ & Hl). exact (part_chained _ _ _ _ _ _ (lh_part _ _ _ _ _ _ Hl)). Qed.

Lemma demoRun_available er : ~ object_outage demoRun er.
Proof.
  intros (r & Hr & _). assert (refsFor (st_index demoRun.2) (ol_topic demoRun.1) (ol_partition demoRun.1) = []) as Hnil by (vm_compute; reflexivity).
  rewrite Hnil in Hr. by apply elem_of_nil in Hr.
Qed.

Lemma demoFollower : file_holds (freshLog demoConfig) 0 0 [] /\ file_fits (freshLog demoConfig) [demoStored].
Proof.
  split; [exists [], []; split_and!; [apply freshLog_rep|done..]|]. exists 3. split; [exact demoRun_chained|]. split; vm_compute; done.
Qed.

(** The offset a request asks for, as the leader decodes it. *)
Definition demoReply (cut : list byte -> list byte) (req : list byte) : list byte :=
  let '(q, _) := headerThenBody (NewReader (drop 4 req)) in
  match fr_Topics (snd q) with
  | ftopic :: _ =>
    match ft_Partitions ftopic with
    | fp :: _ => cut (leaderFrame "orders" 0 (rh_CorrelationID (fst q)) (fp_FetchOffset fp) 3 0 demoRun)
    | [] => []
    end
  | [] => []
  end.

Lemma demoReply_frame cut off corr : in_int 64 off -> in_int 32 corr ->
  demoReply cut (encodeFetch 1 "orders" 0 off corr) = cut (leaderFrame "orders" 0 corr off 3 0 demoRun).
Proof.
  intros Hoff Hc. unfold demoReply, encodeFetch. set (payload := Finish _).
  assert (drop 4 (be_put 4 (zlen payload) ++ payload) = payload) as ->.
  { apply drop_app_length'. pose proof (zlen_be_put 4 (zlen payload)). unfold zlen in *. lia. }
  destruct (RT_decodes _ _ _ (encodeFetch_RT 1 "orders" 0 off corr ltac:(solve_int) ltac:(by vm_compute) ltac:(solve_int) Hoff Hc)) as (r & Hr & _).
  subst payload. by rewrite Hr.
Qed.

Definition demoRound (cut : list byte -> list byte) (e : io) : roundIn io := mkRound false (Some (2, "b:9092"%string)) true true (demoReply cut) (fun _ => e).

Lemma demoWindow : window 0 [demoStored] demoRun.
Proof.
  exists 0, 3, [demoStored], [], []. split_and!; [exact demoRun_holds|done|done|]. repeat constructor.
Qed.

Lemma demoRound_authentic cut e : (forall x, exists k, cut x = take k x) ->
  authentic (BL := ObjectLog * Storage MemStore MemIndexStore) 1 "orders" 0 0 [demoStored] 3 (demoRound cut e).
Proof.
  intros Hcut off corr Ho Hc. cbn [rd_reply demoRound]. rewrite demoReply_frame by done.
  destruct (Hcut (leaderFrame "orders" 0 corr off 3 0 demoRun)) as [k ->]. exists k. eexists. split; [done|]. left.
  exists demoRun, 3, 0. split; [exact demoWindow|]. split; [solve_int|done].
Qed.

(** A session cut in the middle of a frame, one whose append fails, one that works. *)
Lemma fetcher_follows_history_witness :
  let turn r := mkTurn false (Some (2, "b:9092"%string)) true [r] false in
  exists F' m' fs', run 1 "orders" 0 [turn (demoRound (take 30) io_ok); turn (demoRound id (mkIO true true WOk (WErr 9))); turn (demoRound id io_ok)]
      (freshLog demoConfig) = Ret (F', false) /\
    file_holds F' 0 m' fs' /\ fs' `prefix_of` [demoStored] /\ HighWatermark F' <= m'.
Proof.
  intros turn. destruct demoFollower as [Hh Hf].
  destruct (fetcher_follows_history (BL := ObjectLog * Storage MemStore MemIndexStore) 1 "orders" 0 ltac:(by vm_compute) ltac:(solve_int) 0 3 [demoStored] demoRun_chained 3
    [turn (demoRound (take 30) io_ok); turn (demoRound id (mkIO true true WOk (WErr 9))); turn (demoRound id io_ok)] (freshLog demoConfig) 0 [] [demoStored])
    as (F' & ended & m' & fs' & Hrun & Hh' & _ & Hpre & _ & Hw); [done|done|done| |].
  { repeat (apply Forall_cons; split; [apply Forall_cons; split; [apply demoRound_authentic; intros x; first [by exists 30%nat|exists (length x); by rewrite take_ge]|constructor]|]). constructor. }
  exists F', m', fs'. split_and!; [|done|done|done].
  assert (ended = false) as -> by (apply (f_equal (fun x => match x with Ret (_, b) => b | _ => true end)) in Hrun; vm_compute in Hrun; done).
  exact Hrun.
Defined.

Lemma demo_watermarks : bHighWatermark (freshLog demoConfig) = 0 /\ bHighWatermark demoRun = 3.
Proof. vm_compute. split; reflexivity. Qed.

Definition demoTurn (r : roundIn io) : turnIn io := mkTurn false (Some (2, "b:9092"%string)) true [r] false.

Lemma demo_tried : exists F, tried 1 "orders" 0 [demoTurn (demoRound (take 30) io_ok); demoTurn (demoRound id (mkIO true true WOk (WErr 9)))]
  (freshLog demoConfig) F /\ HighWatermark F = 0.
Proof.
  destruct (attempt 1 "orders" 0 (demoTurn (demoRound (take 30) io_ok)) (freshLog demoConfig)) as [[Fa ea]| |] eqn:Ha; [|vm_compute in Ha; discriminate..].
  destruct (attempt 1 "orders" 0 (demoTurn (demoRound id (mkIO true true WOk (WErr 9)))) Fa) as [[Fb eb]| |] eqn:Hb;
    [|vm_compute in Ha; injection Ha as <- <-; vm_compute in Hb; discriminate..].
  assert (ea = true /\ eb = true /\ HighWatermark Fb = 0) as (-> & -> & Hwb).
  { vm_compute in Ha. injection Ha as <- <-. vm_compute in Hb. by injection Hb as <- <-. }
  exists Fb. split; [|exact Hwb]. eapply tried_cons; [reflexivity|exact Ha|reflexivity|].
  eapply tried_cons; [reflexivity|exact Hb|reflexivity|]. constructor.
Qed.

