(* ===== verification/Coordinator.v ===== *)
(** * internal/group/coordinator.go: consumer groups

    A group is its members (by id), its generation, leader, protocol and state;
    the coordinator is the map of groups.  Every operation runs under the group's
    lock, so an operation is one step, except a follower's SyncGroup, which waits
    for the leader: it is split at the wait into [syncEnter] and [syncResume], and
    other operations may run in between.  Go iterates maps in an unspecified
    order: the order is a parameter, and the theorems hold for all of them.
    Times are milliseconds; the random part of a member id is an argument. *)

From stdpp Require Import sorting.
From S2P Require Import Prelude Strconv.

Definition ErrNone : Z := 0.
Definition ErrIllegalGeneration : Z := 22.
Definition ErrUnknownMemberID : Z := 25.
Definition ErrRebalanceInProgress : Z := 27.

Inductive groupState := stateEmpty | stateAwaitingSync | stateStable.
#[export] Instance groupState_eq_dec : EqDecision groupState.
Proof. solve_decision. Defined.

Definition state_String (s : groupState) : string :=
  match s with stateEmpty => "Empty" | stateAwaitingSync => "CompletingRebalance" | stateStable => "Stable" end.

Record Protocol := mkProtocol { Name : string; Metadata : option (list byte) }.

Record member := mkMember {
  m_id : string; protocols : list Protocol; assignment : option (list byte);
  lastHeartbeat : Z; sessionTimeout : Z; synced : bool }.

Record group := mkGroup {
  g_id : string; protocolType : string; generation : Z; leaderID : string; protocolName : string;
  g_state : groupState; members : gmap string member }.

Definition newGroup (id ptype : string) : group := mkGroup id ptype 0 "" "" stateEmpty ∅.

(** ** Helpers *)

Definition metadataFor (m : member) (name : string) : option (list byte) :=
  match List.find (fun p => String.eqb (Name p) name) (protocols m) with
  | Some p => Metadata p
  | None => match protocols m with p :: _ => Metadata p | [] => None end
  end.

Definition unsync (m : member) : member :=
  mkMember (m_id m) (protocols m) (assignment m) (lastHeartbeat m) (sessionTimeout m) false.
Definition withAssignment (a : option (list byte)) (m : member) : member :=
  mkMember (m_id m) (protocols m) a (lastHeartbeat m) (sessionTimeout m) (synced m).
Definition heard (now : Z) (sy : bool) (m : member) : member :=
  mkMember (m_id m) (protocols m) (assignment m) now (sessionTimeout m) sy.

Definition setMembers (ms : gmap string member) (g : group) : group :=
  mkGroup (g_id g) (protocolType g) (generation g) (leaderID g) (protocolName g) (g_state g) ms.

Section Operations.
(** The iteration order of a Go map. *)
Context (iter : gmap string member -> list (string * member)).

Definition chooseProtocol (g : group) : string :=
  match members g !! leaderID g with
  | Some (mkMember _ (p :: _) _ _ _ _) => Name p
  | _ => match List.find (fun '(_, m) => match protocols m with [] => false | _ => true end) (iter (members g)) with
         | Some (_, mkMember _ (p :: _) _ _ _ _) => Name p
         | _ => ""
         end
  end.

(** ** JoinGroup *)

Record JoinArgs := mkJoinArgs {
  a_GroupID : string; a_MemberID : string; a_ClientID : string; a_ProtocolType : string;
  a_Protocols : list Protocol; a_SessionTimeoutMs : Z }.

Record JoinResult := mkJoinResult {
  j_ErrorCode : Z; j_GenerationID : Z; j_ProtocolName : string; j_LeaderID : string; j_MemberID : string;
  j_Members : list (string * option (list byte)) }.

Definition joinTimeout (ms : Z) : Z := if ms <=? 0 then 30000 else ms.

Definition joinID (randomID : string) (args : JoinArgs) : string :=
  if String.eqb (a_MemberID args) "" then (a_ClientID args +:+ "-" +:+ randomID)%string else a_MemberID args.

Definition joinGroup (randomID : string) (now : Z) (args : JoinArgs) (g : group) : group * JoinResult :=
  let memberID := joinID randomID args in
  let old := members g !! memberID in
  let isNew := String.eqb (a_MemberID args) "" || match old with None => true | Some _ => false end in
  let m0 := default (mkMember memberID [] None 0 0 false) old in
  let m := mkMember (m_id m0) (a_Protocols args) (assignment m0) now (joinTimeout (a_SessionTimeoutMs args)) (synced m0) in
  let ms := <[memberID := m]> (members g) in
  let '(gen, st, ms) :=
    if isNew || negb (bool_decide (g_state g = stateAwaitingSync))
    then (int32 (generation g + 1), stateAwaitingSync, unsync <$> ms)
    else (generation g, g_state g, ms) in
  let leader := match ms !! leaderID g with
                | None => memberID
                | Some _ => if String.eqb (leaderID g) "" then memberID else leaderID g
                end in
  let g1 := mkGroup (g_id g) (protocolType g) gen leader (protocolName g) st ms in
  let proto := chooseProtocol g1 in
  let g2 := mkGroup (g_id g) (protocolType g) gen leader proto st ms in
  (g2, mkJoinResult ErrNone gen proto leader memberID
         (if String.eqb memberID leader then map (fun '(id, mm) => (id, metadataFor mm proto)) (iter ms) else [])).

(** ** SyncGroup *)

Record SyncResult := mkSyncResult { s_ErrorCode : Z; s_Assignment : option (list byte) }.

(** [Some r]: the call returns; [None]: the caller waits on the condition. *)
Definition syncDone (now : Z) (memberID : string) (m : member) (g : group) : group * option SyncResult :=
  (setMembers (<[memberID := heard now true m]> (members g)) g, Some (mkSyncResult ErrNone (assignment m))).

Definition storeAssignments (assignments : gmap string (option (list byte))) (ms : gmap string member)
    : gmap string member :=
  map_imap (fun id m => Some (match assignments !! id with Some a => withAssignment a m | None => m end)) ms.

(** [syncWaitTimeout], in milliseconds. *)
Definition syncWaitTimeout : Z := 30000.

(** The test of the wait loop, at its entry and after every wake-up. *)
Definition syncResume (now deadline : Z) (memberID : string) (gen : Z) (g : group)
    : group * option SyncResult :=
  if negb (bool_decide (g_state g = stateStable)) && (gen =? generation g) && (now <? deadline) then (g, None)
  else if negb (gen =? generation g) then (g, Some (mkSyncResult ErrRebalanceInProgress None))
  else match members g !! memberID with
       | Some m => syncDone now memberID m g
       | None => (g, Some (mkSyncResult ErrNone None))
       end.

Definition syncEnter (now : Z) (memberID : string) (gen : Z)
    (assignments : gmap string (option (list byte))) (g : group) : group * option SyncResult :=
  match members g !! memberID with
  | None => (g, Some (mkSyncResult ErrUnknownMemberID None))
  | Some m =>
    if negb (gen =? generation g) then (g, Some (mkSyncResult ErrIllegalGeneration None))
    else if String.eqb memberID (leaderID g) then
      let ms := storeAssignments assignments (members g) in
      let g1 := mkGroup (g_id g) (protocolType g) (generation g) (leaderID g) (protocolName g) stateStable ms in
      syncDone now memberID (default m (ms !! memberID)) g1
    else syncResume now (now + syncWaitTimeout) memberID gen g
  end.

(** ** Heartbeat, LeaveGroup, reap *)

Definition heartbeatGroup (now : Z) (memberID : string) (gen : Z) (g : group) : group * Z :=
  match members g !! memberID with
  | None => (g, ErrUnknownMemberID)
  | Some m =>
    if gen <? generation g then (g, ErrRebalanceInProgress)
    else if generation g <? gen then (g, ErrIllegalGeneration)
    else (setMembers (<[memberID := heard now (synced m) m]> (members g)) g, ErrNone)
  end.

Definition rebalanceLocked (g : group) : group :=
  let gen := int32 (generation g + 1) in
  match iter (members g) with
  | [] => mkGroup (g_id g) (protocolType g) gen "" (protocolName g) stateEmpty (members g)
  | (id, _) :: _ =>
    mkGroup (g_id g) (protocolType g) gen
      (match members g !! leaderID g with Some _ => leaderID g | None => id end)
      (protocolName g) stateAwaitingSync (unsync <$> members g)
  end.

Definition leaveGroup (memberID : string) (g : group) : group * Z :=
  match members g !! memberID with
  | None => (g, ErrUnknownMemberID)
  | Some _ => (rebalanceLocked (setMembers (delete memberID (members g)) g), ErrNone)
  end.

Definition isDead (now : Z) (m : member) : bool := sessionTimeout m <? now - lastHeartbeat m.

Definition reapGroup (now : Z) (g : group) : group :=
  match List.filter (fun '(_, m) => isDead now m) (iter (members g)) with
  | [] => g
  | dead => rebalanceLocked (setMembers (foldl (fun ms '(id, _) => delete id ms) (members g) dead) g)
  end.

(** ** The coordinator *)

Abbreviation groups := (gmap string group).

Definition getOrCreate (id ptype : string) (c : groups) : group := default (newGroup id ptype) (c !! id).

Definition Join (randomID : string) (now : Z) (args : JoinArgs) (c : groups) : groups * JoinResult :=
  let '(g, r) := joinGroup randomID now args (getOrCreate (a_GroupID args) (a_ProtocolType args) c) in
  (<[a_GroupID args := g]> c, r).

Definition SyncEnter (now : Z) (groupID memberID : string) (gen : Z) (asg : gmap string (option (list byte)))
    (c : groups) : groups * option SyncResult :=
  match c !! groupID with
  | None => (c, Some (mkSyncResult ErrUnknownMemberID None))
  | Some g => let '(g', r) := syncEnter now memberID gen asg g in (<[groupID := g']> c, r)
  end.

Definition SyncResume (now deadline : Z) (groupID memberID : string) (gen : Z) (c : groups)
    : groups * option SyncResult :=
  match c !! groupID with
  | None => (c, Some (mkSyncResult ErrUnknownMemberID None))
  | Some g => let '(g', r) := syncResume now deadline memberID gen g in (<[groupID := g']> c, r)
  end.

Definition Heartbeat (now : Z) (groupID memberID : string) (gen : Z) (c : groups) : groups * Z :=
  match c !! groupID with
  | None => (c, ErrUnknownMemberID)
  | Some g => let '(g', r) := heartbeatGroup now memberID gen g in (<[groupID := g']> c, r)
  end.

Definition Leave (groupID memberID : string) (c : groups) : groups * Z :=
  match c !! groupID with
  | None => (c, ErrUnknownMemberID)
  | Some g => let '(g', r) := leaveGroup memberID g in (<[groupID := g']> c, r)
  end.

Definition reap (now : Z) (c : groups) : groups := reapGroup now <$> c.

(** ** Queries *)

Record GroupDescription := mkDescription {
  d_State : string; d_ProtocolType : string; d_Protocol : string;
  d_Members : list (string * option (list byte) * option (list byte)) }.

Definition DescribeGroup (id : string) (c : groups) : option GroupDescription :=
  g ← c !! id;
  Some (mkDescription (state_String (g_state g)) (protocolType g) (protocolName g)
    (map (fun '(_, m) => (m_id m, metadataFor m (protocolName g), assignment m)) (iter (members g)))).

Definition byGroupID (a b : string * string * string) : Prop := String.leb a.1.1 b.1.1 = true.
#[local] Instance byGroupID_dec : RelDecision byGroupID.
Proof. intros a b. unfold byGroupID. apply _. Defined.
Definition ListGroups (c : groups) : list (string * string * string) :=
  merge_sort byGroupID (map (fun '(_, g) => (g_id g, protocolType g, state_String (g_state g))) (map_to_list c)).

End Operations.

(** ** Well-formed groups *)

(** A group has a leader among its members exactly when it has members; it is
    Empty exactly when it has none; no member has the empty id. *)
Record group_wf (g : group) : Prop := {
  gw_empty : g_state g = stateEmpty <-> members g = ∅;
  gw_leader : members g <> ∅ -> is_Some (members g !! leaderID g);
  gw_noname : members g !! ""%string = None;
  gw_gen : 0 <= generation g }.

(** Room for one more generation. *)
Definition gen_room (g : group) : Prop := generation g < 2 ^ 31 - 1.

(** What an operation may do to a group: the generation never decreases; in the
    same generation the set of members and the leader stay, and a group that is
    Stable stays so. *)
Record group_step (g g' : group) : Prop := {
  gs_gen : generation g <= generation g' <= generation g + 1;
  gs_same : generation g' = generation g ->
    dom (members g') = dom (members g) /\ leaderID g' = leaderID g /\
    (g_state g = stateStable -> g_state g' = stateStable) }.

Lemma newGroup_wf id pt : group_wf (newGroup id pt).
Proof. by split; cbn; [|by intros []|rewrite lookup_empty|]. Qed.

Lemma group_step_refl g : group_step g g.
Proof. split; [lia|done]. Qed.

Lemma next_gen g : 0 <= generation g -> gen_room g -> int32 (generation g + 1) = generation g + 1.
Proof. intros H1 H2. unfold gen_room in H2. apply int32_id. eval_pow. lia. Qed.

Section Laws.
Context (iter : gmap string member -> list (string * member)).
(** Go visits every entry once, in some order. *)
Hypothesis iter_perm : forall ms, iter ms ≡ₚ map_to_list ms.

Lemma iter_nil ms : iter ms = [] <-> ms = ∅.
Proof.
  split.
  - intros H. pose proof (iter_perm ms) as Hp. rewrite H in Hp.
    by apply Permutation_nil, map_to_list_empty_iff in Hp.
  - intros ->. apply Permutation_nil. by rewrite iter_perm, map_to_list_empty.
Qed.

Lemma iter_elem ms id m : (id, m) ∈ iter ms <-> ms !! id = Some m.
Proof. by rewrite iter_perm, elem_of_map_to_list. Qed.

(** A new generation leaves a well-formed group, whatever the old leader. *)
Lemma rebalance_wf g :
  members g !! ""%string = None -> 0 <= generation g -> gen_room g ->
  group_wf (rebalanceLocked iter g) /\ generation (rebalanceLocked iter g) = generation g + 1.
Proof.
  intros Hn H0 Hr. unfold rebalanceLocked. rewrite next_gen by done.
  destruct (iter (members g)) as [|[id m] rest] eqn:E.
  - apply iter_nil in E. split; [|done]. split; cbn; [done|by intros []|done|lia].
  - assert (members g !! id = Some m) as Hm by (apply iter_elem; rewrite E; by left).
    split; [|done]. split; cbn.
    + split; [done|]. intros H%fmap_empty_inv. rewrite H in Hm. by rewrite lookup_empty in Hm.
    + intros _. rewrite lookup_fmap. destruct (members g !! leaderID g) as [m'|] eqn:El; [by rewrite El; eexists|].
      rewrite Hm. by eexists.
    + by rewrite lookup_fmap, Hn.
    + lia.
Qed.

Lemma joinID_ne rid args : joinID rid args <> ""%string.
Proof.
  unfold joinID. destruct (String.eqb_spec (a_MemberID args) ""); [|done].
  intros H%(f_equal String.length). rewrite string_length_app in H. change (String.length (_ +:+ rid)) with (S (String.length rid)) in H.
  cbn in H. lia.
Qed.

(** The member map after a join: the member is there, the others kept. *)
Lemma join_wf rid now args g :
  group_wf g -> gen_room g ->
  let '(g', r) := joinGroup iter rid now args g in
  group_wf g' /\ group_step g g' /\ is_Some (members g' !! j_MemberID r) /\
  j_GenerationID r = generation g' /\ j_LeaderID r = leaderID g' /\ j_ErrorCode r = ErrNone /\
  g_state g' = stateAwaitingSync /\
  (members g !! j_MemberID r = None \/ g_state g <> stateAwaitingSync -> generation g' = generation g + 1).
Proof.
  intros [Hwe Hwl Hwn Hwg] Hroom. unfold joinGroup. pose proof (joinID_ne rid args) as Hid.
  set (id := joinID rid args) in *. set (old := members g !! id).
  set (m := mkMember _ _ _ _ _ _). set (ms0 := <[id := m]> (members g)).
  assert (ms0 <> ∅) as Hne by apply insert_non_empty.
  assert (ms0 !! ""%string = None) as Hnn by (unfold ms0; by rewrite lookup_insert_ne).
  destruct (_ || negb _) eqn:Hc.
  - rewrite next_gen by done. set (ms := unsync <$> ms0).
    assert (is_Some (ms !! id)) as Him by (unfold ms, ms0; rewrite lookup_fmap, lookup_insert_eq; by eexists).
    assert (ms !! ""%string = None) as Hms by (unfold ms; by rewrite lookup_fmap, Hnn).
    cbn [members generation leaderID g_state j_MemberID j_GenerationID j_LeaderID j_ErrorCode].
    split_and!; try done; [split; cbn|split; cbn]; try lia; try done.
    + split; [done|]. intros H. apply fmap_empty_inv in H. done.
    + intros _. destruct (ms !! leaderID g) as [ml|] eqn:El; [|done].
      destruct (String.eqb_spec (leaderID g) ""); [done|]. rewrite El. by eexists.
  - apply orb_false_iff in Hc as [Hold Hst%negb_false_iff%bool_decide_eq_true].
    apply orb_false_iff in Hold as [_ Hold]. destruct old as [mo|] eqn:Eold; [|done].
    assert (members g <> ∅) as Hmne by (intros H; unfold old in Eold; by rewrite H, lookup_empty in Eold).
    destruct (Hwl Hmne) as [ml Hml].
    assert (leaderID g <> ""%string) as Hlne by (intros H; by rewrite H, Hwn in Hml).
    assert (is_Some (ms0 !! leaderID g)) as [ml' Hml'].
    { unfold ms0. destruct (decide (id = leaderID g)) as [->|]; [rewrite lookup_insert_eq|rewrite lookup_insert_ne by done]; by eexists. }
    rewrite Hml'. destruct (String.eqb_spec (leaderID g) ""); [done|].
    cbn [members generation leaderID g_state j_MemberID j_GenerationID j_LeaderID j_ErrorCode].
    split_and!; try done.
    + split; cbn; try done. rewrite Hst. split; [done|]. intros H. done.
    + split; cbn; [lia|]. intros _. split_and!; [|done|done].
      unfold ms0. rewrite dom_insert_L. assert (id ∈ dom (members g)) by (apply elem_of_dom; by exists mo). set_solver.
    + unfold ms0. rewrite lookup_insert_eq. by eexists.
    + intros [H|H]; [unfold old in Eold; congruence|done].
Qed.

Lemma setMembers_wf ms g :
  group_wf g -> dom ms = dom (members g) -> group_wf (setMembers ms g) /\ group_step g (setMembers ms g).
Proof.
  intros [He Hl Hn Hg] Hd. assert (ms = ∅ <-> members g = ∅) as Hem.
  { rewrite <- !dom_empty_iff_L. by rewrite Hd. }
  assert (forall k, is_Some (ms !! k) <-> is_Some (members g !! k)) as Hk
    by (intros k; rewrite <- !elem_of_dom; by rewrite Hd).
  split; split; cbn; try done; try lia.
  - by rewrite Hem.
  - intros H. apply Hk, Hl. by rewrite <- Hem.
  - destruct (ms !! ""%string) eqn:E; [|done]. destruct (Hk ""%string) as [H _].
    rewrite E, Hn in H. destruct H; [by eexists|done].
Qed.

Lemma insert_dom {A} (ms : gmap string A) id m m' : ms !! id = Some m -> dom (<[id := m']> ms) = dom ms.
Proof. intros H. rewrite dom_insert_L. assert (id ∈ dom ms) by (apply elem_of_dom; by exists m). set_solver. Qed.

Lemma store_dom asg ms : dom (storeAssignments asg ms) = dom ms.
Proof.
  apply set_eq. intros k. rewrite !elem_of_dom. unfold storeAssignments. rewrite map_lookup_imap.
  destruct (ms !! k); cbn; [split; by eexists|done].
Qed.

Lemma syncResume_wf now dl id gen g : group_wf g ->
  group_wf (fst (syncResume now dl id gen g)) /\ group_step g (fst (syncResume now dl id gen g)).
Proof.
  intros Hg. unfold syncResume. destruct (_ && _ && _); [split; [done|apply group_step_refl]|].
  destruct (negb _); [split; [done|apply group_step_refl]|].
  destruct (members g !! id) as [m|] eqn:Em; [|split; [done|apply group_step_refl]].
  cbn [syncDone fst]. apply setMembers_wf; [done|]. by eapply insert_dom.
Qed.

Lemma syncEnter_wf now id gen asg g : group_wf g ->
  group_wf (fst (syncEnter now id gen asg g)) /\ group_step g (fst (syncEnter now id gen asg g)).
Proof.
  intros Hg. unfold syncEnter. destruct (members g !! id) as [m|] eqn:Em; [|split; [done|apply group_step_refl]].
  destruct (negb _); [split; [done|apply group_step_refl]|].
  destruct (String.eqb id (leaderID g)); [|by apply syncResume_wf].
  cbn [syncDone fst]. set (ms := storeAssignments asg (members g)).
  set (g1 := mkGroup _ _ _ _ _ stateStable ms).
  assert (is_Some (ms !! id)) as [m1 Hm1].
  { apply elem_of_dom. unfold ms. rewrite store_dom. apply elem_of_dom. by exists m. }
  assert (dom (<[id := heard now true (default m (ms !! id))]> ms) = dom (members g)) as Hdom.
  { erewrite insert_dom by done. apply store_dom. }
  destruct (setMembers_wf (<[id := heard now true (default m (ms !! id))]> ms) g Hg Hdom) as [[We Wl Wn Wg] Ws].
  cbn in *. split; split; cbn; try done.
  - split; [done|]. intros H. apply dom_empty_iff_L in H. rewrite Hdom, dom_empty_iff_L in H. by rewrite H in Em.
  - lia.
Qed.

Lemma heartbeat_wf now id gen g : group_wf g ->
  group_wf (fst (heartbeatGroup now id gen g)) /\ group_step g (fst (heartbeatGroup now id gen g)).
Proof.
  intros Hg. unfold heartbeatGroup. destruct (members g !! id) as [m|] eqn:Em; [|split; [done|apply group_step_refl]].
  destruct (gen <? generation g); [split; [done|apply group_step_refl]|].
  destruct (generation g <? gen); [split; [done|apply group_step_refl]|].
  apply setMembers_wf; [done|]. by eapply insert_dom.
Qed.

Lemma rebalance_step g ms :
  group_wf g -> gen_room g -> ms !! ""%string = None ->
  group_wf (rebalanceLocked iter (setMembers ms g)) /\ group_step g (rebalanceLocked iter (setMembers ms g)) /\
  generation (rebalanceLocked iter (setMembers ms g)) = generation g + 1.
Proof.
  intros [_ _ _ Hg] Hr Hn. destruct (rebalance_wf (setMembers ms g)) as [Hw He]; [done|done|done|].
  split_and!; [done| |done]. split; cbn in *; lia.
Qed.

Lemma leave_wf id g : group_wf g -> gen_room g ->
  group_wf (fst (leaveGroup iter id g)) /\ group_step g (fst (leaveGroup iter id g)).
Proof.
  intros Hg Hr. unfold leaveGroup. destruct (members g !! id) as [m|] eqn:Em; [|split; [done|apply group_step_refl]].
  destruct (rebalance_step g (delete id (members g)) Hg Hr) as (H1 & H2 & _); [|by split].
  apply lookup_delete_None. right. apply Hg.
Qed.

Lemma delete_all_lookup (dead : list (string * member)) (ms : gmap string member) k :
  foldl (fun ms '(id, _) => delete id ms) ms dead !! k = if decide (k ∈ dead.*1) then None else ms !! k.
Proof.
  revert ms. induction dead as [|[id m] dead IH]; intros ms; [done|]. cbn [foldl fmap list_fmap fst]. rewrite IH.
  destruct (decide (k ∈ dead.*1)) as [Hin|Hout].
  - rewrite decide_True by (by right). done.
  - destruct (decide (k = id)) as [->|Hne].
    + rewrite decide_True by (by left). by rewrite lookup_delete_eq.
    + rewrite decide_False by (rewrite elem_of_cons; naive_solver). by rewrite lookup_delete_ne.
Qed.

Lemma reap_wf now g : group_wf g -> gen_room g ->
  group_wf (reapGroup iter now g) /\ group_step g (reapGroup iter now g).
Proof.
  intros Hg Hr. unfold reapGroup. destruct (List.filter _ _) as [|d dead]; [split; [done|apply group_step_refl]|].
  destruct (rebalance_step g (foldl (fun ms '(id, _) => delete id ms) (members g) (d :: dead)) Hg Hr) as (H1 & H2 & _); [|by split].
  rewrite delete_all_lookup. destruct (decide _); [done|apply Hg].
Qed.

(** ** Reachable coordinators *)

(** One operation of the coordinator, with any arguments, random ids and clock.
    A waiting SyncGroup may be resumed at any time, by a broadcast or by its
    deadline. *)
Inductive coord_step (c : gmap string group) : gmap string group -> Prop :=
  | step_join rid now args : coord_step c (fst (Join iter rid now args c))
  | step_sync now gid mid gen asg : coord_step c (fst (SyncEnter now gid mid gen asg c))
  | step_resume now dl gid mid gen : coord_step c (fst (SyncResume now dl gid mid gen c))
  | step_heartbeat now gid mid gen : coord_step c (fst (Heartbeat now gid mid gen c))
  | step_leave gid mid : coord_step c (fst (Leave iter gid mid c))
  | step_reap now : coord_step c (reap iter now c).

(** Steps of coordinators whose generations have not reached the int32 limit. *)
Definition bounded_step (c c' : gmap string group) : Prop :=
  map_Forall (fun _ g => gen_room g) c /\ coord_step c c'.

(** What a step does to each group; groups are never removed. *)
Definition coord_evolves (c c' : gmap string group) : Prop :=
  forall id g, c !! id = Some g -> exists g', c' !! id = Some g' /\ generation g <= generation g'.

Lemma insert_step (c : gmap string group) gid g g' :
  map_Forall (fun _ g => group_wf g) c -> c !! gid = Some g -> group_wf g' /\ group_step g g' ->
  map_Forall (fun _ g => group_wf g) (<[gid := g']> c) /\
  (forall id h, c !! id = Some h -> exists h', <[gid := g']> c !! id = Some h' /\ group_step h h').
Proof.
  intros Hw Hg [Hwf Hst]. split; [by apply map_Forall_insert_2|].
  intros id h Hh. destruct (decide (gid = id)) as [<-|Hne].
  - rewrite lookup_insert_eq. simplify_eq. by exists g'.
  - rewrite lookup_insert_ne by done. exists h. split; [done|apply group_step_refl].
Qed.

Lemma coord_step_wf (c c' : gmap string group) :
  map_Forall (fun _ g => group_wf g) c -> bounded_step c c' ->
  map_Forall (fun _ g => group_wf g) c' /\
  (forall id h, c !! id = Some h -> exists h', c' !! id = Some h' /\ group_step h h').
Proof.
  intros Hw [Hb Hs].
  assert (map_Forall (fun _ g => group_wf g) c /\
    (forall id h, c !! id = Some h -> exists h', c !! id = Some h' /\ group_step h h')) as Hrefl.
  { split; [done|]. intros id h Hh. exists h. split; [done|apply group_step_refl]. }
  destruct Hs as [rid now args|now gid mid gen asg|now dl gid mid gen|now gid mid gen|gid mid|now].
  - unfold Join, getOrCreate. destruct (c !! a_GroupID args) as [g|] eqn:Eg; cbn [default from_option].
    + pose proof (join_wf rid now args g (Hw _ _ Eg) (Hb _ _ Eg)) as Hj.
      destruct (joinGroup _ _ _ _ _) as [g' r]. destruct Hj as (H1 & H2 & _). by eapply insert_step.
    + pose proof (join_wf rid now args _ (newGroup_wf (a_GroupID args) (a_ProtocolType args)) ltac:(done)) as Hj.
      cbn [id] in *. destruct (joinGroup _ _ _ _ _) as [g' r]. destruct Hj as (H1 & _). cbn [fst].
      split; [by apply map_Forall_insert_2|]. intros id h Hh. exists h.
      rewrite lookup_insert_ne by congruence. split; [done|apply group_step_refl].
  - unfold SyncEnter. destruct (c !! gid) as [g|] eqn:Eg; [|done].
    pose proof (syncEnter_wf now mid gen asg g (Hw _ _ Eg)). destruct (syncEnter _ _ _ _ _). by eapply insert_step.
  - unfold SyncResume. destruct (c !! gid) as [g|] eqn:Eg; [|done].
    pose proof (syncResume_wf now dl mid gen g (Hw _ _ Eg)). destruct (syncResume _ _ _ _ _). by eapply insert_step.
  - unfold Heartbeat. destruct (c !! gid) as [g|] eqn:Eg; [|done].
    pose proof (heartbeat_wf now mid gen g (Hw _ _ Eg)). destruct (heartbeatGroup _ _ _ _). by eapply insert_step.
  - unfold Leave. destruct (c !! gid) as [g|] eqn:Eg; [|done].
    pose proof (leave_wf mid g (Hw _ _ Eg) (Hb _ _ Eg)). destruct (leaveGroup _ _ _). by eapply insert_step.
  - unfold reap. split.
    + intros id g' Hg. rewrite lookup_fmap in Hg. apply fmap_Some in Hg as (g & Hg & ->).
      by apply reap_wf; [apply (Hw _ _ Hg)|apply (Hb _ _ Hg)].
    + intros id h Hh. exists (reapGroup iter now h). rewrite lookup_fmap, Hh. split; [done|].
      by apply reap_wf; [apply (Hw _ _ Hh)|apply (Hb _ _ Hh)].
Qed.

Lemma coord_steps_wf (c c' : gmap string group) :
  map_Forall (fun _ g => group_wf g) c -> rtc bounded_step c c' ->
  map_Forall (fun _ g => group_wf g) c' /\ coord_evolves c c'.
Proof.
  intros Hw Hs. induction Hs as [c|c c1 c2 H1 _ IH].
  - split; [done|]. intros id g Hg. exists g. split; [done|lia].
  - destruct (coord_step_wf _ _ Hw H1) as [Hw1 He1]. destruct (IH Hw1) as [Hw2 He2]. split; [done|].
    intros id g Hg. destruct (He1 _ _ Hg) as (g1 & Hg1 & Hst). destruct (He2 _ _ Hg1) as (g2 & Hg2 & Hle).
    exists g2. split; [done|]. destruct Hst. lia.
Qed.
End Laws.

Lemma store_lookup asg ms id m :
  ms !! id = Some m ->
  storeAssignments asg ms !! id = Some (match asg !! id with Some a => withAssignment a m | None => m end).
Proof. intros H. unfold storeAssignments. by rewrite map_lookup_imap, H. Qed.

(** ** A concrete group: two members, one generation each *)

Definition joinArgs (mid : string) : JoinArgs :=
  mkJoinArgs "g" mid "c" "consumer" [mkProtocol "range" (Some [])] 10000.
Definition demoGroups : gmap string group :=
  let c1 := fst (Join map_to_list "r1" 0 (joinArgs "a") ∅) in
  fst (Join map_to_list "r2" 1 (joinArgs "b") c1).

Lemma demo_reachable : rtc (bounded_step map_to_list) ∅ demoGroups.
Proof.
  eapply rtc_l; [split; [apply map_Forall_empty|apply (step_join map_to_list _ "r1" 0 (joinArgs "a"))]|].
  eapply rtc_l; [split; [|apply (step_join map_to_list _ "r2" 1 (joinArgs "b"))]|apply rtc_refl].
  apply map_Forall_insert_2; [done|apply map_Forall_empty].
Qed.

(** ** Properties *)

(** C26: groups stay well-formed.  In every coordinator reachable from an empty one
    by joins, syncs, wake-ups of waiting syncs, heartbeats, leaves and reaps, in
    any order, with any clock and any map iteration order, each group has its
    leader among its members, is Empty exactly when it has none, and has no
    unnamed member; no group disappears and no generation goes back. *)
Theorem coordinator_invariant iter c c' :
  (forall ms, iter ms ≡ₚ map_to_list ms) -> rtc (bounded_step iter) ∅ c -> rtc (bounded_step iter) c c' ->
  map_Forall (fun _ g => group_wf g) c' /\ coord_evolves c c'.
Proof.
  intros Hi H1 H2. destruct (coord_steps_wf iter Hi ∅ c (map_Forall_empty _) H1) as [Hw _].
  by eapply coord_steps_wf.
Qed.

Lemma coordinator_invariant_witness :
  exists g, demoGroups !! "g" = Some g /\ group_wf g /\ generation g = 2 /\ leaderID g = "a".
Proof.
  destruct (coordinator_invariant map_to_list demoGroups demoGroups ltac:(done) demo_reachable (rtc_refl _ _)) as [Hw _].
  eexists. split; [vm_compute; reflexivity|]. split; [|vm_compute; split; reflexivity].
  apply (Hw "g"). vm_compute. reflexivity.
Defined.

(** What a group answers a request that names the generation [gen], older than its
    own: a heartbeat and a sync are refused, a sync that was waiting is told to
    rejoin, and none of them changes anything. *)
Definition fences (gen : Z) (g : group) : Prop :=
  forall now deadline id asg,
    let known := bool_decide (is_Some (members g !! id)) in
    heartbeatGroup now id gen g = (g, if known then ErrRebalanceInProgress else ErrUnknownMemberID) /\
    syncEnter now id gen asg g = (g, Some (mkSyncResult (if known then ErrIllegalGeneration else ErrUnknownMemberID) None)) /\
    syncResume now deadline id gen g = (g, Some (mkSyncResult ErrRebalanceInProgress None)).

Lemma older_fenced gen g : gen < generation g -> fences gen g.
Proof.
  intros Hlt now deadline id asg. unfold heartbeatGroup, syncEnter, syncResume. rewrite (proj2 (Z.eqb_neq _ _)) by lia.
  rewrite (proj2 (Z.ltb_lt _ _)) by done. cbn [negb]. rewrite andb_false_r.
  case_bool_decide as Hm; [destruct Hm as [m ->]; done|]. destruct (members g !! id); [by destruct Hm|done].
Qed.

(** C27: membership changes fence the old generation.  A join by a new member, a
    join of a group that is not rebalancing, a leave, and the eviction of a dead
    member each open the next generation, in which the joining member is present
    and the departed one is not, and a rebalancing group waits for its leader.
    From then on every request that names an older generation is refused: the
    heartbeat and the sync of a remaining member, which tells it to rejoin, the
    sync it was already waiting in, and any request of the departed one; none of
    them changes the group.  The join answers the new generation and a leader that
    is a member, and the joining member's heartbeat in it is accepted. *)
Theorem rebalance_opens_generation iter rid now args mid g :
  (forall ms, iter ms ≡ₚ map_to_list ms) -> group_wf g -> gen_room g ->
  (let '(g', r) := joinGroup iter rid now args g in
   is_Some (members g' !! j_MemberID r) /\ j_GenerationID r = generation g' /\ j_LeaderID r = leaderID g' /\
   is_Some (members g' !! leaderID g') /\ g_state g' = stateAwaitingSync /\
   (forall t, snd (heartbeatGroup t (j_MemberID r) (j_GenerationID r) g') = ErrNone) /\
   (members g !! j_MemberID r = None \/ g_state g <> stateAwaitingSync ->
    generation g' = generation g + 1 /\ forall gen, gen <= generation g -> fences gen g')) /\
  (is_Some (members g !! mid) ->
   let g' := fst (leaveGroup iter mid g) in
   snd (leaveGroup iter mid g) = ErrNone /\ members g' !! mid = None /\ generation g' = generation g + 1 /\ g_state g' <> stateStable /\
   forall gen, gen <= generation g -> fences gen g') /\
  (forall id m, members g !! id = Some m -> isDead now m = true ->
   let g' := reapGroup iter now g in
   members g' !! id = None /\ generation g' = generation g + 1 /\ g_state g' <> stateStable /\
   forall gen, gen <= generation g -> fences gen g').
Proof.
  intros Hi Hg Hr.
  assert (forall h, g_state (rebalanceLocked iter h) <> stateStable) as Hns.
  { intros h. unfold rebalanceLocked. by destruct (iter (members h)) as [|[? ?] ?]. }
  assert (forall h id, members h !! id = None -> members (rebalanceLocked iter h) !! id = None) as Hno.
  { intros h id H. unfold rebalanceLocked. destruct (iter (members h)) as [|[? ?] ?]; cbn; [done|]. by rewrite lookup_fmap, H. }
  split_and!.
  - pose proof (join_wf iter Hi rid now args g Hg Hr) as Hj. destruct (joinGroup _ _ _ _ _) as [g' r].
    destruct Hj as (Hw & _ & Hm & H1 & H2 & _ & H3 & H4). split_and!; try done.
    + apply Hw. intros He. rewrite He in Hm. by destruct Hm.
    + intros t. unfold heartbeatGroup. rewrite H1, Z.ltb_irrefl. by destruct Hm as [m ->].
    + intros Hor. split; [by apply H4|]. intros gen Hle. apply older_fenced. rewrite (H4 Hor). lia.
  - intros [m Hm]. unfold leaveGroup. rewrite Hm. cbn [fst snd].
    destruct (rebalance_step iter Hi g (delete mid (members g)) Hg Hr) as (_ & _ & He).
    { apply lookup_delete_None. right. apply Hg. }
    split_and!; [done| |done|apply Hns|intros gen Hle; apply older_fenced; lia]. apply Hno. cbn. by rewrite lookup_delete_eq.
  - intros id m Hm Hd. cbn zeta. unfold reapGroup.
    assert ((id, m) ∈ List.filter (fun '(_, m) => isDead now m) (iter (members g))) as Hin.
    { apply list_elem_of_In, filter_In. split; [|done]. apply list_elem_of_In. by apply iter_elem. }
    destruct (List.filter _ _) as [|d dead] eqn:Ef; [by apply elem_of_nil in Hin|]. rewrite <- Ef in *.
    set (dl := List.filter _ _) in *.
    destruct (rebalance_step iter Hi g (foldl (fun ms '(id, _) => delete id ms) (members g) dl) Hg Hr) as (_ & _ & He).
    { rewrite delete_all_lookup. destruct (decide _); [done|apply Hg]. }
    split_and!; [|done|apply Hns|intros gen Hle; apply older_fenced; lia]. apply Hno. cbn. rewrite delete_all_lookup.
    rewrite decide_True; [done|]. apply list_elem_of_fmap. by exists (id, m).
Qed.

Lemma rebalance_opens_generation_witness :
  exists g, demoGroups !! "g" = Some g /\ members (fst (leaveGroup map_to_list "a" g)) !! "a" = None.
Proof.
  destruct (coord_steps_wf map_to_list ltac:(done) ∅ demoGroups (map_Forall_empty _) demo_reachable) as [Hw _].
  eexists. split; [vm_compute; reflexivity|].
  refine (proj1 (proj2 (proj1 (proj2 (rebalance_opens_generation map_to_list "r" 0 (joinArgs "b") "a" _ _ _ _)) _))).
  - done.
  - apply (Hw "g"). vm_compute. reflexivity.
  - vm_compute. reflexivity.
  - eexists. vm_compute. reflexivity.
Defined.

(** SyncGroup.  Only a member that names the current generation gets an
    assignment; a wrong generation or an unknown member is refused and changes
    nothing.  When the leader syncs, the group becomes Stable, and from then on
    every member the leader gave an assignment receives exactly that one in this
    generation, whether it asks afterwards or was already waiting.  A member
    whose wait is overtaken by a new generation is told to rejoin. *)
Theorem sync_distributes now now' dl gen asg asg' leader id g m a :
  group_wf g -> members g !! id = Some m -> leader = leaderID g -> id <> leader ->
  (members g !! leader = None \/ gen <> generation g ->
   exists code, syncEnter now leader gen asg g = (g, Some (mkSyncResult code None)) /\ code <> ErrNone) /\
  (gen <> generation g -> syncResume now' dl id gen g = (g, Some (mkSyncResult ErrRebalanceInProgress None))) /\
  (gen = generation g -> asg !! id = Some a ->
   let g1 := fst (syncEnter now leader gen asg g) in
   g_state g1 = stateStable /\ generation g1 = generation g /\
   snd (syncEnter now' id gen asg' g1) = Some (mkSyncResult ErrNone a) /\
   snd (syncResume now' dl id gen g1) = Some (mkSyncResult ErrNone a)).
Proof.
  intros Hg Hm -> Hne. split_and!.
  - intros H. unfold syncEnter. destruct (members g !! leaderID g) as [ml|]; [|by eexists].
    destruct H as [|H]; [done|]. rewrite (proj2 (Z.eqb_neq _ _)) by done. by eexists.
  - intros H. unfold syncResume. rewrite (proj2 (Z.eqb_neq _ _)) by done. cbn [negb]. by rewrite andb_false_r.
  - intros -> Ha. cbn zeta.
    destruct (gw_leader _ Hg) as [ml Hml]; [intros He; by rewrite He in Hm|].
    assert (exists g1, syncEnter now (leaderID g) (generation g) asg g = (g1, Some (mkSyncResult ErrNone (assignment (default ml (storeAssignments asg (members g) !! leaderID g))))) /\
      g_state g1 = stateStable /\ generation g1 = generation g /\ leaderID g1 = leaderID g /\
      members g1 !! id = Some (withAssignment a m)) as (g1 & -> & H1 & H2 & H3 & H4).
    { eexists. unfold syncEnter. rewrite Hml, Z.eqb_refl, String.eqb_refl. cbn [negb syncDone]. split; [reflexivity|].
      cbn. split_and!; try done. rewrite lookup_insert_ne by done. by rewrite (store_lookup asg _ _ _ Hm), Ha. }
    cbn [fst]. assert (snd (syncResume now' dl id (generation g) g1) = Some (mkSyncResult ErrNone a)) as Hres.
    { unfold syncResume. rewrite bool_decide_eq_true_2 by done. cbn [negb andb]. rewrite H2, Z.eqb_refl. cbn [negb].
      by rewrite H4. }
    split_and!; try done. unfold syncEnter. rewrite H4, H2, Z.eqb_refl, H3. cbn [negb].
    destruct (String.eqb_spec id (leaderID g)); [done|]. unfold syncResume in *.
    rewrite bool_decide_eq_true_2 by done. cbn [negb andb]. rewrite H2, Z.eqb_refl. cbn [negb]. by rewrite H4.
Qed.

Lemma sync_distributes_witness :
  exists g, demoGroups !! "g" = Some g /\
    snd (syncResume 9 30005 "b" 2 (fst (syncEnter 5 "a" 2 {["b"%string := Some (be_put 1 7)]} g))) =
    Some (mkSyncResult ErrNone (Some (be_put 1 7))).
Proof.
  destruct (coord_steps_wf map_to_list ltac:(done) ∅ demoGroups (map_Forall_empty _) demo_reachable) as [Hw _].
  eexists. split; [vm_compute; reflexivity|].
  refine (proj2 (proj2 (proj2 (proj2 (proj2 (sync_distributes 5 9 30005 2 {["b"%string := Some (be_put 1 7)]} ∅ "a" "b" _ _ _ _ _ _ _)) _ _)))).
  - apply (Hw "g"). vm_compute. reflexivity.
  - vm_compute. reflexivity.
  - vm_compute. reflexivity.
  - discriminate.
  - vm_compute. reflexivity.
  - vm_compute. reflexivity.
Defined.

(** a follower whose wait runs into its deadline is answered its assignment of
    an earlier generation without an error.  Members a and b share generation 2,
    where the leader a assigns partition 7 to b; after a rejoins (generation 3),
    b syncs in generation 3 and its wait expires before a has synced: b is
    answered success with the assignment of generation 2. *)
Theorem sync_timeout_returns_stale :
  let c1 := fst (SyncEnter 5 "g" "a" 2 {["b"%string := Some (be_put 1 7)]} demoGroups) in
  let c2 := fst (Join map_to_list "r" 6 (joinArgs "a") c1) in
  j_GenerationID (snd (Join map_to_list "r" 6 (joinArgs "a") c1)) = 3 /\
  snd (SyncEnter 7 "g" "b" 3 ∅ c2) = None /\
  snd (SyncResume 30007 (7 + syncWaitTimeout) "g" "b" 3 c2) = Some (mkSyncResult ErrNone (Some (be_put 1 7))).
Proof. split; [|split]; vm_compute; reflexivity. Qed.

(** heartbeats.  A heartbeat is accepted exactly for a member of the current
    generation, refreshes only that member's clock, and keeps it from being
    evicted for its session timeout; an older generation is told to rejoin, a
    newer one and a stranger are refused, and none of these changes the group. *)
Theorem heartbeat_correct now mid gen g :
  match members g !! mid with
  | None => heartbeatGroup now mid gen g = (g, ErrUnknownMemberID)
  | Some m =>
    (gen < generation g -> heartbeatGroup now mid gen g = (g, ErrRebalanceInProgress)) /\
    (generation g < gen -> heartbeatGroup now mid gen g = (g, ErrIllegalGeneration)) /\
    (gen = generation g -> exists g' m', heartbeatGroup now mid gen g = (g', ErrNone) /\
       members g' = <[mid := m']> (members g) /\ generation g' = generation g /\ g_state g' = g_state g /\
       leaderID g' = leaderID g /\ assignment m' = assignment m /\
       forall later, later <= now + sessionTimeout m -> isDead later m' = false)
  end.
Proof.
  unfold heartbeatGroup. destruct (members g !! mid) as [m|]; [|done]. split_and!.
  - intros H. by ltb_true.
  - intros H. ltb_false. by ltb_true.
  - intros ->. rewrite Z.ltb_irrefl. eexists _, _. split; [reflexivity|]. cbn. split_and!; try done.
    intros later Hl. unfold isDead. cbn. apply Z.ltb_ge. lia.
Qed.
