(* ===== verification/Offsets.v ===== *)
(** * internal/group/offsets.go: the committed-offset store

    Commits are kept in a cache and in one file per (group, topic, partition),
    written to a temporary file and renamed.  The disk is a map from (group
    directory, file name) to contents, the group "" being the offsets directory
    itself ([filepath.Join] drops an empty element).  The theorems are about
    groups and topics that are single path components ([key_ok]).  They show
    that the store is a map, that a failed or interrupted commit changes no
    committed offset, and that reloading the directory gives the cache back. *)

From Stdlib Require Import Ascii.
From stdpp Require Import sorting.
From S2P Require Import Prelude Kbytes Strconv Cluster.

Abbreviation offsetKey := (string * string * Z)%type.
Record committed := mkCommitted { c_offset : Z; c_metadata : string }.

Abbreviation disk := (gmap (string * string) (list byte)).
Record OffsetStore := mkStore { files : disk; cache : gmap offsetKey committed }.

(** ** The file format *)

Definition encodeCommit (offset : Z) (metadata : string) : list byte :=
  be_put 8 (uint64 offset) ++ be_put 4 (uint32 (zlen (bytes_of_string metadata))) ++ bytes_of_string metadata.

Definition decodeCommit (b : list byte) : option (Z * string) :=
  if zlen b <? 12 then None
  else
    let offset := int64 (be_get (sub b 0 8)) in
    let mlen := be_get (sub b 8 4) in
    if zlen b <? 12 + mlen then Some (offset, ""%string)
    else Some (offset, string_of_bytes (sub b 12 (Z.to_nat mlen))).

(** ** Writing *)

Definition fileName (topic : string) (p : Z) : string := (topic +:+ "-" +:+ Itoa p)%string.
Definition tmpName (name : string) : string := (name +:+ ".tmp")%string.

(** The outcome of the calls of a commit: making the directory, writing the
    temporary file (an error after [n] bytes), renaming it. *)
Inductive commitIO := CommitOk | MkdirFails | WriteFails (n : nat) | RenameFails.

Definition writeAtomic (e : commitIO) (g name : string) (data : list byte) (d : disk) : disk * option error :=
  match e with
  | WriteFails n => (<[(g, tmpName name) := take n data]> d, Some ErrIO)
  | RenameFails => (<[(g, tmpName name) := data]> d, Some ErrIO)
  | _ => (<[(g, name) := data]> (delete (g, tmpName name) (<[(g, tmpName name) := data]> d)), None)
  end.

Definition Commit (e : commitIO) (g topic : string) (p offset : Z) (metadata : string) (s : OffsetStore)
    : OffsetStore * option error :=
  match e with
  | MkdirFails => (s, Some ErrIO)
  | _ =>
    match writeAtomic e g (fileName topic p) (encodeCommit offset metadata) (files s) with
    | (d, Some er) => (mkStore d (cache s), Some er)
    | (d, None) => (mkStore d (<[(g, topic, p) := mkCommitted offset metadata]> (cache s)), None)
    end
  end.

Definition Fetch (g topic : string) (p : Z) (s : OffsetStore) : Z * string * bool :=
  match cache s !! (g, topic, p) with
  | None => (-1, ""%string, false)
  | Some c => (c_offset c, c_metadata c, true)
  end.

Definition ListCommitted (s : OffsetStore) : list (string * string * Z * Z) :=
  map (fun '(k, c) => (k, c_offset c)) (map_to_list (cache s)).

(** ** Loading *)

(** What one file contributes to the cache; the files of the offsets directory
    itself are no group's ([!g.IsDir()]). *)
Definition loadFile (g name : string) (data : list byte) : option (offsetKey * committed) :=
  if String.eqb g "" || HasSuffix name ".tmp" then None
  else
    match LastIndex name "-" with
    | None => None
    | Some i =>
      p ← Atoi (string_drop (S i) name);
      '(off, meta) ← decodeCommit data;
      Some ((g, string_take i name, int32 p), mkCommitted off meta)
    end.

(** os.ReadDir lists names in order; a later file replaces an earlier entry. *)
Definition byPath (a b : (string * string) * list byte) : Prop :=
  (if String.eqb a.1.1 b.1.1 then String.leb a.1.2 b.1.2 else String.leb a.1.1 b.1.1) = true.
#[export] Instance byPath_dec : RelDecision byPath.
Proof. intros a b. unfold byPath. apply _. Defined.

Definition load (d : disk) : gmap offsetKey committed :=
  foldl (fun cache '((g, name), data) =>
           match loadFile g name data with Some (k, c) => <[k := c]> cache | None => cache end)
    ∅ (merge_sort byPath (map_to_list d)).

Definition NewOffsetStore (d : disk) : OffsetStore := mkStore d (load d).

(** ** The format round-trips *)

Lemma decode_encode offset metadata :
  in_int 64 offset -> zlen (bytes_of_string metadata) < 2 ^ 32 ->
  decodeCommit (encodeCommit offset metadata) = Some (offset, metadata).
Proof.
  intros Ho Hm. unfold decodeCommit, encodeCommit. set (md := bytes_of_string metadata) in *.
  pose proof (zlen_nonneg md). rewrite !zlen_app, !zlen_be_put. ltb_false.
  assert (sub (be_put 8 (uint64 offset) ++ be_put 4 (uint32 (zlen md)) ++ md) 0 8 = be_put 8 (uint64 offset)) as ->.
  { unfold sub. rewrite drop_0. apply take_app_length'. by rewrite length_be_put. }
  assert (sub (be_put 8 (uint64 offset) ++ be_put 4 (uint32 (zlen md)) ++ md) 8 4 = be_put 4 (uint32 (zlen md))) as ->.
  { unfold sub. rewrite drop_app_length' by (by rewrite length_be_put). apply take_app_length'. by rewrite length_be_put. }
  rewrite int64_be, swrap_uwrap, swrap_id by (done || lia).
  rewrite be_get_put. unfold uwrap. change (256 ^ Z.of_nat 4) with (2 ^ 32). rewrite Zmod_mod, Z.mod_small by lia.
  ltb_false. do 2 f_equal. unfold sub. rewrite app_assoc, drop_app_length' by (by rewrite length_app, !length_be_put).
  rewrite take_ge by (unfold zlen; lia). apply string_of_bytes_of_string.
Qed.

(** ** File names round-trip *)

Fixpoint no_char (c : ascii) (s : string) : bool :=
  match s with EmptyString => true | String d s => negb (Ascii.eqb d c) && no_char c s end.

Lemma LastIndex_none c s : no_char c s = true -> LastIndex s c = None.
Proof.
  induction s as [|d s IH]; cbn; [done|]. intros [Hd%negb_true_iff Hs]%andb_prop. by rewrite (IH Hs), Hd.
Qed.

Lemma LastIndex_app c a b : no_char c b = true -> LastIndex (a +:+ String c b) c = Some (String.length a).
Proof.
  intros Hb. induction a as [|d a IH].
  - change (("" +:+ String c b)%string) with (String c b). cbn [LastIndex]. by rewrite LastIndex_none, Ascii.eqb_refl.
  - change ((String d a +:+ String c b)%string) with (String d (a +:+ String c b)). cbn [LastIndex]. by rewrite IH.
Qed.

Lemma no_char_app c a b : no_char c (a +:+ b) = no_char c a && no_char c b.
Proof.
  induction a as [|d a IH]; [done|]. change ((String d a +:+ b)%string) with (String d (a +:+ b)).
  cbn [no_char]. rewrite IH. by destruct (negb _).
Qed.

Lemma put_digits_no_char c w z : is_digit c = false -> no_char c (put_digits w z) = true.
Proof.
  intros Hc. revert z. induction w as [|w IH]; intros z; [done|]. cbn [put_digits]. rewrite no_char_app, IH. cbn.
  rewrite andb_true_r. apply negb_true_iff. destruct (Ascii.eqb_spec (digit_char (z mod 10)) c) as [<-|]; [|done].
  rewrite is_digit_char in Hc; [done|]. apply Z.mod_pos_bound. lia.
Qed.

Lemma Itoa_no_char c p : 0 <= p -> is_digit c = false -> no_char c (Itoa p) = true.
Proof. intros Hp Hc. unfold Itoa. ltb_false. by apply put_digits_no_char. Qed.

Lemma string_drop_S a c b : string_drop (S (String.length a)) (a +:+ String c b) = b.
Proof. induction a as [|d a IH]; [by destruct b|exact IH]. Qed.

Lemma fileName_split topic p : 0 <= p ->
  LastIndex (fileName topic p) "-" = Some (String.length topic) /\
  string_take (String.length topic) (fileName topic p) = topic /\
  string_drop (S (String.length topic)) (fileName topic p) = Itoa p.
Proof.
  intros Hp. unfold fileName. change (("-" +:+ Itoa p)%string) with (String "-" (Itoa p)). split_and!.
  - apply LastIndex_app. by apply Itoa_no_char.
  - apply string_take_app.
  - apply string_drop_S.
Qed.

(** The last character of a string. *)
Fixpoint lastChar (s : string) : option ascii :=
  match s with EmptyString => None | String c s => match lastChar s with Some d => Some d | None => Some c end end.

Lemma lastChar_app a c b : lastChar (a +:+ String c b) = lastChar (String c b).
Proof.
  induction a as [|d a IH]; [done|]. change ((String d a +:+ String c b)%string) with (String d (a +:+ String c b)).
  cbn [lastChar]. rewrite IH. cbn. by destruct (lastChar b).
Qed.

Lemma string_take_drop n s : (string_take n s +:+ string_drop n s)%string = s.
Proof.
  revert n. induction s as [|c s IH]; intros [|n]; try done.
  change ((String c (string_take n s) +:+ string_drop n s)%string = String c s). 
  change (String c (string_take n s +:+ string_drop n s) = String c s). by rewrite IH.
Qed.

Lemma HasSuffix_split s suf : HasSuffix s suf = true -> exists a, s = (a +:+ suf)%string.
Proof.
  unfold HasSuffix. intros [_ H%bool_decide_eq_true]%andb_prop. exists (string_take (String.length s - String.length suf) s).
  rewrite <- H at 2. symmetry. apply string_take_drop.
Qed.

Lemma Itoa_last p : 0 <= p -> exists d, lastChar (Itoa p) = Some d /\ is_digit d = true.
Proof.
  intros Hp. unfold Itoa. ltb_false. destruct (ndigits_pos 18 p) as [k ->]. cbn [put_digits].
  rewrite lastChar_app. eexists. split; [reflexivity|]. apply is_digit_char, Z.mod_pos_bound. lia.
Qed.

(** The file of a commit is never taken for a temporary one. *)
Lemma fileName_not_tmp topic p : 0 <= p -> HasSuffix (fileName topic p) ".tmp" = false.
Proof.
  intros Hp. destruct (HasSuffix _ _) eqn:E; [|done]. apply HasSuffix_split in E as [a Ha].
  destruct (Itoa_last p Hp) as (d & Hd & Hdig).
  assert (lastChar (fileName topic p) = Some d) as Hl.
  { unfold fileName. change (("-" +:+ Itoa p)%string) with (String "-" (Itoa p)). rewrite lastChar_app.
    cbn [lastChar]. by rewrite Hd. }
  rewrite Ha in Hl. change ".tmp"%string with (String "." "tmp") in Hl. rewrite lastChar_app in Hl. cbn in Hl.
  injection Hl as <-. done.
Qed.

Lemma fileName_inj t p t' p' : in_int 32 p -> in_int 32 p' -> 0 <= p -> 0 <= p' ->
  fileName t p = fileName t' p' -> t = t' /\ p = p'.
Proof.
  intros Hr Hr' Hp Hp' H.
  destruct (fileName_split t p Hp) as (H1 & H2 & H3). destruct (fileName_split t' p' Hp') as (G1 & G2 & G3).
  rewrite H in H1. rewrite G1 in H1. injection H1 as Hlen. rewrite H, <- Hlen in H2, H3.
  split; [congruence|]. rewrite G3 in H3. apply (f_equal (ParseInt 64)) in H3.
  rewrite !ParseInt_Itoa in H3 by solve_int. by injection H3.
Qed.

(** ** The store and its directory *)

(** A name that [filepath.Join] leaves as one element of the path. *)
Definition component (s : string) : bool :=
  no_char "/" s && negb (bool_decide (s ∈ [""; "."; ".."]%string)).

(** The keys whose files are where [load] looks for them. *)
Definition key_ok (k : offsetKey) : Prop :=
  component k.1.1 = true /\ no_char "/" k.1.2 = true /\ in_int 32 k.2 /\ 0 <= k.2.
Definition commit_ok (c : committed) : Prop := in_int 64 (c_offset c) /\ zlen (bytes_of_string (c_metadata c)) < 2 ^ 32.

(** The files are those of the cache, and temporary ones. *)
Record synced (s : OffsetStore) : Prop := {
  sy_keys : map_Forall (fun k c => key_ok k /\ commit_ok c) (cache s);
  sy_files : forall g t p c, cache s !! (g, t, p) = Some c ->
    files s !! (g, fileName t p) = Some (encodeCommit (c_offset c) (c_metadata c));
  sy_only : forall g name data, files s !! (g, name) = Some data ->
    HasSuffix name ".tmp" = true \/ exists t p c, cache s !! (g, t, p) = Some c /\ name = fileName t p }.

Lemma component_nonempty s : component s = true -> String.eqb s "" = false.
Proof. by destruct s. Qed.

Lemma loadFile_tmp g name data : HasSuffix name ".tmp" = true -> loadFile g name data = None.
Proof. intros H. unfold loadFile. by rewrite H, orb_true_r. Qed.

Lemma loadFile_commit g t p c :
  key_ok (g, t, p) -> commit_ok c ->
  loadFile g (fileName t p) (encodeCommit (c_offset c) (c_metadata c)) = Some ((g, t, p), c).
Proof.
  intros (Hg & _ & Hp & Hpos) [Ho Hm]. cbn in Hg, Hp, Hpos. unfold loadFile.
  rewrite component_nonempty, fileName_not_tmp by done. cbn [orb].
  destruct (fileName_split t p Hpos) as (-> & -> & ->). unfold Atoi. rewrite ParseInt_Itoa by solve_int.
  cbn [mbind option_bind]. rewrite decode_encode by done. cbn. rewrite int32_id by solve_int. by destruct c.
Qed.

Abbreviation entry := ((string * string) * list byte)%type.
Definition loadEntry (x : entry) : option (offsetKey * committed) := loadFile x.1.1 x.1.2 x.2.

(** A fold of insertions, when no two entries disagree about the key. *)
Lemma load_fold (l : list entry) (m : gmap offsetKey committed) k c :
  (forall x d, x ∈ l -> loadEntry x = Some (k, d) -> d = c) ->
  (m !! k = Some c \/ exists x, x ∈ l /\ loadEntry x = Some (k, c)) ->
  foldl (fun cache '((g, name), data) =>
           match loadFile g name data with Some (k, c) => <[k := c]> cache | None => cache end) m l !! k = Some c.
Proof.
  revert m. induction l as [|[[g n] data] l IH]; intros m Hu Hex; cbn [foldl].
  - destruct Hex as [H|(x & Hx%elem_of_nil & _)]; done.
  - apply IH; [intros x d Hx; apply Hu; by right|].
    destruct (loadFile g n data) as [[k' c']|] eqn:E.
    + destruct (decide (k' = k)) as [->|Hne].
      * left. rewrite lookup_insert_eq. f_equal. apply (Hu ((g, n), data)); [by left|done].
      * rewrite lookup_insert_ne by done. destruct Hex as [H|(x & [->|Hx]%elem_of_cons & Hl)]; [by left| |right; eauto].
        unfold loadEntry in Hl. cbn in Hl. congruence.
    + destruct Hex as [H|(x & [->|Hx]%elem_of_cons & Hl)]; [by left| |right; eauto].
      unfold loadEntry in Hl. cbn in Hl. congruence.
Qed.

Lemma load_fold_none (l : list entry) (m : gmap offsetKey committed) k :
  m !! k = None -> (forall x d, x ∈ l -> loadEntry x <> Some (k, d)) ->
  foldl (fun cache '((g, name), data) =>
           match loadFile g name data with Some (k, c) => <[k := c]> cache | None => cache end) m l !! k = None.
Proof.
  revert m. induction l as [|[[g n] data] l IH]; intros m Hm Hu; cbn [foldl]; [done|].
  apply IH; [|intros x d Hx; apply Hu; by right].
  destruct (loadFile g n data) as [[k' c']|] eqn:E; [|done].
  rewrite lookup_insert_ne; [done|]. intros ->. by apply (Hu ((g, n), data) c'); [left|].
Qed.

Lemma load_elem d x : x ∈ merge_sort byPath (map_to_list d) <-> d !! x.1 = Some x.2.
Proof. rewrite merge_sort_Permutation. destruct x. by rewrite elem_of_map_to_list. Qed.

(** Every entry the directory holds is a cached commit. *)
Lemma synced_entry s x k c : synced s -> files s !! x.1 = Some x.2 -> loadEntry x = Some (k, c) -> cache s !! k = Some c.
Proof.
  intros [Hk Hf Ho] Hx Hl. destruct x as [[g n] data]. cbn in Hx. unfold loadEntry in Hl. cbn in Hl.
  destruct (Ho g n data Hx) as [Ht|(t & p & c' & Hc & ->)].
  - by rewrite loadFile_tmp in Hl.
  - destruct (Hk _ _ Hc) as [Hkk Hcc]. rewrite (Hf _ _ _ _ Hc) in Hx. injection Hx as <-.
    rewrite loadFile_commit in Hl by done. by simplify_eq.
Qed.

Lemma load_synced s : synced s -> load (files s) = cache s.
Proof.
  intros Hs. apply map_eq. intros k. unfold load. destruct (cache s !! k) as [c|] eqn:Ek.
  - apply load_fold.
    + intros x d Hx%load_elem Hl. pose proof (synced_entry _ _ _ _ Hs Hx Hl). congruence.
    + right. destruct k as [[g t] p]. destruct Hs as [Hk Hf Ho]. destruct (Hk _ _ Ek) as [Hkk Hcc].
      exists ((g, fileName t p), encodeCommit (c_offset c) (c_metadata c)). split.
      * apply load_elem. cbn. by apply Hf.
      * unfold loadEntry. cbn. by apply loadFile_commit.
  - apply load_fold_none; [by rewrite lookup_empty|]. intros x d Hx%load_elem Hl.
    pose proof (synced_entry _ _ _ _ Hs Hx Hl). congruence.
Qed.

(** A file whose name ends in .tmp changes nothing. *)
Lemma synced_tmp s g name data : synced s ->
  synced (mkStore (<[(g, tmpName name) := data]> (files s)) (cache s)).
Proof.
  intros [Hk Hf Ho]. assert (HasSuffix (tmpName name) ".tmp" = true) as Ht by apply HasSuffix_app.
  split; cbn; [done| |].
  - intros g' t p c Hc. rewrite lookup_insert_ne; [by apply Hf|]. intros [= -> Heq].
    destruct (Hk _ _ Hc) as [(_ & _ & _ & Hp) _]. cbn in Hp. rewrite Heq, fileName_not_tmp in Ht; done.
  - intros g' n d. destruct (decide ((g, tmpName name) = (g', n))) as [[= -> <-]|Hne]; [by left|].
    rewrite lookup_insert_ne by done. apply Ho.
Qed.

Lemma Commit_synced e g t p off md s :
  synced s -> key_ok (g, t, p) -> commit_ok (mkCommitted off md) -> synced (fst (Commit e g t p off md s)).
Proof.
  intros Hs Hk Hc. unfold Commit, writeAtomic. destruct e as [| |n|]; cbn [fst]; [|done|by apply synced_tmp..].
  pose proof (synced_tmp s g (fileName t p) (encodeCommit off md) Hs) as [Tk Tf To]. cbn in *.
  set (d := <[(g, tmpName (fileName t p)) := encodeCommit off md]> (files s)) in *.
  split; cbn.
  - by apply map_Forall_insert_2.
  - intros g' t' p' c'. destruct (decide ((g, t, p) = (g', t', p'))) as [[= <- <- <-]|Hne].
    + rewrite lookup_insert_eq. intros [= <-]. by rewrite lookup_insert_eq.
    + rewrite lookup_insert_ne by done. intros Hc'. destruct (Tk _ _ Hc') as [(_ & _ & Hr' & Hp') _]. destruct Hk as (_ & _ & Hr & Hp). cbn in *.
      rewrite lookup_insert_ne; [|intros [= -> Heq]; apply fileName_inj in Heq as [-> ->]; done].
      rewrite lookup_delete_ne; [by apply Tf|]. intros [= -> Heq].
      pose proof (HasSuffix_app (fileName t p) ".tmp") as Ht. unfold tmpName in Heq. by rewrite Heq, fileName_not_tmp in Ht.
  - intros g' n data. destruct (decide ((g, fileName t p) = (g', n))) as [[= <- <-]|Hne].
    + intros _. right. exists t, p, (mkCommitted off md). by rewrite lookup_insert_eq.
    + rewrite lookup_insert_ne by done. intros [_ Hl]%lookup_delete_Some.
      destruct (To g' n data Hl) as [Ht|(t' & p' & c' & Hc' & ->)]; [by left|right]. exists t', p', c'. split; [|done].
      rewrite lookup_insert_ne; [done|]. intros [= -> -> ->]. done.
Qed.

(** ** The contract: a map of the last successful commits *)

Record commitCall := mkCall { k_io : commitIO; k_key : offsetKey; k_value : committed }.
Definition call_ok (x : commitCall) : Prop := key_ok (k_key x) /\ commit_ok (k_value x).

Definition runCommit (s : OffsetStore) (x : commitCall) : OffsetStore :=
  fst (Commit (k_io x) (k_key x).1.1 (k_key x).1.2 (k_key x).2 (c_offset (k_value x)) (c_metadata (k_value x)) s).
Definition runCommits (s : OffsetStore) (l : list commitCall) : OffsetStore := foldl runCommit s l.

(** The abstract store: the calls that succeed, last write wins. *)
Definition succeeds (x : commitCall) : bool := match k_io x with CommitOk => true | _ => false end.
Definition lastCommits (l : list commitCall) : gmap offsetKey committed :=
  foldl (fun m x => if succeeds x then <[k_key x := k_value x]> m else m) ∅ l.

Lemma runCommit_cache s x :
  cache (runCommit s x) = if succeeds x then <[k_key x := k_value x]> (cache s) else cache s.
Proof. by destruct x as [[] [[g t] p] [off md]]. Qed.

Lemma runCommits_cache l s :
  cache (runCommits s l) = foldl (fun m x => if succeeds x then <[k_key x := k_value x]> m else m) (cache s) l.
Proof.
  revert s. induction l as [|x l IH]; intros s; [done|]. cbn [runCommits foldl].
  fold (runCommits (runCommit s x) l). by rewrite IH, runCommit_cache.
Qed.

Lemma runCommits_synced l s : synced s -> Forall call_ok l -> synced (runCommits s l).
Proof.
  revert s. induction l as [|x l IH]; intros s Hs Hl; [done|]. apply Forall_cons in Hl as [[Hk Hv] Hl].
  apply IH; [|done]. unfold runCommit. destruct x as [e [[g t] p] [off md]]. by apply Commit_synced.
Qed.

Lemma empty_synced : synced (NewOffsetStore ∅).
Proof. by split. Qed.

(** C21: whatever I/O errors and interruptions happen on the way, a store that
    starts empty and takes any list of commits (of partitions from 0, of groups
    and topics that are path components) answers Fetch with the last commit that
    succeeded, and a store opened on the directory it leaves behind gives the
    same answers; the refinement of the map of last commits. *)
Theorem offsets_survive_restart (l : list commitCall) :
  Forall call_ok l ->
  let s := runCommits (NewOffsetStore ∅) l in
  let answer g t p := match lastCommits l !! (g, t, p) with
                      | Some c => (c_offset c, c_metadata c, true) | None => (-1, ""%string, false) end in
  (forall g t p, Fetch g t p s = answer g t p) /\
  (forall g t p, Fetch g t p (NewOffsetStore (files s)) = answer g t p) /\
  NewOffsetStore (files s) = s.
Proof.
  intros Hl s answer. pose proof (runCommits_synced l _ empty_synced Hl) as Hs. fold s in Hs.
  assert (NewOffsetStore (files s) = s) as Hr.
  { unfold NewOffsetStore. rewrite load_synced by done. by destruct s. }
  assert (cache s = lastCommits l) as Hc by apply runCommits_cache.
  rewrite Hr. unfold Fetch, answer. rewrite Hc. split_and!; [| |done]; intros g t p; by destruct (lastCommits l !! (g, t, p)).
Qed.

Definition demoCalls : list commitCall :=
  [mkCall CommitOk ("g", "orders", 0)%string (mkCommitted 5 "a");
   mkCall CommitOk ("g", "orders-eu", 12)%string (mkCommitted 7 "");
   mkCall RenameFails ("g", "orders", 0)%string (mkCommitted 9 "b");
   mkCall (WriteFails 3) ("h", "orders", 1)%string (mkCommitted 1 "");
   mkCall CommitOk ("g", "orders-eu", 12)%string (mkCommitted 8 "c")].

Lemma demoCalls_ok : Forall call_ok demoCalls.
Proof. repeat constructor; (done || (cbn; solve_int)). Qed.

(** A run with a failed rename and a torn write. *)
Lemma offsets_survive_restart_witness :
  let s := NewOffsetStore (files (runCommits (NewOffsetStore ∅) demoCalls)) in
  Fetch "g" "orders" 0 s = (5, "a"%string, true) /\
  Fetch "g" "orders-eu" 12 s = (8, "c"%string, true) /\
  Fetch "h" "orders" 1 s = (-1, ""%string, false).
Proof.
  destruct (offsets_survive_restart demoCalls demoCalls_ok) as (_ & H & _). cbv zeta.
  rewrite !H. vm_compute. done.
Defined.

(** one commit.  It reports an error exactly when one of its file-system
    calls fails and then changes no answer of Fetch; when it succeeds, Fetch of
    its key answers its offset and metadata and Fetch of every other key is as
    before.  ListCommitted lists exactly what Fetch finds. *)
Theorem Commit_correct e g t p off md s :
  let r := Commit e g t p off md s in
  (snd r = None <-> e = CommitOk) /\
  (snd r <> None -> forall g' t' p', Fetch g' t' p' (fst r) = Fetch g' t' p' s) /\
  (snd r = None ->
     Fetch g t p (fst r) = (off, md, true) /\
     forall g' t' p', (g', t', p') <> (g, t, p) -> Fetch g' t' p' (fst r) = Fetch g' t' p' s) /\
  (forall g' t' p' o, (g', t', p', o) ∈ ListCommitted s <-> exists md', Fetch g' t' p' s = (o, md', true)).
Proof.
  cbv zeta. split_and!.
  - by destruct e.
  - by destruct e.
  - destruct e; cbn; try done. intros _. unfold Fetch. cbn. rewrite lookup_insert_eq. split; [done|].
    intros g' t' p' Hne. by rewrite lookup_insert_ne.
  - intros g' t' p' o. unfold ListCommitted, Fetch. rewrite list_elem_of_fmap. split.
    + intros ([k c] & [= -> ->] & Hin%elem_of_map_to_list). rewrite Hin. eauto.
    + intros [md' H]. destruct (cache s !! (g', t', p')) as [c|] eqn:E; [|done].
      injection H as <- _. exists ((g', t', p'), c). split; [done|]. by apply elem_of_map_to_list.
Qed.

(** outside those names the store does not reload what it committed: a
    commit for partition -1 of "t" comes back as partition 1 of "t-", and a
    commit of the empty group is lost, though both were reported as done. *)
Theorem odd_keys_do_not_reload :
  let s1 := fst (Commit CommitOk "g" "t" (-1) 42 "" (NewOffsetStore ∅)) in
  let s2 := fst (Commit CommitOk "" "t" 0 42 "" (NewOffsetStore ∅)) in
  Fetch "g" "t" (-1) s1 = (42, ""%string, true) /\
  Fetch "g" "t" (-1) (NewOffsetStore (files s1)) = (-1, ""%string, false) /\
  Fetch "g" "t-" 1 (NewOffsetStore (files s1)) = (42, ""%string, true) /\
  Fetch "" "t" 0 s2 = (42, ""%string, true) /\
  Fetch "" "t" 0 (NewOffsetStore (files s2)) = (-1, ""%string, false).
Proof. vm_compute. done. Qed.
