(* ===== verification/Config.v ===== *)
(** * internal/config/config.go: defaults, environment, flags

    [Load] builds the configuration from built-in defaults, then KAFKA_* variables,
    then command-line flags.  What it uses of the standard library is written out:
    strconv.ParseInt with the value it returns next to an error (the code uses
    it), strings.Index and LastIndex, and the parser of the flag package, which
    stops at its first error; the code ignores that error. *)

From Stdlib Require Import Ascii.
From S2P Require Import Prelude Strconv Cluster Offsets.

(** ** strconv *)

Inductive numErr := ErrSyntax | ErrRange.

Definition lower (c : Ascii.ascii) : Z := Z.lor (char_code c) 32.

(** The digits of [ParseUint] in a base, underscores allowed when [base0]: the
    value, and whether there were underscores. *)
Fixpoint uint_digits (base : Z) (base0 : bool) (n : Z) (under : bool) (s : string) : (Z * bool) + (Z * numErr) :=
  match s with
  | EmptyString => inl (n, under)
  | String c s =>
    if base0 && (char_code c =? 95) then uint_digits base base0 n true s
    else
      let d := if is_digit c then Some (char_code c - 48)
               else if (97 <=? lower c) && (lower c <=? 122) then Some (lower c - 97 + 10) else None in
      match d with
      | None => inr (0, ErrSyntax)
      | Some d =>
        if base <=? d then inr (0, ErrSyntax)
        else if 2 ^ 64 <=? n * base + d then inr (2 ^ 64 - 1, ErrRange)
        else uint_digits base base0 (n * base + d) under s
      end
  end.

(** [underscoreOK]: underscores only between digits, or after a base prefix.
    [i]: '0' for a digit, '_', '^' at the start, '!' otherwise. *)
Fixpoint underscore_loop (hex : bool) (i : Ascii.ascii) (s : string) : bool :=
  match s with
  | EmptyString => negb (Ascii.eqb i "_")
  | String c s =>
    if is_digit c || (hex && (97 <=? lower c) && (lower c <=? 102)) then underscore_loop hex "0"%char s
    else if Ascii.eqb c "_" then Ascii.eqb i "0" && underscore_loop hex "_"%char s
    else negb (Ascii.eqb i "_") && underscore_loop hex "!"%char s
  end.
Definition underscoreOK (s : string) : bool :=
  match s with
  | String "0" (String x s') =>
    if (lower x =? 98) || (lower x =? 111) || (lower x =? 120) then underscore_loop (lower x =? 120) "0"%char s'
    else underscore_loop false "^"%char s
  | _ => underscore_loop false "^"%char s
  end.

(** [strconv.ParseUint(s, 10, 64)] and, with [base0], [strconv.ParseUint(s, 0, 64)]. *)
Definition ParseUintV (base0 : bool) (s : string) : Z * option numErr :=
  let run base digits :=
    match uint_digits base base0 0 false digits with
    | inr (v, er) => (v, Some er)
    | inl (v, under) => if under && negb (underscoreOK s) then (0, Some ErrSyntax) else (v, None)
    end in
  match s with
  | EmptyString => (0, Some ErrSyntax)
  | String "0" s' =>
    if base0 then
      match s' with
      | String x (String _ _ as s2) =>
        if lower x =? 98 then run 2 s2 else if lower x =? 111 then run 8 s2
        else if lower x =? 120 then run 16 s2 else run 8 s'
      | _ => run 8 s'
      end
    else run 10 s
  | _ => run 10 s
  end.

Definition ParseIntV (base0 : bool) (s : string) : Z * option numErr :=
  let signed neg s :=
    match ParseUintV base0 s with
    | (_, Some ErrSyntax) => (0, Some ErrSyntax)
    | (un, er) =>
      if negb neg && (2 ^ 63 <=? un) then (2 ^ 63 - 1, Some ErrRange)
      else if neg && (2 ^ 63 <? un) then (- 2 ^ 63, Some ErrRange)
      else (if neg then - un else un, er)
    end in
  match s with
  | EmptyString => (0, Some ErrSyntax)
  | String "+" s => signed false s
  | String "-" s => signed true s
  | _ => signed false s
  end.

(** [strconv.ParseBool] *)
Definition ParseBoolV (s : string) : bool * option numErr :=
  if existsb (String.eqb s) ["1"; "t"; "T"; "TRUE"; "true"; "True"]%string then (true, None)
  else if existsb (String.eqb s) ["0"; "f"; "F"; "FALSE"; "false"; "False"]%string then (false, None)
  else (false, Some ErrSyntax).

(** ** The configuration *)

Record Config := mkConfig {
  NodeID : Z; Brokers : string; Listen : string; AdvertisedHost : string; AdvertisedPort : Z; LogDirs : string;
  NumPartitions : Z; SegmentBytes : Z; IndexIntervalBytes : Z; FlushMs : Z; RetentionMs : Z; RetentionBytes : Z;
  AutoCreateTopics : bool; RaftBootstrap : bool; ReplicationFactor : Z; MetricsAddr : string; StorageBackend : string;
  ObjectEndpoint : string; ObjectBucket : string; ObjectAccessKey : string; ObjectSecretKey : string; ObjectRegion : string;
  ObjectUploadBytes : Z; ObjectUploadMs : Z }.

Definition Default : Config :=
  mkConfig 0 "" "0.0.0.0:9092" "localhost" 9092 "./data" 1 (Z.shiftl 64 20) 4096 1000 (7 * 24 * 60 * 60 * 1000) 0
    true false 1 ":7080" "local" "" "kafka-data" "" "" "us-east-1" (Z.shiftl 8 20) 250.

(** ** The environment *)

Abbreviation environ := (gmap string string).
Definition Getenv (e : environ) (key : string) : string := default ""%string (e !! key).

Definition envString (e : environ) (key def : string) : string :=
  if String.eqb (Getenv e key) "" then def else Getenv e key.
Definition envBool (e : environ) (key : string) (def : bool) : bool :=
  let v := Getenv e key in if String.eqb v "" then def else String.eqb v "true" || String.eqb v "1".
Definition envInt64 (e : environ) (key : string) (def : Z) : Z :=
  let v := Getenv e key in
  if String.eqb v "" then def else match ParseIntV false v with (n, None) => n | (_, Some _) => def end.
Definition envInt32 (e : environ) (key : string) (def : Z) : Z :=
  let v := Getenv e key in
  if String.eqb v "" then def else match ParseIntV false v with (n, None) => int32 n | (_, Some _) => def end.

(** [strings.Index(s, "://")] *)
Fixpoint schemeEnd (s : string) : option nat :=
  match s with
  | EmptyString => None
  | String c s' => if String.prefix "://" s then Some 0%nat else S <$> schemeEnd s'
  end.

(** The port is the value Atoi returns, whatever its error. *)
Definition splitHostPort (s : string) : string * Z :=
  let s := match schemeEnd s with Some i => string_drop (i + 3) s | None => s end in
  match LastIndex s ":" with
  | None => (s, 0)
  | Some i => (string_take i s, int32 (fst (ParseIntV false (string_drop (S i) s))))
  end.

Definition advertised (e : environ) (host : string) (port : Z) : string * Z :=
  let v := Getenv e "KAFKA_ADVERTISED_LISTENERS" in
  if String.eqb v "" then (host, port)
  else
    let '(h, p) := splitHostPort v in
    (if String.eqb h "" then host else h, if p =? 0 then port else p).

(** The first half of [Load]: the environment over the defaults. *)
Definition envConfig (e : environ) : Config :=
  let c := Default in
  let '(host, port) := advertised e (AdvertisedHost c) (AdvertisedPort c) in
  mkConfig (envInt32 e "KAFKA_NODE_ID" (NodeID c)) (envString e "KAFKA_BROKERS" (Brokers c))
    (envString e "KAFKA_LISTENERS" (Listen c)) host port (envString e "KAFKA_LOG_DIRS" (LogDirs c))
    (envInt32 e "KAFKA_NUM_PARTITIONS" (NumPartitions c)) (envInt32 e "KAFKA_SEGMENT_BYTES" (SegmentBytes c))
    (IndexIntervalBytes c) (envInt32 e "KAFKA_FLUSH_MS" (int32 (FlushMs c))) (envInt64 e "KAFKA_RETENTION_MS" (RetentionMs c))
    (envInt64 e "KAFKA_RETENTION_BYTES" (RetentionBytes c)) (envBool e "KAFKA_AUTO_CREATE_TOPICS" (AutoCreateTopics c))
    (envBool e "KAFKA_RAFT_BOOTSTRAP" (RaftBootstrap c)) (envInt32 e "KAFKA_REPLICATION_FACTOR" (ReplicationFactor c))
    (envString e "KAFKA_METRICS_ADDR" (MetricsAddr c)) (envString e "KAFKA_STORAGE_BACKEND" (StorageBackend c))
    (envString e "KAFKA_OBJECT_ENDPOINT" (ObjectEndpoint c)) (envString e "KAFKA_OBJECT_BUCKET" (ObjectBucket c))
    (envString e "KAFKA_OBJECT_ACCESS_KEY" (ObjectAccessKey c)) (envString e "KAFKA_OBJECT_SECRET_KEY" (ObjectSecretKey c))
    (envString e "KAFKA_OBJECT_REGION" (ObjectRegion c)) (envInt64 e "KAFKA_OBJECT_UPLOAD_BYTES" (ObjectUploadBytes c))
    (envInt64 e "KAFKA_OBJECT_UPLOAD_MS" (ObjectUploadMs c)).

(** ** The flag package *)

Inductive fval := VInt (z : Z) | VStr (s : string) | VBool (b : bool).
Abbreviation flagSet := (gmap string fval).

(** [Value.Set]: the new value, which an int and a bool take even when the text is
    refused, and whether it was accepted. *)
Definition setValue (old : fval) (s : string) : fval * bool :=
  match old with
  | VInt _ => let '(z, er) := ParseIntV true s in (VInt z, match er with None => true | Some _ => false end)
  | VStr _ => (VStr s, true)
  | VBool _ => let '(b, er) := ParseBoolV s in (VBool b, match er with None => true | Some _ => false end)
  end.

(** Split "name=value" behind the first character. *)
Fixpoint splitEq (s : string) : string * option string :=
  match s with
  | EmptyString => (EmptyString, None)
  | String "=" s => (EmptyString, Some s)
  | String c s => let '(n, v) := splitEq s in (String c n, v)
  end.

(** The name of an argument: [inl]: parsing ends (with or without an error). *)
Definition flagName (arg : string) : option (string * option string) :=
  let body := match arg with
              | String "-" (String "-" EmptyString) => None
              | String "-" (String "-" s) => Some s
              | String "-" (String c s) => Some (String c s)
              | _ => None
              end in
  match body with
  | Some (String c s) =>
    if Ascii.eqb c "-" || Ascii.eqb c "=" then None
    else let '(n, v) := splitEq s in Some (String c n, v)
  | _ => None
  end.

(** [FlagSet.Parse]; it returns at the first error, at "--" and at the first
    argument that is no flag. *)
Fixpoint Parse (args : list string) (fs : flagSet) : flagSet :=
  match args with
  | [] => fs
  | arg :: args =>
    match flagName arg with
    | None => fs
    | Some (name, value) =>
      match fs !! name with
      | None => fs
      | Some old =>
        match old, value, args with
        | _, Some v, _ => let '(new, ok) := setValue old v in if ok then Parse args (<[name := new]> fs) else <[name := new]> fs
        | VBool _, None, _ => Parse args (<[name := VBool true]> fs)
        | _, None, v :: args' => let '(new, ok) := setValue old v in if ok then Parse args' (<[name := new]> fs) else <[name := new]> fs
        | _, None, [] => fs
        end
      end
    end
  end.

Definition flagsOf (c : Config) : list (string * fval) :=
  [("node-id", VInt (NodeID c)); ("brokers", VStr (Brokers c)); ("listen", VStr (Listen c));
   ("advertised-host", VStr (AdvertisedHost c)); ("advertised-port", VInt (AdvertisedPort c)); ("log-dirs", VStr (LogDirs c));
   ("partitions", VInt (NumPartitions c)); ("replication-factor", VInt (ReplicationFactor c));
   ("segment-bytes", VInt (SegmentBytes c)); ("flush-ms", VInt (FlushMs c)); ("auto-create-topics", VBool (AutoCreateTopics c));
   ("raft-bootstrap", VBool (RaftBootstrap c)); ("metrics-addr", VStr (MetricsAddr c)); ("storage-backend", VStr (StorageBackend c))]%string.

Definition intFlag (fs : flagSet) (name : string) : Z := match fs !! name with Some (VInt z) => z | _ => 0 end.
Definition strFlag (fs : flagSet) (name : string) : string := match fs !! name with Some (VStr s) => s | _ => ""%string end.
Definition boolFlag (fs : flagSet) (name : string) : bool := match fs !! name with Some (VBool b) => b | _ => false end.

Definition Load (e : environ) (args : list string) : Config :=
  let c := envConfig e in
  let fs := Parse args (list_to_map (flagsOf c)) in
  mkConfig (int32 (intFlag fs "node-id")) (strFlag fs "brokers") (strFlag fs "listen") (strFlag fs "advertised-host")
    (int32 (intFlag fs "advertised-port")) (strFlag fs "log-dirs") (int32 (intFlag fs "partitions"))
    (int32 (intFlag fs "segment-bytes")) (IndexIntervalBytes c) (intFlag fs "flush-ms") (RetentionMs c) (RetentionBytes c)
    (boolFlag fs "auto-create-topics") (boolFlag fs "raft-bootstrap") (int32 (intFlag fs "replication-factor"))
    (strFlag fs "metrics-addr") (strFlag fs "storage-backend") (ObjectEndpoint c) (ObjectBucket c) (ObjectAccessKey c)
    (ObjectSecretKey c) (ObjectRegion c) (ObjectUploadBytes c) (ObjectUploadMs c).

(** ** Lemmas: numbers *)

Lemma parse_digits_grows s acc v : 0 <= acc -> parse_digits acc s = Some v -> acc <= v.
Proof.
  revert acc. induction s as [|c s IH]; intros acc Ha Hp; cbn [parse_digits] in Hp; [injection Hp; lia|].
  destruct (is_digit c) eqn:Hc; [|done]. unfold is_digit in Hc.
  apply andb_prop in Hc as [Hc1%Z.leb_le Hc2%Z.leb_le]. apply IH in Hp; lia.
Qed.

(** On digits [ParseUint] agrees with the parser of [Strconv]. *)
Lemma uint_digits_parse b s acc v under :
  0 <= acc -> parse_digits acc s = Some v -> v < 2 ^ 64 -> uint_digits 10 b acc under s = inl (v, under).
Proof.
  revert acc. induction s as [|c s IH]; intros acc Ha Hp Hv; cbn [parse_digits uint_digits] in *; [congruence|].
  destruct (is_digit c) eqn:Hc; [|done]. pose proof Hc as Hc'. unfold is_digit in Hc'.
  apply andb_prop in Hc' as [Hc1%Z.leb_le Hc2%Z.leb_le].
  assert (b && (char_code c =? 95) = false) as -> by (destruct (Z.eqb_spec (char_code c) 95), b; done || lia).
  pose proof (parse_digits_grows s (acc * 10 + (char_code c - 48)) v ltac:(lia) Hp). cbn zeta beta iota.
  destruct (Z.leb_spec 10 (char_code c - 48)); [lia|]. destruct (Z.leb_spec (2 ^ 64) (acc * 10 + (char_code c - 48))); [lia|].
  by apply IH; [lia| |].
Qed.

(** A positive number is printed without a leading zero. *)
Lemma put_digits_lead fuel z :
  0 < z < 10 ^ Z.of_nat (S fuel) ->
  exists d s, put_digits (ndigits fuel z) z = String (digit_char d) s /\ 1 <= d < 10.
Proof.
  revert z. induction fuel as [|fuel IH]; intros z Hz.
  - exists z, ""%string. change (10 ^ Z.of_nat 1) with 10 in Hz. cbn [ndigits put_digits]. rewrite Z.mod_small by lia.
    split; [done|lia].
  - cbn [ndigits]. destruct (Z.ltb_spec z 10) as [Hl|Hl].
    + exists z, ""%string. cbn [put_digits]. rewrite Z.mod_small by lia. split; [done|lia].
    + rewrite Nat2Z.inj_succ, Z.pow_succ_r in Hz by lia.
      destruct (IH (z / 10)) as (d & s & Hs & Hd).
      { split; [apply Z.div_str_pos; lia|apply Z.div_lt_upper_bound; lia]. }
      cbn [put_digits]. rewrite Hs. by eexists d, _.
Qed.

Lemma ParseUintV_put b z : 0 < z < 2 ^ 64 -> z < 10 ^ 19 -> ParseUintV b (put_digits (ndigits 18 z) z) = (z, None).
Proof.
  intros Hz Hz'. assert (z < 10 ^ Z.of_nat 19) as Hz2 by done.
  destruct (put_digits_lead 18 z) as (d & s & Hs & Hd); [lia|].
  pose proof (ndigits_bound 18 z ltac:(lia)) as Hb.
  pose proof (parse_put_digits (ndigits 18 z) z 0 ltac:(lia)) as Hp. rewrite Z.mul_0_l, Z.add_0_l in Hp.
  unfold ParseUintV. rewrite (uint_digits_parse b _ 0 z false) by (done || lia). rewrite Hs.
  assert (d = 1 \/ d = 2 \/ d = 3 \/ d = 4 \/ d = 5 \/ d = 6 \/ d = 7 \/ d = 8 \/ d = 9) as Hc by lia.
  repeat destruct Hc as [->|Hc]; try reflexivity. by subst.
Qed.

(** [ParseInt] reads back what [Itoa] prints, in base ten and with the base
    taken from the prefix. *)
Lemma ParseIntV_Itoa b z : in_int 64 z -> ParseIntV b (Itoa z) = (z, None).
Proof.
  intros Hz. unfold in_int in Hz. change (2 ^ (64 - 1)) with 9223372036854775808 in Hz.
  unfold Itoa. destruct (Z.ltb_spec z 0) as [Hn|Hn].
  - unfold ParseIntV. rewrite ParseUintV_put by lia. cbn [negb andb].
    destruct (Z.ltb_spec (2 ^ 63) (- z)); [lia|]. f_equal. lia.
  - destruct (Z.eq_dec z 0) as [->|Hnz]; [by destruct b|].
    destruct (put_digits_lead 18 z) as (d & s & Hs & Hd); [change (10 ^ Z.of_nat 19) with (10 ^ 19); lia|].
    assert (ParseIntV b (put_digits (ndigits 18 z) z) =
      match ParseUintV b (put_digits (ndigits 18 z) z) with
      | (_, Some ErrSyntax) => (0, Some ErrSyntax)
      | (un, er) => if 2 ^ 63 <=? un then (2 ^ 63 - 1, Some ErrRange) else (un, er)
      end) as ->.
    { rewrite Hs. assert (d = 1 \/ d = 2 \/ d = 3 \/ d = 4 \/ d = 5 \/ d = 6 \/ d = 7 \/ d = 8 \/ d = 9) as Hc by lia.
      repeat destruct Hc as [->|Hc]; try reflexivity. by subst. }
    rewrite ParseUintV_put by lia. by destruct (Z.leb_spec (2 ^ 63) z); [lia|].
Qed.

(** ** Lemmas: flags *)

Abbreviation setting := (string * string)%type.

(** How a setting is written, with one dash or two: "-name=value", the two arguments
    "-name" and "value", or for a bool "-name" alone. *)
Inductive flagForm := Joined (two : bool) | Spaced (two : bool) | Bare (two : bool).
Definition dashes (two : bool) : string := if two then "--" else "-".
Definition argsOf (w : flagForm * setting) : list string :=
  let '(form, (n, v)) := w in
  match form with
  | Joined two => [(dashes two +:+ n +:+ "=" +:+ v)%string]
  | Spaced two => [(dashes two +:+ n)%string; v]
  | Bare two => [(dashes two +:+ n)%string]
  end.
Definition argsOfAll (ws : list (flagForm * setting)) : list string := concat (argsOf <$> ws).

(** The value the last setting of a flag gives it. *)
Fixpoint given (name : string) (sets : list setting) : option string :=
  match sets with
  | [] => None
  | (n, v) :: sets => match given name sets with Some w => Some w | None => if String.eqb n name then Some v else None end
  end.

(** A flag of the table and a text its type accepts, in a form the type allows. *)
Definition accepted (fs : flagSet) (w : flagForm * setting) : Prop :=
  exists old, fs !! w.2.1 = Some old /\ (setValue old w.2.2).2 = true /\
    match w.1, old with
    | Joined _, _ => True
    | Spaced _, VBool _ => False
    | Spaced _, _ => True
    | Bare _, VBool _ => w.2.2 = "true"%string
    | Bare _, _ => False
    end.

Definition flagNames : list string := (flagsOf Default).*1.

Lemma flagName_dashes two n : n ∈ flagNames ->
  (forall v, flagName (dashes two +:+ n +:+ "=" +:+ v) = Some (n, Some v)) /\ flagName (dashes two +:+ n) = Some (n, None).
Proof.
  intros Hn. unfold flagNames in Hn. cbn in Hn.
  repeat (apply elem_of_cons in Hn as [-> | Hn]; [by destruct two|]). by apply not_elem_of_nil in Hn.
Qed.

Lemma flagsOf_names c : (flagsOf c).*1 = flagNames.
Proof. reflexivity. Qed.

(** What a flag becomes depends on its type and the text, not on its old value. *)
Lemma setValue_again old v w : setValue (setValue old v).1 w = setValue old w.
Proof.
  destruct old as [z|s|b]; cbn; [destruct (ParseIntV true v)|done|destruct (ParseBoolV v)]; done.
Qed.

(** One argument with a value: parsing goes on only if the value is accepted. *)
Lemma Parse_step arg args fs name v old new ok :
  flagName arg = Some (name, Some v) -> fs !! name = Some old -> setValue old v = (new, ok) ->
  Parse (arg :: args) fs = if ok then Parse args (<[name := new]> fs) else <[name := new]> fs.
Proof. intros Ha Hn Hv. cbn [Parse]. rewrite Ha, Hn. cbv beta iota. rewrite Hv. destruct old, args; reflexivity. Qed.

(** One accepted setting, however it is written. *)
Lemma Parse_written w args fs old new : w.2.1 ∈ flagNames -> accepted fs w -> fs !! w.2.1 = Some old -> setValue old w.2.2 = (new, true) ->
  Parse (argsOf w ++ args) fs = Parse args (<[w.2.1 := new]> fs).
Proof.
  destruct w as [form [n v]]. cbn [fst snd]. intros Hn (o & Ho & _ & Hform) Hold Hset. cbn [fst snd] in *. rewrite Hold in Ho. injection Ho as <-.
  destruct form as [two|two|two]; cbn [argsOf app]; destruct (flagName_dashes two n Hn) as [Hj Hb].
  - by rewrite (Parse_step _ _ _ n v old new true).
  - cbn [Parse]. rewrite Hb, Hold. cbv beta iota. rewrite Hset. by destruct old.
  - cbn [Parse]. rewrite Hb, Hold. cbv beta iota. destruct old as [| |b]; [done..|]. subst v. cbn in Hset. by injection Hset as <-.
Qed.

(** Parsing accepted settings sets every flag to its last setting. *)
Lemma Parse_settings ws fs :
  dom fs = list_to_set flagNames -> Forall (accepted fs) ws ->
  forall name, Parse (argsOfAll ws) fs !! name =
    match given name ws.*2 with Some v => (fun old => (setValue old v).1) <$> fs !! name | None => fs !! name end.
Proof.
  revert fs. induction ws as [|w ws IH]; intros fs Hdom Hws name; [done|].
  apply Forall_cons in Hws as [Hw Hws]. pose proof Hw as (old & Hold & Hok & _). destruct w as [form [n v]]. cbn [fst snd] in Hold, Hok.
  assert (n ∈ flagNames) as Hn.
  { apply (elem_of_list_to_set (C := gset string)). rewrite <- Hdom. by apply elem_of_dom_2 in Hold. }
  destruct (setValue old v) as [new ok] eqn:Hset. cbn [snd] in Hok. subst ok.
  unfold argsOfAll. cbn [fmap list_fmap concat given]. rewrite (Parse_written (form, (n, v)) _ fs old new) by done. cbn [fst snd].
  assert (Parse (argsOfAll ws) (<[n := new]> fs) !! name =
    match given name ws.*2 with Some w => (fun o => (setValue o w).1) <$> <[n := new]> fs !! name
                              | None => <[n := new]> fs !! name end) as Hrec.
  { apply IH.
    - rewrite dom_insert_lookup_L by (by exists old). done.
    - eapply Forall_impl; [exact Hws|]. intros [form' [n' v']] (o & Ho & Hv & Hform). cbn [fst snd] in *.
      destruct (decide (n = n')) as [<-|Hne].
      + rewrite Hold in Ho. injection Ho as <-. exists new. cbn [fst snd]. rewrite lookup_insert_eq.
        replace new with (setValue old v).1 by (by rewrite Hset). rewrite setValue_again. split_and!; [done|done|].
        destruct old as [z|t|b]; cbn [setValue]; [destruct (ParseIntV true v)|done|destruct (ParseBoolV v)]; exact Hform.
      + exists o. cbn [fst snd]. by rewrite lookup_insert_ne. }
  cbv beta iota. unfold argsOfAll in Hrec. rewrite Hrec. destruct (String.eqb_spec n name) as [<-|Hne].
  - rewrite lookup_insert_eq, Hold. destruct (given n ws.*2) as [w|]; cbn [fmap option_fmap option_map].
    + replace new with (setValue old v).1 by (by rewrite Hset). by rewrite setValue_again.
    + by rewrite Hset.
  - rewrite lookup_insert_ne by done. by destruct (given name ws.*2).
Qed.

Lemma flags_dom c : dom (list_to_map (flagsOf c) : flagSet) = list_to_set flagNames.
Proof. by rewrite dom_list_to_map_L, flagsOf_names. Qed.

(** The table of flags, by name. *)
Lemma flags_lookup c name :
  (list_to_map (flagsOf c) : flagSet) !! name = snd <$> List.find (fun '(n, _) => bool_decide (n = name)) (flagsOf c).
Proof.
  induction (flagsOf c) as [|[n v] l IH]; [done|]. cbn [List.find list_to_map foldr].
  case_bool_decide as Hn; [subst; apply lookup_insert_eq|]. by rewrite lookup_insert_ne.
Qed.

(** Which settings are accepted depends on the types of the flags only. *)
Lemma accepted_any c c' w : accepted (list_to_map (flagsOf c)) w -> accepted (list_to_map (flagsOf c')) w.
Proof.
  intros (old & Hold & Hok). assert (w.2.1 ∈ flagNames) as Hn.
  { apply (elem_of_list_to_set (C := gset string)). rewrite <- (flags_dom c). by apply elem_of_dom_2 in Hold. }
  unfold accepted. revert Hold Hn. rewrite !flags_lookup. destruct w as [form [n v]]; cbn [fst snd] in *. intros Hold Hn.
  unfold flagNames in Hn. cbn in Hn.
  repeat (apply elem_of_cons in Hn as [-> | Hn]; [injection Hold as <-; eexists; split; [reflexivity|exact Hok]|]).
  by apply not_elem_of_nil in Hn.
Qed.

Lemma envInt32_range e key d : in_int 32 d -> in_int 32 (envInt32 e key d).
Proof.
  intros Hd. unfold envInt32. destruct (String.eqb _ _); [done|]. destruct (ParseIntV _ _) as [n [er|]]; [done|].
  apply int32_range.
Qed.

Lemma envInt32_Itoa e key n d : in_int 32 n -> Getenv e key = Itoa n -> envInt32 e key d = n.
Proof.
  intros Hn He. unfold envInt32. rewrite He. destruct (String.eqb_spec (Itoa n) "") as [Hs|_].
  - apply (f_equal (ParseInt 64)) in Hs. rewrite ParseInt_Itoa in Hs by solve_int. done.
  - rewrite ParseIntV_Itoa by solve_int. apply int32_id. solve_int.
Qed.

Lemma advertised_range e h p : in_int 32 p -> in_int 32 (advertised e h p).2.
Proof.
  intros Hp. unfold advertised. destruct (String.eqb _ _); [done|].
  destruct (splitHostPort _) as [h' p'] eqn:Hs. cbn. destruct (p' =? 0); [done|].
  unfold splitHostPort in Hs. destruct (LastIndex _ _); injection Hs as _ <-; [apply int32_range|solve_int].
Qed.

(** ** Precedence *)

Section Precedence.
Context (e : environ) (ws : list (flagForm * setting)).
#[local] Abbreviation sets := (ws.*2).

(** A flag's last setting, else what the environment or the default gave. *)
Definition overInt (name : string) (below : Z) : Z :=
  match given name sets with Some v => (ParseIntV true v).1 | None => below end.
Definition overStr (name below : string) : string := default below (given name sets).
Definition overBool (name : string) (below : bool) : bool :=
  match given name sets with Some v => (ParseBoolV v).1 | None => below end.

Context (Hsets : Forall (accepted (list_to_map (flagsOf Default))) ws).

#[local] Abbreviation parsed := (Parse (argsOfAll ws) (list_to_map (flagsOf (envConfig e)))).

Lemma parsed_lookup name :
  parsed !! name =
  let old := snd <$> List.find (fun '(n, _) => bool_decide (n = name)) (flagsOf (envConfig e)) in
  match given name sets with Some v => (fun o => (setValue o v).1) <$> old | None => old end.
Proof.
  rewrite Parse_settings, flags_lookup; [done|apply flags_dom|].
  eapply Forall_impl; [exact Hsets|]. intros s. apply accepted_any.
Qed.

Lemma intFlag_over name z :
  snd <$> List.find (fun '(n, _) => bool_decide (n = name)) (flagsOf (envConfig e)) = Some (VInt z) ->
  intFlag parsed name = overInt name z.
Proof.
  intros Hz. unfold intFlag, overInt. rewrite parsed_lookup, Hz. cbn zeta.
  destruct (given name sets) as [v|]; [|done]. cbn. by destruct (ParseIntV true v).
Qed.

Lemma strFlag_over name s :
  snd <$> List.find (fun '(n, _) => bool_decide (n = name)) (flagsOf (envConfig e)) = Some (VStr s) ->
  strFlag parsed name = overStr name s.
Proof.
  intros Hs. unfold strFlag, overStr. rewrite parsed_lookup, Hs. cbn zeta. by destruct (given name sets).
Qed.

Lemma boolFlag_over name b :
  snd <$> List.find (fun '(n, _) => bool_decide (n = name)) (flagsOf (envConfig e)) = Some (VBool b) ->
  boolFlag parsed name = overBool name b.
Proof.
  intros Hb. unfold boolFlag, overBool. rewrite parsed_lookup, Hb. cbn zeta.
  destruct (given name sets) as [v|]; [|done]. cbn. by destruct (ParseBoolV v).
Qed.

Lemma overInt_int32 name below : in_int 32 below -> (given name sets = None -> int32 (overInt name below) = below).
Proof. intros Hb Hg. unfold overInt. rewrite Hg. apply int32_id. solve_int. Qed.

Lemma overInt_Itoa name n below : in_int 32 n -> given name sets = Some (Itoa n) -> int32 (overInt name below) = n.
Proof. intros Hn Hg. unfold overInt. rewrite Hg, ParseIntV_Itoa by solve_int. apply int32_id. cbn. solve_int. Qed.
End Precedence.

(** C33: the configuration is built in the documented order.  With any environment
    and any list of command-line settings of flags the broker has, each written
    with one dash or two, as "-name=value", as "-name" "value" or, for a switch, as
    "-name", and each with a value the flag accepts, every field that has a flag is
    the value of the flag's last setting, cut to 32 bits where the field is an
    int32, a field without a setting is its KAFKA_ variable's, and one whose
    variable is unset or not a number is the built-in default; the fields without a
    flag come from the environment or the default.  A 32-bit number survives its
    decimal form, through a flag and through a variable.  What a refused value does
    is in [config_errors_silent]. *)
Theorem config_precedence (e : environ) (ws : list (flagForm * setting)) :
  Forall (accepted (list_to_map (flagsOf Default))) ws ->
  let sets := ws.*2 in
  let c := Load e (argsOfAll ws) in
  let int name below := int32 (overInt ws name below) in
  let '(advHost, advPort) := advertised e "localhost" 9092 in
  NodeID c = int "node-id" (envInt32 e "KAFKA_NODE_ID" 0) /\
  Brokers c = overStr ws "brokers" (envString e "KAFKA_BROKERS" "") /\
  Listen c = overStr ws "listen" (envString e "KAFKA_LISTENERS" "0.0.0.0:9092") /\
  AdvertisedHost c = overStr ws "advertised-host" advHost /\
  AdvertisedPort c = int "advertised-port" advPort /\
  (given "advertised-port" sets = None -> AdvertisedPort c = advPort) /\
  LogDirs c = overStr ws "log-dirs" (envString e "KAFKA_LOG_DIRS" "./data") /\
  NumPartitions c = int "partitions" (envInt32 e "KAFKA_NUM_PARTITIONS" 1) /\
  SegmentBytes c = int "segment-bytes" (envInt32 e "KAFKA_SEGMENT_BYTES" 67108864) /\
  IndexIntervalBytes c = 4096 /\
  FlushMs c = overInt ws "flush-ms" (envInt32 e "KAFKA_FLUSH_MS" 1000) /\
  RetentionMs c = envInt64 e "KAFKA_RETENTION_MS" 604800000 /\
  RetentionBytes c = envInt64 e "KAFKA_RETENTION_BYTES" 0 /\
  AutoCreateTopics c = overBool ws "auto-create-topics" (envBool e "KAFKA_AUTO_CREATE_TOPICS" true) /\
  RaftBootstrap c = overBool ws "raft-bootstrap" (envBool e "KAFKA_RAFT_BOOTSTRAP" false) /\
  ReplicationFactor c = int "replication-factor" (envInt32 e "KAFKA_REPLICATION_FACTOR" 1) /\
  MetricsAddr c = overStr ws "metrics-addr" (envString e "KAFKA_METRICS_ADDR" ":7080") /\
  StorageBackend c = overStr ws "storage-backend" (envString e "KAFKA_STORAGE_BACKEND" "local") /\
  ObjectEndpoint c = envString e "KAFKA_OBJECT_ENDPOINT" "" /\
  ObjectBucket c = envString e "KAFKA_OBJECT_BUCKET" "kafka-data" /\
  ObjectAccessKey c = envString e "KAFKA_OBJECT_ACCESS_KEY" "" /\
  ObjectSecretKey c = envString e "KAFKA_OBJECT_SECRET_KEY" "" /\
  ObjectRegion c = envString e "KAFKA_OBJECT_REGION" "us-east-1" /\
  ObjectUploadBytes c = envInt64 e "KAFKA_OBJECT_UPLOAD_BYTES" 8388608 /\
  ObjectUploadMs c = envInt64 e "KAFKA_OBJECT_UPLOAD_MS" 250 /\
  (forall name key d, in_int 32 d -> given name sets = None -> int name (envInt32 e key d) = envInt32 e key d) /\
  (forall name n below, in_int 32 n -> given name sets = Some (Itoa n) -> int name below = n) /\
  (forall key n d, in_int 32 n -> Getenv e key = Itoa n -> envInt32 e key d = n).
Proof.
  intros Hsets sets c int. destruct (advertised e "localhost" 9092) as [advHost advPort] eqn:Hadv.
  assert (AdvertisedHost (envConfig e) = advHost /\ AdvertisedPort (envConfig e) = advPort) as [Hh Hp].
  { unfold envConfig. change (AdvertisedHost Default) with "localhost"%string. change (AdvertisedPort Default) with 9092.
    by rewrite Hadv. }
  subst c int. unfold Load. cbn [NodeID Brokers Listen AdvertisedHost AdvertisedPort LogDirs NumPartitions SegmentBytes
    IndexIntervalBytes FlushMs RetentionMs RetentionBytes AutoCreateTopics RaftBootstrap ReplicationFactor MetricsAddr
    StorageBackend ObjectEndpoint ObjectBucket ObjectAccessKey ObjectSecretKey ObjectRegion ObjectUploadBytes ObjectUploadMs].
  repeat erewrite (intFlag_over e ws Hsets) by reflexivity. repeat erewrite (strFlag_over e ws Hsets) by reflexivity.
  repeat erewrite (boolFlag_over e ws Hsets) by reflexivity. rewrite Hh, Hp.
  unfold envConfig. destruct (advertised e _ _) as [h p] in |- *.
  split_and!; try reflexivity.
  - intros Hg. apply overInt_int32; [|done].
    replace advPort with (advertised e "localhost" 9092).2 by (by rewrite Hadv). apply advertised_range. solve_int.
  - intros name key d Hd Hg. apply overInt_int32; [|done]. by apply envInt32_range.
  - intros. by apply overInt_Itoa.
  - intros. by apply envInt32_Itoa.
Qed.

Definition demoFlags : list (flagForm * setting) :=
  [(Spaced true, ("partitions", "3")); (Joined false, ("listen", ":9")); (Bare true, ("raft-bootstrap", "true")); (Joined true, ("partitions", "0x10"))]%string.

Lemma config_precedence_witness :
  let e : environ := {["KAFKA_NUM_PARTITIONS" := "12"; "KAFKA_NODE_ID" := "x"; "KAFKA_ADVERTISED_LISTENERS" := "PLAINTEXT://k1:9094"]}%string in
  let c := Load e ["--partitions"; "3"; "-listen=:9"; "--raft-bootstrap"; "--partitions=0x10"]%string in
  NumPartitions c = 16 /\ Listen c = ":9"%string /\ NodeID c = 0 /\ AdvertisedPort c = 9094 /\ ReplicationFactor c = 1 /\ RaftBootstrap c = true.
Proof.
  intros e c.
  assert (Forall (accepted (list_to_map (flagsOf Default))) demoFlags) as Hs.
  { repeat apply Forall_cons_2; [..|apply Forall_nil_2]; (eexists; split; [cbn [fst snd]; rewrite flags_lookup; reflexivity|split; reflexivity || exact I]). }
  destruct (config_precedence e demoFlags Hs) as (HN & _ & HL & _ & HA & _ & _ & HP & _ & _ & _ & _ & _ & _ & HB & HR & _).
  change (Load e (argsOfAll demoFlags)) with c in *. rewrite HN, HL, HA, HP, HR, HB. by split_and!.
Defined.

(** A refused value ends the parsing: the flag takes what its parser returned next
    to the error and the remaining arguments have no effect. *)
Lemma Parse_refused c arg args name v old :
  flagName arg = Some (name, Some v) ->
  snd <$> List.find (fun '(n, _) => bool_decide (n = name)) (flagsOf c) = Some old -> (setValue old v).2 = false ->
  Parse (arg :: args) (list_to_map (flagsOf c)) = <[name := (setValue old v).1]> (list_to_map (flagsOf c)).
Proof.
  intros Ha Ho Hv. destruct (setValue old v) as [new ok] eqn:Hset. cbn in Hv. subst ok.
  by rewrite (Parse_step _ _ _ name v old new false) by (rewrite ?flags_lookup; done).
Qed.

(** the flag package stops at its first error and the code drops it.  With a
    refused value the number becomes what the parser returned next to its error,
    zero here, and every later flag is ignored; a number beyond 32 bits is cut to
    its low bits, from a flag and from a variable. *)
Theorem config_errors_silent :
  (forall e, let c := Load e ["-partitions=ten"; "-log-dirs=/data"]%string in
             NumPartitions c = 0 /\ LogDirs c = envString e "KAFKA_LOG_DIRS" "./data") /\
  (forall e, NodeID (Load e ["-node-id=4294967297"]%string) = 1) /\
  NumPartitions (Load {["KAFKA_NUM_PARTITIONS" := "4294967296"]}%string []) = 0.
Proof.
  split_and!.
  - intros e c. subst c. unfold Load. rewrite (Parse_refused _ _ _ "partitions" "ten" (VInt (NumPartitions (envConfig e)))) by done.
    cbn [NumPartitions LogDirs]. unfold intFlag, strFlag. rewrite lookup_insert_eq, lookup_insert_ne, flags_lookup by done.
    split; [reflexivity|]. cbn -[envConfig]. unfold envConfig. by destruct (advertised e _ _).
  - intros e. unfold Load. rewrite (Parse_step _ _ _ "node-id" "4294967297" (VInt (NodeID (envConfig e))) (VInt 4294967297) true)
      by (rewrite ?flags_lookup; done).
    cbn [Parse NodeID]. unfold intFlag. by rewrite lookup_insert_eq.
  - reflexivity.
Qed.
