(* ===== verification/Broker.v ===== *)
(** * internal/broker/broker.go: the broker of one node, on the file backend

    The topic catalog, the local logs, the leader's view of its followers (high
    watermark and in-sync set), and the reconciliation of a node with the
    committed metadata.  The controller is its local state machine ([Fsm]); what
    proposing a command does to it is the parameter [raft], because the
    consensus library decides: the state is the local one when the bounded wait
    after the proposal ends.  Times are in milliseconds.  A log that is not open
    is its directory on disk, opened by [Recovery.Open]. *)

From Stdlib Require Import Ascii.
From stdpp Require Import sorting.
From S2P Require Import Prelude Strconv Offsets Cluster Record Log Recovery Replication Fsm.

(** ** State *)

Record BrokerConfig := mkBrokerConfig {
  cfg_NumPartitions : Z; cfg_ReplicationFactor : Z; cfg_AutoCreate : bool;
  cfg_RetentionMs : Z; cfg_RetentionBytes : Z; cfg_log : Config }.

Record followerProgress := mkProgress { endOffset : Z; heardAt : Z }.

Record Node := mkNode {
  b_cfg : BrokerConfig;
  b_cluster : Cluster;
  ctrl : option metaState;
  repl : option Manager;
  dirs : gmap string dir;
  catalog : gmap string Z;
  logs : gmap tp Log;
  followers : gmap tp (gmap Z followerProgress);
  leadSince : gmap tp Z }.

Definition replicaLagTimeout : Z := 10000.

Definition me (b : Node) : Z := Self (b_cluster b).
Definition withCtrl (c : option metaState) (b : Node) : Node :=
  mkNode (b_cfg b) (b_cluster b) c (repl b) (dirs b) (catalog b) (logs b) (followers b) (leadSince b).
Definition withRepl (m : option Manager) (b : Node) : Node :=
  mkNode (b_cfg b) (b_cluster b) (ctrl b) m (dirs b) (catalog b) (logs b) (followers b) (leadSince b).
Definition withCatalog (c : gmap string Z) (b : Node) : Node :=
  mkNode (b_cfg b) (b_cluster b) (ctrl b) (repl b) (dirs b) c (logs b) (followers b) (leadSince b).
Definition withLogs (ls : gmap tp Log) (b : Node) : Node :=
  mkNode (b_cfg b) (b_cluster b) (ctrl b) (repl b) (dirs b) (catalog b) ls (followers b) (leadSince b).
Definition withFollowers (f : gmap tp (gmap Z followerProgress)) (b : Node) : Node :=
  mkNode (b_cfg b) (b_cluster b) (ctrl b) (repl b) (dirs b) (catalog b) (logs b) f (leadSince b).
Definition withLeadSince (s : gmap tp Z) (b : Node) : Node :=
  mkNode (b_cfg b) (b_cluster b) (ctrl b) (repl b) (dirs b) (catalog b) (logs b) (followers b) s.
Definition setLog (k : tp) (l : Log) (b : Node) : Node := withLogs (<[k := l]> (logs b)) b.

(** ** Logs and directories *)

(** Below the data directory. *)
Definition partitionDir (topic : string) (p : Z) : string := (topic +:+ "-" +:+ Itoa p)%string.

Definition getLog (topic : string) (p : Z) (b : Node) : option Log := logs b !! (topic, p).

(** [e]: the outcomes of the file calls. *)
Definition openLocked (e : openIO) (topic : string) (p : Z) (b : Node) : go (Node * (Log + error)) :=
  match logs b !! (topic, p) with
  | Some l => Ret (b, inl l)
  | None =>
    r ← Open e (default ∅ (dirs b !! partitionDir topic p)) (cfg_log (b_cfg b));
    match r with
    | inr er => Ret (b, inr er)
    | inl l => Ret (setLog (topic, p) l b, inl l)
    end
  end.

(** The loop of [registerLocked] over partitions [p], [p + 1], ... *)
Fixpoint openLed (e : tp -> openIO) (name : string) (p : Z) (n : nat) (b : Node) : go (Node * option error) :=
  match n with
  | O => Ret (b, None)
  | S n =>
    lead ← IsLeader (b_cluster b) name p;
    if lead : bool then
      '(b', r) ← openLocked (e (name, p)) name p b;
      match r with inr er => Ret (b', Some er) | inl _ => openLed e name (p + 1) n b' end
    else openLed e name (p + 1) n b
  end.

Definition registerLocked (e : tp -> openIO) (name : string) (partitions : Z) (b : Node) : go (Node * option error) :=
  let partitions := if partitions <=? 0 then cfg_NumPartitions (b_cfg b) else partitions in
  openLed e name 0 (Z.to_nat partitions) (withCatalog (<[name := partitions]> (catalog b)) b).

(** ** Loading the data directory *)

Definition HasPrefix (s pre : string) : bool :=
  bool_decide (string_take (String.length pre) s = pre) && (String.length pre <=? String.length s)%nat.

Definition dirEntry (name : string) : option tp :=
  if HasPrefix name "__" then None
  else match LastIndex name "-" with
       | None => None
       | Some i => pid ← Atoi (string_drop (S i) name); Some (string_take i name, int32 pid)
       end.

Definition noteMax (m : gmap string Z) (k : tp) : gmap string Z :=
  <[k.1 := Z.max (default 0 (m !! k.1)) k.2]> m.

Fixpoint openEntries (e : tp -> openIO) (ks : list tp) (b : Node) : go (Node * option error) :=
  match ks with
  | [] => Ret (b, None)
  | k :: ks =>
    '(b', r) ← openLocked (e k) k.1 k.2 b;
    match r with inr er => Ret (b', Some er) | inl _ => openEntries e ks b' end
  end.

(** A failing [New] returns no broker, so the order of the opens is immaterial. *)
Definition loadExisting (e : tp -> openIO) (b : Node) : go (Node * option error) :=
  let ks := omap dirEntry (map_to_list (dirs b)).*1 in
  let maxPart := foldl noteMax ∅ ks in
  openEntries e ks (withCatalog (((fun m => int32 (m + 1)) <$> maxPart) ∪ catalog b) b).

Definition New (e : tp -> openIO) (c : BrokerConfig) (cl : Cluster) (ds : gmap string dir) : go (Node * option error) :=
  loadExisting e (mkNode c cl None None ds ∅ ∅ ∅ ∅).

(** ** Leadership and metadata views *)

Definition containsNode (ids : list Z) (id : Z) : bool := existsb (fun x => x =? id) ids.

Definition leaderAddr (topic : string) (p : Z) (st : metaState) (b : Node) : option (Z * string) :=
  match Partition st topic p with
  | None => None
  | Some pv =>
    if v_Leader pv <? 0 then None
    else bi ← Broker (b_cluster b) (v_Leader pv);
         Some (v_Leader pv, (Host bi +:+ ":" +:+ Itoa (Port bi))%string)
  end.

Definition replicaLog (e : openIO) (topic : string) (p : Z) (b : Node) : go (Node * (Log + error)) :=
  openLocked e topic p b.

Definition PartitionMeta (topic : string) (p : Z) (b : Node) : go (Z * Z * list Z * list Z) :=
  match st ← ctrl b; Partition st topic p with
  | Some pv => Ret (v_Leader pv, v_LeaderEpoch pv, v_Replicas pv, v_ISR pv)
  | None => leader ← LeaderFor (b_cluster b) topic p; Ret (leader, 0, [leader], [leader])
  end.

Definition leads (topic : string) (p : Z) (b : Node) : go bool :=
  match ctrl b with
  | Some st => Ret (match Partition st topic p with Some pv => v_Leader pv =? me b | None => false end)
  | None => IsLeader (b_cluster b) topic p
  end.

Definition NumPartitions (topic : string) (b : Node) : Z :=
  match ctrl b with
  | Some st => default (cfg_NumPartitions (b_cfg b)) (Partitions st topic)
  | None => default (cfg_NumPartitions (b_cfg b)) (catalog b !! topic)
  end.

Definition topicInfo_le (x y : string * Z) : Prop := String.leb x.1 y.1 = true.
#[export] Instance topicInfo_le_dec : RelDecision topicInfo_le.
Proof. intros x y. unfold topicInfo_le. apply _. Defined.

Definition KnownTopics (b : Node) : list (string * Z) :=
  match ctrl b with
  | Some st => map (fun tv => (tv_Name tv, tv_Partitions tv)) (Topics st)
  | None => merge_sort topicInfo_le (map_to_list (catalog b))
  end.

Definition Knows (topic : string) (b : Node) : bool :=
  match ctrl b with
  | Some st => HasTopic st topic
  | None => bool_decide (is_Some (catalog b !! topic))
  end.

Definition LocalLog (e : tp -> openIO) (topic : string) (p : Z) (b : Node) : go (Node * (Log + error)) :=
  let np := NumPartitions topic b in
  if (p <? 0) || (np <=? p) then Ret (b, inr ErrUnknownPartition)
  else
    lead ← leads topic p b;
    if negb lead then Ret (b, inr ErrNotLeader)
    else
      match logs b !! (topic, p) with
      | Some l => Ret (b, inl l)
      | None =>
        match ctrl b, catalog b !! topic with
        | None, None =>
          '(b', er) ← registerLocked e topic np b;
          match er with Some er => Ret (b', inr er) | None => openLocked (e (topic, p)) topic p b' end
        | _, _ => openLocked (e (topic, p)) topic p b
        end
      end.

(** ** The high watermark *)

(** The loop of [advanceHighWatermark]; a follower that has not fetched counts as 0. *)
Fixpoint isr_min (self : Z) (prog : gmap Z followerProgress) (isr : list Z) (hwm : Z) : Z :=
  match isr with
  | [] => hwm
  | id :: isr =>
    if id =? self then isr_min self prog isr hwm
    else
      let off := match prog !! id with Some pr => endOffset pr | None => 0 end in
      isr_min self prog isr (if off <? hwm then off else hwm)
  end.

Definition advanceHighWatermark (st : metaState) (topic : string) (p : Z) (b : Node) : Node :=
  match Partition st topic p with
  | None => b
  | Some pv =>
    if negb (v_Leader pv =? me b) then b
    else
      match getLog topic p b with
      | None => b
      | Some l =>
        let prog := default ∅ (followers b !! (topic, p)) in
        let hwm := isr_min (me b) prog (v_ISR pv) (LatestOffset l) in
        setLog (topic, p) (SetHighWatermark hwm l) b
      end
  end.

Definition RecordReplicaFetch (now : Z) (topic : string) (p replicaID fetchOffset : Z) (b : Node) : Node :=
  match ctrl b with
  | None => b
  | Some st =>
    let key := (topic, p) in
    let prog := <[replicaID := mkProgress fetchOffset now]> (default ∅ (followers b !! key)) in
    advanceHighWatermark st topic p (withFollowers (<[key := prog]> (followers b)) b)
  end.

Definition noteLeadSince (now : Z) (key : tp) (b : Node) : Node :=
  match leadSince b !! key with
  | Some _ => b
  | None => withLeadSince (<[key := now]> (leadSince b)) b
  end.

(** ** Reconciliation with the committed placement *)

(** One partition; the action answered: whether this node leads it. *)
Definition reconcilePart (e : tp -> openIO) (topic : string) (p : Z) (pv : PartitionView) (b : Node)
    : go (Node * list (tp * bool)) :=
  if negb (containsNode (v_Replicas pv) (me b)) then Ret (b, [])
  else
    '(b', r) ← openLocked (e (topic, p)) topic p b;
    match r with
    | inr _ => Ret (b', [])
    | inl l =>
      if 1 <? zlen (v_Replicas pv)
      then Ret (setLog (topic, p) (HoldHighWatermark l) b', [((topic, p), v_Leader pv =? me b)])
      else Ret (b', [])
    end.

Fixpoint reconcileParts (e : tp -> openIO) (ps : list (tp * PartitionView)) (b : Node) : go (Node * list (tp * bool)) :=
  match ps with
  | [] => Ret (b, [])
  | ((topic, p), pv) :: ps =>
    '(b', a) ← reconcilePart e topic p pv b;
    '(b'', acts) ← reconcileParts e ps b';
    Ret (b'', a ++ acts)
  end.

Definition followAction (now : Z) (b : Node) (a : tp * bool) : Node :=
  match repl b with
  | None => b
  | Some m =>
    if a.2 then noteLeadSince now a.1 (withRepl (Some (fst (StopFollowing a.1 m))) b)
    else withRepl (Some (fst (EnsureFollowing a.1 m))) b
  end.

(** [allParts]: the partitions of [Topics], in the order of the two loops. *)
Definition reconcileFromFSM (e : tp -> openIO) (now : Z) (b : Node) : go Node :=
  match ctrl b with
  | None => Ret b
  | Some st => '(b', acts) ← reconcileParts e (allParts st) b; Ret (foldl (followAction now) b' acts)
  end.

Definition SetController (e : tp -> openIO) (now : Z) (st : metaState) (b : Node) : go Node :=
  reconcileFromFSM e now (withRepl (Some (NewManager (me b))) (withCtrl (Some st) b)).

(** ** The in-sync set *)

Definition sameNodeSet (a b : list Z) : bool :=
  (zlen a =? zlen b) && forallb (fun x => bool_decide (x ∈ (list_to_set a : gset Z))) b.

(** Whether the leader counts replica [r] as in sync. *)
Definition inSync (now : Z) (prog : gmap Z followerProgress) (since : option Z) (r : Z) : bool :=
  match prog !! r, since with
  | Some pr, _ => now - heardAt pr <=? replicaLagTimeout
  | None, Some t => now - t <=? replicaLagTimeout
  | None, None => false
  end.

Definition desiredISR (now : Z) (topic : string) (p : Z) (pv : PartitionView) (b : Node) : list Z :=
  let prog := default ∅ (followers b !! (topic, p)) in
  let since := leadSince b !! (topic, p) in
  filter (fun r => (r =? me b) || inSync now prog since r = true) (v_Replicas pv).

Definition replicationFactor (b : Node) : Z :=
  let rf := cfg_ReplicationFactor (b_cfg b) in
  let rf := if rf <? 1 then 1 else rf in
  let n := int32 (Cluster.Size (b_cluster b)) in
  if n <? rf then n else rf.

(** [ReplicasFor] of partitions [p], [p + 1], ... *)
Fixpoint replicaSets (c : Cluster) (name : string) (rf p : Z) (n : nat) : go (list (list Z)) :=
  match n with
  | O => Ret []
  | S n =>
    rs ← ReplicasFor c name p rf;
    rest ← replicaSets c name rf (p + 1) n;
    Ret (rs :: rest)
  end.

Section Proposals.

(** The local metadata after a proposal, and the error the proposer gets. *)
Context (raft : Command -> metaState -> metaState * option error).

Definition maintainPartitionISR (now : Z) (topic : string) (p : Z) (pv : PartitionView) (b : Node) : Node :=
  let desired := desiredISR now topic p pv b in
  if sameNodeSet desired (v_ISR pv) then b
  else match ctrl b with
       | None => b
       | Some st => withCtrl (Some (fst (raft (CmdChangeISR topic p desired) st))) b
       end.

Definition maintainOne (now : Z) (b : Node) (x : tp * PartitionView) : Node :=
  let '((topic, p), pv) := x in
  if negb (v_Leader pv =? me b) || (zlen (v_Replicas pv) <=? 1) then b
  else
    let b' := maintainPartitionISR now topic p pv b in
    match ctrl b' with None => b' | Some st => advanceHighWatermark st topic p b' end.

Definition maintainReplicas (now : Z) (b : Node) : Node :=
  match ctrl b with None => b | Some st => foldl (maintainOne now) b (allParts st) end.

(** ** Creating topics and partitions *)

Definition proposeCreate (e : tp -> openIO) (now : Z) (name : string) (np : Z) (st : metaState) (b : Node)
    : go (Node * option error) :=
  let np := if np <=? 0 then cfg_NumPartitions (b_cfg b) else np in
  let np := if np <=? 0 then 1 else np in
  replicas ← replicaSets (b_cluster b) name (replicationFactor b) 0 (Z.to_nat np);
  let '(st', er) := raft (CmdCreateTopic name replicas) st in
  let b' := withCtrl (Some st') b in
  match er with
  | Some er => if HasTopic st' name then b'' ← reconcileFromFSM e now b'; Ret (b'', None) else Ret (b', Some er)
  | None => b'' ← reconcileFromFSM e now b'; Ret (b'', None)
  end.

Definition CreatePartitions (e : tp -> openIO) (now : Z) (name : string) (newCount : Z) (b : Node)
    : go (Node * option error) :=
  match ctrl b with
  | Some st =>
    match Partitions st name with
    | None => Ret (b, Some ErrUnknownTopic)
    | Some cur =>
      if newCount <=? cur then Ret (b, Some ErrBadCount)
      else
        added ← replicaSets (b_cluster b) name (replicationFactor b) cur (Z.to_nat (newCount - cur));
        let '(st', er) := raft (CmdCreatePartitions name added) st in
        let b' := withCtrl (Some st') b in
        match er with
        | Some er => Ret (b', Some er)
        | None => b'' ← reconcileFromFSM e now b'; Ret (b'', None)
        end
    end
  | None =>
    match catalog b !! name with
    | None => Ret (b, Some ErrUnknownTopic)
    | Some cur => if newCount <=? cur then Ret (b, Some ErrBadCount) else registerLocked e name newCount b
    end
  end.

Definition CreateTopic (e : tp -> openIO) (now : Z) (name : string) (partitions : Z) (b : Node)
    : go (Node * option error) :=
  match ctrl b with
  | Some st => if HasTopic st name then Ret (b, Some ErrTopicExists) else proposeCreate e now name partitions st b
  | None =>
    match catalog b !! name with
    | Some _ => Ret (b, Some ErrTopicExists)
    | None => registerLocked e name partitions b
    end
  end.

Definition EnsureTopic (e : tp -> openIO) (now : Z) (name : string) (b : Node) : go (Node * (Z * option error)) :=
  let default_np := cfg_NumPartitions (b_cfg b) in
  match ctrl b with
  | Some st =>
    match Partitions st name with
    | Some n => Ret (b, (n, None))
    | None =>
      '(b', er) ← proposeCreate e now name default_np st b;
      match er with
      | Some er => Ret (b', (0, Some er))
      | None => Ret (b', (default default_np (st' ← ctrl b'; Partitions st' name), None))
      end
    end
  | None =>
    match catalog b !! name with
    | Some n => Ret (b, (n, None))
    | None =>
      '(b', er) ← registerLocked e name default_np b;
      match er with Some er => Ret (b', (0, Some er)) | None => Ret (b', (default_np, None)) end
    end
  end.

End Proposals.

(** ** Maintenance of the local logs *)

(** Every log's Flush until one fails; [order] is the order of the map walk. *)
Fixpoint FlushAll (synced : tp -> bool) (order : list tp) (b : Node) : Node * option error :=
  match order with
  | [] => (b, None)
  | k :: order =>
    match logs b !! k with
    | None => FlushAll synced order b
    | Some l =>
      match Flush (synced k) l with
      | (l', Some er) => (setLog k l' b, Some er)
      | (l', None) => FlushAll synced order (setLog k l' b)
      end
    end
  end.

Definition EnforceRetentionAll (now : Z) (modTime : tp -> Z -> option Z) (b : Node) : Node :=
  let c := b_cfg b in
  if (cfg_RetentionMs c <=? 0) && (cfg_RetentionBytes c <=? 0) then b
  else withLogs (map_imap (fun k l => Some (EnforceRetention now (modTime k) (cfg_RetentionMs c) (cfg_RetentionBytes c) l))
                   (logs b)) b.

(** ** What the high watermark is *)

Definition fetched (prog : gmap Z followerProgress) (id : Z) : Z :=
  match prog !! id with Some pr => endOffset pr | None => 0 end.

(** The loop computes the greatest lower bound of the log end and what the
    in-sync followers have fetched. *)
Lemma isr_min_spec self prog isr hwm x :
  x <= isr_min self prog isr hwm <-> x <= hwm /\ forall id, id ∈ isr -> id <> self -> x <= fetched prog id.
Proof.
  revert hwm. induction isr as [|id isr IH]; intros hwm; cbn [isr_min].
  - split; [|tauto]. intros H. split; [done|]. by intros id ?%elem_of_nil.
  - change (match prog !! id with Some pr => endOffset pr | None => 0 end) with (fetched prog id).
    setoid_rewrite elem_of_cons. destruct (Z.eqb_spec id self) as [->|Hne]; rewrite IH; [set_solver|].
    split.
    + intros [Hx Hall]. destruct (Z.ltb_spec (fetched prog id) hwm) as [Hlt|Hge];
        (split; [lia|]); intros id' [->|Hid] Hs; try lia; by apply Hall.
    + intros [Hx Hall]. pose proof (Hall id (or_introl eq_refl) Hne).
      split; [destruct (Z.ltb_spec (fetched prog id) hwm); lia|]. eauto.
Qed.

(** The replicated offset of a partition: the target of [advanceHighWatermark]. *)
Definition replicated (pv : PartitionView) (topic : string) (p : Z) (l : Log) (b : Node) : Z :=
  isr_min (me b) (default ∅ (followers b !! (topic, p))) (v_ISR pv) (LatestOffset l).

Lemma SetHighWatermark_max h l : h <= nextOffset l ->
  SetHighWatermark h l = mkLog (cfg l) (segments l) (nextOffset l) (Z.max (highWatermark l) h) (holdHWM l) (dirty l).
Proof.
  intros Hh. unfold SetHighWatermark. rewrite (proj2 (Z.ltb_ge _ _) Hh). destruct (Z.ltb_spec (highWatermark l) h).
  - by rewrite Z.max_r by lia.
  - rewrite Z.max_l by lia. by destruct l.
Qed.

Lemma advance_led st topic p b pv l :
  Partition st topic p = Some pv -> v_Leader pv = me b -> getLog topic p b = Some l ->
  advanceHighWatermark st topic p b =
  setLog (topic, p) (mkLog (cfg l) (segments l) (nextOffset l)
    (Z.max (highWatermark l) (replicated pv topic p l b)) (holdHWM l) (dirty l)) b.
Proof.
  intros Hp Hl Hg. unfold advanceHighWatermark. rewrite Hp, Hl, Z.eqb_refl, Hg. cbn [negb].
  fold (replicated pv topic p l b). rewrite SetHighWatermark_max; [done|].
  by apply (proj1 (isr_min_spec _ _ _ _ _) (Z.le_refl _)).
Qed.

Lemma advance_cases st topic p b :
  advanceHighWatermark st topic p b = b \/
  exists pv l, Partition st topic p = Some pv /\ v_Leader pv = me b /\ getLog topic p b = Some l.
Proof.
  unfold advanceHighWatermark. destruct (Partition st topic p) as [pv|]; [|by left].
  destruct (Z.eqb_spec (v_Leader pv) (me b)) as [Hl|]; [|by left]. cbn [negb].
  destruct (getLog topic p b) as [l|]; [right; eauto|by left].
Qed.

(** ** The in-sync set *)

Lemma sameNodeSet_spec a b : NoDup a -> NoDup b -> sameNodeSet a b = true <-> a ≡ₚ b.
Proof.
  intros Ha Hb. unfold sameNodeSet. rewrite andb_true_iff, Z.eqb_eq, forallb_forall. split.
  - intros [Hlen Hin]. symmetry. apply submseteq_length_Permutation; [|unfold zlen in Hlen; lia].
    apply NoDup_submseteq; [done|]. intros x Hx. apply list_elem_of_In, Hin, bool_decide_eq_true in Hx.
    by apply elem_of_list_to_set in Hx.
  - intros Hp. split; [unfold zlen; by rewrite Hp|]. intros x Hx%list_elem_of_In. rewrite bool_decide_eq_true.
    apply elem_of_list_to_set. by rewrite Hp.
Qed.

Lemma desired_elem now topic p pv b id :
  id ∈ desiredISR now topic p pv b <->
  id ∈ v_Replicas pv /\
  (id = me b \/ inSync now (default ∅ (followers b !! (topic, p))) (leadSince b !! (topic, p)) id = true).
Proof. unfold desiredISR. rewrite list_elem_of_filter, orb_true_iff, Z.eqb_eq. tauto. Qed.

(** ** Reconciliation *)

(** The logs a pass needs can be opened or fail, but not hang or panic. *)
Definition opens (e : tp -> openIO) (b : Node) (k : tp) : Prop :=
  is_Some (logs b !! k) \/
  exists r, Open (e k) (default ∅ (dirs b !! partitionDir k.1 k.2)) (cfg_log (b_cfg b)) = Ret r.

(** The same node, up to logs that are opened or held. *)
Record reconciles (b b' : Node) : Prop := {
  rc_cfg : b_cfg b' = b_cfg b; rc_cluster : b_cluster b' = b_cluster b; rc_ctrl : ctrl b' = ctrl b;
  rc_repl : repl b' = repl b; rc_dirs : dirs b' = dirs b; rc_catalog : catalog b' = catalog b;
  rc_followers : followers b' = followers b; rc_since : leadSince b' = leadSince b;
  rc_logs : forall k l, logs b !! k = Some l ->
    logs b' !! k = Some l \/ logs b' !! k = Some (HoldHighWatermark l) }.

Lemma hold_twice l : HoldHighWatermark (HoldHighWatermark l) = HoldHighWatermark l.
Proof. done. Qed.

#[export] Instance reconciles_preorder : PreOrder reconciles.
Proof.
  split; [intros b; split; auto|]. intros x y z [] []. split; try congruence.
  intros k l Hk. destruct (rc_logs0 k l Hk) as [Hy|Hy]; destruct (rc_logs1 _ _ Hy); auto.
Qed.

Lemma opens_reconciles e b b' k : reconciles b b' -> opens e b k -> opens e b' k.
Proof.
  intros [] [[l Hl]|[r Hr]].
  - left. destruct (rc_logs0 k l Hl) as [->| ->]; by eexists.
  - right. exists r. by rewrite rc_dirs0, rc_cfg0.
Qed.

Lemma openLocked_ok e b k : opens e b k -> exists b' r, openLocked (e k) k.1 k.2 b = Ret (b', r) /\ reconciles b b' /\
  (forall j, j <> k -> logs b' !! j = logs b !! j) /\
  match r with inl l => logs b' !! k = Some l | inr _ => logs b' !! k = None end.
Proof.
  destruct k as [topic p]. cbn [fst snd]. unfold openLocked. intros Ho.
  destruct (logs b !! (topic, p)) as [l|] eqn:El; [exists b, (inl l); split_and!; done|].
  destruct Ho as [[l Hl]|[r Hr]]; [congruence|]. cbn in Hr. rewrite Hr. cbn [mbind go_bind].
  destruct r as [l|er]; [|exists b, (inr er); split_and!; done].
  exists (setLog (topic, p) l b), (inl l). split_and!; [done| | |apply lookup_insert_eq].
  - split; try done. intros k l' Hk. left. cbn. rewrite lookup_insert_ne; congruence.
  - intros j Hj. cbn. by rewrite lookup_insert_ne.
Qed.

Lemma containsNode_spec ids id : containsNode ids id = true <-> id ∈ ids.
Proof.
  unfold containsNode. rewrite existsb_exists. split.
  - intros (x & Hx%list_elem_of_In & ->%Z.eqb_eq). done.
  - intros H. exists id. split; [by apply list_elem_of_In|apply Z.eqb_refl].
Qed.

(** What the pass decides for one partition: whether it is replicated here and
    needs a fetch action. *)
Definition acts_on (b : Node) (pv : PartitionView) : Prop := me b ∈ v_Replicas pv /\ 1 < zlen (v_Replicas pv).

Lemma reconcilePart_ok e k pv b : opens e b k -> exists b' a, reconcilePart e k.1 k.2 pv b = Ret (b', a) /\ reconciles b b' /\
  (forall j, j <> k -> logs b' !! j = logs b !! j) /\
  (me b ∉ v_Replicas pv -> logs b' !! k = logs b !! k) /\
  (forall l, acts_on b pv -> logs b' !! k = Some l -> holdHWM l = true) /\
  ((acts_on b pv /\ is_Some (logs b' !! k) /\ a = [(k, v_Leader pv =? me b)]) \/
   (~ (acts_on b pv /\ is_Some (logs b' !! k)) /\ a = [])).
Proof.
  intros Ho. unfold reconcilePart, acts_on. destruct (containsNode (v_Replicas pv) (me b)) eqn:Hc; cbn [negb].
  2:{ assert (me b ∉ v_Replicas pv) as Hn by (rewrite <- containsNode_spec; by rewrite Hc).
      exists b, []. split_and!; try done; [by intros ? [? _]|right; split; [by intros [[? _] _]|done]]. }
  apply containsNode_spec in Hc. destruct k as [topic p].
  destruct (openLocked_ok e b (topic, p) Ho) as (b1 & r & Hop & Hrec & Hoth & Hr). cbn [fst snd] in *.
  rewrite Hop. cbn [mbind go_bind]. destruct r as [l|er].
  - destruct (Z.ltb_spec 1 (zlen (v_Replicas pv))) as [Hlen|Hlen].
    + eexists _, _. split_and!; [reflexivity| | | | |].
      * transitivity b1; [done|]. split; try done. intros j l' Hj. cbn.
        destruct (decide (j = (topic, p))) as [->|Hne]; [|rewrite lookup_insert_ne by done; by left].
        rewrite lookup_insert_eq. right. congruence.
      * intros j Hj. cbn. rewrite lookup_insert_ne by done. by apply Hoth.
      * naive_solver.
      * intros l' _. cbn. rewrite lookup_insert_eq. by intros [= <-].
      * left. cbn. rewrite lookup_insert_eq. split_and!; done.
    + exists b1, []. split_and!; try done; [intros ? [? ?]; lia|right; split; [intros [[? ?] _]; lia|done]].
  - exists b1, []. split_and!; try done; [intros ? _; congruence|].
    right. split; [|done]. intros [_ [? ?]]. congruence.
Qed.

Lemma me_reconciles b b' : reconciles b b' -> me b' = me b.
Proof. intros []. unfold me. by rewrite rc_cluster0. Qed.

Lemma reconcileParts_ok e ps b : NoDup ps.*1 -> Forall (opens e b) ps.*1 ->
  exists b' acts, reconcileParts e ps b = Ret (b', acts) /\ reconciles b b' /\
  (forall j, (forall pv, (j, pv) ∈ ps -> me b ∉ v_Replicas pv) -> logs b' !! j = logs b !! j) /\
  (forall k pv l, (k, pv) ∈ ps -> acts_on b pv -> logs b' !! k = Some l -> holdHWM l = true) /\
  acts.*1 `sublist_of` ps.*1 /\
  (forall k pv, (k, pv) ∈ ps -> acts_on b pv -> is_Some (logs b' !! k) -> (k, v_Leader pv =? me b) ∈ acts) /\
  (forall k ld, (k, ld) ∈ acts -> exists pv, (k, pv) ∈ ps /\ acts_on b pv /\ ld = (v_Leader pv =? me b)).
Proof.
  revert b. induction ps as [|[k pv] ps IH]; intros b Hnd Ho.
  { exists b, []. split_and!; try done; [by intros ??? ?%elem_of_nil|by intros ?? ?%elem_of_nil|by intros ?? ?%elem_of_nil]. }
  cbn in Hnd, Ho. apply NoDup_cons in Hnd as [Hk Hnd]. apply Forall_cons in Ho as [Hok Ho].
  destruct (reconcilePart_ok e k pv b Hok) as (b1 & a & Hp & Hrec & Hoth & Hnot & Hhold & Ha).
  destruct (IH b1 Hnd) as (b2 & acts & Hps & Hrec2 & Hoth2 & Hhold2 & Hsub & Hin & Hfrom).
  { eapply Forall_impl; [exact Ho|]. intros j. by apply opens_reconciles. }
  assert (forall pv, acts_on b1 pv <-> acts_on b pv) as Hact by (intros q; unfold acts_on; by rewrite (me_reconciles b b1)).
  rewrite (me_reconciles _ _ Hrec) in Hoth2, Hin, Hfrom.
  assert (logs b2 !! k = logs b1 !! k) as Hk2.
  { apply Hoth2. intros q Hq. exfalso. apply Hk. change k with (fst (k, q)). by apply list_elem_of_fmap_2. }
  destruct k as [topic p]. cbn [reconcileParts fst snd] in *. rewrite Hp. cbn [mbind go_bind]. rewrite Hps. cbn [mbind go_bind].
  exists b2, (a ++ acts). split_and!; [done|by transitivity b1| | | | |].
  - intros j Hj. destruct (decide (j = (topic, p))) as [->|Hne].
    + rewrite Hk2. apply Hnot, Hj. by left.
    + rewrite Hoth2 by (intros q Hq; apply Hj; by right). by apply Hoth.
  - intros j q l [[= -> ->]|Hq]%elem_of_cons Hj Hl; [rewrite Hk2 in Hl; by eapply Hhold|].
    eapply Hhold2; [done|by apply Hact|done].
  - destruct Ha as [(_ & _ & ->)|[_ ->]]; cbn; by constructor.
  - intros j q [[= -> ->]|Hq]%elem_of_cons Hj Hl; apply elem_of_app; [left|right; apply Hin; [done|by apply Hact|done]].
    rewrite Hk2 in Hl. destruct Ha as [(_ & _ & ->)|[Hno _]]; [by left|exfalso; by apply Hno].
  - intros j ld [Hj|Hj]%elem_of_app.
    + destruct Ha as [(H1 & _ & ->)|[_ ->]]; [|by apply elem_of_nil in Hj].
      apply list_elem_of_singleton in Hj as [= -> ->]. exists pv. split; [by left|done].
    + destruct (Hfrom j ld Hj) as (q & Hq & Hq' & ->). exists q. split; [by right|]. split; [by apply Hact|done].
Qed.

(** The fetch actions touch only the manager and the start of leadership. *)
Lemma followAction_same now b a : logs (followAction now b a) = logs b /\ ctrl (followAction now b a) = ctrl b /\
  me (followAction now b a) = me b /\ b_cluster (followAction now b a) = b_cluster b /\ b_cfg (followAction now b a) = b_cfg b.
Proof.
  unfold followAction. destruct (repl b) as [m|]; [|done]. destruct a.2; [|done].
  unfold noteLeadSince. by destruct (leadSince _ !! _).
Qed.

Lemma follow_same now acts b : let b' := foldl (followAction now) b acts in
  logs b' = logs b /\ ctrl b' = ctrl b /\ me b' = me b /\ b_cluster b' = b_cluster b /\ b_cfg b' = b_cfg b.
Proof.
  revert b. induction acts as [|a acts IH]; intros b; [done|]. cbn [foldl].
  destruct (IH (followAction now b a)) as (-> & -> & -> & -> & ->). apply followAction_same.
Qed.

Definition follows (b : Node) (k : tp) : Prop := exists m, repl b = Some m /\ k ∈ m_fetchers m.
Definition manager_open (b : Node) : Prop := exists m, repl b = Some m /\ m_closed m = false.

Lemma Stop_fetchers k m : m_closed (fst (StopFollowing k m)) = m_closed m /\
  forall j, j ∈ m_fetchers (fst (StopFollowing k m)) <-> j <> k /\ j ∈ m_fetchers m.
Proof.
  unfold StopFollowing. case_bool_decide as Hk; cbn; (split; [done|]); intros j.
  - rewrite elem_of_difference, elem_of_singleton. tauto.
  - split; [|tauto]. intros Hj. split; [by intros ->|done].
Qed.

Lemma Ensure_fetchers k m : m_closed m = false -> m_closed (fst (EnsureFollowing k m)) = false /\
  forall j, j ∈ m_fetchers (fst (EnsureFollowing k m)) <-> j = k \/ j ∈ m_fetchers m.
Proof.
  intros Hc. unfold EnsureFollowing. rewrite Hc. case_bool_decide as Hk; cbn; (split; [done|]); intros j.
  - split; [tauto|]. by intros [->|].
  - by rewrite elem_of_union, elem_of_singleton.
Qed.

Lemma follows_some b m k : repl b = Some m -> follows b k <-> k ∈ m_fetchers m.
Proof. intros Hm. unfold follows. rewrite Hm. split; [by intros (? & [= <-] & ?)|eauto]. Qed.

Lemma noteLeadSince_repl now k b : repl (noteLeadSince now k b) = repl b.
Proof. unfold noteLeadSince. by destruct (leadSince b !! k). Qed.

Lemma followAction_one now b k ld : manager_open b ->
  manager_open (followAction now b (k, ld)) /\
  forall j, follows (followAction now b (k, ld)) j <-> if decide (j = k) then ld = false else follows b j.
Proof.
  intros (m & Hm & Hc). pose proof (follows_some b m) as Hf. unfold followAction. rewrite Hm. cbn [fst snd].
  destruct ld; [destruct (Stop_fetchers k m) as [Hcl Hin]; rewrite Hc in Hcl|destruct (Ensure_fetchers k m Hc) as [Hcl Hin]].
  - split; [eexists; by rewrite noteLeadSince_repl|]. intros j.
    rewrite (follows_some _ (fst (StopFollowing k m))) by (by rewrite noteLeadSince_repl).
    rewrite Hin. destruct (decide (j = k)); [|rewrite (Hf j Hm)]; naive_solver.
  - split; [by eexists|]. intros j. rewrite (follows_some _ (fst (EnsureFollowing k m))) by done.
    rewrite Hin. destruct (decide (j = k)); [|rewrite (Hf j Hm)]; naive_solver.
Qed.

Lemma follow_fold now acts b : manager_open b -> NoDup acts.*1 ->
  let b' := foldl (followAction now) b acts in
  (forall k ld, (k, ld) ∈ acts -> follows b' k <-> ld = false) /\
  (forall k, k ∉ acts.*1 -> follows b' k <-> follows b k).
Proof.
  revert b. induction acts as [|[k ld] acts IH]; intros b Hb Hnd; [split; [by intros ?? ?%elem_of_nil|done]|].
  cbn in Hnd. apply NoDup_cons in Hnd as [Hk Hnd]. destruct (followAction_one now b k ld Hb) as [Hb' Hone].
  destruct (IH _ Hb' Hnd) as [H1 H2]. cbn [foldl]. split.
  - intros j l [[= -> ->]|Hj]%elem_of_cons; [|by apply H1]. rewrite H2 by done. rewrite Hone. by rewrite decide_True.
  - intros j Hj. cbn in Hj. apply not_elem_of_cons in Hj as [Hne Hj]. rewrite H2, Hone by done. by rewrite decide_False.
Qed.

Lemma allParts_Partition st k pv : small_topics st -> (k, pv) ∈ allParts st <-> Partition st k.1 k.2 = Some pv.
Proof. intros Hs. destruct k. by apply allParts_elem. Qed.

(** One pass against the committed placement [st]. *)
Lemma reconcile_ok e now b st :
  ctrl b = Some st -> small_topics st -> manager_open b -> (forall k, is_Some (Partition st k.1 k.2) -> opens e b k) ->
  exists b', reconcileFromFSM e now b = Ret b' /\ ctrl b' = ctrl b /\ b_cluster b' = b_cluster b /\ b_cfg b' = b_cfg b /\
  (forall k l, logs b !! k = Some l -> logs b' !! k = Some l \/ logs b' !! k = Some (HoldHighWatermark l)) /\
  (forall k, (forall pv, Partition st k.1 k.2 = Some pv -> me b ∉ v_Replicas pv) -> logs b' !! k = logs b !! k) /\
  forall k pv l, Partition st k.1 k.2 = Some pv -> acts_on b pv -> logs b' !! k = Some l ->
    holdHWM l = true /\ (follows b' k <-> v_Leader pv <> me b).
Proof.
  intros Hc Hs Hm Ho. unfold reconcileFromFSM. rewrite Hc.
  destruct (reconcileParts_ok e (allParts st) b) as (b1 & acts & Hp & Hrec & Hoth & Hhold & Hsub & Hin & Hfrom).
  { by apply allParts_NoDup. }
  { apply Forall_forall. intros k ([k' pv] & -> & Hk)%list_elem_of_fmap. apply allParts_Partition in Hk; [|done]. apply Ho. by eexists. }
  rewrite Hp. cbn [mbind go_bind]. eexists. split; [reflexivity|].
  destruct (follow_same now acts b1) as (Hl & Hct & Hme & Hcl & Hcf). rewrite Hl, Hct, Hcl, Hcf.
  assert (manager_open b1) as Hm1 by (unfold manager_open in *; by rewrite (rc_repl _ _ Hrec)).
  destruct (follow_fold now acts b1 Hm1) as [Hf1 Hf2]; [eapply sublist_NoDup; [by apply allParts_NoDup|done]|].
  split_and!; [by destruct Hrec; congruence|apply Hrec|apply Hrec|apply Hrec| |].
  - intros k Hk. apply Hoth. intros pv Hpv. apply allParts_Partition in Hpv; [|done]. by apply Hk.
  - intros k pv l Hpv Ha Hl'. assert ((k, pv) ∈ allParts st) as Hel by (by apply allParts_Partition).
    split; [by eapply Hhold|]. rewrite (Hf1 k (v_Leader pv =? me b)).
    + apply Z.eqb_neq.
    + apply Hin; [done|done|by eexists].
Qed.

(** ** Creating topics and partitions *)

Lemma replicaSets_ok c name rf p n : cluster_ok c ->
  exists rss, replicaSets c name rf p n = Ret rss /\ length rss = n /\
    forall i rs, rss !! i = Some rs -> ReplicasFor c name (p + Z.of_nat i) rf = Ret rs.
Proof.
  intros Hc. revert p. induction n as [|n IH]; intros p; [by exists []|]. cbn [replicaSets].
  pose proof (ReplicasFor_ok c Hc name p rf) as Hr. cbn zeta in Hr. rewrite Hr. cbn [mbind go_bind].
  destruct (IH (p + 1)) as (rss & -> & Hlen & Hall). cbn [mbind go_bind]. eexists. split; [reflexivity|].
  split; [cbn; by rewrite Hlen|]. intros [|i] rs; cbn.
  - intros [= <-]. by rewrite Z.add_0_r.
  - intros Hi%Hall. by replace (p + Z.of_nat (S i)) with (p + 1 + Z.of_nat i) by lia.
Qed.

(** The catalog of the state machine: the count of a topic is that of its partitions. *)
Definition meta_ok (st : metaState) : Prop :=
  map_Forall (fun _ t => Partitions_ t = zlen (Parts t) /\ zlen (Parts t) < 2 ^ 31) (Topics_ st).

Lemma meta_ok_small st : meta_ok st -> small_topics st.
Proof. intros H t tm Ht. by apply (H t tm Ht). Qed.

(** Where the placement puts a partition. *)
Definition placed (b : Node) (name : string) (st : metaState) (p : Z) : Prop :=
  exists leader rest, ReplicasFor (b_cluster b) name p (replicationFactor b) = Ret (leader :: rest) /\
    Partition st name p = Some (mkView leader 0 (leader :: rest) (leader :: rest)).

Lemma ReplicasFor_head c name p rf rs : cluster_ok c -> ReplicasFor c name p rf = Ret rs ->
  exists l rest, rs = l :: rest.
Proof.
  intros Hc. pose proof (ReplicasFor_ok c Hc name p rf) as H. cbn zeta in H. rewrite H. intros [= <-].
  pose proof (size_range c Hc). set (k := Z.to_nat _). assert (k <> 0%nat) by lia. destruct k; [done|]. cbn. eauto.
Qed.

(** A run of new partitions behind [old] ones lands where the placement says. *)
Lemma placed_new b name st (old : list partitionMeta) rss :
  cluster_ok (b_cluster b) -> Topics_ st !! name = Some (mkTopic (zlen old + zlen rss) (old ++ partsFromReplicas rss)) ->
  (forall i rs, rss !! i = Some rs -> ReplicasFor (b_cluster b) name (zlen old + Z.of_nat i) (replicationFactor b) = Ret rs) ->
  forall p, zlen old <= p < zlen old + zlen rss -> placed b name st p.
Proof.
  intros Hc Ht Hall p Hp. set (i := Z.to_nat (p - zlen old)). pose proof (zlen_nonneg old).
  destruct (lookup_lt_is_Some_2 rss i) as [rs Hrs]; [unfold i, zlen in *; lia|].
  pose proof (Hall i rs Hrs) as Hr. replace (zlen old + Z.of_nat i) with p in Hr by (unfold i; lia).
  destruct (ReplicasFor_head _ _ _ _ _ Hc Hr) as (l & rest & ->). exists l, rest. split; [done|].
  unfold Partition. rewrite (partition_found st name p _ (mkPart (l :: rest) l (l :: rest) 0) Ht); [done| |lia].
  cbn [Parts]. rewrite lookup_app_r by (unfold zlen in *; lia).
  replace (Z.to_nat p - length old)%nat with i by (unfold i, zlen in *; lia).
  unfold partsFromReplicas. by rewrite list_lookup_fmap, Hrs.
Qed.

Lemma Partition_insert_other st name tm topic p : topic <> name ->
  Partition (mkState (<[name := tm]> (Topics_ st)) (Segments_ st)) topic p = Partition st topic p.
Proof. intros Hne. unfold Partition, partition. cbn [Topics_]. by rewrite lookup_insert_ne. Qed.

(** A committed creation in the metadata. *)
Lemma create_applies b st name np rss : 0 < np < 2 ^ 31 -> meta_ok st -> cluster_ok (b_cluster b) -> HasTopic st name = false ->
  replicaSets (b_cluster b) name (replicationFactor b) 0 (Z.to_nat np) = Ret rss ->
  exists st', applyLocked (CmdCreateTopic name rss) st = (st', None) /\ meta_ok st' /\
    Partitions st' name = Some np /\ (forall p, 0 <= p < np -> placed b name st' p) /\
    (forall topic p, topic <> name -> Partition st' topic p = Partition st topic p).
Proof.
  intros Hnp Hmeta Hcl Hno Hrss.
  destruct (replicaSets_ok (b_cluster b) name (replicationFactor b) 0 (Z.to_nat np) Hcl) as (rss' & Hr & Hlen & Hall).
  rewrite Hrss in Hr. injection Hr as <-. cbn [applyLocked].
  destruct (Topics_ st !! name) as [t|] eqn:Et; [apply bool_decide_eq_false in Hno; rewrite Et in Hno; by destruct Hno|].
  assert (zlen rss = np) as Hz by (unfold zlen; lia). set (st' := mkState _ _).
  assert (Topics_ st' !! name = Some (mkTopic np (partsFromReplicas rss))) as Ht'.
  { unfold st'. cbn [Topics_]. rewrite lookup_insert_eq, Hz, int32_id by solve_int. done. }
  exists st'. split_and!; [done| | | |].
  - apply map_Forall_insert_2; [|done]. cbn. unfold partsFromReplicas. rewrite zlen_map, Hz, int32_id by solve_int. lia.
  - unfold Partitions. by rewrite Ht'.
  - intros p Hp. apply (placed_new b name st' [] rss Hcl); [by rewrite Ht', Hz|exact Hall|cbn; rewrite zlen_nil; lia].
  - intros topic p Hne. by apply Partition_insert_other.
Qed.

(** A committed growth. *)
Lemma grow_applies b st name cur new rss : new < 2 ^ 31 -> meta_ok st -> cluster_ok (b_cluster b) -> Partitions st name = Some cur -> cur < new ->
  replicaSets (b_cluster b) name (replicationFactor b) cur (Z.to_nat (new - cur)) = Ret rss ->
  exists st', applyLocked (CmdCreatePartitions name rss) st = (st', None) /\ meta_ok st' /\
    Partitions st' name = Some new /\ (forall p, cur <= p < new -> placed b name st' p) /\
    (forall topic p v, Partition st topic p = Some v -> Partition st' topic p = Some v).
Proof.
  intros Hnew Hmeta Hcl Hcur Hlt Hrss.
  destruct (replicaSets_ok (b_cluster b) name (replicationFactor b) cur (Z.to_nat (new - cur)) Hcl) as (rss' & Hr & Hlen & Hall).
  rewrite Hrss in Hr. injection Hr as <-. cbn [applyLocked]. unfold Partitions in Hcur.
  destruct (Topics_ st !! name) as [t|] eqn:Et; [|done]. injection Hcur as <-.
  destruct (Hmeta _ _ Et) as [Hcnt Hsmall]. rewrite Hcnt in *. pose proof (zlen_nonneg (Parts t)).
  assert (zlen rss = new - zlen (Parts t)) as Hz by (unfold zlen in *; lia).
  assert (zlen (Parts t ++ partsFromReplicas rss) = new) as Hz' by (unfold partsFromReplicas; rewrite zlen_app, zlen_map; lia).
  set (st' := mkState _ _).
  assert (Topics_ st' !! name = Some (mkTopic new (Parts t ++ partsFromReplicas rss))) as Ht'.
  { unfold st'. cbn [Topics_]. rewrite lookup_insert_eq, Hz', int32_id by solve_int. done. }
  exists st'. split_and!; [done| | | |].
  - apply map_Forall_insert_2; [|done]. cbn. rewrite Hz', int32_id by solve_int. lia.
  - unfold Partitions. by rewrite Ht'.
  - intros p Hp. apply (placed_new b name st' (Parts t) rss Hcl); [rewrite Ht'; do 2 f_equal; lia|exact Hall|lia].
  - intros topic p v. by apply (Partition_grow st st' name t (partsFromReplicas rss)).
Qed.

(** The pass over new metadata keeps the node and the metadata. *)
Lemma reconcile_after e now b st' : meta_ok st' -> manager_open b -> (forall k, opens e b k) ->
  exists b', reconcileFromFSM e now (withCtrl (Some st') b) = Ret b' /\ ctrl b' = Some st' /\ b_cluster b' = b_cluster b /\
    forall k l, logs b !! k = Some l -> logs b' !! k = Some l \/ logs b' !! k = Some (HoldHighWatermark l).
Proof.
  intros Hm Hmgr Hopen. destruct (reconcile_ok e now (withCtrl (Some st') b) st') as (b' & H1 & H2 & H3 & _ & H4 & _);
    [done|by apply meta_ok_small|exact Hmgr|intros k _; exact (Hopen k)|]. by exists b'.
Qed.

(** ** Reloading the data directory *)

Lemma HasPrefix_internal t rest : HasPrefix t "__" = false -> HasPrefix (t +:+ String "-" rest) "__" = false.
Proof.
  destruct t as [|c [|d t]]; intros H.
  - by destruct rest.
  - change ((String c "" +:+ String "-" rest)%string) with (String c (String "-" rest)).
    unfold HasPrefix. cbn. rewrite bool_decide_eq_false_2; [done|]. by intros [= _].
  - revert H. change ((String c (String d t) +:+ String "-" rest)%string) with (String c (String d (t +:+ String "-" rest))).
    unfold HasPrefix. cbn. by rewrite !andb_true_r.
Qed.

Lemma dirEntry_partitionDir t p : HasPrefix t "__" = false -> in_int 32 p -> 0 <= p ->
  dirEntry (partitionDir t p) = Some (t, p).
Proof.
  intros Ht Hr Hp. unfold dirEntry. change (partitionDir t p) with (fileName t p).
  destruct (fileName_split t p Hp) as (H1 & H2 & H3).
  assert (HasPrefix (fileName t p) "__" = false) as -> by (by apply HasPrefix_internal).
  rewrite H1, H2, H3. unfold Atoi. rewrite ParseInt_Itoa by solve_int. cbn. by rewrite int32_id by solve_int.
Qed.

Lemma noteMax_other m k t : t <> k.1 -> noteMax m k !! t = m !! t.
Proof. intros H. unfold noteMax. by rewrite lookup_insert_ne. Qed.

Lemma noteMax_max ks m t M : 0 <= M -> (forall p, (t, p) ∈ ks -> p <= M) -> (forall v, m !! t = Some v -> v <= M) ->
  (t, M) ∈ ks \/ m !! t = Some M -> foldl noteMax m ks !! t = Some M.
Proof.
  intros HM. revert m. induction ks as [|[t' p] ks IH]; intros m Hall Hm Hor; cbn [foldl].
  { by destruct Hor as [?%elem_of_nil|]. }
  apply IH; [intros q Hq; apply Hall; by right| |].
  - intros v. destruct (decide (t' = t)) as [->|Hne]; [|rewrite noteMax_other by done; apply Hm].
    unfold noteMax. cbn. rewrite lookup_insert_eq. intros [= <-]. pose proof (Hall p ltac:(by left)).
    destruct (m !! t) as [v|] eqn:E; cbn; [pose proof (Hm v eq_refl); lia|lia].
  - destruct Hor as [[[= <- <-]|Hin]%elem_of_cons|Hsome]; [right|by left|right].
    + unfold noteMax. cbn. rewrite lookup_insert_eq. f_equal.
      destruct (m !! t) as [v|] eqn:E; cbn; [pose proof (Hm v eq_refl); lia|lia].
    + destruct (decide (t' = t)) as [->|Hne]; [|by rewrite noteMax_other].
      unfold noteMax. cbn. rewrite lookup_insert_eq, Hsome. cbn. f_equal. pose proof (Hall p ltac:(by left)). lia.
Qed.

Lemma noteMax_none ks m t : m !! t = None -> (forall p, (t, p) ∉ ks) -> foldl noteMax m ks !! t = None.
Proof.
  revert m. induction ks as [|[t' p] ks IH]; intros m Hm Hno; cbn [foldl]; [done|].
  apply IH; [|intros q Hq; apply (Hno q); by right].
  rewrite noteMax_other; [done|]. intros ->. apply (Hno p). by left.
Qed.

Lemma openEntries_ok e ks b :
  Forall (fun k => is_Some (logs b !! k) \/
    exists l, Open (e k) (default ∅ (dirs b !! partitionDir k.1 k.2)) (cfg_log (b_cfg b)) = Ret (inl l)) ks ->
  exists b', openEntries e ks b = Ret (b', None) /\ reconciles b b' /\ (forall k, k ∈ ks -> is_Some (logs b' !! k)) /\
    (forall k, k ∉ ks -> logs b' !! k = logs b !! k).
Proof.
  revert b. induction ks as [|k ks IH]; intros b Ho.
  { exists b. split_and!; try done. by intros ? ?%elem_of_nil. }
  apply Forall_cons in Ho as [Hk Ho]. destruct (openLocked_ok e b k) as (b1 & r & Hop & Hrec & Hoth & Hr).
  { destruct Hk as [?|[l ?]]; [by left|right; eauto]. }
  assert (exists l, r = inl l) as [l ->].
  { destruct r as [l|er]; [by eexists|]. unfold openLocked in Hop. destruct k as [t p]; cbn [fst snd] in *.
    destruct (logs b !! (t, p)); [done|]. destruct Hk as [[? ?]|[l Hl]]; [done|]. by rewrite Hl in Hop. }
  destruct (IH b1) as (b2 & H1 & H2 & H3 & H4).
  { eapply Forall_impl; [exact Ho|]. intros j [[l' Hl]|[l' Hl]].
    - left. destruct (rc_logs _ _ Hrec j l' Hl) as [->| ->]; by eexists.
    - right. exists l'. by rewrite (rc_dirs _ _ Hrec), (rc_cfg _ _ Hrec). }
  cbn [openEntries]. rewrite Hop. cbn [mbind go_bind]. exists b2. split_and!; [done|by transitivity b1| |].
  - intros j [->|Hj]%elem_of_cons; [|by apply H3]. destruct (rc_logs _ _ H2 k l Hr) as [->| ->]; by eexists.
  - intros j [Hj1 Hj2]%not_elem_of_cons. rewrite H4 by done. by apply Hoth.
Qed.

(** What opening logs leaves alone. *)
Definition same_node (b b' : Node) : Prop :=
  b_cfg b' = b_cfg b /\ b_cluster b' = b_cluster b /\ ctrl b' = ctrl b /\ catalog b' = catalog b /\ dirs b' = dirs b.

#[export] Instance same_node_preorder : PreOrder same_node.
Proof. split; [done|]. unfold same_node. intros x y z (-> & -> & -> & -> & ->). done. Qed.

(** Opening keeps what is open, and gives what the directory holds. *)
Lemma openLocked_spec e topic p b b' r : openLocked e topic p b = Ret (b', r) ->
  dirs b' = dirs b /\ b_cfg b' = b_cfg b /\ (forall k l, logs b !! k = Some l -> logs b' !! k = Some l) /\
  (forall k, k <> (topic, p) -> logs b' !! k = logs b !! k) /\
  forall l, logs b !! (topic, p) = None -> Open e (default ∅ (dirs b !! partitionDir topic p)) (cfg_log (b_cfg b)) = Ret (inl l) ->
    logs b' !! (topic, p) = Some l.
Proof.
  unfold openLocked. destruct (logs b !! (topic, p)) as [l0|] eqn:El; [by intros [= <- <-]|].
  destruct (Open e _ _) as [[l|er]| |]; cbn [mbind go_bind]; [| |done|done]; intros [= <- <-]; (split_and!; [done|done|..]).
  - intros k l' Hk. cbn. rewrite lookup_insert_ne; [done|]. congruence.
  - intros k Hk. cbn. by rewrite lookup_insert_ne.
  - intros l' _ [= <-]. apply lookup_insert_eq.
  - done.
  - done.
  - done.
Qed.

Lemma openEntries_logs e ks b b' : openEntries e ks b = Ret (b', None) ->
  (forall k l, logs b !! k = Some l -> logs b' !! k = Some l) /\
  forall k l, k ∈ ks -> logs b !! k = None -> Open (e k) (default ∅ (dirs b !! partitionDir k.1 k.2)) (cfg_log (b_cfg b)) = Ret (inl l) ->
    logs b' !! k = Some l.
Proof.
  revert b. induction ks as [|k ks IH]; intros b; cbn [openEntries]; [intros [= <-]; split; [done|by intros ?? ?%elem_of_nil]|].
  destruct (openLocked (e k) k.1 k.2 b) as [[b1 [l1|er]]| |] eqn:Ho; cbn [mbind go_bind]; try done. intros (I1 & I2)%IH.
  destruct (openLocked_spec _ _ _ _ _ _ Ho) as (Hd & Hc & Hk & Hoth & Hnew). split; [by intros j l Hj%Hk%I1|].
  intros j l Hj Hn Hopen. destruct (decide (j = k)) as [->|Hne].
  - apply I1. destruct k as [t p]. by apply Hnew.
  - apply elem_of_cons in Hj as [->|Hj]; [done|]. apply I2; [done| |by rewrite Hd, Hc]. rewrite Hoth; [done|]. by destruct k.
Qed.

(** ** Properties *)

(** a follower's fetch.  On a partition this node leads, recording it
    stores the follower's progress and sets the high watermark to the largest
    offset that the log end and every in-sync follower have reached (a follower
    that has not fetched counts as 0), unless it is already beyond that: it
    never moves back.  Nothing else in the log changes, nor any other partition. *)
Theorem RecordReplicaFetch_correct now topic p i off b st pv l :
  ctrl b = Some st -> Partition st topic p = Some pv -> v_Leader pv = me b -> getLog topic p b = Some l ->
  let b' := RecordReplicaFetch now topic p i off b in
  let prog := <[i := mkProgress off now]> (default ∅ (followers b !! (topic, p))) in
  exists l', getLog topic p b' = Some l' /\ segments l' = segments l /\ nextOffset l' = nextOffset l /\
    followers b' = <[(topic, p) := prog]> (followers b) /\ highWatermark l <= highWatermark l' /\
    (forall x, highWatermark l < x ->
       x <= highWatermark l' <->
       x <= nextOffset l /\ forall id, id ∈ v_ISR pv -> id <> me b -> x <= fetched prog id) /\
    (forall k, k <> (topic, p) -> logs b' !! k = logs b !! k).
Proof.
  intros Hc Hp Hl Hg. cbn zeta. unfold RecordReplicaFetch. rewrite Hc.
  set (prog := <[i := _]> _). set (b1 := withFollowers _ b).
  rewrite (advance_led st topic p b1 pv l) by done. set (r := replicated pv topic p l b1).
  eexists. unfold getLog, setLog, withLogs. cbn [logs followers]. rewrite lookup_insert_eq. split; [reflexivity|]. cbn.
  split_and!; [done|done|done|lia| |].
  - intros x Hx. assert (x <= r <-> x <= nextOffset l /\ forall id, id ∈ v_ISR pv -> id <> me b -> x <= fetched prog id) as <-; [|lia].
    unfold r, replicated. rewrite isr_min_spec. cbn. by rewrite lookup_insert_eq.
  - intros k Hk. by rewrite lookup_insert_ne.
Qed.

Definition demoNode : Node :=
  mkNode (mkBrokerConfig 3 3 true 0 0 demoConfig) (mkCluster 1 (brokers demoCluster)) (Some demoMeta) (Some (NewManager 1))
    ∅ ∅ {[ ("orders"%string, 0) := HoldHighWatermark (mkLog (cfg demoLog) (segments demoLog) 7 0 false false) ]}
    {[ ("orders"%string, 0) := {[ 2 := mkProgress 5 900; 3 := mkProgress 2 900 ]} ]} {[ ("orders"%string, 0) := 0 ]}.

(** Node 3 catches up to offset 4; 2 is not in sync and does not count. *)
Lemma RecordReplicaFetch_correct_witness :
  exists l', getLog "orders" 0 (RecordReplicaFetch 1000 "orders" 0 3 4 demoNode) = Some l' /\ highWatermark l' = 4.
Proof.
  destruct (RecordReplicaFetch_correct 1000 "orders" 0 3 4 demoNode demoMeta (mkView 1 0 [1; 2; 3] [1; 3])
    (HoldHighWatermark (mkLog (cfg demoLog) (segments demoLog) 7 0 false false)))
    as (l' & H1 & _ & _ & _ & _ & H2 & _); [vm_compute; reflexivity..|].
  exists l'. split; [exact H1|]. cbv zeta in H2. cbn [highWatermark HoldHighWatermark nextOffset v_ISR] in H2.
  apply Z.le_antisymm.
  - destruct (Z.le_gt_cases (highWatermark l') 4) as [H|H]; [exact H|].
    destruct (proj1 (H2 5 ltac:(lia)) ltac:(lia)) as [_ H3].
    specialize (H3 3 ltac:(set_solver) ltac:(vm_compute; discriminate)). vm_compute in H3. by destruct H3.
  - apply (H2 4); [lia|]. split; [lia|]. intros id Hid Hne.
    assert (id = 3) as ->; [|vm_compute; discriminate].
    change (me demoNode) with 1 in Hne. apply elem_of_cons in Hid as [Hid|Hid]; [congruence|].
    by apply list_elem_of_singleton in Hid.
Defined.

(** maintenance of the in-sync set.  For a partition the node leads, the
    pass leaves the committed ISR alone when it is already the replicas the
    leader counts as in sync (itself, those that fetched within the lag timeout,
    and during the grace period those not heard of); otherwise, once the
    proposal is applied, the ISR is exactly that set, and no other partition's
    metadata, no leader and no epoch changed. *)
Theorem ISR_maintenance_correct raft now topic p b st pv :
  (forall cmd st, raft cmd st = applyLocked cmd st) ->
  ctrl b = Some st -> Partition st topic p = Some pv -> NoDup (v_Replicas pv) -> NoDup (v_ISR pv) ->
  let b' := maintainPartitionISR raft now topic p pv b in
  let in_sync id := id ∈ v_Replicas pv /\
    (id = me b \/ inSync now (default ∅ (followers b !! (topic, p))) (leadSince b !! (topic, p)) id = true) in
  ((forall id, id ∈ v_ISR pv <-> in_sync id) -> b' = b) /\
  exists st' isr, ctrl b' = Some st' /\ Partition st' topic p = Some (withISR isr pv) /\
    (forall id, id ∈ isr <-> in_sync id) /\
    forall t q, (t, q) <> (topic, p) -> Partition st' t q = Partition st t q.
Proof.
  intros Hraft Hc Hp Hnr Hni. cbn zeta. unfold maintainPartitionISR. set (d := desiredISR now topic p pv b).
  assert (NoDup d) as Hnd by (by apply NoDup_filter).
  pose proof (sameNodeSet_spec d (v_ISR pv) Hnd Hni) as Hsame. setoid_rewrite <- (desired_elem now topic p pv b). fold d. split.
  - intros Heq. rewrite (proj2 Hsame); [done|]. by apply NoDup_Permutation.
  - destruct (sameNodeSet d (v_ISR pv)) eqn:E.
    + exists st, (v_ISR pv). split_and!; [done|by destruct pv| |done]. intros id. by rewrite (proj1 Hsame eq_refl).
    + rewrite Hc, Hraft. eexists _, d. split; [reflexivity|]. rewrite Partition_ChangeISR, Hp, decide_True by done.
      split_and!; [done|done|]. intros t q Hne. rewrite Partition_ChangeISR, decide_False; [done|]. intros [-> ->]. done.
Qed.

(** Node 2 has fetched lately and joins the ISR. *)
Lemma ISR_maintenance_correct_witness :
  exists st' isr, ctrl (maintainPartitionISR applyLocked 1000 "orders" 0 (mkView 1 0 [1; 2; 3] [1; 3]) demoNode) = Some st' /\
    Partition st' "orders" 0 = Some (mkView 1 0 [1; 2; 3] isr) /\ 2 ∈ isr.
Proof.
  destruct (ISR_maintenance_correct applyLocked 1000 "orders" 0 demoNode demoMeta (mkView 1 0 [1; 2; 3] [1; 3]))
    as (_ & st' & isr & H1 & H2 & H3 & _).
  - reflexivity.
  - reflexivity.
  - vm_compute. reflexivity.
  - apply (bool_decide_eq_true_1 _). vm_compute. reflexivity.
  - apply (bool_decide_eq_true_1 _). vm_compute. reflexivity.
  - exists st', isr. split_and!; [exact H1|exact H2|]. apply H3. split; [set_solver|right; vm_compute; reflexivity].
Defined.

(** what an in-sync replica is.  The leader counts a follower as in sync
    when it fetched recently, however far behind it is.  Here replica 2 has
    fetched only from offset 0 while offsets below 7 are committed; the
    maintenance pass puts it into the ISR, and when the others fail it is elected
    leader with none of the committed records. *)
Theorem lagging_replica_joins_ISR :
  let l := HoldHighWatermark (mkLog (cfg demoLog) (segments demoLog) 7 7 false false) in
  let b := withLogs {[ ("orders"%string, 0) := l ]}
             (withFollowers {[ ("orders"%string, 0) := {[ 2 := mkProgress 0 900; 3 := mkProgress 7 900 ]} ]} demoNode) in
  let b' := maintainOne applyLocked 1000 b (("orders"%string, 0), mkView 1 0 [1; 2; 3] [1; 3]) in
  let st' := default NewFSM (ctrl b') in
  let lv := mkLive 2 ∅ 0 in
  HighWatermark <$> getLog "orders" 0 b' = Some 7 /\
  Partition st' "orders" 0 = Some (mkView 1 0 [1; 2; 3] [1; 2; 3]) /\
  Partition (applyAll (checkFailover lv 9000 st') st') "orders" 0 = Some (mkView 2 1 [1; 2; 3] [2]).
Proof. cbv zeta. split_and!; vm_compute; reflexivity. Qed.

(** reconciliation.  Against any committed placement whose logs can be
    opened (or fail to), one pass keeps every open log, opens none of a partition
    that is not replicated here, and for every replicated partition that has a
    log here takes the commit of records away from appends and leaves a fetcher
    running exactly when another node leads. *)
Theorem reconcile_correct e now b st :
  ctrl b = Some st -> meta_ok st -> manager_open b -> (forall k, is_Some (Partition st k.1 k.2) -> opens e b k) ->
  exists b', reconcileFromFSM e now b = Ret b' /\
  (forall k l, logs b !! k = Some l -> logs b' !! k = Some l \/ logs b' !! k = Some (HoldHighWatermark l)) /\
  (forall k, (forall pv, Partition st k.1 k.2 = Some pv -> me b ∉ v_Replicas pv) -> logs b' !! k = logs b !! k) /\
  forall k pv l, Partition st k.1 k.2 = Some pv -> me b ∈ v_Replicas pv -> 1 < zlen (v_Replicas pv) ->
    logs b' !! k = Some l -> holdHWM l = true /\ (follows b' k <-> v_Leader pv <> me b).
Proof.
  intros Hc Hm%meta_ok_small Hmg Ho.
  destruct (reconcile_ok e now b st Hc Hm Hmg Ho) as (b' & H1 & _ & _ & _ & H2 & H3 & H4).
  exists b'. split_and!; [done|done|done|]. intros k pv l Hp Hin Hlen. by apply H4.
Qed.

Lemma fresh_opens e b k : e k = open_ok -> dirs b !! partitionDir k.1 k.2 = None -> opens e b k.
Proof. intros He Hd. right. rewrite He, Hd. eexists. reflexivity. Qed.

Lemma demoMeta_ok : meta_ok demoMeta.
Proof. apply (bool_decide_eq_true_1 _). vm_compute. reflexivity. Qed.

Lemma demoNode_open : manager_open demoNode.
Proof. by eexists. Qed.

(** Node 1 follows partition 1, which node 2 leads. *)
Lemma reconcile_correct_witness :
  exists b', reconcileFromFSM (fun _ => open_ok) 1000 demoNode = Ret b' /\ follows b' ("orders"%string, 1) /\
    ~ follows b' ("orders"%string, 0).
Proof.
  destruct (reconcile_correct (fun _ => open_ok) 1000 demoNode demoMeta) as (b' & H1 & _ & _ & H2).
  - reflexivity.
  - apply demoMeta_ok.
  - apply demoNode_open.
  - intros k _. by apply fresh_opens.
  - exists b'. split; [exact H1|].
    assert (exists l1 l0, logs b' !! ("orders"%string, 1) = Some l1 /\ logs b' !! ("orders"%string, 0) = Some l0) as (l1 & l0 & E1 & E0).
    { vm_compute in H1. injection H1 as <-. eexists _, _. split; vm_compute; reflexivity. }
    assert (Partition demoMeta "orders" 1 = Some (mkView 2 0 [2; 3; 1] [2; 3; 1])) as P1 by (vm_compute; reflexivity).
    assert (Partition demoMeta "orders" 0 = Some (mkView 1 0 [1; 2; 3] [1; 3])) as P0 by (vm_compute; reflexivity).
    destruct (H2 ("orders"%string, 1) _ l1 P1) as [_ F1];
      [apply containsNode_spec; vm_compute; reflexivity|vm_compute; reflexivity|exact E1|].
    destruct (H2 ("orders"%string, 0) _ l0 P0) as [_ F0];
      [apply containsNode_spec; vm_compute; reflexivity|vm_compute; reflexivity|exact E0|].
    split; [apply F1; vm_compute; discriminate|]. intros Hf. apply F0 in Hf. apply Hf. vm_compute. reflexivity.
Defined.

(** The partition directories of a catalog are there; others, such as those of the
    offsets and of the controller, have names that are not of a partition. *)
Definition dirs_of (cat : gmap string Z) (ds : gmap string dir) : Prop :=
  (forall t n p, cat !! t = Some n -> 0 <= p < n -> is_Some (ds !! partitionDir t p)) /\
  forall name, is_Some (ds !! name) -> dirEntry name = None \/ exists t n p, cat !! t = Some n /\ 0 <= p < n /\ name = partitionDir t p.

Definition catalog_ok (cat : gmap string Z) : Prop :=
  map_Forall (fun t n => HasPrefix t "__" = false /\ 0 < n < 2 ^ 31) cat.

Lemma entries_of cat ds k : catalog_ok cat -> dirs_of cat ds ->
  k ∈ omap dirEntry (map_to_list ds).*1 <-> exists n, cat !! k.1 = Some n /\ 0 <= k.2 < n.
Proof.
  intros Hok Hd. rewrite list_elem_of_omap. setoid_rewrite list_elem_of_fmap. split.
  - intros (name & ([name' d] & -> & Hin%elem_of_map_to_list) & He). cbn in He.
    destruct (proj2 Hd name') as [Hx|(t & n & p & Hc & Hp & ->)]; [by eexists|congruence|].
    destruct (Hok _ _ Hc) as [Ht Hn]. rewrite dirEntry_partitionDir in He by (done || solve_int). simplify_eq. eauto.
  - destruct k as [t p]. cbn. intros (n & Hc & Hp). destruct (Hok _ _ Hc) as [Ht Hn].
    exists (partitionDir t p). destruct (proj1 Hd t n p Hc Hp) as [d Hd'].
    split; [exists (partitionDir t p, d); split; [done|by apply elem_of_map_to_list]|].
    apply dirEntry_partitionDir; [done|solve_int|lia].
Qed.

(** a restart recovers the catalog of a node without a controller.  On a
    data directory that holds the partition directories of a catalog (topics with
    at least one partition whose names do not start with two underscores), each
    of which opens, a new broker knows exactly those topics with exactly those
    counts and has the log of every one of their partitions open, with what its
    directory holds. *)
Theorem New_recovers_catalog e c cl ds cat :
  catalog_ok cat -> dirs_of cat ds ->
  (forall t n p, cat !! t = Some n -> 0 <= p < n ->
     exists l, Open (e (t, p)) (default ∅ (ds !! partitionDir t p)) (cfg_log c) = Ret (inl l)) ->
  exists b, New e c cl ds = Ret (b, None) /\ catalog b = cat /\
    (forall t p, is_Some (logs b !! (t, p)) <-> exists n, cat !! t = Some n /\ 0 <= p < n) /\
    (forall t n p l, cat !! t = Some n -> 0 <= p < n ->
       Open (e (t, p)) (default ∅ (ds !! partitionDir t p)) (cfg_log c) = Ret (inl l) -> logs b !! (t, p) = Some l) /\
    (b_cfg b = c /\ b_cluster b = cl /\ ctrl b = None /\ dirs b = ds) /\
    forall t, NumPartitions t b = default (cfg_NumPartitions c) (cat !! t).
Proof.
  intros Hok Hd Ho. unfold New, loadExisting. cbn [dirs catalog withCatalog b_cfg]. rewrite (right_id_L ∅ (∪)).
  set (ks := omap dirEntry (map_to_list ds).*1). set (b0 := withCatalog _ _).
  pose proof (fun k => entries_of cat ds k Hok Hd) as Hks. fold ks in Hks.
  destruct (openEntries_ok e ks b0) as (b & Hop & Hrec & Hin & Hout).
  { apply Forall_forall. intros [t p] (n & Hc & Hp)%Hks. right. by apply (Ho t n p). }
  assert (catalog b = cat) as Hcat.
  { rewrite (rc_catalog _ _ Hrec). apply map_eq. intros t. cbn. rewrite lookup_fmap. destruct (cat !! t) as [n|] eqn:E.
    - destruct (Hok _ _ E) as [_ Hn]. rewrite (noteMax_max ks ∅ t (n - 1)).
      + cbn. f_equal. rewrite int32_id by solve_int. lia.
      + lia.
      + intros p (n' & Hn' & Hp)%Hks. cbn in *. simplify_eq. lia.
      + done.
      + left. apply Hks. exists n. split; [done|]. cbn. lia.
    - rewrite noteMax_none; [done|done|]. intros p (n & Hn & _)%Hks. cbn in Hn. congruence. }
  exists b. split_and!; [done|done| | |by rewrite (rc_cfg _ _ Hrec)|by rewrite (rc_cluster _ _ Hrec)|by rewrite (rc_ctrl _ _ Hrec)|by rewrite (rc_dirs _ _ Hrec)|].
  - intros t p. rewrite <- (Hks (t, p)). split; [|apply Hin]. intros Hs.
    destruct (decide ((t, p) ∈ ks)) as [|Hno]; [done|]. rewrite Hout in Hs by done. cbn in Hs. by destruct Hs.
  - intros t n p l Hc Hp Hl. apply (proj2 (openEntries_logs _ _ _ _ Hop)); [|done|done]. apply Hks. by exists n.
  - intros t. unfold NumPartitions. rewrite (rc_ctrl _ _ Hrec), Hcat, (rc_cfg _ _ Hrec). done.
Qed.

Definition demoDirs : gmap string dir :=
  list_to_map (map (fun '(t, p) => (partitionDir t p, ∅ : dir)) [("a-b"%string, 0); ("a-b"%string, 1); ("c"%string, 0)]).

Lemma New_recovers_catalog_witness :
  exists b, New (fun _ => open_ok) (b_cfg demoNode) (b_cluster demoNode) demoDirs = Ret (b, None) /\
    NumPartitions "a-b" b = 2 /\ NumPartitions "c" b = 1 /\ NumPartitions "new" b = 3.
Proof.
  destruct (New_recovers_catalog (fun _ => open_ok) (b_cfg demoNode) (b_cluster demoNode) demoDirs
    {[ "a-b"%string := 2; "c"%string := 1 ]}) as (b & H1 & _ & _ & _ & _ & H2).
  - apply (bool_decide_eq_true_1 _). vm_compute. reflexivity.
  - assert (forall name, is_Some (demoDirs !! name) <-> name = partitionDir "a-b" 0 \/ name = partitionDir "a-b" 1 \/ name = partitionDir "c" 0) as Hd.
    { intros name. unfold demoDirs. cbn [map list_to_map fst snd foldr uncurry]. rewrite !lookup_insert_is_Some', lookup_empty.
      split; [intros [<-|[<-|[<-|[? ?]]]]; auto; done|intros [->|[->| ->]]; auto]. }
    split.
    + intros t n p Hc Hp. apply Hd. apply lookup_insert_Some in Hc as [[<- <-]|[_ [<- <-]%lookup_singleton_Some]].
      * assert (p = 0 \/ p = 1) as [->| ->] by lia; [by left|by right; left].
      * assert (p = 0) as -> by lia. by right; right.
    + intros name Hn%Hd. right. destruct Hn as [->|[->| ->]]; [exists "a-b"%string, 2, 0|exists "a-b"%string, 2, 1|exists "c"%string, 1, 0];
        (split_and!; [by vm_compute|lia|lia|done]).
  - intros t n p Hc Hp. assert (default ∅ (demoDirs !! partitionDir t p) = ∅) as ->; [|by eexists].
    destruct (demoDirs !! partitionDir t p) as [d|] eqn:E; [|done]. cbn. unfold demoDirs in E. cbn [map list_to_map fst snd foldr uncurry] in E.
    repeat (apply lookup_insert_Some in E as [[_ <-]|[_ E]]; [done|]). done.
  - exists b. split; [exact H1|]. rewrite !H2. split_and!; vm_compute; reflexivity.
Defined.
