(* ===== verification/Creation.v ===== *)
(** * internal/broker, internal/controller: creating topics in a cluster

    [Broker] creates and grows topics through the controller, whose [Apply] it has
    as a parameter.  Here the parameter is the controller's own loop ([Rpc.Apply])
    followed by the broker's wait for its local state machine ([waitTopic],
    [waitPartitions]): a follower applies what was committed some time after it
    was, and the wait gives up after [topicApplyWait]. *)

From S2P Require Import Prelude Strconv Segment Log Recovery Replication Cluster Fsm Rpc Broker.

(** In milliseconds. *)
Definition topicApplyWait : Z := 3000.

Section Creation.
Context `{JsonLaws}.
Context (addrs : gmap Z string) (t0 : Z) (atts : list attempt) (lv : liveness) (lag : Z).

(** What the controllers have committed once [Apply] returns, and its error. *)
Definition committedBy (cmd : Command) (st : metaState) : metaState * option error :=
  match Apply addrs t0 atts cmd (mkCtrl st lv) with
  | Ret (c', r, _) => (cn_state c', r)
  | _ => (st, Some ErrUnavailable)
  end.

(** What the node's own state machine shows after the wait, when it applies the
    commit [lag] milliseconds after [Apply] has returned. *)
Definition proposeAndWait (cmd : Command) (st : metaState) : metaState * option error :=
  let '(st', r) := committedBy cmd st in (if lag <=? topicApplyWait then st' else st, r).

Lemma committedBy_cases cmd st : frame_ok cmd -> Exists (fun a => at_leader a = true) atts \/ (200 < length atts)%nat -> Forall clean atts ->
  committedBy cmd st = applyLocked cmd st \/ exists er, committedBy cmd st = (st, Some er).
Proof.
  intros Hf Hend Hcl. unfold committedBy, Apply.
  destruct (apply_loop_ends addrs t0 (t0 + applyTimeout) atts cmd (mkCtrl st lv) Hf) as (c' & r & t & -> & _ & _ & _ & Hc).
  - unfold applyTimeout, retryPause. lia.
  - destruct Hend; [by left|right]. unfold applyTimeout, retryPause. lia.
  - destruct (Hc Hcl) as [Heq|[Heq [er ->]]]; [by left|right]. exists er. cbn in Heq. by rewrite Heq.
Qed.

Lemma withCtrl_same b st : ctrl b = Some st -> withCtrl (Some st) b = b.
Proof. intros Hc. destruct b. cbn in *. by subst. Qed.

(** C38: creating topics in a cluster, through the controller.  Suppose the node's
    metadata is the committed one when it proposes, no reply of a forwarded call
    is lost or late and no raft future that failed has committed.  A new topic is
    then committed with exactly the requested partitions, each on the replicas the
    placement names with the first of them as leader at epoch 0 and all of them in
    sync, every other topic as it was, and success is reported; the node's own
    metadata is the committed one when it applies the commit within
    [topicApplyWait], and still the old one when it does not.  Or nothing is
    committed, the node is unchanged, and the error is returned.  Growing a topic
    is the same: its partitions stay as they are and the new ones are placed that
    way.  An existing name, an unknown topic and a count that does not grow are
    refused without a proposal. *)
Theorem creation_correct e now b st name np :
  Forall clean atts -> Exists (fun a => at_leader a = true) atts \/ (200 < length atts)%nat ->
  ctrl b = Some st -> meta_ok st -> manager_open b -> cluster_ok (b_cluster b) -> (forall k, opens e b k) ->
  0 < np < 2 ^ 31 ->
  (forall rss, replicaSets (b_cluster b) name (replicationFactor b) 0 (Z.to_nat np) = Ret rss -> frame_ok (CmdCreateTopic name rss)) ->
  (forall cur rss, Partitions st name = Some cur -> replicaSets (b_cluster b) name (replicationFactor b) cur (Z.to_nat (np - cur)) = Ret rss -> frame_ok (CmdCreatePartitions name rss)) ->
  let seen st' := if lag <=? topicApplyWait then st' else st in
  match Partitions st name with
  | None =>
    CreatePartitions proposeAndWait e now name np b = Ret (b, Some ErrUnknownTopic) /\
    exists rss st' r, replicaSets (b_cluster b) name (replicationFactor b) 0 (Z.to_nat np) = Ret rss /\
      committedBy (CmdCreateTopic name rss) st = (st', r) /\
      match r with
      | Some er => st' = st /\ CreateTopic proposeAndWait e now name np b = Ret (b, Some er)
      | None =>
        Partitions st' name = Some np /\ (forall p, 0 <= p < np -> placed b name st' p) /\
        (forall topic p, topic <> name -> Partition st' topic p = Partition st topic p) /\
        exists b', CreateTopic proposeAndWait e now name np b = Ret (b', None) /\ ctrl b' = Some (seen st')
      end
  | Some cur =>
    CreateTopic proposeAndWait e now name np b = Ret (b, Some ErrTopicExists) /\
    if np <=? cur then CreatePartitions proposeAndWait e now name np b = Ret (b, Some ErrBadCount)
    else exists rss st' r, replicaSets (b_cluster b) name (replicationFactor b) cur (Z.to_nat (np - cur)) = Ret rss /\
      committedBy (CmdCreatePartitions name rss) st = (st', r) /\
      match r with
      | Some er => st' = st /\ CreatePartitions proposeAndWait e now name np b = Ret (b, Some er)
      | None =>
        Partitions st' name = Some np /\ (forall p, cur <= p < np -> placed b name st' p) /\
        (forall topic p v, Partition st topic p = Some v -> Partition st' topic p = Some v) /\
        exists b', CreatePartitions proposeAndWait e now name np b = Ret (b', None) /\ ctrl b' = Some (seen st')
      end
  end.
Proof.
  intros Hclean Hend Hc Hm Hmg Hcl Ho Hnp Hf1 Hf2 seen.
  assert (HasTopic st name = bool_decide (is_Some (Partitions st name))) as Hhas.
  { unfold HasTopic, Partitions. apply bool_decide_ext. symmetry. apply fmap_is_Some. }
  assert (forall st', meta_ok st' -> exists b', reconcileFromFSM e now (withCtrl (Some (seen st')) b) = Ret b' /\ ctrl b' = Some (seen st')) as Hrec.
  { intros st' Hm'. destruct (reconcile_after e now b (seen st')) as (b' & Hb & Hcb & _); [unfold seen; by destruct (_ <=? _)|done|done|]. by exists b'. }
  destruct (Partitions st name) as [cur|] eqn:Ep.
  - split; [unfold CreateTopic; rewrite Hc, Hhas; by rewrite bool_decide_eq_true_2|]. unfold CreatePartitions. rewrite Hc, Ep.
    destruct (Z.leb_spec np cur) as [Hle|Hlt]; [done|].
    destruct (replicaSets_ok (b_cluster b) name (replicationFactor b) cur (Z.to_nat (np - cur)) Hcl) as (rss & Hrss & _). rewrite Hrss. cbn [mbind go_bind].
    destruct (grow_applies b st name cur np rss) as (st' & Happ & Hm' & Hn & Hpl & Hkeep); [lia|done..|]. unfold proposeAndWait.
    destruct (committedBy_cases (CmdCreatePartitions name rss) st (Hf2 cur rss eq_refl Hrss) Hend Hclean) as [Heq|[er Heq]]; rewrite Heq, ?Happ.
    + exists rss, st', None. split_and!; [done|by rewrite Heq|done..|]. destruct (Hrec st' Hm') as (b' & Hb & Hcb). exists b'. fold (seen st'). by rewrite Hb.
    + exists rss, st, (Some er). split_and!; [done|done|done|]. assert ((if lag <=? topicApplyWait then st else st) = st) as -> by (by destruct (_ <=? _)).
      by rewrite withCtrl_same.
  - split; [unfold CreatePartitions; by rewrite Hc, Ep|]. unfold CreateTopic, proposeCreate.
    assert (HasTopic st name = false) as Hno by (rewrite Hhas; by apply bool_decide_eq_false_2; intros [? ?]).
    rewrite Hc, Hno, !(proj2 (Z.leb_gt np 0)) by lia.
    destruct (replicaSets_ok (b_cluster b) name (replicationFactor b) 0 (Z.to_nat np) Hcl) as (rss & Hrss & _). rewrite Hrss. cbn [mbind go_bind].
    destruct (create_applies b st name np rss) as (st' & Happ & Hm' & Hn & Hpl & Hkeep); [done..|]. unfold proposeAndWait.
    destruct (committedBy_cases (CmdCreateTopic name rss) st (Hf1 rss Hrss) Hend Hclean) as [Heq|[er Heq]]; rewrite Heq, ?Happ.
    + exists rss, st', None. split_and!; [done|by rewrite Heq|done..|]. destruct (Hrec st' Hm') as (b' & Hb & Hcb). exists b'. fold (seen st'). by rewrite Hb.
    + exists rss, st, (Some er). split_and!; [done|done|done|]. assert ((if lag <=? topicApplyWait then st else st) = st) as -> by (by destruct (_ <=? _)).
      by rewrite Hno, withCtrl_same.
Qed.
End Creation.

(** A lost reply makes the broker grow a topic too far: asked for three partitions
    instead of two, it reports success for four. *)
Theorem growth_overshoots :
  match CreatePartitions (proposeAndWait demoAddrs 9500 [viaLeader Committed false; viaLeader Committed true] demoLive 0)
          (fun _ => open_ok) 1000 "orders" 3 demoNode with
  | Ret (b', er) => er = None /\ NumPartitions "orders" demoNode = 2 /\ NumPartitions "orders" b' = 4
  | _ => False
  end.
Proof. vm_compute. done. Qed.

(** The leader is not known at first; the forwarded creation commits, and the node
    applies it 20 ms later. *)
Lemma creation_correct_witness :
  let w := proposeAndWait demoAddrs 9500 [noLeader; viaLeader Committed true; elected] demoLive 20 in
  exists rss st' b', committedBy demoAddrs 9500 [noLeader; viaLeader Committed true; elected] demoLive (CmdCreateTopic "clicks" rss) demoMeta = (st', None) /\
    CreateTopic w (fun _ => open_ok) 1000 "clicks" 4 demoNode = Ret (b', None) /\ ctrl b' = Some st' /\
    Partitions st' "clicks" = Some 4 /\ placed demoNode "clicks" st' 3.
Proof.
  intros w. destruct (creation_correct demoAddrs 9500 [noLeader; viaLeader Committed true; elected] demoLive 20 (fun _ => open_ok) 1000 demoNode demoMeta "clicks" 4)
    as (_ & rss & st' & r & Hrss & Hc & Hr).
  - repeat (apply Forall_cons; split; [split; [done|by intros er]|]). constructor.
  - left. right. right. left. done.
  - reflexivity.
  - apply demoMeta_ok.
  - apply demoNode_open.
  - split; vm_compute; [discriminate|reflexivity].
  - intros k. by apply fresh_opens.
  - lia.
  - intros rss Hrss. vm_compute in Hrss. injection Hrss as <-. split; [done|]. split; vm_compute; done.
  - intros cur rss Hp. vm_compute in Hp. discriminate Hp.
  - assert (r = None) as ->.
    { vm_compute in Hrss. injection Hrss as <-. apply (f_equal snd) in Hc. vm_compute in Hc. by subst r. }
    destruct Hr as (H1 & H2 & _ & b' & H3 & H4). exists rss, st', b'. split_and!; [exact Hc|exact H3|exact H4|exact H1|apply H2; lia].
Defined.
