(* ===== verification/Handlers.v ===== *)
(** * internal/server/handlers.go: one request against the broker

    [Dispatch] decodes a request, runs it against the node ([Broker]), the
    consumer groups ([Coordinator]) and the committed offsets ([Offsets]), and
    encodes the answer.  What a request depends on besides that state is its
    [Env]: outcomes of file calls by position in the request, the clock, map
    iteration orders, and, for the requests that wait (acks=all, long polls,
    SyncGroup), what each wake-up observes.  [Panic] is a panic of the handler,
    which nothing recovers; [Spin] means that the observations given to a waiting
    request end before the request does.  Times are in milliseconds. *)

From S2P Require Import Prelude Kbytes Record Segment Log Recovery Protocol Replication Cluster Fsm Coordinator Offsets Broker.
Open Scope wr_scope.

(** ** State and environment *)

Record Handler := mkHandler {
  broker : Node; coord : gmap string group; store : OffsetStore; reqCount : list Z }.

Definition withBroker (b : Node) (h : Handler) : Handler := mkHandler b (coord h) (store h) (reqCount h).
Definition withCoord (c : gmap string group) (h : Handler) : Handler := mkHandler (broker h) c (store h) (reqCount h).
Definition withStore (s : OffsetStore) (h : Handler) : Handler := mkHandler (broker h) (coord h) s (reqCount h).

(** The first two indices of an outcome are the positions of the topic and of
    the partition in the request. *)
Record Env := mkEnv {
  e_now : Z;
  e_open : nat -> nat -> tp -> openIO;
  e_append : nat -> nat -> nat -> io;
  e_commit : nat -> nat -> commitIO;
  e_raft : Command -> metaState -> metaState * option error;
  e_iter : gmap string member -> list (string * member);
  e_random : string;
  e_text : error -> string;
  (** acks=all: the time and the high watermark of each poll *)
  e_reads : nat -> nat -> list (Z * Z);
  (** Fetch: the time of each poll and what the rest of the broker did before it *)
  e_polls : list (Z * (Node -> Node));
  (** SyncGroup: the time of each broadcast the waiter hears and what the rest of
      the coordinator did before it; how late the waiter's own timer wakes it, and
      what was done before that *)
  e_wakes : list (Z * (gmap string group -> gmap string group));
  e_timer : Z * (gmap string group -> gmap string group) }.

(** A loop over the elements of a request that threads a state and appends one
    answer per element. *)
Fixpoint mapS {S A B} (f : nat -> A -> S -> go (S * B)) (i : nat) (xs : list A) (s : S) : go (S * list B) :=
  match xs with
  | [] => Ret (s, [])
  | x :: xs =>
    '(s1, y) ← f i x s;
    '(s2, ys) ← mapS f (Datatypes.S i) xs s1;
    Ret (s2, y :: ys)
  end.

Definition Requests (apiKey : Z) (h : Handler) : Z :=
  if (apiKey <? 0) || (zlen (reqCount h) <=? apiKey) then 0 else default 0 (reqCount h !! Z.to_nat apiKey).

Definition countRequest (k : Z) (h : Handler) : Handler :=
  if (0 <=? k) && (k <? zlen (reqCount h))
  then mkHandler (broker h) (coord h) (store h) (alter (fun n => int64 (n + 1)) (Z.to_nat k) (reqCount h)) else h.

Definition encode (fn : wr) : list byte := Finish fn.

(** ** ApiVersions and Metadata *)

Definition rangeFor (api version : Z) : option VersionRange :=
  match Supported api with
  | None => None
  | Some vr => if (version <? vr_Min vr) || (vr_Max vr <? version) then None else Some vr
  end.

Definition apiVersions (version : Z) : list byte :=
  match rangeFor APIApiVersions version with
  | None => encode (ApiVersionsResponse_Encode 0 (mkApiVersionsResponse CodeUnsupportedVersion SupportedVersions 0))
  | Some _ => encode (ApiVersionsResponse_Encode version (mkApiVersionsResponse CodeNone SupportedVersions 0))
  end.

Definition clusterID : string := "kafka-cluster".
Definition defaultFetchBytes : Z := Z.shiftl 1 20.
Definition maxProduceWait : Z := 5000.
Definition maxFetchWait : Z := 5000.

Section Request.
Context (env : Env).

(** One requested name: an answer already, or a topic to describe. *)
Definition metadataTopic (i : nat) (name : string) (b : Node) : go (Node * (MetadataTopic + string * Z)) :=
  if negb (Knows name b) && negb (cfg_AutoCreate (b_cfg b))
  then Ret (b, inl (mkMetadataTopic CodeUnknownTopicOrPart name false []))
  else
    b' ← (if cfg_AutoCreate (b_cfg b)
          then '(b', _) ← EnsureTopic (e_raft env) (e_open env i 0%nat) (e_now env) name b; Ret b'
          else Ret b);
    Ret (b', inr (name, NumPartitions name b')).

Definition describePartition (b : Node) (name : string) (p : Z) : go MetadataPartition :=
  '(leader, epoch, replicas, isr) ← PartitionMeta name p b;
  Ret (mkMetadataPartition 0 p leader epoch replicas isr).

Definition describeTopic (b : Node) (t : string * Z) : go MetadataTopic :=
  ps ← mapM (describePartition b t.1) (seqZ 0 t.2);
  Ret (mkMetadataTopic CodeNone t.1 false ps).

Definition metadataBrokers (c : Cluster) : list MetadataBroker :=
  map (fun bi => mkMetadataBroker (NodeID bi) (Host bi) (Port bi)) (Brokers c).

Definition serveMetadata (req : MetadataRequest) (b : Node) : go (Node * MetadataResponse) :=
  match Brokers (b_cluster b) with
  | [] => Panic
  | first :: _ =>
    '(b', asked) ← (if mr_AllTopics req then Ret (b, map inr (KnownTopics b))
                    else mapS metadataTopic 0 (mr_Topics req) b);
    described ← mapM (describeTopic b') (omap (fun x => match x with inr t => Some t | inl _ => None end) asked);
    Ret (b', mkMetadataResponse 0 (metadataBrokers (b_cluster b)) (Some clusterID) (NodeID first)
               (omap (fun x => match x with inl t => Some t | inr _ => None end) asked ++ described))
  end.

Definition metadata (version : Z) (r : Reader) (h : Handler) : go (Handler * list byte) :=
  let '(req, _) := MetadataRequest_Decode version r in
  '(b', resp) ← serveMetadata req (broker h);
  Ret (withBroker b' h, encode (MetadataResponse_Encode version resp)).

(** ** Leadership *)

Definition leaderLog (e : tp -> openIO) (topic : string) (p : Z) (b : Node) : go (Node * (Log + Z)) :=
  '(b', r) ← LocalLog e topic p b;
  match r with
  | inl l => Ret (b', inl l)
  | inr ErrNotLeader => Ret (b', inr CodeNotLeader)
  | inr _ => Ret (b', inr CodeUnknownTopicOrPart)
  end.

Definition notCoordinator (groupID : string) (b : Node) : go bool :=
  mine ← IsCoordinator (b_cluster b) groupID; Ret (negb mine).

(** ** Produce *)

(** The closure given to [record.Iterate]: the log, [base], and how many batches
    it has been called on. *)
Definition appendBatch (e : nat -> io) (st : Log * Z * nat) (batch : list byte)
    : go ((Log * Z * nat) * option error) :=
  let '(log, base, k) := st in
  '(log', (off, aerr)) ← Append (e k) batch log;
  Ret ((log', if base <? 0 then off else base, S k), aerr).

(** The answer, with the log end it must wait for under acks=all (the entry of
    [waits] for this slot). *)
Definition producePartition (acks : Z) (topic : string) (ti pi : nat) (p : ProducePartition) (b : Node)
    : go (Node * (ProducePartitionResp * option Z)) :=
  '(b', r) ← leaderLog (e_open env ti pi) topic (pp_Index p) b;
  match r with
  | inr code => Ret (b', (mkProducePartitionResp (pp_Index p) code (-1) 0 0, None))
  | inl log =>
    '(log', base, _, _, err) ← Iterate (default [] (pp_Records p)) (appendBatch (e_append env ti pi)) (log, -1, 0%nat);
    let pr := mkProducePartitionResp (pp_Index p) CodeNone base 0 (EarliestOffset log') in
    let wait := if (acks =? -1) && bool_decide (err = None) && (0 <=? base) then Some (LatestOffset log') else None in
    Ret (setLog (topic, pp_Index p) log' b', (pr, wait))
  end.

Definition produceTopic (acks : Z) (ti : nat) (t : ProduceTopic) (b : Node)
    : go (Node * (string * list (ProducePartitionResp * option Z))) :=
  '(b', prs) ← mapS (fun pi p => producePartition acks (pt_Name t) ti pi p) 0 (pt_Partitions t) b;
  Ret (b', (pt_Name t, prs)).

Fixpoint committed (reads : list (Z * Z)) (target deadline : Z) : go bool :=
  match reads with
  | [] => Spin
  | (now, hwm) :: reads =>
    if target <=? hwm then Ret true
    else if deadline - now <=? 0 then Ret false
    else committed reads target deadline
  end.

Definition produceWait (timeoutMs : Z) : Z :=
  if (0 <? timeoutMs) && (timeoutMs <? maxProduceWait) then timeoutMs else maxProduceWait.

(** The slots that wait are visited in the order of the request. *)
Definition awaitSlot (deadline : Z) (ti pi : nat) (slot : ProducePartitionResp * option Z) : go ProducePartitionResp :=
  match slot with
  | (pr, None) => Ret pr
  | (pr, Some target) =>
    ok ← committed (e_reads env ti pi) target deadline;
    if ok : bool then Ret pr
    else Ret (mkProducePartitionResp (ppr_Index pr) CodeRequestTimedOut (-1) (ppr_LogAppendTime pr) (ppr_LogStartOffset pr))
  end.

Definition awaitTopic (deadline : Z) (ti : nat) (t : string * list (ProducePartitionResp * option Z)) : go ProduceTopicResp :=
  '(_, prs) ← mapS (fun pi slot (_ : unit) => pr ← awaitSlot deadline ti pi slot; Ret (tt, pr)) 0 t.2 tt;
  Ret (mkProduceTopicResp t.1 prs).

Definition awaitCommit (timeoutMs : Z) (topics : list (string * list (ProducePartitionResp * option Z)))
    : go (list ProduceTopicResp) :=
  let deadline := e_now env + produceWait timeoutMs in
  '(_, ts) ← mapS (fun ti t (_ : unit) => r ← awaitTopic deadline ti t; Ret (tt, r)) 0 topics tt;
  Ret ts.

Definition answered (t : string * list (ProducePartitionResp * option Z)) : ProduceTopicResp :=
  mkProduceTopicResp t.1 t.2.*1.

(** [None]: no response is written. *)
Definition serveProduce (req : ProduceRequest) (b : Node) : go (Node * option ProduceResponse) :=
  '(b', topics) ← mapS (produceTopic (pr_Acks req)) 0 (pr_Topics req) b;
  if pr_Acks req =? 0 then Ret (b', None)
  else
    ts ← (if pr_Acks req =? -1 then awaitCommit (pr_TimeoutMs req) topics else Ret (map answered topics));
    Ret (b', Some (mkProduceResponse ts 0)).

Definition produce (version : Z) (r : Reader) (h : Handler) : go (Handler * option (list byte)) :=
  let '(req, _) := ProduceRequest_Decode version r in
  '(b', resp) ← serveProduce req (broker h);
  Ret (withBroker b' h, option_map (fun resp => encode (ProduceResponse_Encode version resp)) resp).

(** ** Fetch *)

Definition clampBatch (hwm keep : Z) (batch : list byte) : go (Z * option error) :=
  match ParseHeader batch with
  | (_, Some er) => Ret (keep, Some er)
  | (h, None) => if hwm <=? LastOffset h then Ret (keep, Some ErrClampStop) else Ret (keep + TotalSize h, None)
  end.

Definition clampToHighWatermark (data : list byte) (hwm : Z) : go (list byte) :=
  if zlen data =? 0 then Ret data
  else '(keep, _, _) ← Iterate data (clampBatch hwm) 0; slice data 0 keep.

(** The answer, the record bytes in it, and whether the error is terminal.  The
    slice [Read] returns is nil exactly when it is empty, and a re-slice of a
    non-nil slice is not nil. *)
Definition fetchPartition (now replicaID : Z) (topic : string) (ti pi : nat) (p : FetchPartition) (b : Node)
    : go (Node * (FetchPartitionResp * Z * bool)) :=
  '(b', r) ← leaderLog (e_open env ti pi) topic (fp_Partition p) b;
  match r with
  | inr code => Ret (b', (mkFetchPartitionResp (fp_Partition p) code 0 0 0 None, 0, false))
  | inl log =>
    let maxBytes := if fp_MaxBytes p <=? 0 then defaultFetchBytes else fp_MaxBytes p in
    '(data, err) ← Read (fp_FetchOffset p) maxBytes log;
    let hard := bool_decide (err = Some ErrOffsetOutOfRange) in
    let code := if hard then CodeOffsetOutOfRange else CodeNone in
    let hwm := HighWatermark log in
    '(b'', out) ← (if 0 <=? replicaID
                   then Ret (RecordReplicaFetch now topic (fp_Partition p) replicaID (fp_FetchOffset p) b', data)
                   else out ← clampToHighWatermark data hwm; Ret (b', out));
    let records := match data with [] => None | _ => Some out end in
    Ret (b'', (mkFetchPartitionResp (fp_Partition p) code hwm hwm (EarliestOffset log) records, zlen out, hard))
  end.

Definition fetchTopic (now replicaID : Z) (ti : nat) (t : FetchTopic) (b : Node)
    : go (Node * (FetchTopicResp * Z * bool)) :=
  '(b', prs) ← mapS (fun pi p => fetchPartition now replicaID (ft_Name t) ti pi p) 0 (ft_Partitions t) b;
  Ret (b', (mkFetchTopicResp (ft_Name t) (map (fun x => x.1.1) prs),
            foldr (fun x total => x.1.2 + total) 0 prs, existsb snd prs)).

Definition buildFetch (now : Z) (req : FetchRequest) (b : Node) : go (Node * (FetchResponse * Z * bool)) :=
  '(b', trs) ← mapS (fetchTopic now (fr_ReplicaID req)) 0 (fr_Topics req) b;
  Ret (b', (mkFetchResponse 0 0 0 (map (fun x => x.1.1) trs),
            foldr (fun x total => x.1.2 + total) 0 trs, existsb snd trs)).

Fixpoint fetch_loop (polls : list (Z * (Node -> Node))) (req : FetchRequest) (wait deadline minBytes : Z) (b : Node)
    : go (Node * FetchResponse) :=
  match polls with
  | [] => Spin
  | (now, others) :: polls =>
    '(b', (resp, total, hardErr)) ← buildFetch now req (others b);
    if hardErr || (minBytes <=? total) || (wait <=? 0) || negb (now <? deadline) then Ret (b', resp)
    else fetch_loop polls req wait deadline minBytes b'
  end.

Definition serveFetch (req : FetchRequest) (b : Node) : go (Node * FetchResponse) :=
  let wait := if maxFetchWait <? fr_MaxWaitMs req then maxFetchWait else fr_MaxWaitMs req in
  let minBytes := if fr_MinBytes req <? 1 then 1 else fr_MinBytes req in
  fetch_loop (e_polls env) req wait (e_now env + wait) minBytes b.

Definition fetch (version : Z) (r : Reader) (h : Handler) : go (Handler * list byte) :=
  let '(req, _) := FetchRequest_Decode version r in
  '(b', resp) ← serveFetch req (broker h);
  Ret (withBroker b' h, encode (FetchResponse_Encode version resp)).

(** ** ListOffsets *)

Definition listOffsetsPartition (topic : string) (ti pi : nat) (p : ListOffsetsPartition) (b : Node)
    : go (Node * ListOffsetsPartitionResp) :=
  '(b', r) ← leaderLog (e_open env ti pi) topic (lp_Index p) b;
  match r with
  | inr code => Ret (b', mkListOffsetsPartitionResp (lp_Index p) code (-1) 0)
  | inl log =>
    off ← (if lp_Timestamp p =? TimestampEarliest then Ret (EarliestOffset log)
           else if lp_Timestamp p =? TimestampLatest then Ret (HighWatermark log)
           else '(off, ok) ← OffsetForTimestamp (lp_Timestamp p) log; Ret (if ok : bool then off else -1));
    Ret (b', mkListOffsetsPartitionResp (lp_Index p) CodeNone (-1) off)
  end.

Definition listOffsetsTopic (ti : nat) (t : ListOffsetsTopic) (b : Node) : go (Node * ListOffsetsTopicResp) :=
  '(b', prs) ← mapS (fun pi p => listOffsetsPartition (lt_Name t) ti pi p) 0 (lt_Partitions t) b;
  Ret (b', mkListOffsetsTopicResp (lt_Name t) prs).

Definition listOffsets (version : Z) (r : Reader) (h : Handler) : go (Handler * list byte) :=
  let '(req, _) := ListOffsetsRequest_Decode version r in
  '(b', ts) ← mapS listOffsetsTopic 0 (lr_Topics req) (broker h);
  Ret (withBroker b' h, encode (ListOffsetsResponse_Encode version (mkListOffsetsResponse 0 ts))).

(** ** Consumer groups *)

Definition findCoordinator (version : Z) (r : Reader) (h : Handler) : go (list byte) :=
  let '(req, _) := FindCoordinatorRequest_Decode version r in
  let cl := b_cluster (broker h) in
  coordID ← GroupCoordinator cl (fc_Key req);
  let '(host, port) := match Cluster.Broker cl coordID with Some bi => (Host bi, Port bi) | None => (""%string, 0) end in
  Ret (encode (FindCoordinatorResponse_Encode version (mkFindCoordinatorResponse 0 0 None coordID host port))).

Definition serveJoin (req : JoinGroupRequest) (h : Handler) : go (Handler * JoinGroupResponse) :=
  foreign ← notCoordinator (jg_GroupID req) (broker h);
  if foreign : bool then Ret (h, mkJoinGroupResponse 0 CodeNotCoordinator 0 "" "" "" [])
  else
    let args := mkJoinArgs (jg_GroupID req) (jg_MemberID req) (jg_GroupID req) (jg_ProtocolType req)
                  (map (fun p => mkProtocol (jp_Name p) (jp_Metadata p)) (jg_Protocols req)) (jg_SessionTimeout req) in
    let '(c', res) := Join (e_iter env) (e_random env) (e_now env) args (coord h) in
    Ret (withCoord c' h, mkJoinGroupResponse 0 (j_ErrorCode res) (j_GenerationID res) (j_ProtocolName res)
                           (j_LeaderID res) (j_MemberID res) (map (fun m => mkJoinGroupMember m.1 m.2) (j_Members res))).

Definition joinGroup (version : Z) (r : Reader) (h : Handler) : go (Handler * list byte) :=
  let '(req, _) := JoinGroupRequest_Decode version r in
  '(h', resp) ← serveJoin req h;
  Ret (h', encode (JoinGroupResponse_Encode version resp)).

(** When the timer that [waitUntil] sets wakes the waiter: at the deadline, or later
    by [late]. *)
Definition timerBroadcast (deadline late : Z) : Z := deadline + Z.max 0 late.

(** The wait of a follower: one [SyncResume] per wake-up.  Each [waitUntil] sets a
    timer for the deadline, which wakes the waiter unless a broadcast did before.
    The answer comes with the time of the wake-up that found it. *)
Fixpoint syncWait (wakes : list (Z * (gmap string group -> gmap string group))) (timer : Z * (gmap string group -> gmap string group))
    (deadline : Z) (groupID memberID : string) (gen : Z) (c : gmap string group) : go (gmap string group * (SyncResult * Z)) :=
  let fire := timerBroadcast deadline timer.1 in
  let timed :=
    match SyncResume fire deadline groupID memberID gen (timer.2 c) with
    | (c', Some res) => Ret (c', (res, fire))
    | (_, None) => Spin
    end in
  match wakes with
  | [] => timed
  | (now, others) :: wakes =>
    if now <? fire then
      match SyncResume now deadline groupID memberID gen (others c) with
      | (c', Some res) => Ret (c', (res, now))
      | (c', None) => syncWait wakes timer deadline groupID memberID gen c'
      end
    else timed
  end.

Definition Sync (groupID memberID : string) (gen : Z) (asg : gmap string (option (list byte))) (c : gmap string group)
    : go (gmap string group * (SyncResult * Z)) :=
  match SyncEnter (e_now env) groupID memberID gen asg c with
  | (c', Some res) => Ret (c', (res, e_now env))
  | (c', None) => syncWait (e_wakes env) (e_timer env) (e_now env + syncWaitTimeout) groupID memberID gen c'
  end.

Definition assignmentMap (xs : list SyncGroupAssignment) : gmap string (option (list byte)) :=
  foldl (fun m a => <[sa_MemberID a := sa_Assignment a]> m) ∅ xs.

Definition serveSync (req : SyncGroupRequest) (h : Handler) : go (Handler * SyncGroupResponse) :=
  foreign ← notCoordinator (sg_GroupID req) (broker h);
  if foreign : bool then Ret (h, mkSyncGroupResponse 0 CodeNotCoordinator None)
  else
    '(c', (res, _)) ← Sync (sg_GroupID req) (sg_MemberID req) (sg_GenerationID req) (assignmentMap (sg_Assignments req)) (coord h);
    Ret (withCoord c' h, mkSyncGroupResponse 0 (s_ErrorCode res) (s_Assignment res)).

Definition syncGroup (version : Z) (r : Reader) (h : Handler) : go (Handler * list byte) :=
  let '(req, _) := SyncGroupRequest_Decode version r in
  '(h', resp) ← serveSync req h;
  Ret (h', encode (SyncGroupResponse_Encode version resp)).

Definition serveHeartbeat (req : HeartbeatRequest) (h : Handler) : go (Handler * Z) :=
  foreign ← notCoordinator (hb_GroupID req) (broker h);
  if foreign : bool then Ret (h, CodeNotCoordinator)
  else
    let '(c', code) := Heartbeat (e_now env) (hb_GroupID req) (hb_MemberID req) (hb_GenerationID req) (coord h) in
    Ret (withCoord c' h, code).

Definition heartbeat (version : Z) (r : Reader) (h : Handler) : go (Handler * list byte) :=
  let '(req, _) := HeartbeatRequest_Decode version r in
  '(h', code) ← serveHeartbeat req h;
  Ret (h', encode (HeartbeatResponse_Encode version (mkHeartbeatResponse 0 code))).

Definition serveLeave (req : LeaveGroupRequest) (h : Handler) : go (Handler * Z) :=
  foreign ← notCoordinator (lg_GroupID req) (broker h);
  if foreign : bool then Ret (h, CodeNotCoordinator)
  else
    let '(c', code) := Leave (e_iter env) (lg_GroupID req) (lg_MemberID req) (coord h) in
    Ret (withCoord c' h, code).

Definition leaveGroup (version : Z) (r : Reader) (h : Handler) : go (Handler * list byte) :=
  let '(req, _) := LeaveGroupRequest_Decode version r in
  '(h', code) ← serveLeave req h;
  Ret (h', encode (LeaveGroupResponse_Encode version (mkLeaveGroupResponse 0 code))).

(** The groups this broker coordinates; the others are skipped. *)
Fixpoint ownGroups (b : Node) (gs : list (string * string * string)) : go (list ListGroupsGroup) :=
  match gs with
  | [] => Ret []
  | (id, ptype, _) :: gs =>
    foreign ← notCoordinator id b;
    rest ← ownGroups b gs;
    Ret (if foreign : bool then rest else mkListGroupsGroup id ptype :: rest)
  end.

Definition listGroups (version : Z) (r : Reader) (h : Handler) : go (list byte) :=
  let '(_, _) := ListGroupsRequest_Decode version r in
  gs ← ownGroups (broker h) (ListGroups (coord h));
  Ret (encode (ListGroupsResponse_Encode version (mkListGroupsResponse 0 0 gs))).

Definition describeOne (h : Handler) (id : string) : go DescribeGroupsGroup :=
  foreign ← notCoordinator id (broker h);
  if foreign : bool then Ret (mkDescribeGroupsGroup CodeNotCoordinator id "" "" "" [])
  else match DescribeGroup (e_iter env) id (coord h) with
       | None => Ret (mkDescribeGroupsGroup 0 id "Dead" "" "" [])
       | Some d =>
         Ret (mkDescribeGroupsGroup 0 id (d_State d) (d_ProtocolType d) (d_Protocol d)
                (map (fun '(mid, md, asg) => mkDescribeGroupsMember mid "" "" md asg) (d_Members d)))
       end.

Definition describeGroups (version : Z) (r : Reader) (h : Handler) : go (list byte) :=
  let '(req, _) := DescribeGroupsRequest_Decode version r in
  gs ← mapM (describeOne h) (dg_Groups req);
  Ret (encode (DescribeGroupsResponse_Encode version (mkDescribeGroupsResponse 0 gs))).

(** ** Committed offsets *)

Definition commitPartition (notCoord : bool) (groupID topic : string) (ti pi : nat) (p : OffsetCommitPartition)
    (s : OffsetStore) : go (OffsetStore * OffsetCommitPartitionResp) :=
  let meta := default ""%string (oc_Metadata p) in
  if notCoord then Ret (s, mkOffsetCommitPartitionResp (oc_Index p) CodeNotCoordinator)
  else match Commit (e_commit env ti pi) groupID topic (oc_Index p) (oc_Offset p) meta s with
       | (s', Some _) => Ret (s', mkOffsetCommitPartitionResp (oc_Index p) CodeUnknownTopicOrPart)
       | (s', None) => Ret (s', mkOffsetCommitPartitionResp (oc_Index p) CodeNone)
       end.

Definition commitTopic (notCoord : bool) (groupID : string) (ti : nat) (t : OffsetCommitTopic) (s : OffsetStore)
    : go (OffsetStore * OffsetCommitTopicResp) :=
  '(s', prs) ← mapS (fun pi p => commitPartition notCoord groupID (oct_Name t) ti pi p) 0 (oct_Partitions t) s;
  Ret (s', mkOffsetCommitTopicResp (oct_Name t) prs).

Definition serveCommit (req : OffsetCommitRequest) (h : Handler) : go (Handler * OffsetCommitResponse) :=
  notCoord ← notCoordinator (ocr_GroupID req) (broker h);
  '(s', ts) ← mapS (commitTopic notCoord (ocr_GroupID req)) 0 (ocr_Topics req) (store h);
  Ret (withStore s' h, mkOffsetCommitResponse 0 ts).

Definition offsetCommit (version : Z) (r : Reader) (h : Handler) : go (Handler * list byte) :=
  let '(req, _) := OffsetCommitRequest_Decode version r in
  '(h', resp) ← serveCommit req h;
  Ret (h', encode (OffsetCommitResponse_Encode version resp)).

Definition fetchOffset (groupID topic : string) (s : OffsetStore) (pid : Z) : OffsetFetchPartitionResp :=
  let '(off, meta, found) := Fetch groupID topic pid s in
  mkOffsetFetchPartitionResp pid (if found : bool then off else -1) (-1)
    (if String.eqb meta "" then None else Some meta) 0.

(** The topics and partitions asked for. *)
Definition wanted (req : OffsetFetchRequest) (b : Node) : list (string * list Z) :=
  if ofr_AllTopics req then map (fun t => (t.1, seqZ 0 t.2)) (KnownTopics b)
  else map (fun t => (oft_Name t, oft_Partitions t)) (ofr_Topics req).

Definition serveOffsetFetch (req : OffsetFetchRequest) (h : Handler) : go OffsetFetchResponse :=
  foreign ← notCoordinator (ofr_GroupID req) (broker h);
  if foreign : bool then Ret (mkOffsetFetchResponse 0 [] CodeNotCoordinator)
  else Ret (mkOffsetFetchResponse 0
              (map (fun w => mkOffsetFetchTopicResp w.1 (map (fetchOffset (ofr_GroupID req) w.1 (store h)) w.2))
                 (wanted req (broker h))) 0).

Definition offsetFetch (version : Z) (r : Reader) (h : Handler) : go (list byte) :=
  let '(req, _) := OffsetFetchRequest_Decode version r in
  resp ← serveOffsetFetch req h;
  Ret (encode (OffsetFetchResponse_Encode version resp)).

(** ** Topic administration *)

Definition createOne (i : nat) (t : CreateTopicsTopic) (b : Node) : go (Node * CreateTopicsTopicResp) :=
  '(b', er) ← CreateTopic (e_raft env) (e_open env i 0%nat) (e_now env) (ct_Name t) (ct_NumPartitions t) b;
  Ret (b', match er with
           | Some er => mkCreateTopicsTopicResp (ct_Name t) CodeTopicAlreadyExists (Some (e_text env er))
           | None => mkCreateTopicsTopicResp (ct_Name t) CodeNone None
           end).

Definition createTopics (version : Z) (r : Reader) (h : Handler) : go (Handler * list byte) :=
  let '(req, _) := CreateTopicsRequest_Decode version r in
  '(b', ts) ← mapS createOne 0 (ctr_Topics req) (broker h);
  Ret (withBroker b' h, encode (CreateTopicsResponse_Encode version (mkCreateTopicsResponse 0 ts))).

Definition growOne (i : nat) (t : CreatePartitionsTopic) (b : Node) : go (Node * CreatePartitionsTopicResp) :=
  '(b', er) ← CreatePartitions (e_raft env) (e_open env i 0%nat) (e_now env) (cp_Name t) (cp_Count t) b;
  Ret (b', match er with
           | Some er => mkCreatePartitionsTopicResp (cp_Name t) CodeInvalidPartitions (Some (e_text env er))
           | None => mkCreatePartitionsTopicResp (cp_Name t) CodeNone None
           end).

Definition createPartitions (version : Z) (r : Reader) (h : Handler) : go (Handler * list byte) :=
  let '(req, _) := CreatePartitionsRequest_Decode version r in
  '(b', ts) ← mapS growOne 0 (cpr_Topics req) (broker h);
  Ret (withBroker b' h, encode (CreatePartitionsResponse_Encode version (mkCreatePartitionsResponse 0 ts))).

(** ** Dispatch *)

Definition replied (x : go (Handler * list byte)) : go (Handler * option (list byte)) :=
  '(h, body) ← x; Ret (h, Some body).
Definition queried (h : Handler) (x : go (list byte)) : go (Handler * option (list byte)) :=
  body ← x; Ret (h, Some body).

(** The response body; [None]: nothing is written. *)
Definition Dispatch (hdr : RequestHeader) (r : Reader) (h0 : Handler) : go (Handler * option (list byte)) :=
  let h := countRequest (rh_APIKey hdr) h0 in
  let v := rh_APIVersion hdr in
  let k := rh_APIKey hdr in
  if k =? APIApiVersions then Ret (h, Some (apiVersions v))
  else if k =? APIMetadata then replied (metadata v r h)
  else if k =? APIProduce then produce v r h
  else if k =? APIFetch then replied (fetch v r h)
  else if k =? APIListOffsets then replied (listOffsets v r h)
  else if k =? APIFindCoordinator then queried h (findCoordinator v r h)
  else if k =? APIJoinGroup then replied (joinGroup v r h)
  else if k =? APISyncGroup then replied (syncGroup v r h)
  else if k =? APIHeartbeat then replied (heartbeat v r h)
  else if k =? APILeaveGroup then replied (leaveGroup v r h)
  else if k =? APIListGroups then queried h (listGroups v r h)
  else if k =? APIDescribeGroups then queried h (describeGroups v r h)
  else if k =? APIOffsetCommit then replied (offsetCommit v r h)
  else if k =? APIOffsetFetch then queried h (offsetFetch v r h)
  else if k =? APICreateTopics then replied (createTopics v r h)
  else if k =? APICreatePartitions then replied (createPartitions v r h)
  else Ret (h, None).

End Request.

(** ** The watermark clamp *)

(** The leading batches that lie below the high watermark. *)
Fixpoint below (hwm : Z) (bs : list (list byte)) : list (list byte) :=
  match bs with
  | [] => []
  | b :: bs => if next_of b <=? hwm then b :: below hwm bs else []
  end.

Lemma below_prefix hwm bs : exists tl, bs = below hwm bs ++ tl.
Proof.
  induction bs as [|b bs [tl IH]]; cbn [below]; [by exists []|].
  destruct (_ <=? _); [exists tl; cbn; by rewrite <- IH|by eexists].
Qed.

Lemma below_committed hwm bs : Forall (fun b => next_of b <= hwm) (below hwm bs).
Proof. induction bs as [|b bs IH]; cbn [below]; [done|]. destruct (Z.leb_spec (next_of b) hwm); by constructor. Qed.

Lemma filter_none {A} (P : A -> Prop) `{forall x, Decision (P x)} l : Forall (fun x => ~ P x) l -> filter P l = [].
Proof. induction 1 as [|x l Hx Hl IH]; [done|]. by rewrite filter_cons_False. Qed.

(** In a chain of batches nothing behind the first uncommitted one is committed. *)
Lemma below_filter hwm o bs n : chained o bs n -> below hwm bs = filter (fun b => next_of b <= hwm) bs.
Proof.
  revert o. induction bs as [|b bs IH]; intros o Hc; [done|]. destruct Hc as [_ Hc]. cbn [below].
  destruct (Z.leb_spec (next_of b) hwm) as [Hle|Hgt].
  - rewrite filter_cons_True by done. f_equal. by eapply IH.
  - rewrite filter_cons_False by lia. symmetry. apply filter_none.
    eapply Forall_impl; [by eapply chained_above|]. cbn. lia.
Qed.

Lemma clampBatch_wf hwm keep b : batch_wf b ->
  clampBatch hwm keep b = if next_of b <=? hwm then Ret (keep + zlen b, None) else Ret (keep, Some ErrClampStop).
Proof.
  intros Hb. unfold clampBatch, next_of. rewrite batch_wf_header, (bw_size _ Hb) by done.
  destruct (Z.leb_spec hwm (LastOffset (headerOf b))); [by leb_false|by leb_true].
Qed.

Lemma visit_clamp hwm bs keep c : Forall batch_wf bs ->
  exists c' e, visit (clampBatch hwm) keep c bs None = Ret (keep + zlen (concat (below hwm bs)), c', e).
Proof.
  intros Hw. revert keep c. induction Hw as [|b bs Hb Hw IH]; intros keep c; cbn [visit below concat].
  - rewrite zlen_nil, Z.add_0_r. by eexists _, _.
  - rewrite clampBatch_wf by done. destruct (_ <=? _); cbn [mbind go_bind concat].
    + rewrite zlen_app, Z.add_assoc. apply IH.
    + rewrite zlen_nil, Z.add_0_r. by eexists _, _.
Qed.

Lemma clamp_below hwm bs : Forall batch_wf bs ->
  clampToHighWatermark (concat bs) hwm = Ret (concat (below hwm bs)).
Proof.
  intros Hw. unfold clampToHighWatermark. destruct (Z.eqb_spec (zlen (concat bs)) 0) as [Hz|_].
  - destruct Hw as [|b bs Hb _]; [done|]. rewrite concat_cons, zlen_app in Hz.
    pose proof (batch_wf_pos b Hb). pose proof (zlen_nonneg (concat bs)). lia.
  - unfold Iterate. pose proof (iterate_loop_visits (clampBatch hwm) bs [] (S (length (concat bs))) [] 0 Hw) as H.
    rewrite app_nil_r in H. change (zlen (@nil byte)) with 0 in H. cbn [app] in H. rewrite H by (by left || lia).
    destruct (visit_clamp hwm bs 0 0 Hw) as (c' & e & ->). cbn [mbind go_bind].
    destruct (below_prefix hwm bs) as [tl Htl]. rewrite Htl at 1. rewrite concat_app, Z.add_0_l.
    apply (slice_mid []).
Qed.

(** ** What a request finds *)

(** [resolves b topic p r]: the handlers find the partition in state [r], without
    opening anything. *)
Definition resolves (b : Node) (topic : string) (p : Z) (r : Log + Z) : Prop :=
  forall e, leaderLog e topic p b = Ret (b, r).

Lemma resolves_unknown b topic p : p < 0 \/ NumPartitions topic b <= p ->
  resolves b topic p (inr CodeUnknownTopicOrPart).
Proof.
  intros H e. unfold leaderLog, LocalLog.
  assert ((p <? 0) || (NumPartitions topic b <=? p) = true) as -> by lia. done.
Qed.

Lemma resolves_foreign b topic p : 0 <= p < NumPartitions topic b -> leads topic p b = Ret false ->
  resolves b topic p (inr CodeNotLeader).
Proof.
  intros H Hl e. unfold leaderLog, LocalLog.
  assert ((p <? 0) || (NumPartitions topic b <=? p) = false) as -> by lia. by rewrite Hl.
Qed.

Lemma resolves_open b topic p l : 0 <= p < NumPartitions topic b -> leads topic p b = Ret true ->
  logs b !! (topic, p) = Some l -> resolves b topic p (inl l).
Proof.
  intros H Hl Hg e. unfold leaderLog, LocalLog.
  assert ((p <? 0) || (NumPartitions topic b <=? p) = false) as -> by lia.
  rewrite Hl. cbn [mbind go_bind negb]. by rewrite Hg.
Qed.

Lemma mapS_same {S A B} (f : nat -> A -> S -> go (S * B)) (Q : A -> B -> Prop) i xs s :
  (forall i x, x ∈ xs -> exists y, f i x s = Ret (s, y) /\ Q x y) ->
  exists ys, mapS f i xs s = Ret (s, ys) /\ Forall2 Q xs ys.
Proof.
  revert i. induction xs as [|x xs IH]; intros i Hf; cbn [mapS]; [by exists []|].
  destruct (Hf i x) as (y & -> & Hy); [set_solver|]. cbn [mbind go_bind].
  destruct (IH (Datatypes.S i)) as (ys & -> & Hys); [set_solver|]. cbn [mbind go_bind]. eauto.
Qed.

(** ** What a consumer is answered *)

(** A watermark that cuts no batch in two. *)
Definition boundary (hwm : Z) (l : Log) (c : list (list byte)) : Prop :=
  exists c1 c2, c = c1 ++ c2 /\ chained (EarliestOffset l) c1 hwm.

Inductive consumer_answer (b : Node) (topic : string) (p : FetchPartition) (pr : FetchPartitionResp) : Prop :=
  | ca_refused code :
      resolves b topic (fp_Partition p) (inr code) ->
      fpr_ErrorCode pr = code -> fpr_Records pr = None -> consumer_answer b topic p pr
  | ca_empty l :
      resolves b topic (fp_Partition p) (inl l) ->
      fp_FetchOffset p < EarliestOffset l \/ nextOffset l <= fp_FetchOffset p ->
      fpr_ErrorCode pr = (if fp_FetchOffset p =? nextOffset l then CodeNone else CodeOffsetOutOfRange) ->
      fpr_Records pr = None -> consumer_answer b topic p pr
  | ca_data l bss bs rs tl :
      resolves b topic (fp_Partition p) (inl l) -> log_rep l bss bs ->
      EarliestOffset l <= fp_FetchOffset p < nextOffset l -> fpr_ErrorCode pr = CodeNone ->
      fpr_HighWatermark pr = highWatermark l ->
      fpr_Records pr = Some (concat rs) ->
      drop_before (fp_FetchOffset p) (contents bss bs) = rs ++ tl ->
      Forall (fun x => next_of x <= highWatermark l) rs ->
      (boundary (highWatermark l) l (contents bss bs) -> fp_FetchOffset p < highWatermark l -> rs <> []) ->
      consumer_answer b topic p pr.

(** At a boundary, the batch that holds a committed offset is committed. *)
Lemma boundary_covers hwm o c1 c2 x b tl :
  chained o c1 hwm -> drop_before x (c1 ++ c2) = b :: tl -> o <= x < hwm -> next_of b <= hwm.
Proof.
  revert o. induction c1 as [|b0 c1 IH]; intros o Hc Hd Hx; cbn [chained app drop_before] in *; [lia|].
  destruct Hc as [_ Hc]. destruct (Z.leb_spec (next_of b0) x).
  - eapply IH; [done|done|lia].
  - simplify_eq. by eapply chained_le.
Qed.

Lemma fetch_consumer env now replica topic ti pi p b r :
  replica < 0 -> in_int 32 (fp_MaxBytes p) -> resolves b topic (fp_Partition p) r ->
  (forall l, r = inl l -> exists bss bs, log_rep l bss bs) ->
  exists y, fetchPartition env now replica topic ti pi p b = Ret (b, y) /\ consumer_answer b topic p y.1.1 /\
    fpr_Partition y.1.1 = fp_Partition p.
Proof.
  intros Hr Hmax Hres Hrep. unfold fetchPartition. rewrite Hres. cbn [mbind go_bind].
  destruct r as [l|code]; [|eexists; split_and!; [done|by eapply ca_refused|done]].
  destruct (Hrep l eq_refl) as (bss & bs & Hl). rewrite (proj2 (Z.leb_gt 0 replica)) by lia.
  set (max := if fp_MaxBytes p <=? 0 then defaultFetchBytes else fp_MaxBytes p).
  assert (in_int 32 max) as Hm by (unfold max, defaultFetchBytes; destruct (_ <=? _); [split; vm_compute; congruence|done]).
  destruct (decide (EarliestOffset l <= fp_FetchOffset p < nextOffset l)) as [Hin|Hout].
  - destruct (Read_spec l bss bs Hl _ _ Hm Hin) as (rs & tl & b0 & rs' & -> & Hd & -> & Hb0 & _).
    cbn [mbind go_bind]. pose proof (chained_wf _ _ _ (log_contents _ _ _ Hl)) as Hw.
    destruct (drop_before_suffix (fp_FetchOffset p) (contents bss bs)) as (d1 & Hd1 & _).
    rewrite Hd in Hd1. rewrite Hd1, !Forall_app in Hw. destruct Hw as (_ & Hw & _).
    rewrite clamp_below by done. cbn [mbind go_bind].
    destruct (concat (b0 :: rs')) as [|c0 cs] eqn:Hc.
    { exfalso. apply Forall_cons in Hw as [Hw _]. pose proof (batch_wf_pos b0 Hw).
      apply (f_equal zlen) in Hc. rewrite concat_cons, zlen_app, zlen_nil in Hc.
      pose proof (zlen_nonneg (concat rs')). lia. }
    eexists. split; [reflexivity|]. split; [|done]. cbn.
    destruct (below_prefix (HighWatermark l) (b0 :: rs')) as [tl' Htl].
    eapply ca_data with (rs := below (HighWatermark l) (b0 :: rs')) (tl := tl' ++ tl); try done; [|apply below_committed|].
    + rewrite Hd, Htl at 1. by rewrite <- app_assoc.
    + intros (c1 & c2 & Hcont & Hch) Hx. rewrite Hcont in Hd. cbn [below]. unfold HighWatermark.
      rewrite (proj2 (Z.leb_le _ _)); [done|]. eapply boundary_covers; [done|exact Hd|lia].
  - assert (exists err, Read (fp_FetchOffset p) max l = Ret ([], err) /\
      bool_decide (err = Some ErrOffsetOutOfRange) = negb (fp_FetchOffset p =? nextOffset l)) as (err & -> & Herr).
    { unfold Read. destruct (Z.eqb_spec (fp_FetchOffset p) (nextOffset l)); [by eexists|].
      exists (Some ErrOffsetOutOfRange). split; [|reflexivity]. change (baseOffset (firstSegment l)) with (EarliestOffset l).
      assert ((nextOffset l <? fp_FetchOffset p) || (fp_FetchOffset p <? EarliestOffset l) = true) as Hb by lia.
      by rewrite Hb. }
    cbn [mbind go_bind]. rewrite Herr. eexists. split; [reflexivity|]. split; [|done].
    eapply ca_empty; [done|lia|by destruct (_ =? _)|done].
Qed.

(** A request every partition of which the node can answer from an open log, or
    refuse. *)
Definition serves (req : FetchRequest) (b : Node) : Prop :=
  forall t p, t ∈ fr_Topics req -> p ∈ ft_Partitions t -> in_int 32 (fp_MaxBytes p) /\
    exists r, resolves b (ft_Name t) (fp_Partition p) r /\ (forall l, r = inl l -> exists bss bs, log_rep l bss bs).

Definition consumer_answers (req : FetchRequest) (b : Node) (resp : FetchResponse) : Prop :=
  Forall2 (fun t tr => ftr_Name tr = ft_Name t /\
             Forall2 (fun p pr => consumer_answer b (ft_Name t) p pr /\ fpr_Partition pr = fp_Partition p)
               (ft_Partitions t) (ftr_Partitions tr))
    (fr_Topics req) (fresp_Topics resp).

Lemma buildFetch_consumer env now req b :
  fr_ReplicaID req < 0 -> serves req b ->
  exists resp total hard, buildFetch env now req b = Ret (b, (resp, total, hard)) /\ consumer_answers req b resp.
Proof.
  intros Hr Hs. unfold buildFetch.
  destruct (mapS_same (fetchTopic env now (fr_ReplicaID req))
    (fun t y => ftr_Name y.1.1 = ft_Name t /\
       Forall2 (fun p pr => consumer_answer b (ft_Name t) p pr /\ fpr_Partition pr = fp_Partition p)
         (ft_Partitions t) (ftr_Partitions y.1.1)) 0 (fr_Topics req) b) as (ys & -> & Hys).
  - intros ti t Ht. unfold fetchTopic.
    destruct (mapS_same (fun pi p => fetchPartition env now (fr_ReplicaID req) (ft_Name t) ti pi p)
      (fun p y => consumer_answer b (ft_Name t) p y.1.1 /\ fpr_Partition y.1.1 = fp_Partition p) 0 (ft_Partitions t) b)
      as (prs & -> & Hprs).
    + intros pi p Hp. destruct (Hs t p Ht Hp) as (Hm & r & Hres & Hl). by eapply fetch_consumer.
    + eexists. split; [reflexivity|]. split; [done|]. cbn. by apply Forall2_fmap_r.
  - eexists _, _, _. split; [reflexivity|]. unfold consumer_answers. cbn. by apply Forall2_fmap_r.
Qed.

Lemma fetch_loop_consumer env polls req wait deadline minBytes b :
  fr_ReplicaID req < 0 -> serves req b ->
  Forall (fun x => forall b, serves req b -> serves req (x.2 b)) polls ->
  Exists (fun x => deadline <= x.1) polls ->
  exists b' resp, fetch_loop env polls req wait deadline minBytes b = Ret (b', resp) /\ consumer_answers req b' resp.
Proof.
  intros Hr. revert b. induction polls as [|[now f] polls IH]; intros b Hs Hf He; [by inversion He|].
  apply Forall_cons in Hf as [Hf Hfs]. cbn [fetch_loop].
  destruct (buildFetch_consumer env now req (f b) Hr (Hf b Hs)) as (resp & total & hard & -> & Ha).
  cbn [mbind go_bind]. destruct (hard || (minBytes <=? total) || (wait <=? 0) || negb (now <? deadline)) eqn:Hstop; [eauto|].
  apply IH; [by apply Hf|done|]. apply Exists_cons in He as [He|He]; [|done]. cbn in He.
  rewrite !orb_false_iff, negb_false_iff, Z.ltb_lt in Hstop. lia.
Qed.

(** ** Producing a run of batches *)

(** [Append] writes what [AppendReplica] writes for the patched batch. *)
Lemma Append_segments b l b' l' z :
  patchBatch b (nextOffset l) = Ret b' -> batch_at (nextOffset l) b' -> Append io_ok b l = Ret (l', (z, None)) ->
  (exists l2 z', AppendReplica io_ok b' l = (l2, (z', None)) /\ segments l' = segments l2) /\ holdHWM l' = holdHWM l.
Proof.
  intros Hp Hat. unfold Append, AppendReplica. rewrite Hp. cbn [mbind go_bind]. cbn zeta.
  rewrite (batch_wf_header b') by apply Hat. rewrite (ba_base _ _ Hat), Z.ltb_irrefl.
  destruct (if rollDue l b' then _ else _) as [l1 r] eqn:Hroll.
  assert (r = None /\ holdHWM l1 = holdHWM l) as [-> Hh] by (destruct (rollDue l b'); by injection Hroll as <- <-).
  destruct (append _ _ _ _ _) as [s' [er|]]; [done|]. intros [= <- _]. split; [by eexists _, _|done].
Qed.

Definition records (rs : list (list byte)) : Z := foldr (fun b n => RecordCount (headerOf b) + n) 0 rs.

(** [stored off rs rs']: the batches as stored from offset [off] on. *)
Fixpoint stored (off : Z) (rs rs' : list (list byte)) : Prop :=
  match rs, rs' with
  | [], [] => True
  | b :: rs, b' :: rs' => patched b off b' /\ stored (off + RecordCount (headerOf b)) rs rs'
  | _, _ => False
  end.

Lemma records_nonneg rs : Forall producer_ok rs -> 0 <= records rs.
Proof. induction 1 as [|b rs Hb _ IH]; cbn [records foldr]; [lia|]. pose proof (po_pos _ Hb). unfold records in IH. lia. Qed.

Lemma appendBatch_eq e b l base k l' off er :
  Append (e k) b l = Ret (l', (off, er)) ->
  appendBatch e (l, base, k) b = Ret ((l', if base <? 0 then off else base, S k), er).
Proof. intros H. unfold appendBatch. by rewrite H. Qed.

Lemma visit_produces rs l bss bs base k c :
  log_rep l bss bs -> Forall producer_ok rs -> room_all l rs (nextOffset l + records rs) ->
  exists l' rs' bss' bs' k' c', visit (appendBatch (fun _ => io_ok)) (l, base, k) c rs None =
      Ret ((l', if (base <? 0) && (0 <? zlen rs) then nextOffset l else base, k'), c', None) /\
    log_rep l' bss' bs' /\ contents bss' bs' = contents bss bs ++ rs' /\ stored (nextOffset l) rs rs' /\
    nextOffset l' = nextOffset l + records rs /\ EarliestOffset l' = EarliestOffset l /\ holdHWM l' = holdHWM l /\
    highWatermark l' = (if holdHWM l then highWatermark l else if 0 <? zlen rs then nextOffset l' else highWatermark l).
Proof.
  intros Hrep Hok. revert l bss bs base k c Hrep.
  induction Hok as [|b rs Hb Hok IH]; intros l bss bs base k c Hrep [R1 R2 R3]; cbn [visit records foldr] in *.
  { exists l, [], bss, bs, k, c. change (0 <? zlen (@nil (list byte))) with false. rewrite andb_false_r, app_nil_r.
    split_and!; try done; [lia|by destruct (holdHWM l)]. }
  fold (records rs) in *. pose proof (records_nonneg rs Hok). rewrite concat_cons, zlen_app in R1.
  pose proof (zlen_nonneg (concat rs)). pose proof (po_pos _ Hb). destruct (log_active _ _ _ Hrep) as (_ & Hlo & Hhi).
  assert (room l b (RecordCount (headerOf b))) as Hroom by (split; lia).
  destruct (Append_stores b l bss bs Hrep Hb Hroom)
    as (l1 & b' & bss1 & bs1 & Ha & (Hp & Hpt) & Hr1 & Hc1 & Hn1 & Hh1 & He1 & _).
  destruct (patched_at b (nextOffset l) b' Hb Hpt) as (Hat & Hnext & Hcount); [lia|apply Hroom|].
  assert (zlen b' = zlen b) as Hlen by (unfold zlen; by rewrite (pt_length _ _ _ Hpt)).
  destruct (Append_segments _ _ _ _ _ Hp Hat Ha) as [(l2 & z' & Hrepl & Hseg) Hhold].
  destruct (AppendReplica_active b' l bss bs l2 z' Hrep Hat) as [Hsz Hba]; [|done|].
  { split; [rewrite Hlen; lia|lia|lia]. }
  unfold active in Hsz, Hba. rewrite <- Hseg in Hsz, Hba. fold (active l1) (active l) in Hsz, Hba.
  destruct (IH l1 bss1 bs1 (if base <? 0 then nextOffset l else base) (S k) (c + zlen b) Hr1)
    as (l3 & rs' & bss3 & bs3 & k3 & c3 & Hv & Hr3 & Hc3 & Hs3 & Hn3 & He3 & Hh3 & Hw3).
  { split; [|rewrite Hn1; lia|rewrite Hn1; lia]. lia. }
  exists l3, (b' :: rs'), bss3, bs3, k3, c3. rewrite (appendBatch_eq _ _ _ _ _ _ _ _ Ha). cbn [mbind go_bind]. rewrite Hv.
  pose proof (zlen_nonneg rs). rewrite zlen_cons.
  split_and!; [|done|by rewrite Hc3, Hc1, <- app_assoc| |lia|congruence|congruence|].
  - do 4 f_equal. rewrite Hn1, (proj2 (Z.ltb_lt 0 (1 + zlen rs))), andb_true_r by lia.
    destruct (Z.ltb_spec base 0); by rewrite (proj2 (Z.ltb_ge _ 0)) by lia.
  - cbn [stored]. split; [done|]. by rewrite <- Hn1.
  - rewrite (proj2 (Z.ltb_lt 0 (1 + zlen rs))) by lia. rewrite Hw3, Hhold, Hh1.
    destruct (holdHWM l); [done|]. destruct rs as [|b2 rs]; [cbn in *|by rewrite (proj2 (Z.ltb_lt _ _)) by (rewrite zlen_cons; pose proof (zlen_nonneg rs); lia)].
    change (0 <? zlen (@nil (list byte))) with false. cbn. lia.
Qed.

Lemma visit_ext {S} (f g : S -> list byte -> go (S * option error)) st c bs fin :
  (forall st b, f st b = g st b) -> visit f st c bs fin = visit g st c bs fin.
Proof.
  intros H. revert st c. induction bs as [|b bs IH]; intros st c; cbn [visit]; [done|]. rewrite H.
  destruct (g st b) as [[st' [er|]]| |]; cbn [mbind go_bind]; [done|apply IH|done..].
Qed.

Lemma produce_refused env acks topic ti pi p b code :
  resolves b topic (pp_Index p) (inr code) ->
  producePartition env acks topic ti pi p b = Ret (b, (mkProducePartitionResp (pp_Index p) code (-1) 0 0, None)).
Proof. intros Hr. unfold producePartition. by rewrite Hr. Qed.

Lemma produce_stores env acks topic ti pi p b l bss bs rs :
  resolves b topic p (inl l) -> log_rep l bss bs -> Forall producer_ok rs -> rs <> [] ->
  room_all l rs (nextOffset l + records rs) -> (forall k, e_append env ti pi k = io_ok) ->
  exists l' rs' bss' bs',
    producePartition env acks topic ti pi (mkProducePartition p (Some (concat rs))) b =
      Ret (setLog (topic, p) l' b,
           (mkProducePartitionResp p CodeNone (nextOffset l) 0 (EarliestOffset l),
            if acks =? -1 then Some (nextOffset l + records rs) else None)) /\
    log_rep l' bss' bs' /\ contents bss' bs' = contents bss bs ++ rs' /\ stored (nextOffset l) rs rs' /\
    nextOffset l' = nextOffset l + records rs /\
    highWatermark l' = (if holdHWM l then highWatermark l else nextOffset l').
Proof.
  intros Hres Hrep Hok Hne Hroom He. unfold producePartition. cbn [pp_Index pp_Records from_option id].
  rewrite Hres. cbn [mbind go_bind]. unfold Iterate.
  pose proof (iterate_loop_visits (appendBatch (e_append env ti pi)) rs [] (S (length (concat rs))) [] (l, -1, 0%nat)) as Hi.
  cbn [app] in Hi. rewrite app_nil_r, zlen_nil in Hi.
  rewrite Hi; [|by eapply Forall_impl; [exact Hok|intros ? []]|by left|lia].
  destruct (visit_produces rs l bss bs (-1) 0 0 Hrep Hok Hroom)
    as (l' & rs' & bss' & bs' & k' & c' & Hv & H1 & H2 & H3 & H4 & H5 & _ & H6).
  assert (visit (appendBatch (e_append env ti pi)) (l, -1, 0%nat) 0 rs None =
          visit (appendBatch (fun _ => io_ok)) (l, -1, 0%nat) 0 rs None) as ->.
  { apply visit_ext. intros [[l2 base] k] b2. unfold appendBatch. by rewrite He. }
  rewrite Hv. cbn [mbind go_bind]. pose proof (zlen_pos rs Hne).
  assert ((-1 <? 0) && (0 <? zlen rs) = true) as -> by lia. rewrite (proj2 (Z.ltb_lt 0 (zlen rs))) in H6 by lia.
  destruct (log_active _ _ _ Hrep) as (_ & Hlo & Hhi).
  exists l', rs', bss', bs'. split_and!; try done.
  rewrite bool_decide_eq_true_2, (proj2 (Z.leb_le 0 (nextOffset l))), !andb_true_r, H5 by (done || lia).
  unfold LatestOffset. by rewrite H4.
Qed.

(** ** Waiting for the commit *)

(** The polls a waiting request makes: up to the first one past the deadline. *)
Fixpoint polled (deadline : Z) (reads : list (Z * Z)) : list (Z * Z) :=
  match reads with
  | [] => []
  | x :: reads => x :: (if x.1 <? deadline then polled deadline reads else [])
  end.

Definition reached (reads : list (Z * Z)) (target : Z) : bool := existsb (fun x => target <=? x.2) reads.

Lemma committed_polls reads target deadline :
  Exists (fun x => deadline <= x.1) reads ->
  committed reads target deadline = Ret (reached (polled deadline reads) target).
Proof.
  unfold reached. induction reads as [|[now hwm] reads IH]; intros He; [by inversion He|].
  cbn [committed polled existsb fst snd]. destruct (target <=? hwm); [done|]. cbn [orb].
  destruct (Z.ltb_spec now deadline).
  - rewrite (proj2 (Z.leb_gt (deadline - now) 0)) by lia. apply IH.
    apply Exists_cons in He as [He|He]; [cbn in He; lia|done].
  - by rewrite (proj2 (Z.leb_le (deadline - now) 0)) by lia.
Qed.

Definition timedOut (pr : ProducePartitionResp) : ProducePartitionResp :=
  mkProducePartitionResp (ppr_Index pr) CodeRequestTimedOut (-1) (ppr_LogAppendTime pr) (ppr_LogStartOffset pr).

(** What the slot is answered: its answer, unless it waits in vain. *)
Definition slotAnswer (polls : list (Z * Z)) (slot : ProducePartitionResp * option Z) : ProducePartitionResp :=
  match slot.2 with
  | Some target => if reached polls target then slot.1 else timedOut slot.1
  | None => slot.1
  end.

(** The two outcomes of a wait, by the poll that decided it: all polls before it
    were before the deadline and saw less. *)
Lemma reached_cases deadline reads target pr : Exists (fun x => deadline <= x.1) reads ->
  let a := if reached (polled deadline reads) target then pr else timedOut pr in
  exists before x after, reads = before ++ x :: after /\ Forall (fun y => y.1 < deadline /\ y.2 < target) before /\
    ((a = pr /\ target <= x.2) \/ (a = timedOut pr /\ x.2 < target /\ deadline <= x.1)).
Proof.
  unfold reached. induction reads as [|y reads IH]; intros He; [by inversion He|]. cbv zeta in *. cbn [polled existsb].
  destruct (Z.leb_spec target y.2) as [Ht|Ht]; cbn [orb]; [exists [], y, reads; split_and!; [done|done|by left]|].
  destruct (Z.ltb_spec y.1 deadline) as [Hd|Hd]; [|exists [], y, reads; split_and!; [done|done|by right]].
  apply Exists_cons in He as [He|He]; [lia|]. destruct (IH He) as (before & x & after & -> & Hb & Ha).
  exists (y :: before), x, after. split_and!; [done|by constructor|done].
Qed.

Lemma awaitSlot_answer env deadline ti pi slot :
  Exists (fun x => deadline <= x.1) (e_reads env ti pi) ->
  awaitSlot env deadline ti pi slot = Ret (slotAnswer (polled deadline (e_reads env ti pi)) slot).
Proof.
  intros He. destruct slot as [pr [target|]]; [|done]. unfold awaitSlot, slotAnswer.
  rewrite committed_polls by done. cbn [mbind go_bind snd fst]. by destruct (reached _ _).
Qed.

Lemma mapS_pure {A B} (f : nat -> A -> go B) (g : nat -> A -> B) i xs :
  (forall i x, f i x = Ret (g i x)) ->
  mapS (fun i x (_ : unit) => y ← f i x; Ret (tt, y)) i xs tt = Ret (tt, imap (fun k x => g (i + k)%nat x) xs).
Proof.
  intros Hf. revert i. induction xs as [|x xs IH]; intros i; cbn [mapS]; [done|].
  rewrite Hf. cbn [mbind go_bind]. rewrite IH. cbn [mbind go_bind imap]. rewrite Nat.add_0_r. do 3 f_equal.
  apply imap_ext. intros k y _. cbn. f_equal. lia.
Qed.

Definition topicAnswer (env : Env) (deadline : Z) (ti : nat) (t : string * list (ProducePartitionResp * option Z))
    : ProduceTopicResp :=
  mkProduceTopicResp t.1 (imap (fun pi slot => slotAnswer (polled deadline (e_reads env ti pi)) slot) t.2).

Lemma awaitCommit_answers env timeoutMs topics :
  (forall ti pi, Exists (fun x => e_now env + produceWait timeoutMs <= x.1) (e_reads env ti pi)) ->
  awaitCommit env timeoutMs topics = Ret (imap (topicAnswer env (e_now env + produceWait timeoutMs)) topics).
Proof.
  intros He. unfold awaitCommit. rewrite (mapS_pure _ (topicAnswer env (e_now env + produceWait timeoutMs))); [done|].
  intros ti t. unfold awaitTopic.
  rewrite (mapS_pure _ (fun pi slot => slotAnswer (polled (e_now env + produceWait timeoutMs) (e_reads env ti pi)) slot)); [done|].
  intros pi slot. by apply awaitSlot_answer.
Qed.

(** ** Committing offsets *)

Definition requestCall (env : Env) (g topic : string) (ti pi : nat) (p : OffsetCommitPartition) : commitCall :=
  mkCall (e_commit env ti pi) (g, topic, oc_Index p) (mkCommitted (oc_Offset p) (default ""%string (oc_Metadata p))).
Definition topicCalls (env : Env) (g : string) (ti : nat) (t : OffsetCommitTopic) : list commitCall :=
  imap (requestCall env g (oct_Name t) ti) (oct_Partitions t).

(** The commits a request asks for, in order. *)
Definition requestCalls (env : Env) (req : OffsetCommitRequest) : list commitCall :=
  concat (imap (topicCalls env (ocr_GroupID req)) (ocr_Topics req)).

(** The code of each partition: whether its commit succeeded. *)
Definition commitCode (env : Env) (ti pi : nat) (p : OffsetCommitPartition) : OffsetCommitPartitionResp :=
  mkOffsetCommitPartitionResp (oc_Index p)
    (match e_commit env ti pi with CommitOk => CodeNone | _ => CodeUnknownTopicOrPart end).
Definition commitCodes (env : Env) (ti : nat) (t : OffsetCommitTopic) : OffsetCommitTopicResp :=
  mkOffsetCommitTopicResp (oct_Name t) (imap (commitCode env ti) (oct_Partitions t)).

Lemma runCommits_app s a b : runCommits s (a ++ b) = runCommits (runCommits s a) b.
Proof. apply foldl_app. Qed.

Lemma mapS_calls {A B} (f : nat -> A -> OffsetStore -> go (OffsetStore * B)) cs (ans : nat -> A -> B) i xs s :
  (forall i x s, f i x s = Ret (runCommits s (cs i x), ans i x)) ->
  mapS f i xs s = Ret (runCommits s (concat (imap (fun k x => cs (i + k)%nat x) xs)), imap (fun k x => ans (i + k)%nat x) xs).
Proof.
  intros Hf. revert i s. induction xs as [|x xs IH]; intros i s; cbn [mapS imap concat]; [done|].
  rewrite Hf. cbn [mbind go_bind]. rewrite IH. cbn [mbind go_bind]. rewrite runCommits_app, Nat.add_0_r.
  assert (forall C (g : nat -> A -> C), imap (fun k x => g (S i + k)%nat x) xs = imap ((fun k x => g (i + k)%nat x) ∘ S) xs) as Hs
    by (intros C g; apply imap_ext; intros k y _; cbn; f_equal; lia).
  by rewrite !Hs.
Qed.

Lemma concat_imap_singleton {A B} (f : nat -> A -> B) xs : concat (imap (fun k x => [f k x]) xs) = imap f xs.
Proof. revert f. induction xs as [|x xs IH]; intros f; cbn [imap concat]; [done|]. cbn. f_equal. apply (IH (f ∘ S)). Qed.

Lemma commitTopic_runs env g ti t s :
  commitTopic env false g ti t s = Ret (runCommits s (topicCalls env g ti t), commitCodes env ti t).
Proof.
  unfold commitTopic.
  rewrite (mapS_calls _ (fun pi p => [requestCall env g (oct_Name t) ti pi p]) (commitCode env ti)).
  - cbn [mbind go_bind Nat.add]. by rewrite concat_imap_singleton.
  - intros pi p s'. unfold commitPartition, commitCode, requestCall. cbn [runCommits foldl runCommit k_io k_key k_value].
    unfold runCommit. cbn. by destruct (e_commit env ti pi).
Qed.

Lemma serveCommit_runs env req h :
  IsCoordinator (b_cluster (broker h)) (ocr_GroupID req) = Ret true ->
  serveCommit env req h = Ret (withStore (runCommits (store h) (requestCalls env req)) h,
                               mkOffsetCommitResponse 0 (imap (commitCodes env) (ocr_Topics req))).
Proof.
  intros Hc. unfold serveCommit, notCoordinator. rewrite Hc. cbn [mbind go_bind negb].
  by rewrite (mapS_calls _ (topicCalls env (ocr_GroupID req)) (commitCodes env)) by (intros; apply commitTopic_runs).
Qed.

(** ** Group requests at the wrong broker *)

Definition rejectedCodes (t : OffsetCommitTopic) : OffsetCommitTopicResp :=
  mkOffsetCommitTopicResp (oct_Name t)
    (map (fun p => mkOffsetCommitPartitionResp (oc_Index p) CodeNotCoordinator) (oct_Partitions t)).

Lemma mapS_const {S A B} (f : nat -> A -> S -> go (S * B)) (g : A -> B) i xs s :
  (forall i x, f i x s = Ret (s, g x)) -> mapS f i xs s = Ret (s, map g xs).
Proof.
  intros Hf. revert i. induction xs as [|x xs IH]; intros i; cbn [mapS map]; [done|].
  rewrite Hf. cbn [mbind go_bind]. by rewrite IH.
Qed.

(** ** SyncGroup's wait *)

(** What a wait that ends at [t] in a group [g] is answered: to rejoin when a new
    generation has begun, otherwise the assignment [g] has for the member, once
    the leader has synced or the deadline has come. *)
Definition sync_answer (t deadline gen : Z) (mid : string) (g : group) (res : SyncResult) : Prop :=
  (gen <> generation g /\ res = mkSyncResult ErrRebalanceInProgress None) \/
  (gen = generation g /\ (g_state g = stateStable \/ deadline <= t) /\ res = mkSyncResult ErrNone (members g !! mid ≫= assignment)).

Lemma SyncResume_answer t deadline gid mid gen c g : c !! gid = Some g ->
  match SyncResume t deadline gid mid gen c with
  | (c', None) => c' !! gid = Some g /\ t < deadline
  | (c', Some res) => exists g', c' !! gid = Some g' /\ sync_answer t deadline gen mid g' res
  end.
Proof.
  intros Hc. unfold SyncResume. rewrite Hc. unfold syncResume, sync_answer.
  destruct (Z.eqb_spec gen (generation g)) as [Hg|Hg].
  - destruct (bool_decide (g_state g = stateStable)) eqn:Hs; [apply bool_decide_eq_true_1 in Hs|]; cbn [negb andb].
    + destruct (members g !! mid) as [m|] eqn:Hm; cbn [syncDone]; eexists; (split; [apply lookup_insert_eq|right]);
        cbn [generation g_state members setMembers]; rewrite ?lookup_insert_eq, ?Hm; cbn; split_and!; auto.
    + destruct (Z.ltb_spec t deadline); [split; [apply lookup_insert_eq|done]|].
      destruct (members g !! mid) as [m|] eqn:Hm; cbn [syncDone]; eexists; (split; [apply lookup_insert_eq|right]);
        cbn [generation g_state members setMembers]; rewrite ?lookup_insert_eq, ?Hm; cbn; split_and!; auto.
  - cbn [negb]. rewrite andb_false_r. exists g. split; [apply lookup_insert_eq|by left].
Qed.

Lemma syncWait_answers wakes timer deadline gid mid gen c :
  (forall f, f ∈ timer.2 :: wakes.*2 -> forall c, is_Some (c !! gid) -> is_Some (f c !! gid)) -> is_Some (c !! gid) ->
  exists c' res t g, syncWait wakes timer deadline gid mid gen c = Ret (c', (res, t)) /\ t <= timerBroadcast deadline timer.1 /\
    c' !! gid = Some g /\ sync_answer t deadline gen mid g res.
Proof.
  intros Hkeep. set (fire := timerBroadcast deadline timer.1).
  assert (forall c, is_Some (c !! gid) -> exists c' res t g,
    match SyncResume fire deadline gid mid gen (timer.2 c) with (c', Some res) => Ret (c', (res, fire)) | (_, None) => Spin end = Ret (c', (res, t)) /\
    t <= fire /\ c' !! gid = Some g /\ sync_answer t deadline gen mid g res) as Htimed.
  { intros c0 Hc. destruct (Hkeep timer.2 ltac:(by left) c0 Hc) as [g Hg]. pose proof (SyncResume_answer fire deadline gid mid gen _ g Hg) as Ha.
    destruct (SyncResume _ _ _ _ _ _) as [c' [res|]]; [|destruct Ha; unfold fire, timerBroadcast in *; lia].
    destruct Ha as (g' & Hg' & Ha). by exists c', res, fire, g'. }
  revert c. induction wakes as [|[now f] wakes IH]; intros c Hc; cbn [syncWait]; fold fire; [by apply Htimed|].
  destruct (Z.ltb_spec now fire); [|by apply Htimed].
  destruct (Hkeep f ltac:(right; left) c Hc) as [g Hg]. pose proof (SyncResume_answer now deadline gid mid gen _ g Hg) as Ha.
  destruct (SyncResume now deadline gid mid gen (f c)) as [c' [res|]].
  - destruct Ha as (g' & Hg' & Ha). exists c', res, now, g'. split_and!; [done|lia|done|done].
  - destruct Ha as [Hg' _]. apply IH; [|by exists g]. intros h Hh. apply Hkeep. rewrite fmap_cons. apply elem_of_cons in Hh as [->|Hh]; [by left|by right; right].
Qed.

(** ** Demonstration data *)

Definition demoHandler : Handler :=
  mkHandler (mkNode (mkBrokerConfig 3 1 true 0 0 demoConfig) (Single 1 "localhost" 9092) None None ∅
               {[ "orders"%string := 1 ]} {[ ("orders"%string, 0) := demoLog ]} ∅ ∅)
    ∅ (NewOffsetStore ∅) (replicate 32 0).

Definition demoEnv : Env :=
  mkEnv 1000 (fun _ _ _ => open_ok) (fun _ _ _ => io_ok) (fun _ _ => CommitOk) applyLocked map_to_list "r1" (fun _ => "error"%string)
    (fun _ _ => [(1000, 7); (6000, 7)]) [(1000, id); (6000, id)] [(11000, id)] (5, id).
Definition withAppend (e : nat -> nat -> nat -> io) (env : Env) : Env :=
  mkEnv (e_now env) (e_open env) e (e_commit env) (e_raft env) (e_iter env) (e_random env) (e_text env)
    (e_reads env) (e_polls env) (e_wakes env) (e_timer env).

Lemma demo_resolves : resolves (broker demoHandler) "orders" 0 (inl demoLog).
Proof. apply resolves_open; vm_compute; intuition congruence. Qed.

(** ** Properties *)

(** C5: a consumer sees committed records only, and the long poll ends.  However
    the rest of the broker changes the node between the polls (as long as the
    requested partitions stay refused or served from well-formed open logs), a
    Fetch that is not a replica's returns at the latest at the first poll past
    its deadline; the answer has one entry per requested partition, in order:
    the error code and no records for a partition this node does not lead or
    know, OFFSET_OUT_OF_RANGE or nothing outside the log, and otherwise a run of
    whole batches, byte for byte as stored, starting with the one that holds the
    fetch offset, all of them below the high watermark, and at least one when the
    offset is committed and the watermark lies on a batch boundary. *)
Theorem consumer_fetch_committed env req b :
  fr_ReplicaID req < 0 -> serves req b ->
  Forall (fun x => forall b, serves req b -> serves req (x.2 b)) (e_polls env) ->
  Exists (fun x => e_now env + maxFetchWait <= x.1) (e_polls env) ->
  exists b' resp, serveFetch env req b = Ret (b', resp) /\ consumer_answers req b' resp.
Proof.
  intros Hr Hs Hf He. unfold serveFetch. apply fetch_loop_consumer; [done..|].
  eapply Exists_impl; [exact He|]. intros x Hx. cbn in Hx.
  destruct (Z.ltb_spec maxFetchWait (fr_MaxWaitMs req)); lia.
Qed.

Definition demoFetch : FetchRequest :=
  mkFetchRequest (-1) 500 1 0 0 0 0 [mkFetchTopic "orders" [mkFetchPartition 0 3 0 1000; mkFetchPartition 5 0 0 1000]].

Lemma demo_serves : serves demoFetch (broker demoHandler).
Proof.
  intros t p [->|[]%elem_of_nil]%elem_of_cons [->|[->|[]%elem_of_nil]%elem_of_cons]%elem_of_cons.
  - split; [done|]. exists (inl demoLog). split; [apply demo_resolves|]. intros l [= <-]. apply demo_rep.
  - split; [done|]. exists (inr CodeUnknownTopicOrPart). split; [apply resolves_unknown; right; vm_compute; done|done].
Qed.

Lemma consumer_fetch_committed_witness :
  exists b' resp, serveFetch demoEnv demoFetch (broker demoHandler) = Ret (b', resp) /\
    consumer_answers demoFetch b' resp /\ length (fresp_Topics resp) = 1%nat.
Proof.
  destruct (consumer_fetch_committed demoEnv demoFetch (broker demoHandler)) as (b' & resp & H1 & H2).
  - done.
  - apply demo_serves.
  - apply Forall_cons. split; [done|]. apply Forall_cons. by split.
  - apply Exists_cons_tl, Exists_cons_hd. vm_compute. done.
  - exists b', resp. split_and!; [done|done|]. by apply Forall2_length in H2.
Defined.

(** C20: producing to a partition.  A partition this node does not lead or know is
    refused with its code and nothing changes.  For an open partition, when the
    record set is a run of well-formed batches and every file call succeeds, the
    batches are stored behind the log in order, each patched to its offset, the
    answer carries the offset of the first one and no error, the log end moves by
    their records, and only this partition's log changes; the slot waits for the
    new log end exactly under acks=all.  Without those two conditions the code
    acknowledges what it did not store ([failed_append_acknowledged]) and panics
    on a short batch ([short_batch_panics]). *)
Theorem produce_correct env acks topic ti pi p b :
  (forall recs code, resolves b topic p (inr code) ->
     producePartition env acks topic ti pi (mkProducePartition p recs) b =
     Ret (b, (mkProducePartitionResp p code (-1) 0 0, None))) /\
  (forall l bss bs rs,
     resolves b topic p (inl l) -> log_rep l bss bs -> Forall producer_ok rs -> rs <> [] ->
     room_all l rs (nextOffset l + records rs) -> (forall k, e_append env ti pi k = io_ok) ->
     exists l' rs' bss' bs',
       producePartition env acks topic ti pi (mkProducePartition p (Some (concat rs))) b =
         Ret (setLog (topic, p) l' b,
              (mkProducePartitionResp p CodeNone (nextOffset l) 0 (EarliestOffset l),
               if acks =? -1 then Some (nextOffset l + records rs) else None)) /\
       log_rep l' bss' bs' /\ contents bss' bs' = contents bss bs ++ rs' /\ stored (nextOffset l) rs rs' /\
       nextOffset l' = nextOffset l + records rs /\
       highWatermark l' = (if holdHWM l then highWatermark l else nextOffset l')).
Proof.
  split; [intros recs code; apply (produce_refused env acks topic ti pi (mkProducePartition p recs))|]. intros l bss bs rs. apply produce_stores.
Qed.

Lemma produce_correct_witness :
  exists b' slot, producePartition demoEnv (-1) "orders" 0 0
      (mkProducePartition 0 (Some (concat [demoBatch1; demoBatch2]))) (broker demoHandler) = Ret (b', slot) /\
    ppr_ErrorCode slot.1 = CodeNone /\ ppr_BaseOffset slot.1 = nextOffset demoLog.
Proof.
  destruct demo_rep as (bss & bs & Hrep).
  destruct (produce_correct demoEnv (-1) "orders" 0 0 0 (broker demoHandler)) as [_ H].
  destruct (H demoLog bss bs [demoBatch1; demoBatch2]) as (l' & rs' & bss' & bs' & -> & _).
  - apply demo_resolves.
  - done.
  - repeat apply Forall_cons_2; try apply producer_okb; done.
  - done.
  - split; vm_compute; done.
  - done.
  - by eexists _, _.
Defined.

(** C19: acks.  Once the appends of a request have run, a fire-and-forget request
    (acks=0) gets no reply; other requests get one, with one entry per requested
    partition in order.  Under acks=all a partition that waits (one whose appends
    all succeeded, [produce_correct]) is polled until a poll sees the high
    watermark at or above its new log end, and is then answered without an error,
    or until a poll at or after the deadline (the client's timeout, at most 5 s)
    does not, and is then flagged REQUEST_TIMED_OUT with base offset -1: every
    poll before the deciding one came before the deadline.  The wait ends whenever
    the polls reach the deadline.  A partition whose append failed does not wait
    ([failed_append_acknowledged]). *)
Theorem acks_wait env req b b' topics :
  mapS (produceTopic env (pr_Acks req)) 0 (pr_Topics req) b = Ret (b', topics) ->
  (forall ti pi, Exists (fun x => e_now env + produceWait (pr_TimeoutMs req) <= x.1) (e_reads env ti pi)) ->
  exists reply, serveProduce env req b = Ret (b', reply) /\
    (pr_Acks req = 0 -> reply = None) /\
    (pr_Acks req <> 0 -> exists resp, reply = Some resp /\ length (presp_Topics resp) = length topics /\
       forall ti pi t slot, topics !! ti = Some t -> t.2 !! pi = Some slot ->
         exists tr pr, presp_Topics resp !! ti = Some tr /\ ptr_Partitions tr !! pi = Some pr /\
           match slot.2 with
           | Some target =>
             if bool_decide (pr_Acks req = -1)
             then exists before x after, e_reads env ti pi = before ++ x :: after /\
                    Forall (fun y => y.1 < e_now env + produceWait (pr_TimeoutMs req) /\ y.2 < target) before /\
                    ((pr = slot.1 /\ target <= x.2) \/
                     (pr = timedOut slot.1 /\ x.2 < target /\ e_now env + produceWait (pr_TimeoutMs req) <= x.1))
             else pr = slot.1
           | None => pr = slot.1
           end).
Proof.
  intros Hm He. unfold serveProduce. rewrite Hm. cbn [mbind go_bind].
  destruct (Z.eqb_spec (pr_Acks req) 0) as [H0|H0]; [eexists; by split_and!|].
  set (deadline := e_now env + produceWait (pr_TimeoutMs req)) in *.
  destruct (Z.eqb_spec (pr_Acks req) (-1)) as [H1|H1].
  - rewrite awaitCommit_answers by done. cbn [mbind go_bind]. fold deadline.
    eexists. split_and!; [done|done|]. intros _. eexists. split; [reflexivity|].
    cbn [presp_Topics]. rewrite length_imap. split; [done|].
    intros ti pi t slot Ht Hs. exists (topicAnswer env deadline ti t), (slotAnswer (polled deadline (e_reads env ti pi)) slot).
    rewrite list_lookup_imap, Ht. cbn [topicAnswer ptr_Partitions]. rewrite list_lookup_imap, Hs.
    split_and!; [done|done|]. unfold slotAnswer. destruct slot.2 as [target|]; [|done].
    rewrite bool_decide_eq_true_2 by done. by apply reached_cases.
  - cbn [mbind go_bind]. eexists. split_and!; [done|done|]. intros _. eexists. split; [reflexivity|].
    cbn [presp_Topics]. rewrite length_map. split; [done|]. intros ti pi t slot Ht Hs. exists (answered t), slot.1.
    rewrite list_lookup_fmap, Ht. cbn. rewrite list_lookup_fmap, Hs. split_and!; [done|done|].
    destruct slot.2; [|done]. by rewrite bool_decide_eq_false_2.
Qed.

(** A batch is stored on the leader but no poll sees it committed. *)
Lemma acks_wait_witness :
  exists b' resp pr, serveProduce demoEnv (mkProduceRequest None (-1) 0
      [mkProduceTopic "orders" [mkProducePartition 0 (Some demoBatch1)]]) (broker demoHandler) = Ret (b', Some resp) /\
    ptr_Partitions <$> head (presp_Topics resp) = Some [pr] /\ ppr_ErrorCode pr = CodeRequestTimedOut.
Proof.
  destruct (mapS (produceTopic demoEnv (-1)) 0 [mkProduceTopic "orders" [mkProducePartition 0 (Some demoBatch1)]]
    (broker demoHandler)) as [[b' topics]| |] eqn:E; [|by vm_compute in E..].
  destruct (acks_wait demoEnv (mkProduceRequest None (-1) 0 [mkProduceTopic "orders" [mkProducePartition 0 (Some demoBatch1)]])
    (broker demoHandler) b' topics E) as (reply & H1 & _ & H2).
  { intros ti pi. change (e_reads demoEnv ti pi) with [(1000, 7); (6000, 7)]. apply Exists_cons_tl, Exists_cons_hd. vm_compute. done. }
  exists b'. rewrite H1. vm_compute in H1. injection H1 as Hb Hr. subst reply. clear E H2 Hb. eexists _, _. split_and!; reflexivity.
Defined.

(** committing and fetching offsets through the coordinator.  OffsetCommit runs
    exactly the commits the request lists, in order, and answers per partition
    whether its commit succeeded; node and groups stay as they are.  OffsetFetch
    then answers, for every partition of the group, the offset and metadata of
    the last successful commit for it, whether that came with this request or
    before, and -1 when there is none. *)
Theorem offset_commit_fetch env req h :
  IsCoordinator (b_cluster (broker h)) (ocr_GroupID req) = Ret true ->
  exists h', serveCommit env req h = Ret (h', mkOffsetCommitResponse 0 (imap (commitCodes env) (ocr_Topics req))) /\
    broker h' = broker h /\ coord h' = coord h /\ store h' = runCommits (store h) (requestCalls env req) /\
    forall q, ofr_GroupID q = ocr_GroupID req ->
      exists ts, serveOffsetFetch q h' = Ret (mkOffsetFetchResponse 0 ts 0) /\
        map oftr_Name ts = (wanted q (broker h)).*1 /\
        Forall2 (fun w t => oftr_Partitions t = map (fun pid =>
          let last := foldl (fun m x => if succeeds x then <[k_key x := k_value x]> m else m) (cache (store h)) (requestCalls env req) in
          match last !! (ocr_GroupID req, w.1, pid) with
          | Some c => mkOffsetFetchPartitionResp pid (c_offset c) (-1) (if String.eqb (c_metadata c) "" then None else Some (c_metadata c)) 0
          | None => mkOffsetFetchPartitionResp pid (-1) (-1) None 0
          end) w.2) (wanted q (broker h)) ts.
Proof.
  intros Hc. eexists. split; [by apply serveCommit_runs|]. split_and!; [done..|]. intros q Hq.
  unfold serveOffsetFetch, notCoordinator. cbn [broker withStore store]. rewrite Hq, Hc. cbn [mbind go_bind negb].
  eexists. split; [reflexivity|]. split; [by rewrite map_map|]. apply Forall2_fmap_r, Forall_Forall2_diag, Forall_forall.
  intros w _. cbn [oftr_Partitions]. apply map_ext. intros pid. unfold fetchOffset, Fetch. rewrite runCommits_cache. cbv zeta.
  by destruct (_ !! _).
Qed.

Definition demoCommit : OffsetCommitRequest :=
  mkOffsetCommitRequest "g" 1 "m" [mkOffsetCommitTopic "orders" [mkOffsetCommitPartition 0 5 (-1) (Some "x"%string)]].

Lemma offset_commit_fetch_witness :
  exists h' resp ts, serveCommit demoEnv demoCommit demoHandler = Ret (h', resp) /\
    serveOffsetFetch (mkOffsetFetchRequest "g" true []) h' = Ret (mkOffsetFetchResponse 0 ts 0) /\
    map oftr_Partitions ts = [[mkOffsetFetchPartitionResp 0 5 (-1) (Some "x"%string) 0]].
Proof.
  destruct (offset_commit_fetch demoEnv demoCommit demoHandler) as (h' & H1 & _ & _ & _ & H2); [vm_compute; reflexivity|].
  destruct (H2 (mkOffsetFetchRequest "g" true []) eq_refl) as (ts & H3 & _ & H4).
  eexists h', _, ts. split; [exact H1|]. split; [exact H3|].
  change (wanted _ _) with [("orders"%string, [0])] in H4.
  inversion H4 as [|w t ws ts' Hw Ht]; subst. inversion Ht; subst. cbn [map]. rewrite Hw. vm_compute. reflexivity.
Defined.

(** a group request at a broker that is not the group's coordinator is
    answered NOT_COORDINATOR and changes nothing, whichever request it is. *)
Theorem foreign_group_rejected env h g :
  IsCoordinator (b_cluster (broker h)) g = Ret false ->
  (forall q, jg_GroupID q = g -> serveJoin env q h = Ret (h, mkJoinGroupResponse 0 CodeNotCoordinator 0 "" "" "" [])) /\
  (forall q, sg_GroupID q = g -> serveSync env q h = Ret (h, mkSyncGroupResponse 0 CodeNotCoordinator None)) /\
  (forall q, hb_GroupID q = g -> serveHeartbeat env q h = Ret (h, CodeNotCoordinator)) /\
  (forall q, lg_GroupID q = g -> serveLeave env q h = Ret (h, CodeNotCoordinator)) /\
  (forall q, ocr_GroupID q = g ->
     serveCommit env q h = Ret (h, mkOffsetCommitResponse 0 (map rejectedCodes (ocr_Topics q)))) /\
  (forall q, ofr_GroupID q = g -> serveOffsetFetch q h = Ret (mkOffsetFetchResponse 0 [] CodeNotCoordinator)) /\
  describeOne env h g = Ret (mkDescribeGroupsGroup CodeNotCoordinator g "" "" "" []).
Proof.
  intros Hc. assert (notCoordinator g (broker h) = Ret true) as Hn by (unfold notCoordinator; by rewrite Hc).
  split_and!; try (intros q <-).
  - unfold serveJoin. by rewrite Hn.
  - unfold serveSync. by rewrite Hn.
  - unfold serveHeartbeat. by rewrite Hn.
  - unfold serveLeave. by rewrite Hn.
  - unfold serveCommit. rewrite Hn. cbn [mbind go_bind].
    rewrite (mapS_const _ rejectedCodes); [by destruct h|]. intros ti t. unfold commitTopic.
    by rewrite (mapS_const _ (fun p => mkOffsetCommitPartitionResp (oc_Index p) CodeNotCoordinator)).
  - unfold serveOffsetFetch. by rewrite Hn.
  - unfold describeOne. by rewrite Hn.
Qed.

Lemma foreign_group_rejected_witness :
  let h := withBroker demoNode demoHandler in
  exists g, serveHeartbeat demoEnv (mkHeartbeatRequest g 1 "m") h = Ret (h, CodeNotCoordinator).
Proof.
  intros h. exists "h"%string.
  destruct (foreign_group_rejected demoEnv h "h"%string) as (_ & _ & H & _); [vm_compute; reflexivity|].
  exact (H (mkHeartbeatRequest "h" 1 "m") eq_refl).
Defined.

(** C35: a member that waits in SyncGroup is answered.  Whatever the rest of the
    coordinator does meanwhile short of forgetting the group, and whether or not
    the leader ever assigns, the request returns within the 30 seconds of
    [syncWaitTimeout], late by no more than its timer is.  A member that had to wait is told to
    rejoin when a new generation has begun, and is otherwise answered the
    assignment the group has for it, before the deadline only once the leader has
    synced. *)
Theorem sync_group_returns env req h :
  notCoordinator (sg_GroupID req) (broker h) = Ret false ->
  (forall f, f ∈ (e_timer env).2 :: (e_wakes env).*2 -> forall c, is_Some (c !! sg_GroupID req) -> is_Some (f c !! sg_GroupID req)) ->
  let deadline := e_now env + syncWaitTimeout in
  let asg := assignmentMap (sg_Assignments req) in
  exists c' res t,
    Sync env (sg_GroupID req) (sg_MemberID req) (sg_GenerationID req) asg (coord h) = Ret (c', (res, t)) /\
    serveSync env req h = Ret (withCoord c' h, mkSyncGroupResponse 0 (s_ErrorCode res) (s_Assignment res)) /\
    t <= deadline + Z.max 0 (e_timer env).1 /\
    (snd (SyncEnter (e_now env) (sg_GroupID req) (sg_MemberID req) (sg_GenerationID req) asg (coord h)) = None ->
     exists g, c' !! sg_GroupID req = Some g /\ sync_answer t deadline (sg_GenerationID req) (sg_MemberID req) g res).
Proof.
  intros Hf Hkeep deadline asg. unfold serveSync. rewrite Hf. cbn [mbind go_bind]. fold asg. unfold Sync.
  destruct (SyncEnter _ _ _ _ _ _) as [c1 [res|]] eqn:He.
  - exists c1, res, (e_now env). cbn [mbind go_bind]. split_and!; [done|done|unfold deadline, syncWaitTimeout; lia|done].
  - assert (is_Some (c1 !! sg_GroupID req)) as Hc1.
    { unfold SyncEnter in He. destruct (coord h !! _) as [g|]; [|done]. destruct (syncEnter _ _ _ _ _) as [g' r]. injection He as <- ->.
      exists g'. apply lookup_insert_eq. }
    destruct (syncWait_answers (e_wakes env) (e_timer env) deadline (sg_GroupID req) (sg_MemberID req) (sg_GenerationID req) c1 Hkeep Hc1)
      as (c' & res & t & g & Hs & Ht & Hg & Ha).
    exists c', res, t. unfold deadline in Hs. rewrite Hs. cbn [mbind go_bind]. split_and!; [done|done|exact Ht|]. intros _. by exists g.
Qed.

(** A follower whose leader never syncs, woken once before the deadline. *)
Definition demoSync : Handler := withCoord demoGroups demoHandler.

Lemma sync_group_returns_witness :
  exists c' res t, serveSync demoEnv (mkSyncGroupRequest "g" 2 "b" []) demoSync =
      Ret (withCoord c' demoSync, mkSyncGroupResponse 0 (s_ErrorCode res) (s_Assignment res)) /\ t <= 31005 /\
    exists g, c' !! "g"%string = Some g /\ sync_answer t 31000 2 "b" g res.
Proof.
  destruct (sync_group_returns demoEnv (mkSyncGroupRequest "g" 2 "b" []) demoSync) as (c' & res & t & _ & Hs & Ht & Ha).
  - vm_compute. reflexivity.
  - intros f [->|[->|[]%elem_of_nil]%elem_of_cons]%elem_of_cons c Hc; exact Hc.
  - exists c', res, t. split_and!; [exact Hs|exact Ht|]. apply Ha. vm_compute. reflexivity.
Defined.

Definition demoProduce (acks : Z) (records : list byte) : ProduceRequest :=
  mkProduceRequest None acks 0 [mkProduceTopic "orders" [mkProducePartition 0 (Some records)]].

(** a produce whose append fails is acknowledged.  The log file cannot be
    written, nothing is stored, and under acks=all as under acks=1 the client is
    answered error code 0 and base offset 0. *)
Theorem failed_append_acknowledged :
  let env := withAppend (fun _ _ _ => mkIO true true WOk (WErr 0)) demoEnv in
  let acknowledged acks :=
    match serveProduce env (demoProduce acks demoBatch1) (broker demoHandler) with
    | Ret (b', Some resp) =>
      presp_Topics resp = [mkProduceTopicResp "orders" [mkProducePartitionResp 0 CodeNone 0 0 0]] /\
      (nextOffset <$> getLog "orders" 0 b') = Some (nextOffset demoLog) /\
      (Read 7 1000 <$> getLog "orders" 0 b') = Some (Ret ([], None))
    | _ => False
    end in
  acknowledged 1 /\ acknowledged (-1).
Proof. vm_compute. done. Qed.

(** one request stops the broker.  A Produce frame whose batch header says a
    batch length of 0 makes [Iterate] cut a batch of 12 bytes, and patching it
    panics; nothing between the handler and the goroutine recovers. *)
Theorem short_batch_panics :
  let batch := patch (mkBatch 0 0 1 7 []) offBatchLength (be_put 4 0) in
  let frame := Finish (ProduceRequest_layout 0 (demoProduce 1 batch)) in
  Dispatch demoEnv (mkRequestHeader APIProduce 0 1 None) (NewReader frame) demoHandler = Panic.
Proof. vm_compute. reflexivity. Qed.

(** the validate_only flag of CreateTopics is decoded and ignored: a request
    that only asks for validation creates the topic. *)
Theorem validate_only_creates :
  let frame := Finish (wArray [mkCreateTopicsTopic "clicks" 2 1] (fun t =>
                 wString (ct_Name t) ;> wInt32 (ct_NumPartitions t) ;> wInt16 (ct_ReplicationFactor t) ;>
                 wArrayLen 0 ;> wArrayLen 0) ;> wInt32 1000 ;> wInt8 1) in
  fst (CreateTopicsRequest_Decode 4 (NewReader frame)) = mkCreateTopicsRequest [mkCreateTopicsTopic "clicks" 2 1] 1000 true /\
  Knows "clicks" (broker demoHandler) = false /\
  match Dispatch demoEnv (mkRequestHeader APICreateTopics 4 1 None) (NewReader frame) demoHandler with
  | Ret (h', _) => Knows "clicks" (broker h') = true
  | _ => False
  end.
Proof. vm_compute. done. Qed.
