(* ===== verification/Server.v ===== *)
(** * internal/server/server.go: connections

    [handleConn] reads length-prefixed request frames from a connection, hands
    each to the dispatcher and writes the framed response before it reads the
    next one.  The connection is the stream of bytes still to come from the
    client; the outcome of each write is an argument.  The listener and the set
    of open connections are in [Listener].

    The last theorem composes the whole path of replication: the follower's
    request frame through the server, the fetch handler, the broker and the log,
    and the response frame back through the follower's reader into its log. *)

From S2P Require Import Prelude Kbytes Record Segment Log Recovery Protocol Replication Cluster Fsm Coordinator Offsets Broker Handlers.

Definition maxFrameBytes : Z := Z.shiftl 100 20.

(** ** Operations *)

(** The bytes handed to the connection: size, correlation id, body. *)
Definition writeResponse (correlationID : Z) (body : list byte) : list byte :=
  let payload := Finish (wseq (WriteResponseHeader correlationID) (wRaw body)) in
  be_put 4 (uint32 (zlen payload)) ++ payload.

Section Connection.
(** The dispatcher, given the position of the request on the connection, and the
    outcome of the write that answers it. *)
Context {S : Type} (dispatch : nat -> RequestHeader -> Reader -> S -> go (S * option (list byte))).
Context (written : nat -> wres).

(** The final state and the bytes written.  Each round consumes at least five
    bytes, so the length of the stream is enough fuel. *)
Fixpoint handle_loop (fuel i : nat) (stream : list byte) (s : S) : go (S * list byte) :=
  match fuel with
  | O => Spin
  | Datatypes.S fuel =>
    match ReadFull 4 stream with
    | None => Ret (s, [])
    | Some (lenBuf, stream) =>
      let size := be_get lenBuf in
      if (size =? 0) || (maxFrameBytes <? size) then Ret (s, [])
      else
        match ReadFull size stream with
        | None => Ret (s, [])
        | Some (frame, stream) =>
          let '(hdr, r) := DecodeRequestHeader (NewReader frame) in
          '(s', body) ← dispatch i hdr r s;
          match body with
          | None => handle_loop fuel (Datatypes.S i) stream s'
          | Some body =>
            let out := writeResponse (rh_CorrelationID hdr) body in
            match written i with
            | WErr n => Ret (s', take n out)
            | WOk => '(s'', rest) ← handle_loop fuel (Datatypes.S i) stream s'; Ret (s'', out ++ rest)
            end
          end
        end
    end
  end.

Definition handleConn (stream : list byte) (s : S) : go (S * list byte) :=
  handle_loop (Datatypes.S (length stream)) 0 stream s.

(** ** The reference: the requests one after the other *)

Definition frame (payload : list byte) : list byte := be_put 4 (zlen payload) ++ payload.

Fixpoint serveAll (i : nat) (payloads : list (list byte)) (s : S) : go (S * list byte) :=
  match payloads with
  | [] => Ret (s, [])
  | payload :: payloads =>
    let '(hdr, r) := DecodeRequestHeader (NewReader payload) in
    '(s', body) ← dispatch i hdr r s;
    match body with
    | None => serveAll (Datatypes.S i) payloads s'
    | Some body =>
      match written i with
      | WErr n => Ret (s', take n (frame (be_put 4 (rh_CorrelationID hdr) ++ body)))
      | WOk =>
        '(s'', rest) ← serveAll (Datatypes.S i) payloads s';
        Ret (s'', frame (be_put 4 (rh_CorrelationID hdr) ++ body) ++ rest)
      end
    end
  end.

Definition payload_ok (payload : list byte) : Prop := 0 < zlen payload <= maxFrameBytes.

(** What ends a connection: too few bytes for a length, a length that is refused,
    or fewer bytes than the length announces. *)
Definition ends (t : list byte) : Prop :=
  zlen t < 4 \/
  exists size body, t = be_put 4 size ++ body /\ 0 <= size < 2 ^ 32 /\
    (size = 0 \/ maxFrameBytes < size \/ zlen body < size).

Lemma writeResponse_frame corr body : writeResponse corr body = frame (be_put 4 corr ++ body).
Proof.
  unfold writeResponse, frame. change (Finish _) with (be_put 4 corr ++ body). f_equal.
  apply be_put_mod. unfold uwrap. change (256 ^ Z.of_nat 4) with (2 ^ 32). by rewrite Z.mod_mod.
Qed.

Lemma ReadFull_frame size body rest : 0 <= size < 2 ^ 32 ->
  ReadFull 4 ((be_put 4 size ++ body) ++ rest) = Some (be_put 4 size, body ++ rest) /\ be_get (be_put 4 size) = size.
Proof.
  intros H. rewrite <- app_assoc, ReadFull_app by (by rewrite zlen_be_put). split; [done|].
  rewrite be_get_put. apply Z.mod_small. by change (256 ^ Z.of_nat 4) with (2 ^ 32).
Qed.

Lemma handle_ends fuel i t s : ends t -> (0 < fuel)%nat -> handle_loop fuel i t s = Ret (s, []).
Proof.
  intros He Hf. destruct fuel as [|fuel]; [lia|]. cbn [handle_loop].
  destruct He as [Hs|(size & body & -> & Hr & Hcase)].
  - unfold ReadFull at 1. by ltb_true.
  - destruct (ReadFull_frame size body [] Hr) as [Hrf Hg]. rewrite !app_nil_r in Hrf. rewrite Hrf, Hg.
    destruct (Z.eqb_spec size 0); [done|]. destruct (Z.ltb_spec maxFrameBytes size); [done|]. cbn [orb].
    unfold ReadFull. by rewrite (proj2 (Z.ltb_lt (zlen body) size)) by lia.
Qed.

Lemma handle_serves payloads tail fuel i s :
  Forall payload_ok payloads -> ends tail -> (length (concat (map frame payloads) ++ tail) < fuel)%nat ->
  handle_loop fuel i (concat (map frame payloads) ++ tail) s = serveAll i payloads s.
Proof.
  intros Hp Ht. revert fuel i s. induction Hp as [|p ps [Hp1 Hp2] Hps IH]; intros fuel i s Hf; cbn [map concat].
  - apply handle_ends; [done|]. lia.
  - destruct fuel as [|fuel]; [lia|]. cbn [handle_loop serveAll].
    assert (0 <= zlen p < 2 ^ 32) as Hr by (unfold maxFrameBytes in Hp2; rewrite Z.shiftl_mul_pow2 in Hp2 by lia; lia).
    rewrite <- app_assoc. unfold frame at 1. destruct (ReadFull_frame (zlen p) p (concat (map frame ps) ++ tail) Hr) as [-> ->].
    rewrite (proj2 (Z.eqb_neq (zlen p) 0)) by lia. rewrite (proj2 (Z.ltb_ge maxFrameBytes (zlen p))) by lia. cbn [orb].
    rewrite ReadFull_app by done. destruct (DecodeRequestHeader (NewReader p)) as [hdr r].
    assert (length (concat (map frame ps) ++ tail) < fuel)%nat as Hf'.
    { cbn [map concat] in Hf. unfold frame at 1 in Hf. rewrite !length_app, length_be_put in Hf. rewrite length_app. lia. }
    destruct (dispatch i hdr r s) as [[s' [body|]]| |]; cbn [mbind go_bind]; [|by apply IH|done..].
    rewrite writeResponse_frame. destruct (written i); [|done]. by rewrite IH.
Qed.

Lemma handle_terminates fuel i stream s :
  (forall i hdr r s, dispatch i hdr r s <> Spin) -> (length stream < fuel)%nat -> handle_loop fuel i stream s <> Spin.
Proof.
  intros Hd. revert i stream s. induction fuel as [|fuel IH]; intros i stream s Hf; [lia|]. cbn [handle_loop].
  unfold ReadFull at 1. destruct (Z.ltb_spec (zlen stream) 4); [done|].
  destruct (_ || _); [done|]. unfold ReadFull. destruct (_ <? _); [done|].
  destruct (DecodeRequestHeader _) as [hdr r].
  assert (forall n, length (drop n (drop (Z.to_nat 4) stream)) < fuel)%nat as Hl.
  { intros n. rewrite drop_drop, length_drop. unfold zlen in *. lia. }
  destruct (dispatch i hdr r s) as [[s' [body|]]| |] eqn:E; cbn [mbind go_bind]; [|by apply IH|done|by destruct (Hd _ _ _ _ E)].
  destruct (written i); [|done].
  destruct (handle_loop fuel (Datatypes.S i) _ s') as [[s'' rest]| |] eqn:E2; cbn [mbind go_bind]; try done.
  by destruct (IH _ _ _ (Hl _) E2).
Qed.

End Connection.

(** ** Replication through the server *)

Lemma fetch_decodes replicaID topic p off corr :
  in_int 32 replicaID -> str_fits topic -> in_int 32 p -> in_int 64 off -> in_int 32 corr ->
  exists payload r, encodeFetch replicaID topic p off corr = frame payload /\ payload_ok payload /\
    DecodeRequestHeader (NewReader payload) = (mkRequestHeader APIFetch fetchAPIVersion corr (Some "mq-replica"%string), r) /\
    fst (FetchRequest_Decode fetchAPIVersion r) = replicaRequest replicaID topic p off.
Proof.
  intros H1 H2 H3 H4 H5. set (payload := Finish (wseq (fetchHeader corr) (fetchBody replicaID topic p off))).
  destruct (RT_decodes _ _ _ (encodeFetch_RT _ _ _ _ _ H1 H2 H3 H4 H5)) as (r & Hr & _). fold payload in Hr.
  exists payload. unfold headerThenBody, mbind, rd_bind in Hr.
  destruct (DecodeRequestHeader (NewReader payload)) as [hdr r1].
  destruct (FetchRequest_Decode (rh_APIVersion hdr) r1) as [q r2] eqn:Hq.
  unfold mret, rd_ret in Hr. simplify_eq. exists r1. split_and!; [done| |done|].
  - unfold payload_ok, maxFrameBytes. rewrite Z.shiftl_mul_pow2 by lia.
    assert (zlen payload = zlen (bytes_of_string topic) + 63) as ->; [|unfold str_fits in H2; pose proof (zlen_nonneg (bytes_of_string topic)); eval_pow; lia].
    unfold payload, Finish, fetchHeader, fetchBody, wseq, wNullableString, wString, wArrayLen, wInt8, wInt16, wInt32, wInt64, wRaw, wseq.
    cbn -[be_put]. rewrite !zlen_app, !zlen_be_put. unfold zlen. cbn [length]. lia.
  - cbn [rh_APIVersion] in Hq. by rewrite Hq.
Qed.

Lemma Finish_wRaw f bs g : Emits g bs -> Finish (wseq f (wRaw (Finish g))) = Finish (wseq f g).
Proof. intros H. unfold Finish, wseq, wRaw. by rewrite !H. Qed.

(** The body the handler returns, framed, is the frame the follower reads. *)
Lemma writeResponse_fetch corr topic p hwm start records :
  writeResponse corr (encode (FetchResponse_Encode fetchAPIVersion (partitionResponse topic p hwm start records))) =
  fetchFrame corr (partitionResponse topic p hwm start records).
Proof.
  unfold writeResponse, fetchFrame, encode. erewrite Finish_wRaw.
  - set (payload := Finish _). f_equal. apply be_put_mod. unfold uwrap. change (256 ^ Z.of_nat 4) with (2 ^ 32). by rewrite Z.mod_mod.
  - unfold FetchResponse_Encode, FetchTopicResp_Encode, FetchPartitionResp_Encode, partitionResponse. apply _.
Qed.

(** The leader's handler on the request of a follower that is behind. *)
Lemma dispatch_replica_fetch env h topic p L replicaID off corr r records now polls :
  fst (FetchRequest_Decode fetchAPIVersion r) = replicaRequest replicaID topic p off ->
  0 <= replicaID -> e_polls env = (now, id) :: polls ->
  resolves (broker h) topic p (inl L) -> Read off fetchMaxBytes L = Ret (records, None) -> records <> [] ->
  exists h', Dispatch env (mkRequestHeader APIFetch fetchAPIVersion corr (Some "mq-replica"%string)) r h =
      Ret (h', Some (encode (FetchResponse_Encode fetchAPIVersion
        (partitionResponse topic p (HighWatermark L) (EarliestOffset L) records)))) /\
    broker h' = RecordReplicaFetch now topic p replicaID off (broker h).
Proof.
  intros Hd Hr Hp Hres Hread Hne. unfold Dispatch. cbn [rh_APIKey rh_APIVersion].
  set (h1 := countRequest APIFetch h).
  assert (broker h1 = broker h) as Hb by (unfold h1, countRequest; by destruct (_ && _)).
  assert (serveFetch env (replicaRequest replicaID topic p off) (broker h1) =
    Ret (RecordReplicaFetch now topic p replicaID off (broker h),
         partitionResponse topic p (HighWatermark L) (EarliestOffset L) records)) as Hs.
  { unfold serveFetch. rewrite Hp, Hb. cbn [fetch_loop]. unfold buildFetch, fetchTopic, fetchPartition.
    cbn [replicaRequest fr_Topics fr_ReplicaID mapS ft_Partitions ft_Name fp_Partition fp_MaxBytes fp_FetchOffset id].
    rewrite Hres. cbn [mbind go_bind]. change (fetchMaxBytes <=? 0) with false. cbn iota. rewrite Hread. cbn [mbind go_bind].
    rewrite (proj2 (Z.leb_le 0 replicaID) Hr). cbn [mbind go_bind foldr map existsb fst snd].
    pose proof (zlen_pos records Hne).
    assert ((1 <=? zlen records + 0 + 0) = true) as Ht by lia.
    change (if fr_MinBytes _ <? 1 then 1 else _) with 1. cbn [fst snd]. rewrite Ht.
    rewrite bool_decide_eq_false_2 by done. cbn [orb]. destruct records; [done|]. reflexivity. }
  change (APIFetch =? APIApiVersions) with false. change (APIFetch =? APIMetadata) with false.
  change (APIFetch =? APIProduce) with false. change (APIFetch =? APIFetch) with true. cbn iota.
  unfold replied, fetch. destruct (FetchRequest_Decode fetchAPIVersion r) as [q r'] eqn:Hq. cbn [fst] in Hd. subst q.
  rewrite Hs. cbn [mbind go_bind]. by eexists.
Qed.

(** ** Properties *)

(** C36: a connection is served request by request.  On a stream of well-sized
    frames followed by anything that ends a connection (a torn frame, or a frame
    of length 0 or above 100 MiB), the loop dispatches exactly the framed
    requests in order, each on the state the previous one left, writes for each
    one that has a reply one frame with its correlation id in front of the body,
    in that order, stops at the first failed write, and reads nothing behind the
    end; and on any stream at all it stops whenever the dispatcher does. *)
Theorem connection_serves {S} (dispatch : nat -> RequestHeader -> Reader -> S -> go (S * option (list byte))) written s :
  (forall payloads tail, Forall payload_ok payloads -> ends tail ->
     handleConn dispatch written (concat (map frame payloads) ++ tail) s = serveAll dispatch written 0 payloads s) /\
  (forall stream, (forall i hdr r s, dispatch i hdr r s <> Spin) -> handleConn dispatch written stream s <> Spin).
Proof.
  split.
  - intros payloads tail Hp Ht. apply handle_serves; [done|done|lia].
  - intros stream Hd. apply handle_terminates; [done|lia].
Qed.

(** Two requests and a refused frame. *)
Lemma connection_serves_witness :
  let req k c := be_put 2 k ++ be_put 2 0 ++ be_put 4 c ++ be_put 2 (-1) in
  exists n, handleConn (fun _ hdr _ n => Ret (n + 1, if rh_APIKey hdr =? 18 then Some [Byte.x07] else None)) (fun _ => WOk)
    (concat (map frame [req 99 4; req 18 5]) ++ be_put 4 0 ++ req 18 6) 0 = Ret (n, be_put 4 5 ++ be_put 4 5 ++ [Byte.x07]).
Proof.
  intros req.
  rewrite (proj1 (connection_serves _ (fun _ => WOk) 0) [req 99 4; req 18 5] (be_put 4 0 ++ req 18 6)).
  - eexists. vm_compute. reflexivity.
  - repeat apply Forall_cons_2; try done; vm_compute; (split; [reflexivity|congruence]).
  - right. exists 0, (req 18 6). split; [reflexivity|]. split; [lia|by left].
Defined.

(** C4: replication end to end.  A follower whose log is a proper prefix of the
    leader's writes its fetch frame; the leader's connection loop decodes it, the
    fetch handler finds the partition it leads, reads at the follower's log end
    and records the follower's progress (which is what moves the high
    watermark); the response frame crosses back and the follower's round applies
    it: its log is then a strictly longer prefix of the leader's, byte for byte,
    with the leader's high watermark capped at what it holds. *)
Theorem replication_end_to_end env h topic p L bl ll F bf lf replicaID corr now polls :
  resolves (broker h) topic p (inl L) -> e_polls env = (now, id) :: polls ->
  log_rep L bl ll -> log_rep F bf lf -> contents bf lf `prefix_of` contents bl ll ->
  EarliestOffset F = EarliestOffset L -> LatestOffset F < LatestOffset L -> 0 <= LatestOffset F ->
  Forall (fun b => zlen b <= fetchMaxBytes) (contents bl ll) ->
  logSize (active F) + fetchMaxBytes < 2 ^ 31 -> LatestOffset L - baseOffset (active F) < 2 ^ 31 ->
  str_fits topic -> in_int 32 p -> in_int 32 corr -> 0 <= replicaID < 2 ^ 31 -> 0 <= HighWatermark L ->
  exists h' out F' bf' lf',
    handleConn (fun _ => Dispatch env) (fun _ => WOk) (encodeFetch replicaID topic p (LatestOffset F) corr) h = Ret (h', out) /\
    broker h' = RecordReplicaFetch now topic p replicaID (LatestOffset F) (broker h) /\
    sessionRound (fun _ => io_ok) out F = Ret (F', true, []) /\
    log_rep F' bf' lf' /\ contents bf lf `prefix_of` contents bf' lf' /\ contents bf' lf' `prefix_of` contents bl ll /\
    LatestOffset F < LatestOffset F' <= LatestOffset L /\
    HighWatermark F' = Z.max (HighWatermark F) (Z.min (HighWatermark L) (LatestOffset F')).
Proof.
  intros Hres Hpolls HL HF Hpre He Hlt Hpos Hsz Hroom Hspan Ht Hp Hc Hr Hh.
  destruct (log_active _ _ _ HL) as (Hact & _ & _). pose proof (sr_bound _ _ _ Hact) as Hb63.
  pose proof (lr_hwm _ _ _ HL) as Hhw. unfold HighWatermark, LatestOffset in *.
  destruct (follower_round L bl ll F bf lf fetchMaxBytes topic p corr (highWatermark L) (EarliestOffset L) [])
    as (records & F' & bf' & lf' & Hread & Hround & Hr' & Hp1 & Hp2 & Ho & _ & Hw); try done.
  { split; solve_int. }
  destruct (fetch_decodes replicaID topic p (nextOffset F) corr) as (payload & r & -> & Hpay & Hdec & Hq); try done; try solve_int.
  destruct (Read_next L bl ll F bf lf fetchMaxBytes HL HF Hpre He Hlt) as (rs & tl & n & Hread' & Hne & _ & Hch & _); [done|done|].
  assert (records <> []) as Hrec.
  { unfold LatestOffset in *. rewrite Hread in Hread'. injection Hread' as ->. destruct rs as [|b rs]; [done|]. destruct Hch as [Hat _].
    pose proof (batch_wf_pos b (ba_wf _ _ Hat)). intros Hz%(f_equal zlen). rewrite concat_cons, zlen_app, zlen_nil in Hz.
    pose proof (zlen_nonneg (concat rs)). lia. }
  destruct (dispatch_replica_fetch env h topic p L replicaID (nextOffset F) corr r records now polls) as (h' & Hdisp & Hbr); try done; [lia|].
  exists h', (fetchFrame corr (partitionResponse topic p (highWatermark L) (EarliestOffset L) records)), F', bf', lf'.
  unfold LatestOffset in *. split_and!; try done; try lia; [|by rewrite app_nil_r in Hround].
  rewrite <- (app_nil_r (frame payload)).
  assert (frame payload ++ [] = concat (map frame [payload]) ++ []) as -> by (cbn; by rewrite !app_nil_r).
  unfold handleConn. rewrite handle_serves; [|by repeat constructor; apply Hpay|by left; vm_compute|lia].
  cbn [serveAll]. rewrite Hdec, Hdisp. cbn [mbind go_bind rh_CorrelationID].
  by rewrite app_nil_r, <- writeResponse_frame, writeResponse_fetch.
Qed.

Lemma replication_end_to_end_witness :
  exists h' out F', handleConn (fun _ => Dispatch demoEnv) (fun _ => WOk) (encodeFetch 2 "orders" 0 0 1) demoHandler = Ret (h', out) /\
    sessionRound (fun _ => io_ok) out (freshLog demoConfig) = Ret (F', true, []) /\ 0 < LatestOffset F' <= 7.
Proof.
  destruct demo_rep as (bss & bs & Hrep). assert (LatestOffset demoLog = 7) as Hn by (vm_compute; reflexivity).
  destruct (replication_end_to_end demoEnv demoHandler "orders" 0 demoLog bss bs (freshLog demoConfig) [] [] 2 1 1000 [(6000, id)])
    as (h' & out & F' & bf' & lf' & H1 & _ & H2 & _ & _ & _ & H3 & _).
  - apply demo_resolves.
  - reflexivity.
  - exact Hrep.
  - apply freshLog_rep.
  - apply prefix_nil.
  - vm_compute. reflexivity.
  - vm_compute. reflexivity.
  - vm_compute. congruence.
  - eapply Forall_impl; [apply (batches_bounded demoLog bss bs 150 Hrep); apply (bool_decide_eq_true_1 _); vm_compute; reflexivity|].
    intros b Hb. cbn in Hb. change fetchMaxBytes with 1048576. lia.
  - vm_compute. reflexivity.
  - vm_compute. reflexivity.
  - vm_compute. reflexivity.
  - solve_int.
  - solve_int.
  - lia.
  - vm_compute. congruence.
  - exists h', out, F'. rewrite Hn in H3. split; [exact H1|]. split; [exact H2|exact H3].
Defined.
