(* ===== verification/ReplicaFetch.v ===== *)
(** * internal/server: what a leader's connection writes for a replica's fetch

    [Fetcher] follows leaders through frames; this file shows that the frames are
    the ones the server writes.  A fetcher's request, read by the connection loop
    ([Server]), dispatched to the fetch handler and long-polled there ([Handlers]),
    is answered with [Fetcher.leaderFrame] of the partition's log as the deciding
    poll found it, or with a refusal. *)

From S2P Require Import Prelude Kbytes Record Segment Log Recovery Protocol Replication Cluster Fsm Coordinator Offsets Broker Handlers Server Wal ObjectIndex Objects Uploads Backend Fetcher.

Section Replica.
Context (topic : string) (p replicaID off : Z).

(** The handlers find the partition open and well-formed, or refuse it. *)
Definition served (b : Node) : Prop :=
  (p < 0 \/ NumPartitions topic b <= p) \/
  (0 <= p < NumPartitions topic b /\ leads topic p b = Ret false) \/
  (0 <= p < NumPartitions topic b /\ leads topic p b = Ret true /\ exists L bss bs, logs b !! (topic, p) = Some L /\ log_rep L bss bs).

Lemma served_resolves b : served b ->
  (exists code, resolves b topic p (inr code) /\ (code = CodeNotLeader \/ code = CodeUnknownTopicOrPart)) \/
  (exists L bss bs, resolves b topic p (inl L) /\ log_rep L bss bs).
Proof.
  intros [H|[[H Hl]|(H & Hl & L & bss & bs & Hg & HL)]].
  - left. eexists. split; [by apply resolves_unknown|by right].
  - left. eexists. split; [by apply resolves_foreign|by left].
  - right. exists L, bss, bs. split; [by apply resolves_open|done].
Qed.

(** Recording a fetch moves a high watermark at most. *)
Lemma served_record now b : served b -> served (RecordReplicaFetch now topic p replicaID off b).
Proof.
  intros Hs. unfold RecordReplicaFetch. destruct (ctrl b) as [st|] eqn:Hc; [|done]. unfold advanceHighWatermark.
  assert (forall b', ctrl b' = ctrl b -> b_cfg b' = b_cfg b -> b_cluster b' = b_cluster b -> catalog b' = catalog b ->
    (logs b' = logs b \/ exists L h, logs b !! (topic, p) = Some L /\ logs b' = <[(topic, p) := Log.SetHighWatermark h L]> (logs b)) -> served b') as Hkeep.
  { intros b' E1 E2 E3 E4 El. unfold served, NumPartitions, leads, me in *. rewrite E1, E2, E3, E4.
    destruct Hs as [|[|(H & Hl & L & bss & bs & Hg & HL)]]; [by left|by right; left|]. right. right. split_and!; [lia..|done|].
    destruct El as [->|(L' & h & Hg' & ->)]; [by exists L, bss, bs|]. simplify_eq.
    eexists _, bss, bs. split; [apply lookup_insert_eq|]. by apply SetHighWatermark_rep. }
  destruct (Partition st topic p) as [pv|]; [|apply Hkeep; auto]. destruct (negb _); [apply Hkeep; auto|].
  unfold getLog. cbn [logs withFollowers]. destruct (logs b !! (topic, p)) as [l|] eqn:Hg; [|apply Hkeep; auto].
  apply Hkeep; try done. right. by eexists l, _.
Qed.

(** One poll of the handler. *)
Lemma fetchPartition_replica env now ti pi start b r : 0 <= replicaID -> resolves b topic p r ->
  fetchPartition env now replicaID topic ti pi (mkFetchPartition p off start fetchMaxBytes) b =
  match r with
  | inl L =>
    pr ← leaderAnswer p off (Log.HighWatermark L) (Log.EarliestOffset L) L;
    Ret (RecordReplicaFetch now topic p replicaID off b, (pr, zlen (default [] (fpr_Records pr)), fpr_ErrorCode pr =? CodeOffsetOutOfRange))
  | inr code => Ret (b, (leaderRefusal p code, 0, false))
  end.
Proof.
  intros Hr Hres. unfold fetchPartition. cbn [fp_Partition fp_MaxBytes fp_FetchOffset]. rewrite Hres. cbn [mbind go_bind].
  destruct r as [L|code]; [|done]. change (fetchMaxBytes <=? 0) with false. cbn iota. unfold leaderAnswer. cbn [bRead file_backend].
  destruct (Log.Read off fetchMaxBytes L) as [[data err]| |]; [|done..]. cbn [mbind go_bind].
  rewrite (proj2 (Z.leb_le 0 replicaID) Hr). cbn [mbind go_bind fpr_Records fpr_ErrorCode].
  by case_bool_decide; destruct data.
Qed.

(** The frame of a response of one partition. *)
Lemma writeResponse_answer corr pr :
  writeResponse corr (encode (FetchResponse_Encode fetchAPIVersion (mkFetchResponse 0 0 0 [mkFetchTopicResp topic [pr]]))) =
  answerFrame topic corr pr.
Proof.
  unfold writeResponse, answerFrame, fetchFrame, encode. erewrite Finish_wRaw.
  - set (payload := Finish _). f_equal. apply be_put_mod. unfold uwrap. change (256 ^ Z.of_nat 4) with (2 ^ 32). by rewrite Z.mod_mod.
  - unfold FetchResponse_Encode, FetchTopicResp_Encode, FetchPartitionResp_Encode. destruct (fpr_Records pr); apply _.
Qed.

(** What the handler may answer for the partition. *)
Definition replica_answer (pr : FetchPartitionResp) : Prop :=
  (exists L bss bs, log_rep L bss bs /\ leaderAnswer p off (Log.HighWatermark L) (Log.EarliestOffset L) L = Ret pr) \/
  (exists code, (code = CodeNotLeader \/ code = CodeUnknownTopicOrPart) /\ pr = leaderRefusal p code).

Lemma Read_returns L bss bs : log_rep L bss bs -> exists x, Log.Read off fetchMaxBytes L = Ret x.
Proof.
  intros HL. assert (in_int 32 fetchMaxBytes) as Hmax by (split; vm_compute; done).
  assert (file_holds L (Log.EarliestOffset L) (nextOffset L) (contents bss bs)) as Hh by (by exists bss, bs).
  destruct (file_read L _ _ _ off fetchMaxBytes Hh Hmax) as (Hend & Hout & Hin). 
  destruct (decide (off = nextOffset L)) as [He|He]; [eexists; by apply Hend|].
  destruct (decide (Log.EarliestOffset L <= off < nextOffset L)) as [Hi|Ho]; [|eexists; apply Hout; lia].
  destruct (Hin Hi) as (b & rs & tl & -> & _). by eexists.
Qed.

Lemma buildFetch_replica env now b : 0 <= replicaID -> served b ->
  exists b' pr total hard, buildFetch env now (replicaRequest replicaID topic p off) b =
      Ret (b', (mkFetchResponse 0 0 0 [mkFetchTopicResp topic [pr]], total, hard)) /\ replica_answer pr /\
    (b' = b \/ b' = RecordReplicaFetch now topic p replicaID off b).
Proof.
  intros Hr Hs. unfold buildFetch, fetchTopic. cbn [replicaRequest fr_Topics fr_ReplicaID mapS ft_Partitions ft_Name].
  destruct (served_resolves b Hs) as [(code & Hres & Hcode)|(L & bss & bs & Hres & HL)];
    rewrite (fetchPartition_replica env now _ _ _ b _ Hr Hres).
  - cbn [mbind go_bind map fst snd]. eexists b, (leaderRefusal p code), _, _. split_and!; [reflexivity| |by left]. right. by exists code.
  - destruct (Read_returns L bss bs HL) as [[data err] HR].
    assert (exists pr, leaderAnswer p off (Log.HighWatermark L) (Log.EarliestOffset L) L = Ret pr) as [pr Hpr].
    { unfold leaderAnswer. cbn [bRead file_backend]. rewrite HR. by eexists. }
    rewrite Hpr. cbn [mbind go_bind map fst snd]. eexists _, pr, _, _. split_and!; [reflexivity| |by right]. left. by exists L, bss, bs.
Qed.

Lemma fetch_loop_replica env polls wait deadline minBytes b : 0 <= replicaID -> served b ->
  Forall (fun x => forall b, served b -> served (x.2 b)) polls -> Exists (fun x => deadline <= x.1) polls ->
  exists b' pr, fetch_loop env polls (replicaRequest replicaID topic p off) wait deadline minBytes b =
    Ret (b', mkFetchResponse 0 0 0 [mkFetchTopicResp topic [pr]]) /\ replica_answer pr.
Proof.
  intros Hr. revert b. induction polls as [|[now f] polls IH]; intros b Hs Hf He; [by inversion He|].
  apply Forall_cons in Hf as [Hf1 Hf]. cbn [fetch_loop].
  destruct (buildFetch_replica env now (f b) Hr (Hf1 b Hs)) as (b1 & pr & total & hard & -> & Ha & Hb1). cbn [mbind go_bind].
  destruct (_ || _ || _ || _) eqn:Hdone; [by exists b1, pr|]. apply orb_false_iff in Hdone as [_ Hd].
  apply Exists_cons in He as [He|He]; [cbn in He; apply negb_false_iff, Z.ltb_lt in Hd; lia|].
  apply IH; [|done|done]. destruct Hb1 as [->| ->]; [by apply Hf1|]. by apply served_record, Hf1.
Qed.
End Replica.


