(* ===== verification/Listener.v ===== *)
(** * internal/server/server.go: accepting connections and shutting down

    [Serve] accepts connections in a loop, puts each into the set of open ones and
    starts a handler for it; [Close] closes every connection of the set, then the
    listener, and waits for the handlers.  The two run concurrently, and handlers
    end whenever their connection does, so the component is a state machine: one
    event per step of a goroutine that another one can see, in any order.  What a
    handler does with its connection is [Server]'s [handleConn]. *)

From S2P Require Import Prelude.

Abbreviation conn := positive.

(** Where the accept loop is: in Accept, holding a connection it has not put into
    the set, holding one it has, or returned. *)
Inductive loopState := LAccept | LAccepted (c : conn) | LTracked (c : conn) | LReturned (er : option error).
(** Where [Close] is: not called, past closing the open connections, waiting for
    the handlers, returned. *)
Inductive closeState := CNone | CSwept | CWaiting | CReturned.
#[global] Instance loopState_eq : EqDecision loopState. Proof. solve_decision. Defined.
#[global] Instance closeState_eq : EqDecision closeState. Proof. solve_decision. Defined.

(** [sv_open]: connections neither side has closed; [sv_running]: handlers in
    handleConn; [sv_leaving]: handlers past their deferred untracking, which the
    wait group still counts. *)
Record Server := mkServer {
  sv_conns : gset conn; sv_closed : bool; sv_listening : bool; sv_open : gset conn;
  sv_running : gset conn; sv_leaving : gset conn; sv_loop : loopState; sv_close : closeState }.

Definition NewFromListener : Server := mkServer ∅ false true ∅ ∅ ∅ LAccept CNone.

(** ** Operations *)

Definition withLoop (l : loopState) (s : Server) : Server :=
  mkServer (sv_conns s) (sv_closed s) (sv_listening s) (sv_open s) (sv_running s) (sv_leaving s) l (sv_close s).

Definition track (c : conn) (add : bool) (s : Server) : Server :=
  mkServer (if add then {[c]} ∪ sv_conns s else sv_conns s ∖ {[c]}) (sv_closed s) (sv_listening s) (sv_open s)
    (sv_running s) (sv_leaving s) (sv_loop s) (sv_close s).

(** A socket both sides may close; closing it twice does nothing. *)
Definition closeConn (c : conn) (s : Server) : Server :=
  mkServer (sv_conns s) (sv_closed s) (sv_listening s) (sv_open s ∖ {[c]}) (sv_running s) (sv_leaving s) (sv_loop s) (sv_close s).

(** [Serve] *)
Definition acceptConn (c : conn) (s : Server) : Server :=
  mkServer (sv_conns s) (sv_closed s) (sv_listening s) ({[c]} ∪ sv_open s) (sv_running s) (sv_leaving s) (LAccepted c) (sv_close s).
Definition acceptFailed (er : error) (s : Server) : Server :=
  withLoop (LReturned (if sv_closed s then None else Some er)) s.
Definition startHandler (c : conn) (s : Server) : Server :=
  mkServer (sv_conns s) (sv_closed s) (sv_listening s) (sv_open s) ({[c]} ∪ sv_running s) (sv_leaving s) LAccept (sv_close s).

(** The goroutine of a connection: [handleConn] closes it and the first deferred
    call removes it from the set; the second tells the wait group. *)
Definition handlerLeaves (c : conn) (s : Server) : Server :=
  let s := track c false (closeConn c s) in
  mkServer (sv_conns s) (sv_closed s) (sv_listening s) (sv_open s) (sv_running s ∖ {[c]}) ({[c]} ∪ sv_leaving s) (sv_loop s) (sv_close s).
Definition handlerDone (c : conn) (s : Server) : Server :=
  mkServer (sv_conns s) (sv_closed s) (sv_listening s) (sv_open s) (sv_running s) (sv_leaving s ∖ {[c]}) (sv_loop s) (sv_close s).

(** [Close]: under the lock, then the listener, then the wait. *)
Definition closeSweep (s : Server) : Server :=
  mkServer (sv_conns s) true (sv_listening s) (sv_open s ∖ sv_conns s) (sv_running s) (sv_leaving s) (sv_loop s) CSwept.
Definition closeListener (s : Server) : Server :=
  mkServer (sv_conns s) (sv_closed s) false (sv_open s) (sv_running s) (sv_leaving s) (sv_loop s) CWaiting.
Definition closeReturns (s : Server) : Server :=
  mkServer (sv_conns s) (sv_closed s) (sv_listening s) (sv_open s) (sv_running s) (sv_leaving s) (sv_loop s) CReturned.

(** ** Steps *)

Inductive event :=
  | EAccept (c : conn) | EAcceptFails (er : error) | ETrack | EStart
  | EHangUp (c : conn) | ELeave (c : conn) | EDone (c : conn)
  | ESweep | ECloseListener | EReturn.

(** [None]: the event cannot happen.  A client's hanging up, a bad frame and a
    failed write all end a connection ([EHangUp]); a handler leaves once its
    connection is closed. *)
Definition step (ev : event) (s : Server) : option Server :=
  match ev, sv_loop s with
  | EAccept c, LAccept =>
    if sv_listening s && negb (bool_decide (c ∈ sv_open s ∪ sv_conns s ∪ sv_running s ∪ sv_leaving s)) then Some (acceptConn c s) else None
  | EAcceptFails er, LAccept => Some (acceptFailed er s)
  | ETrack, LAccepted c => Some (withLoop (LTracked c) (track c true s))
  | EStart, LTracked c => Some (startHandler c s)
  | EHangUp c, _ => Some (closeConn c s)
  | ELeave c, _ => if bool_decide (c ∈ sv_running s /\ c ∉ sv_open s) then Some (handlerLeaves c s) else None
  | EDone c, _ => if bool_decide (c ∈ sv_leaving s) then Some (handlerDone c s) else None
  | ESweep, _ => if decide (sv_close s = CNone) then Some (closeSweep s) else None
  | ECloseListener, _ => if decide (sv_close s = CSwept) then Some (closeListener s) else None
  | EReturn, _ =>
    if decide (sv_close s = CWaiting) then (if bool_decide (sv_running s ∪ sv_leaving s = ∅) then Some (closeReturns s) else None) else None
  | _, _ => None
  end.

(** The same as a relation, an event per rule. *)
Inductive stepped : event -> Server -> Server -> Prop :=
  | S_accept c s : sv_loop s = LAccept -> sv_listening s = true -> c ∉ sv_open s ∪ sv_conns s ∪ sv_running s ∪ sv_leaving s ->
      stepped (EAccept c) s (acceptConn c s)
  | S_acceptFails er s : sv_loop s = LAccept -> stepped (EAcceptFails er) s (acceptFailed er s)
  | S_track c s : sv_loop s = LAccepted c -> stepped ETrack s (withLoop (LTracked c) (track c true s))
  | S_start c s : sv_loop s = LTracked c -> stepped EStart s (startHandler c s)
  | S_hangUp c s : stepped (EHangUp c) s (closeConn c s)
  | S_leave c s : c ∈ sv_running s -> c ∉ sv_open s -> stepped (ELeave c) s (handlerLeaves c s)
  | S_done c s : c ∈ sv_leaving s -> stepped (EDone c) s (handlerDone c s)
  | S_sweep s : sv_close s = CNone -> stepped ESweep s (closeSweep s)
  | S_closeListener s : sv_close s = CSwept -> stepped ECloseListener s (closeListener s)
  | S_return s : sv_close s = CWaiting -> sv_running s ∪ sv_leaving s = ∅ -> stepped EReturn s (closeReturns s).

Lemma step_stepped ev s s' : step ev s = Some s' <-> stepped ev s s'.
Proof.
  split.
  - unfold step. intros Hs. destruct ev; destruct (sv_loop s) eqn:Hl; repeat case_match; simplify_eq;
      rewrite ?andb_true_iff, ?negb_true_iff, ?bool_decide_eq_true, ?bool_decide_eq_false in *; destruct_and?; by constructor.
  - destruct 1; unfold step; repeat match goal with H : sv_loop _ = _ |- _ => rewrite H | H : sv_listening _ = _ |- _ => rewrite H end; try done;
      rewrite ?bool_decide_eq_false_2, ?bool_decide_eq_true_2, ?decide_True by done; try done; by destruct (sv_loop _).
Qed.

(** Runs whose events satisfy [ok]. *)
Inductive steps (ok : event -> Server -> bool) : Server -> Server -> Prop :=
  | steps_nil s : steps ok s s
  | steps_cons s1 s2 s3 ev : steps ok s1 s2 -> ok ev s2 = true -> step ev s2 = Some s3 -> steps ok s1 s3.

(** The accept loop holds no connection. *)
Definition idle (l : loopState) : bool := match l with LAccept | LReturned _ => true | _ => false end.
(** No connection is accepted, or on its way into the set, once [Close] has swept. *)
Definition quiet (ev : event) (s : Server) : bool :=
  match ev with
  | ESweep => idle (sv_loop s)
  | EAccept _ => bool_decide (sv_close s = CNone)
  | _ => true
  end.

(** ** Invariants *)

Definition held (l : loopState) : gset conn := match l with LAccepted c | LTracked c => {[c]} | _ => ∅ end.
Definition entered (l : loopState) : gset conn := match l with LTracked c => {[c]} | _ => ∅ end.

(** Every open connection is in the set or in the accept loop's hands; the set is
    that of the handlers, and of the connection one is about to be started for. *)
Record tracked (s : Server) : Prop := {
  tr_open : sv_open s ⊆ sv_conns s ∪ held (sv_loop s);
  tr_conns : sv_conns s = sv_running s ∪ entered (sv_loop s);
  tr_fresh : held (sv_loop s) ## sv_running s ∪ sv_leaving s;
  tr_closed : sv_closed s = bool_decide (sv_close s <> CNone);
  tr_serve : sv_loop s = LReturned None -> sv_closed s = true }.

(** Once [Close] has swept nothing is open and the loop holds nothing; once it
    returned no handler is left. *)
Record swept (s : Server) : Prop := {
  sw_loop : sv_close s <> CNone -> idle (sv_loop s) = true;
  sw_open : sv_close s <> CNone -> sv_open s = ∅;
  sw_done : sv_close s = CReturned -> sv_running s ∪ sv_leaving s = ∅ }.

Lemma tracked_new : tracked NewFromListener.
Proof. split; cbn; set_solver. Qed.


Lemma step_tracked ev s s' : tracked s -> stepped ev s s' -> tracked s'.
Proof.
  intros [H1 H2 H3 H4 H5] Hs. destruct Hs as [c s Hl Hn Hc|er s Hl|c s Hl|c s Hl|c s|c s Hr Ho|c s Hr|s Hcl|s Hcl|s Hcl He];
    try rewrite Hl in *; cbn in *.
  - split; cbn; [set_solver|done|set_solver|done|done].
  - split; cbn; [set_solver|done|done|done|]. by destruct (sv_closed s).
  - split; cbn; [set_solver|rewrite H2; clear; set_solver|done|done|done].
  - split; cbn; [rewrite H2 in *; clear -H1; set_solver|rewrite H2; clear; set_solver|clear; set_solver|done|done].
  - split; cbn; [clear -H1; set_solver|done|done|done|done].
  - assert (held (sv_loop s) ## {[c]}) as Hne by (clear -H3 Hr; set_solver).
    assert (entered (sv_loop s) ⊆ held (sv_loop s)) as Hen by (destruct (sv_loop s); cbn; set_solver).
    split; cbn; [clear -H1 Ho; set_solver|rewrite H2; clear -Hne Hen; set_solver|clear -H3 Hr; set_solver|done|done].
  - split; cbn; [done|done|clear -H3; set_solver|done|done].
  - split; cbn; [clear -H1; set_solver|done|done|done|done].
  - rewrite Hcl in *. by split.
  - rewrite Hcl in *. by split.
Qed.

Lemma step_swept ev s s' : tracked s -> swept s -> quiet ev s = true -> stepped ev s s' -> swept s'.
Proof.
  intros [T1 T2 _ _ _] [W1 W2 W3] Hq Hs. destruct Hs as [c s Hl Hn Hc|er s Hl|c s Hl|c s Hl|c s|c s Hr Ho|c s Hr|s Hcl|s Hcl|s Hcl He]; cbn in Hq.
  - apply bool_decide_eq_true in Hq. split; cbn; rewrite Hq; done.
  - split; cbn; [done|done|exact W3].
  - assert (sv_close s = CNone) as Hcl by (destruct (decide (sv_close s = CNone)) as [?|Hn]; [done|]; specialize (W1 Hn); by rewrite Hl in W1).
    split; cbn; rewrite Hcl; done.
  - assert (sv_close s = CNone) as Hcl by (destruct (decide (sv_close s = CNone)) as [?|Hn]; [done|]; specialize (W1 Hn); by rewrite Hl in W1).
    split; cbn; rewrite Hcl; done.
  - split; cbn; [done| |done]. intros Hn. rewrite (W2 Hn). clear. set_solver.
  - split; cbn; [done| |]; intros Hn.
    + rewrite (W2 Hn). clear. set_solver.
    + specialize (W3 Hn). clear -W3 Hr. set_solver.
  - split; cbn; [done|done|]. intros Hn. specialize (W3 Hn). clear -W3 Hr. set_solver.
  - split; cbn; [done| |done]. intros _. assert (held (sv_loop s) = ∅) as Hh by (by destruct (sv_loop s)). rewrite Hh in T1. clear -T1. set_solver.
  - split; cbn; [intros _; apply W1; by rewrite Hcl|intros _; apply W2; by rewrite Hcl|done].
  - split; cbn; [intros _; apply W1; by rewrite Hcl|intros _; apply W2; by rewrite Hcl|done].
Qed.

Lemma steps_tracked ok s : steps ok NewFromListener s -> tracked s.
Proof.
  remember NewFromListener as s0 eqn:E. induction 1 as [s|s1 s2 s3 ev _ IH _ Hs%step_stepped]; [subst; apply tracked_new|].
  by eapply step_tracked; [apply IH|].
Qed.

Lemma steps_swept s : steps quiet NewFromListener s -> swept s.
Proof.
  intros Hr. remember NewFromListener as s0 eqn:E. induction Hr as [s|s1 s2 s3 ev Hr IH Hq Hs%step_stepped].
  - subst. by split; cbn.
  - subst. eapply step_swept; [by eapply steps_tracked|by apply IH|done|done].
Qed.

(** ** Shutting down *)

(** What the server does by itself once [Close] has been called. *)
Definition internal (ev : event) (s : Server) : bool :=
  match ev with ELeave _ | EDone _ | ECloseListener | EReturn => true | _ => false end.

Lemma steps_trans ok s1 s2 s3 : steps ok s1 s2 -> steps ok s2 s3 -> steps ok s1 s3.
Proof. intros H1 H2. induction H2 as [|s2 s3 s4 ev _ IH Hok Hs]; [done|]. by eapply steps_cons; [apply IH| |]. Qed.

Lemma steps_one ok s s' ev : ok ev s = true -> stepped ev s s' -> steps ok s s'.
Proof. intros Hok Hs%step_stepped. eapply steps_cons; [apply steps_nil|done|done]. Qed.

(** Handlers of closed connections leave, one by one, and the wait ends. *)
Lemma drains s : sv_close s = CWaiting -> sv_open s = ∅ -> exists s', steps internal s s' /\ sv_close s' = CReturned.
Proof.
  remember (2 * size (sv_running s) + size (sv_leaving s))%nat as n eqn:Hn. revert s Hn.
  induction (lt_wf n) as [n _ IH]; intros s -> Hc Ho.
  destruct (set_choose_or_empty (sv_leaving s)) as [[c Hl]|Hl%leibniz_equiv].
  - destruct (IH (2 * size (sv_running s) + size (sv_leaving s ∖ {[c]}))%nat) with (s := handlerDone c s) as (s' & Hs & Hr); [|done..|].
    { assert (size (sv_leaving s ∖ {[c]}) < size (sv_leaving s))%nat; [|lia]. apply subset_size. set_solver. }
    exists s'. split; [|done]. eapply steps_trans; [by eapply (steps_one _ _ _ (EDone c)); [|apply S_done]|done].
  - destruct (set_choose_or_empty (sv_running s)) as [[c Hr]|Hr%leibniz_equiv].
    + destruct (IH (2 * size (sv_running s ∖ {[c]}) + size ({[c]} ∪ sv_leaving s))%nat) with (s := handlerLeaves c s) as (s' & Hs & Hd); [|done|done| |].
      { assert (size (sv_running s ∖ {[c]}) < size (sv_running s))%nat by (apply subset_size; set_solver).
        rewrite Hl, union_empty_r_L, size_singleton, size_empty. lia. }
      { cbn. rewrite Ho. set_solver. }
      exists s'. split; [|done]. eapply steps_trans; [|done]. eapply (steps_one _ _ _ (ELeave c)); [done|]. apply S_leave; [done|]. rewrite Ho. set_solver.
    + exists (closeReturns s). split; [|done]. eapply (steps_one _ _ _ EReturn); [done|]. apply S_return; [done|]. by rewrite Hl, Hr, union_empty_r_L.
Qed.

(** ** Properties *)

(** C37: connections are accounted for and shutdown drains them.  In every reachable
    state, whatever the interleaving, each connection that is still open is in the
    set [Close] goes through or in the accept loop's hands, and Serve reports no
    error only after Close was called.  When no accept overlaps Close, the server
    can finish the shutdown by itself at any point, without any client hanging up,
    and once Close has returned nothing is open, tracked or running, then and ever
    after. *)
Theorem close_drains s :
  (steps (fun _ _ => true) NewFromListener s ->
     (forall c, c ∈ sv_open s -> c ∈ sv_conns s \/ sv_loop s = LAccepted c) /\
     (sv_loop s = LReturned None -> sv_close s <> CNone)) /\
  (steps quiet NewFromListener s ->
     (sv_close s <> CNone -> sv_close s = CReturned \/ exists s', steps internal s s' /\ sv_close s' = CReturned) /\
     (sv_close s = CReturned -> sv_open s = ∅ /\ sv_conns s = ∅ /\ sv_running s = ∅ /\ sv_leaving s = ∅)).
Proof.
  split.
  - intros [T1 T2 _ T4 T5]%steps_tracked. split.
    + intros c Hc. specialize (T1 c Hc). rewrite T2 in *. destruct (sv_loop s); cbn in *; set_solver.
    + intros Hl. specialize (T5 Hl). rewrite T4 in T5. by apply bool_decide_eq_true in T5.
  - intros Hr. pose proof (steps_tracked _ _ Hr) as [T1 T2 _ _ _]. apply steps_swept in Hr as [W1 W2 W3]. split.
    + intros Hn. destruct (sv_close s) eqn:Hc; [done| | |by left]; right.
      * destruct (drains (closeListener s)) as (s' & Hs & Hd); [done|by apply W2|]. exists s'. split; [|done].
        eapply steps_trans; [|done]. by eapply (steps_one _ _ _ ECloseListener); [|apply S_closeListener].
      * apply drains; [done|by apply W2].
    + intros Hc. specialize (W3 Hc). rewrite Hc in *. specialize (W1 ltac:(done)). specialize (W2 ltac:(done)).
      assert (entered (sv_loop s) = ∅) as He by (by destruct (sv_loop s)). rewrite He in T2. clear -T2 W2 W3. set_solver.
Qed.

(** Events in order, for concrete runs. *)
Fixpoint exec (ok : event -> Server -> bool) (evs : list event) (s : Server) : option Server :=
  match evs with
  | [] => Some s
  | ev :: evs => if ok ev s then s' ← step ev s; exec ok evs s' else None
  end.

Lemma exec_steps ok evs s s' : exec ok evs s = Some s' -> steps ok s s'.
Proof.
  revert s. induction evs as [|ev evs IH]; intros s He; cbn in He; [injection He as <-; apply steps_nil|].
  destruct (ok ev s) eqn:Hok; [|done]. destruct (step ev s) as [s2|] eqn:Hs; [|done]. cbn in He.
  eapply steps_trans; [eapply steps_one; [done|by apply step_stepped]|by apply IH].
Qed.

(** Two connections, one hangs up, Close sweeps the other. *)
Definition demoShutdown : list event := [EAccept 1; ETrack; EStart; EAccept 2; ETrack; EStart; EHangUp 1; ESweep; ELeave 1].

Lemma close_drains_witness :
  exists s s', exec quiet demoShutdown NewFromListener = Some s /\ sv_running s = {[2%positive]} /\
    (sv_close s = CReturned \/ steps internal s s' /\ sv_close s' = CReturned).
Proof.
  destruct (exec quiet demoShutdown NewFromListener) as [s|] eqn:E; [|vm_compute in E; discriminate E].
  destruct (close_drains s) as [_ Hq]. destruct (Hq (exec_steps _ _ _ _ E)) as [Hd _].
  assert (sv_close s = CSwept /\ sv_running s = {[2%positive]}) as [Hc Hr] by (vm_compute in E; injection E as <-; split; reflexivity).
  destruct Hd as [Hd|(s' & Hs & Hd)]; [rewrite Hc; discriminate|rewrite Hc in Hd; discriminate Hd|].
  exists s, s'. split; [reflexivity|]. split; [exact Hr|]. right. split; [exact Hs|exact Hd].
Defined.

(** a connection accepted while Close runs outlives it.  Accept hands the loop a
    connection, Close runs from start to end, and only then the loop tracks the
    connection and starts its handler: Close has returned, the connection is open
    and served. *)
Theorem late_connection_survives_close :
  exists s, exec (fun _ _ => true) [EAccept 1; ESweep; ECloseListener; EReturn; ETrack; EStart] NewFromListener = Some s /\
    sv_close s = CReturned /\ bool_decide (1%positive ∈ sv_open s) = true /\ bool_decide (1%positive ∈ sv_running s) = true.
Proof. eexists. split; [vm_compute; reflexivity|]. split_and!; vm_compute; reflexivity. Qed.
