(* ===== verification/Metrics.v ===== *)
(** * internal/metrics/metrics.go and refreshGauges of cmd/mqbroker/main.go

    On every scrape the collector refreshes the gauges from the broker, the group
    coordinator and the offset store.  A gauge vector is the map from its labels to
    the value last set; a gauge is exported as a float64, the rounding of which is
    left out.  Counters and histograms are calls of the Prometheus client. *)

From Stdlib Require Import Ascii.
From stdpp Require Import sorting.
From S2P Require Import Prelude Strconv Kbytes Record Segment Log Recovery Protocol Replication Cluster Fsm Coordinator Offsets Broker Handlers.

(** ** Labels *)

Definition apiNames : list (Z * string) :=
  [(0, "Produce"); (1, "Fetch"); (2, "ListOffsets"); (3, "Metadata"); (8, "OffsetCommit"); (9, "OffsetFetch"); (10, "FindCoordinator");
   (11, "JoinGroup"); (12, "Heartbeat"); (13, "LeaveGroup"); (14, "SyncGroup"); (15, "DescribeGroups"); (16, "ListGroups");
   (18, "ApiVersions"); (19, "CreateTopics"); (37, "CreatePartitions")]%string.
Definition APIName (key : Z) : string :=
  match (list_to_map apiNames : gmap Z string) !! key with Some n => n | None => Itoa key end.
Definition PartitionLabel (p : Z) : string := Itoa p.

(** ** Gauges *)

Record gauges := mkGauges {
  TopicsTotal : Z; PartitionsTotal : Z;
  PartitionLEO : gmap (string * string) Z; PartitionHWM : gmap (string * string) Z; PartitionSize : gmap (string * string) Z;
  GroupMembers : gmap string Z; GroupLag : gmap (string * string * string) Z }.

Definition setPartition (t pl : string) (leo hwm size : Z) (g : gauges) : gauges :=
  mkGauges (TopicsTotal g) (PartitionsTotal g) (<[(t, pl) := leo]> (PartitionLEO g)) (<[(t, pl) := hwm]> (PartitionHWM g))
    (<[(t, pl) := size]> (PartitionSize g)) (GroupMembers g) (GroupLag g).
Definition setTotals (topics parts : Z) (g : gauges) : gauges :=
  mkGauges topics parts (PartitionLEO g) (PartitionHWM g) (PartitionSize g) (GroupMembers g) (GroupLag g).
Definition setMembers (group : string) (n : Z) (g : gauges) : gauges :=
  mkGauges (TopicsTotal g) (PartitionsTotal g) (PartitionLEO g) (PartitionHWM g) (PartitionSize g) (<[group := n]> (GroupMembers g)) (GroupLag g).
Definition setLag (group topic pl : string) (lag : Z) (g : gauges) : gauges :=
  mkGauges (TopicsTotal g) (PartitionsTotal g) (PartitionLEO g) (PartitionHWM g) (PartitionSize g) (GroupMembers g)
    (<[(group, topic, pl) := lag]> (GroupLag g)).

Definition leoKey (t pl : string) : string := (t +:+ "/" +:+ pl)%string.

(** The loop over the partitions of a topic, from [p] on. *)
Fixpoint parts_loop (e : tp -> openIO) (t : string) (p : Z) (n : nat) (b : Node) (g : gauges) (leo : gmap string Z)
    : go (Node * gauges * gmap string Z) :=
  match n with
  | O => Ret (b, g, leo)
  | S n =>
    let pl := PartitionLabel p in
    '(b, r) ← LocalLog e t p b;
    match r with
    | inr _ => parts_loop e t (p + 1) n b g leo
    | inl log =>
      let last := LatestOffset log in
      parts_loop e t (p + 1) n b (setPartition t pl last (HighWatermark log) (Log.Size log) g) (<[leoKey t pl := last]> leo)
    end
  end.

Fixpoint topics_loop (e : tp -> openIO) (ts : list (string * Z)) (b : Node) (g : gauges) (leo : gmap string Z) (total : Z)
    : go (Node * gauges * gmap string Z * Z) :=
  match ts with
  | [] => Ret (b, g, leo, total)
  | (t, n) :: ts =>
    '(b, g, leo) ← parts_loop e t 0 (Z.to_nat n) b g leo;
    topics_loop e ts b g leo (int64 (total + n))
  end.

(** The number of members of each group that is still there. *)
Definition membersStep (iter : gmap string member -> list (string * member)) (c : gmap string group) (g : gauges) (x : string * string * string) : gauges :=
  match DescribeGroup iter x.1.1 c with
  | None => g
  | Some d => setMembers x.1.1 (zlen (d_Members d)) g
  end.

(** The lag of one committed offset whose partition's log end is known. *)
Definition lagStep (leo : gmap string Z) (g : gauges) (c : string * string * Z * Z) : gauges :=
  let '(group, topic, p, off) := c in
  let pl := PartitionLabel p in
  match leo !! leoKey topic pl with
  | None => g
  | Some last =>
    let lag := int64 (last - off) in
    setLag group topic pl (if lag <? 0 then 0 else lag) g
  end.

Definition refreshGauges (e : tp -> openIO) (iter : gmap string member -> list (string * member)) (c : gmap string group) (s : OffsetStore) (b : Node) (g : gauges) : go (Node * gauges) :=
  let topics := KnownTopics b in
  let g := setTotals (zlen topics) (PartitionsTotal g) g in
  '(b, g, leo, total) ← topics_loop e topics b g ∅ 0;
  let g := setTotals (TopicsTotal g) total g in
  let g := foldl (membersStep iter c) g (ListGroups c) in
  Ret (b, foldl (lagStep leo) g (ListCommitted s)).

(** ** Lemmas *)

Lemma leoKey_inj t p t' p' : 0 <= p < 2 ^ 31 -> in_int 32 p' -> leoKey t (Itoa p) = leoKey t' (Itoa p') -> t = t' /\ p = p'.
Proof.
  intros Hp Hp' Heq. unfold leoKey in Heq.
  change ((t +:+ "/" +:+ Itoa p)%string) with ((t +:+ String "/"%char (Itoa p))%string) in Heq.
  change ((t' +:+ "/" +:+ Itoa p')%string) with ((t' +:+ String "/"%char (Itoa p'))%string) in Heq.
  assert (no_char "/"%char (Itoa p') = true) as Hno.
  { unfold Itoa. destruct (p' <? 0); [cbn|]; by apply put_digits_no_char. }
  pose proof (LastIndex_app "/"%char t (Itoa p) ltac:(apply Itoa_no_char; [lia|done])) as H1.
  pose proof (LastIndex_app "/"%char t' (Itoa p') Hno) as H2. rewrite Heq, H2 in H1. injection H1 as Hlen.
  pose proof (string_take_app t (String "/"%char (Itoa p))) as T1. rewrite Heq, <- Hlen, string_take_app in T1.
  pose proof (string_drop_S t "/"%char (Itoa p)) as D1. rewrite Heq, <- Hlen, string_drop_S in D1.
  split; [done|]. apply (f_equal (ParseInt 64)) in D1. rewrite !ParseInt_Itoa in D1 by solve_int. by injection D1.
Qed.

Section Refresh.
Context (b : Node) (r : string -> Z -> Log + error).
(** What the node answers for its partitions, without opening any. *)
Context (Hlocal : forall t n p, (t, n) ∈ KnownTopics b -> 0 <= p < n -> forall e, LocalLog e t p b = Ret (b, r t p)).

Definition logAt (x : string * Z) : option Log := match r x.1 x.2 with inl l => Some l | inr _ => None end.

(** The partitions of the known topics, in the order of the loops. *)
Definition partsFrom (t : string) (p : Z) (n : nat) : list (string * Z) := (fun i => (t, p + Z.of_nat i)) <$> seq 0 n.
Definition partsOf (ts : list (string * Z)) : list (string * Z) := concat (map (fun '(t, n) => partsFrom t 0 (Z.to_nat n)) ts).

Definition gaugeStep (g : gauges) (x : string * Z) : gauges :=
  match logAt x with Some l => setPartition x.1 (Itoa x.2) (LatestOffset l) (HighWatermark l) (Log.Size l) g | None => g end.
Abbreviation leoStep := (fill (fun x : string * Z => leoKey x.1 (Itoa x.2)) (fun x => LatestOffset <$> logAt x)).

Lemma parts_loop_folds e t p n g leo : (forall i, (i < n)%nat -> LocalLog e t (p + Z.of_nat i) b = Ret (b, r t (p + Z.of_nat i))) ->
  parts_loop e t p n b g leo = Ret (b, foldl gaugeStep g (partsFrom t p n), foldl leoStep leo (partsFrom t p n)).
Proof.
  revert p g leo. induction n as [|n IH]; intros p g leo Hl; [done|]. cbn [parts_loop].
  pose proof (Hl 0%nat ltac:(lia)) as H0. change (Z.of_nat 0) with 0 in H0. rewrite Z.add_0_r in H0. rewrite H0. cbn [mbind go_bind].
  assert (partsFrom t p (S n) = (t, p) :: partsFrom t (p + 1) n) as ->.
  { unfold partsFrom. cbn [seq fmap list_fmap]. change (Z.of_nat 0) with 0. rewrite Z.add_0_r. f_equal.
    rewrite <- seq_shift, <- list_fmap_compose. apply list_fmap_ext. intros i x _. cbn. f_equal. lia. }
  assert (forall i, (i < n)%nat -> LocalLog e t (p + 1 + Z.of_nat i) b = Ret (b, r t (p + 1 + Z.of_nat i))) as Hl'.
  { intros i Hi. replace (p + 1 + Z.of_nat i) with (p + Z.of_nat (S i)) by lia. apply Hl. lia. }
  cbn [foldl]. unfold gaugeStep at 2, fill at 2, logAt. cbn [fst snd]. destruct (r t p) as [l|er]; by rewrite IH.
Qed.

Lemma topics_loop_folds e ts g leo total : (forall x, x ∈ ts -> x ∈ KnownTopics b) ->
  exists total', topics_loop e ts b g leo total = Ret (b, foldl gaugeStep g (partsOf ts), foldl leoStep leo (partsOf ts), total') /\
    total' = foldl (fun a x => int64 (a + x.2)) total ts.
Proof.
  revert g leo total. induction ts as [|[t n] ts IH]; intros g leo total Hts; [by exists total|]. cbn [topics_loop].
  rewrite parts_loop_folds.
  - cbn [mbind go_bind]. unfold partsOf. cbn [map concat]. rewrite !foldl_app. cbn [foldl]. apply IH. intros x Hx. apply Hts. by right.
  - intros i Hi. apply (Hlocal t n); [apply Hts; left|lia].
Qed.

Lemma partsOf_elem ts t p : (t, p) ∈ partsOf ts <-> exists n, (t, n) ∈ ts /\ 0 <= p < n.
Proof.
  unfold partsOf. rewrite list_elem_of_In, in_concat. split.
  - intros (l & Hl & Hin). apply in_map_iff in Hl as ([t' n] & <- & Ht). apply list_elem_of_In, list_elem_of_fmap in Hin as (i & [= -> ->] & Hi).
    apply elem_of_seq in Hi. exists n. split; [by apply list_elem_of_In|lia].
  - intros (n & Ht & Hp). exists (partsFrom t 0 (Z.to_nat n)). split; [apply in_map_iff; exists (t, n); split; [done|by apply list_elem_of_In]|].
    apply list_elem_of_In, list_elem_of_fmap. exists (Z.to_nat p). split; [f_equal; lia|]. apply elem_of_seq. lia.
Qed.

Lemma partsOf_NoDup ts : NoDup ts.*1 -> NoDup (partsOf ts).
Proof.
  induction ts as [|[t n] ts IH]; intros Hnd; [constructor|]. cbn in Hnd. apply NoDup_cons in Hnd as [Ht Hnd]. unfold partsOf. cbn [map concat].
  apply NoDup_app. split_and!; [|intros [t' p] Hx Hin|by apply IH].
  - apply NoDup_fmap_2_strong; [|apply NoDup_seq]. intros i j _ _ [= Hij]. lia.
  - apply list_elem_of_fmap in Hx as (i & [= -> ->] & _). apply (partsOf_elem ts t (0 + Z.of_nat i)) in Hin as (m & Hm & _).
    apply Ht. by apply (list_elem_of_fmap_2 fst) in Hm.
Qed.
End Refresh.

Lemma foldl_keeps {S T A} (proj : S -> T) (f : S -> A -> S) l s : (forall s a, proj (f s a) = proj s) -> proj (foldl f s l) = proj s.
Proof. intros Hf. revert s. induction l as [|a l IH]; intros s; [done|]. cbn. by rewrite IH. Qed.

(** Topic names occur once. *)
Lemma KnownTopics_NoDup b : NoDup (KnownTopics b).*1.
Proof.
  unfold KnownTopics. destruct (ctrl b) as [st|].
  - unfold Topics. rewrite merge_sort_Permutation.
    match goal with |- NoDup ?x => assert (x = (map_to_list (Topics_ st)).*1) as -> end; [|apply NoDup_fst_map_to_list].
    induction (map_to_list (Topics_ st)) as [|[name t] l IH]; [done|]. cbn in *. by f_equal.
  - rewrite merge_sort_Permutation. apply NoDup_fst_map_to_list.
Qed.

Lemma ListGroups_ids c : (forall id gr, c !! id = Some gr -> g_id gr = id) ->
  NoDup ((fun x => x.1.1) <$> ListGroups c) /\ forall id, id ∈ ((fun x => x.1.1) <$> ListGroups c) <-> is_Some (c !! id).
Proof.
  intros Hid. unfold ListGroups.
  assert ((fun x : string * string * string => x.1.1) <$> map (fun '(_, g) => (g_id g, protocolType g, state_String (g_state g))) (map_to_list c)
    = (map_to_list c).*1) as Heq.
  { assert (forall x, x ∈ map_to_list c -> g_id x.2 = x.1) as Hx by (intros [i gr] Hi%elem_of_map_to_list; by apply Hid).
    induction (map_to_list c) as [|[i gr] l IH]; [done|]. cbn in *. f_equal; [by apply (Hx (i, gr)); left|]. apply IH. intros x Hin. apply Hx. by right. }
  split.
  - rewrite merge_sort_Permutation, Heq. apply NoDup_fst_map_to_list.
  - intros id. rewrite merge_sort_Permutation, Heq. rewrite list_elem_of_fmap. split.
    + intros ([i gr] & -> & Hi%elem_of_map_to_list). by eexists.
    + intros [gr Hg]. exists (id, gr). split; [done|]. by apply elem_of_map_to_list.
Qed.

Abbreviation lagKey := (fun x : string * string * Z * Z => (x.1.1.1, x.1.1.2, Itoa x.1.2)).
Abbreviation lagVal leo := (fun x : string * string * Z * Z =>
  (fun last => let lag := int64 (last - x.2) in if lag <? 0 then 0 else lag) <$> leo !! leoKey x.1.1.2 (Itoa x.1.2)).

Lemma lagStep_fill leo g x : GroupLag (lagStep leo g x) = fill lagKey (lagVal leo) (GroupLag g) x.
Proof. destruct x as [[[grp t] p] off]. unfold lagStep, fill, PartitionLabel. cbn. by destruct (leo !! _). Qed.

Lemma ListCommitted_keys s : (forall k, is_Some (cache s !! k) -> in_int 32 k.2) ->
  NoDup (lagKey <$> ListCommitted s) /\ forall g t p cm, cache s !! (g, t, p) = Some cm -> (g, t, p, c_offset cm) ∈ ListCommitted s.
Proof.
  intros Hk. unfold ListCommitted. split.
  - assert (forall x, x ∈ map_to_list (cache s) -> in_int 32 x.1.2) as Hx by (intros [k cm] Hi%elem_of_map_to_list; apply Hk; by eexists).
    pose proof (NoDup_fst_map_to_list (cache s)) as Hnd.
    induction (map_to_list (cache s)) as [|[[[g t] p] cm] l IH]; [constructor|]. cbn in Hnd. apply NoDup_cons in Hnd as [Hni Hnd]. cbn.
    apply NoDup_cons. split; [|apply IH; [intros x Hin; apply Hx; by right|done]].
    intros Hin. apply Hni. apply list_elem_of_fmap in Hin as ([[[g' t'] p'] off'] & [= -> -> Heq] & Hin).
    apply list_elem_of_In, in_map_iff in Hin as ([[[g2 t2] p2] cm2] & [= -> -> -> _] & Hin%list_elem_of_In).
    assert (p' = p) as ->.
    { apply (f_equal (ParseInt 64)) in Heq.
      pose proof (Hx (g', t', p', cm2) ltac:(by right)) as R1. pose proof (Hx (g', t', p, cm) ltac:(by left)) as R2. cbn in R1, R2.
      rewrite !ParseInt_Itoa in Heq by solve_int. by injection Heq. }
    by apply (list_elem_of_fmap_2 fst) in Hin.
  - intros g t p cm Hc. apply list_elem_of_In, in_map_iff. exists ((g, t, p), cm). split; [done|]. by apply list_elem_of_In, elem_of_map_to_list.
Qed.

Section Lookups.
Context (r : string -> Z -> Log + error) (items : list (string * Z)).
Abbreviation pkey := (fun x : string * Z => (x.1, Itoa x.2)).

Lemma labels_NoDup : NoDup items -> (forall x, x ∈ items -> 0 <= x.2 < 2 ^ 31) -> NoDup (pkey <$> items).
Proof.
  intros Hnd Hsm. apply NoDup_fmap_2_strong; [|done]. intros [t1 p1] [t2 p2] H1%Hsm H2%Hsm [= -> Hp]. cbn in *. f_equal.
  apply (f_equal (ParseInt 64)) in Hp. rewrite !ParseInt_Itoa in Hp by solve_int. by injection Hp.
Qed.

(** The log ends the loops collect. *)
Lemma leo_lookup t p : NoDup items -> (forall x, x ∈ items -> 0 <= x.2 < 2 ^ 31) -> in_int 32 p ->
  foldl (fill (fun x : string * Z => leoKey x.1 (Itoa x.2)) (fun x => LatestOffset <$> logAt r x)) (∅ : gmap string Z) items !! leoKey t (Itoa p) =
  if decide ((t, p) ∈ items) then LatestOffset <$> logAt r (t, p) else None.
Proof.
  intros Hnd Hsm Hp. destruct (decide ((t, p) ∈ items)) as [Hin|Hni].
  - change (leoKey t (Itoa p)) with ((fun x : string * Z => leoKey x.1 (Itoa x.2)) (t, p)). rewrite fill_lookup; [by destruct (logAt r (t, p))| |done].
    apply NoDup_fmap_2_strong; [|done]. intros [t1 p1] [t2 p2] H1%Hsm H2%Hsm Heq. cbn in *.
    apply leoKey_inj in Heq as [-> ->]; [done|done|solve_int].
  - rewrite fill_other; [apply lookup_empty|]. intros ([t' p'] & Heq & Hin)%list_elem_of_fmap. cbn in Heq.
    symmetry in Heq. apply leoKey_inj in Heq as [-> ->]; [done|by apply (Hsm (t', p'))|done].
Qed.

Lemma part_gauge (proj : gauges -> gmap (string * string) Z) (val : Log -> Z) g t p :
  (forall g x, proj (gaugeStep r g x) = fill pkey (fun x => val <$> logAt r x) (proj g) x) -> NoDup (pkey <$> items) -> (t, p) ∈ items ->
  proj (foldl (gaugeStep r) g items) !! (t, Itoa p) = match val <$> logAt r (t, p) with Some v => Some v | None => proj g !! (t, Itoa p) end.
Proof. intros Hstep Hnd Hin. rewrite (foldl_proj proj _ _ _ _ Hstep). exact (fill_lookup pkey _ _ _ (t, p) Hnd Hin). Qed.

Lemma gauge_LEO g x : PartitionLEO (gaugeStep r g x) = fill pkey (fun x => LatestOffset <$> logAt r x) (PartitionLEO g) x.
Proof. unfold gaugeStep, fill. by destruct (logAt r x). Qed.
Lemma gauge_HWM g x : PartitionHWM (gaugeStep r g x) = fill pkey (fun x => HighWatermark <$> logAt r x) (PartitionHWM g) x.
Proof. unfold gaugeStep, fill. by destruct (logAt r x). Qed.
Lemma gauge_Size g x : PartitionSize (gaugeStep r g x) = fill pkey (fun x => Log.Size <$> logAt r x) (PartitionSize g) x.
Proof. unfold gaugeStep, fill. by destruct (logAt r x). Qed.
End Lookups.

(** ** Properties *)

Definition known (b : Node) (t : string) (p : Z) : Prop := exists n, (t, n) ∈ KnownTopics b /\ 0 <= p < n.

(** a scrape reports the state.  For a node whose partitions answer without
    being opened, the refresh changes nothing but gauges: the number of topics and
    partitions, for every partition led here its log end, high watermark and size,
    for every group its members, and for every committed offset of a partition led
    here the lag, the log end minus the committed offset and never negative; the
    gauges of partitions led elsewhere keep what they had.  Every API of the
    protocol table has a name of its own as label. *)
Theorem gauges_correct e iter c s b g r :
  (forall ms, iter ms ≡ₚ map_to_list ms) ->
  (forall t n p, (t, n) ∈ KnownTopics b -> 0 <= p < n -> forall e, LocalLog e t p b = Ret (b, r t p)) ->
  (forall t n, (t, n) ∈ KnownTopics b -> n < 2 ^ 31) ->
  (forall k, is_Some (cache s !! k) -> in_int 32 k.2) ->
  (forall id gr, c !! id = Some gr -> g_id gr = id) ->
  NoDup (map (fun v => APIName (vr_APIKey v)) SupportedVersions) /\ Forall (fun v => APIName (vr_APIKey v) <> Itoa (vr_APIKey v)) SupportedVersions /\
  exists g', refreshGauges e iter c s b g = Ret (b, g') /\
    TopicsTotal g' = zlen (KnownTopics b) /\ PartitionsTotal g' = foldl (fun a x => int64 (a + x.2)) 0 (KnownTopics b) /\
    (forall t p, known b t p ->
       match r t p with
       | inl l => PartitionLEO g' !! (t, Itoa p) = Some (LatestOffset l) /\ PartitionHWM g' !! (t, Itoa p) = Some (HighWatermark l) /\
           PartitionSize g' !! (t, Itoa p) = Some (Log.Size l)
       | inr _ => PartitionLEO g' !! (t, Itoa p) = PartitionLEO g !! (t, Itoa p)
       end) /\
    (forall id gr, c !! id = Some gr -> GroupMembers g' !! id = Some (Z.of_nat (size (members gr)))) /\
    (forall grp t p cm, cache s !! (grp, t, p) = Some cm ->
       (forall l, known b t p -> r t p = inl l ->
          GroupLag g' !! (grp, t, Itoa p) = Some (Z.max 0 (int64 (LatestOffset l - c_offset cm)))) /\
       (~ known b t p \/ (exists er, r t p = inr er) -> GroupLag g' !! (grp, t, Itoa p) = GroupLag g !! (grp, t, Itoa p))).
Proof.
  intros Hiter Hlocal Hsmall Hkeys Hids.
  split; [apply (bool_decide_eq_true_1 _); vm_compute; reflexivity|].
  split; [apply (bool_decide_eq_true_1 _); vm_compute; reflexivity|]. unfold refreshGauges. set (g0 := setTotals _ _ g).
  destruct (topics_loop_folds b r Hlocal e (KnownTopics b) g0 ∅ 0) as (total & -> & Htotal); [done|]. cbn [mbind go_bind].
  set (items := partsOf (KnownTopics b)). set (leo := foldl _ ∅ items). set (g1 := foldl (gaugeStep r) g0 items).
  pose proof (partsOf_NoDup _ (KnownTopics_NoDup b)) as Hnd. fold items in Hnd.
  assert (forall t p, (t, p) ∈ items <-> known b t p) as Hit by (intros; apply partsOf_elem).
  assert (forall t p, known b t p -> 0 <= p < 2 ^ 31) as Hrange by (intros t p (n & Hn & Hp); specialize (Hsmall t n Hn); lia).
  assert (forall x, x ∈ items -> 0 <= x.2 < 2 ^ 31) as Hsmall' by (intros [t p] Hx%Hit; by apply (Hrange t)).
  eexists. split; [done|]. set (g2 := setTotals _ total g1). set (g3 := foldl (membersStep iter c) g2 (ListGroups c)).
  set (g4 := foldl (lagStep leo) g3 (ListCommitted s)).
  assert (forall T (proj : gauges -> T), (forall a b c d e, proj (setLag a b c d e) = proj e) -> proj g4 = proj g3) as K4.
  { intros T proj Hp. apply foldl_keeps. intros x [[[a1 a2] a3] a4]. unfold lagStep. by destruct (leo !! _). }
  assert (forall T (proj : gauges -> T), (forall a b c, proj (setMembers a b c) = proj c) -> proj g3 = proj g2) as K3.
  { intros T proj Hp. apply foldl_keeps. intros x a. unfold membersStep. by destruct (DescribeGroup _ _ _). }
  assert (forall T (proj : gauges -> T), (forall a b c d e f, proj (setPartition a b c d e f) = proj f) -> proj g1 = proj g0) as K1.
  { intros T proj Hp. apply foldl_keeps. intros x a. unfold gaugeStep. by destruct (logAt r a). }
  split_and!.
  - rewrite (K4 _ TopicsTotal), (K3 _ TopicsTotal) by done. cbn. by rewrite (K1 _ TopicsTotal).
  - rewrite (K4 _ PartitionsTotal), (K3 _ PartitionsTotal) by done. exact Htotal.
  - intros t p Hkn.
    apply Hit in Hkn. pose proof (labels_NoDup items Hnd Hsmall') as Hnk.
    pose proof (part_gauge r items PartitionLEO LatestOffset g0 t p (gauge_LEO r) Hnk Hkn) as G1.
    pose proof (part_gauge r items PartitionHWM HighWatermark g0 t p (gauge_HWM r) Hnk Hkn) as G2.
    pose proof (part_gauge r items PartitionSize Log.Size g0 t p (gauge_Size r) Hnk Hkn) as G3.
    rewrite (K4 _ PartitionLEO), (K3 _ PartitionLEO), (K4 _ PartitionHWM), (K3 _ PartitionHWM), (K4 _ PartitionSize), (K3 _ PartitionSize) by done.
    unfold logAt in G1, G2, G3. cbn in G1, G2, G3. by destruct (r t p).
  - intros id gr Hg. rewrite (K4 _ GroupMembers) by done. destruct (ListGroups_ids c Hids) as [Hndg Hing].
    assert (id ∈ (fun x : string * string * string => x.1.1) <$> ListGroups c) as (x & -> & Hx)%list_elem_of_fmap by (apply Hing; by eexists).
    unfold g3. rewrite (foldl_proj GroupMembers _ (fill (fun x => x.1.1) (fun x => (fun d => zlen (d_Members d)) <$> DescribeGroup iter x.1.1 c))).
    + rewrite (fill_lookup _ _ _ _ _ Hndg Hx). unfold DescribeGroup. rewrite Hg. cbn. f_equal. unfold zlen. f_equal.
      rewrite length_map, (Permutation_length (Hiter _)). apply length_map_to_list.
    + intros y a. unfold membersStep, fill. by destruct (DescribeGroup iter a.1.1 c).
  - intros grp t p cm Hc. destruct (ListCommitted_keys s Hkeys) as [Hndk Hin]. specialize (Hin _ _ _ _ Hc).
    assert (GroupLag g4 !! (grp, t, Itoa p) = match lagVal leo (grp, t, p, c_offset cm) with Some v => Some v | None => GroupLag g !! (grp, t, Itoa p) end) as ->.
    { unfold g4. rewrite (foldl_proj GroupLag _ (fill lagKey (lagVal leo))) by (intros; apply lagStep_fill).
      rewrite (fill_lookup lagKey (lagVal leo) _ _ (grp, t, p, c_offset cm) Hndk Hin). rewrite (K3 _ GroupLag) by done. cbn. by rewrite (K1 _ GroupLag). }
    assert (in_int 32 p) as Hp32 by (apply (Hkeys (grp, t, p)); by eexists). pose proof (leo_lookup r items t p Hnd Hsmall' Hp32) as Hleo. fold leo in Hleo.
    cbn. rewrite Hleo. split.
    + intros l Hkn%Hit Hr. rewrite decide_True by done. unfold logAt. cbn. rewrite Hr. cbn. f_equal. destruct (Z.ltb_spec (int64 (LatestOffset l - c_offset cm)) 0); lia.
    + intros Hno. destruct (decide ((t, p) ∈ items)) as [Hkn%Hit|]; [|done]. destruct Hno as [Hno|[er Hr]]; [done|]. unfold logAt. cbn. by rewrite Hr.
Qed.

(** The node of [Handlers] with the group of [Coordinator], which committed offset 4. *)
Definition demoCommitted : OffsetStore := mkStore ∅ {[ ("g", "orders", 0)%string := mkCommitted 4 ""; ("g", "gone", 2)%string := mkCommitted 9 "" ]}.
Definition noGauges : gauges := mkGauges 0 0 ∅ ∅ ∅ ∅ ∅.

Lemma demo_local t n p : (t, n) ∈ KnownTopics (broker demoHandler) -> 0 <= p < n ->
  forall e, LocalLog e t p (broker demoHandler) = Ret (broker demoHandler, inl demoLog).
Proof.
  intros Ht Hp e. assert (KnownTopics (broker demoHandler) = [("orders"%string, 1)]) as Hk by (vm_compute; reflexivity).
  rewrite Hk in Ht. apply list_elem_of_singleton in Ht as [= -> ->]. assert (p = 0) as -> by lia. reflexivity.
Qed.

Lemma gauges_correct_witness :
  exists g', refreshGauges (fun _ => open_ok) map_to_list demoGroups demoCommitted (broker demoHandler) noGauges = Ret (broker demoHandler, g') /\
    PartitionLEO g' !! ("orders", "0")%string = Some 7 /\ GroupLag g' !! ("g", "orders", "0")%string = Some 3.
Proof.
  destruct (gauges_correct (fun _ => open_ok) map_to_list demoGroups demoCommitted (broker demoHandler) noGauges (fun _ _ => inl demoLog))
    as (_ & _ & g' & Hr & _ & _ & Hp & _ & Hlag).
  - done.
  - apply demo_local.
  - intros t n Ht. assert (KnownTopics (broker demoHandler) = [("orders"%string, 1)]) as Hk by (vm_compute; reflexivity).
    rewrite Hk in Ht. apply list_elem_of_singleton in Ht as [= -> ->]. reflexivity.
  - intros [[g t] p] [cm Hc]. cbn in Hc. apply lookup_insert_Some in Hc as [[[= <- <- <-] _]|[_ [[= <- <- <-] _]%lookup_singleton_Some]]; cbn; solve_int.
  - assert (map_Forall (fun id gr => g_id gr = id) demoGroups) as Hid by (apply (bool_decide_eq_true_1 _); vm_compute; reflexivity). exact Hid.
  - exists g'. split; [exact Hr|].
    assert (known (broker demoHandler) "orders" 0) as Hkn by (exists 1; split; [vm_compute; left|lia]).
    change "0"%string with (Itoa 0). destruct (Hp "orders"%string 0 Hkn) as [H1 _]. split; [rewrite H1; vm_compute; reflexivity|].
    destruct (Hlag "g"%string "orders"%string 0 (mkCommitted 4 "")) as [H2 _]; [reflexivity|]. rewrite (H2 demoLog Hkn eq_refl). vm_compute. reflexivity.
Defined.
