(* ===== verification/Mqbroker.v ===== *)
(** * cmd/mqbroker: the process around the broker

    The health probe ([runHealthcheck]), and how the configuration of a node
    becomes that of its metadata controller ([startController], and the resources
    [controller.New] opens and [Close] releases).  The gauges a scrape refreshes
    are in [Metrics], the end of main in [Shutdown]; the order of start-up, the
    signal handling and the tickers are not modelled. *)

From Stdlib Require Import Ascii.
From S2P Require Import Prelude Strconv Kbytes Record Segment Log Recovery Protocol Replication Cluster Fsm Rpc Coordinator Offsets Config Broker Handlers Server.

(** ** healthcheck.go *)

Definition apiVersionsRequest : go (list byte) :=
  let w := Finish (wInt32 0 ;> wInt16 APIApiVersions ;> wInt16 0 ;> wInt32 1 ;> wNullableString (Some "healthcheck"%string))%wr in
  PatchInt32 w 0 (int32 (zlen w - 4)).

(** Unlike the broker's, this frame reader has no size limit. *)
Definition probe_readFrame (stream : list byte) : list byte + error :=
  match ReadFull 4 stream with
  | None => inr ErrEOF
  | Some (sizeBuf, stream) =>
    match ReadFull (be_get sizeBuf) stream with None => inr ErrEOF | Some (buf, _) => inl buf end
  end.

(** The outcome of the dial and of the write, and the bytes that come back. *)
Definition probeApiVersions (dial written : bool) (stream : list byte) : option error :=
  if negb dial then Some ErrIO
  else if negb written then Some ErrIO
  else
    match probe_readFrame stream with
    | inr er => Some er
    | inl resp =>
      let '(errorCode, r) := (_ ← Int32; Int16) (NewReader resp) in
      match Err r with
      | Some er => Some er
      | None => if negb (errorCode =? 0) then Some ErrBadCommand else None
      end
    end.

(** The exit code and the address that is probed; [net] answers for an address
    whether the dial and the write succeed and what comes back for the request. *)
Definition runHealthcheck (net : string -> bool * bool * (list byte -> list byte)) (args : list string) : go (string * Z) :=
  let addr := match args with a :: _ => if String.eqb a "" then "127.0.0.1:9092"%string else a | [] => "127.0.0.1:9092"%string end in
  req ← apiVersionsRequest;
  let '(dial, written, reply) := net addr in
  Ret (addr, match probeApiVersions dial written (reply req) with Some _ => 1 | None => 0 end).

(** The request is the frame of an ApiVersions v0 request. *)
Definition probePayload : list byte :=
  Finish (wInt16 APIApiVersions ;> wInt16 0 ;> wInt32 1 ;> wNullableString (Some "healthcheck"%string))%wr.
Lemma apiVersionsRequest_frame : apiVersionsRequest = Ret (frame probePayload).
Proof. vm_compute. reflexivity. Qed.

Lemma probe_frame body rest : zlen body < 2 ^ 31 -> 0 <= zlen body ->
  probe_readFrame (frame (be_put 4 1 ++ body) ++ rest) = inl (be_put 4 1 ++ body).
Proof.
  intros Hb Hp. unfold probe_readFrame, frame. set (payload := be_put 4 1 ++ body).
  assert (0 <= zlen payload < 2 ^ 32) as Hr by (unfold payload; rewrite zlen_app, zlen_be_put; solve_int).
  destruct (ReadFull_frame (zlen payload) payload rest Hr) as [-> ->]. by rewrite ReadFull_app.
Qed.

(** What a broker's connection writes for some bytes. *)
Definition connReply (env : Env) (h : Handler) (req : list byte) : list byte :=
  match handleConn (fun _ => Dispatch env) (fun _ => WOk) req h with Ret (_, out) => out | _ => [] end.

Definition healthyReply : list byte := Eval vm_compute in writeResponse 1 (apiVersions 0).

Lemma broker_answers_probe env h :
  exists h', handleConn (fun _ => Dispatch env) (fun _ => WOk) (frame probePayload) h = Ret (h', healthyReply) /\ broker h' = broker h /\
    coord h' = coord h /\ store h' = store h.
Proof.
  exists (countRequest 18 h). split; [|unfold countRequest; by destruct (_ && _)].
  assert (frame probePayload = concat (map frame [probePayload]) ++ []) as -> by (cbn [map concat]; by rewrite !app_nil_r).
  unfold handleConn. rewrite handle_serves; [|repeat constructor; vm_compute; done|by left; vm_compute|lia].
  cbn [serveAll]. destruct (DecodeRequestHeader (NewReader probePayload)) as [hdr r] eqn:E. vm_compute in E. injection E as <- <-.
  cbn [mbind go_bind]. unfold Dispatch. cbn [rh_APIKey rh_APIVersion rh_CorrelationID].
  change (18 =? APIApiVersions) with true. cbn iota. cbn [mbind go_bind]. f_equal.
Qed.

(** A read of a frame that was cut. *)
Lemma probe_cut k payload : zlen payload < 2 ^ 32 -> (k < length (frame payload))%nat -> probe_readFrame (take k (frame payload)) = inr ErrEOF.
Proof.
  unfold frame. intros Hsz Hk. rewrite length_app, length_be_put in Hk. unfold probe_readFrame. destruct (decide (k < 4)%nat) as [Hlt|Hge].
  - unfold ReadFull at 1. rewrite (proj2 (Z.ltb_lt _ _)); [done|]. unfold zlen. rewrite length_take. lia.
  - rewrite take_app, take_ge, length_be_put by (rewrite length_be_put; lia). rewrite ReadFull_app by (by rewrite zlen_be_put).
    pose proof (zlen_nonneg payload). rewrite be_get_put, Z.mod_small by (change (256 ^ Z.of_nat 4) with (2 ^ 32); lia).
    unfold ReadFull. rewrite (proj2 (Z.ltb_lt _ _)); [done|]. unfold zlen. rewrite length_take. lia.
Qed.

Lemma probe_sound stream : probeApiVersions true true stream = None ->
  exists size resp rest, stream = size ++ resp ++ rest /\ zlen size = 4 /\ be_get size = zlen resp /\ 6 <= zlen resp /\ int16 (be_get (sub resp 4 2)) = 0.
Proof.
  unfold probeApiVersions, probe_readFrame. cbn [negb]. unfold ReadFull at 1. destruct (Z.ltb_spec (zlen stream) 4) as [|H4]; [done|].
  set (size := take (Z.to_nat 4) stream). set (s1 := drop (Z.to_nat 4) stream). unfold ReadFull.
  destruct (Z.ltb_spec (zlen s1) (be_get size)) as [|Hn]; [done|]. set (resp := take (Z.to_nat (be_get size)) s1).
  pose proof (be_get_range size) as Hb.
  assert (zlen resp = be_get size) as Hlen. { unfold resp, zlen in *. rewrite length_take. lia. }
  unfold Int32, Int16, fixedInt, takeN, mbind, mret, rd_bind, rd_ret, NewReader. cbn [err buf pos].
  change (4 <? 0) with false. cbn [orb]. destruct (Z.ltb_spec (zlen resp) (0 + 4)); cbn [err buf pos fail Err]; [done|].
  change (2 <? 0) with false. cbn [orb]. destruct (Z.ltb_spec (zlen resp) (0 + 4 + 2)); cbn [err buf pos fail Err]; [done|].
  destruct (Z.eqb_spec (int16 (be_get (sub resp (Z.to_nat (0 + 4)) (Z.to_nat 2)))) 0) as [Hz|]; [|done]. intros _.
  exists size, resp, (drop (Z.to_nat (be_get size)) s1). split_and!; [|unfold size, zlen; rewrite length_take; unfold zlen in H4; lia|done|lia|done].
  unfold resp. by rewrite take_drop; unfold s1, size; rewrite take_drop.
Qed.

(** C34: the health probe tells a serving broker from a broken one.  Against any
    broker in any state that serves the connection, the probe answers exit code 0
    and changes nothing but a request counter; it answers 1 when the dial or the
    write fails, when the reply is cut at any byte, and 0 only for a complete frame
    whose error code is zero.  Without an argument it probes 127.0.0.1:9092. *)
Theorem healthcheck_correct env h net args dial written reply :
  let addr := match args with a :: _ => if String.eqb a "" then "127.0.0.1:9092"%string else a | [] => "127.0.0.1:9092"%string end in
  net addr = (dial, written, reply) ->
  (exists h', handleConn (fun _ => Dispatch env) (fun _ => WOk) (frame probePayload) h = Ret (h', connReply env h (frame probePayload)) /\
     broker h' = broker h /\ coord h' = coord h /\ store h' = store h) /\
  (dial = true -> written = true -> reply = connReply env h -> runHealthcheck net args = Ret (addr, 0)) /\
  (dial = false \/ written = false -> runHealthcheck net args = Ret (addr, 1)) /\
  (forall k, (k < length (connReply env h (frame probePayload)))%nat -> reply (frame probePayload) = take k (connReply env h (frame probePayload)) ->
     runHealthcheck net args = Ret (addr, 1)) /\
  (runHealthcheck net args = Ret (addr, 0) ->
     exists size resp rest, reply (frame probePayload) = size ++ resp ++ rest /\ zlen size = 4 /\ be_get size = zlen resp /\
       6 <= zlen resp /\ int16 (be_get (sub resp 4 2)) = 0).
Proof.
  intros addr Hnet.
  assert (runHealthcheck net args = Ret (addr, match probeApiVersions dial written (reply (frame probePayload)) with Some _ => 1 | None => 0 end)) as ->.
  { unfold runHealthcheck. fold addr. rewrite apiVersionsRequest_frame, Hnet. reflexivity. }
  assert (connReply env h (frame probePayload) = healthyReply) as Hc.
  { destruct (broker_answers_probe env h) as (h' & Hh & _). unfold connReply. by rewrite Hh. }
  rewrite Hc. split_and!; [apply broker_answers_probe|..].
  - intros -> -> ->. rewrite Hc. vm_compute. reflexivity.
  - unfold probeApiVersions. intros [->| ->]; [done|by destruct dial].
  - intros k Hk ->. do 2 f_equal. unfold probeApiVersions. destruct dial, written; [|done..]. cbn [negb].
    change healthyReply with (frame (drop 4 healthyReply)) in *. by rewrite probe_cut by (vm_compute in Hk |- *; lia || done).
  - destruct dial, written; [|done..]. destruct (probeApiVersions true true _) eqn:E; [done|]. intros _. by apply probe_sound.
Qed.

Lemma healthcheck_correct_witness :
  runHealthcheck (fun _ => (true, true, connReply demoEnv demoHandler)) [""%string] = Ret ("127.0.0.1:9092"%string, 0).
Proof.
  destruct (healthcheck_correct demoEnv demoHandler (fun _ => (true, true, connReply demoEnv demoHandler)) [""%string]
    true true (connReply demoEnv demoHandler) eq_refl) as (_ & H & _).
  by apply H.
Defined.

(** ** main.go: the controller's configuration *)

(** [net.SplitHostPort]; [None]: an error. *)
Definition SplitHostPort (hp : string) : option (string * string) :=
  match LastIndex hp ":" with
  | None => None
  | Some i =>
    let finish host (j k : nat) :=
      if Index (string_drop j hp) "[" is Some _ then None else if Index (string_drop k hp) "]" is Some _ then None
      else Some (host, string_drop (S i) hp) in
    match hp with
    | String "[" _ =>
      match Index hp "]" with
      | None => None
      | Some e =>
        if (S e =? String.length hp)%nat then None
        else if (S e =? i)%nat then finish (string_drop 1 (string_take e hp)) 1%nat (S e)
        else None
      end
    | _ =>
      let host := string_take i hp in
      if Index host ":" is Some _ then None else finish host 0%nat 0%nat
    end
  end.

(** "%s:%d" *)
Definition hostPort (host : string) (port : Z) : string := (host +:+ ":" +:+ Itoa port)%string.

(** controller.Config; the directory as the elements that are joined. *)
Record ControllerConfig := mkControllerConfig {
  cc_NodeID : Z; cc_RaftBind : string; cc_Advertise : string; cc_RPCBind : string; cc_RaftDir : list string;
  cc_Bootstrap : bool; cc_Peers : list Peer }.

Definition peerOf (bi : BrokerInfo) : Peer :=
  mkPeer (Cluster.NodeID bi) (hostPort (Host bi) (int32 (Port bi + 1))) (hostPort (Host bi) (int32 (Port bi + 2))).

Definition startController (cfg : Config) (cl : Cluster) : ControllerConfig + error :=
  match SplitHostPort (Listen cfg) with
  | None => inr ErrBadSpec
  | Some (listenHost, _) =>
    let raftPort := int32 (AdvertisedPort cfg + 1) in
    let rpcPort := int32 (AdvertisedPort cfg + 2) in
    inl (mkControllerConfig (Config.NodeID cfg) (hostPort listenHost raftPort) (hostPort (AdvertisedHost cfg) raftPort)
      (hostPort listenHost rpcPort) [LogDirs cfg; "raft"%string] (RaftBootstrap cfg || (Size cl =? 1)) (map peerOf (Cluster.Brokers cl)))
  end.

(** Whether main starts a controller. *)
Definition needsController (cfg : Config) (cl : Cluster) : bool := (1 <? Size cl) || String.eqb (StorageBackend cfg) "object".

(** ** controller.go: what New opens and Close releases *)

Inductive resource := RStore | RTrans | RRaft | RListener.
#[global] Instance resource_eq : EqDecision resource. Proof. solve_decision. Defined.
#[global] Instance resource_countable : Countable resource.
Proof.
  apply (inj_countable' (fun r => match r with RStore => 0 | RTrans => 1 | RRaft => 2 | RListener => 3 end)
    (fun n : Z => match n with 0 => RStore | 1 => RTrans | 2 => RRaft | _ => RListener end)). by intros [].
Defined.

(** The calls that can fail, in the order of New. *)
Inductive newStep := NMkdir | NStore | NSnapshots | NResolve | NTransport | NProbe | NRaft | NBootstrap | NListen.

(** The servers New bootstraps a fresh quorum with. *)
Definition bootServers (peers : list Peer) : list (string * string) := map (fun p => (itoa (pe_NodeID p), pe_RaftAddr p)) peers.

(** [fails s]: the call fails.  The answer: the resources that are open, the
    quorum that was bootstrapped, and whether New succeeded. *)
Definition NewController (fails : newStep -> bool) (hadState : bool) (cfg : ControllerConfig)
    : gset resource * option (list (string * string)) * bool :=
  let closing (open closed : gset resource) := (open ∖ closed, None, false) in
  if fails NMkdir then (∅, None, false)
  else if fails NStore then (∅, None, false)
  else if fails NSnapshots then closing {[RStore]} {[RStore]}
  else if fails NResolve then closing {[RStore]} {[RStore]}
  else if fails NTransport then closing {[RStore]} {[RStore]}
  else if fails NProbe then closing {[RStore; RTrans]} {[RTrans; RStore]}
  else if fails NRaft then closing {[RStore; RTrans]} {[RTrans; RStore]}
  else
    let boot := if cc_Bootstrap cfg && negb hadState then Some (bootServers (cc_Peers cfg)) else None in
    if match boot with Some _ => fails NBootstrap | None => false end
    then closing {[RStore; RTrans; RRaft]} {[RRaft; RTrans; RStore]}
    else if String.eqb (cc_RPCBind cfg) "" then ({[RStore; RTrans; RRaft]}, boot, true)
    else if fails NListen then closing {[RStore; RTrans; RRaft]} {[RRaft; RTrans; RStore]}
    else ({[RStore; RTrans; RRaft; RListener]}, boot, true).

(** [Close]: the errors of the shutdowns, of which the first is returned; every
    resource is released whatever the errors. *)
Definition CloseController (raft trans store : option error) (open : gset resource) : gset resource * option error :=
  let open := if bool_decide (RListener ∈ open) then open ∖ {[RListener]} else open in
  let first := match raft with Some er => Some er | None => match trans with Some er => Some er | None => store end end in
  (open ∖ {[RRaft; RTrans; RStore]}, first).

(** ** Addresses *)

Lemma Index_none c s : no_char c s = true -> Index s c = None.
Proof. induction s as [|d s IH]; cbn; [done|]. intros [Hd%negb_true_iff Hs]%andb_prop. by rewrite Hd, (IH Hs). Qed.

Lemma no_char_drop c n s : no_char c s = true -> no_char c (string_drop n s) = true.
Proof. revert s. induction n as [|n IH]; intros [|d s]; cbn; try done. intros [_ Hs]%andb_prop. by apply IH. Qed.

(** A host name or IPv4 address: no colon and no bracket. *)
Definition plainHost (h : string) : bool := no_char ":" h && no_char "[" h && no_char "]" h.

Lemma SplitHostPort_hostPort h p : plainHost h = true -> 0 <= p -> SplitHostPort (hostPort h p) = Some (h, Itoa p).
Proof.
  intros [[Hc Hl]%andb_prop Hr]%andb_prop Hp. unfold SplitHostPort, hostPort.
  change ((":" +:+ Itoa p)%string) with (String ":" (Itoa p)).
  rewrite LastIndex_app by (by apply Itoa_no_char).
  assert (forall c, is_digit c = false -> Ascii.eqb ":" c = false -> no_char c h = true -> no_char c (h +:+ String ":" (Itoa p)) = true) as Hno.
  { intros c Hd Hne Hh. rewrite no_char_app, Hh. cbn [no_char]. by rewrite Hne, Itoa_no_char. }
  pose proof (Hno "["%char eq_refl eq_refl Hl) as Nl. pose proof (Hno "]"%char eq_refl eq_refl Hr) as Nr.
  rewrite string_take_app, (Index_none ":" h Hc), string_drop_S. cbn zeta.
  rewrite (Index_none _ _ (no_char_drop _ 0 _ Nl)), (Index_none _ _ (no_char_drop _ 0 _ Nr)).
  destruct h as [|d h]; [done|]. cbn [no_char] in Hl. apply andb_prop in Hl as [Hd%negb_true_iff _].
  rewrite string_app_cons. destruct d as [[] [] [] [] [] [] [] []]; done.
Qed.

Lemma hostPort_ne h p : String.eqb (hostPort h p) "" = false.
Proof. unfold hostPort. by destruct h. Qed.

(** The address table has an entry for every member. *)
Lemma rpcAddrs_lookup ms b : NoDup (map Cluster.NodeID ms) -> b ∈ ms ->
  rpcAddrs (map peerOf ms) !! Cluster.NodeID b = Some (pe_RPCAddr (peerOf b)).
Proof.
  intros Hnd Hb. assert (forall ps, rpcAddrs ps =
    foldl (fill pe_NodeID (fun p => if String.eqb (pe_RPCAddr p) "" then None else Some (pe_RPCAddr p))) ∅ ps) as ->.
  { intros ps. apply (foldl_proj id). intros m p. unfold fill. cbn. by destruct (String.eqb _ _). }
  change (Cluster.NodeID b) with (pe_NodeID (peerOf b)). rewrite fill_lookup; [by cbn [peerOf pe_RPCAddr]; rewrite hostPort_ne| |by apply (list_elem_of_fmap_2 peerOf)].
  change (pe_NodeID <$> map peerOf ms) with (map pe_NodeID (map peerOf ms)). by rewrite map_map.
Qed.

(** New leaves nothing open behind an error; Close releases what New opened. *)
Lemma New_releases fails hadState raft trans store cfg :
  let '(open, boot, ok) := NewController fails hadState cfg in
  (ok = false -> open = ∅ /\ boot = None) /\
  (ok = true -> RRaft ∈ open /\ CloseController raft trans store open =
    (∅, match raft with Some er => Some er | None => match trans with Some er => Some er | None => store end end)) /\
  (forall servers, boot = Some servers -> hadState = false /\ servers = bootServers (cc_Peers cfg)).
Proof.
  unfold NewController.
  repeat (match goal with |- context [if fails ?x then _ else _] => destruct (fails x) end;
    [split_and!; [intros _; split; [vm_compute|]; reflexivity|done|done]|]).
  set (boot := if cc_Bootstrap cfg && negb hadState then _ else _).
  assert (forall servers, boot = Some servers -> hadState = false /\ servers = bootServers (cc_Peers cfg)) as Hboot.
  { unfold boot. intros servers. destruct (cc_Bootstrap cfg), hadState; cbn; by intros [= <-]. }
  destruct (match boot with Some _ => _ | None => _ end); [split_and!; [intros _; split; [vm_compute|]; reflexivity|done|done]|].
  destruct (String.eqb _ _); [split_and!; [done|intros _; split; [set_solver|vm_compute; reflexivity]|done]|].
  destruct (fails NListen); [split_and!; [intros _; split; [vm_compute|]; reflexivity|done|done]|].
  split_and!; [done|intros _; split; [set_solver|vm_compute; reflexivity]|done].
Qed.

(** the controllers of a cluster find each other.  When two nodes were given the
    same members and node [j] advertises what its membership entry says, then both
    know the same peers and would bootstrap the same quorum, the raft address node
    [i] has for [j] is the one [j] advertises, and the table [i] forwards proposals
    with has an entry for [j], at the port [j] binds its forwarding RPC to; the
    address splits again into its host and port.  Starting a controller that fails
    at any call leaves nothing open, and closing one that started releases
    everything, reporting the first error. *)
Theorem controller_wiring cfgi cli cfgj clj ci cj :
  brokers cli = brokers clj -> NoDup (map Cluster.NodeID (brokers cli)) ->
  startController cfgi cli = inl ci -> startController cfgj clj = inl cj ->
  mkBroker (Config.NodeID cfgj) (AdvertisedHost cfgj) (AdvertisedPort cfgj) ∈ brokers cli ->
  plainHost (AdvertisedHost cfgj) = true -> 0 <= AdvertisedPort cfgj < 65534 ->
  let rpc := hostPort (AdvertisedHost cfgj) (AdvertisedPort cfgj + 2) in
  cc_Peers ci = cc_Peers cj /\
  In (itoa (Config.NodeID cfgj), cc_Advertise cj) (bootServers (cc_Peers ci)) /\
  rpcAddrs (cc_Peers ci) !! Config.NodeID cfgj = Some rpc /\
  SplitHostPort rpc = Some (AdvertisedHost cfgj, Itoa (AdvertisedPort cfgj + 2)) /\
  (exists host port, SplitHostPort (Listen cfgj) = Some (host, port) /\ cc_RPCBind cj = hostPort host (AdvertisedPort cfgj + 2)) /\
  (forall fails hadState raft trans store, let '(open, boot, ok) := NewController fails hadState cj in
     (ok = false -> open = ∅ /\ boot = None) /\
     (ok = true -> RRaft ∈ open /\ CloseController raft trans store open =
       (∅, match raft with Some er => Some er | None => match trans with Some er => Some er | None => store end end)) /\
     (forall servers, boot = Some servers -> hadState = false /\ servers = bootServers (cc_Peers ci))).
Proof.
  intros Hbr Hnd Hi Hj Hin Hhost Hport. unfold startController in Hi, Hj.
  destruct (SplitHostPort (Listen cfgi)) as [[hi pi]|]; [|done]. injection Hi as <-.
  destruct (SplitHostPort (Listen cfgj)) as [[hj pj]|] eqn:Hl; [|done]. injection Hj as <-.
  cbn [cc_Peers cc_Advertise cc_RPCBind]. unfold Cluster.Brokers. rewrite <- Hbr.
  assert (forall k, 0 <= k <= 2 -> int32 (AdvertisedPort cfgj + k) = AdvertisedPort cfgj + k) as H32 by (intros k Hk; apply int32_id; solve_int).
  rewrite !H32 by lia. split_and!.
  - done.
  - unfold bootServers. rewrite map_map. apply in_map_iff. eexists. split; [|by apply list_elem_of_In]. cbn. by rewrite H32 by lia.
  - pose proof (rpcAddrs_lookup (brokers cli) _ Hnd Hin) as Ha. cbn [Cluster.NodeID peerOf pe_RPCAddr Host Port] in Ha. by rewrite H32 in Ha by lia.
  - apply SplitHostPort_hostPort; [done|lia].
  - by exists hj, pj.
  - intros fails hadState raft trans store. pose proof (New_releases fails hadState raft trans store
      (mkControllerConfig (Config.NodeID cfgj) (hostPort hj (AdvertisedPort cfgj + 1)) (hostPort (AdvertisedHost cfgj) (AdvertisedPort cfgj + 1))
        (hostPort hj (AdvertisedPort cfgj + 2)) [LogDirs cfgj; "raft"%string] (RaftBootstrap cfgj || (Size clj =? 1)) (map peerOf (brokers cli)))) as Hn.
    by destruct (NewController _ _ _) as [[open boot] ok].
Qed.

Definition demoMember (id host port : string) : Config :=
  Load ∅ (argsOfAll (pair (Spaced true) <$> [("node-id", id); ("brokers", "1@a:9092, 2@b:9192"); ("advertised-host", host); ("advertised-port", port)]))%string.
Definition demoCluster (cfg : Config) : Cluster :=
  match Cluster.Parse (Config.NodeID cfg) (Config.Brokers cfg) (AdvertisedHost cfg) (AdvertisedPort cfg) with inl c => c | inr _ => Single 0 "" 0 end.
Definition demoController (cfg : Config) : ControllerConfig :=
  match startController cfg (demoCluster cfg) with inl c => c | inr _ => mkControllerConfig 0 "" "" "" [] false [] end.

Lemma controller_wiring_witness :
  let c1 := demoController (demoMember "1" "a" "9092") in
  rpcAddrs (cc_Peers c1) !! 2 = Some "b:9194"%string /\ cc_Peers c1 = cc_Peers (demoController (demoMember "2" "b" "9192")).
Proof.
  cbn zeta. set (m1 := demoMember "1" "a" "9092"). set (m2 := demoMember "2" "b" "9192").
  destruct (controller_wiring m1 (demoCluster m1) m2 (demoCluster m2) (demoController m1) (demoController m2)) as (H1 & _ & H2 & _).
  - vm_compute. reflexivity.
  - apply (bool_decide_eq_true_1 _). vm_compute. reflexivity.
  - vm_compute. reflexivity.
  - vm_compute. reflexivity.
  - apply (bool_decide_eq_true_1 _). vm_compute. reflexivity.
  - vm_compute. reflexivity.
  - vm_compute. split; [discriminate|reflexivity].
  - split; [|exact H1]. assert (Config.NodeID m2 = 2) as Hid by (vm_compute; reflexivity). rewrite Hid in H2. rewrite H2. vm_compute. reflexivity.
Defined.

(** an IPv6 listen address is taken apart and put together without its
    brackets.  The controller of a node that listens on [::1]:9092 is told to bind
    ::1:9093 and ::1:9094, which are no addresses. *)
Theorem ipv6_bind_malformed :
  let cfg := Load ∅ ["-listen=[::1]:9092"]%string in
  SplitHostPort (Listen cfg) = Some ("::1", "9092")%string /\
  exists c, startController cfg (demoCluster cfg) = inl c /\ SplitHostPort (cc_RaftBind c) = None /\ SplitHostPort (cc_RPCBind c) = None.
Proof. split; [vm_compute; reflexivity|]. eexists. split; [vm_compute; reflexivity|]. split; vm_compute; reflexivity. Qed.
