(* ===== verification/Shutdown.v ===== *)
(** * Stopping a node: internal/broker/broker.go, Close, and the end of main

    What is running beside the logs - the maintenance goroutine and the follower
    fetchers - and the shutdown of the command: it flushes every log and then
    closes the broker.  Only [Close] stops the fetchers, and nothing waits for the
    flush and retention loops of main, so the shutdown is a sequence of steps with
    the steps of the others in between ([beside], [flushing], [shutdown]).  Each open
    log carries how much of its files is on the disk ([Durable]), so that the theorem
    can say what a power failure after the shutdown can still take.  For the object backend, the uploader's loop and the
    close of the node storage (internal/storage/object/storage.go). *)

From S2P Require Import Prelude Record Segment Strconv Log Recovery Durable Replication Wal Fsm ObjectIndex Objects Uploads Broker.

(** ** The broker of a node *)

(** The broker, whether its maintenance goroutine runs, and the marks of its logs. *)
Record Running := mkRunning { rn_node : Node; rn_maint : bool; rn_marks : gmap tp marks }.

Definition marksAt (k : tp) (r : Running) : marks := default ∅ (rn_marks r !! k).

(** [startReplicaMaintenance]; the flag says whether a goroutine is started. *)
Definition startReplicaMaintenance (r : Running) : Running * bool :=
  if rn_maint r then (r, false) else (mkRunning (rn_node r) true (rn_marks r), true).

(** [snapshotLogs]: the open logs, in the order [order] of the map walk. *)
Definition snapshotLogs (order : list tp) (b : Node) : list (tp * Log) :=
  omap (fun k => l ← logs b !! k; Some (k, l)) order.

(** [FlushAll] with what it forces to the disk. *)
Fixpoint FlushAllD (synced : tp -> bool) (order : list tp) (r : Running) : Running * option error :=
  match order with
  | [] => (r, None)
  | k :: order =>
    match logs (rn_node r) !! k with
    | None => FlushAllD synced order r
    | Some l =>
      let '(D, er) := FlushD (synced k) (mkDisk l (marksAt k r)) in
      let r' := mkRunning (setLog k (dk_log D) (rn_node r)) (rn_maint r) (<[k := dk_marks D]> (rn_marks r)) in
      match er with Some er => (r', Some er) | None => FlushAllD synced order r' end
    end
  end.

Fixpoint closeLogs (closes : tp -> Z -> option error * option error) (ls : list (tp * Log)) (firstErr : option error) : option error :=
  match ls with
  | [] => firstErr
  | (k, l) :: ls =>
    let er := close_loop (closes k) (segments l) None in
    closeLogs closes ls (match firstErr with Some _ => firstErr | None => er end)
  end.

(** [Broker.Close] on the file backend: the maintenance goroutine and the fetchers
    are stopped, then the files of every log are closed. *)
Definition CloseBroker (closes : tp -> Z -> option error * option error) (order : list tp) (r : Running) : Running * option error :=
  let b := rn_node r in
  let b' := withRepl (fst ∘ Replication.Close <$> repl b) b in
  (mkRunning b' false (rn_marks r), closeLogs closes (snapshotLogs order b') None).

(** ** The end of main *)

Definition putDisk (k : tp) (D : Disk) (r : Running) : Running :=
  mkRunning (setLog k (dk_log D) (rn_node r)) (rn_maint r) (<[k := dk_marks D]> (rn_marks r)).

(** What the other goroutines do to the open logs: the fetchers append, the loops of
    main flush and enforce retention, the maintenance moves watermarks and may open
    further logs.  None of them closes a log. *)
Definition beside (r r' : Running) : Prop :=
  forall k l, logs (rn_node r) !! k = Some l -> exists l', logs (rn_node r') !! k = Some l' /\
    rtc lstep (mkDisk l (marksAt k r)) (mkDisk l' (marksAt k r')).

(** [FlushAll] over a snapshot of the logs, with the others in between. *)
Inductive flushing : list tp -> Running -> Running -> option error -> Prop :=
  | fl_done r : flushing [] r r None
  | fl_beside order r r1 r' er : beside r r1 -> flushing order r1 r' er -> flushing order r r' er
  | fl_flush k order r l ok D r' er : logs (rn_node r) !! k = Some l -> FlushD ok (mkDisk l (marksAt k r)) = (D, None) ->
      flushing order (putDisk k D r) r' er -> flushing (k :: order) r r' er
  | fl_fail k order r l ok D er : logs (rn_node r) !! k = Some l -> FlushD ok (mkDisk l (marksAt k r)) = (D, Some er) ->
      flushing (k :: order) r (putDisk k D r) (Some er).

(** The last lines of main: [FlushAll], which goes through the logs that are open
    when it starts, then [Close]; errors are only logged. *)
Inductive shutdown (closes : tp -> Z -> option error * option error) (r : Running) : Running -> option error * option error -> Prop :=
  | shut order order' r1 r2 r3 er1 er2 :
      (forall k, k ∈ order <-> is_Some (logs (rn_node r) !! k)) -> flushing order r r1 er1 -> beside r1 r2 ->
      CloseBroker closes order' r2 = (r3, er2) -> shutdown closes r r3 (er1, er2).

(** ** The storage of a node with the object backend *)

Section Storage.
Context {OS IS : Type} `{ObjectStore OS} `{IndexStore IS}.

(** The uploader goroutine: one upload per tick or nudge until it is stopped;
    errors are dropped. *)
Fixpoint run (wakes : list uploadIO) (s : Storage OS IS) : Storage OS IS :=
  match wakes with
  | [] => s
  | e :: wakes => run wakes (fst (upload e s))
  end.

(** [Storage.Close]: the uploader ends, what is pending is uploaded, the
    write-ahead log is closed. *)
Definition storage_Close (wakes : list uploadIO) (e : uploadIO) (walClose : option error) (s : Storage OS IS) : Storage OS IS * option error :=
  match upload e (run wakes s) with
  | (s', Some er) => (s', Some er)
  | (s', None) => (s', walClose)
  end.
End Storage.

(** A log that was written from its creation on; if it was ever opened after the
    process alone had ended, it has been written to since. *)
Definition settled (D : Disk) : Prop :=
  exists c, rtc kstep (freshDisk c) D /\ (dirty (dk_log D) = true \/ rtc dstep (freshDisk c) D).

Lemma settled_durable D : settled D -> exists bss bs kept x, Durable.durable true D bss bs kept x.
Proof.
  intros (c & Hk & [Hd|Hr]).
  - destruct (ksteps_durable _ _ _ _ _ _ (durable_weaken _ _ _ _ _ (freshDisk_durable c)) Hk) as (bss & bs & kept & x & [] & _).
    exists bss, bs, kept, x. split; try done. congruence.
  - destruct (dsteps_durable _ _ _ _ _ _ (freshDisk_durable c) Hr) as (bss & bs & kept & x & HD & _). by exists bss, bs, kept, x.
Qed.

(** ** What the flush of every log does to one of them *)

#[export] Instance beside_preorder : PreOrder beside.
Proof.
  split.
  - intros r k l Hk. exists l. split; [done|apply rtc_refl].
  - intros x y z H1 H2 k l Hk. destruct (H1 k l Hk) as (l1 & Hk1 & S1). destruct (H2 k l1 Hk1) as (l2 & Hk2 & S2).
    exists l2. split; [done|by etrans].
Qed.

Lemma disk_eta D : mkDisk (dk_log D) (dk_marks D) = D.
Proof. by destruct D. Qed.

Lemma putDisk_at k D r : logs (rn_node (putDisk k D r)) !! k = Some (dk_log D) /\ marksAt k (putDisk k D r) = dk_marks D.
Proof. unfold marksAt, putDisk, setLog. cbn. by rewrite !lookup_insert_eq. Qed.

Lemma putDisk_lsteps k l D r : logs (rn_node r) !! k = Some l -> rtc lstep (mkDisk l (marksAt k r)) D -> beside r (putDisk k D r).
Proof.
  intros Hk HD k2 l2 Hk2. destruct (decide (k = k2)) as [<-|Hne].
  - destruct (putDisk_at k D r) as [H1 H2]. exists (dk_log D). split; [done|]. rewrite H2, disk_eta. rewrite Hk in Hk2. by injection Hk2 as <-.
  - exists l2. unfold marksAt, putDisk, setLog. cbn. rewrite !lookup_insert_ne by done. split; [done|apply rtc_refl].
Qed.

Lemma FlushD_lstep ok D D' er : FlushD ok D = (D', er) -> lstep D D'.
Proof. intros Hf. replace D' with (fst (FlushD ok D)) by (by rewrite Hf). apply d_flush. Qed.

Lemma putDisk_beside k l ok D er r : logs (rn_node r) !! k = Some l -> FlushD ok (mkDisk l (marksAt k r)) = (D, er) ->
  beside r (putDisk k D r) /\ logs (rn_node (putDisk k D r)) !! k = Some (dk_log D) /\ marksAt k (putDisk k D r) = dk_marks D.
Proof. intros Hk Hf. split; [|apply putDisk_at]. eapply putDisk_lsteps; [done|]. by eapply rtc_once, FlushD_lstep. Qed.

Lemma flushing_beside order r r' er : flushing order r r' er -> beside r r'.
Proof.
  induction 1 as [r|order r r1 r' er Hb _ IH|k order r l ok D r' er Hk Hf _ IH|k order r l ok D er Hk Hf]; [done|by etrans| |].
  - etrans; [by eapply putDisk_beside|done].
  - by eapply putDisk_beside.
Qed.

(** Every log of the snapshot is flushed at some point. *)
Lemma flushing_flushes order r r' k l : flushing order r r' None -> k ∈ order -> logs (rn_node r) !! k = Some l ->
  exists D ok D1 l', rtc lstep (mkDisk l (marksAt k r)) D /\ FlushD ok D = (D1, None) /\
    logs (rn_node r') !! k = Some l' /\ rtc lstep D1 (mkDisk l' (marksAt k r')).
Proof.
  remember (@None error) as er eqn:Her. intros Hf. revert l Her.
  induction Hf as [r|order r r1 r' er Hb _ IH|k1 order r l1 ok D r' er Hk1 Hf Hrest IH|k1 order r l1 ok D er Hk1 Hf]; intros l Her Hin Hk.
  - by apply not_elem_of_nil in Hin.
  - destruct (Hb k l Hk) as (l1 & Hk1 & S1). destruct (IH l1 Her Hin Hk1) as (D & ok & D1 & l' & H1 & H2 & H3 & H4).
    exists D, ok, D1, l'. split_and!; [by etrans|done..].
  - destruct (putDisk_beside _ _ _ _ _ _ Hk1 Hf) as (Hb & Hp1 & Hp2). destruct (decide (k = k1)) as [->|Hne].
    + rewrite Hk in Hk1. injection Hk1 as <-. destruct (flushing_beside _ _ _ _ Hrest k1 _ Hp1) as (l' & Hl' & S'). rewrite Hp2 in S'.
      exists (mkDisk l (marksAt k1 r)), ok, D, l'. split_and!; [apply rtc_refl|by rewrite Her|done|]. by destruct D.
    + destruct (Hb k l Hk) as (l2 & Hk2 & S2). destruct (IH l2 Her) as (D' & ok' & D1 & l' & H1 & H2 & H3 & H4); [set_solver|done|].
      exists D', ok', D1, l'. split_and!; [by etrans|done..].
  - done.
Qed.

(** After a flush that succeeded, through whatever the process does and any power
    failure, all is there that the log held at the beginning. *)
Lemma flushed_survives D0 D ok D1 D2 d :
  settled D0 -> rtc lstep D0 D -> FlushD ok D = (D1, None) -> rtc lstep D1 D2 -> power_image D2 d ->
  exists l bss0 bs0 bss bs, Open open_ok d (cfg (dk_log D2)) = Ret (inl l) /\ log_rep (dk_log D0) bss0 bs0 /\ log_rep l bss bs /\
    nextOffset (dk_log D0) <= nextOffset l /\ drop_before (EarliestOffset l) (contents bss0 bs0) `prefix_of` contents bss bs.
Proof.
  intros HS H0 Hf H2 Hd. destruct (settled_durable _ HS) as (bss0 & bs0 & kept0 & x0 & HD0).
  destruct (dsteps_durable _ _ _ _ _ _ HD0 (lsteps_dsteps _ _ H0)) as (bss & bs & kept & x & HD & _).
  destruct (FlushD_durable _ _ _ _ _ HD ok D1 None Hf) as (kept1 & x1 & HD1 & _ & Hall). destruct (Hall eq_refl eq_refl) as [-> ->].
  destruct (dsteps_durable _ _ _ _ _ _ HD1 (lsteps_dsteps _ _ H2)) as (bss2 & bs2 & kept2 & x2 & HD2 & K2).
  destruct (power_open _ _ _ _ _ _ HD2 Hd) as (l & bss3 & bs3 & Ho & HD3 & K3 & _).
  destruct (keeps_trans _ _ _ _ _ _ _ _ _ K2 K3) as (Hx & He & Hp).
  assert (rtc lstep D0 D1) as H01.
  { eapply rtc_r; [exact H0|]. by eapply FlushD_lstep. }
  destruct (lsteps_evolve _ _ _ _ (du_rep _ _ _ _ _ HD0) H01) as (bss1 & bs1 & Hrep1 & [E1 E2 E3 _]).
  assert (contents bss1 bs1 = contents bss bs) as Hc.
  { apply (log_contents_det _ _ _ _ _ Hrep1 (du_rep _ _ _ _ _ HD1)). }
  rewrite Hc in E1.
  exists l, bss0, bs0, bss3, bs3. split_and!; [done|apply HD0|apply HD3|cbn in Hx; lia|].
  rewrite <- (drop_before_twice (EarliestOffset (dk_log D1))) by done. etrans; [by apply drop_before_prefix|done].
Qed.

(** ** Properties *)


Definition demoDisk : Disk := runD demoBatch1 (freshDisk demoConfig).
Definition demoRunning : Running :=
  mkRunning (setLog ("orders"%string, 0) (dk_log demoDisk) Broker.demoNode) true {[("orders"%string, 0) := dk_marks demoDisk]}.

(** Between the flush and the close, a fetcher appends a second batch. *)
Definition demoKey : tp := ("orders"%string, 0).
Definition demoFlushedRunning : Running := putDisk demoKey (fst (FlushD true demoDisk)) demoRunning.
Definition demoAppended : Running := putDisk demoKey (runD demoBatch2 (fst (FlushD true demoDisk))) demoFlushedRunning.
Definition demoClosed : Running := fst (CloseBroker (fun _ _ => (None, None)) [demoKey] demoAppended).

Lemma demoRunning_at : logs (rn_node demoRunning) !! demoKey = Some (dk_log demoDisk) /\ marksAt demoKey demoRunning = dk_marks demoDisk.
Proof. unfold marksAt, demoRunning, setLog. cbn. split; [apply lookup_insert_eq|by rewrite lookup_singleton_eq]. Qed.

Lemma demoRunning_only k l : logs (rn_node demoRunning) !! k = Some l -> k = demoKey /\ l = dk_log demoDisk.
Proof. unfold demoRunning, setLog. cbn. rewrite insert_singleton_eq. by intros [<- <-]%lookup_singleton_Some. Qed.

Lemma demo_shutdown : shutdown (fun _ _ => (None, None)) demoRunning demoClosed (None, None).
Proof.
  destruct demoRunning_at as [Hl Hm]. apply (shut _ _ [demoKey] [demoKey] demoFlushedRunning demoAppended).
  - intros k. rewrite list_elem_of_singleton. split; [intros ->; by eexists|]. intros [l [-> _]%demoRunning_only]. done.
  - apply (fl_flush demoKey [] demoRunning (dk_log demoDisk) true (fst (FlushD true demoDisk))); [exact Hl| |apply fl_done].
    rewrite Hm. vm_compute. reflexivity.
  - destruct (putDisk_at demoKey (fst (FlushD true demoDisk)) demoRunning) as [H1 H2]. fold demoFlushedRunning in H1, H2. eapply putDisk_lsteps; [exact H1|].
    rewrite H2, disk_eta. apply rtc_once. exact demo_lstep2.
  - vm_compute. reflexivity.
Qed.


(** Closing the node storage.  A [Close] that reports no error has uploaded all
    that was pending: nothing is left to replay, and every partition holds the same
    batches over the same offsets in objects. *)
Theorem storage_close_uploads {OS IS : Type} `{ObjectStoreLaws OS} `{IndexStoreLaws IS} wakes e walClose (s s' : Storage OS IS) :
  let s1 := run wakes s in
  node_ok s1 -> fresh_keys s1 -> can_upload s1 -> u_removed e = (fun _ => true) -> storage_Close wakes e walClose s = (s', None) ->
  st_pending s' = ∅ /\ replay collect (fun _ => true) (st_wal s') [] = Ret ([], None) /\
  forall k o n bss bs, part_rep s1 k o n bss bs -> part_rep s' k o n (bss ++ group bs) [] /\ contents (bss ++ group bs) [] = contents bss bs.
Proof.
  intros s1 Hno Hfr Hcan Hrem. unfold storage_Close. fold s1. destruct (upload e s1) as [s2 [er|]] eqn:E; [done|]. intros [= <- _].
  destruct (upload_cases _ _ _ _ Hno Hfr Hcan Hrem E) as (G1 & G2 & G3 & G4).
  split_and!; [done|by apply idle_wal|]. intros k o n bss bs Hp. split; [by apply G4|apply contents_group].
Qed.
