(* ===== verification/Committed.v ===== *)
(** * What the high watermark means across nodes

    One partition during the tenure of one leader: the leader's broker
    ([Broker]), the logs of its followers ([Log]), and, as a ghost, the batches
    the leader has appended so far.  The steps are the operations of
    internal/broker, internal/storage and internal/replication on that
    partition, in any order and with any I/O faults; metadata may change at any
    point.  The theorem: whenever the leader's high watermark moves, every
    member of the committed ISR holds every batch below it, byte for byte. *)

From S2P Require Import Prelude Record Index Segment Log Recovery Replication Cluster Fsm Broker.

(** ** A log that holds a stretch of the history *)

(** The batches of [l] are those of the history [h] between its earliest and its
    end offset, and [post] is what it lacks. *)
Definition replica_of (h : list (list byte)) (l : Log) (post : list (list byte)) : Prop :=
  exists bss bs pre, log_rep l bss bs /\ h = pre ++ contents bss bs ++ post /\ chained 0 pre (EarliestOffset l).

Lemma replica_chained h l post n : replica_of h l post -> chained (nextOffset l) post n -> chained 0 h n.
Proof.
  intros (bss & bs & pre & Hr & -> & Hp) Hpost. apply chained_app. exists (EarliestOffset l). split; [done|].
  apply chained_app. exists (nextOffset l). split; [by apply log_contents|done].
Qed.

Lemma replica_post h l post n : replica_of h l post -> chained 0 h n -> chained (nextOffset l) post n.
Proof.
  intros (bss & bs & pre & Hr & -> & Hp) Hc. apply chained_app in Hc as (m & Hm & Hc).
  rewrite (chained_det _ _ _ _ Hm Hp) in Hc. apply chained_app in Hc as (m' & Hm' & Hc).
  by rewrite (chained_det _ _ _ _ Hm' (log_contents _ _ _ Hr)) in Hc.
Qed.

(** Operations that keep the batches. *)
Lemma replica_same h l l' post : replica_of h l post -> EarliestOffset l' = EarliestOffset l ->
  (forall bss bs, log_rep l bss bs -> exists bss' bs', log_rep l' bss' bs' /\ contents bss' bs' = contents bss bs) ->
  replica_of h l' post.
Proof.
  intros (bss & bs & pre & Hr & -> & Hp) He Hc. destruct (Hc _ _ Hr) as (bss' & bs' & Hr' & Heq).
  exists bss', bs', pre. rewrite Heq, He. done.
Qed.

Lemma replica_retain h l post now mt age maxB :
  replica_of h l post -> replica_of h (EnforceRetention now mt age maxB l) post.
Proof.
  intros (bss & bs & pre & Hr & -> & Hp).
  destruct (EnforceRetention_rep now mt age maxB l bss bs Hr) as (Hr' & _ & Hch & Hc).
  set (k := retained now mt age maxB l) in *.
  exists (drop k bss), bs, (pre ++ concat (take k bss)). split; [exact Hr'|]. split; [rewrite Hc, !app_assoc; done|].
  apply chained_app. by exists (EarliestOffset l).
Qed.

Lemma replica_grow h l post b : replica_of h l post -> replica_of (h ++ [b]) l (post ++ [b]).
Proof. intros (bss & bs & pre & Hr & -> & Hp). exists bss, bs, pre. by rewrite <- !app_assoc. Qed.

Lemma chained_span o bs n b : chained o bs n -> b ∈ bs -> o <= BaseOffset (headerOf b) < next_of b /\ next_of b <= n.
Proof.
  revert o. induction bs as [|x bs IH]; intros o; cbn [chained]; [by intros _ ?%elem_of_nil|].
  intros [[_ Hbase Hs] Hc] [->|Hin]%elem_of_cons.
  - pose proof (chained_le _ _ _ Hc). lia.
  - destruct (IH _ Hc Hin). lia.
Qed.

(** The batch of the history at the end of a log is the first one the log lacks. *)
Lemma batch_at_end h l post n b :
  replica_of h l post -> chained 0 h n -> b ∈ h -> BaseOffset (headerOf b) = nextOffset l -> exists post', post = b :: post'.
Proof.
  intros Hrep Hch Hb Hbase. pose proof (replica_post _ _ _ _ Hrep Hch) as Hpost.
  destruct Hrep as (bss & bs & pre & Hr & -> & Hp). pose proof (log_contents _ _ _ Hr) as Hc.
  pose proof (chained_le _ _ _ Hc). apply elem_of_app in Hb as [Hb|[Hb|Hb]%elem_of_app].
  - destruct (chained_span _ _ _ _ Hp Hb). lia.
  - destruct (chained_span _ _ _ _ Hc Hb). lia.
  - destruct post as [|x post]; [by apply elem_of_nil in Hb|]. cbn [chained] in Hpost. destruct Hpost as [[_ _ Hs] Hpost].
    apply elem_of_cons in Hb as [->|Hb]; [eauto|]. destruct (chained_span _ _ _ _ Hpost Hb). lia.
Qed.

(** The follower's write path, for any batch of the history. *)
Lemma replica_receive h l post n e b l' r :
  replica_of h l post -> chained 0 h n -> b ∈ h ->
  (BaseOffset (headerOf b) = nextOffset l -> room l b (next_of b - nextOffset l)) ->
  AppendReplica e b l = (l', r) ->
  nextOffset l <= nextOffset l' /\ exists post', replica_of h l' post'.
Proof.
  intros Hrep Hch Hb Hroom Happ. pose proof (replica_post _ _ _ _ Hrep Hch) as Hpost. destruct r as [z [er|]].
  { pose proof Hrep as (bss & bs & pre & Hr & _ & _).
    destruct (AppendReplica_rejected _ _ _ _ _ _ _ _ Hr Happ) as [Hm _].
    rewrite (sm_next _ _ Hm). split; [done|]. exists post. apply (replica_same h l); [done|apply Hm|].
    intros bss' bs' Hr'. by destruct (AppendReplica_rejected _ _ _ _ _ _ _ _ Hr' Happ). }
  apply AppendReplica_success in Happ.
  assert (batch_wf b) as Hw by (pose proof (chained_wf _ _ _ Hch) as Hf; rewrite Forall_forall in Hf; by apply Hf).
  destruct (decide (BaseOffset (headerOf b) = nextOffset l)) as [Heq|Hne].
  - destruct (batch_at_end _ _ _ _ _ Hrep Hch Hb Heq) as [post' ->]. destruct Hpost as [Hat _].
    destruct Hrep as (bss & bs & pre & Hr & -> & Hp).
    destruct (AppendReplica_stores b l bss bs Hr Hat (Hroom Heq)) as (l2 & bss' & bs' & H1 & H2 & H3 & H4 & _ & H6).
    rewrite Happ in H1. simplify_eq. split; [pose proof (ba_span _ _ Hat); lia|].
    exists post', bss', bs', pre. rewrite H3, H6, <- app_assoc. done.
  - assert (l' = l) as ->; [|split; [done|by exists post]].
    unfold AppendReplica in Happ. rewrite batch_wf_header in Happ by done.
    destruct (Z.ltb_spec (BaseOffset (headerOf b)) (nextOffset l)); [by simplify_eq|].
    destruct (Z.ltb_spec (nextOffset l) (BaseOffset (headerOf b))); [done|lia].
Qed.

Lemma Append_holds e b l l' z : Append e b l = Ret (l', (z, None)) -> holdHWM l' = holdHWM l.
Proof.
  unfold Append. destruct (patchBatch b _) as [b'| |]; cbn [mbind go_bind]; [|done..].
  destruct (if rollDue l b' then _ else _) as [l1 [er|]] eqn:Hroll; [done|].
  assert (holdHWM l1 = holdHWM l) as Hl1.
  { destruct (rollDue l b'); [|by simplify_eq]. unfold roll in Hroll.
    destruct (negb (io_flush e)); [done|]. destruct (negb (io_create e)); [done|]. by injection Hroll as <-. }
  destruct (ParseHeader b') as [hd [er|]]; [done|]. destruct (append _ _ _ _ _) as [s' [er|]]; [done|].
  by intros [= <- _].
Qed.

(** The leader's write path. *)
Lemma replica_produce h l e b l' r :
  replica_of h l [] -> producer_ok b -> room l b (RecordCount (headerOf b)) -> Append e b l = Ret (l', r) ->
  holdHWM l' = holdHWM l /\ (holdHWM l = true -> highWatermark l' = highWatermark l) /\ nextOffset l <= nextOffset l' /\
  match r with
  | (_, Some _) => replica_of h l' []
  | (_, None) => exists b', patchBatch b (nextOffset l) = Ret b' /\ replica_of (h ++ [b']) l' []
  end.
Proof.
  intros Hrep Hb Hroom Happ. pose proof Hrep as (bss & bs & pre & Hr & Hh & Hp). destruct r as [z [er|]].
  - destruct (Append_rejected _ _ _ _ _ _ _ _ Hr Happ) as (_ & Hm & _).
    rewrite (sm_hold _ _ Hm), (sm_hwm _ _ Hm), (sm_next _ _ Hm). split_and!; [done..|].
    apply (replica_same h l); [done|apply Hm|].
    intros bss' bs' Hr'. by destruct (Append_rejected _ _ _ _ _ _ _ _ Hr' Happ) as (_ & _ & ?).
  - apply Append_success in Happ. pose proof (Append_holds _ _ _ _ _ Happ) as Hhold.
    destruct (Append_stores b l bss bs Hr Hb Hroom) as (l2 & b' & bss' & bs' & H1 & [H2 _] & H3 & H4 & H5 & H6 & H7 & _).
    rewrite Happ in H1. simplify_eq. pose proof (po_pos _ Hb).
    split_and!; [done|by rewrite H6; intros ->|lia|]. exists b'. split; [done|].
    exists bss', bs', pre. rewrite H4, H7, !app_nil_r, <- app_assoc. done.
Qed.

(** A replica whose end is at or above [x] holds every batch of the history below
    [x] that it has not retired. *)
Lemma replica_holds h l post n x b :
  replica_of h l post -> chained 0 h n -> x <= nextOffset l -> b ∈ h -> next_of b <= x -> EarliestOffset l < next_of b ->
  exists bss bs, log_rep l bss bs /\ b ∈ contents bss bs.
Proof.
  intros Hrep Hch Hx Hb Hbx He. pose proof (replica_post _ _ _ _ Hrep Hch) as Hpost.
  destruct Hrep as (bss & bs & pre & Hr & -> & Hp). exists bss, bs. split; [done|].
  apply elem_of_app in Hb as [Hb|[Hb|Hb]%elem_of_app]; [|done|].
  - destruct (chained_span _ _ _ _ Hp Hb). lia.
  - destruct (chained_span _ _ _ _ Hpost Hb). lia.
Qed.

(** ** The system *)

Section Partition.
Context (topic : string) (p : Z).
Context (raft : Command -> metaState -> metaState * option error).
Local Abbreviation key := (topic, p).

Record world := mkWorld {
  w_node : Node;                      (* the leader *)
  w_copies : gmap Z Log;              (* the followers' logs, by node id *)
  w_history : list (list byte) }.     (* ghost: what the leader has appended *)

(** Maintenance of a log that stores nothing. *)
Inductive quiet (l : Log) : Log -> Prop :=
  | q_flush ok : quiet l (fst (Flush ok l))
  | q_hold : quiet l (HoldHighWatermark l)
  | q_retain now mt age maxB : quiet l (EnforceRetention now mt age maxB l).

Inductive world_step (w : world) : world -> Prop :=
  (** the leader appends a produced batch, or fails to *)
  | w_produce e b l l' o b' :
      getLog topic p (w_node w) = Some l -> producer_ok b -> room l b (RecordCount (headerOf b)) ->
      Append e b l = Ret (l', (o, None)) -> patchBatch b (nextOffset l) = Ret b' ->
      world_step w (mkWorld (setLog key l' (w_node w)) (w_copies w) (w_history w ++ [b']))
  | w_produce_fails e b l l' o er :
      getLog topic p (w_node w) = Some l -> producer_ok b -> room l b (RecordCount (headerOf b)) ->
      Append e b l = Ret (l', (o, Some er)) ->
      world_step w (mkWorld (setLog key l' (w_node w)) (w_copies w) (w_history w))
  | w_leader_quiet l l' :
      getLog topic p (w_node w) = Some l -> quiet l l' ->
      world_step w (mkWorld (setLog key l' (w_node w)) (w_copies w) (w_history w))
  (** a follower's fetch arrives; it was sent when its end was at [off] *)
  | w_fetch i F off now :
      w_copies w !! i = Some F -> off <= LatestOffset F ->
      world_step w (mkWorld (RecordReplicaFetch now topic p i off (w_node w)) (w_copies w) (w_history w))
  (** a follower gets a batch of the leader's *)
  | w_receive i F e b F' r :
      w_copies w !! i = Some F -> b ∈ w_history w ->
      (BaseOffset (headerOf b) = nextOffset F -> room F b (next_of b - nextOffset F)) ->
      AppendReplica e b F = (F', r) ->
      world_step w (mkWorld (w_node w) (<[i := F']> (w_copies w)) (w_history w))
  | w_follower_hwm i F x :
      w_copies w !! i = Some F ->
      world_step w (mkWorld (w_node w) (<[i := SetHighWatermark x F]> (w_copies w)) (w_history w))
  | w_follower_quiet i F F' :
      w_copies w !! i = Some F -> quiet F F' ->
      world_step w (mkWorld (w_node w) (<[i := F']> (w_copies w)) (w_history w))
  (** the maintenance pass reaches a partition, this one or another *)
  | w_maintain now x :
      world_step w (mkWorld (maintainOne raft now (w_node w) x) (w_copies w) (w_history w))
  (** committed metadata reaches the node *)
  | w_metadata st :
      world_step w (mkWorld (withCtrl (Some st) (w_node w)) (w_copies w) (w_history w)).

Record world_ok (w : world) : Prop := {
  wo_leader : exists l, getLog topic p (w_node w) = Some l /\ holdHWM l = true /\ 0 <= highWatermark l /\
    replica_of (w_history w) l [];
  wo_copies : map_Forall (fun _ F => exists post, replica_of (w_history w) F post) (w_copies w);
  wo_progress : forall i pr, default ∅ (followers (w_node w) !! key) !! i = Some pr ->
    exists F, w_copies w !! i = Some F /\ endOffset pr <= nextOffset F }.

Definition hwm_of (w : world) : option Z := HighWatermark <$> getLog topic p (w_node w).

(** What the theorem promises when the watermark moves. *)
Definition committed_everywhere (w : world) : Prop :=
  exists st pv h, ctrl (w_node w) = Some st /\ Partition st topic p = Some pv /\ v_Leader pv = me (w_node w) /\
    hwm_of w = Some h /\
    forall i, i ∈ v_ISR pv -> i <> me (w_node w) ->
      exists F, w_copies w !! i = Some F /\ h <= nextOffset F /\
        forall b, b ∈ w_history w -> next_of b <= h -> EarliestOffset F < next_of b ->
          exists bss bs, log_rep F bss bs /\ b ∈ contents bss bs.

Lemma history_chained w l : replica_of (w_history w) l [] -> chained 0 (w_history w) (nextOffset l).
Proof. intros H. by apply (replica_chained _ _ _ (nextOffset l) H). Qed.

Lemma quiet_replica h l l' post : quiet l l' -> replica_of h l post ->
  replica_of h l' post /\ nextOffset l' = nextOffset l /\ highWatermark l' = highWatermark l /\
  (holdHWM l = true -> holdHWM l' = true).
Proof.
  intros [ok| |now mt age maxB] Hr.
  - unfold Flush. destruct (negb (dirty l)), (negb ok); cbn [fst]; try done.
    split_and!; try done. apply (replica_same h l); [done|done|]. intros bss bs [H1 H2]. by exists bss, bs.
  - split_and!; try done. apply (replica_same h l); [done|done|]. intros bss bs [H1 H2]. by exists bss, bs.
  - rewrite EnforceRetention_drop. split_and!; try done. rewrite <- EnforceRetention_drop. by apply replica_retain.
Qed.

(** Replacing the leader's log by one that holds the (longer) history. *)
Lemma world_ok_log w l' h' :
  world_ok w -> holdHWM l' = true -> 0 <= highWatermark l' -> replica_of h' l' [] ->
  (h' = w_history w \/ exists b, h' = w_history w ++ [b]) ->
  world_ok (mkWorld (setLog key l' (w_node w)) (w_copies w) h').
Proof.
  intros [_ Hc Hp] Hh H0 Hr Hh'. split; cbn; [|clear Hp|done].
  - exists l'. unfold getLog. cbn. by rewrite lookup_insert_eq.
  - intros i F HF. destruct (Hc i F HF) as [post Hpost]. destruct Hh' as [->|[b ->]]; [by exists post|].
    exists (post ++ [b]). by apply replica_grow.
Qed.

Lemma world_ok_copy w i F F' :
  world_ok w -> w_copies w !! i = Some F -> nextOffset F <= nextOffset F' -> (exists post, replica_of (w_history w) F' post) ->
  world_ok (mkWorld (w_node w) (<[i := F']> (w_copies w)) (w_history w)).
Proof.
  intros [Hl Hc Hp] HF Hn Hr. split; cbn; [done|by apply map_Forall_insert_2|].
  intros j pr Hj. destruct (Hp j pr Hj) as (G & HG & Hle). destruct (decide (j = i)) as [->|Hne].
  - exists F'. rewrite lookup_insert_eq. split; [done|]. simplify_eq. lia.
  - exists G. by rewrite lookup_insert_ne.
Qed.

(** The node may change in everything the invariant does not mention. *)
Lemma world_ok_node w b' :
  world_ok w -> logs b' !! key = logs (w_node w) !! key -> followers b' = followers (w_node w) ->
  world_ok (mkWorld b' (w_copies w) (w_history w)).
Proof. intros [Hl Hc Hp] H1 H2. split; cbn; [|done|by rewrite H2]. unfold getLog in *. by rewrite H1. Qed.

(** The one place where the watermark moves. *)
Lemma advance_world w st : ctrl (w_node w) = Some st -> world_ok w ->
  let w' := mkWorld (advanceHighWatermark st topic p (w_node w)) (w_copies w) (w_history w) in
  world_ok w' /\ (hwm_of w' <> hwm_of w -> committed_everywhere w').
Proof.
  intros Hctrl Hok. cbn zeta. set (b := w_node w) in *.
  destruct (advance_cases st topic p b) as [->|(pv & l & Hpv & Hlead & Hget)]; [split; [by apply world_ok_node|done]|].
  rewrite (advance_led st topic p b pv l) by done. set (r := replicated pv topic p l b).
  pose proof Hok as [(l0 & Hg0 & Hhold & Hpos & Hrep) Hcop Hprog]. fold b in Hg0. rewrite Hget in Hg0. injection Hg0 as <-.
  set (l' := mkLog _ _ _ _ _ _).
  assert (r <= nextOffset l) as Hr by (apply (proj1 (isr_min_spec _ _ _ _ _) (Z.le_refl _))).
  assert (replica_of (w_history w) l' []) as Hrep'.
  { apply (replica_same _ l); [done|done|]. intros bss bs [H1 H2]. exists bss, bs. split; [split; [done|cbn; lia]|done]. }
  split.
  { apply (world_ok_log w l' (w_history w)); [done|done|cbn; lia|done|by left]. }
  assert (hwm_of w = Some (highWatermark l)) as -> by (unfold hwm_of; fold b; by rewrite Hget).
  assert (hwm_of (mkWorld (setLog key l' b) (w_copies w) (w_history w)) = Some (Z.max (highWatermark l) r)) as Hh
    by (unfold hwm_of, getLog; cbn; by rewrite lookup_insert_eq).
  rewrite Hh. intros Hne. assert (highWatermark l < r) as Hlt by (destruct (Z.lt_ge_cases (highWatermark l) r); [done|]; destruct Hne; f_equal; lia).
  exists st, pv, r. split_and!; [done|done|done|rewrite Hh; f_equal; lia|]. intros i Hi Hself. cbn [w_node w_copies w_history] in *.
  assert (r <= fetched (default ∅ (followers b !! key)) i) as Hf by (by apply (proj1 (isr_min_spec _ _ _ _ _) (Z.le_refl _))).
  unfold fetched in Hf. destruct (default ∅ (followers b !! key) !! i) as [pr|] eqn:Epr; [|lia].
  destruct (Hprog i pr Epr) as (F & HF & Hle). exists F. split_and!; [done|lia|].
  intros bt Hbt Hn He. destruct (Hcop i F HF) as [post Hpost].
  eapply replica_holds; [exact Hpost|by apply history_chained| |done|exact Hn|done]. lia.
Qed.

Lemma advance_other st t q b : (t, q) <> key ->
  logs (advanceHighWatermark st t q b) !! key = logs b !! key /\ followers (advanceHighWatermark st t q b) = followers b.
Proof.
  intros Hne. destruct (advance_cases st t q b) as [->|(pv & l & Hpv & Hl & Hg)]; [done|].
  rewrite (advance_led st t q b pv l) by done. cbn. by rewrite lookup_insert_ne.
Qed.

Lemma maintainISR_same now t q pv b :
  logs (maintainPartitionISR raft now t q pv b) = logs b /\ followers (maintainPartitionISR raft now t q pv b) = followers b.
Proof. unfold maintainPartitionISR. destruct (sameNodeSet _ _); [done|]. by destruct (ctrl b). Qed.

Lemma maintain_world now x w : world_ok w ->
  let w' := mkWorld (maintainOne raft now (w_node w) x) (w_copies w) (w_history w) in
  world_ok w' /\ (hwm_of w' <> hwm_of w -> committed_everywhere w').
Proof.
  intros Hok. cbn zeta. destruct x as [[t q] pv]. unfold maintainOne.
  destruct (_ || _); [split; [by apply world_ok_node|done]|].
  set (b' := maintainPartitionISR raft now t q pv (w_node w)).
  destruct (maintainISR_same now t q pv (w_node w)) as [Hl Hf]. fold b' in Hl, Hf.
  assert (world_ok (mkWorld b' (w_copies w) (w_history w))) as Hok' by (apply world_ok_node; [done|by rewrite Hl|done]).
  assert (hwm_of (mkWorld b' (w_copies w) (w_history w)) = hwm_of w) as Hh by (unfold hwm_of, getLog; cbn; by rewrite Hl).
  destruct (ctrl b') as [st|] eqn:Ec; [|split; [done|by rewrite Hh]].
  destruct (decide ((t, q) = key)) as [[= -> ->]|Hne].
  - rewrite <- Hh. by apply (advance_world (mkWorld b' (w_copies w) (w_history w)) st).
  - destruct (advance_other st t q b' Hne) as [Hl2 Hf2].
    split; [by apply (world_ok_node (mkWorld b' (w_copies w) (w_history w)))|].
    intros []. rewrite <- Hh. unfold hwm_of, getLog. cbn. by rewrite Hl2.
Qed.

Lemma fetch_world i F off now w : world_ok w -> w_copies w !! i = Some F -> off <= LatestOffset F ->
  let w' := mkWorld (RecordReplicaFetch now topic p i off (w_node w)) (w_copies w) (w_history w) in
  world_ok w' /\ (hwm_of w' <> hwm_of w -> committed_everywhere w').
Proof.
  intros Hok HF Hoff. cbn zeta. unfold RecordReplicaFetch. destruct (ctrl (w_node w)) as [st|] eqn:Ec;
    [|split; [by apply world_ok_node|done]].
  set (b' := withFollowers _ (w_node w)).
  assert (world_ok (mkWorld b' (w_copies w) (w_history w))) as Hok'.
  { destruct Hok as [Hl Hc Hp]. split; cbn; [done|done|]. rewrite lookup_insert_eq. cbn. intros j pr.
    destruct (decide (j = i)) as [->|Hne].
    - rewrite lookup_insert_eq. intros [= <-]. by exists F.
    - rewrite lookup_insert_ne by done. apply Hp. }
  exact (advance_world (mkWorld b' (w_copies w) (w_history w)) st Ec Hok').
Qed.

Lemma hwm_setLog w l l' cs h : getLog topic p (w_node w) = Some l -> highWatermark l' = highWatermark l ->
  hwm_of (mkWorld (setLog key l' (w_node w)) cs h) = hwm_of w.
Proof. intros Hg Hh. unfold hwm_of. rewrite Hg. unfold getLog. cbn. rewrite lookup_insert_eq. cbn. unfold HighWatermark. by rewrite Hh. Qed.

Lemma world_step_ok w w' : world_ok w -> world_step w w' ->
  world_ok w' /\ (hwm_of w' <> hwm_of w -> committed_everywhere w').
Proof.
  intros Hok Hstep. pose proof Hok as [(l0 & Hg0 & Hhold & Hpos & Hrep) Hcop _].
  destruct Hstep as [e b l l' o b' Hg Hb Hroom Happ Hpat|e b l l' o er Hg Hb Hroom Happ|l l' Hg Hq|i F off now HF Hoff
    |i F e b F' r HF Hb Hroom Happ|i F x HF|i F F' HF Hq|now x|st];
    try (rewrite Hg0 in Hg; injection Hg as <-).
  - destruct (replica_produce _ _ _ _ _ _ Hrep Hb Hroom Happ) as (H1 & H2 & H3 & b2 & H4 & H5). rewrite Hpat in H4. injection H4 as <-.
    specialize (H2 Hhold). split; [|erewrite hwm_setLog; done].
    apply world_ok_log; [done|congruence|lia|done|right; eauto].
  - destruct (replica_produce _ _ _ _ _ _ Hrep Hb Hroom Happ) as (H1 & H2 & H3 & H5).
    specialize (H2 Hhold). split; [|erewrite hwm_setLog; done].
    apply world_ok_log; [done|congruence|lia|done|by left].
  - destruct (quiet_replica _ _ _ _ Hq Hrep) as (H1 & H2 & H3 & H4).
    split; [|erewrite hwm_setLog; done]. apply world_ok_log; [done|by apply H4|lia|done|by left].
  - by apply (fetch_world i F).
  - destruct (Hcop i F HF) as [post Hpost].
    destruct (replica_receive _ _ _ _ _ _ _ _ Hpost (history_chained _ _ Hrep) Hb Hroom Happ) as [Hn Hr].
    split; [by eapply world_ok_copy|done].
  - destruct (Hcop i F HF) as [post Hpost]. split; [|done]. eapply world_ok_copy; [done|done| |].
    + unfold SetHighWatermark. by destruct (highWatermark F <? _).
    + exists post. apply (replica_same _ F); [done| |].
      * unfold SetHighWatermark. by destruct (highWatermark F <? _).
      * intros bss bs Hr. exists bss, bs. split; [|done]. by apply SetHighWatermark_rep.
  - destruct (Hcop i F HF) as [post Hpost]. destruct (quiet_replica _ _ _ _ Hq Hpost) as (H1 & H2 & _).
    split; [|done]. eapply world_ok_copy; [done|done|lia|by exists post].
  - by apply maintain_world.
  - split; [by apply world_ok_node|done].
Qed.

Lemma world_steps_ok w w' : world_ok w -> rtc world_step w w' -> world_ok w'.
Proof. intros Hok. induction 1 as [|w w1 w2 Hs _ IH]; [done|]. apply IH. by apply (world_step_ok w). Qed.

(** The start of a tenure: an empty log that replication drives, and empty followers. *)
Definition fresh_world (c : Config) (b : Node) (ids : list Z) : world :=
  mkWorld (withFollowers ∅ (setLog key (HoldHighWatermark (freshLog c)) b))
    (list_to_map (map (fun i => (i, freshLog c)) ids)) [].

Lemma fresh_replica c l : segments l = segments (freshLog c) -> nextOffset l = 0 -> highWatermark l = 0 -> replica_of [] l [].
Proof.
  intros Hs Hn Hh. exists [], [], []. split_and!; [|done|unfold EarliestOffset, firstSegment; by rewrite Hs].
  destruct (freshLog_rep c) as [Hr _]. unfold EarliestOffset, firstSegment in Hr. split; [|lia].
  unfold EarliestOffset, firstSegment. by rewrite Hs, Hn.
Qed.

Lemma fresh_ok c b ids : world_ok (fresh_world c b ids).
Proof.
  split; cbn.
  - exists (HoldHighWatermark (freshLog c)). unfold getLog. cbn. rewrite lookup_insert_eq.
    split_and!; [done|done|done|by apply (fresh_replica c)].
  - intros i F HF%elem_of_list_to_map_2. apply list_elem_of_fmap in HF as (j & [= -> ->] & _).
    exists []. by apply (fresh_replica c).
  - intros i pr. rewrite lookup_empty. done.
Qed.

(** C1: committed means replicated.  Take one node and the followers of one of its
    partitions from empty logs through any produce, fetch, replication, retention
    and metadata steps, in any order, with any I/O faults and stale fetch requests,
    but without a restart of the node.  Whenever a step moves the node's high
    watermark, the node is the committed leader, and every member of the committed
    ISR has reached the new watermark and holds every batch below it that it has
    not retired, byte for byte as appended.  A restart moves the watermark without
    that ([Lifetime.restart_exposes_uncommitted]). *)
Theorem committed_means_replicated c b ids w w' :
  rtc world_step (fresh_world c b ids) w -> world_step w w' -> hwm_of w' <> hwm_of w -> committed_everywhere w'.
Proof. intros H1 H2. apply (world_step_ok w w'); [by eapply world_steps_ok; [apply fresh_ok|]|done]. Qed.

End Partition.

(** ** A concrete run *)

Definition demoStored : list byte := match patchBatch demoBatch1 0 with Ret b => b | _ => [] end.
Definition demoStart : world := fresh_world "orders" 0 demoConfig demoNode [3].
Definition demoLeaderLog : Log := runAppend demoBatch1 (HoldHighWatermark (freshLog demoConfig)).
Definition demoFollowerLog : Log := fst (AppendReplica io_ok demoStored (freshLog demoConfig)).
Definition demoReplicated : world :=
  mkWorld (setLog ("orders"%string, 0) demoLeaderLog (w_node demoStart))
    (<[3 := demoFollowerLog]> (w_copies demoStart)) [demoStored].

Lemma demo_run : rtc (world_step "orders" 0 applyLocked) demoStart demoReplicated.
Proof.
  eapply rtc_l.
  { apply (w_produce _ _ _ _ io_ok demoBatch1 (HoldHighWatermark (freshLog demoConfig)) demoLeaderLog 0 demoStored).
    - vm_compute. reflexivity.
    - apply producer_okb. vm_compute. reflexivity.
    - split; vm_compute; reflexivity.
    - vm_compute. reflexivity.
    - vm_compute. reflexivity. }
  apply rtc_once. refine (w_receive _ _ _ _ 3 (freshLog demoConfig) io_ok demoStored demoFollowerLog (3, None) _ _ _ _).
  - vm_compute. reflexivity.
  - apply list_elem_of_singleton. reflexivity.
  - intros _. split; vm_compute; reflexivity.
  - vm_compute. reflexivity.
Qed.

(** Node 3 has the batch and fetches from offset 3: offsets 0 to 2 are committed. *)
Lemma committed_means_replicated_witness :
  committed_everywhere "orders" 0
    (mkWorld (RecordReplicaFetch 5 "orders" 0 3 3 (w_node demoReplicated)) (w_copies demoReplicated) (w_history demoReplicated)).
Proof.
  apply (committed_means_replicated "orders" 0 applyLocked demoConfig demoNode [3] demoReplicated).
  - exact demo_run.
  - apply (w_fetch _ _ _ _ 3 demoFollowerLog 3 5); vm_compute; [reflexivity|discriminate].
  - vm_compute. discriminate.
Defined.
