(* ===== verification/Failover.v ===== *)
(** * Committed records and a change of leader

    [Committed] runs one partition under one leader.  Here the run goes on after
    the watermark has moved, the leader is lost, and the controller's failover
    scan (internal/controller/liveness.go) elects another node.  The theorem says
    what the new leader answers for the records that were committed: the same
    bytes, at the same offsets.  It holds as long as no replica was added to the
    ISR in between; what the code does when a lagging replica joins, and when the
    old leader comes back with records that were never committed, is run in
    [Broker.lagging_replica_joins_ISR] and [old_leader_diverges]. *)

From S2P Require Import Prelude Record Index Segment Log Recovery Replication Cluster Fsm Broker Committed.

(** ** What never goes back *)

(** The history only gets longer, and so does every follower's log. *)
Definition grows (w w' : world) : Prop :=
  w_history w `prefix_of` w_history w' /\
  forall i F, w_copies w !! i = Some F -> exists F', w_copies w' !! i = Some F' /\ nextOffset F <= nextOffset F'.

Lemma grows_same w w' : w_history w `prefix_of` w_history w' -> w_copies w' = w_copies w -> grows w w'.
Proof. intros Hh Hc. split; [done|]. intros i F HF. exists F. by rewrite Hc. Qed.

Lemma grows_copy w i F F' : w_copies w !! i = Some F -> nextOffset F <= nextOffset F' ->
  grows w (mkWorld (w_node w) (<[i := F']> (w_copies w)) (w_history w)).
Proof.
  intros HF Hn. split; [done|]. intros j G HG. cbn. destruct (decide (i = j)) as [<-|].
  - exists F'. rewrite lookup_insert_eq. split; [done|]. by simplify_eq.
  - exists G. by rewrite lookup_insert_ne.
Qed.

#[export] Instance grows_preorder : PreOrder grows.
Proof.
  split; [intros w; by apply grows_same|]. intros w1 w2 w3 [H1 H2] [G1 G2]. split; [by etrans|].
  intros i F HF. destruct (H2 i F HF) as (F2 & HF2 & Hle). destruct (G2 i F2 HF2) as (F3 & HF3 & Hle3). exists F3. split; [done|lia].
Qed.

Lemma step_grows topic p raft w w' : world_ok topic p w -> world_step topic p raft w w' -> grows w w'.
Proof.
  intros Hok. pose proof Hok as [(l0 & _ & _ & _ & Hrep) Hcop _].
  intros [e b l l' o b' Hg Hb Hroom Happ Hpat|e b l l' o er Hg Hb Hroom Happ|l l' Hg Hq|i F off now HF Hoff
    |i F e b F' r HF Hb Hroom Happ|i F x HF|i F F' HF Hq|now x|st]; try (by apply grows_same).
  - apply grows_same; [by eexists|done].
  - destruct (Hcop i F HF) as [post Hpost]. eapply grows_copy; [done|].
    by destruct (replica_receive _ _ _ _ _ _ _ _ Hpost (history_chained _ _ Hrep) Hb Hroom Happ).
  - eapply grows_copy; [done|]. unfold SetHighWatermark. by destruct (highWatermark F <? _).
  - destruct (Hcop i F HF) as [post Hpost]. destruct (quiet_replica _ _ _ _ Hq Hpost) as (_ & Hn & _). eapply grows_copy; [done|lia].
Qed.

Lemma steps_grow topic p raft w w' : world_ok topic p w -> rtc (world_step topic p raft) w w' -> grows w w'.
Proof.
  intros Hok Hs. revert Hok. induction Hs as [w|w w1 w2 Hs _ IH]; intros Hok; [done|].
  etrans; [by eapply step_grows|]. apply IH. by eapply world_step_ok.
Qed.

(** ** Reading one batch *)

Lemma chained_unique o bs n b b' off : chained o bs n -> b ∈ bs -> b' ∈ bs ->
  BaseOffset (headerOf b) <= off < next_of b -> BaseOffset (headerOf b') <= off < next_of b' -> b = b'.
Proof.
  revert o. induction bs as [|x bs IH]; intros o; cbn [chained]; [by intros _ ?%elem_of_nil|].
  intros [_ Hc] [->|Hb]%elem_of_cons [->|Hb']%elem_of_cons Ho Ho'; [done| | |by eapply IH].
  - destruct (chained_span _ _ _ _ Hc Hb'). lia.
  - destruct (chained_span _ _ _ _ Hc Hb). lia.
Qed.

(** A read at an offset of a stored batch answers that batch first. *)
Lemma Read_batch l bss bs b off max :
  log_rep l bss bs -> b ∈ contents bss bs -> in_int 32 max -> EarliestOffset l <= off -> BaseOffset (headerOf b) <= off < next_of b ->
  exists out, Read off max l = Ret (b ++ out, None).
Proof.
  intros Hr Hb Hmax He Ho. pose proof (log_contents _ _ _ Hr) as Hc. destruct (chained_span _ _ _ _ Hc Hb) as [_ Hn].
  destruct (Read_spec l bss bs Hr off max Hmax) as (rs & tl & b0 & rs' & Hrd & Hd & -> & Hb0 & _); [lia|].
  assert (b0 = b) as ->.
  { eapply chained_unique; [exact Hc| |exact Hb|exact Hb0|exact Ho]. destruct (drop_before_suffix off (contents bss bs)) as (b1 & Hsuf & _).
    rewrite Hsuf, Hd. apply elem_of_app. right. by left. }
  exists (concat rs'). exact Hrd.
Qed.

(** For every batch of [hist] below [h] that [F] has not retired, a read at any of
    its offsets answers that batch first. *)
Definition answers (hist : list (list byte)) (h : Z) (F : Log) : Prop :=
  forall bt off max, bt ∈ hist -> next_of bt <= h -> in_int 32 max ->
    EarliestOffset F <= off -> BaseOffset (headerOf bt) <= off < next_of bt ->
    exists out, Read off max F = Ret (bt ++ out, None).

(** ** Properties *)

(** C2: committed records survive the loss of the leader, if no replica joined the
    ISR after they were committed.  In a run of a partition under one leader from
    empty logs, let a step move the leader's high watermark to [h] while [pv] is the
    committed placement, and let the run go on in any way.  When the controller
    then finds the leader dead and its scan elects the live in-sync replica [s],
    and the ISR has no member it did not have in [pv]
    ([Broker.lagging_replica_joins_ISR] is the other case), then [s] is the committed leader of the
    next epoch, its log holds nothing but the history, and for every batch that was
    committed and that [s] has not retired, a read at any of its offsets answers
    that batch first, byte for byte. *)
Theorem committed_survives_failover topic p raft c b ids w w1 w2 h st pv lv now st2 pv2 s rest :
  rtc (world_step topic p raft) (fresh_world topic p c b ids) w -> world_step topic p raft w w1 ->
  hwm_of topic p w1 = Some h -> hwm_of topic p w1 <> hwm_of topic p w ->
  ctrl (w_node w1) = Some st -> Partition st topic p = Some pv ->
  rtc (world_step topic p raft) w1 w2 ->
  small_topics st2 -> livenessTimeout <= now - leaderSince lv -> Partition st2 topic p = Some pv2 ->
  v_Leader pv2 < 0 \/ alive lv (v_Leader pv2) now = false ->
  filter (fun id => alive lv id now = true) (v_ISR pv2) = s :: rest -> s <> v_Leader pv2 -> s <> me (w_node w1) ->
  (forall i, i ∈ v_ISR pv2 -> i ∈ v_ISR pv) ->
  (exists pv', Partition (applyAll (checkFailover lv now st2) st2) topic p = Some pv' /\
     v_Leader pv' = s /\ v_LeaderEpoch pv' = int32 (v_LeaderEpoch pv2 + 1) /\ v_Replicas pv' = v_Replicas pv2) /\
  exists F post, w_copies w2 !! s = Some F /\ replica_of (w_history w2) F post /\ h <= nextOffset F /\
    answers (w_history w1) h F.
Proof.
  intros Hrun Hstep Hh Hmove Hctrl Hpv Hafter Hsm Ht Hpv2 Hdead Hsurv Hne Hself Hisr.
  destruct (failover_elects _ _ _ _ _ _ _ _ Hsm Ht Hpv2 Hdead Hsurv Hne) as (Hel & Hin & _).
  split; [by eexists|]. assert (world_ok topic p w) as Hok by (eapply world_steps_ok; [apply fresh_ok|done]).
  destruct (world_step_ok _ _ _ _ _ Hok Hstep) as [Hok1 Hce].
  destruct (Hce Hmove) as (st' & pv' & h' & E1 & E2 & _ & E3 & Hall). rewrite Hctrl in E1. injection E1 as <-.
  rewrite Hpv in E2. injection E2 as <-. rewrite Hh in E3. injection E3 as <-.
  destruct (Hall s (Hisr _ Hin) Hself) as (F1 & HF1 & Hn1 & _).
  destruct (steps_grow _ _ _ _ _ Hok1 Hafter) as [[more Hhist] Hcop]. destruct (Hcop s F1 HF1) as (F & HF & Hn).
  pose proof (world_steps_ok _ _ _ _ _ Hok1 Hafter) as [(l2 & _ & _ & _ & Hl2) Hc2 _]. destruct (Hc2 s F HF) as [post Hpost].
  exists F, post. split_and!; [done|done|lia|]. intros bt off max Hbt Hle Hmax He Ho.
  destruct (replica_holds _ F post _ h bt Hpost (history_chained _ _ Hl2)) as (bss & bs & Hr & Hb);
    [lia|rewrite Hhist; apply elem_of_app; by left|done|lia|].
  by eapply Read_batch.
Qed.

(** ** Concrete runs *)

Definition demoCommitted : world :=
  mkWorld (RecordReplicaFetch 5 "orders" 0 3 3 (w_node demoReplicated)) (w_copies demoReplicated) (w_history demoReplicated).

(** Node 1 commits a batch with node 3 and is lost; node 3 is elected and serves it. *)
Lemma committed_survives_failover_witness :
  exists F out, w_copies demoCommitted !! 3 = Some F /\ Read 1 100 F = Ret (demoStored ++ out, None).
Proof.
  destruct (committed_survives_failover "orders" 0 applyLocked demoConfig demoNode [3] demoReplicated demoCommitted demoCommitted 3
    demoMeta (mkView 1 0 [1; 2; 3] [1; 3]) demoLive 10000 demoMeta (mkView 1 0 [1; 2; 3] [1; 3]) 3 []) as (_ & F & post & HF & _ & _ & Hread).
  - exact demo_run.
  - apply (w_fetch _ _ _ _ 3 demoFollowerLog 3 5); vm_compute; [reflexivity|discriminate].
  - vm_compute. reflexivity.
  - vm_compute. discriminate.
  - vm_compute. reflexivity.
  - vm_compute. reflexivity.
  - apply rtc_refl.
  - apply (bool_decide_eq_true_1 _). vm_compute. reflexivity.
  - vm_compute. discriminate.
  - vm_compute. reflexivity.
  - right. vm_compute. reflexivity.
  - vm_compute. reflexivity.
  - vm_compute. discriminate.
  - vm_compute. discriminate.
  - intros i Hi. exact Hi.
  - assert (EarliestOffset F <= 1) as He by (vm_compute in HF; injection HF as <-; vm_compute; discriminate).
    destruct (Hread demoStored 1 100) as [out Hout]; [by left|vm_compute; discriminate|solve_int|exact He|split; vm_compute; [discriminate|reflexivity]|].
    exists F, out. split; [exact HF|exact Hout].
Defined.

(** A log is never cut back to its leader's.  Node 1 leads, replicates one batch to
    node 3 and appends a second one that nobody has; it is lost and node 3, which
    does hold everything committed, is elected and appends another batch at the same
    offset.  When node 1 comes back as a follower it skips what it lacks, because its
    log end is already there, and goes on behind it: the two logs differ at offset
    3, both end at 5, and the fetch of node 1 lets node 3 commit all of it. *)
Theorem old_leader_diverges :
  let other := mkBatch 0 0 1 3000 (be_put 4 9) in
  let l1 := runAppend demoBatch2 (runAppend demoBatch1 (freshLog demoConfig)) in
  let l3 := runAppend demoBatch2 (runAppend other (HoldHighWatermark demoFollowerLog)) in
  let st := applyAll (checkFailover demoLive 10000 demoMeta) demoMeta in
  let st' := fst (applyLocked (CmdChangeISR "orders" 0 [3; 1]) st) in
  let node3 := mkNode (b_cfg demoNode) (mkCluster 3 (brokers demoCluster)) (Some st') None ∅ ∅ {[ ("orders"%string, 0) := l3 ]} ∅ ∅ in
  exists b3 b4 l1' x y,
    PartitionLeader st "orders" 0 = Some (3, 1) /\
    Read 3 1 l3 = Ret (b3, None) /\ Read 4 1 l3 = Ret (b4, None) /\
    AppendReplica io_ok b3 l1 = (l1, (4, None)) /\ AppendReplica io_ok b4 l1 = (l1', (5, None)) /\
    LatestOffset l1' = 5 /\ LatestOffset l3 = 5 /\
    Read 3 1 l1' = Ret (x, None) /\ Read 3 1 l3 = Ret (y, None) /\ bool_decide (x = y) = false /\
    HighWatermark <$> getLog "orders" 0 (RecordReplicaFetch 11000 "orders" 0 1 5 node3) = Some 5.
Proof. cbv zeta. do 5 eexists. do 10 (split; [vm_compute; reflexivity|]). vm_compute. reflexivity. Qed.
