(* ===== verification/ObjectNode.v ===== *)
(** * internal/broker/broker.go on the object backend

    [Broker] models the node with file logs.  When the node storage of the object
    backend is installed ([SetObjectStorage]), [openLocked] answers handles of that
    storage instead, and the calls that walk the open logs reach the storage through
    them.  Placement, leadership and the fetchers do not depend on the backend and
    are those of [Broker]: [on_node] is that node, without file logs.  The object
    backend always has a controller (main.go). *)

From S2P Require Import Prelude Strconv Log Recovery Replication Cluster Fsm Wal WalSync ObjectIndex Objects Uploads Broker Shutdown.

Section Node.
Context {OS IS : Type} `{ObjectStore OS} `{IndexStore IS}.

Record ObjNode := mkObjNode { on_node : Node; on_storage : Storage OS IS; on_logs : gmap tp ObjectLog }.

Definition setHandle (k : tp) (l : ObjectLog) (n : ObjNode) : ObjNode := mkObjNode (on_node n) (on_storage n) (<[k := l]> (on_logs n)).

(** [New] when the backend is "object": the data directory is not scanned. *)
Definition NewObject (c : BrokerConfig) (cl : Cluster) (ds : gmap string dir) : Node := mkNode c cl None None ds ∅ ∅ ∅ ∅.

Definition SetObjectStorage (s : Storage OS IS) (b : Node) : ObjNode := mkObjNode b s ∅.

Definition openObject (topic : string) (p : Z) (n : ObjNode) : ObjNode * (ObjectLog + error) :=
  match on_logs n !! (topic, p) with
  | Some l => (n, inl l)
  | None =>
    match storage_Log topic p (on_storage n) with
    | (s, inr er) => (mkObjNode (on_node n) s (on_logs n), inr er)
    | (s, inl l) => (setHandle (topic, p) l (mkObjNode (on_node n) s (on_logs n)), inl l)
    end
  end.

(** With a controller topics are never registered here. *)
Definition LocalLogO (topic : string) (p : Z) (n : ObjNode) : go (ObjNode * (ObjectLog + error)) :=
  let np := NumPartitions topic (on_node n) in
  if (p <? 0) || (np <=? p) then Ret (n, inr ErrUnknownPartition)
  else
    lead ← leads topic p (on_node n);
    if negb lead then Ret (n, inr ErrNotLeader) else Ret (openObject topic p n).

(** ** Reconciliation with the committed placement *)

Definition reconcilePartO (topic : string) (p : Z) (pv : PartitionView) (n : ObjNode) : ObjNode * list (tp * bool) :=
  if negb (containsNode (v_Replicas pv) (me (on_node n))) then (n, [])
  else
    match openObject topic p n with
    | (n', inr _) => (n', [])
    | (n', inl l) =>
      if 1 <? zlen (v_Replicas pv)
      then (setHandle (topic, p) (HoldHighWatermark l) n', [((topic, p), v_Leader pv =? me (on_node n))])
      else (n', [])
    end.

Fixpoint reconcilePartsO (ps : list (tp * PartitionView)) (n : ObjNode) : ObjNode * list (tp * bool) :=
  match ps with
  | [] => (n, [])
  | ((topic, p), pv) :: ps =>
    let '(n', a) := reconcilePartO topic p pv n in
    let '(n'', acts) := reconcilePartsO ps n' in
    (n'', a ++ acts)
  end.

Definition reconcileFromFSMO (now : Z) (n : ObjNode) : ObjNode :=
  match ctrl (on_node n) with
  | None => n
  | Some st =>
    let '(n', acts) := reconcilePartsO (allParts st) n in
    mkObjNode (foldl (followAction now) (on_node n') acts) (on_storage n') (on_logs n')
  end.

Definition SetControllerO (now : Z) (st : metaState) (n : ObjNode) : ObjNode :=
  let b := on_node n in
  reconcileFromFSMO now (mkObjNode (withRepl (Some (NewManager (me b))) (withCtrl (Some st) b)) (on_storage n) (on_logs n)).

(** ** Maintenance *)

(** [FlushAll]: every open handle syncs the node's write-ahead log. *)
Fixpoint FlushAllO (synced : tp -> bool) (order : list tp) (n : ObjNode) (W : SyncedWal) : SyncedWal * option error :=
  match order with
  | [] => (W, None)
  | k :: order =>
    match on_logs n !! k with
    | None => FlushAllO synced order n W
    | Some _ =>
      match ObjectLog_Flush (synced k) W with
      | (W', Some er) => (W', Some er)
      | (W', None) => FlushAllO synced order n W'
      end
    end
  end.

Definition retainOne (now : Z) (n : ObjNode) (k : tp) : ObjNode :=
  match on_logs n !! k with
  | None => n
  | Some l =>
    let c := b_cfg (on_node n) in
    let '(l', s', _) := EnforceRetention now (cfg_RetentionMs c) (cfg_RetentionBytes c) l (on_storage n) in
    setHandle k l' (mkObjNode (on_node n) s' (on_logs n))
  end.

Definition EnforceRetentionAllO (now : Z) (order : list tp) (n : ObjNode) : ObjNode :=
  let c := b_cfg (on_node n) in
  if (cfg_RetentionMs c <=? 0) && (cfg_RetentionBytes c <=? 0) then n else foldl (retainOne now) n order.

(** [Close]: the fetchers end, closing a handle does nothing, the storage is closed
    last. *)
Definition CloseO (wakes : list uploadIO) (e : uploadIO) (walClose : option error) (n : ObjNode) : ObjNode * option error :=
  let b := on_node n in
  let '(s, er) := storage_Close wakes e walClose (on_storage n) in
  (mkObjNode (withRepl (fst ∘ Replication.Close <$> repl b) b) s (on_logs n), er).

End Node.
Arguments ObjNode : clear implicits.

(** ** Opening partitions of a storage that was just recovered *)

Section Restart.
Context {OS IS : Type} `{ObjectStoreLaws OS} `{IndexStoreLaws IS}.
Context (s : Storage OS IS) (recs : list walRecord) (Hwl : walled s recs).

Definition ikey (k : tp) : string := indexKey k.1 k.2.

(** What partition [k] held before the restart. *)
Definition held (k : tp) (o n : Z) (bss : list (list (list byte))) (bs : list (list byte)) : Prop :=
  part_rep s (ikey k) o n bss bs /\ 0 <= o /\ n < 2 ^ 63 /\ (o < n \/ n = 0).

Definition openable (k : tp) : Prop :=
  (exists refs, ixLoad (ix_store (st_index s)) k.1 k.2 = inl refs) /\ exists o n bss bs, held k o n bss bs.

(** The log was replayed into [s1], and some partitions were opened. *)
Record recovering (s1 : Storage OS IS) : Prop := {
  rv_replayed : replayed recs s1; rv_ok : node_ok s1; rv_view : view s1 = view s;
  rv_store : ix_store (st_index s1) = ix_store (st_index s) }.

(** The handle of a partition that was recovered. *)
Definition recovered (s1 : Storage OS IS) (k : tp) (hold : bool) (l : ObjectLog) : Prop :=
  ol_topic l = k.1 /\ ol_partition l = k.2 /\ ol_hold l = hold /\
  forall o n bss bs, held k o n bss bs -> log_holds s1 l o n bss bs /\ ol_hwm l = n.

Lemma recovered_hold s1 k l : recovered s1 k false l -> recovered s1 k true (HoldHighWatermark l).
Proof.
  intros (Ht & Hp & _ & Hl). split_and!; [done..|]. intros o n bss bs Hk. destruct (Hl _ _ _ _ Hk) as [[P1 [P2 P3 P4] P5] P6].
  split; [by split|done].
Qed.

Lemma open_one s1 k : recovering s1 -> openable k ->
  exists s2 l, storage_Log k.1 k.2 s1 = (s2, inl l) /\ recovering s2 /\ recovered s2 k false l /\
    forall j hold l', openable j -> recovered s1 j hold l' -> recovered s2 j hold l'.
Proof.
  intros [R1 R2 R3 R4] [[refs Hrefs] (o & n & bss & bs & Hh & Ho & Hn & Hon)].
  pose proof (fun o n bss bs Hr Ho Hn Hon => Log_recovers s s1 recs k.1 k.2 o n bss bs Hwl R1 R2 R3 R4 Hr Ho Hn Hon) as Hrec.
  pose proof (Hrec _ _ _ _ Hh Ho Hn Hon) as Hone. unfold storage_Log, load in *. rewrite R4, Hrefs in *.
  set (ix := mkIndex _ _) in *. set (l := mkObjectLog _ _ _ _ _ _) in *. exists (withIndex ix s1), l. split; [done|].
  assert (forall q, durable (withIndex ix s1) q = durable s q) as Hdu by (intros q; unfold durable; cbn; by rewrite ?R4).
  split; [by split; [|apply Hone| |]|]. split.
  - split_and!; [done..|]. intros o' n' bss' bs' (P1 & P2 & P3 & P4). destruct (Hrec _ _ _ _ P1 P2 P3 P4) as (_ & G1 & _ & _ & G2). done.
  - intros j hold l' _ (Ht & Hp & Hd & Hl). split_and!; [done..|]. intros o' n' bss' bs' Hj.
    destruct (Hl _ _ _ _ Hj) as [[G1 G2 G3] G4]. split; [split; [|done|done]|done].
    eapply part_rep_view; [exact G1| |by rewrite Hdu; unfold durable; rewrite R4|done|done].
    set (q := indexKey (ol_topic l') (ol_partition l')) in *. destruct (decide (q = ikey k)) as [Heq|Hne].
    + pose proof (pr_durable _ _ _ _ _ _ (lh_part _ _ _ _ _ _ (proj1 (proj2 Hone)))) as C1.
      change (indexKey (ol_topic l) (ol_partition l)) with (ikey k) in C1. rewrite <- Heq, Hdu in C1.
      rewrite <- C1, <- (pr_durable _ _ _ _ _ _ G1). unfold durable. by rewrite R4.
    + unfold cached. cbn. by rewrite lookup_insert_ne.
Qed.

Definition keeps_node (n n' : ObjNode OS IS) : Prop :=
  on_node n' = on_node n /\ recovering (on_storage n') /\
  forall j hold l, on_logs n !! j = Some l -> openable j -> recovered (on_storage n) j hold l -> recovered (on_storage n') j hold l.

Definition is_placed (n : ObjNode OS IS) (pv : PartitionView) : Prop := me (on_node n) ∈ v_Replicas pv.
Definition is_shared (pv : PartitionView) : bool := 1 <? zlen (v_Replicas pv).

Lemma reconcilePartO_ok n k pv : recovering (on_storage n) -> on_logs n !! k = None -> (is_placed n pv -> openable k) ->
  exists n' a, reconcilePartO k.1 k.2 pv n = (n', a) /\ keeps_node n n' /\ (forall j, j <> k -> on_logs n' !! j = on_logs n !! j) /\
    ((~ is_placed n pv /\ on_logs n' !! k = None /\ a = []) \/
     (is_placed n pv /\ a = (if is_shared pv then [(k, v_Leader pv =? me (on_node n))] else []) /\
      exists l, on_logs n' !! k = Some l /\ recovered (on_storage n') k (is_shared pv) l)).
Proof.
  intros Hrv Hk Hop. unfold reconcilePartO, is_placed in *. destruct (containsNode (v_Replicas pv) (me (on_node n))) eqn:Hc; cbn [negb].
  2:{ exists n, []. split_and!; [done|by split|done|]. left. split_and!; [|done|done]. rewrite <- containsNode_spec, Hc. done. }
  apply containsNode_spec in Hc. destruct (open_one _ _ Hrv (Hop Hc)) as (s2 & l & Hl & Hrv2 & Hrl & Hkeep).
  unfold openObject. destruct k as [topic p]. cbn [fst snd] in *. rewrite Hk, Hl. unfold is_shared. set (n1 := setHandle _ _ _).
  assert (keeps_node n n1) as Hn1 by (split_and!; [done|done|intros j hold l' _ Hj Hrj; by apply Hkeep]).
  destruct (1 <? zlen (v_Replicas pv)) eqn:Hz.
  - eexists _, _. split; [reflexivity|]. split; [exact Hn1|]. split.
    + intros j Hj. cbn. by rewrite !lookup_insert_ne.
    + right. split_and!; [done|done|]. eexists. split; [apply lookup_insert_eq|]. by apply recovered_hold.
  - eexists _, _. split; [reflexivity|]. split; [exact Hn1|]. split.
    + intros j Hj. cbn. by rewrite lookup_insert_ne.
    + right. split_and!; [done|done|]. exists l. split; [apply lookup_insert_eq|done].
Qed.

Lemma reconcilePartsO_ok ps n : NoDup ps.*1 -> recovering (on_storage n) -> (forall k, k ∈ ps.*1 -> on_logs n !! k = None) ->
  (forall k pv, (k, pv) ∈ ps -> is_placed n pv -> openable k) ->
  exists n' acts, reconcilePartsO ps n = (n', acts) /\ keeps_node n n' /\ (forall j, j ∉ ps.*1 -> on_logs n' !! j = on_logs n !! j) /\
    acts.*1 `sublist_of` ps.*1 /\
    forall k pv, (k, pv) ∈ ps ->
      (~ is_placed n pv -> on_logs n' !! k = None) /\
      (is_placed n pv -> exists l, on_logs n' !! k = Some l /\ recovered (on_storage n') k (is_shared pv) l) /\
      (is_placed n pv -> is_shared pv = true -> (k, v_Leader pv =? me (on_node n)) ∈ acts).
Proof.
  revert n. induction ps as [|[k pv] ps IH]; intros n Hnd Hrv Hnone Hop.
  { exists n, []. split_and!; [done|by split|done|done|]. by intros ?? ?%elem_of_nil. }
  cbn in Hnd. apply NoDup_cons in Hnd as [Hk Hnd].
  destruct (reconcilePartO_ok n k pv Hrv) as (n1 & a & Hp & [Hn1 [Hrv1 Hkeep1]] & Hoth & Hcase).
  { apply Hnone. by left. }
  { apply Hop. by left. }
  assert (forall q, is_placed n1 q <-> is_placed n q) as Hpl by (intros q; unfold is_placed; by rewrite Hn1).
  destruct (IH n1 Hnd Hrv1) as (n2 & acts & Hps & [Hn2 [Hrv2 Hkeep2]] & Hoth2 & Hsub & Hall).
  { intros j Hj. rewrite Hoth by (intros ->; done). apply Hnone. by right. }
  { intros j q Hj Hq%Hpl. eapply Hop; [by right|done]. }
  destruct k as [topic p]. cbn [reconcilePartsO fst snd] in *. rewrite Hp, Hps. exists n2, (a ++ acts).
  assert (openable (topic, p) \/ ~ is_placed n pv) as Hopk.
  { destruct Hcase as [(? & _)|(Hin & _)]; [by right|]. left. eapply Hop; [by left|done]. }
  split_and!; [done|split_and!; [congruence|done|]| | |].
  - intros j hold l Hl Hj Hr. destruct (decide (j = (topic, p))) as [->|Hne]; [rewrite Hnone in Hl; [done|by left]|].
    eapply Hkeep2; [rewrite Hoth by done; exact Hl|done|]. by eapply Hkeep1.
  - intros j [Hj1 Hj2]%not_elem_of_cons. rewrite Hoth2 by done. by apply Hoth.
  - destruct Hcase as [(_ & _ & ->)|(_ & -> & _)]; [by constructor|]. destruct (is_shared pv); cbn; by constructor.
  - intros j q [[= -> ->]|Hj]%elem_of_cons.
    + rewrite Hoth2 by done. destruct Hcase as [(Hno & Hl & ->)|(Hin & -> & l & Hl & Hr)].
      * split_and!; [done|by intros ?%Hno|by intros ?%Hno].
      * split_and!; [by intros ?|intros _; exists l; split; [done|]|intros _ ->; apply elem_of_app; left; by left].
        destruct Hopk as [Hopk|?]; [|done]. by eapply Hkeep2.
    + destruct (Hall j q Hj) as (A1 & A2 & A3). rewrite <- (Hpl q), <- Hn1. split_and!; [done|done|].
      intros P5 P6. apply elem_of_app. right. by apply A3.
Qed.

End Restart.

(** ** Properties *)


(** The node of [Uploads] with one batch in its buffer, as the leader of a partition
    with three replicas. *)
Lemma demoRun_openable k : openable demoRun.2 k.
Proof.
  destruct demoRun_ok as (_ & _ & Hl). split; [by eexists|]. destruct (decide (ikey k = ikey ("orders"%string, 0))) as [Heq|Hne].
  - exists 0, 3, [], [demoStored]. split_and!; [|lia|lia|lia]. rewrite Heq. apply Hl.
  - exists 0, 0, [], []. split_and!; [|lia|lia|lia]. split.
    + exists 0. assert (cached demoRun.2 (ikey k) = []) as -> by (by vm_compute). split; [done|].
      assert (st_pending demoRun.2 !! ikey k = None) as ->; [|done].
      assert (st_pending demoRun.2 = {[ikey ("orders"%string, 0) := default (mkPending "" 0 0 0 [] 0) (st_pending demoRun.2 !! ikey ("orders"%string, 0))]}) as ->
        by (vm_compute; reflexivity).
      by rewrite lookup_singleton_ne.
    + by vm_compute.
Qed.


Section Flushing.
Context {OS IS : Type} `{ObjectStore OS} `{IndexStore IS} (synced : tp -> bool) (n : ObjNode OS IS).

Lemma sync_twice W : sync true (fst (sync true W)) = (fst (sync true W), None).
Proof. unfold sync, syncActive. cbn. by rewrite insert_insert_eq. Qed.

(** A log that is on the disk stays as it is. *)
Lemma flush_clean order W W' : sync true W = (W, None) -> FlushAllO synced order n W = (W', None) -> W' = W.
Proof.
  intros Hc. induction order as [|k order IH]; cbn [FlushAllO]; [by intros [= <-]|]. destruct (on_logs n !! k); [|done].
  unfold ObjectLog_Flush, storage_sync. destruct (synced k); [by rewrite Hc|done].
Qed.

Lemma flush_syncs order W W' k : FlushAllO synced order n W = (W', None) -> k ∈ order -> is_Some (on_logs n !! k) -> W' = fst (sync true W).
Proof.
  induction order as [|j order IH]; cbn [FlushAllO]; [by intros _ ?%elem_of_nil|]. destruct (on_logs n !! j) eqn:Ej.
  - unfold ObjectLog_Flush, storage_sync. destruct (synced j); [|done]. intros Hf _ _.
    apply (flush_clean order); [apply sync_twice|exact Hf].
  - intros Hf [->|Hk]%elem_of_cons Hs; [destruct Hs; congruence|by apply IH].
Qed.

End Flushing.

(** Stopping the node.  [FlushAll] without an error has synced the write-ahead log if
    any partition is open; a [Close] without an error then leaves no fetcher, nothing
    pending and nothing to replay, and every partition with the batches it had, all
    in objects. *)
Theorem object_node_stops {OS IS : Type} `{ObjectStoreLaws OS} `{IndexStoreLaws IS} synced order W W' wakes e walClose (n n' : ObjNode OS IS) :
  FlushAllO synced order n W = (W', None) -> CloseO wakes e walClose n = (n', None) ->
  let s1 := run wakes (on_storage n) in node_ok s1 -> fresh_keys s1 -> can_upload s1 -> u_removed e = (fun _ => true) ->
  (forall k, k ∈ order -> is_Some (on_logs n !! k) -> W' = fst (sync true W)) /\
  (forall m, repl (on_node n') = Some m -> m_fetchers m = ∅) /\ on_logs n' = on_logs n /\ st_pending (on_storage n') = ∅ /\
  replay collect (fun _ => true) (st_wal (on_storage n')) [] = Ret ([], None) /\
  forall k o e' bss bs, part_rep s1 k o e' bss bs -> exists bss', part_rep (on_storage n') k o e' bss' [] /\ contents bss' [] = contents bss bs.
Proof.
  intros Hf Hc s1 Hno Hfr Hcan Hrem. unfold CloseO in Hc.
  destruct (storage_Close wakes e walClose (on_storage n)) as [s' er] eqn:Es. injection Hc as <- ->. cbn [on_node on_logs on_storage].
  destruct (storage_close_uploads _ _ _ _ _ Hno Hfr Hcan Hrem Es) as (C1 & C2 & C3). split_and!; [..|done|done|done|].
  - intros k. by apply (flush_syncs _ _ _ _ _ _ Hf).
  - intros m. destruct (repl (on_node n)) as [m0|]; [|done]. cbn. by intros [= <-].
  - intros k o e' bss bs Hp. destruct (C3 _ _ _ _ _ Hp). by eexists.
Qed.
