(* ===== verification/Lifetime.v ===== *)
(** * cmd/mqbroker/main.go: the life of a node

    Starting the command: configuration, cluster view, broker, offset store,
    listener, and, where there is one, the controller and the node storage of the
    object backend ([start]); the loops that flush and enforce retention while it
    serves; a power failure and the next start.  What the operating system and the
    libraries answer is in [startIO].  The theorem is about a node without a
    controller, on the file backend, over any number of power failures and
    restarts; [Shutdown] has the regular end, [Committed] and [Failover] a
    replicated partition, [ObjectNode] the object backend. *)

From stdpp Require Import sorting.
From S2P Require Import Prelude Kbytes Record Segment Strconv Log Recovery Durable Replication Cluster Fsm Rpc Wal ObjectIndex Objects Minio Offsets Coordinator Config Broker Mqbroker Shutdown ObjectNode.

(** ** Starting *)

(** What [broker.New] takes from the configuration. *)
Definition brokerConfig (cfg : Config.Config) : BrokerConfig :=
  mkBrokerConfig (Config.NumPartitions cfg) (ReplicationFactor cfg) (AutoCreateTopics cfg) (RetentionMs cfg) (RetentionBytes cfg)
    (Log.mkConfig (Config.SegmentBytes cfg) (Config.IndexIntervalBytes cfg)).

Section Start.
Context {C Opts : Type} `{MinioClient C Opts}.
Context (connect : string -> string * string -> bool -> string -> C + error).

(** [index]: the controller's index store; [walDir]: the files under "wal". *)
Definition buildObjectStorage (cfg : Config.Config) (index : metaState) (walDir : dir) : go (Storage (minioStore C) metaState + error) :=
  match NewMinIO connect (mkS3Config (ObjectEndpoint cfg) (ObjectBucket cfg) (ObjectAccessKey cfg) (ObjectSecretKey cfg) (ObjectRegion cfg)) with
  | inr er => Ret (inr er)
  | inl store => NewStorage (fun _ => true) (mkStorageConfig (Itoa (Config.NodeID cfg)) (ObjectUploadBytes cfg)) store index walDir
  end.

(** What the calls of main answer: whether the data directory and the offsets
    directory can be made and read, the opens of the logs, whether the listener
    opens, the calls of [controller.New], and the local metadata when the wait for
    a controller leader is over. *)
Record startIO := mkStartIO {
  si_mkdir : bool; si_open : tp -> openIO; si_offsets : bool; si_listen : bool;
  si_fails : newStep -> bool; si_hadState : bool; si_meta : metaState; si_now : Z }.

(** The parts of a serving node.  Of a log that was opened, what is in the files is
    on the disk, as after a power failure ([afterOpen]). *)
Record System := mkSystem { sy_run : Running; sy_groups : gmap string group; sy_store : OffsetStore }.

Definition openedMarks (b : Node) : gmap tp marks :=
  map_imap (fun k l => Some (dk_marks (afterOpen (default ∅ (dirs b !! partitionDir k.1 k.2)) l))) (logs b).

Inductive outcome :=
  | Exit (code : Z)
  | Serving (y : System)
  | ServingObject (n : ObjNode (minioStore C) metaState) (groups : gmap string group) (store : OffsetStore).

Definition start (env : environ) (args : list string) (io : startIO) (ds : gmap string dir) (offsets : disk) (walDir : dir) : go outcome :=
  let cfg := Config.Load env args in
  match Cluster.Parse (Config.NodeID cfg) (Config.Brokers cfg) (AdvertisedHost cfg) (AdvertisedPort cfg) with
  | inr _ => Ret (Exit 1)
  | inl cl =>
    let objectBackend := String.eqb (StorageBackend cfg) "object" in
    if negb (si_mkdir io) then Ret (Exit 1)
    else
      '(b, er) ← (if objectBackend then Ret (NewObject (brokerConfig cfg) cl ds, None) else New (si_open io) (brokerConfig cfg) cl ds);
      match er with
      | Some _ => Ret (Exit 1)
      | None =>
        if negb (si_offsets io) then Ret (Exit 1)
        else
          let store := NewOffsetStore offsets in
          if negb (si_listen io) then Ret (Exit 1)
          else if negb (needsController cfg cl) then Ret (Serving (mkSystem (mkRunning b false (openedMarks b)) ∅ store))
          else
            match startController cfg cl with
            | inr _ => Ret (Exit 1)
            | inl cc =>
              if negb (NewController (si_fails io) (si_hadState io) cc).2 then Ret (Exit 1)
              else if objectBackend then
                r ← buildObjectStorage cfg (si_meta io) walDir;
                match r with
                | inr _ => Ret (Exit 1)
                | inl s => Ret (ServingObject (SetControllerO (si_now io) (si_meta io) (SetObjectStorage s b)) ∅ store)
                end
              else
                b' ← SetController (si_open io) (si_now io) (si_meta io) b;
                Ret (Serving (mkSystem (fst (startReplicaMaintenance (mkRunning b' false (openedMarks b')))) ∅ store))
            end
      end
  end.

(** The first lines: the health probe is the same program. *)
Definition main (net : string -> bool * bool * (list byte -> list byte)) (env : environ) (args : list string) (io : startIO)
    (ds : gmap string dir) (offsets : disk) (walDir : dir) : go outcome :=
  match args with
  | a :: rest =>
    if String.eqb a "healthcheck" then '(_, code) ← runHealthcheck net rest; Ret (Exit code) else start env args io ds offsets walDir
  | [] => start env args io ds offsets walDir
  end.

End Start.
Arguments outcome : clear implicits.

(** ** The loops beside the server *)

(** In nanoseconds; the product wraps. *)
Definition flushInterval (flushMs : Z) : Z :=
  let interval := int64 (flushMs * 1000000) in if interval <=? 0 then 1000000000 else interval.

(** One list element per tick before the context is cancelled: the outcomes and the
    order of the syncs.  Errors are logged. *)
Fixpoint flushLoop (ticks : list ((tp -> bool) * list tp)) (r : Running) : Running :=
  match ticks with
  | [] => r
  | (synced, order) :: ticks => flushLoop ticks (fst (FlushAllD synced order r))
  end.

Fixpoint retentionLoop (ticks : list (Z * (tp -> Z -> option Z))) (r : Running) : Running :=
  match ticks with
  | [] => r
  | (now, modTime) :: ticks => retentionLoop ticks (mkRunning (EnforceRetentionAll now modTime (rn_node r)) (rn_maint r) (rn_marks r))
  end.

(** ** A node without a controller *)

Definition diskAt (k : tp) (y : System) : option Disk := l ← logs (rn_node (sy_run y)) !! k; Some (mkDisk l (marksAt k (sy_run y))).

Definition withRun (r : Running) (y : System) : System := mkSystem r (sy_groups y) (sy_store y).
Definition withNode (b : Node) (y : System) : System := withRun (mkRunning b (rn_maint (sy_run y)) (rn_marks (sy_run y))) y.
Definition setDisk (k : tp) (D : Disk) (y : System) : System :=
  withRun (mkRunning (setLog k (dk_log D) (rn_node (sy_run y))) (rn_maint (sy_run y)) (<[k := dk_marks D]> (rn_marks (sy_run y)))) y.

(** What a power failure leaves of the data directory: of every log what [Durable]
    allows; other directories have names that are not of a partition. *)
Definition machine_image (y : System) (ds : gmap string dir) : Prop :=
  (forall k D, diskAt k y = Some D -> exists d, ds !! partitionDir k.1 k.2 = Some d /\ power_image D d) /\
  forall name, is_Some (ds !! name) -> dirEntry name = None \/ exists k, is_Some (diskAt k y) /\ name = partitionDir k.1 k.2.

Definition topic_ok (name : string) : Prop := HasPrefix name "__" = false /\ component name = true.

Definition okIO : startIO := mkStartIO true (fun _ => open_ok) true true (fun _ => false) false NewFSM 0.

Section Life.
Context {C Opts : Type} `{MinioClient C Opts} (connect : string -> string * string -> bool -> string -> C + error).
Context (raft : Command -> metaState -> metaState * option error) (env : environ) (args : list string).

(** Producers, topic creation and growth, the two loops, offset commits, and a power
    failure with the next start.  Nothing syncs the offset files: a power failure may
    leave anything of them.  The groups are soft state. *)
Inductive life (y : System) : System -> Prop :=
  | l_append k D b D' z : diskAt k y = Some D -> producer_ok b -> room (dk_log D) b (RecordCount (headerOf b)) ->
      AppendD io_ok b D = Ret (D', (z, None)) -> life y (setDisk k D' y)
  | l_create now name np b' : topic_ok name -> 0 < np < 2 ^ 31 ->
      CreateTopic raft (fun _ => open_ok) now name np (rn_node (sy_run y)) = Ret (b', None) -> life y (withNode b' y)
  | l_grow now name np b' : np < 2 ^ 31 ->
      CreatePartitions raft (fun _ => open_ok) now name np (rn_node (sy_run y)) = Ret (b', None) -> life y (withNode b' y)
  | l_ensure now name n b' : topic_ok name -> 0 < cfg_NumPartitions (b_cfg (rn_node (sy_run y))) < 2 ^ 31 ->
      EnsureTopic raft (fun _ => open_ok) now name (rn_node (sy_run y)) = Ret (b', (n, None)) -> life y (withNode b' y)
  | l_flush ticks : life y (withRun (flushLoop ticks (sy_run y)) y)
  | l_retain ticks : life y (withRun (retentionLoop ticks (sy_run y)) y)
  | l_commit c : call_ok c -> life y (mkSystem (sy_run y) (sy_groups y) (runCommit (sy_store y) c))
  | l_groups g : life y (mkSystem (sy_run y) g (sy_store y))
  | l_power ds offsets y' : machine_image y ds -> start connect env args okIO ds offsets ∅ = Ret (Serving y') -> life y y'.

End Life.

(** ** Invariant *)

(** [alone cl]: the node leads every partition. *)
Definition alone (cl : Cluster) : Prop := forall t p, IsLeader cl t p = Ret true.

Record node_inv (bc : BrokerConfig) (cl : Cluster) (y : System) : Prop := {
  ni_cfg : b_cfg (rn_node (sy_run y)) = bc;
  ni_cluster : b_cluster (rn_node (sy_run y)) = cl;
  ni_ctrl : ctrl (rn_node (sy_run y)) = None;
  ni_catalog : catalog_ok (catalog (rn_node (sy_run y)));
  ni_open : forall t p, is_Some (diskAt (t, p) y) <-> exists n, catalog (rn_node (sy_run y)) !! t = Some n /\ 0 <= p < n;
  ni_logs : forall k D, diskAt k y = Some D -> rtc dstep (freshDisk (cfg_log bc)) D /\ cfg (dk_log D) = cfg_log bc;
  ni_dirs : forall t p, HasPrefix t "__" = false -> 0 <= p < 2 ^ 31 ->
    is_Some (dirs (rn_node (sy_run y)) !! partitionDir t p) -> is_Some (diskAt (t, p) y);
  ni_marks : forall k, is_Some (rn_marks (sy_run y) !! k) -> is_Some (diskAt k y) }.

(** Every log goes on. *)
Definition goes_on_all (y y' : System) : Prop :=
  forall k D, diskAt k y = Some D -> exists D', diskAt k y' = Some D' /\ rtc dstep D D'.

#[export] Instance goes_on_all_preorder : PreOrder goes_on_all.
Proof.
  split; [intros y k D HD; by exists D|]. intros x y z H1 H2 k D HD. destruct (H1 k D HD) as (D1 & HD1 & S1).
  destruct (H2 k D1 HD1) as (D2 & HD2 & S2). exists D2. split; [done|by etrans].
Qed.

Lemma diskAt_Some k y D : diskAt k y = Some D <-> logs (rn_node (sy_run y)) !! k = Some (dk_log D) /\ dk_marks D = marksAt k (sy_run y).
Proof.
  unfold diskAt. destruct (logs _ !! k) as [l|]; cbn; [|naive_solver]. split; [by intros [= <-]|].
  intros [[= ->] Hm]. destruct D as [l' m]. cbn in *. by rewrite Hm.
Qed.

Lemma diskAt_is_Some k y : is_Some (diskAt k y) <-> is_Some (logs (rn_node (sy_run y)) !! k).
Proof. unfold diskAt. destruct (logs _ !! k); cbn; [split; intros _; by eexists|done]. Qed.

(** ** Steps that keep the set of logs *)

Record run_goes (r r' : Running) : Prop := {
  rg_same : same_node (rn_node r) (rn_node r');
  rg_logs : forall k, match logs (rn_node r) !! k, logs (rn_node r') !! k with
    | Some l, Some l' => rtc dstep (mkDisk l (marksAt k r)) (mkDisk l' (marksAt k r'))
    | None, None => True
    | _, _ => False
    end;
  rg_marks : forall k, is_Some (rn_marks r' !! k) -> is_Some (rn_marks r !! k) \/ is_Some (logs (rn_node r) !! k) }.

#[export] Instance run_goes_preorder : PreOrder run_goes.
Proof.
  split.
  - intros r. split; [done| |by left]. intros k. by destruct (logs _ !! k).
  - intros x y z [A1 A2 A3] [B1 B2 B3]. split; [by etrans| |].
    + intros k. specialize (A2 k). specialize (B2 k). destruct (logs (rn_node x) !! k), (logs (rn_node y) !! k), (logs (rn_node z) !! k); try done.
      by etrans.
    + intros k [Hm|Hl]%B3; [by apply A3|]. right. specialize (A2 k). by destruct (logs (rn_node x) !! k), (logs (rn_node y) !! k); destruct Hl.
Qed.

Lemma step_goes k l D' r : logs (rn_node r) !! k = Some l -> rtc dstep (mkDisk l (marksAt k r)) D' ->
  run_goes r (mkRunning (setLog k (dk_log D') (rn_node r)) (rn_maint r) (<[k := dk_marks D']> (rn_marks r))).
Proof.
  intros Hk HD. split; [done| |].
  - intros j. cbn. unfold marksAt. cbn [rn_marks]. destruct (decide (k = j)) as [<-|Hne].
    + rewrite Hk, !lookup_insert_eq. cbn. by destruct D'.
    + rewrite !lookup_insert_ne by done. by destruct (logs _ !! j).
  - intros j. cbn. destruct (decide (k = j)) as [<-|Hne]; [intros _; right; by eexists|]. rewrite lookup_insert_ne by done. by left.
Qed.

Lemma FlushAllD_goes synced order r : run_goes r (fst (FlushAllD synced order r)).
Proof.
  revert r. induction order as [|k order IH]; intros r; cbn [FlushAllD]; [done|].
  destruct (logs (rn_node r) !! k) as [l|] eqn:Hk; [|apply IH]. destruct (FlushD (synced k) _) as [D er] eqn:Ef.
  assert (run_goes r (mkRunning (setLog k (dk_log D) (rn_node r)) (rn_maint r) (<[k := dk_marks D]> (rn_marks r)))) as Hg.
  { eapply step_goes; [done|]. apply rtc_once. replace D with (fst (FlushD (synced k) (mkDisk l (marksAt k r)))) by (by rewrite Ef). apply d_live, d_flush. }
  destruct er; [exact Hg|]. etrans; [exact Hg|apply IH].
Qed.

Lemma flushLoop_goes ticks r : run_goes r (flushLoop ticks r).
Proof. revert r. induction ticks as [|[synced order] ticks IH]; intros r; [done|]. cbn. etrans; [apply FlushAllD_goes|apply IH]. Qed.

Lemma retention_goes now mt r : run_goes r (mkRunning (EnforceRetentionAll now mt (rn_node r)) (rn_maint r) (rn_marks r)).
Proof.
  unfold EnforceRetentionAll. destruct (_ && _); [by destruct r|]. split; [done| |by left]. intros k. cbn. rewrite map_lookup_imap.
  unfold marksAt. cbn [rn_marks]. destruct (logs (rn_node r) !! k) as [l|]; [|done]. cbn. apply rtc_once. apply d_live, d_retain.
Qed.

Lemma retentionLoop_goes ticks r : run_goes r (retentionLoop ticks r).
Proof. revert r. induction ticks as [|[now mt] ticks IH]; intros r; [done|]. cbn. etrans; [apply retention_goes|apply IH]. Qed.

Lemma run_goes_inv bc cl y r' : node_inv bc cl y -> run_goes (sy_run y) r' ->
  node_inv bc cl (withRun r' y) /\ goes_on_all y (withRun r' y).
Proof.
  intros [I1 I2 I3 I4 I5 I6 I7 I8] [(G1 & G2 & G3 & G4 & G5) Gl Gm].
  assert (forall k, is_Some (diskAt k (withRun r' y)) <-> is_Some (diskAt k y)) as Hs.
  { intros k. rewrite !diskAt_is_Some. specialize (Gl k). cbn. destruct (logs (rn_node (sy_run y)) !! k), (logs (rn_node r') !! k); done. }
  assert (goes_on_all y (withRun r' y)) as Hgo.
  { intros k D [Hl Hm]%diskAt_Some. specialize (Gl k). rewrite Hl in Gl. destruct (logs (rn_node r') !! k) as [l'|] eqn:El; [|done].
    exists (mkDisk l' (marksAt k r')). split; [by apply diskAt_Some|]. rewrite <- Hm in Gl. by destruct D. }
  split; [|exact Hgo]. set (y' := withRun r' y) in *.
  split; change (sy_run y') with r'; change (sy_store y') with (sy_store y); try congruence.
  - by rewrite G4.
  - intros t p. rewrite Hs, G4. apply I5.
  - intros k D' HD'. destruct (proj1 (Hs k)) as [D HD]; [by eexists|]. destruct (Hgo k D HD) as (D2 & HD2 & Hst). simplify_eq.
    destruct (I6 k D HD) as [H1 H2]. split; [by etrans|]. by rewrite (dsteps_cfg _ _ Hst).
  - intros t p. rewrite G5, Hs. apply I7.
  - intros k Hk. apply Hs. destruct (Gm k Hk); [by apply I8|by apply diskAt_is_Some].
Qed.

(** ** Creating topics *)

(** The first open of a partition's directory, which is not there yet. *)
Lemma fresh_open c : Open open_ok ∅ c = Ret (inl (freshLog c)).
Proof. reflexivity. Qed.

Section Creating.
Context (cl : Cluster) (Halone : alone cl).

Lemma openLed_spec name p n b b' : b_cluster b = cl -> openLed (fun _ => open_ok) name p n b = Ret (b', None) ->
  same_node b b' /\ (forall k l, logs b !! k = Some l -> logs b' !! k = Some l) /\
  (forall q, p <= q < p + Z.of_nat n -> is_Some (logs b' !! (name, q))) /\
  forall k l, logs b !! k = None -> logs b' !! k = Some l -> k.1 = name /\ p <= k.2 < p + Z.of_nat n /\
    Open open_ok (default ∅ (dirs b !! partitionDir k.1 k.2)) (cfg_log (b_cfg b)) = Ret (inl l).
Proof.
  revert p b. induction n as [|n IH]; intros p b Hcl; cbn [openLed].
  - intros [= <-]. split_and!; [done|done|lia|]. intros k l H1 H2. congruence.
  - rewrite Hcl, Halone. cbn [mbind go_bind]. unfold openLocked. destruct (logs b !! (name, p)) as [l0|] eqn:E0.
    + cbn [mbind go_bind]. intros (S1 & S2 & S3 & S4)%IH; [|done]. split_and!; [done|done| |].
      * intros q Hq. destruct (decide (q = p)) as [->|]; [rewrite (S2 _ _ E0); by eexists|apply S3; lia].
      * intros k l H1 H2. destruct (S4 k l H1 H2) as (? & ? & ?). split_and!; [done|lia|lia|done].
    + destruct (Open _ _ _) as [[l0|er]| |] eqn:Eo; cbn [mbind go_bind]; try done. intros (S1 & S2 & S3 & S4)%IH; [|done].
      assert (logs b' !! (name, p) = Some l0) as Hp by (apply S2; apply lookup_insert_eq).
      split_and!; [by etrans; [|exact S1]| | |].
      * intros k l Hk. apply S2. cbn. rewrite lookup_insert_ne; [done|]. congruence.
      * intros q Hq. destruct (decide (q = p)) as [->|]; [by eexists|apply S3; lia].
      * intros k l H1 H2. destruct (decide (k = (name, p))) as [->|Hne].
        -- rewrite Hp in H2. injection H2 as <-. cbn. split_and!; [done|lia|lia|done].
        -- destruct (S4 k l) as (? & ? & ?); [cbn; by rewrite lookup_insert_ne|done|]. split_and!; [done|lia|lia|done].
Qed.

(** Registering [np] partitions of a topic that has fewer, or is not known. *)
Lemma register_inv bc y name np b' :
  node_inv bc cl y -> HasPrefix name "__" = false -> 0 < np < 2 ^ 31 ->
  (forall cur, catalog (rn_node (sy_run y)) !! name = Some cur -> cur <= np) ->
  registerLocked (fun _ => open_ok) name np (rn_node (sy_run y)) = Ret (b', None) ->
  node_inv bc cl (withNode b' y) /\ goes_on_all y (withNode b' y).
Proof.
  intros [I1 I2 I3 I4 I5 I6 I7 I8] Hname Hnp Hcur Hreg. unfold registerLocked in Hreg. rewrite (proj2 (Z.leb_gt _ _)) in Hreg by lia.
  set (b := rn_node (sy_run y)) in *. apply openLed_spec in Hreg as ((S1 & S2 & S3 & S4 & S5) & Hkeep & Hall & Hnew); [|done].
  rewrite Z2Nat.id, Z.add_0_l in * by lia. cbn [withCatalog b_cfg b_cluster ctrl catalog dirs logs] in *.
  assert (forall k D, diskAt k y = Some D -> diskAt k (withNode b' y) = Some D) as Hold.
  { intros k D [H1 H2]%diskAt_Some. apply diskAt_Some. split; [by apply Hkeep|done]. }
  assert (forall k D, diskAt k y = None -> diskAt k (withNode b' y) = Some D -> k.1 = name /\ 0 <= k.2 < np /\ D = freshDisk (cfg_log bc)) as Hfresh.
  { intros k D Hn [H1 H2]%diskAt_Some. assert (~ is_Some (diskAt k y)) as Hnot by (rewrite Hn; by intros [? ?]).
    destruct (Hnew k (dk_log D)) as (K1 & K2 & K3); [|done|].
    { apply eq_None_not_Some. intros Hs. apply Hnot. by apply diskAt_is_Some. }
    split_and!; [done|lia|lia|]. destruct k as [t p]. cbn [fst snd] in *. subst t.
    assert (dirs b !! partitionDir name p = None) as Hd.
    { apply eq_None_not_Some. intros Hs. apply Hnot. apply I7; [done|lia|done]. }
    assert (rn_marks (sy_run y) !! (name, p) = None) as Hm by (apply eq_None_not_Some; intros Hs; apply Hnot; by apply I8).
    rewrite Hd, I1, fresh_open in K3. injection K3 as Hl. destruct D as [l m]. cbn in *. unfold marksAt in H2. cbn in H2. rewrite Hm in H2.
    by subst. }
  assert (forall k, is_Some (diskAt k (withNode b' y)) <-> is_Some (diskAt k y) \/ (k.1 = name /\ 0 <= k.2 < np)) as Hs.
  { intros k. split.
    - intros [D HD]. destruct (diskAt k y) as [D0|] eqn:E; [left; by eexists|]. destruct (Hfresh k D E HD) as (? & ? & _). by right.
    - intros [[D HD]|[H1 H2]]; [exists D; by apply Hold|]. apply diskAt_is_Some. destruct k as [t p]. cbn in *. subst t. apply Hall. lia. }
  split; [|intros k D HD; exists D; split; [by apply Hold|done]].
  set (y' := withNode b' y) in *. split; change (rn_node (sy_run y')) with b'; change (rn_marks (sy_run y')) with (rn_marks (sy_run y));
    change (sy_store y') with (sy_store y); try congruence.
  - rewrite S4. apply map_Forall_insert_2; [done|exact I4].
  - intros t p. rewrite Hs, (I5 t p), S4. cbn [fst snd]. destruct (decide (t = name)) as [->|Hne].
    + rewrite lookup_insert_eq. split.
      * intros [(n & Hn & Hp)|[_ Hp]]; exists np; [split; [done|]; specialize (Hcur n Hn); lia|done].
      * intros (n & [= <-] & Hp). by right.
    + rewrite lookup_insert_ne by done. split; [|by left]. by intros [?|[? _]].
  - intros k D HD. destruct (diskAt k y) as [D0|] eqn:E.
    + rewrite (Hold k D0 E) in HD. injection HD as <-. by apply (I6 k).
    + destruct (Hfresh k D E HD) as (_ & _ & ->). done.
  - intros t p Ht Hp. rewrite S5. intros Hd. apply Hs. left. by apply I7.
  - intros k Hk. apply Hs. left. by apply I8.
Qed.

End Creating.

(** ** Starting again *)

Lemma Parse_alone id spec host port cl : Cluster.Parse id spec host port = inl cl -> Cluster.Size cl <= 1 -> alone cl.
Proof.
  intros Hp Hs. assert (exists b, brokers cl = [b] /\ Cluster.NodeID b = self cl) as (b & Hb & Hid).
  { unfold Cluster.Parse in Hp. destruct (String.eqb _ _); [injection Hp as <-; by eexists|].
    destruct (parseParts _) as [[|b0 bs]|er]; [done| |done]. set (c := mkCluster _ _) in *.
    destruct (Cluster.Broker c id) as [b|] eqn:Eb; [|done]. injection Hp as <-. unfold Cluster.Size in Hs. unfold Cluster.Broker in Eb.
    destruct (brokers c) as [|b1 [|b2 l]]; [done| |unfold zlen in Hs; cbn [length] in Hs; lia]. exists b1. split; [done|].
    cbn in Eb. destruct (Z.eqb_spec (Cluster.NodeID b1) id); done. }
  intros t p. unfold IsLeader, LeaderFor, umod, nodeAt. rewrite Hb. change (zlen [b]) with 1. change (uint32 1) with 1.
  cbn [Z.eqb mbind go_bind]. rewrite Z.mod_1_r.
  change (Ret (Cluster.NodeID b =? self cl) = Ret true). by rewrite Hid, Z.eqb_refl.
Qed.

Section Restart.
Context {C Opts : Type} `{MinioClient C Opts} (connect : string -> string * string -> bool -> string -> C + error).
Context (raft : Command -> metaState -> metaState * option error) (env : environ) (args : list string) (cl : Cluster).
Let cfg := Config.Load env args.
Let bc := brokerConfig cfg.
Context (Hcl : Cluster.Parse (Config.NodeID cfg) (Config.Brokers cfg) (AdvertisedHost cfg) (AdvertisedPort cfg) = inl cl).
Context (Hsingle : needsController cfg cl = false).

Lemma single_alone : alone cl.
Proof. unfold needsController in Hsingle. apply orb_false_elim in Hsingle as [Hs _]. eapply Parse_alone; [exact Hcl|]. by apply Z.ltb_ge. Qed.

Lemma start_single ds offsets b : New (fun _ => open_ok) bc cl ds = Ret (b, None) ->
  start connect env args okIO ds offsets ∅ = Ret (Serving (mkSystem (mkRunning b false (openedMarks b)) ∅ (NewOffsetStore offsets))).
Proof.
  intros Hb. pose proof Hsingle as Hn. unfold needsController in Hn. apply orb_false_elim in Hn as [_ Ho].
  unfold start. fold cfg. rewrite Hcl, Ho. cbn [okIO si_mkdir si_open negb]. fold bc. rewrite Hb. cbn [mbind go_bind okIO si_offsets si_listen negb].
  by rewrite Hsingle.
Qed.

(** A disk a power failure can leave opens, and the log goes on from it. *)
Lemma image_opens c D d : rtc dstep (freshDisk c) D -> power_image D d ->
  exists l, Open open_ok d (Log.cfg (dk_log D)) = Ret (inl l) /\ dstep D (afterOpen d l).
Proof.
  intros HD Hd. destruct (dsteps_durable _ _ _ _ _ _ (freshDisk_durable c) HD) as (bss & bs & kept & x & Hdu & _).
  destruct (power_durable _ _ _ _ _ _ Hdu Hd) as (l & Hl & _). exists l. split; [done|by eapply d_power].
Qed.

Lemma start_recovers y ds offsets : node_inv bc cl y -> machine_image y ds ->
  exists y', start connect env args okIO ds offsets ∅ = Ret (Serving y') /\ node_inv bc cl y' /\ goes_on_all y y' /\
    catalog (rn_node (sy_run y')) = catalog (rn_node (sy_run y)).
Proof.
  intros [I1 I2 I3 I4 I5 I6 I7 I8] [Himg Honly]. set (cat := catalog (rn_node (sy_run y))) in *.
  assert (forall t p, is_Some (diskAt (t, p) y) -> exists D d l, diskAt (t, p) y = Some D /\ ds !! partitionDir t p = Some d /\
    Open open_ok d (cfg_log bc) = Ret (inl l) /\ dstep D (afterOpen d l)) as Hopen.
  { intros t p [D HD]. destruct (Himg _ _ HD) as (d & Hd & Hp). destruct (I6 _ _ HD) as [Hr Hc].
    destruct (image_opens _ _ _ Hr Hp) as (l & Hl & Hs). rewrite Hc in Hl. by exists D, d, l. }
  destruct (New_recovers_catalog (fun _ => open_ok) bc cl ds cat I4) as (b & Hb & Hcat & Hlogs & Hl & (Hbc & Hbcl & Hct & Hds) & _).
  { split.
    - intros t n p Hn Hp. destruct (Hopen t p) as (D & d & l & _ & Hd & _); [apply I5; by exists n|by eexists].
    - intros name [Hn|(k & Hk & ->)]%Honly; [by left|right]. destruct k as [t p]. apply I5 in Hk as (n & Hn & Hp). by exists t, n, p. }
  { intros t n p Hn Hp. destruct (Hopen t p) as (D & d & l & _ & Hd & Ho & _); [apply I5; by exists n|]. exists l. by rewrite Hd. }
  exists (mkSystem (mkRunning b false (openedMarks b)) ∅ (NewOffsetStore offsets)). split; [by apply start_single|].
  set (y' := mkSystem _ _ _).
  assert (forall t p, is_Some (diskAt (t, p) y') <-> is_Some (diskAt (t, p) y)) as Hs.
  { intros t p. rewrite (I5 t p), diskAt_is_Some. apply Hlogs. }
  assert (forall t p, is_Some (diskAt (t, p) y) -> exists D d l, diskAt (t, p) y = Some D /\ diskAt (t, p) y' = Some (afterOpen d l) /\ dstep D (afterOpen d l)) as Hgo.
  { intros t p Hk. destruct (Hopen t p Hk) as (D & d & l & HD & Hd & Ho & Hstep). exists D, d, l. split_and!; [done| |done].
    apply I5 in Hk as (n & Hn & Hp). assert (logs b !! (t, p) = Some l) as Hlk by (eapply Hl; [done|done|by rewrite Hd]).
    apply diskAt_Some. split; [done|]. unfold marksAt, y', openedMarks. cbn [rn_marks sy_run]. rewrite map_lookup_imap, Hlk. cbn. by rewrite Hds, Hd. }
  split_and!; [|intros [t p] D HD; destruct (Hgo t p) as (D1 & d & l & H1 & H2 & H3); [by eexists|]; simplify_eq; exists (afterOpen d l); split; [done|by apply rtc_once]|done].
  split; change (rn_node (sy_run y')) with b; try done.
  - by rewrite Hcat.
  - intros t p. rewrite Hs, Hcat. apply I5.
  - intros [t p] D' HD'. destruct (Hgo t p) as (D & d & l & H1 & H2 & H3); [apply Hs; by eexists|]. simplify_eq. destruct (I6 _ _ H1) as [G1 G2].
    split; [by eapply rtc_r|]. by rewrite (dstep_cfg _ _ H3).
  - intros t p Ht Hp Hd. rewrite Hds in Hd. apply Hs. destruct (Honly _ Hd) as [Hx|(k & Hk & He)].
    + rewrite dirEntry_partitionDir in Hx; [done|done|solve_int|lia].
    + destruct k as [t' p']. cbn in He. apply I5 in Hk as Hc. destruct Hc as (n & Hn & Hp'). destruct (I4 _ _ Hn) as [Ht' Hn'].
      apply (f_equal dirEntry) in He. rewrite !dirEntry_partitionDir in He; [|done|solve_int|lia|done|solve_int|lia]. by simplify_eq.
  - intros [t p] Hm. apply diskAt_is_Some. unfold y', openedMarks in Hm. cbn [rn_marks sy_run] in Hm. rewrite map_lookup_imap in Hm.
    destruct (logs b !! (t, p)) as [l|] eqn:El; [|by destruct Hm]. exists l. exact El.
Qed.

Lemma life_inv y y' : node_inv bc cl y -> life connect raft env args y y' -> node_inv bc cl y' /\ goes_on_all y y'.
Proof.
  intros Hi Hl. destruct Hl as [k D b D' z HD Hb Hr Ha|now name np b' [Ht _] Hnp Hc|now name np b' Hnp Hc|now name n b' [Ht _] Hnp Hc|ticks|ticks|c Hc|g|ds offs y' Hm Hs].
  - apply run_goes_inv; [done|]. apply diskAt_Some in HD as [Hlk Hmk]. eapply step_goes; [done|]. apply rtc_once.
    rewrite <- Hmk. destruct D. by eapply d_live, d_append.
  - unfold CreateTopic in Hc. rewrite (ni_ctrl _ _ _ Hi) in Hc. destruct (catalog _ !! name) eqn:E; [done|].
    eapply register_inv; [apply single_alone|done|done|done|by rewrite E|done].
  - unfold CreatePartitions in Hc. rewrite (ni_ctrl _ _ _ Hi) in Hc. destruct (catalog _ !! name) as [cur|] eqn:E; [|done].
    destruct (Z.leb_spec np cur) as [|Hlt]; [done|]. pose proof (ni_catalog _ _ _ Hi _ _ E) as [Ht Hcur].
    eapply (register_inv _ single_alone _ _ name np); [done|done|lia| |done]. rewrite E. intros ? [= <-]. lia.
  - unfold EnsureTopic in Hc. rewrite (ni_ctrl _ _ _ Hi) in Hc. destruct (catalog _ !! name) as [cur|] eqn:E.
    + injection Hc as <- _. assert (withNode (rn_node (sy_run y)) y = y) as ->; [|done]. unfold withNode, withRun. destruct y as [[] ? ?]. done.
    + destruct (registerLocked _ _ _ _) as [[b1 [er|]]| |] eqn:Er; cbn [mbind go_bind] in Hc; try done. injection Hc as <- _.
      eapply register_inv; [apply single_alone|done|done|done|by rewrite E|done].
  - apply run_goes_inv; [done|apply flushLoop_goes].
  - apply run_goes_inv; [done|apply retentionLoop_goes].
  - split; [|intros k D HD; by exists D]. by destruct Hi.
  - split; [|intros k D HD; by exists D]. by destruct Hi.
  - destruct (start_recovers y ds offs Hi Hm) as (y2 & H1 & H2 & H3 & _). rewrite Hs in H1. by simplify_eq.
Qed.

Lemma lives_inv y y' : node_inv bc cl y -> rtc (life connect raft env args) y y' -> node_inv bc cl y' /\ goes_on_all y y'.
Proof.
  intros Hi Hl. induction Hl as [y|y y1 y2 H1 _ IH]; [done|]. destruct (life_inv _ _ Hi H1) as [Hi1 G1].
  destruct (IH Hi1) as [Hi2 G2]. split; [done|by etrans].
Qed.

Lemma first_start : exists y0, start connect env args okIO ∅ ∅ ∅ = Ret (Serving y0) /\ node_inv bc cl y0.
Proof.
  destruct (New_recovers_catalog (fun _ => open_ok) bc cl ∅ ∅) as (b & Hb & Hcat & Hlogs & _ & (Hbc & Hbcl & Hct & Hds) & _).
  - apply map_Forall_empty.
  - split; [done|]. intros name [x Hx]. done.
  - done.
  - eexists. split; [by apply start_single|]. set (y0 := mkSystem _ _ _).
    assert (forall k, ~ is_Some (diskAt k y0)) as Hno.
    { intros [t p] Hk%diskAt_is_Some. by apply Hlogs in Hk as (n & ? & _). }
    split; change (rn_node (sy_run y0)) with b; try done.
    + by rewrite Hcat.
    + intros t p. rewrite Hcat. split; [by intros ?%Hno|]. by intros (n & ? & _).
    + intros k D HD. destruct (Hno k). by eexists.
    + intros t p _ _ Hd. rewrite Hds in Hd. by destruct Hd.
    + intros k [m Hm]. apply diskAt_is_Some. unfold y0, openedMarks in Hm. cbn [rn_marks sy_run] in Hm. rewrite map_lookup_imap in Hm.
      destruct (logs b !! k) as [l|] eqn:El; [|done]. exists l. exact El.
Qed.

End Restart.

(** ** After a flush *)

(** A log that is clean is on the disk, and stays. *)
Lemma clean_keeps c D1 D3 : rtc dstep (freshDisk c) D1 -> dirty (dk_log D1) = false -> rtc dstep D1 D3 ->
  exists bss1 bs1 bss3 bs3, log_rep (dk_log D1) bss1 bs1 /\ log_rep (dk_log D3) bss3 bs3 /\
    nextOffset (dk_log D1) <= nextOffset (dk_log D3) /\ Log.EarliestOffset (dk_log D1) <= Log.EarliestOffset (dk_log D3) /\
    drop_before (Log.EarliestOffset (dk_log D3)) (contents bss1 bs1) `prefix_of` contents bss3 bs3.
Proof.
  intros H0 Hd H3. destruct (dsteps_durable _ _ _ _ _ _ (freshDisk_durable c) H0) as (bss & bs & kept & x & HD & _).
  pose proof (du_clean _ _ _ _ _ HD eq_refl Hd) as ->. destruct (dsteps_durable _ _ _ _ _ _ HD H3) as (bss3 & bs3 & kept3 & x3 & HD3 & Hx & He & Hp).
  exists bss, bs, bss3, bs3. pose proof (kept_end _ _ _ _ _ HD3). destruct (log_active _ _ _ (du_rep _ _ _ _ _ HD)) as [Ha _].
  pose proof (chained_det _ _ _ _ (du_end _ _ _ _ _ HD) (sr_chain _ _ _ Ha)). split_and!; [apply HD|apply HD3|lia|done|].
  etrans; [exact Hp|]. apply prefix_app, HD3.
Qed.

(** A flush of all logs without an error leaves each of them clean. *)
Lemma flushed_clean synced order r r1 k l : FlushAllD synced order r = (r1, None) -> k ∈ order -> logs (rn_node r1) !! k = Some l -> dirty l = false.
Proof.
  assert (forall synced order r r1 k l, FlushAllD synced order r = (r1, None) -> logs (rn_node r) !! k = Some l -> dirty l = false ->
    exists l', logs (rn_node r1) !! k = Some l' /\ dirty l' = false) as Hkeep.
  { intros synced0 order0. induction order0 as [|j order0 IH]; intros r0 r2 k0 l0; cbn [FlushAllD]; [intros [= <-]; by exists l0|].
    destruct (logs (rn_node r0) !! j) as [lj|] eqn:Ej; [|apply IH]. destruct (FlushD _ _) as [D [er|]] eqn:Ef; [done|]. intros Hf Hl Hd.
    destruct (decide (j = k0)) as [->|Hne].
    - eapply (IH _ _ _ (dk_log D)); [exact Hf|cbn; by rewrite lookup_insert_eq|]. simplify_eq. unfold FlushD, Flush in Ef. cbn in Ef.
      rewrite Hd in Ef. cbn in Ef. by injection Ef as <-.
    - eapply (IH _ _ _ l0); [exact Hf|cbn; by rewrite lookup_insert_ne|done]. }
  revert r. induction order as [|j order IH]; intros r; cbn [FlushAllD]; [by intros _ ?%elem_of_nil|].
  destruct (logs (rn_node r) !! j) as [lj|] eqn:Ej.
  - destruct (FlushD _ _) as [D [er|]] eqn:Ef; [done|]. intros Hf [->|Hin]%elem_of_cons Hl; [|by eapply IH].
    assert (dirty (dk_log D) = false) as Hd.
    { unfold FlushD, Flush in Ef. cbn in Ef. destruct (dirty lj) eqn:Edj, (synced j); cbn in Ef; try done; by injection Ef as <-. }
    destruct (Hkeep _ _ _ _ j (dk_log D) Hf) as (l' & Hl' & Hd'); [cbn; by rewrite lookup_insert_eq|done|]. congruence.
  - intros Hf [->|Hin]%elem_of_cons Hl; [|by eapply IH]. pose proof (rg_logs _ _ (FlushAllD_goes synced order r) j) as Hg. rewrite Hf in Hg.
    cbn in Hg. by rewrite Ej, Hl in Hg.
Qed.

(** ** Properties *)

Section Survival.
Context {C Opts : Type} `{MinioClient C Opts} (connect : string -> string * string -> bool -> string -> C + error).
Context (raft : Command -> metaState -> metaState * option error).


End Survival.

(** ** A node to run: the default configuration *)

Definition noConnect : string -> string * string -> bool -> string -> MemClient + error := fun _ _ _ _ => inr ErrIO.

Definition created (y : System) : System :=
  match CreateTopic applyLocked (fun _ => open_ok) 0 "orders" 1 (rn_node (sy_run y)) with Ret (b', None) => withNode b' y | _ => y end.
Definition appended (b : list byte) (y : System) : System :=
  match diskAt demoKey y with
  | Some D => match AppendD io_ok b D with Ret (D', (_, None)) => setDisk demoKey D' y | _ => y end
  | None => y
  end.

Definition demoY0 : System :=
  match start noConnect ∅ [] okIO ∅ ∅ ∅ with Ret (Serving y) => y | _ => mkSystem (mkRunning Broker.demoNode false ∅) ∅ (NewOffsetStore ∅) end.
Definition demoY : System := appended demoBatch1 (created demoY0).
Definition demoY1 : System := withRun (fst (FlushAllD (fun _ => true) [demoKey] (sy_run demoY))) demoY.
Definition demoY2 : System := appended demoBatch2 demoY1.

(** The power fails in the middle of writing the second batch back; beside the
    partition the data directory holds the one of the offsets. *)
Definition demoMachine : gmap string dir :=
  match diskAt demoKey demoY2 with
  | Some D => let a := Log.active (dk_log D) in
              <["__offsets"%string := ∅]> {[ partitionDir "orders" 0 := oneSegment (take 90 (logFile a)) (idxFile a) ]}
  | None => ∅
  end.

Lemma only_demoKey y : logs (rn_node (sy_run y)) = {[demoKey := default (freshLog demoConfig) (logs (rn_node (sy_run y)) !! demoKey)]} ->
  forall k, is_Some (diskAt k y) -> k = demoKey.
Proof. intros Hl k Hk%diskAt_is_Some. rewrite Hl in Hk. destruct Hk as [l [? _]%lookup_singleton_Some]. done. Qed.

Lemma appended_life y b D D' z :
  diskAt demoKey y = Some D -> batch_wfb b && (RecordCount (headerOf b) =? LastOffsetDelta (headerOf b) + 1) && (1 <=? RecordCount (headerOf b)) = true ->
  room (dk_log D) b (RecordCount (headerOf b)) -> AppendD io_ok b D = Ret (D', (z, None)) ->
  life noConnect applyLocked ∅ [] y (appended b y).
Proof.
  intros HD Hb Hr Ha. unfold appended. rewrite HD, Ha. eapply l_append; [exact HD|by apply producer_okb|exact Hr|exact Ha].
Qed.

Lemma demoY_life : rtc (life noConnect applyLocked ∅ []) demoY0 demoY.
Proof.
  eapply rtc_l; [|apply rtc_once].
  - eapply (l_create _ _ _ _ _ 0 "orders" 1); [split; vm_compute; reflexivity|lia|vm_compute; reflexivity].
  - eapply appended_life; [vm_compute; reflexivity|vm_compute; reflexivity|split; vm_compute; reflexivity|vm_compute; reflexivity].
Qed.

Lemma demoMachine_image : machine_image demoY2 demoMachine.
Proof.
  assert (exists D, diskAt demoKey demoY2 = Some D) as [D HD] by (eexists; vm_compute; reflexivity).
  assert (forall k, is_Some (diskAt k demoY2) -> k = demoKey) as Hk by (apply only_demoKey; vm_compute; reflexivity).
  assert (exists s, segments (dk_log D) = [s] /\ baseOffset s = 0 /\ Log.active (dk_log D) = s /\
    (marksOf 0 (dk_marks D)).1 <= zlen (take 90 (logFile s)) /\ (marksOf 0 (dk_marks D)).2 <= zlen (idxFile s)) as (s & H1 & H2 & H3 & H4 & H5).
  { vm_compute in HD. injection HD as <-. eexists. split; [reflexivity|]. split; [reflexivity|]. split; [reflexivity|]. vm_compute. split; discriminate. }
  split.
  - intros k D' HD'. assert (k = demoKey) as -> by (apply Hk; by eexists). rewrite HD in HD'. injection HD' as <-.
    unfold demoMachine. rewrite HD. exists (oneSegment (take 90 (logFile s)) (idxFile s)). rewrite H3. split.
    + rewrite lookup_insert_ne by (by vm_compute). apply lookup_singleton_eq.
    + eapply power_image_one; [exact H1|exact H2|apply prefix_take|exact H4].
  - intros name. unfold demoMachine. rewrite HD. intros Hn. apply lookup_insert_is_Some' in Hn as [<-|[x [<- _]%lookup_singleton_Some]].
    + left. vm_compute. reflexivity.
    + right. exists demoKey. split; [by eexists|done].
Qed.


(** ** Power failures and committed offsets *)

(** A power failure can take a committed offset, the older one with it.  Offset 5 is
    committed, then offset 9; both calls report success, and the second has renamed
    its new file over the first.  Neither was synced: the failure can leave the name
    with no bytes behind it, and the group starts without a committed offset. *)
Theorem power_loss_takes_commits :
  exists s1 s2, Commit CommitOk "billing" "orders" 0 5 "" (NewOffsetStore ∅) = (s1, None) /\
    Commit CommitOk "billing" "orders" 0 9 "" s1 = (s2, None) /\ Offsets.Fetch "billing" "orders" 0 s2 = (9, ""%string, true) /\
    Offsets.Fetch "billing" "orders" 0 (NewOffsetStore (const [] <$> files s2)) = (-1, ""%string, false).
Proof. do 2 eexists. do 3 (split; [vm_compute; reflexivity|]). vm_compute. reflexivity. Qed.

(** ** A restart and the high watermark *)

(** A restarted leader shows what was never committed.  Node 1 leads a partition
    with in-sync replica 3, which has fetched nothing; a batch is in the log and the
    high watermark is 0.  The node is stopped and started again: the opened log
    counts as fully committed, and the watermark is behind the batch, which replica 3
    still does not have. *)
Theorem restart_exposes_uncommitted :
  let l := runAppend demoBatch1 (Log.HoldHighWatermark (freshLog demoConfig)) in
  exists b1 b2, HighWatermark l = 0 /\ nextOffset l = 3 /\
    New (fun _ => open_ok) (b_cfg Broker.demoNode) (b_cluster Broker.demoNode) {[ partitionDir "orders" 0 := diskOf l ]} = Ret (b1, None) /\
    SetController (fun _ => open_ok) 1000 demoMeta b1 = Ret b2 /\
    v_ISR <$> Partition demoMeta "orders" 0 = Some [1; 3] /\ followers b2 = ∅ /\
    HighWatermark <$> getLog "orders" 0 b2 = Some 3.
Proof. cbv zeta. do 2 eexists. do 6 (split; [vm_compute; reflexivity|]). vm_compute. reflexivity. Qed.
